(* ===== verification/_CoqProject ===== *)
-Q . S2P
Prelude.v
Endian.v
NetBuffer.v
Timestamps.v
StdSet.v
TimerQueues.v
Channels.v
Pollers.v
DefaultPollers.v
EventLoops.v
LoopTimers.v
LoopLifetimes.v
Reactors.v
TcpConnections.v
Conversations.v
LogStreams.v
HttpServer.v
TimeWheels.v
WebServers.v
Clients.v
Servers.v
Dates.v
UtcTimes.v
Formats.v
TimeZones.v
Loggers.v
Monitors.v
Locks.v
Singletons.v
Queues.v
ThreadPools.v
LogFiles.v
SharedLogs.v
Threads.v
Addresses.v
SmallFiles.v
ThreadedServers.v
EchoPrograms.v
HttpSessions.v
Diagnostics.v
ConnectionLifetimes.v
