(* ===== verification/Prelude.v ===== *)
(** * A verification of my_muduo

    my_muduo is a C++ network library in the reactor style with a small HTTP
    server on top.  One thread runs one [EventLoop]: it asks a [Poller] which
    descriptors are ready, lets the [Channel] of each dispatch the event to its
    owner, and then runs the functors that any thread has queued.  A
    [TimerQueue] is one such owner, so are [Acceptor] (which gives new sockets
    to a [TcpServer]), [Connector] (which gives them to a [TcpClient]) and
    [TcpConnection] (which moves bytes between a socket and two [Buffer]s).
    The web server parses HTTP out of the input buffer of a connection and
    closes idle connections with a timing wheel.  The base library holds
    timestamps, dates and time zones, the logger, log files, threads, locks and
    the blocking containers.

    ** Conventions

    A definition has the name of the code it models and sits in a [Module]
    named after its class; a class is a [Record] of its members.  A call
    returns an [outcome]: [Done], or the [Fault] that stops the process (a
    failed [assert], an access out of bounds, an exception, [LOG_FATAL],
    [abort()], or undefined behaviour such as signed overflow).  Assertions are kept, as in
    a debug build.  Integers are [Z] with the conversions to their width
    written out ([u64], [i32], ...) and signed arithmetic that could overflow
    checked ([checked32], [checked64]).  Bytes are lists of [ascii].  The
    kernel, the clock, [snprintf] of a [double] and user callbacks are
    parameters, with what their documentation promises as hypotheses or as the
    laws of a class ([EpollLaws], [CTime], [InetText], [ThreadIds]), each with
    an instance that shows that it can hold.

    ** Files

    - [Prelude]: outcomes, machine integers, byte strings, notations
      ([m ⇓ x]), tactics and the lemmas that the components share.
    - [Endian], [NetBuffer]: [net/Endian.h], [net/Buffer.h], [net/Buffer.cc].
      [Buffer] keeps its vector and its two indices, with the arithmetic of
      [size_t]; its specification is a byte string ([QueueSpec]).  Every
      operation is a refinement of that of the string, integers round-trip in
      network order on either byte order, [readFd] keeps every byte, and
      [ensureWritableBytes] is characterised for every [size_t], also for the
      requests whose sums wrap.  The class [ByteQueue]
      is what [TcpConnections] needs of a buffer.
    - [Timestamps], [StdSet], [TimerQueues]: [base/Timestamp.h], the ordered
      set of the timer queue, and [net/Timer*].  Timers live on a heap, so
      that use after free, double free and address reuse are visible.  The
      queue never faults or leaks, its two indices agree, the alarm is set
      for the earliest timer, [handleRead] runs exactly the expired timers in
      order and re-arms the repeating ones, and [cancel] is exact, also inside
      a callback.
    - [Channels], [Pollers]: [net/Channel.*], [net/Poller.*],
      [net/poller/PollPoller.*], [net/poller/EPollPoller.*].  Dispatch of the
      returned bits; both pollers refine one map from descriptors to channels
      and events ([PollerLaws]), ask the kernel for exactly the events of the
      enabled channels and hand out what it reports; [epoll] is any kernel
      with [EpollLaws], which may refuse to watch a descriptor.
    - [DefaultPollers]: [net/poller/DefaultPoller.cc].  The poller that the
      environment selects keeps the same laws.
    - [EventLoops]: [net/EventLoop.*].  The loop thread is a program counter,
      other threads interleave with it between any two atomic actions.
      No functor is lost, run twice or overtaken, no wake-up is lost (but the
      one of a functor that the loop thread queues before [loop]), an
      iteration runs what was pending; [quit] before [loop] has no effect.
    - [LoopTimers], [LoopLifetimes], [Reactors]: the loop with its parts.
      Timers may be added and cancelled from any thread, but the id that
      [addTimer] returns there may be read from a freed timer; any number of threads
      construct and destroy loops with all that they own, without a leak, a
      second loop in a thread or a [::close] of a descriptor that is not open; one iteration dispatches
      each ready channel once although callbacks may change, add, remove and
      destroy channels.
    - [TcpConnections]: [net/TcpConnection.*].  The bytes that reach the
      socket are a prefix of the bytes accepted, the rest is in the buffer;
      which assertions can fail, and when, is given for every entry point; the
      write side is shut down after the last byte; the high-water mark is
      reported on crossing it.  A handler of the loop thread is one step; of a
      call from another thread the test of [state_] and the rest are two, so
      that a store of [kDisconnecting] can come too late: the callbacks run
      once each, and once more per such store.
    - [Conversations]: two connections at the ends of one TCP stream.  For any
      two programs and any interleaving, the bytes sent at one end are those
      consumed at the other, those in buffers and those in flight, in order;
      the end of the stream is read behind them; and while the sending end is
      open everything that it has accepted can still arrive.
    - [ConnectionLifetimes]: the shared and weak pointers to a connection, and
      [base/WeakCallback.h].  A connection lives until its last functor has
      run and is destroyed in its loop; what a function that runs in two steps
      can still do to it, and the calls with a bare [this] that outlive it,
      are given as schedules.
    - [Clients]: [net/Connector.*], [net/TcpClient.*] and the wrappers of
      [net/SocketsOps.cc] they use.  Descriptors are accounted for, retries
      back off, connecting again at the wrong time aborts, and the connector
      of a destroyed client calls nobody back.
    - [Servers]: [net/Acceptor.*], [net/EventLoopThreadPool.*],
      [net/TcpServer.*].  Names never collide, connections are spread round
      robin, no descriptor is leaked or closed twice even when the process runs
      out of them, whatever the kernel answers.
    - [Addresses]: [net/InetAddress.*], [net/Socket.*] and the address
      functions of [net/SocketsOps.cc].  Every address means what it was built
      from, also after a failed system call, its text is never cut and reads back; the test for a connection to itself is the
      one that [Clients] uses.
    - [LogStreams], [LogFiles]: [base/LogStream.*], [base/LogFile.*] and the
      appending half of [base/FileUtil.*].  Numbers are printed as the decimal
      text that denotes them, a line never overruns its buffer, and no line is
      split between files or lost, but for what [fwrite] refuses.
    - [Dates], [UtcTimes], [Formats], [TimeZones]: [base/Date.*],
      [base/TimeZone.*], and the text of dates and timestamps.  Julian day
      numbers follow the Gregorian calendar and back, without overflow for the
      years -4799 to 1000000; UTC times round-trip; the binary search over the
      transitions of a zone equals a linear reference; a zone file is read
      into what it encodes; local times round-trip, in the repeated hour too.
    - [Loggers]: [base/Logging.*].  A log statement makes one call of the output
      function, whose text is given for operands of any length.
    - [SharedLogs]: the logger with a log file as its output, used by many
      threads at once.  Every line is in one file, whole unless [fwrite]
      fails, a thread's lines are in its order and none is missing.
    - [SmallFiles]: the reading half of [base/FileUtil.*] and
      [base/ProcessInfo.*].  Any pattern of short reads gives the content.
    - [Monitors], [Locks]: critical sections as atomic steps of interleaved
      threads, with arbitrary choice of the notified waiter and spurious
      wake-ups; [base/Mutex.h] and [base/Condition.*] one system call at a
      time, which only reach states that the atomic sections reach.
    - [Queues], [ThreadPools]: [base/BlockingQueue.h],
      [base/BoundedBlockingQueue.h], [base/BoundedBlockingQueue_std.h],
      [base/CountDownLatch.*], [base/ThreadPool.*].  The class [Buffer] says
      what a critical section of a queue may do; first in first out and no
      lost wake-up are proved once against it.  The pool runs every accepted
      task at most once, is idle only when all have run, and [stop] returns,
      though it can strand a producer.
    - [Singletons]: [base/Singleton.h], [base/ThreadLocal.h],
      [base/ThreadLocalSingleton.h].  One object per process or per thread,
      deleted once.
    - [Threads]: [base/Thread.*], [base/Atomic.h], [net/EventLoopThread.*].
      The two threads of [startLoop] over an [EventLoop]: the handshake
      completes unless the loop is told to quit before [startLoop] returns, and
      the destructor can hang when it runs too early.
    - [HttpServer], [TimeWheels], [WebServers]: [src/web_server].  A request
      printed and cut into messages anywhere is parsed back, the parser always
      returns, a request gets one response of known text, a malformed line
      stops a debug build; the server shuts a connection down exactly when no
      request of it is younger than the life of its entry in the wheel, which
      is ten ticks, or one when it was inserted at position [0].

    - [ThreadedServers]: the same server with I/O threads, whose handlers
      interleave with the tick of the wheel in the base loop; and the main
      function of [Run.cc].
    - [HttpSessions]: the handlers of the web server as the callbacks of a
      connection, with the idle timer.  Requests that arrive in any pieces are
      answered in order by exactly the texts of their responses, but those
      that find the connection reset or shut down by the timer.
    - [EchoPrograms]: the echo server and client, whose bytes come back
      unchanged and in order, but messages that find the connection reset.
    - [Diagnostics]: the names of log files, the stack traces of
      [base/Exception.*], and the text of masks, operations and states.

    ** Bounds and fuel

    Loops over data are structural.  [convert_loop] has 20 rounds, enough for
    any 64-bit integer ([convert_ok]); the parser has one round more than
    there are bytes, always enough ([parse_terminates]) and without influence
    on the result ([parse_more]); [write_loop] has as many rounds as bytes;
    [read_loop] needs one round more than the file has bytes ([read_loop_ok]).
    [Buffer.cap] (2^61) bounds what a buffer is asked to hold, so that the
    vector stays below its [max_size].  Connection numbers are bounded by
    [int], as overflow of the counter is undefined behaviour.

    ** Not modelled

    The seconds of [waitForSeconds], a [double], are given as an integer of
    nanoseconds (timestamps and CPU times use IEEE doubles).  Functions that only
    pass on an answer of the system ([sockets::read], [ProcessInfo::pid], ...),
    pointer casts, accessors of a member, the setting that ignores [SIGPIPE],
    the [std::any] context of a loop (that of a connection is in
    [HttpSessions]), the type templates of
    [Types.h] and [StringPiece.h], the annotations of [Mutex.h] and the unit
    tests (but the one of [EventLoop]) have no model: they have no state and no decision of their own. *)
From stdpp Require Export base numbers list gmap strings.
From stdpp Require Import tactics.
From Stdlib Require Export Ascii.
From Stdlib Require String.

Declare Scope muduo_scope.
Delimit Scope muduo_scope with muduo.

(** ** Outcomes of C++ code

    A call either returns a value or stops the process.  [assert] is kept (a
    debug build); the invariants of the components show that no assertion of
    theirs fires, which makes debug and release builds agree. *)
Inductive fault : Type :=
  | AssertFailure   (* assert(...) is false *)
  | OutOfBounds     (* a pointer or index outside its object *)
  | LengthError     (* std::length_error thrown by a container *)
  | LogFatal        (* LOG_FATAL / LOG_SYSFATAL: the log is flushed, then abort() *)
  | Aborted         (* abort() called directly *)
  | Undefined.      (* undefined behaviour, such as signed overflow *)

Inductive outcome (A : Type) : Type :=
  | Done (a : A)
  | Fault (f : fault).
Arguments Done {A} a.
Arguments Fault {A} f.

Global Instance fault_eq_dec : EqDecision fault.
Proof. solve_decision. Defined.

Global Instance outcome_ret : MRet outcome := @Done.
Global Instance outcome_bind : MBind outcome := fun A B k m =>
  match m with Done a => k a | Fault f => Fault f end.
Global Instance outcome_fmap : FMap outcome := fun A B k m =>
  match m with Done a => Done (k a) | Fault f => Fault f end.

(** [m ⇓ x]: the call returns [x]; [m ↯ f]: it stops the process with [f]. *)
Notation "m ⇓ x" := (m = Done x) (at level 70, x at next level) : muduo_scope.
Notation "m ↯ f" := (m = Fault f) (at level 70, f at next level) : muduo_scope.

Definition assert_ (b : bool) : outcome unit :=
  if b then Done () else Fault AssertFailure.

(** [arr[i]] on a [std::vector] or an array: reading outside is a fault. *)
Definition at_ {A} (l : list A) (i : Z) : outcome A :=
  if bool_decide (0 <= i)%Z
  then match l !! Z.to_nat i with Some x => Done x | None => Fault OutOfBounds end
  else Fault OutOfBounds.

(** A run of operations, left to right, stopping at the first fault. *)
Fixpoint run_all {S O} (step : S -> O -> outcome S) (s : S) (ops : list O) : outcome S :=
  match ops with
  | [] => Done s
  | o :: ops => s' ← step s o; run_all step s' ops
  end.

(** ** Machine integers

    Values of C++ integer types are [Z]; conversions to a width are explicit. *)
Definition two_8 : Z := 256.
Definition two_16 : Z := 65536.
Definition two_31 : Z := 2147483648.
Definition two_32 : Z := 4294967296.
Definition two_63 : Z := 9223372036854775808.
Definition two_64 : Z := 18446744073709551616.

(** Conversion to [uint64_t]/[size_t], and to the signed types (two's complement). *)
Definition u64 (x : Z) : Z := x `mod` two_64.
Definition u32 (x : Z) : Z := x `mod` two_32.
Definition u16 (x : Z) : Z := x `mod` two_16.
Definition i64 (x : Z) : Z := ((x + two_63) `mod` two_64 - two_63)%Z.
Definition i32 (x : Z) : Z := ((x + two_31) `mod` two_32 - two_31)%Z.
Definition i16 (x : Z) : Z := ((x + 32768) `mod` two_16 - 32768)%Z.
Definition i8 (x : Z) : Z := ((x + 128) `mod` two_8 - 128)%Z.

Definition int64_range (x : Z) : Prop := (- two_63 <= x < two_63)%Z.
Definition int32_range (x : Z) : Prop := (- two_31 <= x < two_31)%Z.

(** Signed arithmetic of width 64 and 32: the exact result, or undefined behaviour. *)
Definition checked64 (x : Z) : outcome Z :=
  if bool_decide (int64_range x) then Done x else Fault Undefined.
Definition checked32 (x : Z) : outcome Z :=
  if bool_decide (int32_range x) then Done x else Fault Undefined.

Ltac unfold_widths :=
  unfold u64, u32, u16, i64, i32, i16, i8, int64_range, int32_range in *;
  unfold two_8, two_16, two_31, two_32, two_63, two_64 in *.
(** Linear arithmetic that looks through the width definitions. *)
Ltac zlia := unfold_widths; Z.to_euclidean_division_equations; lia.

Lemma u64_small x : (0 <= x < two_64)%Z -> u64 x = x.
Proof. intros. unfold u64. by apply Z.mod_small. Qed.

Lemma u64_range x : (0 <= u64 x < two_64)%Z.
Proof. by apply Z.mod_pos_bound. Qed.

Lemma i64_small x : int64_range x -> i64 x = x.
Proof. intros. zlia. Qed.

Lemma i32_small x : int32_range x -> i32 x = x.
Proof. intros. zlia. Qed.

Lemma checked64_Done x y : checked64 x = Done y <-> y = x /\ int64_range x.
Proof. unfold checked64. case_bool_decide; naive_solver. Qed.

Lemma checked64_ok x : int64_range x -> checked64 x = Done x.
Proof. intros. by apply checked64_Done. Qed.

Lemma checked32_ok x : int32_range x -> checked32 x = Done x.
Proof. intros. unfold checked32. by rewrite bool_decide_eq_true_2. Qed.

(** ** Lemmas on outcomes *)
Lemma bind_Done {A B} (m : outcome A) (k : A -> outcome B) b :
  m ≫= k = Done b <-> exists a, m = Done a /\ k a = Done b.
Proof. destruct m; simpl; unfold mbind; naive_solver. Qed.

Lemma bind_ok {A B} (m : outcome A) (k : A -> outcome B) a b : m = Done a -> k a = Done b -> m ≫= k = Done b.
Proof. intros ->. done. Qed.

Lemma assert_Done b u : assert_ b = Done u <-> b = true.
Proof. destruct b, u; naive_solver. Qed.

Lemma assert_true b : b = true -> assert_ b = Done ().
Proof. by intros ->. Qed.

Lemma at_Done {A} (l : list A) i x :
  at_ l i = Done x <-> (0 <= i)%Z /\ l !! Z.to_nat i = Some x.
Proof.
  unfold at_. case_bool_decide; [destruct (l !! _) eqn:?|]; naive_solver.
Qed.

Lemma at_ok {A} (l : list A) i :
  (0 <= i < Z.of_nat (length l))%Z -> exists x, at_ l i = Done x.
Proof.
  intros Hi. destruct (lookup_lt_is_Some_2 l (Z.to_nat i)) as [x Hx]; [lia|].
  exists x. apply at_Done. split; [lia|done].
Qed.

Lemma run_all_app {S O} (step : S -> O -> outcome S) s ops1 ops2 :
  run_all step s (ops1 ++ ops2) =
    (run_all step s ops1 ≫= fun s' => run_all step s' ops2).
Proof.
  revert s. induction ops1 as [|o ops1 IH]; intros s; [done|]. simpl.
  destruct (step s o); simpl; [apply IH|done].
Qed.

(** Invariant rule for runs: an invariant that no operation breaks (and under
    which no operation faults) holds after any run, which then completes. *)
Lemma run_all_invariant {S O} (step : S -> O -> outcome S) (I : S -> Prop) (pre : O -> Prop) :
  (forall s o, I s -> pre o -> exists s', step s o = Done s' /\ I s') ->
  forall ops s, I s -> Forall pre ops -> exists s', run_all step s ops = Done s' /\ I s'.
Proof.
  intros Hstep ops. induction ops as [|o ops IH]; intros s Hs Hops; [by exists s|].
  inversion Hops; subst. destruct (Hstep s o) as (s' & He & Hs'); [done..|].
  simpl. rewrite He. simpl. by apply IH.
Qed.

(** Invert every [bind] that is known to have returned. *)
Ltac inv_outcome :=
  repeat match goal with
  | H : (_ ≫= _) = Done _ |- _ =>
      apply bind_Done in H; destruct H as (? & ? & H)
  | H : assert_ _ = Done ?u |- _ =>
      apply assert_Done in H
  | H : Done _ = Done _ |- _ => inversion H; subst; clear H
  | H : mret _ = Done _ |- _ => inversion H; subst; clear H
  | H : Fault _ = Done _ |- _ => discriminate H
  end.

(** Go past a bind whose first call is known to have returned. *)
Ltac bind_step := cbn [mbind outcome_bind].

(** Execute the first call of a goal [m ≫= k ⇓ x] with the fact that it
    returns; an integer operation returns when its value is in range. *)
Ltac run_with H := refine (bind_ok _ _ _ _ H _); cbv beta.
Ltac int_range := unfold int32_range, int64_range, two_31, two_63; lia.
Ltac run_int :=
  repeat lazymatch goal with
  | |- checked32 _ ≫= _ = _ => eapply bind_ok; [apply checked32_ok; int_range|]; cbv beta
  | |- checked64 _ ≫= _ = _ => eapply bind_ok; [apply checked64_ok; int_range|]; cbv beta
  end.

(** Settle a decidable statement about concrete data. *)
Ltac by_computation := apply (bool_decide_unpack _); vm_compute; exact I.

(** ** Byte sequences *)
Abbreviation char := ascii.
Abbreviation bytes := (list ascii).

(** A string literal of the source as bytes (without the terminating NUL). *)
Definition lit (s : string) : bytes := String.list_ascii_of_string s.

Definition len {A} (l : list A) : Z := Z.of_nat (length l).

(** [std::string(p, p + n)] where [p] points at offset [i]. *)
Definition slice {A} (l : list A) (i n : Z) : list A :=
  take (Z.to_nat n) (drop (Z.to_nat i) l).

(** [std::copy(d, d + n, begin + i)]: overwrite in place. *)
Definition overwrite {A} (l : list A) (i : Z) (d : list A) : outcome (list A) :=
  if bool_decide (0 <= i /\ i + len d <= len l)%Z
  then Done (take (Z.to_nat i) l ++ d ++ drop (Z.to_nat (i + len d)) l)
  else Fault OutOfBounds.

(** [std::vector<char>::resize]: truncate, or extend with zeros. *)
Definition resize {A} (l : list A) (n : Z) (zero : A) : list A :=
  take (Z.to_nat n) l ++ replicate (Z.to_nat n - length l) zero.

Lemma len_nonneg {A} (l : list A) : (0 <= len l)%Z.
Proof. unfold len. lia. Qed.

Lemma len_app {A} (l1 l2 : list A) : len (l1 ++ l2) = (len l1 + len l2)%Z.
Proof. unfold len. rewrite length_app. lia. Qed.

Lemma len_slice {A} (l : list A) i n :
  (0 <= i)%Z -> (0 <= n)%Z -> (i + n <= len l)%Z -> len (slice l i n) = n.
Proof. unfold len, slice. intros. rewrite length_take, length_drop. lia. Qed.

Lemma len_resize {A} (l : list A) n (z : A) : (0 <= n)%Z -> len (resize l n z) = n.
Proof.
  intros. unfold len, resize. rewrite length_app, length_take, length_replicate. lia.
Qed.

Lemma overwrite_Done {A} (l d : list A) i :
  (0 <= i)%Z -> (i + len d <= len l)%Z ->
  overwrite l i d = Done (take (Z.to_nat i) l ++ d ++ drop (Z.to_nat (i + len d)) l).
Proof. intros. unfold overwrite. by rewrite bool_decide_eq_true_2. Qed.

Lemma len_overwritten {A} (l d : list A) i :
  (0 <= i)%Z -> (i + len d <= len l)%Z ->
  len (take (Z.to_nat i) l ++ d ++ drop (Z.to_nat (i + len d)) l) = len l.
Proof.
  intros. unfold len in *. rewrite !length_app, length_take, length_drop. lia.
Qed.

(** Reading a range that ends where the overwritten one starts. *)
Lemma slice_overwritten_snoc {A} (l d : list A) r w :
  (0 <= r <= w)%Z -> (w + len d <= len l)%Z ->
  slice (take (Z.to_nat w) l ++ d ++ drop (Z.to_nat (w + len d)) l) r (w + len d - r)
  = slice l r (w - r) ++ d.
Proof.
  intros. unfold slice, len in *.
  rewrite drop_app_le by (rewrite length_take; lia).
  rewrite (app_assoc (drop _ _)).
  rewrite take_app_le by (rewrite !length_app, !length_drop, !length_take; lia).
  rewrite take_ge by (rewrite !length_app, !length_drop, !length_take; lia).
  f_equal. rewrite skipn_firstn_comm. f_equal. lia.
Qed.

(** Reading a range that starts with the overwritten one. *)
Lemma slice_overwritten_cons {A} (l d : list A) r w :
  (0 <= r)%Z -> (r + len d <= w)%Z -> (w <= len l)%Z ->
  slice (take (Z.to_nat r) l ++ d ++ drop (Z.to_nat (r + len d)) l) r (w - r)
  = d ++ slice l (r + len d) (w - (r + len d)).
Proof.
  intros. unfold slice, len in *.
  rewrite drop_app_ge by (rewrite length_take; lia).
  rewrite length_take, Nat.min_l by lia. rewrite Nat.sub_diag, drop_0.
  rewrite take_app_ge by lia. do 2 f_equal. lia.
Qed.

Lemma slice_resize {A} (l : list A) i n m (z : A) :
  (0 <= i)%Z -> (0 <= n)%Z -> (i + n <= len l)%Z -> (len l <= m)%Z ->
  slice (resize l m z) i n = slice l i n.
Proof.
  intros. unfold slice, resize, len in *. rewrite (take_ge l) by lia.
  rewrite drop_app_le by lia. rewrite take_app_le; [done|]. rewrite length_drop. lia.
Qed.

Lemma slice_drop {A} (l : list A) i n k :
  (0 <= i)%Z -> (0 <= k <= n)%Z ->
  slice l (i + k) (n - k) = drop (Z.to_nat k) (slice l i n).
Proof.
  intros. unfold slice. rewrite skipn_firstn_comm, drop_drop.
  f_equal; [lia|]. f_equal. lia.
Qed.

Lemma slice_take {A} (l : list A) i n k :
  (0 <= k <= n)%Z -> slice l i k = take (Z.to_nat k) (slice l i n).
Proof. intros. unfold slice. rewrite take_take. f_equal. lia. Qed.

Lemma slice_full {A} (l : list A) : slice l 0 (len l) = l.
Proof. unfold slice, len. rewrite drop_0, take_ge; [done|lia]. Qed.

Create HintDb muduo.
Create Rewrite HintDb muduo.
#[export] Hint Resolve len_nonneg : muduo.
#[export] Hint Rewrite @len_app : muduo.
