(* ===== verification/Endian.v ===== *)
(** * Endian: byte order of the integers put on the wire

    Models [src/muduo/net/Endian.h] and the object representation of integers
    that [Buffer] copies with [memcpy].  The host's byte order is a parameter
    (class [Host]); the conversion functions of [<endian.h>] are the identity
    on a big-endian host and a byte swap on a little-endian one. *)
From S2P Require Import Prelude.

Local Open Scope Z_scope.

(** ** Definitions *)

Definition char_of_Z (z : Z) : char := ascii_of_N (Z.to_N (z `mod` 256)).
Definition Z_of_char (c : char) : Z := Z.of_N (N_of_ascii c).

(** The [n] low bytes of [z], least significant first, and back. *)
Fixpoint le_bytes (n : nat) (z : Z) : bytes :=
  match n with
  | O => []
  | S n => char_of_Z z :: le_bytes n (z / 256)
  end.
Fixpoint le_value (l : bytes) : Z :=
  match l with
  | [] => 0
  | c :: l => Z_of_char c + 256 * le_value l
  end.

(** Network order: most significant byte first. *)
Definition be_bytes (n : nat) (z : Z) : bytes := reverse (le_bytes n z).
Definition be_value (l : bytes) : Z := le_value (reverse l).

Inductive endianness : Type := LittleEndian | BigEndian.
Class Host := host_order : endianness.

Definition x86_64 : Host := LittleEndian.

(** Object representation of an [n]-byte integer in memory ([memcpy] from and
    to an integer object). *)
Definition mem_bytes `{Host} (n : nat) (z : Z) : bytes :=
  match host_order with LittleEndian => le_bytes n z | BigEndian => be_bytes n z end.
Definition mem_value `{Host} (l : bytes) : Z :=
  match host_order with LittleEndian => le_value l | BigEndian => be_value l end.

Definition bswap (n : nat) (z : Z) : Z := le_value (be_bytes n z).

(** [htobe16/32/64] and [be16toh/32/64] of [<endian.h>]. *)
Definition htobe `{Host} (n : nat) (z : Z) : Z :=
  match host_order with LittleEndian => bswap n z | BigEndian => z `mod` 256 ^ Z.of_nat n end.
Definition betoh `{Host} (n : nat) (z : Z) : Z := htobe n z.

Definition hostToNetwork64 `{Host} (host64 : Z) : Z := htobe 8 host64.
Definition hostToNetwork32 `{Host} (host32 : Z) : Z := htobe 4 host32.
Definition hostToNetwork16 `{Host} (host16 : Z) : Z := htobe 2 host16.
Definition networkToHost64 `{Host} (net64 : Z) : Z := betoh 8 net64.
Definition networkToHost32 `{Host} (net32 : Z) : Z := betoh 4 net32.
Definition networkToHost16 `{Host} (net16 : Z) : Z := betoh 2 net16.

(** ** Lemmas *)

Lemma Z_of_char_range c : 0 <= Z_of_char c < 256.
Proof.
  unfold Z_of_char. pose proof (N_ascii_bounded c). lia.
Qed.

Lemma Z_of_char_of_Z z : Z_of_char (char_of_Z z) = z `mod` 256.
Proof.
  unfold Z_of_char, char_of_Z. pose proof (Z.mod_pos_bound z 256 ltac:(lia)).
  rewrite N_ascii_embedding by lia. lia.
Qed.

Lemma char_of_Z_of_char c : char_of_Z (Z_of_char c) = c.
Proof.
  unfold char_of_Z. pose proof (Z_of_char_range c). rewrite Z.mod_small by done.
  unfold Z_of_char. rewrite N2Z.id. apply ascii_N_embedding.
Qed.

Lemma length_le_bytes n z : length (le_bytes n z) = n.
Proof. revert z. induction n; intros z; simpl; [done|]. by rewrite IHn. Qed.

Lemma pow256_pos n : 0 < 256 ^ Z.of_nat n.
Proof. apply Z.pow_pos_nonneg; lia. Qed.

Lemma pow256_S n : 256 ^ Z.of_nat (S n) = 256 * 256 ^ Z.of_nat n.
Proof. rewrite Nat2Z.inj_succ, Z.pow_succ_r by lia. done. Qed.

Lemma le_value_le_bytes n z : le_value (le_bytes n z) = z `mod` 256 ^ Z.of_nat n.
Proof.
  revert z. induction n as [|n IH]; intros z.
  - simpl. by rewrite Z.mod_1_r.
  - cbn [le_bytes le_value]. rewrite IH, Z_of_char_of_Z, pow256_S.
    pose proof (pow256_pos n). rewrite Z.rem_mul_r by lia. done.
Qed.

Lemma le_value_range l : 0 <= le_value l < 256 ^ Z.of_nat (length l).
Proof.
  induction l as [|c l IH]; [done|]. cbn [le_value length]. rewrite pow256_S.
  pose proof (Z_of_char_range c). lia.
Qed.

Lemma le_bytes_le_value l : le_bytes (length l) (le_value l) = l.
Proof.
  induction l as [|c l IH]; [done|]. cbn [le_value length le_bytes].
  pose proof (Z_of_char_range c) as Hc. f_equal.
  - unfold char_of_Z. rewrite (Z.mul_comm 256), Z.mod_add by lia.
    apply char_of_Z_of_char.
  - rewrite (Z.mul_comm 256), Z.div_add by lia.
    rewrite Z.div_small by done. apply IH.
Qed.

Lemma le_bytes_mod n z : le_bytes n (z `mod` 256 ^ Z.of_nat n) = le_bytes n z.
Proof.
  rewrite <-(le_bytes_le_value (le_bytes n z)).
  by rewrite length_le_bytes, le_value_le_bytes.
Qed.

Lemma length_be_bytes n z : length (be_bytes n z) = n.
Proof. unfold be_bytes. by rewrite length_reverse, length_le_bytes. Qed.

Lemma be_value_be_bytes n z : be_value (be_bytes n z) = z `mod` 256 ^ Z.of_nat n.
Proof. unfold be_value, be_bytes. rewrite reverse_involutive. apply le_value_le_bytes. Qed.

Lemma le_bytes_bswap n z : le_bytes n (bswap n z) = be_bytes n z.
Proof.
  unfold bswap. rewrite <-(length_be_bytes n z) at 1. apply le_bytes_le_value.
Qed.

Lemma bswap_range n z : 0 <= bswap n z < 256 ^ Z.of_nat n.
Proof. pose proof (le_value_range (be_bytes n z)) as Hr. by rewrite length_be_bytes in Hr. Qed.

Lemma be_bytes_congr n z1 z2 :
  z1 `mod` 256 ^ Z.of_nat n = z2 `mod` 256 ^ Z.of_nat n -> be_bytes n z1 = be_bytes n z2.
Proof. intros Heq. unfold be_bytes. by rewrite <-le_bytes_mod, Heq, le_bytes_mod. Qed.

Section host.
Context `{Host}.

Lemma length_mem_bytes n z : length (mem_bytes n z) = n.
Proof.
  unfold mem_bytes. destruct host_order; [apply length_le_bytes|apply length_be_bytes].
Qed.

Lemma mem_value_mem_bytes n z : mem_value (mem_bytes n z) = z `mod` 256 ^ Z.of_nat n.
Proof.
  unfold mem_value, mem_bytes.
  destruct host_order; [apply le_value_le_bytes|apply be_value_be_bytes].
Qed.

Lemma mem_bytes_mod n z : mem_bytes n (z `mod` 256 ^ Z.of_nat n) = mem_bytes n z.
Proof.
  unfold mem_bytes, be_bytes. destruct host_order; by rewrite le_bytes_mod.
Qed.

(** Whatever the host, the bytes in memory of a converted integer are its
    network-order bytes. *)
Lemma mem_bytes_htobe n z : mem_bytes n (htobe n z) = be_bytes n z.
Proof.
  unfold mem_bytes, htobe. destruct host_order; [apply le_bytes_bswap|].
  unfold be_bytes. by rewrite le_bytes_mod.
Qed.

Lemma htobe_range n z : 0 <= htobe n z < 256 ^ Z.of_nat n.
Proof.
  unfold htobe. destruct host_order; [apply bswap_range|].
  apply Z.mod_pos_bound, pow256_pos.
Qed.

Lemma betoh_htobe n z : betoh n (htobe n z) = z `mod` 256 ^ Z.of_nat n.
Proof.
  unfold betoh, htobe. destruct host_order.
  - unfold bswap at 1, be_bytes. rewrite le_bytes_bswap. unfold be_bytes.
    rewrite reverse_involutive. apply le_value_le_bytes.
  - apply Z.mod_mod. pose proof (pow256_pos n). lia.
Qed.

(** Reading network-order bytes through memory and [betoh] gives the value. *)
Lemma betoh_mem_value n l : length l = n -> betoh n (mem_value l) = be_value l.
Proof.
  intros <-. unfold betoh, htobe, mem_value. destruct host_order.
  - unfold bswap, be_bytes, be_value. by rewrite le_bytes_le_value.
  - apply Z.mod_small. unfold be_value. rewrite <-length_reverse. apply le_value_range.
Qed.

Lemma mem_value_range l : 0 <= mem_value l < 256 ^ Z.of_nat (length l).
Proof.
  unfold mem_value, be_value. destruct host_order; [apply le_value_range|].
  rewrite <-length_reverse. apply le_value_range.
Qed.

Lemma mem_bytes_congr n z1 z2 :
  z1 `mod` 256 ^ Z.of_nat n = z2 `mod` 256 ^ Z.of_nat n -> mem_bytes n z1 = mem_bytes n z2.
Proof. intros Heq. by rewrite <-mem_bytes_mod, Heq, mem_bytes_mod. Qed.

End host.
