(* ===== verification/NetBuffer.v ===== *)
(** * NetBuffer: the growable byte queue of the connections

    Models the class [Buffer] of [src/muduo/net/Buffer.h] and
    [src/muduo/net/Buffer.cc].  The state is the vector and the two [size_t]
    indices; all index arithmetic wraps at 64 bits as in the code.  A
    [const char*] into the buffer is its offset from [begin()].

    Theorems: the representation invariant [wf] is preserved and no assertion
    fires; every operation refines the abstract byte queue [content]; integers
    round-trip through the buffer in network order whatever the host order;
    the scatter read of [readFd] keeps every byte; requests close to
    [SIZE_MAX] defeat the space check. *)
From S2P Require Import Prelude Endian.

Local Open Scope Z_scope.

(** [std::search] for a two-byte pattern and [memchr], on a byte sequence:
    the offset of the first match. *)
Fixpoint search2 (a b : char) (l : bytes) : option Z :=
  match l with
  | x :: ((y :: _) as l') =>
      if bool_decide (x = a /\ y = b) then Some 0 else Z.succ <$> search2 a b l'
  | _ => None
  end.
Fixpoint memchr (c : char) (l : bytes) : option Z :=
  match l with
  | [] => None
  | x :: l' => if bool_decide (x = c) then Some 0 else Z.succ <$> memchr c l'
  end.

Module Buffer.

Definition kCheapPrepend : Z := 8.
Definition kInitialSize : Z := 1024.
Definition CR : char := "013"%char.
Definition LF : char := "010"%char.
Definition kCRLF : bytes := [CR; LF].

(** [std::vector<char>::max_size()]: objects are at most [PTRDIFF_MAX] bytes. *)
Definition max_size : Z := two_63 - 1.

Record t : Type := mk {
  buffer_ : bytes;
  readerIndex_ : Z;
  writerIndex_ : Z;
}.

Definition size (b : t) : Z := len (buffer_ b).
Definition readableBytes (b : t) : Z := u64 (writerIndex_ b - readerIndex_ b).
Definition writableBytes (b : t) : Z := u64 (size b - writerIndex_ b).
Definition prependableBytes (b : t) : Z := readerIndex_ b.
Definition peek (b : t) : Z := readerIndex_ b.
Definition beginWrite (b : t) : Z := writerIndex_ b.

(** [buffer_.resize(n)], which throws above [max_size()]. *)
Definition vector_resize (l : bytes) (n : Z) : outcome bytes :=
  if bool_decide (n <= max_size) then Done (resize l n "000"%char) else Fault LengthError.

Definition init (initialSize : Z) : outcome t :=
  l ← vector_resize [] (u64 (kCheapPrepend + initialSize));
  let b := mk l kCheapPrepend kCheapPrepend in
  assert_ (bool_decide (readableBytes b = 0));;
  assert_ (bool_decide (writableBytes b = initialSize));;
  assert_ (bool_decide (prependableBytes b = kCheapPrepend));;
  mret b.

(** [a.swap(b)]: the pair of the new values of [a] and [b]. *)
Definition swap (a b : t) : t * t :=
  (mk (buffer_ b) (readerIndex_ b) (writerIndex_ b),
   mk (buffer_ a) (readerIndex_ a) (writerIndex_ a)).

(** The bytes of [[start, beginWrite())]. *)
Definition range_from (b : t) (start : Z) : bytes :=
  slice (buffer_ b) start (writerIndex_ b - start).

Definition findCRLF (b : t) : option Z :=
  (fun i => peek b + i) <$> search2 CR LF (range_from b (peek b)).
Definition findCRLF_from (b : t) (start : Z) : outcome (option Z) :=
  assert_ (bool_decide (peek b <= start));;
  assert_ (bool_decide (start <= beginWrite b));;
  mret ((fun i => start + i) <$> search2 CR LF (range_from b start)).
Definition findEOL (b : t) : option Z :=
  (fun i => peek b + i) <$> memchr LF (slice (buffer_ b) (peek b) (readableBytes b)).
Definition findEOL_from (b : t) (start : Z) : outcome (option Z) :=
  assert_ (bool_decide (peek b <= start));;
  assert_ (bool_decide (start <= beginWrite b));;
  mret ((fun i => start + i) <$> memchr LF (range_from b start)).

Definition retrieveAll (b : t) : t := mk (buffer_ b) kCheapPrepend kCheapPrepend.

Definition retrieve (b : t) (n : Z) : outcome t :=
  assert_ (bool_decide (n <= readableBytes b));;
  if bool_decide (n < readableBytes b)
  then mret (mk (buffer_ b) (u64 (readerIndex_ b + n)) (writerIndex_ b))
  else mret (retrieveAll b).

Definition retrieveUntil (b : t) (end_ : Z) : outcome t :=
  assert_ (bool_decide (peek b <= end_));;
  assert_ (bool_decide (end_ <= beginWrite b));;
  retrieve b (end_ - peek b).

Definition retrieveInt64 (b : t) : outcome t := retrieve b 8.
Definition retrieveInt32 (b : t) : outcome t := retrieve b 4.
Definition retrieveInt16 (b : t) : outcome t := retrieve b 2.
Definition retrieveInt8 (b : t) : outcome t := retrieve b 1.

Definition retrieveAsString (b : t) (n : Z) : outcome (bytes * t) :=
  assert_ (bool_decide (n <= readableBytes b));;
  let result := slice (buffer_ b) (peek b) n in
  b' ← retrieve b n;
  mret (result, b').
Definition retrieveAllAsString (b : t) : outcome (bytes * t) :=
  retrieveAsString b (readableBytes b).

(** [StringPiece(peek(), static_cast<int>(readableBytes()))]: the length goes
    through [int] and then to the [size_t] of [std::string_view]; a view that
    would leave the vector is a fault. *)
Definition toStringPiece (b : t) : outcome bytes :=
  let n := u64 (i32 (readableBytes b)) in
  if bool_decide (peek b + n <= size b)
  then mret (slice (buffer_ b) (peek b) n) else Fault OutOfBounds.

Definition hasWritten (b : t) (n : Z) : outcome t :=
  assert_ (bool_decide (n <= writableBytes b));;
  mret (mk (buffer_ b) (readerIndex_ b) (u64 (writerIndex_ b + n))).
Definition unwrite (b : t) (n : Z) : outcome t :=
  assert_ (bool_decide (n <= readableBytes b));;
  mret (mk (buffer_ b) (readerIndex_ b) (u64 (writerIndex_ b - n))).

(** The [std::copy] of [makeSpace] moves towards the front, so its overlapping
    ranges are copied correctly: the result is the old readable bytes. *)
Definition makeSpace (b : t) (n : Z) : outcome t :=
  if bool_decide (u64 (writableBytes b + prependableBytes b) < u64 (n + kCheapPrepend))
  then
    l ← vector_resize (buffer_ b) (u64 (writerIndex_ b + n));
    mret (mk l (readerIndex_ b) (writerIndex_ b))
  else
    assert_ (bool_decide (kCheapPrepend < readerIndex_ b));;
    let readable := readableBytes b in
    l ← overwrite (buffer_ b) kCheapPrepend
          (slice (buffer_ b) (readerIndex_ b) (writerIndex_ b - readerIndex_ b));
    let b' := mk l kCheapPrepend (u64 (kCheapPrepend + readable)) in
    assert_ (bool_decide (readable = readableBytes b'));;
    mret b'.

Definition ensureWritableBytes (b : t) (n : Z) : outcome t :=
  b' ← (if bool_decide (writableBytes b < n) then makeSpace b n else mret b);
  assert_ (bool_decide (n <= writableBytes b'));;
  mret b'.

Definition append (b : t) (data : bytes) : outcome t :=
  b1 ← ensureWritableBytes b (len data);
  l ← overwrite (buffer_ b1) (beginWrite b1) data;
  hasWritten (mk l (readerIndex_ b1) (writerIndex_ b1)) (len data).

Definition prepend (b : t) (data : bytes) : outcome t :=
  assert_ (bool_decide (len data <= prependableBytes b));;
  let r := u64 (readerIndex_ b - len data) in
  l ← overwrite (buffer_ b) r data;
  mret (mk l r (writerIndex_ b)).

Definition shrink (b : t) (reserve : Z) : outcome t :=
  other ← init kInitialSize;
  other ← ensureWritableBytes other (u64 (readableBytes b + reserve));
  s ← toStringPiece b;
  other ← append other s;
  mret (fst (swap b other)).

(** Integers in network order.  An [intN_t] argument is converted to
    [uintN_t], byte-swapped and converted back before its representation is
    copied. *)
Section integers.
Context `{Host}.

Definition appendInt64 (b : t) (x : Z) : outcome t :=
  let be64 := i64 (hostToNetwork64 (u64 x)) in append b (mem_bytes 8 be64).
Definition appendInt32 (b : t) (x : Z) : outcome t :=
  let be32 := i32 (hostToNetwork32 (u32 x)) in append b (mem_bytes 4 be32).
Definition appendInt16 (b : t) (x : Z) : outcome t :=
  let be16 := i16 (hostToNetwork16 (u16 x)) in append b (mem_bytes 2 be16).
Definition appendInt8 (b : t) (x : Z) : outcome t := append b (mem_bytes 1 x).

Definition peekInt64 (b : t) : outcome Z :=
  assert_ (bool_decide (8 <= readableBytes b));;
  let be64 := i64 (mem_value (slice (buffer_ b) (peek b) 8)) in
  mret (i64 (networkToHost64 (u64 be64))).
Definition peekInt32 (b : t) : outcome Z :=
  assert_ (bool_decide (4 <= readableBytes b));;
  let be32 := i32 (mem_value (slice (buffer_ b) (peek b) 4)) in
  mret (i32 (networkToHost32 (u32 be32))).
Definition peekInt16 (b : t) : outcome Z :=
  assert_ (bool_decide (2 <= readableBytes b));;
  let be16 := i16 (mem_value (slice (buffer_ b) (peek b) 2)) in
  mret (i16 (networkToHost16 (u16 be16))).
Definition peekInt8 (b : t) : outcome Z :=
  assert_ (bool_decide (1 <= readableBytes b));;
  c ← at_ (buffer_ b) (peek b);
  mret (i8 (Z_of_char c)).

Definition readInt64 (b : t) : outcome (Z * t) :=
  result ← peekInt64 b; b' ← retrieveInt64 b; mret (result, b').
Definition readInt32 (b : t) : outcome (Z * t) :=
  result ← peekInt32 b; b' ← retrieveInt32 b; mret (result, b').
Definition readInt16 (b : t) : outcome (Z * t) :=
  result ← peekInt16 b; b' ← retrieveInt16 b; mret (result, b').
Definition readInt8 (b : t) : outcome (Z * t) :=
  result ← peekInt8 b; b' ← retrieveInt8 b; mret (result, b').

Definition prependInt64 (b : t) (x : Z) : outcome t :=
  let be64 := i64 (hostToNetwork64 (u64 x)) in prepend b (mem_bytes 8 be64).
Definition prependInt32 (b : t) (x : Z) : outcome t :=
  let be32 := i32 (hostToNetwork32 (u32 x)) in prepend b (mem_bytes 4 be32).
Definition prependInt16 (b : t) (x : Z) : outcome t :=
  let be16 := i16 (hostToNetwork16 (u16 x)) in prepend b (mem_bytes 2 be16).
Definition prependInt8 (b : t) (x : Z) : outcome t := prepend b (mem_bytes 1 x).
End integers.

(** [readv(2)] is a parameter: given the lengths of the [iovec]s it returns an
    [errno] or the bytes it received, which fill the buffers in order. *)
Definition readv_t : Type := list Z -> Z + bytes.
Definition extrabuf_size : Z := 65536.

Definition readv_ok (readv : readv_t) : Prop :=
  forall iov data, Forall (fun n => 0 <= n) iov ->
    readv iov = inr data -> len data <= foldr Z.add 0 iov.

(** The result of [read(2)], the saved [errno] if it failed, the buffer.  A
    kernel that wrote past the [iovec]s would corrupt memory. *)
Definition readFd (readv : readv_t) (b : t) : outcome (Z * option Z * t) :=
  let writable := writableBytes b in
  let iov := if bool_decide (writable < extrabuf_size)
             then [writable; extrabuf_size] else [writable] in
  match readv iov with
  | inl errno => mret (-1, Some errno, b)
  | inr data =>
      let n := len data in
      if bool_decide (foldr Z.add 0 iov < n) then Fault OutOfBounds else
      l ← overwrite (buffer_ b) (writerIndex_ b) (slice data 0 (Z.min n writable));
      if bool_decide (n <= writable)
      then mret (n, None, mk l (readerIndex_ b) (u64 (writerIndex_ b + n)))
      else
        b2 ← append (mk l (readerIndex_ b) (len l)) (slice data writable (n - writable));
        mret (n, None, b2)
  end.

(** ** Specification *)

(** [0 <= readerIndex <= writerIndex <= size], the picture of the class
    comment, with [size] within [max_size()] and
    room for the prepend area. *)
Definition wf (b : t) : Prop :=
  0 <= readerIndex_ b <= writerIndex_ b /\ writerIndex_ b <= size b <= max_size /\
  kCheapPrepend <= size b.

(** A buffer that holds at most [cap] bytes never reaches [max_size()]. *)
Definition cap : Z := 2305843009213693952.

(** The abstract state: the readable bytes. *)
Definition content (b : t) : bytes :=
  slice (buffer_ b) (readerIndex_ b) (writerIndex_ b - readerIndex_ b).
End Buffer.

(** ** Lemmas *)
Module BufferFacts.
Import Buffer.

Ltac unfold_buffer := unfold wf, size, max_size, kCheapPrepend, prependableBytes, peek, beginWrite in *.

Lemma readable_wf b : wf b -> readableBytes b = writerIndex_ b - readerIndex_ b.
Proof. intros. unfold readableBytes. apply u64_small. unfold_buffer. zlia. Qed.

Lemma writable_wf b : wf b -> writableBytes b = size b - writerIndex_ b.
Proof. intros. unfold writableBytes. apply u64_small. unfold_buffer. zlia. Qed.

Lemma len_content b : wf b -> len (content b) = writerIndex_ b - readerIndex_ b.
Proof. intros. unfold content. unfold_buffer. apply len_slice; lia. Qed.

Lemma readable_content b : wf b -> readableBytes b = len (content b).
Proof. intros. by rewrite readable_wf, len_content. Qed.

(** Compacting, when the comparison of [makeSpace] finds enough room. *)
Lemma makeSpace_moves b n : wf b -> u64 (n + kCheapPrepend) <= size b - len (content b) ->
  if bool_decide (kCheapPrepend < readerIndex_ b) then
    exists b', makeSpace b n = Done b' /\ wf b' /\ content b' = content b /\ size b' = size b /\ readerIndex_ b' = kCheapPrepend
  else makeSpace b n = Fault AssertFailure.
Proof.
  intros Hwf Hfree. pose proof (len_content b Hwf) as Hl. unfold makeSpace. rewrite writable_wf by done.
  rewrite (bool_decide_eq_false_2 (u64 _ < u64 _)) by (rewrite (u64_small (_ - _ + _)) by (unfold_buffer; zlia); unfold_buffer; lia).
  case_bool_decide as Hr; [|done]. simpl. change (slice _ _ _) with (content b).
  assert (kCheapPrepend + len (content b) <= size b) by (unfold_buffer; lia).
  rewrite overwrite_Done by done. simpl. rewrite !readable_content by done.
  rewrite u64_small by (pose proof (len_nonneg (content b)); unfold_buffer; zlia).
  match goal with |- context [assert_ (bool_decide (_ = readableBytes ?x))] => set (b' := x) end.
  assert (size b' = size b) as Hs by (by apply len_overwritten).
  assert (wf b') as Hwf'.
  { unfold wf. rewrite Hs. unfold b'; simpl. pose proof (len_nonneg (content b)). unfold_buffer. lia. }
  rewrite assert_true by (apply bool_decide_eq_true_2; rewrite readable_wf by done; simpl; lia).
  simpl. exists b'. split_and!; [done..| |done|done].
  unfold content at 1, b'; simpl.
  rewrite (slice_overwritten_snoc (buffer_ b) (content b) kCheapPrepend kCheapPrepend) by done.
  by rewrite Z.sub_diag.
Qed.

(** Growing by [resize] and compacting both keep the readable bytes. *)
Lemma makeSpace_spec b n :
  wf b -> writableBytes b < n -> n + kCheapPrepend < two_64 ->
  (writableBytes b + prependableBytes b < n + kCheapPrepend ->
   writerIndex_ b + n <= max_size) ->
  exists b', makeSpace b n = Done b' /\ wf b' /\ content b' = content b /\
    n <= size b' - writerIndex_ b'.
Proof.
  intros Hwf Hn Hw Hroom. rewrite writable_wf in * by done. pose proof (len_content b Hwf) as Hl.
  destruct (decide (size b - writerIndex_ b + prependableBytes b < n + kCheapPrepend)) as [Hc|Hc].
  - specialize (Hroom Hc). unfold makeSpace. rewrite writable_wf by done.
    rewrite !u64_small by (unfold_buffer; zlia). rewrite bool_decide_eq_true_2 by done.
    unfold vector_resize. rewrite bool_decide_eq_true_2 by done. simpl.
    eexists; split; [done|]. unfold content, wf, size; simpl.
    rewrite len_resize by (unfold_buffer; lia).
    split_and!; try (unfold_buffer; lia).
    apply slice_resize; unfold_buffer; lia.
  - pose proof (makeSpace_moves b n Hwf) as Hm. rewrite u64_small in Hm by (unfold_buffer; zlia).
    rewrite bool_decide_eq_true_2 in Hm by (unfold_buffer; lia). destruct Hm as (b' & Hb' & Hwf' & Hc' & Hs & Hr); [unfold_buffer; lia|].
    exists b'. split_and!; [done..|]. pose proof (len_content b' Hwf') as Hl'. rewrite Hc', Hr in Hl'. unfold_buffer. lia.
Qed.

Lemma ensureWritableBytes_spec b n :
  wf b -> 0 <= n -> len (content b) + n <= cap ->
  exists b', ensureWritableBytes b n = Done b' /\ wf b' /\ content b' = content b /\
    n <= size b' - writerIndex_ b'.
Proof.
  intros Hwf Hn Hcap. unfold ensureWritableBytes.
  assert (exists b', (if bool_decide (writableBytes b < n) then makeSpace b n else mret b) = Done b'
    /\ wf b' /\ content b' = content b /\ n <= size b' - writerIndex_ b') as (b' & -> & Hwf' & Hc & Hs).
  { case_bool_decide as Hw.
    - apply makeSpace_spec; [done..| |]; rewrite ?writable_wf in * by done;
        rewrite len_content in Hcap by done; unfold cap in Hcap; unfold_buffer; zlia.
    - exists b. rewrite writable_wf in Hw by done. split_and!; [done..|lia]. }
  simpl. rewrite assert_true by (apply bool_decide_eq_true_2; rewrite writable_wf by done; lia).
  by exists b'.
Qed.

Lemma append_spec b d :
  wf b -> len (content b) + len d <= cap ->
  exists b', append b d = Done b' /\ wf b' /\ content b' = content b ++ d.
Proof.
  intros Hwf Hcap. unfold append. pose proof (len_nonneg d) as Hd.
  destruct (ensureWritableBytes_spec b (len d)) as (b1 & -> & Hwf1 & Hc1 & Hs1); [done..|].
  simpl. unfold beginWrite. rewrite overwrite_Done by (unfold_buffer; lia). simpl.
  unfold hasWritten. rewrite assert_true; simpl.
  2: { apply bool_decide_eq_true_2. unfold writableBytes, size; simpl.
       rewrite len_overwritten by (unfold_buffer; lia).
       fold (size b1). rewrite u64_small; unfold_buffer; zlia. }
  rewrite u64_small by (unfold_buffer; zlia).
  eexists; split; [done|]. rewrite <-Hc1. unfold wf, content, size; simpl.
  rewrite len_overwritten by (unfold_buffer; lia). split; [unfold_buffer; lia|].
  by rewrite slice_overwritten_snoc by (unfold_buffer; lia).
Qed.

Lemma retrieveAll_spec b : wf b -> wf (retrieveAll b) /\ content (retrieveAll b) = [].
Proof. intros Hwf. split; [|done]. unfold wf, size in *; simpl. unfold_buffer. lia. Qed.

Lemma retrieve_spec b n :
  wf b -> 0 <= n <= len (content b) ->
  exists b', retrieve b n = Done b' /\ wf b' /\ content b' = drop (Z.to_nat n) (content b).
Proof.
  intros Hwf Hn. unfold retrieve. rewrite readable_content by done.
  rewrite assert_true by (apply bool_decide_eq_true_2; lia). simpl.
  rewrite len_content in Hn by done. case_bool_decide as Hlt.
  - rewrite u64_small by (unfold_buffer; zlia). eexists; split; [done|].
    rewrite len_content in Hlt by done. split; [unfold wf, size in *; simpl; unfold_buffer; lia|].
    unfold content; simpl. rewrite <-slice_drop by (unfold_buffer; lia). f_equal. lia.
  - eexists; split; [done|]. destruct (retrieveAll_spec b) as [? ->]; [done|]. split; [done|].
    rewrite drop_ge; [done|]. unfold len in Hlt. lia.
Qed.

Lemma retrieve_overrun b n : wf b -> len (content b) < n -> retrieve b n = Fault AssertFailure.
Proof.
  intros. unfold retrieve. rewrite readable_content by done.
  rewrite (bool_decide_eq_false_2 (n <= _)) by lia. reflexivity.
Qed.

Lemma slice_content b n :
  wf b -> 0 <= n <= len (content b) ->
  slice (buffer_ b) (readerIndex_ b) n = take (Z.to_nat n) (content b).
Proof.
  intros Hwf Hn. unfold content. apply slice_take. rewrite len_content in Hn by done. lia.
Qed.

Lemma retrieveUntil_spec b n :
  wf b -> 0 <= n <= len (content b) ->
  exists b', retrieveUntil b (peek b + n) = Done b' /\ wf b' /\
    content b' = drop (Z.to_nat n) (content b).
Proof.
  intros Hwf Hn. unfold retrieveUntil.
  rewrite (assert_true (bool_decide (peek b <= _))) by (apply bool_decide_eq_true_2; lia). simpl.
  rewrite assert_true; simpl.
  2: { apply bool_decide_eq_true_2. rewrite len_content in Hn by done. unfold_buffer. lia. }
  replace (peek b + n - peek b) with n by lia. by apply retrieve_spec.
Qed.

Lemma retrieveAsString_spec b n :
  wf b -> 0 <= n <= len (content b) ->
  exists b', retrieveAsString b n = Done (take (Z.to_nat n) (content b), b') /\ wf b' /\
    content b' = drop (Z.to_nat n) (content b).
Proof.
  intros Hwf Hn. unfold retrieveAsString. rewrite readable_content by done.
  rewrite assert_true by (apply bool_decide_eq_true_2; lia). simpl.
  destruct (retrieve_spec b n) as (b' & -> & ? & ?); [done..|]. simpl.
  exists b'. unfold peek. by rewrite slice_content.
Qed.

Lemma retrieveAllAsString_spec b :
  wf b -> exists b', retrieveAllAsString b = Done (content b, b') /\ wf b' /\ content b' = [].
Proof.
  intros Hwf. unfold retrieveAllAsString. rewrite readable_content by done.
  destruct (retrieveAsString_spec b (len (content b))) as (b' & -> & ? & Hc);
    [done|pose proof (len_nonneg (content b)); lia|].
  unfold len in *. rewrite Nat2Z.id in *. rewrite take_ge by lia.
  exists b'. split_and!; [done..|]. rewrite Hc. by apply drop_ge.
Qed.

Lemma prepend_spec b d :
  wf b -> len d <= readerIndex_ b ->
  exists b', prepend b d = Done b' /\ wf b' /\ content b' = d ++ content b.
Proof.
  intros Hwf Hd. unfold prepend. pose proof (len_nonneg d).
  rewrite assert_true by (apply bool_decide_eq_true_2; done). simpl.
  rewrite u64_small by (unfold_buffer; zlia).
  rewrite overwrite_Done by (unfold_buffer; lia). simpl. eexists; split; [done|].
  unfold wf, content, size; simpl. rewrite len_overwritten by (unfold_buffer; lia).
  split; [unfold_buffer; lia|].
  rewrite slice_overwritten_cons by (unfold_buffer; lia). do 2 f_equal; lia.
Qed.

Lemma prepend_overrun b d : readerIndex_ b < len d -> prepend b d = Fault AssertFailure.
Proof.
  intros. unfold prepend, prependableBytes.
  rewrite (bool_decide_eq_false_2 (len d <= _)) by lia. reflexivity.
Qed.

Lemma unwrite_spec b n :
  wf b -> 0 <= n <= len (content b) ->
  exists b', unwrite b n = Done b' /\ wf b' /\
    content b' = take (Z.to_nat (len (content b) - n)) (content b).
Proof.
  intros Hwf Hn. unfold unwrite. rewrite readable_content by done.
  rewrite assert_true by (apply bool_decide_eq_true_2; lia). simpl.
  rewrite len_content in * by done. rewrite u64_small by (unfold_buffer; zlia).
  eexists; split; [done|]. split; [unfold wf, size in *; simpl; unfold_buffer; lia|].
  unfold content; simpl. rewrite <-slice_take by lia. f_equal. lia.
Qed.

Lemma toStringPiece_spec b :
  wf b -> len (content b) < two_31 -> toStringPiece b = Done (content b).
Proof.
  intros Hwf Hn. unfold toStringPiece. pose proof (len_nonneg (content b)) as Hp.
  rewrite readable_content, i32_small, u64_small by (done || zlia).
  rewrite bool_decide_eq_true_2 by (rewrite len_content by done; unfold_buffer; lia).
  unfold peek. rewrite slice_content by (done || lia). simpl. unfold len.
  by rewrite Nat2Z.id, take_ge.
Qed.

Lemma init_spec n :
  0 <= n <= cap -> exists b, init n = Done b /\ wf b /\ content b = [] /\ size b = kCheapPrepend + n.
Proof.
  intros Hn. unfold cap in Hn. unfold init. rewrite u64_small by (unfold_buffer; zlia).
  unfold vector_resize. rewrite bool_decide_eq_true_2 by (unfold_buffer; zlia).
  unfold mbind at 1, outcome_bind at 1.
  set (b := mk (resize [] (kCheapPrepend + n) "000"%char) kCheapPrepend kCheapPrepend).
  assert (size b = kCheapPrepend + n) as Hsz
    by (unfold size, b; simpl; apply len_resize; unfold_buffer; lia).
  assert (wf b) as Hwf by (unfold wf; rewrite Hsz; unfold b; simpl; unfold_buffer; zlia).
  rewrite readable_wf, writable_wf, Hsz by done. unfold prependableBytes, b at 1 2; simpl.
  rewrite !assert_true by (apply bool_decide_eq_true_2; lia). simpl.
  exists b. by split_and!.
Qed.

Lemma shrink_spec b reserve :
  wf b -> len (content b) < two_31 -> 0 <= reserve -> len (content b) + reserve <= cap ->
  exists b', shrink b reserve = Done b' /\ wf b' /\ content b' = content b.
Proof.
  intros Hwf Hn Hr Hcap. unfold shrink. pose proof (len_nonneg (content b)) as Hp.
  destruct (init_spec kInitialSize) as (o & -> & Hwfo & Hco & _); [done|]. simpl.
  rewrite readable_content, u64_small by (done || unfold cap in *; zlia).
  destruct (ensureWritableBytes_spec o (len (content b) + reserve)) as (o1 & -> & Hwf1 & Hc1 & _);
    [done|lia|rewrite Hco; unfold len at 1; simpl; lia|]. simpl.
  rewrite toStringPiece_spec by done. simpl.
  destruct (append_spec o1 (content b)) as (o2 & -> & Hwf2 & Hc2);
    [done|rewrite Hc1, Hco; unfold len at 1; simpl; lia|]. simpl.
  exists o2. rewrite Hc2, Hc1, Hco. destruct o2. by split_and!.
Qed.

(** Dropping a known prefix. *)
Lemma read_front {A} b l rest (x : A) :
  wf b -> content b = l ++ rest ->
  exists b', (result ← Done x; b' ← retrieve b (Z.of_nat (length l)); mret (result, b')) = Done (x, b') /\
    wf b' /\ content b' = rest.
Proof.
  intros Hwf Hc. destruct (retrieve_spec b (Z.of_nat (length l))) as (b' & He & Hwf' & Hc').
  - done.
  - rewrite Hc. unfold len. rewrite length_app. lia.
  - exists b'. simpl. rewrite He. split_and!; [done..|].
    by rewrite Hc', Hc, Nat2Z.id, drop_app_length.
Qed.

Section integers.
Context `{Host}.

Ltac width := solve [reflexivity | intros; zlia].

(** The conversions of one width [n], whose signed and unsigned views [iN]
    and [uN] agree modulo [m = 2^(8n)]. *)
Lemma put_network n m (uN iN : Z -> Z) x :
  256 ^ Z.of_nat n = m -> (forall v, uN v `mod` m = v `mod` m) ->
  (forall v, iN v `mod` m = v `mod` m) ->
  mem_bytes n (iN (htobe n (uN x))) = be_bytes n x.
Proof.
  intros Hm Hu Hi. rewrite (mem_bytes_congr n _ (htobe n (uN x))) by (by rewrite Hm).
  rewrite mem_bytes_htobe. apply be_bytes_congr. by rewrite Hm.
Qed.

Lemma get_network n m (uN iN : Z -> Z) x :
  256 ^ Z.of_nat n = m -> (forall v, uN v = v `mod` m) ->
  (forall v, iN v `mod` m = v `mod` m) ->
  betoh n (uN (iN (mem_value (be_bytes n x)))) = x `mod` m.
Proof.
  intros Hm Hu Hi. rewrite Hu, Hi. pose proof (mem_value_range (be_bytes n x)) as Hr.
  rewrite length_be_bytes, Hm in Hr. rewrite Z.mod_small by done.
  by rewrite betoh_mem_value, be_value_be_bytes, Hm by apply length_be_bytes.
Qed.

(** What each [appendIntN] puts on the wire. *)
Lemma appendInt64_bytes b x : appendInt64 b x = append b (be_bytes 8 x).
Proof. unfold appendInt64, hostToNetwork64. by rewrite (put_network 8 two_64 u64 i64) by width. Qed.
Lemma appendInt32_bytes b x : appendInt32 b x = append b (be_bytes 4 x).
Proof. unfold appendInt32, hostToNetwork32. by rewrite (put_network 4 two_32 u32 i32) by width. Qed.
Lemma appendInt16_bytes b x : appendInt16 b x = append b (be_bytes 2 x).
Proof. unfold appendInt16, hostToNetwork16. by rewrite (put_network 2 two_16 u16 i16) by width. Qed.
Lemma appendInt8_bytes b x : appendInt8 b x = append b (be_bytes 1 x).
Proof. unfold appendInt8, mem_bytes. by destruct host_order. Qed.

(** ... and each [prependIntN]. *)
Lemma prependInt64_bytes b x : prependInt64 b x = prepend b (be_bytes 8 x).
Proof. unfold prependInt64, hostToNetwork64. by rewrite (put_network 8 two_64 u64 i64) by width. Qed.
Lemma prependInt32_bytes b x : prependInt32 b x = prepend b (be_bytes 4 x).
Proof. unfold prependInt32, hostToNetwork32. by rewrite (put_network 4 two_32 u32 i32) by width. Qed.
Lemma prependInt16_bytes b x : prependInt16 b x = prepend b (be_bytes 2 x).
Proof. unfold prependInt16, hostToNetwork16. by rewrite (put_network 2 two_16 u16 i16) by width. Qed.
Lemma prependInt8_bytes b x : prependInt8 b x = prepend b (be_bytes 1 x).
Proof. unfold prependInt8, mem_bytes. by destruct host_order. Qed.

Lemma peek_network b n x rest :
  wf b -> content b = be_bytes n x ++ rest ->
  Z.of_nat n <= readableBytes b /\ slice (buffer_ b) (peek b) (Z.of_nat n) = be_bytes n x.
Proof.
  intros Hwf Hc. rewrite readable_content by done. unfold peek.
  assert (Z.of_nat n <= len (content b)).
  { rewrite Hc. unfold len. rewrite length_app, length_be_bytes. lia. }
  split; [done|]. rewrite slice_content, Hc, Nat2Z.id by (done || lia).
  by rewrite take_app_le, take_ge by (rewrite length_be_bytes; lia).
Qed.

Lemma peekInt64_spec b x rest :
  wf b -> content b = be_bytes 8 x ++ rest -> int64_range x -> peekInt64 b = Done x.
Proof.
  intros Hwf Hc Hx. destruct (peek_network b 8 x rest Hwf Hc) as [Hr Hs]. unfold peekInt64.
  rewrite assert_true by (by apply bool_decide_eq_true_2). simpl.
  change 8 with (Z.of_nat 8) at 1. rewrite Hs. unfold networkToHost64.
  rewrite (get_network 8 two_64 u64 i64) by width. unfold mret, outcome_ret. f_equal. zlia.
Qed.
Lemma peekInt32_spec b x rest :
  wf b -> content b = be_bytes 4 x ++ rest -> int32_range x -> peekInt32 b = Done x.
Proof.
  intros Hwf Hc Hx. destruct (peek_network b 4 x rest Hwf Hc) as [Hr Hs]. unfold peekInt32.
  rewrite assert_true by (by apply bool_decide_eq_true_2). simpl.
  change 4 with (Z.of_nat 4) at 1. rewrite Hs. unfold networkToHost32.
  rewrite (get_network 4 two_32 u32 i32) by width. unfold mret, outcome_ret. f_equal. zlia.
Qed.
Lemma peekInt16_spec b x rest :
  wf b -> content b = be_bytes 2 x ++ rest -> -32768 <= x < 32768 -> peekInt16 b = Done x.
Proof.
  intros Hwf Hc Hx. destruct (peek_network b 2 x rest Hwf Hc) as [Hr Hs]. unfold peekInt16.
  rewrite assert_true by (by apply bool_decide_eq_true_2). simpl.
  change 2 with (Z.of_nat 2) at 1. rewrite Hs. unfold networkToHost16.
  rewrite (get_network 2 two_16 u16 i16) by width. unfold mret, outcome_ret. f_equal. zlia.
Qed.
Lemma peekInt8_spec b x rest :
  wf b -> content b = be_bytes 1 x ++ rest -> -128 <= x < 128 -> peekInt8 b = Done x.
Proof.
  intros Hwf Hc Hx. destruct (peek_network b 1 x rest Hwf Hc) as [Hr Hs]. unfold peekInt8.
  rewrite assert_true by (by apply bool_decide_eq_true_2). simpl.
  assert (at_ (buffer_ b) (peek b) = Done (char_of_Z x)) as ->.
  { apply at_Done. split; [unfold_buffer; lia|].
    unfold slice in Hs. rewrite <-(Nat.add_0_r (Z.to_nat _)), <-lookup_drop.
    change (take 1 (drop (Z.to_nat (peek b)) (buffer_ b)) = [char_of_Z x]) in Hs.
    destruct (drop _ _); [done|]. by injection Hs as ->. }
  simpl. rewrite Z_of_char_of_Z. unfold mret, outcome_ret. f_equal. zlia.
Qed.
End integers.

(** Reading one integer off the front. *)
Section read.
Context `{Host}.
Lemma readInt64_spec b x rest :
  wf b -> content b = be_bytes 8 x ++ rest -> int64_range x ->
  exists b', readInt64 b = Done (x, b') /\ wf b' /\ content b' = rest.
Proof.
  intros Hwf Hc Hx. unfold readInt64, retrieveInt64. rewrite (peekInt64_spec b x rest) by done.
  by apply (read_front b (be_bytes 8 x) rest).
Qed.
Lemma readInt32_spec b x rest :
  wf b -> content b = be_bytes 4 x ++ rest -> int32_range x ->
  exists b', readInt32 b = Done (x, b') /\ wf b' /\ content b' = rest.
Proof.
  intros Hwf Hc Hx. unfold readInt32, retrieveInt32. rewrite (peekInt32_spec b x rest) by done.
  by apply (read_front b (be_bytes 4 x) rest).
Qed.
Lemma readInt16_spec b x rest :
  wf b -> content b = be_bytes 2 x ++ rest -> -32768 <= x < 32768 ->
  exists b', readInt16 b = Done (x, b') /\ wf b' /\ content b' = rest.
Proof.
  intros Hwf Hc Hx. unfold readInt16, retrieveInt16. rewrite (peekInt16_spec b x rest) by done.
  by apply (read_front b (be_bytes 2 x) rest).
Qed.
Lemma readInt8_spec b x rest :
  wf b -> content b = be_bytes 1 x ++ rest -> -128 <= x < 128 ->
  exists b', readInt8 b = Done (x, b') /\ wf b' /\ content b' = rest.
Proof.
  intros Hwf Hc Hx. unfold readInt8, retrieveInt8. rewrite (peekInt8_spec b x rest) by done.
  by apply (read_front b (be_bytes 1 x) rest).
Qed.
End read.

Lemma buffer_append4 b d1 d2 d3 d4 :
  wf b -> len (content b) + len (d1 ++ d2 ++ d3 ++ d4) <= cap ->
  exists b', (b ← append b d1; b ← append b d2; b ← append b d3; append b d4) = Done b' /\
    wf b' /\ content b' = content b ++ d1 ++ d2 ++ d3 ++ d4.
Proof.
  intros Hwf Hcap. rewrite !len_app in Hcap. pose proof (len_nonneg d2).
  pose proof (len_nonneg d3). pose proof (len_nonneg d4).
  destruct (append_spec b d1) as (b1 & -> & Hwf1 & Hc1); [done|lia|]. simpl.
  destruct (append_spec b1 d2) as (b2 & -> & Hwf2 & Hc2); [done|rewrite Hc1, len_app; lia|]. simpl.
  destruct (append_spec b2 d3) as (b3 & -> & Hwf3 & Hc3); [done|rewrite Hc2, Hc1, !len_app; lia|]. simpl.
  destruct (append_spec b3 d4) as (b4 & -> & Hwf4 & Hc4); [done|rewrite Hc3, Hc2, Hc1, !len_app; lia|].
  exists b4. split_and!; [done..|]. by rewrite Hc4, Hc3, Hc2, Hc1, <-!app_assoc.
Qed.

Lemma iov_nonneg b :
  Forall (fun n => 0 <= n) (if bool_decide (writableBytes b < extrabuf_size)
                            then [writableBytes b; extrabuf_size] else [writableBytes b]).
Proof.
  pose proof (u64_range (size b - writerIndex_ b)) as Hr. fold (writableBytes b) in Hr.
  unfold extrabuf_size. case_bool_decide; repeat constructor; lia.
Qed.

(** The scatter read keeps every byte the kernel returned, in order. *)
Lemma readFd_data readv b data :
  wf b -> readv_ok readv ->
  readv (if bool_decide (writableBytes b < extrabuf_size)
         then [writableBytes b; extrabuf_size] else [writableBytes b]) = inr data ->
  len (content b) + len data <= cap ->
  exists b', readFd readv b = Done (len data, None, b') /\ wf b' /\ content b' = content b ++ data.
Proof.
  intros Hwf Hok Hdata Hcap. pose proof (Hok _ _ (iov_nonneg b) Hdata) as Hlen.
  pose proof (len_nonneg data) as Hnn. pose proof (writable_wf b Hwf) as Hw.
  unfold readFd. rewrite Hdata. clear Hdata.
  rewrite (bool_decide_eq_false_2 (_ < len data)) by lia.
  set (d1 := slice data 0 (Z.min (len data) (writableBytes b))).
  assert (len d1 = Z.min (len data) (writableBytes b)) as Hd1
    by (apply len_slice; unfold_buffer; lia).
  rewrite overwrite_Done by (unfold_buffer; lia).
  unfold mbind at 1, outcome_bind at 1. set (l := take _ _ ++ _).
  assert (len l = size b) as Hl by (apply len_overwritten; unfold_buffer; lia).
  clear Hlen. case_bool_decide as Hfit.
  - rewrite u64_small by (unfold_buffer; zlia). eexists; split; [done|].
    split; [unfold wf, size; simpl; rewrite Hl; unfold_buffer; lia|].
    replace data with d1 at 2.
    2: { unfold d1. rewrite Z.min_l by done. apply slice_full. }
    unfold content; simpl. replace (len data) with (len d1) by lia.
    apply slice_overwritten_snoc; unfold_buffer; lia.
  - set (b1 := mk l (readerIndex_ b) (len l)).
    assert (wf b1) as Hwf1 by (unfold wf, size; simpl; rewrite Hl; unfold_buffer; lia).
    assert (content b1 = content b ++ d1) as Hc1.
    { unfold content; simpl. rewrite <-(slice_overwritten_snoc (buffer_ b) d1) by (unfold_buffer; lia).
      f_equal. unfold_buffer; lia. }
    set (d2 := slice data _ _).
    assert (data = d1 ++ d2) as Hd.
    { unfold d1, d2, slice. rewrite Z.min_r, drop_0 by lia.
      rewrite (take_ge (drop _ _)); [by rewrite take_drop|].
      rewrite length_drop. unfold len in *. lia. }
    assert (len data = len d1 + len d2) as Hd' by (rewrite Hd at 1; apply len_app).
    destruct (append_spec b1 d2) as (b2 & -> & Hwf2 & Hc2);
      [done|rewrite Hc1, len_app; lia|].
    exists b2. split_and!; [done..|]. by rewrite Hc2, Hc1, <-app_assoc, <-Hd.
Qed.

(** ** Searching *)
Definition occurs2 (a b : char) (l : bytes) : Prop := exists l1 l2, l = l1 ++ a :: b :: l2.

Lemma search2_None a b l : search2 a b l = None <-> ~ occurs2 a b l.
Proof.
  induction l as [|x l IH]; [split; [intros _ (l1 & l2 & Hl); by destruct l1|done]|].
  destruct l as [|y l].
  { split; [intros _ (l1 & l2 & Hl)|done]. destruct l1 as [|? [|]]; discriminate. }
  change (search2 a b (x :: y :: l)) with
    (if bool_decide (x = a /\ y = b) then Some 0 else Z.succ <$> search2 a b (y :: l)).
  case_bool_decide as Hxy.
  - split; [done|]. intros []. destruct Hxy as [-> ->]. by exists [], l.
  - rewrite fmap_None, IH. split; intros Hn (l1 & l2 & Hl); apply Hn.
    + destruct l1 as [|z l1]; simplify_eq/=; [naive_solver|]. by exists l1, l2.
    + exists (x :: l1), l2. simpl. by f_equal.
Qed.

(** The match found is the first one. *)
Lemma search2_first a b l1 l2 :
  ~ occurs2 a b (l1 ++ [a]) -> search2 a b (l1 ++ a :: b :: l2) = Some (len l1).
Proof.
  induction l1 as [|x l1 IH]; intros Hn.
  - simpl. by rewrite bool_decide_eq_true_2.
  - assert (search2 a b (l1 ++ a :: b :: l2) = Some (len l1)) as Hs.
    { apply IH. intros (m1 & m2 & Hm). apply Hn. exists (x :: m1), m2. simpl. by f_equal. }
    destruct (l1 ++ a :: b :: l2) as [|y l] eqn:Hl; [by destruct l1|].
    change ((x :: l1) ++ a :: b :: l2) with (x :: (l1 ++ a :: b :: l2)). rewrite Hl.
    change (search2 a b (x :: y :: l)) with
      (if bool_decide (x = a /\ y = b) then Some 0 else Z.succ <$> search2 a b (y :: l)).
    rewrite bool_decide_eq_false_2.
    + rewrite Hs. simpl. f_equal. unfold len. simpl. lia.
    + intros [-> ->]. apply Hn. destruct l1 as [|z l1]; simplify_eq/=.
      * exists [], []. done.
      * by exists [], (l1 ++ [a]).
Qed.

Lemma search2_Some a b l i :
  search2 a b l = Some i ->
  exists l1 l2, l = l1 ++ a :: b :: l2 /\ len l1 = i /\ ~ occurs2 a b (l1 ++ [a]).
Proof.
  revert i. induction l as [|x l IH]; intros i; [done|]. destruct l as [|y l]; [done|].
  change (search2 a b (x :: y :: l)) with
    (if bool_decide (x = a /\ y = b) then Some 0 else Z.succ <$> search2 a b (y :: l)).
  case_bool_decide as Hxy.
  - intros [= <-]. destruct Hxy as [-> ->]. exists [], l. split_and!; [done..|].
    intros (m1 & m2 & Hm). destruct m1 as [|? [|]]; discriminate.
  - intros (j & Hj & ->)%fmap_Some. destruct (IH j Hj) as (l1 & l2 & Hl & Hlen & Hn).
    exists (x :: l1), l2. rewrite Hl. split_and!; [done|unfold len in *; simpl; lia|].
    intros (m1 & m2 & Hm). destruct m1 as [|z m1]; simplify_eq/=.
    + apply Hxy. destruct l1; by simplify_eq/=.
    + apply Hn. by exists m1, m2.
Qed.

Lemma findCRLF_content b :
  findCRLF b = (fun i => peek b + i) <$> search2 CR LF (content b).
Proof. done. Qed.

End BufferFacts.

(** ** The interface a connection relies on

    [TcpConnection] uses its two buffers only through these operations; its
    theorems are proved from the laws, which [Buffer] satisfies. *)
Class ByteQueue (Q : Type) := {
  bq_wf : Q -> Prop;
  bq_content : Q -> bytes;
  bq_readable : Q -> Z;
  bq_append : Q -> bytes -> outcome Q;
  bq_retrieve : Q -> Z -> outcome Q;
  bq_retrieveAll : Q -> Q;
  bq_readFd : Buffer.readv_t -> Q -> outcome (Z * option Z * Q);
  bq_readable_ok : forall q, bq_wf q -> bq_readable q = len (bq_content q);
  bq_append_ok : forall q d, bq_wf q -> len (bq_content q) + len d <= Buffer.cap ->
    exists q', bq_append q d = Done q' /\ bq_wf q' /\ bq_content q' = bq_content q ++ d;
  bq_retrieve_ok : forall q n, bq_wf q -> 0 <= n <= len (bq_content q) ->
    exists q', bq_retrieve q n = Done q' /\ bq_wf q' /\
      bq_content q' = drop (Z.to_nat n) (bq_content q);
  bq_retrieveAll_ok : forall q, bq_wf q -> bq_wf (bq_retrieveAll q) /\ bq_content (bq_retrieveAll q) = [];
  bq_readFd_ok : forall readv q, bq_wf q -> Buffer.readv_ok readv ->
    exists iov, foldr Z.add 0 iov > 0 /\
    match readv iov with
    | inl errno => bq_readFd readv q = Done (-1, Some errno, q)
    | inr data => len (bq_content q) + len data <= Buffer.cap ->
        exists q', bq_readFd readv q = Done (len data, None, q') /\ bq_wf q' /\
          bq_content q' = bq_content q ++ data
    end;
}.

(** The abstract machine: a byte string with the operations of the class. *)
Module QueueSpec.
Inductive op : Type :=
  | Append (d : bytes)
  | Retrieve (n : Z)
  | RetrieveUntil (n : Z)       (* up to [peek() + n] *)
  | RetrieveAll
  | RetrieveAsString (n : Z)
  | Unwrite (n : Z)
  | EnsureWritable (n : Z)
  | Shrink (reserve : Z).

(** [None]: the operation is not allowed in this state. *)
Definition step (c : bytes) (o : op) : option bytes :=
  match o with
  | Append d => guard (len c + len d <= Buffer.cap);; Some (c ++ d)
  | Retrieve n | RetrieveUntil n | RetrieveAsString n =>
      guard (0 <= n <= len c);; Some (drop (Z.to_nat n) c)
  | RetrieveAll => Some []
  | Unwrite n => guard (0 <= n <= len c);; Some (take (Z.to_nat (len c - n)) c)
  | EnsureWritable n => guard (0 <= n /\ len c + n <= Buffer.cap);; Some c
  | Shrink n => guard (len c < two_31 /\ 0 <= n /\ len c + n <= Buffer.cap);; Some c
  end.

Fixpoint run (c : bytes) (ops : list op) : option bytes :=
  match ops with
  | [] => Some c
  | o :: ops => c' ← step c o; run c' ops
  end.

(** The same operation on the concrete buffer. *)
Definition exec (b : Buffer.t) (o : op) : outcome Buffer.t :=
  match o with
  | Append d => Buffer.append b d
  | Retrieve n => Buffer.retrieve b n
  | RetrieveUntil n => Buffer.retrieveUntil b (Buffer.peek b + n)
  | RetrieveAll => Done (Buffer.retrieveAll b)
  | RetrieveAsString n => snd <$> Buffer.retrieveAsString b n
  | Unwrite n => Buffer.unwrite b n
  | EnsureWritable n => Buffer.ensureWritableBytes b n
  | Shrink n => Buffer.shrink b n
  end.
End QueueSpec.

Module BufferTheorems.
Import Buffer BufferFacts.

Global Program Instance Buffer_ByteQueue : ByteQueue Buffer.t := {
  bq_wf := wf;
  bq_content := content;
  bq_readable := readableBytes;
  bq_append := append;
  bq_retrieve := retrieve;
  bq_retrieveAll := retrieveAll;
  bq_readFd := readFd;
  bq_readable_ok := readable_content;
  bq_append_ok := append_spec;
  bq_retrieve_ok := retrieve_spec;
  bq_retrieveAll_ok := retrieveAll_spec;
}.
Next Obligation.
  intros readv b Hwf Hok.
  exists (if bool_decide (writableBytes b < extrabuf_size)
          then [writableBytes b; extrabuf_size] else [writableBytes b]).
  pose proof (u64_range (size b - writerIndex_ b)) as Hr. fold (writableBytes b) in Hr.
  split; [unfold extrabuf_size; case_bool_decide; simpl; lia|].
  destruct (readv _) as [e|data] eqn:Hd.
  - unfold readFd. by rewrite Hd.
  - intros Hcap. by apply readFd_data.
Qed.

(** One operation of the abstract queue is simulated by the buffer. *)
Lemma exec_refines b o c :
  wf b -> QueueSpec.step (content b) o = Some c ->
  exists b', QueueSpec.exec b o = Done b' /\ wf b' /\ content b' = c.
Proof.
  intros Hwf Hs. destruct o as [d|n|n| |n|n|n|n]; simpl in *; simplify_option_eq.
  - by apply append_spec.
  - by apply retrieve_spec.
  - by apply retrieveUntil_spec.
  - eexists; split; [done|]. by apply retrieveAll_spec.
  - destruct (retrieveAsString_spec b n) as (b' & -> & ? & ?); [done..|]. by exists b'.
  - by apply unwrite_spec.
  - destruct (ensureWritableBytes_spec b n) as (b' & -> & ? & ? & _); [naive_solver..|]. by exists b'.
  - apply shrink_spec; naive_solver.
Qed.

(** C2.  [Buffer] implements a byte queue: whatever sequence of appends,
    retrievals, [unwrite]s, reservations and [shrink]s the abstract byte
    string allows, the buffer performs it without a failed assertion, an
    out-of-range access or an exception, and its readable bytes are those of
    the abstract string, through every growth and compaction. *)
Theorem buffer_refines_queue b ops c :
  wf b -> QueueSpec.run (content b) ops = Some c ->
  exists b', run_all QueueSpec.exec b ops = Done b' /\ wf b' /\ content b' = c.
Proof.
  revert b. induction ops as [|o ops IH]; intros b Hwf Hrun; simpl in *; simplify_option_eq.
  - by exists b.
  - destruct (exec_refines b o _ Hwf ltac:(done)) as (b1 & -> & Hwf1 & Hc1). simpl.
    subst. by apply IH.
Qed.

Definition example_ops : list QueueSpec.op :=
  [QueueSpec.Append (lit "hello "); QueueSpec.Append (replicate 30 "x"%char);
   QueueSpec.Retrieve 6; QueueSpec.Append (lit "tail"); QueueSpec.Unwrite 1].
Definition small_buffer : Buffer.t := mk (replicate 40 "000"%char) 8 8.

Lemma buffer_refines_queue_witness :
  exists b', run_all QueueSpec.exec small_buffer example_ops = Done b' /\ wf b' /\
    content b' = replicate 30 "x"%char ++ lit "tai".
Proof.
  apply (buffer_refines_queue small_buffer example_ops).
  - vm_compute. by repeat split.
  - vm_compute. reflexivity.
Defined.

(** [readFd] appends exactly the bytes that [readv(2)] returned, in
    order and without loss, whether they fit the writable area or spill into
    the 64 KiB stack buffer, and reports their number; on an error it reports
    [-1] with the [errno] and leaves the buffer as it was. *)
Theorem readFd_complete readv b :
  wf b -> readv_ok readv -> len (content b) + writableBytes b + extrabuf_size <= cap ->
  exists n err b', readFd readv b = Done (n, err, b') /\ wf b' /\
    ((n = -1 /\ is_Some err /\ b' = b) \/
     (n >= 0 /\ err = None /\ exists data, len data = n /\ content b' = content b ++ data)).
Proof.
  intros Hwf Hok Hcap. pose proof (u64_range (size b - writerIndex_ b)) as Hr.
  fold (writableBytes b) in Hr. set (iov := if bool_decide (writableBytes b < extrabuf_size)
    then [writableBytes b; extrabuf_size] else [writableBytes b]).
  destruct (readv iov) as [e|data] eqn:Hd.
  - unfold readFd. fold iov. rewrite Hd. eexists _, _, _. split; [done|]. naive_solver.
  - pose proof (Hok iov _ (iov_nonneg b) Hd) as Hl. pose proof (len_nonneg data) as Hnn.
    assert (foldr Z.add 0 iov <= writableBytes b + extrabuf_size)
      by (unfold iov, extrabuf_size; case_bool_decide; simpl; lia).
    destruct (readFd_data readv b data) as (b' & -> & ? & ?); [done..|lia|].
    eexists _, _, b'. split_and!; [done..|]. right. split_and!; [lia|done|]. by exists data.
Qed.

(** A kernel that has 50 bytes to deliver. *)
Definition readv_50 : readv_t := fun iov => inr (take (Z.to_nat (foldr Z.add 0 iov)) (replicate 50 "k"%char)).

Lemma readFd_complete_witness :
  exists n err b', readFd readv_50 small_buffer = Done (n, err, b') /\ wf b' /\
    ((n = -1 /\ is_Some err /\ b' = small_buffer) \/
     (n >= 0 /\ err = None /\ exists data, len data = n /\ content b' = content small_buffer ++ data)).
Proof.
  apply (readFd_complete readv_50 small_buffer).
  - vm_compute. by repeat split.
  - intros iov data Hiov [= <-]. unfold len. rewrite length_take.
    assert (0 <= foldr Z.add 0 iov) by (clear -Hiov; induction Hiov; simpl; lia). lia.
  - vm_compute. by intros.
Defined.

(** Integers written with [appendInt64/32/16/8] are put on the wire in
    network byte order on every host, and [readInt64/32/16/8] read the same
    values back, in order, leaving the buffer as it was. *)
Theorem int_round_trip `{Host} b x64 x32 x16 x8 :
  wf b -> content b = [] ->
  int64_range x64 -> int32_range x32 -> -32768 <= x16 < 32768 -> -128 <= x8 < 128 ->
  exists b1 b2,
    (b ← appendInt64 b x64; b ← appendInt32 b x32; b ← appendInt16 b x16; appendInt8 b x8) = Done b1 /\
    content b1 = be_bytes 8 x64 ++ be_bytes 4 x32 ++ be_bytes 2 x16 ++ be_bytes 1 x8 /\
    ('(y64, b) ← readInt64 b1; '(y32, b) ← readInt32 b; '(y16, b) ← readInt16 b; '(y8, b) ← readInt8 b;
     mret (y64, y32, y16, y8, b)) = Done (x64, x32, x16, x8, b2) /\ wf b2 /\ content b2 = [].
Proof.
  intros Hwf Hc H64 H32 H16 H8.
  destruct (buffer_append4 b (be_bytes 8 x64) (be_bytes 4 x32) (be_bytes 2 x16) (be_bytes 1 x8))
    as (b1 & He & Hwf1 & Hc1); [done|rewrite Hc, !len_app; unfold len; rewrite !length_be_bytes; vm_compute; by intros|].
  exists b1. rewrite Hc in Hc1. simpl in Hc1.
  destruct (readInt64_spec b1 x64 _ Hwf1 Hc1 H64) as (b2 & E2 & Hwf2 & Hc2).
  destruct (readInt32_spec b2 x32 _ Hwf2 Hc2 H32) as (b3 & E3 & Hwf3 & Hc3).
  destruct (readInt16_spec b3 x16 _ Hwf3 Hc3 H16) as (b4 & E4 & Hwf4 & Hc4).
  rewrite <-(app_nil_r (be_bytes 1 x8)) in Hc4.
  destruct (readInt8_spec b4 x8 _ Hwf4 Hc4 H8) as (b5 & E5 & Hwf5 & Hc5).
  exists b5. split_and!; [|done| |done..].
  - rewrite <-He. rewrite appendInt64_bytes. destruct (append b _); [|done]. simpl.
    rewrite appendInt32_bytes. destruct (append a _); [|done]. simpl.
    rewrite appendInt16_bytes. destruct (append a0 _); [|done]. simpl. apply appendInt8_bytes.
  - rewrite E2. simpl. rewrite E3. simpl. rewrite E4. simpl. by rewrite E5.
Qed.

Lemma int_round_trip_witness :
  exists b1 b2,
    (b ← @appendInt64 x86_64 small_buffer (-2); b ← @appendInt32 x86_64 b 7;
     b ← @appendInt16 x86_64 b 258; @appendInt8 x86_64 b (-128)) = Done b1 /\
    content b1 = be_bytes 8 (-2) ++ be_bytes 4 7 ++ be_bytes 2 258 ++ be_bytes 1 (-128) /\
    ('(y64, b) ← @readInt64 x86_64 b1; '(y32, b) ← @readInt32 x86_64 b;
     '(y16, b) ← @readInt16 x86_64 b; '(y8, b) ← readInt8 b;
     mret (y64, y32, y16, y8, b)) = Done (-2, 7, 258, -128, b2) /\ wf b2 /\ content b2 = [].
Proof.
  apply (@int_round_trip x86_64 small_buffer (-2) 7 258 (-128));
    vm_compute; try (by repeat split); by intros.
Defined.

(** [findCRLF] returns the position of the first CRLF of the readable
    bytes, and NULL exactly when there is none. *)
Theorem findCRLF_first b :
  wf b ->
  match findCRLF b with
  | Some p => exists line rest, content b = line ++ kCRLF ++ rest /\ p = peek b + len line /\
      ~ occurs2 CR LF (line ++ [CR])
  | None => ~ occurs2 CR LF (content b)
  end.
Proof.
  intros _. rewrite findCRLF_content. destruct (search2 CR LF (content b)) as [i|] eqn:Hs; simpl.
  - apply search2_Some in Hs as (l1 & l2 & -> & <- & Hn). by exists l1, l2.
  - by apply search2_None.
Qed.

Definition line_buffer : Buffer.t := mk (replicate 8 "000"%char ++ lit "ab" ++ kCRLF ++ kCRLF) 8 14.

Lemma findCRLF_first_witness :
  match findCRLF line_buffer with
  | Some p => exists line rest, content line_buffer = line ++ kCRLF ++ rest /\
      p = peek line_buffer + len line /\ ~ occurs2 CR LF (line ++ [CR])
  | None => ~ occurs2 CR LF (content line_buffer)
  end.
Proof. apply (findCRLF_first line_buffer). vm_compute. by repeat split. Defined.

(** C40.  [ensureWritableBytes] for every [size_t] request.  A request that fits
    behind the data changes nothing.  If what [makeSpace] compares,
    [len + kCheapPrepend] in [size_t], is at most the bytes that are not
    readable, the data moves to the front of the same vector and the request
    succeeds; but if that sum has wrapped (a request within 8 bytes of
    [SIZE_MAX]) an assertion fails, in [makeSpace] before anything moves when
    the data is at the front already, and at the end otherwise.  In the other cases the vector is
    resized to [writerIndex_ + len], also in [size_t]: the request succeeds,
    with room for exactly [len] bytes, or [std::length_error] is thrown above
    [max_size()]; but if this sum wraps, the vector shrinks below
    [writerIndex_], and the call returns such a buffer: the final assertion
    does not see it. *)
Theorem ensureWritableBytes_bounds b n :
  wf b -> 0 <= n < two_64 ->
  (n <= writableBytes b -> ensureWritableBytes b n = Done b) /\
  (writableBytes b < n -> u64 (n + kCheapPrepend) <= size b - len (content b) ->
     if bool_decide (kCheapPrepend < readerIndex_ b) then
       exists b', makeSpace b n = Done b' /\ wf b' /\ content b' = content b /\ size b' = size b /\ readerIndex_ b' = kCheapPrepend /\
         ensureWritableBytes b n = if bool_decide (n + kCheapPrepend < two_64) then Done b' else Fault AssertFailure
     else two_64 <= n + kCheapPrepend /\ makeSpace b n = Fault AssertFailure /\ ensureWritableBytes b n = Fault AssertFailure) /\
  (writableBytes b < n -> size b - len (content b) < u64 (n + kCheapPrepend) ->
     if bool_decide (u64 (writerIndex_ b + n) <= max_size) then
       exists b', ensureWritableBytes b n = Done b' /\ writableBytes b' = n /\ size b' = u64 (writerIndex_ b + n) /\
         (writerIndex_ b + n < two_64 -> wf b' /\ content b' = content b) /\
         (two_64 <= writerIndex_ b + n -> size b' < writerIndex_ b')
     else ensureWritableBytes b n = Fault LengthError).
Proof.
  intros Hwf Hn. pose proof (writable_wf b Hwf) as Hw. pose proof (len_content b Hwf) as Hl.
  unfold ensureWritableBytes. split; [|split].
  - intros Hfit. rewrite bool_decide_eq_false_2 by lia. cbn [mbind outcome_bind mret outcome_ret]. by rewrite bool_decide_eq_true_2.
  - intros Hlt Hfree. rewrite (bool_decide_eq_true_2 (_ < n)) by lia. pose proof (makeSpace_moves b n Hwf Hfree) as Hm.
    case_bool_decide as Hr.
    + destruct Hm as (b' & Hb' & Hwf' & Hc & Hs & Hr'). exists b'. rewrite Hb'. split_and!; [done..|]. cbn [mbind outcome_bind].
      assert (writerIndex_ b' = kCheapPrepend + len (content b)) as Hw' by (pose proof (len_content b' Hwf'); rewrite Hc in *; lia).
      rewrite (writable_wf b' Hwf'), Hs, Hw'. repeat case_bool_decide; try done; exfalso; unfold_buffer; zlia.
    + rewrite Hm. split_and!; [|done..]. unfold_buffer. zlia.
  - intros Hlt Hfree. rewrite (bool_decide_eq_true_2 (_ < n)) by lia. unfold makeSpace.
    rewrite (bool_decide_eq_true_2 (u64 _ < u64 _)) by (rewrite (u64_small (writableBytes b + _)) by (unfold_buffer; zlia); unfold_buffer; lia).
    unfold vector_resize. case_bool_decide as Hm; [|done]. cbn [mbind outcome_bind].
    set (b' := mk _ _ _). assert (size b' = u64 (writerIndex_ b + n)) as Hs by (apply len_resize; zlia).
    assert (writableBytes b' = n) as Hwr.
    { unfold writableBytes. rewrite Hs. cbn [writerIndex_ b']. unfold u64. rewrite Zminus_mod_idemp_l.
      replace (writerIndex_ b + n - writerIndex_ b) with n by lia. by apply Z.mod_small. }
    exists b'. cbn [mbind outcome_bind mret outcome_ret]. rewrite Hwr, bool_decide_eq_true_2 by lia. split_and!; [done..| |].
    + intros Hsum. rewrite u64_small in Hs, Hm by (unfold_buffer; zlia). split.
      * cbn [readerIndex_ writerIndex_ b'] in *. split_and!; cbn [readerIndex_ writerIndex_ b']; unfold_buffer; lia.
      * unfold content. cbn [buffer_ readerIndex_ writerIndex_ b']. rewrite u64_small by (unfold_buffer; zlia).
        apply slice_resize; unfold_buffer; lia.
    + intros Hsum. rewrite Hs. cbn [writerIndex_ b']. unfold_buffer. zlia.
Qed.

(** A request that shrinks the vector below its data. *)
Definition wrapping_buffer : t := mk (replicate 64 "x"%char) 8 40.
Lemma ensureWritableBytes_bounds_witness : exists b',
  ensureWritableBytes wrapping_buffer (two_64 - 20) = Done b' /\ size b' = 20 /\ writerIndex_ b' = 40.
Proof.
  destruct (ensureWritableBytes_bounds wrapping_buffer (two_64 - 20)) as (_ & _ & H3).
  - vm_compute. by repeat split.
  - vm_compute. by repeat split.
  - destruct H3 as (b' & He & _ & Hs & _); [by vm_compute..|]. exists b'. split; [exact He|]. split; [exact Hs|].
    vm_compute in He. injection He as <-. reflexivity.
Defined.
End BufferTheorems.
