(* ===== verification/Timestamps.v ===== *)
(** * Timestamps: points in time, and the [double] seconds of the timer API

    Models [src/muduo/base/Timestamp.h] (and [now] of [Timestamp.cc]) and the
    conversion of a deadline to the relative [timespec] of
    [timerfd_settime(2)] in [src/muduo/net/TimerQueue.cc].  A [double] is an
    IEEE binary64 value ([spec_float] with precision 53), so that
    [static_cast<int64_t>(seconds * 1000000)] is computed as the machine does. *)
From Stdlib Require Import SpecFloat.
From S2P Require Import Prelude.

Local Open Scope Z_scope.

(** ** binary64 *)
Abbreviation double := spec_float.
Definition dmul : double -> double -> double := SFmul 53 1024.
Definition ddiv : double -> double -> double := SFdiv 53 1024.
Definition double_of_int (n : Z) : double := binary_normalize 53 1024 n 0 false.
(** [x > 0.0] *)
Definition dpositive (x : double) : bool := SFltb (S754_zero false) x.

(** [static_cast<int64_t>]: truncation towards zero, undefined out of range. *)
Definition int64_of_double (x : double) : outcome Z :=
  match x with
  | S754_zero _ => Done 0
  | S754_finite s m e =>
      let v := if bool_decide (0 <= e) then Zpos m * 2 ^ e else Z.quot (Zpos m) (2 ^ (- e)) in
      checked64 (if s then - v else v)
  | _ => Fault Undefined
  end.

Module Timestamp.

(** [_micro_second_since_epoch] *)
Definition t : Type := Z.
Definition kMicroSecondsPerSecond : Z := 1000000.

Definition valid (x : t) : bool := bool_decide (0 < x).
Definition invalid : t := 0.
Definition microSecondsSinceEpoch (x : t) : Z := x.
Definition secondsSinceEpoch (x : t) : Z := Z.quot x kMicroSecondsPerSecond.
Definition fromUnixTime (sec microseconds : Z) : outcome t :=
  checked64 (sec * kMicroSecondsPerSecond + microseconds).
Definition swap (a b : t) : t * t := (b, a).

(** [now()], given the result of [gettimeofday(2)]. *)
Definition now (tv_sec tv_usec : Z) : outcome t :=
  checked64 (tv_sec * kMicroSecondsPerSecond + tv_usec).

Definition ltb (lhs rhs : t) : bool := bool_decide (lhs < rhs).
Definition eqb (lhs rhs : t) : bool := bool_decide (lhs = rhs).

Definition timeDifference (high low : t) : outcome double :=
  diff ← checked64 (high - low);
  mret (ddiv (double_of_int diff) (double_of_int kMicroSecondsPerSecond)).

(** The microseconds of an interval given in seconds. *)
Definition micros (seconds : double) : outcome Z :=
  int64_of_double (dmul seconds (double_of_int kMicroSecondsPerSecond)).
Definition addTime (time : t) (seconds : double) : outcome t :=
  diff ← micros seconds;
  checked64 (time + diff).
End Timestamp.

(** [struct timespec] *)
Record timespec : Type := mk_timespec { tv_sec : Z; tv_nsec : Z }.

Definition howMuchTimeFromNow (when now : Timestamp.t) : outcome timespec :=
  microseconds ← checked64 (when - now);
  let microseconds := if bool_decide (microseconds < 100) then 100 else microseconds in
  mret (mk_timespec (Z.quot microseconds Timestamp.kMicroSecondsPerSecond)
          (Z.rem microseconds Timestamp.kMicroSecondsPerSecond * 1000)).

(** ** Lemmas *)

(** A positive interval converts to a non-negative number of microseconds. *)
Lemma int64_of_double_nonneg s m e v :
  int64_of_double (S754_finite s m e) = Done v -> s = false -> 0 <= v.
Proof.
  intros Hv ->. simpl in Hv. apply checked64_Done in Hv as [-> _].
  case_bool_decide.
  - pose proof (Z.pow_nonneg 2 e). lia.
  - apply Z.quot_pos; [lia|]. apply Z.pow_pos_nonneg; lia.
Qed.

Lemma binary_round_aux_sign s m e l :
  match binary_round_aux 53 1024 s m e l with S754_finite s' _ _ => s' = s | _ => True end.
Proof.
  unfold binary_round_aux. destruct (shr_fexp _ _ _ _ _). destruct (shr_fexp _ _ _ _ _).
  destruct (shr_m _); [done| |done]. by destruct (Z.leb _ _).
Qed.

Lemma micros_nonneg seconds d :
  dpositive seconds = true -> Timestamp.micros seconds = Done d -> 0 <= d.
Proof.
  unfold Timestamp.micros. intros Hpos Hd.
  change (double_of_int Timestamp.kMicroSecondsPerSecond)
    with (S754_finite false 8589934592000000 (-33)) in Hd.
  destruct seconds as [s|s| |s m e]; try done.
  destruct s; [done|]. unfold dmul in Hd. simpl SFmul in Hd.
  pose proof (binary_round_aux_sign false (Zpos (m * 8589934592000000)) (e + -33) loc_Exact) as Hs.
  destruct (binary_round_aux _ _ _ _ _ _) as [?|?| |s' m' e']; try done.
  - injection Hd as <-. done.
  - by eapply int64_of_double_nonneg.
Qed.

Lemma howMuchTimeFromNow_spec when now ts :
  howMuchTimeFromNow when now = Done ts ->
  0 <= tv_sec ts /\ 0 <= tv_nsec ts < 1000000000 /\
  tv_sec ts * 1000000000 + tv_nsec ts = Z.max 100 (when - now) * 1000.
Proof.
  unfold howMuchTimeFromNow. intros H. inv_outcome. simpl.
  apply checked64_Done in H0 as [-> _]. unfold Timestamp.kMicroSecondsPerSecond.
  replace (if bool_decide (when - now < 100) then 100 else when - now)
    with (Z.max 100 (when - now)) by (case_bool_decide; lia).
  rewrite Z.quot_div_nonneg, Z.rem_mod_nonneg by lia.
  pose proof (Z.div_mod (Z.max 100 (when - now)) 1000000).
  pose proof (Z.mod_pos_bound (Z.max 100 (when - now)) 1000000). lia.
Qed.
