(* ===== verification/StdSet.v ===== *)
(** * StdSet: [std::set] of pairs as a strictly sorted list

    The ordered container of the timer queue: [std::set<std::pair<A, B>>] with
    the lexicographic order on integer keys.  The list of its elements in
    iteration order is the model; [insert], [erase] and [lower_bound] are those
    of the container. *)
From stdpp Require Import sorting.
From S2P Require Import Prelude.

Local Open Scope Z_scope.

Definition entry : Type := Z * Z.

(** [operator<] of [std::pair] *)
Definition entry_lt (x y : entry) : Prop := x.1 < y.1 \/ (x.1 = y.1 /\ x.2 < y.2).
Global Instance entry_lt_dec x y : Decision (entry_lt x y).
Proof. unfold entry_lt. apply _. Defined.

(** [insert]: the set and whether the element was new. *)
Fixpoint set_insert (e : entry) (l : list entry) : list entry * bool :=
  match l with
  | [] => ([e], true)
  | x :: l' =>
      if decide (entry_lt e x) then (e :: l, true)
      else if decide (e = x) then (l, false)
      else let '(l'', b) := set_insert e l' in (x :: l'', b)
  end.

(** [erase(key)]: the set and the number of elements removed. *)
Fixpoint set_erase (e : entry) (l : list entry) : list entry * Z :=
  match l with
  | [] => ([], 0)
  | x :: l' =>
      if decide (e = x) then (l', 1)
      else let '(l'', n) := set_erase e l' in (x :: l'', n)
  end.

(** [[begin, lower_bound(key))] and [[lower_bound(key), end)]. *)
Fixpoint split_lower_bound (key : entry) (l : list entry) : list entry * list entry :=
  match l with
  | [] => ([], [])
  | x :: l' =>
      if decide (entry_lt x key)
      then let '(a, b) := split_lower_bound key l' in (x :: a, b)
      else ([], l)
  end.

(** Iteration order is strictly increasing. *)
Definition sset (l : list entry) : Prop := StronglySorted entry_lt l.

(** ** Lemmas *)
Global Instance entry_lt_trans : Transitive entry_lt.
Proof. intros x y z. unfold entry_lt. lia. Qed.

Lemma entry_lt_irrefl x : ~ entry_lt x x.
Proof. unfold entry_lt. lia. Qed.

Lemma entry_total x y : entry_lt x y \/ x = y \/ entry_lt y x.
Proof.
  destruct x as [a b], y as [c d]. unfold entry_lt. simpl.
  destruct (Z.lt_total a c) as [?|[->|?]]; [tauto| |tauto].
  destruct (Z.lt_total b d) as [?|[->|?]]; tauto.
Qed.

Lemma sset_nil : sset [].
Proof. constructor. Qed.

Lemma sset_cons x l : sset (x :: l) <-> sset l /\ Forall (entry_lt x) l.
Proof. split; [by inversion 1|]. intros [??]. by constructor. Qed.

Lemma sset_NoDup l : sset l -> NoDup l.
Proof.
  induction 1 as [|x l Hs IH Hx]; constructor; [|done].
  intros Hin. rewrite Forall_forall in Hx. by eapply entry_lt_irrefl, Hx.
Qed.

Lemma set_insert_elem e l x : x ∈ (set_insert e l).1 <-> x = e \/ x ∈ l.
Proof.
  induction l as [|y l IH]; [set_solver|]. cbn [set_insert].
  case_decide; [set_solver|]. case_decide; [set_solver|].
  destruct (set_insert e l) as [l'' b]. simpl in *. set_solver.
Qed.

Lemma set_insert_sset e l : sset l -> sset (set_insert e l).1.
Proof.
  induction l as [|y l IH]; intros Hs; [by repeat constructor|]. cbn [set_insert].
  apply sset_cons in Hs as [Hs Hy].
  case_decide as H1.
  - apply sset_cons. split; [by apply sset_cons|]. constructor; [done|].
    eapply Forall_impl; [exact Hy|]. intros z ?. by etrans.
  - case_decide as H2; [by apply sset_cons|].
    pose proof (set_insert_elem e l) as He. specialize (IH Hs).
    destruct (set_insert e l) as [l'' b]. simpl in *. apply sset_cons. split; [done|].
    apply Forall_forall. intros z Hz. apply He in Hz as [->|Hz].
    + destruct (entry_total e y) as [?|[?|?]]; naive_solver.
    + rewrite Forall_forall in Hy. by apply Hy.
Qed.

Lemma set_insert_new e l : sset l -> e ∉ l -> (set_insert e l).2 = true.
Proof.
  induction l as [|y l IH]; intros Hs Hn; [done|]. cbn [set_insert].
  apply sset_cons in Hs as [Hs _]. case_decide; [done|].
  case_decide; [set_solver|]. specialize (IH Hs ltac:(set_solver)).
  by destruct (set_insert e l).
Qed.

Lemma set_insert_length e l :
  sset l -> e ∉ l -> length (set_insert e l).1 = S (length l).
Proof.
  induction l as [|y l IH]; intros Hs Hn; [done|]. cbn [set_insert].
  apply sset_cons in Hs as [Hs _]. case_decide; [done|].
  case_decide; [set_solver|]. specialize (IH Hs ltac:(set_solver)).
  destruct (set_insert e l). simpl in *. lia.
Qed.

(** The first element after an insertion is the smaller one. *)
Lemma set_insert_head e l x l' :
  sset l -> (set_insert e l).1 = x :: l' -> x = e \/ (exists l0, l = x :: l0 /\ ~ entry_lt e x).
Proof.
  destruct l as [|y l]; simpl; [naive_solver|]. intros Hs.
  case_decide; [naive_solver|]. case_decide; [naive_solver|].
  destruct (set_insert e l). naive_solver.
Qed.

Lemma set_erase_elem e l x : sset l -> x ∈ (set_erase e l).1 <-> x ∈ l /\ x <> e.
Proof.
  induction l as [|y l IH]; intros Hs; [set_solver|]. cbn [set_erase].
  pose proof (sset_NoDup _ Hs) as Hnd. apply NoDup_cons in Hnd as [Hny _].
  apply sset_cons in Hs as [Hs _]. specialize (IH Hs).
  case_decide; [set_solver|]. destruct (set_erase e l). set_solver.
Qed.

Lemma set_erase_sset e l : sset l -> sset (set_erase e l).1.
Proof.
  induction l as [|y l IH]; intros Hs; [constructor|]. cbn [set_erase].
  apply sset_cons in Hs as [Hs Hy]. case_decide; [done|].
  pose proof (set_erase_elem e l) as He. specialize (IH Hs).
  destruct (set_erase e l) as [l'' n]. apply sset_cons. split; [done|].
  apply Forall_forall. intros z Hz. rewrite Forall_forall in Hy. apply Hy. by apply He.
Qed.

Lemma set_erase_in e l :
  e ∈ l -> (set_erase e l).2 = 1 /\ S (length (set_erase e l).1) = length l.
Proof.
  induction l as [|y l IH]; intros Hin; [set_solver|]. cbn [set_erase].
  case_decide; [done|]. destruct IH as [H1 H2]; [set_solver|].
  destruct (set_erase e l). simpl in *. split; [done|lia].
Qed.

(** [lower_bound] splits the iteration order at the key. *)
Lemma split_lower_bound_app key l :
  l = (split_lower_bound key l).1 ++ (split_lower_bound key l).2.
Proof.
  induction l as [|x l IH]; [done|]. cbn [split_lower_bound]. case_decide; [|done].
  destruct (split_lower_bound key l). simpl in *. by f_equal.
Qed.

Lemma split_lower_bound_lt key l : Forall (fun x => entry_lt x key) (split_lower_bound key l).1.
Proof.
  induction l as [|x l IH]; [constructor|]. cbn [split_lower_bound]. case_decide; [|constructor].
  destruct (split_lower_bound key l). by constructor.
Qed.

Lemma split_lower_bound_ge key l :
  sset l -> Forall (fun x => ~ entry_lt x key) (split_lower_bound key l).2.
Proof.
  induction l as [|x l IH]; intros Hs; [constructor|]. cbn [split_lower_bound].
  case_decide as Hlt.
  - apply sset_cons in Hs as [Hs _]. specialize (IH Hs). by destruct (split_lower_bound key l).
  - apply sset_cons in Hs as [_ Hx]. constructor; [done|].
    eapply Forall_impl; [exact Hx|]. intros y Hxy Hy. apply Hlt. by etrans.
Qed.

Lemma sset_app l1 l2 : sset (l1 ++ l2) -> sset l1 /\ sset l2.
Proof. intros Hs. by apply StronglySorted_app in Hs as (_ & ? & ?). Qed.

#[export] Hint Resolve sset_nil set_insert_sset set_erase_sset sset_NoDup : muduo.
