(* ===== verification/TimerQueues.v ===== *)
(** * TimerQueues: the timers of an event loop

    Models [Timer] ([src/muduo/net/Timer.h], [Timer.cc]), [TimerId]
    ([TimerId.h]) and [TimerQueue] ([TimerQueue.h], [TimerQueue.cc]).  A
    [Timer*] is an address in the map [heap], so that use after free, double
    free and address reuse are visible; [timers_] is the ordered set of
    [StdSet], [activeTimers_] and [cancelingTimers_] are finite sets.  The
    operations are those of the loop thread ([addTimer] and [cancel] called
    from another thread are queued by [EventLoop::runInLoop] and run there).
    A user callback is a parameter of [handleRead]: any code that uses the
    queue through [addTimer] and [cancel]. *)
From Stdlib Require Import SpecFloat.
From S2P Require Import Prelude Timestamps StdSet.

Local Open Scope Z_scope.

Definition UINTPTR_MAX : Z := two_64 - 1.

Module Timer.
Record t : Type := mk {
  callback_ : Z;
  expiration_ : Timestamp.t;
  interval_ : double;
  repeat_ : bool;
  sequence_ : Z;
}.

(** The constructor, given the value [incrementAndGet] returned. *)
Definition init (cb : Z) (when : Timestamp.t) (interval : double) (seq : Z) : t :=
  mk cb when interval (dpositive interval) seq.

Definition with_expiration (x : t) (e : Timestamp.t) : t :=
  mk (callback_ x) e (interval_ x) (repeat_ x) (sequence_ x).

Definition restart (x : t) (now : Timestamp.t) : outcome t :=
  if repeat_ x
  then e ← Timestamp.addTime now (interval_ x); mret (with_expiration x e)
  else mret (with_expiration x Timestamp.invalid).
End Timer.

(** [TimerId]: the timer's address and its sequence number. *)
Abbreviation TimerId := (Z * Z)%type.
Definition null_TimerId : TimerId := (0, 0).

Module TimerQueue.

Record t : Type := mk {
  heap : gmap Z Timer.t;              (* the live [Timer] objects *)
  s_numCreated_ : Z;                  (* [Timer::s_numCreated_] *)
  timerfd_ : option Z;                (* when the one-shot timerfd fires *)
  timers_ : list entry;               (* set<pair<Timestamp, Timer*>> *)
  activeTimers_ : gset (Z * Z);       (* set<pair<Timer*, int64_t>> *)
  callingExpiredTimers_ : bool;
  cancelingTimers_ : gset (Z * Z);
}.

Definition init : t := mk ∅ 0 None [] ∅ false ∅.

Definition set_heap (q : t) h := mk h (s_numCreated_ q) (timerfd_ q) (timers_ q)
  (activeTimers_ q) (callingExpiredTimers_ q) (cancelingTimers_ q).
Definition set_timerfd (q : t) a := mk (heap q) (s_numCreated_ q) a (timers_ q)
  (activeTimers_ q) (callingExpiredTimers_ q) (cancelingTimers_ q).
Definition set_timers (q : t) l s := mk (heap q) (s_numCreated_ q) (timerfd_ q) l
  s (callingExpiredTimers_ q) (cancelingTimers_ q).
Definition set_calling (q : t) b := mk (heap q) (s_numCreated_ q) (timerfd_ q) (timers_ q)
  (activeTimers_ q) b (cancelingTimers_ q).
Definition set_canceling (q : t) s := mk (heap q) (s_numCreated_ q) (timerfd_ q) (timers_ q)
  (activeTimers_ q) (callingExpiredTimers_ q) s.

(** [*timer]: a dangling pointer is a fault. *)
Definition deref (q : t) (p : Z) : outcome Timer.t :=
  match heap q !! p with Some x => Done x | None => Fault OutOfBounds end.

Definition sizes_agree (q : t) : bool :=
  bool_decide (length (timers_ q) = size (activeTimers_ q)).

(** Arm the one-shot timerfd with a relative delay: it fires at [now + delay]. *)
Definition resetTimerfd (q : t) (now expiration : Timestamp.t) : outcome t :=
  ts ← howMuchTimeFromNow expiration now;
  mret (set_timerfd q (Some (now + Z.quot (tv_sec ts * 1000000000 + tv_nsec ts) 1000))).

(** The read that acknowledges an expiration: the one-shot timerfd is disarmed
    (an alarm re-armed meanwhile counts as lost, which only makes [alarm] harder). *)
Definition readTimerfd (q : t) : t := set_timerfd q None.

Definition insert (q : t) (timer : Z) : outcome (t * bool) :=
  assert_ (sizes_agree q);;
  x ← deref q timer;
  let when := Timer.expiration_ x in
  let earliestChanged :=
    match timers_ q with [] => true | first :: _ => Timestamp.ltb when first.1 end in
  let '(l, fresh) := set_insert (when, timer) (timers_ q) in
  assert_ fresh;;
  let active := (timer, Timer.sequence_ x) in
  assert_ (bool_decide (active ∉ activeTimers_ q));;
  let q' := set_timers q l ({[active]} ∪ activeTimers_ q) in
  assert_ (sizes_agree q');;
  mret (q', earliestChanged).

Definition addTimerInLoop (q : t) (now : Timestamp.t) (timer : Z) : outcome t :=
  '(q', earliestChanged) ← insert q timer;
  if (earliestChanged : bool)
  then x ← deref q' timer; resetTimerfd q' now (Timer.expiration_ x)
  else mret q'.

(** [addTimer] in the loop thread; [timer] is the address [new] returned. *)
Definition addTimer (q : t) (now : Timestamp.t) (timer cb : Z) (when : Timestamp.t)
    (interval : double) : outcome (t * TimerId) :=
  let seq := i64 (s_numCreated_ q + 1) in
  let x := Timer.init cb when interval seq in
  let q1 := mk (<[timer := x]> (heap q)) seq (timerfd_ q) (timers_ q) (activeTimers_ q)
              (callingExpiredTimers_ q) (cancelingTimers_ q) in
  q2 ← addTimerInLoop q1 now timer;
  mret (q2, (timer, seq)).

Definition cancelInLoop (q : t) (timerId : TimerId) : outcome t :=
  assert_ (sizes_agree q);;
  let timer := timerId in
  q' ← (if bool_decide (timer ∈ activeTimers_ q) then
          x ← deref q timer.1;
          let '(l, n) := set_erase (Timer.expiration_ x, timer.1) (timers_ q) in
          assert_ (bool_decide (n = 1));;
          mret (set_timers (set_heap q (delete timer.1 (heap q))) l
                  (activeTimers_ q ∖ {[timer]}))
        else if callingExpiredTimers_ q then
          mret (set_canceling q ({[timer]} ∪ cancelingTimers_ q))
        else mret q);
  assert_ (sizes_agree q');;
  mret q'.
Definition cancel (q : t) (timerId : TimerId) : outcome t := cancelInLoop q timerId.

(** The loop of [getExpired] over the entries moved out. *)
Definition erase_active (q : t) (e : entry) : outcome t :=
  x ← deref q e.2;
  let timer := (e.2, Timer.sequence_ x) in
  assert_ (bool_decide (timer ∈ activeTimers_ q));;
  mret (set_timers q (timers_ q) (activeTimers_ q ∖ {[timer]})).

Definition getExpired (q : t) (now : Timestamp.t) : outcome (list entry * t) :=
  assert_ (sizes_agree q);;
  let sentry := (now, UINTPTR_MAX) in
  let '(expired, rest) := split_lower_bound sentry (timers_ q) in
  assert_ (match rest with [] => true | e :: _ => Timestamp.ltb now e.1 end);;
  q' ← run_all erase_active (set_timers q rest (activeTimers_ q)) expired;
  assert_ (sizes_agree q');;
  mret (expired, q').

(** The loop of [reset]: restart or delete one expired timer. *)
Definition reset_one (now : Timestamp.t) (q : t) (e : entry) : outcome t :=
  x ← deref q e.2;
  let timer := (e.2, Timer.sequence_ x) in
  if Timer.repeat_ x && bool_decide (timer ∉ cancelingTimers_ q)
  then
    x' ← Timer.restart x now;
    fst <$> insert (set_heap q (<[e.2 := x']> (heap q))) e.2
  else mret (set_heap q (delete e.2 (heap q))).

(** [armed_at] is the second reading of the clock, in [howMuchTimeFromNow]. *)
Definition reset (q : t) (expired : list entry) (now armed_at : Timestamp.t) : outcome t :=
  q' ← run_all (reset_one now) q expired;
  nextExpire ← match timers_ q' with
               | [] => mret Timestamp.invalid
               | first :: _ => x ← deref q' first.2; mret (Timer.expiration_ x)
               end;
  if Timestamp.valid nextExpire then resetTimerfd q' armed_at nextExpire else mret q'.

(** [run p q]: the effect on the queue of the callback of the timer at [p]. *)
Definition run_expired (run : Z -> t -> outcome t) (q : t) (e : entry) : outcome t :=
  _ ← deref q e.2;
  run e.2 q.

Definition handleRead (run : Z -> t -> outcome t) (q : t) (now armed_at : Timestamp.t) : outcome t :=
  let q := readTimerfd q in
  '(expired, q) ← getExpired q now;
  let q := set_canceling (set_calling q true) ∅ in
  q ← run_all (run_expired run) q expired;
  reset (set_calling q false) expired now armed_at.

(** The destructor frees the timers still in the set. *)
Definition destroy (q : t) : outcome t :=
  run_all (fun q e => _ ← deref q e.2; mret (set_heap q (delete e.2 (heap q)))) q (timers_ q).
End TimerQueue.

(** ** Specification *)
Module TimerQueueSpec.
Import TimerQueue.

(** Times are kept within [2^61] microseconds of the epoch (73,000 years), so
    that no 64-bit difference or sum overflows. *)
Definition time_bound : Z := 2305843009213693952.
Definition time_ok (x : Z) : Prop := - time_bound <= x <= time_bound.
Definition interval_ok (interval : double) : Prop :=
  dpositive interval = true ->
  exists d, Timestamp.micros interval = Done d /\ 0 <= d <= time_bound.

(** [inv L q]: [L] lists the timers that are neither scheduled nor freed,
    because their callbacks are being run.  [timers_] and [activeTimers_] are
    two views of the same set of live timers, and every live timer is
    scheduled or in [L] (nothing leaks). *)
Record inv (L : list Z) (q : t) : Prop := {
  inv_sorted : sset (timers_ q);
  inv_timers : forall w p, (w, p) ∈ timers_ q ->
    exists x, heap q !! p = Some x /\ Timer.expiration_ x = w;
  inv_active : forall p s, (p, s) ∈ activeTimers_ q <->
    exists x, heap q !! p = Some x /\ Timer.sequence_ x = s /\ (Timer.expiration_ x, p) ∈ timers_ q;
  inv_size : length (timers_ q) = size (activeTimers_ q);
  inv_heap : forall p x, heap q !! p = Some x ->
    0 < p < UINTPTR_MAX /\ 0 < Timer.sequence_ x <= s_numCreated_ q /\
    - 2 * time_bound <= Timer.expiration_ x <= 2 * time_bound /\
    Timer.repeat_ x = dpositive (Timer.interval_ x) /\ interval_ok (Timer.interval_ x) /\
    (p ∈ L \/ (Timer.expiration_ x, p) ∈ timers_ q);
  inv_limbo : forall p, p ∈ L -> is_Some (heap q !! p) /\ forall w, (w, p) ∉ timers_ q;
  inv_limbo_nodup : NoDup L;
  inv_seq : forall p p' x x', heap q !! p = Some x -> heap q !! p' = Some x' ->
    Timer.sequence_ x = Timer.sequence_ x' -> p = p';
  inv_created : 0 <= s_numCreated_ q;
}.

(** The timerfd fires no later than the first deadline, or [100us] after the
    last operation ([clk]) if that deadline is nearer than the timer's
    resolution. *)
Definition alarm (clk : Z) (q : t) : Prop :=
  match timers_ q with
  | [] => True
  | first :: _ => exists a, timerfd_ q = Some a /\ a <= Z.max first.1 (clk + 100)
  end.

(** The allocator's promise and the caller's obligations for [addTimer]. *)
Record add_ok (q : t) (now timer when : Z) (interval : double) : Prop := {
  add_fresh : heap q !! timer = None;
  add_addr : 0 < timer < UINTPTR_MAX;
  add_count : s_numCreated_ q + 1 < two_63;
  add_now : time_ok now;
  add_when : time_ok when;
  add_interval : interval_ok interval;
}.

(** What a callback can do to the queue, between the clock readings [t0] and [t1]. *)
Inductive api_step (t0 t1 : Z) (q q' : t) : Prop :=
  | api_add now timer cb when interval id :
      add_ok q now timer when interval -> t0 <= now <= t1 ->
      addTimer q now timer cb when interval = Done (q', id) -> api_step t0 t1 q q'
  | api_cancel id :
      cancel q id = Done q' -> api_step t0 t1 q q'.

(** A callback returns, having used the queue only through its interface. *)
Definition callback_ok (t0 t1 : Z) (run : Z -> t -> outcome t) : Prop :=
  forall L p q, inv L q -> exists q', run p q = Done q' /\ rtc (api_step t0 t1) q q'.
End TimerQueueSpec.

(** ** Lemmas *)
Module TimerQueueFacts.
Import TimerQueue TimerQueueSpec.

Lemma timer_deref_ok q p x : heap q !! p = Some x -> deref q p = Done x.
Proof. unfold deref. by intros ->. Qed.

Lemma sizes_agree_inv L q : inv L q -> sizes_agree q = true.
Proof. intros Hi. apply bool_decide_eq_true_2, (inv_size _ _ Hi). Qed.

Lemma timer_inv_init : inv [] init.
Proof.
  constructor; simpl; try done; try constructor; try set_solver.
Qed.

Lemma resetTimerfd_ok q now e :
  time_ok now -> - 2 * time_bound <= e <= 2 * time_bound ->
  resetTimerfd q now e = Done (set_timerfd q (Some (Z.max e (now + 100)))).
Proof.
  intros Hn He. unfold resetTimerfd.
  destruct (howMuchTimeFromNow e now) as [ts|f] eqn:Hts.
  - simpl. apply howMuchTimeFromNow_spec in Hts as (_ & _ & ->).
    rewrite Z.quot_mul by done. unfold mret, outcome_ret. do 3 f_equal. lia.
  - exfalso. unfold howMuchTimeFromNow in Hts.
    rewrite checked64_ok in Hts; [done|]. unfold time_ok, time_bound in *. zlia.
Qed.

(** Only [heap], [timers_], [activeTimers_] and the counter matter to [inv]. *)
Lemma inv_ext L q q' :
  heap q' = heap q -> timers_ q' = timers_ q -> activeTimers_ q' = activeTimers_ q ->
  s_numCreated_ q' = s_numCreated_ q -> inv L q -> inv L q'.
Proof. intros H1 H2 H3 H4 []. constructor; by rewrite ?H1, ?H2, ?H3, ?H4. Qed.

(** The state after a successful [insert] of a limbo timer. *)
Definition inserted (q : t) (p : Z) (x : Timer.t) : t :=
  set_timers q (set_insert (Timer.expiration_ x, p) (timers_ q)).1
    ({[(p, Timer.sequence_ x)]} ∪ activeTimers_ q).

Lemma limbo_not_active L q p s : inv L q -> p ∈ L -> (p, s) ∉ activeTimers_ q.
Proof.
  intros Hi Hp Ha. apply (inv_active _ _ Hi) in Ha as (x & _ & _ & Hin).
  by eapply (inv_limbo _ _ Hi).
Qed.

Lemma inserted_inv L q p x :
  inv (p :: L) q -> heap q !! p = Some x -> inv L (inserted q p x).
Proof.
  intros Hi Hx. pose proof (inv_limbo _ _ Hi p ltac:(set_solver)) as [_ Hnot].
  pose proof (inv_limbo_nodup _ _ Hi) as [HpL HL]%NoDup_cons.
  constructor; simpl.
  - apply set_insert_sset, Hi.
  - intros w p' [[= -> ->]|Hin]%set_insert_elem; [by exists x|]. by apply Hi.
  - intros p' s. rewrite elem_of_union, elem_of_singleton, (inv_active _ _ Hi).
    split.
    + intros [[= -> ->]|(y & ? & ? & ?)]; [exists x|exists y]; split_and!; try done;
        apply set_insert_elem; naive_solver.
    + intros (y & Hy & <- & [[= He ->]|Hin]%set_insert_elem); [left|right; by exists y].
      by simplify_eq.
  - rewrite (set_insert_length _ _ (inv_sorted _ _ Hi) (Hnot _)).
    rewrite size_union, size_singleton, (inv_size _ _ Hi); [done|].
    apply disjoint_singleton_l. apply (limbo_not_active (p :: L)); [done|set_solver].
  - intros p' y Hy. destruct (inv_heap _ _ Hi p' y Hy) as (?&?&?&?&?&Hloc).
    split_and!; try done; try lia. rewrite set_insert_elem.
    destruct Hloc as [[->|?]%elem_of_cons|?]; simplify_eq; auto.
  - intros p' Hp'. destruct (inv_limbo _ _ Hi p') as [? Hnot']; [set_solver|]. split; [done|].
    intros w [[= _ ->]|?]%set_insert_elem; [done|by eapply Hnot'].
  - done.
  - apply Hi.
  - apply Hi.
Qed.

Lemma insert_ok L q p x :
  inv (p :: L) q -> heap q !! p = Some x ->
  TimerQueue.insert q p = Done (inserted q p x,
    match timers_ q with [] => true | f :: _ => Timestamp.ltb (Timer.expiration_ x) f.1 end).
Proof.
  intros Hi Hx. pose proof (inserted_inv _ _ _ _ Hi Hx) as Hi'.
  pose proof (inv_limbo _ _ Hi p ltac:(set_solver)) as [_ Hnot].
  unfold TimerQueue.insert. rewrite (sizes_agree_inv _ _ Hi). simpl.
  rewrite (timer_deref_ok _ _ _ Hx). simpl.
  pose proof (set_insert_new (Timer.expiration_ x, p) (timers_ q) (inv_sorted _ _ Hi) (Hnot _)) as Hf.
  unfold inserted in *. destruct (set_insert _ _) as [l fresh]. simpl in *. subst. simpl.
  rewrite bool_decide_eq_true_2 by (apply (limbo_not_active (p :: L)); [done|set_solver]). simpl.
  by rewrite (sizes_agree_inv _ _ Hi').
Qed.

(** Writing a fresh or a limbo timer: the scheduled timers do not move. *)
Lemma inv_write L L' q p x n fd c cc :
  inv L q -> (p ∈ L /\ L' = L \/ heap q !! p = None /\ L' = p :: L) ->
  s_numCreated_ q <= n -> 0 < p < UINTPTR_MAX -> 0 < Timer.sequence_ x <= n ->
  - 2 * time_bound <= Timer.expiration_ x <= 2 * time_bound ->
  Timer.repeat_ x = dpositive (Timer.interval_ x) -> interval_ok (Timer.interval_ x) ->
  (forall p' x', p' <> p -> heap q !! p' = Some x' -> Timer.sequence_ x' <> Timer.sequence_ x) ->
  inv L' (mk (<[p := x]> (heap q)) n fd (timers_ q) (activeTimers_ q) c cc).
Proof.
  intros Hi HL Hn Hp Hs He Hr Hiv Huniq.
  assert (forall w, (w, p) ∉ timers_ q) as Hnot.
  { intros w Hw. destruct HL as [[Hin _]|[Hnone _]]; [by eapply (inv_limbo _ _ Hi)|].
    apply (inv_timers _ _ Hi) in Hw as (y & Hy & _). congruence. }
  assert (forall p', p' ∈ L' <-> p' ∈ L \/ p' = p) as HL'.
  { destruct HL as [[? ->]|[? ->]]; [|set_solver]. naive_solver. }
  constructor; simpl.
  - apply Hi.
  - intros w p' Hin. destruct (decide (p' = p)) as [->|Hne]; [by destruct (Hnot w)|].
    rewrite lookup_insert_ne by done. by apply Hi.
  - intros p' s. rewrite (inv_active _ _ Hi). destruct (decide (p' = p)) as [->|Hne].
    + rewrite lookup_insert_eq. split; intros (y & _ & _ & Hin); by destruct (Hnot (Timer.expiration_ y)).
    + by rewrite lookup_insert_ne.
  - apply Hi.
  - intros p' y [[<- <-]|[Hne Hy]]%lookup_insert_Some.
    + split_and!; try done; try lia. left. by apply HL'; right.
    + destruct (inv_heap _ _ Hi p' y Hy) as (?&?&?&?&?&Hloc). split_and!; try done; try lia.
      destruct Hloc; [left|by right]. by apply HL'; left.
  - intros p' Hin. destruct (decide (p' = p)) as [->|Hne]; [by rewrite lookup_insert_eq|].
    rewrite lookup_insert_ne by done. apply Hi. apply HL' in Hin. naive_solver.
  - destruct HL as [[? ->]|[Hnone ->]]; [apply Hi|]. constructor; [|apply Hi].
    intros Hin. apply (inv_limbo _ _ Hi) in Hin as [[y Hy] _]. congruence.
  - intros p1 p2 x1 x2 H1 H2 Heq.
    apply lookup_insert_Some in H1 as [[<- <-]|[Hne1 H1]], H2 as [[<- <-]|[Hne2 H2]]; [done|..].
    + by destruct (Huniq p2 x2).
    + by destruct (Huniq p1 x1).
    + by eapply (inv_seq _ _ Hi).
  - pose proof (inv_created _ _ Hi). lia.
Qed.

Lemma inv_free_limbo L q p : inv (p :: L) q -> inv L (set_heap q (delete p (heap q))).
Proof.
  intros Hi. pose proof (inv_limbo _ _ Hi p ltac:(set_solver)) as [_ Hnot].
  pose proof (inv_limbo_nodup _ _ Hi) as [HpL HL]%NoDup_cons.
  constructor; simpl; try apply Hi; [| | | |done|].
  - intros w p' Hin. destruct (decide (p' = p)) as [->|Hne]; [by destruct (Hnot w)|].
    rewrite lookup_delete_ne by done. by apply Hi.
  - intros p' s. rewrite (inv_active _ _ Hi). destruct (decide (p' = p)) as [->|Hne].
    + rewrite lookup_delete_eq. split; [|naive_solver]. intros (y & _ & _ & Hin). by destruct (Hnot _ Hin).
    + by rewrite lookup_delete_ne.
  - intros p' y [Hne Hy]%lookup_delete_Some.
    destruct (inv_heap _ _ Hi p' y Hy) as (?&?&?&?&?&Hloc). split_and!; try done; try lia.
    apply elem_of_cons in Hloc || destruct Hloc as [[->|?]%elem_of_cons|?]; naive_solver.
  - intros p' Hin. rewrite lookup_delete_ne by (by intros ->). apply Hi. set_solver.
  - intros p1 p2 x1 x2 [_ H1]%lookup_delete_Some [_ H2]%lookup_delete_Some.
    by eapply (inv_seq _ _ Hi).
Qed.

(** [addTimerInLoop] of a timer in limbo: it is scheduled, nothing else changes,
    and the timerfd is set if it is the first. *)
Lemma addTimerInLoop_ok L q now timer x :
  inv (timer :: L) q -> heap q !! timer = Some x -> time_ok now ->
  exists q', addTimerInLoop q now timer = Done q' /\ inv L q' /\ heap q' = heap q /\ s_numCreated_ q' = s_numCreated_ q /\
    timers_ q' = (set_insert (Timer.expiration_ x, timer) (timers_ q)).1 /\
    callingExpiredTimers_ q' = callingExpiredTimers_ q /\ cancelingTimers_ q' = cancelingTimers_ q /\
    (match timers_ q' with
     | [] => False
     | f :: _ => (exists a, timerfd_ q' = Some a /\ a <= Z.max f.1 (now + 100)) \/
                 (timerfd_ q' = timerfd_ q /\ exists g l, timers_ q = g :: l /\ g.1 <= f.1)
     end).
Proof.
  intros Hi Hx Hnow. unfold addTimerInLoop. rewrite (insert_ok L q timer x Hi Hx). simpl.
  pose proof (inserted_inv L q timer x Hi Hx) as Hi2. set (when := Timer.expiration_ x) in *.
  destruct (inv_heap _ _ Hi timer x Hx) as (_ & _ & Hbound & _). set (q2 := inserted q timer x) in *.
  assert (heap q2 !! timer = Some x) as Hx2 by done.
  pose proof (set_insert_head (when, timer) (timers_ q)) as Hhead.
  pose proof (set_insert_elem (when, timer) (timers_ q) (when, timer)) as Hel.
  destruct (match timers_ q with [] => true | f :: _ => Timestamp.ltb when f.1 end) eqn:Hearly.
  - rewrite (timer_deref_ok _ _ _ Hx2). simpl. rewrite resetTimerfd_ok by done. simpl.
    eexists; split; [done|]. split; [by eapply inv_ext; [..|exact Hi2]|].
    split_and!; try done. change (timers_ (set_timerfd _ _)) with ((set_insert (when, timer) (timers_ q)).1).
    destruct (set_insert (when, timer) (timers_ q)).1 as [|f l'] eqn:Hset; [set_solver|].
    left. eexists; split; [done|]. fold when.
    destruct (Hhead f l') as [->|(l0 & Hl & Hnlt)]; [apply Hi|done|simpl; lia|].
    exfalso. rewrite Hl in Hearly. unfold Timestamp.ltb in Hearly.
    apply bool_decide_eq_true_1 in Hearly. apply Hnlt. left. done.
  - simpl. eexists; split; [done|]. split; [done|]. split_and!; try done.
    change (timers_ q2) with ((set_insert (when, timer) (timers_ q)).1).
    destruct (set_insert (when, timer) (timers_ q)).1 as [|f l'] eqn:Hset; [set_solver|].
    right. split; [done|].
    destruct (timers_ q) as [|g l0] eqn:Hq; [done|]. exists g, l0. split; [done|].
    unfold Timestamp.ltb in Hearly. apply bool_decide_eq_false_1 in Hearly.
    destruct (Hhead f l') as [->|(l1 & Hl & _)]; [rewrite <-Hq; apply Hi|done|simpl; lia|].
    by simplify_eq.
Qed.

(** A new [Timer] object, not yet inserted. *)
Lemma inv_new L q timer cb when interval : inv L q -> heap q !! timer = None -> 0 < timer < UINTPTR_MAX -> time_ok when -> interval_ok interval ->
  inv (timer :: L) (mk (<[timer := Timer.init cb when interval (s_numCreated_ q + 1)]> (heap q)) (s_numCreated_ q + 1) (timerfd_ q)
                       (timers_ q) (activeTimers_ q) (callingExpiredTimers_ q) (cancelingTimers_ q)).
Proof.
  intros Hi Hfresh Haddr Hwhen Hint. pose proof (inv_created _ _ Hi). eapply inv_write; try done; simpl; try lia; [by right| |].
  - unfold time_ok in Hwhen. unfold time_bound in *. lia.
  - intros p' x' _ Hx'. apply (inv_heap _ _ Hi) in Hx' as (_ & ? & _). lia.
Qed.

(** [addTimer] in any state: the new timer is scheduled, nothing else changes. *)
Lemma addTimer_ok L clk q now timer cb when interval :
  inv L q -> add_ok q now timer when interval -> clk <= now ->
  exists q', addTimer q now timer cb when interval = Done (q', (timer, s_numCreated_ q + 1)) /\
    inv L q' /\
    heap q' = <[timer := Timer.init cb when interval (s_numCreated_ q + 1)]> (heap q) /\
    timers_ q' = (set_insert (when, timer) (timers_ q)).1 /\
    callingExpiredTimers_ q' = callingExpiredTimers_ q /\ cancelingTimers_ q' = cancelingTimers_ q /\
    (match timers_ q' with
     | [] => False
     | f :: _ => (exists a, timerfd_ q' = Some a /\ a <= Z.max f.1 (now + 100)) \/
                 (timerfd_ q' = timerfd_ q /\ exists g l, timers_ q = g :: l /\ g.1 <= f.1)
     end).
Proof.
  intros Hi [Hfresh Haddr Hcount Hnow Hwhen Hint] Hclk. unfold addTimer.
  pose proof (inv_created _ _ Hi) as Hc0. rewrite i64_small by zlia. set (q1 := mk _ _ _ _ _ _ _).
  destruct (addTimerInLoop_ok L q1 now timer (Timer.init cb when interval (s_numCreated_ q + 1))) as (q' & -> & Hi' & Hh & _ & Ht & Hc & Hcc & Hm);
    [by apply inv_new|by apply lookup_insert_eq|done|].
  exists q'. by split_and!.
Qed.

Lemma inv_cancel L q p s x :
  inv L q -> heap q !! p = Some x -> Timer.sequence_ x = s -> (Timer.expiration_ x, p) ∈ timers_ q ->
  inv L (set_timers (set_heap q (delete p (heap q))) (set_erase (Timer.expiration_ x, p) (timers_ q)).1
           (activeTimers_ q ∖ {[(p, s)]})).
Proof.
  intros Hi Hx Hs Hin. pose proof (inv_sorted _ _ Hi) as Hsort.
  assert (forall w, (w, p) ∈ timers_ q -> w = Timer.expiration_ x) as Huniq.
  { intros w Hw. apply (inv_timers _ _ Hi) in Hw as (y & Hy & <-). by simplify_eq. }
  assert (p ∉ L) as HpL. { intros HpL. by eapply (inv_limbo _ _ Hi). }
  constructor; simpl; try apply Hi.
  - by apply set_erase_sset.
  - intros w p' [Hw Hne]%set_erase_elem; [|done].
    destruct (decide (p' = p)) as [->|Hne']; [by apply Huniq in Hw; subst|].
    rewrite lookup_delete_ne by done. by apply Hi.
  - intros p' s'. rewrite elem_of_difference, elem_of_singleton, (inv_active _ _ Hi).
    setoid_rewrite (set_erase_elem _ _ _ Hsort). destruct (decide (p' = p)) as [->|Hne].
    + rewrite lookup_delete_eq. naive_solver.
    + rewrite lookup_delete_ne by done. naive_solver.
  - destruct (set_erase_in _ _ Hin) as [_ Hlen].
    rewrite size_difference, size_singleton, <-(inv_size _ _ Hi); [lia|].
    apply singleton_subseteq_l, (inv_active _ _ Hi). eauto.
  - intros p' y [Hne Hy]%lookup_delete_Some.
    destruct (inv_heap _ _ Hi p' y Hy) as (?&?&?&?&?&Hloc). split_and!; try done; try lia.
    rewrite set_erase_elem by done. naive_solver.
  - intros p' Hp'. destruct (inv_limbo _ _ Hi p' Hp') as [? Hnot].
    rewrite lookup_delete_ne by (by intros ->). split; [done|].
    intros w [Hw _]%set_erase_elem; [|done]. by eapply Hnot.
  - intros p1 p2 x1 x2 [_ H1]%lookup_delete_Some [_ H2]%lookup_delete_Some.
    by eapply (inv_seq _ _ Hi).
Qed.

(** [cancel] in any state, on both branches. *)
Lemma cancel_ok L q id :
  inv L q ->
  exists q', cancel q id = Done q' /\ inv L q' /\ timerfd_ q' = timerfd_ q /\
    s_numCreated_ q' = s_numCreated_ q /\ callingExpiredTimers_ q' = callingExpiredTimers_ q /\
    if decide (id ∈ activeTimers_ q) then
      (exists x, heap q !! id.1 = Some x /\ Timer.sequence_ x = id.2 /\
        timers_ q' = (set_erase (Timer.expiration_ x, id.1) (timers_ q)).1) /\
      heap q' = delete id.1 (heap q) /\ cancelingTimers_ q' = cancelingTimers_ q
    else
      heap q' = heap q /\ timers_ q' = timers_ q /\ activeTimers_ q' = activeTimers_ q /\
      cancelingTimers_ q' =
        if callingExpiredTimers_ q then {[id]} ∪ cancelingTimers_ q else cancelingTimers_ q.
Proof.
  intros Hi. unfold cancel, cancelInLoop. rewrite (sizes_agree_inv _ _ Hi). simpl.
  destruct (decide (id ∈ activeTimers_ q)) as [Hin|Hin].
  - rewrite bool_decide_eq_true_2 by done. destruct id as [p s]. simpl.
    pose proof Hin as (x & Hx & Hs & Ht)%(inv_active _ _ Hi).
    rewrite (timer_deref_ok _ _ _ Hx). simpl. pose proof (inv_cancel _ _ _ _ _ Hi Hx Hs Ht) as Hi'.
    pose proof (set_erase_in _ _ Ht) as [Hn _].
    destruct (set_erase _ _) as [l n] eqn:He. simpl in *. subst. simpl.
    rewrite (sizes_agree_inv _ _ Hi'). eexists; split; [done|]. simpl. split_and!; try done.
    exists x. by rewrite He.
  - rewrite bool_decide_eq_false_2 by done. destruct (callingExpiredTimers_ q) eqn:Hc; simpl.
    + assert (inv L (set_canceling q ({[id]} ∪ cancelingTimers_ q))) as Hi'
        by (by eapply inv_ext; [..|exact Hi]).
      rewrite (sizes_agree_inv _ _ Hi'). by eexists; split_and!.
    + rewrite (sizes_agree_inv _ _ Hi). by eexists; split_and!.
Qed.

Lemma set_erase_head e l f l' :
  sset l -> (set_erase e l).1 = f :: l' -> exists g l0, l = g :: l0 /\ g.1 <= f.1.
Proof.
  intros Hs He. destruct l as [|g l0]; [done|]. exists g, l0. split; [done|].
  assert (f ∈ g :: l0) as Hf by (apply (set_erase_elem e _ f Hs); rewrite He; set_solver).
  apply sset_cons in Hs as [_ Hs]. rewrite Forall_forall in Hs.
  apply elem_of_cons in Hf as [->|Hf]; [lia|]. specialize (Hs f Hf). unfold entry_lt in Hs. lia.
Qed.

(** While callbacks run, deadlines in the future need no alarm yet: [reset]
    will set it. *)
Definition alarm_calling (clk : Z) (q : t) : Prop :=
  match timers_ q with
  | [] => True
  | first :: _ => 0 < first.1 \/ exists a, timerfd_ q = Some a /\ a <= Z.max first.1 (clk + 100)
  end.

Lemma alarm_addTimer L clk q now timer cb when interval q' id :
  inv L q -> add_ok q now timer when interval -> clk <= now -> alarm clk q ->
  addTimer q now timer cb when interval = Done (q', id) -> alarm now q'.
Proof.
  intros Hi Hok Hclk Ha He.
  destruct (addTimer_ok L clk q now timer cb when interval) as (q2 & He2 & _ & _ & _ & _ & _ & Hm); [done..|].
  rewrite He in He2. simplify_eq. unfold alarm in *. destruct (timers_ q2) as [|f l]; [done|].
  destruct Hm as [?|(Hfd & g & l0 & Hq & Hg)]; [done|]. rewrite Hq in Ha.
  destruct Ha as (a & ? & ?). exists a. rewrite Hfd. split; [done|lia].
Qed.

Lemma alarm_cancel L clk q q' id :
  inv L q -> alarm clk q -> cancel q id = Done q' -> alarm clk q'.
Proof.
  intros Hi Ha He. destruct (cancel_ok L q id Hi) as (q2 & He2 & _ & Hfd & _ & _ & Hm).
  rewrite He in He2. simplify_eq. unfold alarm in *. rewrite Hfd. case_decide.
  - destruct Hm as ((x & _ & _ & ->) & _). destruct (set_erase _ _).1 as [|f l] eqn:Hl; [done|].
    apply set_erase_head in Hl as (g & l0 & Hq & Hg); [|apply Hi]. rewrite Hq in Ha.
    destruct Ha as (a & ? & ?). exists a. split; [done|lia].
  - by destruct Hm as (_ & -> & _).
Qed.

(** What callbacks preserve. *)
Lemma timer_api_step_ok L t0 t1 q q' :
  inv L q -> alarm_calling t1 q -> api_step t0 t1 q q' ->
  inv L q' /\ alarm_calling t1 q' /\ callingExpiredTimers_ q' = callingExpiredTimers_ q /\
  cancelingTimers_ q ⊆ cancelingTimers_ q' /\ (forall p, p ∈ L -> heap q' !! p = heap q !! p).
Proof.
  intros Hi Ha [now timer cb when interval id Hok Hnow He|id He].
  - destruct (addTimer_ok L t0 q now timer cb when interval) as (q2 & He2 & Hi2 & Hh & Ht & Hc & Hcc & Hm);
      [done..|lia|]. rewrite He in He2. simplify_eq. split_and!; [done| |done|by rewrite Hcc|].
    + unfold alarm_calling in *. destruct (timers_ q2) as [|f l]; [done|].
      destruct Hm as [(a & ? & ?)|(Hfd & g & l0 & Hq & Hg)]; [right; exists a; split; [done|lia]|].
      rewrite Hq in Ha. destruct Ha as [?|(a & ? & ?)]; [left; lia|right].
      exists a. rewrite Hfd. split; [done|lia].
    + intros p Hp. rewrite Hh. apply lookup_insert_ne. intros <-.
      apply (inv_limbo _ _ Hi) in Hp as [[y Hy] _]. destruct Hok. congruence.
  - destruct (cancel_ok L q id Hi) as (q2 & He2 & Hi2 & Hfd & _ & Hc & Hm).
    rewrite He in He2. simplify_eq. split_and!; [done| |done| |].
    + unfold alarm_calling in *. rewrite Hfd. case_decide; [|by destruct Hm as (_ & -> & _)].
      destruct Hm as ((x & _ & _ & ->) & _). destruct (set_erase _ _).1 as [|f l] eqn:Hl; [done|].
      apply set_erase_head in Hl as (g & l0 & Hq & Hg); [|apply Hi]. rewrite Hq in Ha.
      destruct Ha as [?|(a & ? & ?)]; [left; lia|right]. exists a. split; [done|lia].
    + case_decide; [by destruct Hm as (_ & _ & ->)|]. destruct Hm as (_ & _ & _ & ->).
      destruct (callingExpiredTimers_ q); set_solver.
    + intros p Hp. case_decide as Hid; [|by destruct Hm as (-> & _)].
      destruct Hm as (_ & -> & _). apply lookup_delete_ne. intros <-.
      destruct id as [p' s]. by apply (limbo_not_active L q p' s Hi Hp).
Qed.

Lemma timer_api_steps_ok L t0 t1 q q' :
  rtc (api_step t0 t1) q q' -> inv L q -> alarm_calling t1 q ->
  inv L q' /\ alarm_calling t1 q' /\ callingExpiredTimers_ q' = callingExpiredTimers_ q /\
  cancelingTimers_ q ⊆ cancelingTimers_ q' /\ (forall p, p ∈ L -> heap q' !! p = heap q !! p).
Proof.
  induction 1 as [q|q q1 q2 Hs _ IH]; intros Hi Ha; [done|].
  destruct (timer_api_step_ok L t0 t1 q q1) as (Hi1 & Ha1 & Hc1 & Hcc1 & Hh1); [done..|].
  destruct IH as (Hi2 & Ha2 & Hc2 & Hcc2 & Hh2); [done..|].
  split_and!; [done|done|congruence|by etrans|].
  intros p Hp. rewrite Hh2 by done. by apply Hh1.
Qed.

Lemma erase_active_ok q e x :
  heap q !! e.2 = Some x -> (e.2, Timer.sequence_ x) ∈ activeTimers_ q ->
  erase_active q e = Done (set_timers q (timers_ q) (activeTimers_ q ∖ {[(e.2, Timer.sequence_ x)]})).
Proof.
  intros Hx Ha. unfold erase_active. rewrite (timer_deref_ok _ _ _ Hx). simpl.
  by rewrite bool_decide_eq_true_2.
Qed.

Lemma erase_active_loop es q :
  NoDup es.*2 ->
  (forall p s, (p, s) ∈ activeTimers_ q -> exists x, heap q !! p = Some x /\ Timer.sequence_ x = s) ->
  (forall e, e ∈ es -> exists x, heap q !! e.2 = Some x /\ (e.2, Timer.sequence_ x) ∈ activeTimers_ q) ->
  exists A, run_all erase_active q es = Done (set_timers q (timers_ q) A) /\
    (forall p s, (p, s) ∈ A <-> (p, s) ∈ activeTimers_ q /\ p ∉ es.*2) /\
    (size A + length es = size (activeTimers_ q))%nat.
Proof.
  revert q. induction es as [|e es IH]; intros q Hnd Hfun Hes.
  { exists (activeTimers_ q). destruct q. simpl. split_and!; [done|set_solver|lia]. }
  apply NoDup_cons in Hnd as [Hne Hnd]. simpl.
  destruct (Hes e) as (x & Hx & Hact); [set_solver|].
  rewrite (erase_active_ok _ _ _ Hx Hact). simpl.
  set (A1 := activeTimers_ q ∖ {[(e.2, Timer.sequence_ x)]}).
  assert (forall p s, (p, s) ∈ A1 <-> (p, s) ∈ activeTimers_ q /\ p <> e.2) as HA1.
  { intros p s. unfold A1. rewrite elem_of_difference, elem_of_singleton.
    split; intros [Hin Hn]; (split; [done|]).
    - intros ->. apply Hn. apply Hfun in Hin as (y & Hy & <-). by simplify_eq.
    - by intros [= -> ->]. }
  destruct (IH (set_timers q (timers_ q) A1)) as (A & Hrun & HA & Hsz).
  - done.
  - intros p s Hin. apply HA1 in Hin as [Hin _]. by apply Hfun.
  - intros e' He'. destruct (Hes e') as (y & Hy & Hay); [set_solver|]. exists y.
    split; [done|]. apply HA1. split; [done|]. intros Heq. apply Hne. rewrite <-Heq.
    by apply list_elem_of_fmap_2.
  - exists A. split_and!; [done| |].
    + intros p s. rewrite HA, HA1. set_solver.
    + simpl in Hsz. assert (size A1 = size (activeTimers_ q) - 1)%nat as HsA.
      { unfold A1. rewrite size_difference by (by apply singleton_subseteq_l). by rewrite size_singleton. }
      assert (size (activeTimers_ q) <> 0%nat) by (intros H0%size_empty_inv; set_solver). lia.
Qed.

Lemma timers_ptr_inj L q e e' : inv L q -> e ∈ timers_ q -> e' ∈ timers_ q -> e.2 = e'.2 -> e = e'.
Proof.
  intros Hi. destruct e as [w p], e' as [w' p']. simpl.
  intros (x & Hx & <-)%(inv_timers _ _ Hi) (x' & Hx' & <-)%(inv_timers _ _ Hi) ->. by simplify_eq.
Qed.

Lemma timers_ptr_NoDup L q : inv L q -> NoDup (timers_ q).*2.
Proof.
  intros Hi. apply NoDup_fmap_2_strong; [|apply sset_NoDup, Hi].
  intros e e' He He'. by apply (timers_ptr_inj _ _ _ _ Hi).
Qed.

(** Moving a set of entries out of the queue leaves their timers in limbo, with
    those ([P]) that were there before. *)
Lemma inv_moved_out P q expired rest A :
  inv P q -> timers_ q = expired ++ rest ->
  (forall p s, (p, s) ∈ A <-> (p, s) ∈ activeTimers_ q /\ p ∉ expired.*2) ->
  (size A + length expired = size (activeTimers_ q))%nat ->
  inv (expired.*2 ++ P) (set_timers q rest A).
Proof.
  intros Hi Happ HA Hsz. pose proof (timers_ptr_NoDup _ _ Hi) as Hnd.
  rewrite Happ, fmap_app in Hnd. apply NoDup_app in Hnd as (Hnd1 & Hdisj & Hnd2).
  assert (forall w p, (w, p) ∈ rest -> p ∉ expired.*2) as Hrest.
  { intros w p Hin Hp. apply (Hdisj p Hp). by apply (list_elem_of_fmap_2 snd) in Hin. }
  assert (forall p, p ∈ expired.*2 -> exists w, (w, p) ∈ timers_ q) as Hwas.
  { intros p ([w p'] & -> & Hin)%list_elem_of_fmap. exists w. rewrite Happ. by apply elem_of_app; left. }
  constructor; simpl; try apply Hi; try done.
  - pose proof (inv_sorted _ _ Hi) as Hs. rewrite Happ in Hs. by apply sset_app in Hs as [_ ?].
  - intros w p Hin. apply Hi. rewrite Happ. by apply elem_of_app; right.
  - intros p s. rewrite HA, (inv_active _ _ Hi), Happ. split.
    + intros [(x & ? & ? & [Hin|Hin]%elem_of_app) Hp]; [|naive_solver].
      destruct Hp. by apply (list_elem_of_fmap_2 snd) in Hin.
    + intros (x & ? & ? & Hin). split; [|by eapply Hrest].
      exists x. split_and!; try done. by apply elem_of_app; right.
  - pose proof (inv_size _ _ Hi) as Hs. rewrite Happ, length_app in Hs. lia.
  - intros p x Hx. destruct (inv_heap _ _ Hi p x Hx) as (?&?&?&?&?&[Hl|Hl]); split_and!; try done; try lia.
    + left. by apply elem_of_app; right.
    + rewrite Happ in Hl. apply elem_of_app in Hl as [Hl|Hl]; [left|by right].
      apply elem_of_app; left. by apply (list_elem_of_fmap_2 snd) in Hl.
  - intros p [Hp|Hp]%elem_of_app.
    + split; [|intros w Hin; by eapply Hrest]. destruct (Hwas p Hp) as [w Hw].
      destruct (inv_timers _ _ Hi w p Hw) as (x & Hx & _). by eexists.
    + destruct (inv_limbo _ _ Hi p Hp) as [Hs Hnot]. split; [done|]. intros w Hin. apply (Hnot w).
      rewrite Happ. by apply elem_of_app; right.
  - apply NoDup_app. split_and!; [done| |apply Hi]. intros p Hp HP. destruct (Hwas p Hp) as [w Hw].
    by apply (inv_limbo _ _ Hi) in Hw.
Qed.

Lemma getExpired_ok P q now :
  inv P q ->
  exists expired q', getExpired q now = Done (expired, q') /\ inv (expired.*2 ++ P) q' /\
    heap q' = heap q /\ timers_ q = expired ++ timers_ q' /\
    Forall (fun e => e.1 <= now) expired /\ Forall (fun e => now < e.1) (timers_ q') /\
    timerfd_ q' = timerfd_ q /\ s_numCreated_ q' = s_numCreated_ q /\
    callingExpiredTimers_ q' = callingExpiredTimers_ q /\ cancelingTimers_ q' = cancelingTimers_ q.
Proof.
  intros Hi. unfold getExpired. rewrite (sizes_agree_inv _ _ Hi). simpl.
  pose proof (split_lower_bound_app (now, UINTPTR_MAX) (timers_ q)) as Happ.
  pose proof (split_lower_bound_lt (now, UINTPTR_MAX) (timers_ q)) as Hlt.
  pose proof (split_lower_bound_ge (now, UINTPTR_MAX) (timers_ q) (inv_sorted _ _ Hi)) as Hge.
  destruct (split_lower_bound _ _) as [expired rest]. simpl in *.
  assert (Forall (fun e => e.1 <= now) expired) as Hexp.
  { eapply Forall_impl; [exact Hlt|]. unfold entry_lt. simpl. intros; lia. }
  assert (Forall (fun e => now < e.1) rest) as Hrest.
  { apply Forall_forall. intros [w p] Hin. rewrite Forall_forall in Hge.
    specialize (Hge _ Hin). unfold entry_lt in Hge. simpl in *.
    destruct (inv_timers _ _ Hi w p) as (x & Hx & _); [rewrite Happ; by apply elem_of_app; right|].
    apply (inv_heap _ _ Hi) in Hx as (? & _). lia. }
  rewrite (assert_true (match rest with [] => true | e :: _ => Timestamp.ltb now e.1 end)).
  2: { destruct rest; [done|]. apply bool_decide_eq_true_2. by inversion Hrest. }
  simpl. pose proof (timers_ptr_NoDup _ _ Hi) as Hnd. rewrite Happ, fmap_app in Hnd.
  apply NoDup_app in Hnd as (Hnd1 & Hdisj & Hnd2).
  destruct (erase_active_loop expired (set_timers q rest (activeTimers_ q))) as (A & -> & HA & Hsz).
  - done.
  - intros p s (x & ? & ? & _)%(inv_active _ _ Hi). by exists x.
  - intros [w p] Hin. assert ((w, p) ∈ timers_ q) as Hin' by (rewrite Happ; by apply elem_of_app; left).
    destruct (inv_timers _ _ Hi w p Hin') as (x & Hx & Hw).
    exists x. split; [done|]. apply (inv_active _ _ Hi). exists x. by rewrite Hw.
  - simpl. set (q' := set_timers _ _ _).
    assert (inv (expired.*2 ++ P) q') as Hi' by (apply (inv_moved_out P q expired rest A); done).
    rewrite (sizes_agree_inv _ _ Hi'). by exists expired, q'.
Qed.

(** What [reset] makes of an expired timer: [None] if it is freed. *)
Definition rearm (now : Z) (canceling : gset (Z * Z)) (p : Z) (x : Timer.t) : option Timer.t :=
  if Timer.repeat_ x && bool_decide ((p, Timer.sequence_ x) ∉ canceling)
  then match Timestamp.micros (Timer.interval_ x) with
       | Done d => Some (Timer.with_expiration x (now + d))
       | Fault _ => None
       end
  else None.

Lemma rearm_fields now c p x y :
  rearm now c p x = Some y ->
  Timer.sequence_ y = Timer.sequence_ x /\ Timer.interval_ y = Timer.interval_ x /\
  Timer.repeat_ y = Timer.repeat_ x.
Proof. unfold rearm. by repeat case_match; intros [= <-]. Qed.

Lemma alarm_calling_insert clk q e l fd :
  sset (timers_ q) -> 0 < e.1 -> alarm_calling clk q ->
  l = (set_insert e (timers_ q)).1 -> fd = timerfd_ q ->
  match l with
  | [] => True
  | first :: _ => 0 < first.1 \/ exists a, fd = Some a /\ a <= Z.max first.1 (clk + 100)
  end.
Proof.
  intros Hs He Ha -> ->. unfold alarm_calling in Ha.
  destruct (set_insert e (timers_ q)).1 as [|f l] eqn:Hl; [done|].
  apply set_insert_head in Hl as [->|(l0 & Hq & _)]; [by left| |done]. by rewrite Hq in Ha.
Qed.

Lemma reset_one_ok L now clk q e :
  inv (e.2 :: L) q -> 0 < now <= time_bound -> alarm_calling clk q ->
  exists q', reset_one now q e = Done q' /\ inv L q' /\ alarm_calling clk q' /\
    timerfd_ q' = timerfd_ q /\ cancelingTimers_ q' = cancelingTimers_ q /\
    callingExpiredTimers_ q' = callingExpiredTimers_ q /\
    (forall p, p <> e.2 -> heap q' !! p = heap q !! p) /\
    (forall x, heap q !! e.2 = Some x -> heap q' !! e.2 = rearm now (cancelingTimers_ q) e.2 x).
Proof.
  intros Hi Hnow Ha. destruct e as [w p]. simpl in *.
  destruct (inv_limbo _ _ Hi p) as [[x Hx] _]; [set_solver|].
  unfold reset_one. cbn [snd]. rewrite (timer_deref_ok _ _ _ Hx). simpl.
  destruct (Timer.repeat_ x && bool_decide ((p, Timer.sequence_ x) ∉ cancelingTimers_ q)) eqn:Hb.
  - destruct (inv_heap _ _ Hi p x Hx) as (Haddr & Hseq & _ & Hrep & Hint & _).
    apply andb_true_iff in Hb as [Hr Hc]. destruct Hint as (d & Hd & Hdr); [congruence|].
    unfold Timer.restart, Timestamp.addTime. rewrite Hr, Hd. simpl.
    rewrite checked64_ok by (unfold time_bound in *; zlia). simpl.
    set (y := Timer.with_expiration x (now + d)). set (q1 := set_heap q _).
    assert (inv (p :: L) q1) as Hi1.
    { apply (inv_write (p :: L)); simpl; try done; try (unfold time_bound in *; lia).
      - left. split; [set_solver|done].
      - intros _. by exists d.
      - intros p' x' Hne Hx' Heq. by apply Hne, (inv_seq _ _ Hi p' p x' x). }
    assert (heap q1 !! p = Some y) as Hy by apply lookup_insert_eq.
    rewrite (insert_ok L q1 p y Hi1 Hy). simpl. eexists. split; [done|].
    split; [by apply inserted_inv|]. split_and!; try done.
    + apply (alarm_calling_insert clk q (now + d, p)); try done; [apply Hi|simpl; lia].
    + intros p' Hne. by apply lookup_insert_ne.
    + intros x' Hx'. simplify_eq. unfold rearm. rewrite Hr, Hc, Hd. exact Hy.
  - eexists. split; [done|]. split; [by apply inv_free_limbo|]. simpl. split_and!; try done.
    + intros p' Hne. by apply lookup_delete_ne.
    + intros x' Hx'. simplify_eq. rewrite lookup_delete_eq. unfold rearm. by rewrite Hb.
Qed.

Lemma reset_loop P now clk es q :
  inv (es.*2 ++ P) q -> 0 < now <= time_bound -> alarm_calling clk q ->
  exists q', run_all (reset_one now) q es = Done q' /\ inv P q' /\ alarm_calling clk q' /\
    callingExpiredTimers_ q' = callingExpiredTimers_ q /\
    (forall p, p ∉ es.*2 -> heap q' !! p = heap q !! p) /\
    (forall p x, p ∈ es.*2 -> heap q !! p = Some x ->
       heap q' !! p = rearm now (cancelingTimers_ q) p x).
Proof.
  intros Hi Hnow. revert q Hi. induction es as [|e es IH]; intros q Hi Ha.
  { exists q. by split_and!; try set_solver. }
  cbn [run_all]. rewrite fmap_cons in *. cbn [app] in Hi.
  destruct (reset_one_ok _ _ clk _ _ Hi Hnow Ha) as (q1 & -> & Hi1 & Ha1 & _ & Hc1 & Hg1 & Hne1 & He1).
  simpl. destruct (IH q1 Hi1 Ha1) as (q2 & -> & Hi2 & Ha2 & Hg2 & Hne2 & Hes2).
  pose proof (inv_limbo_nodup _ _ Hi) as [[Hnin _]%not_elem_of_app Hnd]%NoDup_cons.
  exists q2. split_and!; try done; [congruence| |].
  - intros p Hp. rewrite Hne2 by set_solver. apply Hne1. set_solver.
  - intros p x [->|Hp]%elem_of_cons Hx.
    + rewrite Hne2 by done. by apply He1.
    + rewrite <-Hc1. apply Hes2; [done|]. rewrite Hne1; [done|]. by intros ->.
Qed.

Lemma reset_ok P now clk armed_at es q :
  inv (es.*2 ++ P) q -> 0 < now <= time_bound -> time_ok armed_at -> clk <= armed_at -> alarm_calling clk q ->
  exists q', reset q es now armed_at = Done q' /\ inv P q' /\ alarm armed_at q' /\
    callingExpiredTimers_ q' = callingExpiredTimers_ q /\
    (forall p, p ∉ es.*2 -> heap q' !! p = heap q !! p) /\
    (forall p x, p ∈ es.*2 -> heap q !! p = Some x ->
       heap q' !! p = rearm now (cancelingTimers_ q) p x).
Proof.
  intros Hi Hnow Harm Hclk Ha. unfold reset.
  destruct (reset_loop P now clk es q) as (q1 & -> & Hi1 & Ha1 & Hc1 & Hne & Hin); [done..|].
  simpl. unfold alarm_calling in Ha1.
  destruct (timers_ q1) as [|[w p] l] eqn:Hq; simpl.
  { exists q1. split_and!; try done. by unfold alarm; rewrite Hq. }
  destruct (inv_timers _ _ Hi1 w p) as (x & Hx & Hw); [rewrite Hq; set_solver|].
  rewrite (timer_deref_ok _ _ _ Hx). simpl. rewrite Hw. simpl in Ha1.
  destruct (Timestamp.valid w) eqn:Hv.
  - apply (inv_heap _ _ Hi1) in Hx as (_ & _ & ? & _).
    rewrite resetTimerfd_ok by (done || lia). eexists. split; [done|].
    split; [by eapply inv_ext; [..|exact Hi1]|]. split_and!; try done.
    unfold alarm. simpl. rewrite Hq. eexists. split; [done|]. simpl. lia.
  - exists q1. split_and!; try done. unfold alarm. rewrite Hq.
    unfold Timestamp.valid in Hv. apply bool_decide_eq_false_1 in Hv.
    destruct Ha1 as [?|(a & ? & ?)]; [done|]. exists a. split; [done|]. simpl. lia.
Qed.

Lemma run_expired_run run q e x : heap q !! e.2 = Some x -> run_expired run q e = run e.2 q.
Proof. intros Hx. unfold run_expired. by rewrite (timer_deref_ok _ _ _ Hx). Qed.

(** The loop of callbacks: they complete, and only use the interface. *)
Lemma run_expired_loop L t0 t1 run es q :
  callback_ok t0 t1 run -> (forall e, e ∈ es -> e.2 ∈ L) -> inv L q -> alarm_calling t1 q ->
  exists q', run_all (run_expired run) q es = Done q' /\ rtc (api_step t0 t1) q q'.
Proof.
  intros Hrun. revert q. induction es as [|e es IH]; intros q Hes Hi Ha; [by eexists|].
  cbn [run_all]. destruct (inv_limbo _ _ Hi e.2) as [[x Hx] _]; [apply Hes; set_solver|].
  rewrite (run_expired_run _ _ _ _ Hx).
  destruct (Hrun L e.2 q Hi) as (q1 & -> & Hsteps). simpl.
  destruct (timer_api_steps_ok L t0 t1 q q1) as (Hi1 & Ha1 & _); [done..|].
  destruct (IH q1) as (q2 & -> & Hsteps2); [set_solver|done..|].
  exists q2. split; [done|]. by etrans.
Qed.

(** [handleRead] as a whole, [P] being timers whose insertion is still queued:
    [qc] is the queue when the last callback returns. *)
Lemma handleRead_with P run q now armed_at :
  inv P q -> 0 < now -> now <= armed_at <= time_bound -> callback_ok now armed_at run ->
  exists q' qc, handleRead run q now armed_at = Done q' /\ inv P q' /\ alarm armed_at q' /\
    callingExpiredTimers_ q' = false /\
    exists expired q0, getExpired (readTimerfd q) now = Done (expired, q0) /\
      rtc (api_step now armed_at) (set_canceling (set_calling q0 true) ∅) qc /\
      run_all (run_expired run) (set_canceling (set_calling q0 true) ∅) expired = Done qc /\
      inv (expired.*2 ++ P) q0 /\ Forall (fun e => now < e.1) (timers_ q0) /\ inv (expired.*2 ++ P) qc /\
      (forall p x, (p ∉ P) -> heap q !! p = Some x -> p ∈ expired.*2 <-> Timer.expiration_ x <= now) /\
      (forall p, p ∈ expired.*2 ++ P -> heap qc !! p = heap q !! p) /\
      (forall p, p ∉ expired.*2 -> heap q' !! p = heap qc !! p) /\
      (forall p x, p ∈ expired.*2 -> heap q !! p = Some x ->
         heap q' !! p = rearm now (cancelingTimers_ qc) p x).
Proof.
  intros Hi Hnow Harm Hrun. unfold handleRead.
  assert (inv P (readTimerfd q)) as Hi0 by (by eapply inv_ext; [..|exact Hi]).
  destruct (getExpired_ok _ _ now Hi0) as (expired & q0 & Hget & Hi1 & Hh & Happ & Hexp & Hrest & _ & _ & _).
  rewrite Hget. bind_step.
  set (q1 := set_canceling (set_calling q0 true) ∅).
  assert (inv (expired.*2 ++ P) q1) as Hi1' by (by eapply inv_ext; [..|exact Hi1]).
  assert (alarm_calling armed_at q1) as Ha1.
  { unfold alarm_calling. simpl. destruct (timers_ q0); [done|]. inversion Hrest; subst. left. lia. }
  destruct (run_expired_loop (expired.*2 ++ P) now armed_at run expired q1) as (qc & Hqc & Hsteps); [done| |done..|].
  { intros e He. apply elem_of_app; left. by apply list_elem_of_fmap_2. }
  rewrite Hqc. bind_step.
  destruct (timer_api_steps_ok _ _ _ _ _ Hsteps Hi1' Ha1) as (Hic & Hac & _ & _ & Hhc).
  destruct (reset_ok P now armed_at armed_at expired (set_calling qc false))
    as (q' & Hr & Hi' & Ha' & Hcf & Hne & Hin).
  - by eapply inv_ext; [..|exact Hic].
  - lia.
  - unfold time_ok, time_bound in *. lia.
  - lia.
  - exact Hac.
  - exists q', qc. rewrite Hr. split_and!; try done. exists expired, q0. split_and!; try done.
    + intros p x HP Hx. destruct (inv_heap _ _ Hi p x Hx) as (_&_&_&_&_&[?|Hloc]); [done|].
      rewrite Forall_forall in Hexp, Hrest. change (timers_ (readTimerfd q)) with (timers_ q) in Happ.
      split.
      * intros ([w p'] & -> & He)%list_elem_of_fmap.
        destruct (inv_timers _ _ Hi w p') as (y & Hy & Hw); [rewrite Happ; set_solver|].
        simpl in Hx. simplify_eq. by apply (Hexp _ He).
      * intros Hle. rewrite Happ in Hloc. apply elem_of_app in Hloc as [Hloc|Hloc].
        { by apply (list_elem_of_fmap_2 snd) in Hloc. }
        apply Hrest in Hloc. simpl in Hloc. lia.
    + intros p Hp. rewrite Hhc by done. simpl. by rewrite Hh.
    + intros p x Hp Hx. apply Hin; [done|]. simpl. rewrite Hhc by (by apply elem_of_app; left). simpl. by rewrite Hh.
Qed.

Lemma timer_handleRead_ok run q now armed_at :
  inv [] q -> 0 < now -> now <= armed_at <= time_bound -> callback_ok now armed_at run ->
  exists q' qc, handleRead run q now armed_at = Done q' /\ inv [] q' /\ alarm armed_at q' /\
    callingExpiredTimers_ q' = false /\
    exists expired q0, getExpired (readTimerfd q) now = Done (expired, q0) /\
      rtc (api_step now armed_at) (set_canceling (set_calling q0 true) ∅) qc /\
      run_all (run_expired run) (set_canceling (set_calling q0 true) ∅) expired = Done qc /\
      inv expired.*2 q0 /\ Forall (fun e => now < e.1) (timers_ q0) /\ inv expired.*2 qc /\
      (forall p x, heap q !! p = Some x -> p ∈ expired.*2 <-> Timer.expiration_ x <= now) /\
      (forall p, p ∈ expired.*2 -> heap qc !! p = heap q !! p) /\
      (forall p, p ∉ expired.*2 -> heap q' !! p = heap qc !! p) /\
      (forall p x, p ∈ expired.*2 -> heap q !! p = Some x ->
         heap q' !! p = rearm now (cancelingTimers_ qc) p x).
Proof.
  intros Hi H1 H2 H3.
  destruct (handleRead_with [] run q now armed_at Hi H1 H2 H3) as (q' & qc & He & Hi' & Ha & Hc & es & q0 & Hg & Hs & Hr & Hi0 & Hf & Hic & Hx & Hh & Hn & Hin).
  rewrite app_nil_r in Hi0, Hic, Hh. exists q', qc. split_and!; try done. exists es, q0. split_and!; try done.
  intros p x. apply Hx, not_elem_of_nil.
Qed.


(** A cancellation from a callback is remembered until [reset]. *)
Lemma run_loop_cancels L t0 t1 run es q qc id e :
  callback_ok t0 t1 run -> (forall e, e ∈ es -> e.2 ∈ L) -> inv L q -> alarm_calling t1 q ->
  callingExpiredTimers_ q = true -> id.1 ∈ L -> e ∈ es -> (forall q, run e.2 q = cancel q id) ->
  run_all (run_expired run) q es = Done qc -> id ∈ cancelingTimers_ qc.
Proof.
  intros Hrun Hes Hi Ha Hcall Hid (es1 & es2 & ->)%list_elem_of_split Hself.
  rewrite run_all_app.
  destruct (run_expired_loop L t0 t1 run es1 q) as (q1 & -> & Hst1); [done|set_solver|done..|].
  destruct (timer_api_steps_ok L t0 t1 q q1 Hst1 Hi Ha) as (Hi1 & Ha1 & Hc1 & _). simpl.
  destruct (inv_limbo _ _ Hi1 e.2) as [[x Hx] _]; [apply Hes; set_solver|].
  rewrite (run_expired_run _ _ _ _ Hx), Hself.
  destruct (cancel_ok L q1 id Hi1) as (q2 & He2 & Hi2 & _ & _ & _ & Hm). rewrite He2.
  bind_step.
  destruct (timer_api_step_ok L t0 t1 q1 q2) as (_ & Ha2 & _); [done|done|by apply (api_cancel _ _ _ _ id)|].
  destruct (run_expired_loop L t0 t1 run es2 q2) as (q3 & -> & Hst3); [done|set_solver|done..|].
  destruct (timer_api_steps_ok L t0 t1 q2 q3 Hst3 Hi2 Ha2) as (_ & _ & _ & Hsub & _).
  intros [= <-]. apply Hsub. case_decide as Hin.
  - destruct id as [p s]. by destruct (limbo_not_active L q1 p s Hi1 Hid).
  - destruct Hm as (_ & _ & _ & ->). rewrite Hc1, Hcall. set_solver.
Qed.

Lemma destroy_loop l q :
  NoDup l.*2 -> (forall e, e ∈ l -> is_Some (heap q !! e.2)) ->
  exists q', run_all (fun q (e : entry) => _ ← deref q e.2; mret (set_heap q (delete e.2 (heap q)))) q l
      = Done q' /\
    forall p, heap q' !! p = if decide (p ∈ l.*2) then None else heap q !! p.
Proof.
  revert q. induction l as [|e l IH]; intros q Hnd Hl; [by exists q|].
  cbn [run_all]. rewrite fmap_cons in *. apply NoDup_cons in Hnd as [Hne Hnd].
  destruct (Hl e) as [x Hx]; [set_solver|]. rewrite (timer_deref_ok _ _ _ Hx). cbn [mbind outcome_bind mret outcome_ret].
  destruct (IH (set_heap q (delete e.2 (heap q)))) as (q' & -> & Hq'); [done| |].
  - intros e' He'. simpl. rewrite lookup_delete_ne; [apply Hl; set_solver|].
    intros Heq. apply Hne. rewrite Heq. by apply list_elem_of_fmap_2.
  - exists q'. split; [done|]. intros p. rewrite Hq'. simpl.
    destruct (decide (p = e.2)) as [->|Hn].
    + rewrite lookup_delete_eq. repeat case_decide; set_solver.
    + rewrite lookup_delete_ne by done. repeat case_decide; set_solver.
Qed.

Lemma destroy_ok q :
  inv [] q -> exists q', destroy q = Done q' /\ heap q' = ∅.
Proof.
  intros Hi. destruct (destroy_loop (timers_ q) q) as (q' & He & Hq').
  - by eapply timers_ptr_NoDup.
  - intros [w p] (x & Hx & _)%(inv_timers _ _ Hi). by exists x.
  - exists q'. split; [done|]. apply map_eq. intros p. rewrite Hq', lookup_empty.
    case_decide as Hin; [done|]. destruct (heap q !! p) as [x|] eqn:Hx; [|done]. destruct Hin.
    apply (inv_heap _ _ Hi) in Hx as (_&_&_&_&_&[?%not_elem_of_nil|Ht]); [done|].
    by apply (list_elem_of_fmap_2 snd) in Ht.
Qed.
End TimerQueueFacts.

(** ** Theorems *)
Module TimerQueueTheorems.
Import TimerQueue TimerQueueSpec TimerQueueFacts.

(** The states of a queue in its loop thread, with the last clock reading. *)
Inductive reachable : Z -> t -> Prop :=
  | reach_init clk : 0 < clk -> reachable clk init
  | reach_add clk q now timer cb when interval q' id :
      reachable clk q -> clk <= now -> add_ok q now timer when interval ->
      addTimer q now timer cb when interval = Done (q', id) -> reachable now q'
  | reach_cancel clk q id q' :
      reachable clk q -> cancel q id = Done q' -> reachable clk q'
  | reach_fire clk q now armed_at run q' :
      reachable clk q -> clk <= now -> now <= armed_at <= time_bound -> callback_ok now armed_at run ->
      handleRead run q now armed_at = Done q' -> reachable armed_at q'.

Lemma timer_reachable_inv clk q :
  reachable clk q -> 0 < clk /\ inv [] q /\ alarm clk q /\ callingExpiredTimers_ q = false.
Proof.
  induction 1 as [clk Hclk|clk q now timer cb when interval q' id _ (Hc & Hi & Ha & Hb) Hle Hok He
    |clk q id q' _ (Hc & Hi & Ha & Hb) He|clk q now armed_at run q' _ (Hc & Hi & Ha & Hb) Hle Harm Hrun He].
  - split_and!; [done|apply timer_inv_init|done|done].
  - destruct (addTimer_ok [] clk q now timer cb when interval)
      as (q2 & He2 & Hi2 & _ & _ & Hc2 & _); [done..|]. rewrite He in He2. simplify_eq.
    split_and!; [lia|done| |congruence]. by apply (alarm_addTimer [] clk q now timer cb when interval q2 (timer, s_numCreated_ q + 1)).
  - destruct (cancel_ok [] q id Hi) as (q2 & He2 & Hi2 & _ & _ & Hc2 & _). rewrite He in He2. simplify_eq.
    split_and!; [done|done| |congruence]. by apply (alarm_cancel [] clk q q2 id).
  - destruct (timer_handleRead_ok run q now armed_at) as (q2 & qc & He2 & Hi2 & Ha2 & Hc2 & _); [done|lia|done..|].
    rewrite He in He2. simplify_eq. split_and!; [lia|done..].
Qed.

(** C8. Whatever sequence of [addTimer], [cancel] and timer expirations a loop
    goes through (callbacks adding and cancelling timers themselves), no
    assertion of the queue fires and no freed timer is touched: each operation
    returns, [timers_] and [activeTimers_] stay two views of the same timers,
    every live timer is scheduled (none leaks), and the timerfd is armed to
    fire by the earliest deadline (or 100us from now, its resolution). *)
Theorem timer_queue_safe clk q :
  reachable clk q ->
  inv [] q /\ alarm clk q /\
  (forall now timer cb when interval, clk <= now -> add_ok q now timer when interval ->
     exists q' id, addTimer q now timer cb when interval = Done (q', id) /\ reachable now q') /\
  (forall id, exists q', cancel q id = Done q' /\ reachable clk q') /\
  (forall now armed_at run, clk <= now -> now <= armed_at <= time_bound ->
     callback_ok now armed_at run ->
     exists q', handleRead run q now armed_at = Done q' /\ reachable armed_at q').
Proof.
  intros Hr. destruct (timer_reachable_inv _ _ Hr) as (Hclk & Hi & Ha & _). split_and!; [done|done|..].
  - intros now timer cb when interval Hle Hok.
    destruct (addTimer_ok [] clk q now timer cb when interval) as (q' & He & _); [done..|].
    eexists q', _. split; [exact He|]. by eapply reach_add.
  - intros id. destruct (cancel_ok [] q id Hi) as (q' & He & _). exists q'. split; [done|].
    by eapply reach_cancel.
  - intros now armed_at run Hle Harm Hrun.
    destruct (timer_handleRead_ok run q now armed_at) as (q' & qc & He & _); [done|lia|done..|].
    exists q'. split; [done|]. by eapply reach_fire.
Qed.

(** C22. One expiration, exactly: the timers due at [now] are the ones whose
    callbacks run, once each in deadline order; afterwards a due timer that
    repeats and was not cancelled meanwhile is due again at [now + interval],
    every other due timer is freed, and the timers that were not due (or were
    added by the callbacks) are as the callbacks left them. *)
Theorem handleRead_exact run q now armed_at :
  inv [] q -> 0 < now -> now <= armed_at <= time_bound -> callback_ok now armed_at run ->
  exists expired rest q0 qc q', handleRead run q now armed_at = Done q' /\
    timers_ q = expired ++ rest /\
    Forall (fun e => e.1 <= now) expired /\ Forall (fun e => now < e.1) rest /\ sset expired /\
    run_all (run_expired run) q0 expired = Done qc /\ timers_ q0 = rest /\ heap q0 = heap q /\
    callingExpiredTimers_ q0 = true /\ cancelingTimers_ q0 = ∅ /\
    (forall p x, p ∈ expired.*2 -> heap q !! p = Some x ->
       heap q' !! p = rearm now (cancelingTimers_ qc) p x) /\
    (forall p, p ∉ expired.*2 -> heap q' !! p = heap qc !! p) /\
    (forall w p, (w, p) ∈ timers_ q' <-> exists x, heap q' !! p = Some x /\ Timer.expiration_ x = w).
Proof.
  intros Hi Hnow Harm Hrun.
  assert (inv [] (readTimerfd q)) as Hi0 by (by eapply inv_ext; [..|exact Hi]).
  destruct (getExpired_ok _ _ now Hi0) as (expired & q0 & Hget & _ & Hh & Happ & Hexp & Hrest & _).
  destruct (timer_handleRead_ok run q now armed_at)
    as (q' & qc & He & Hi' & _ & _ & es & q1 & Hget' & _ & Hqc & _ & _ & _ & _ & _ & Hne & Hin); [done..|].
  rewrite Hget in Hget'. simplify_eq.
  eexists es, (timers_ q1), _, qc, q'. split_and!; try done.
  - pose proof (inv_sorted _ _ Hi) as Hs. change (timers_ q) with (timers_ (readTimerfd q)) in Hs.
    rewrite Happ in Hs. by apply sset_app in Hs as [? _].
  - intros w p. split; [apply Hi'|]. intros (x & Hx & <-).
    destruct (inv_heap _ _ Hi' p x Hx) as (_&_&_&_&_&[?%not_elem_of_nil|?]); done.
Qed.

(** [cancel] with the id of a scheduled timer frees that timer and no
    other, in whatever state; with any other id (one that has fired, was
    cancelled before, or whose address now belongs to a newer timer) it leaves
    every timer alone. *)
Theorem cancel_exact L q id :
  inv L q ->
  exists q', cancel q id = Done q' /\ inv L q' /\
    (forall p, heap q' !! p =
       if decide (p = id.1 /\ id ∈ activeTimers_ q) then None else heap q !! p) /\
    (forall e, e ∈ timers_ q' <-> e ∈ timers_ q /\ ~ (e.2 = id.1 /\ id ∈ activeTimers_ q)).
Proof.
  intros Hi. destruct (cancel_ok L q id Hi) as (q' & He & Hi' & _ & _ & _ & Hm).
  exists q'. split; [done|]. split; [done|]. destruct id as [p s]; simpl in *. case_decide as Hin.
  - destruct Hm as ((x & Hx & Hs & Ht) & Hh & _). split.
    + intros p'. rewrite Hh. case_decide as Hd; [destruct Hd as [-> _]; apply lookup_delete_eq|].
      apply lookup_delete_ne. naive_solver.
    + intros e. rewrite Ht, set_erase_elem by apply Hi. destruct e as [w p']; simpl.
      split; intros [Hel Hn]; (split; [done|]); [|naive_solver].
      intros [-> _]. apply Hn. apply (inv_timers _ _ Hi) in Hel as (y & Hy & <-). by simplify_eq.
  - destruct Hm as (Hh & Ht & _). rewrite Hh, Ht. split; intros; [case_decide|]; naive_solver.
Qed.

(** A timer cancelled while the expired callbacks run (by its own callback
    or by that of another timer of the batch) is not re-armed, although it is
    in neither set at that time: it is gone when [handleRead] returns. *)
Theorem cancel_in_callback run q now armed_at p x p1 x1 :
  inv [] q -> 0 < now -> now <= armed_at <= time_bound -> callback_ok now armed_at run ->
  heap q !! p = Some x -> Timer.expiration_ x <= now ->
  heap q !! p1 = Some x1 -> Timer.expiration_ x1 <= now ->
  (forall q, run p1 q = cancel q (p, Timer.sequence_ x)) ->
  exists q', handleRead run q now armed_at = Done q' /\ heap q' !! p = None /\
    forall w, (w, p) ∉ timers_ q'.
Proof.
  intros Hi Hnow Harm Hrun Hx Hdue Hx1 Hdue1 Hself.
  destruct (timer_handleRead_ok run q now armed_at) as (q' & qc & He & Hi' & _ & _ & es & q0 & _ & _ & Hqc &
    Hi0 & Hfut & _ & Hexp & _ & _ & Hin); [done..|].
  apply (Hexp _ _ Hx) in Hdue. apply (Hexp _ _ Hx1) in Hdue1.
  apply list_elem_of_fmap in Hdue1 as (e & -> & He1).
  exists q'. split; [done|]. assert (heap q' !! p = None) as Hp.
  { rewrite (Hin _ _ Hdue Hx). unfold rearm. rewrite bool_decide_eq_false_2; [by rewrite andb_false_r|].
    intros Hn. apply Hn.
    apply (run_loop_cancels es.*2 now armed_at run es _ qc (p, Timer.sequence_ x) e) in Hqc; try done.
    - intros e' He'. by apply list_elem_of_fmap_2.
    - by eapply inv_ext; [..|exact Hi0].
    - unfold alarm_calling. simpl. destruct (timers_ q0) as [|f l]; [done|]. left.
      inversion Hfut; subst. lia. }
  split; [done|]. intros w (y & Hy & _)%(inv_timers _ _ Hi'). congruence.
Qed.

(** The destructor frees every timer the queue still owns, each once. *)
Theorem destroy_frees_all q :
  inv [] q -> exists q', destroy q = Done q' /\ heap q' = ∅.
Proof. apply destroy_ok. Qed.

(** *** A concrete queue: one timer at address 64, due at 1000us, repeating every second *)
Definition one_second : double := S754_finite false 4503599627370496 (-52).
Definition q_example : t :=
  match addTimer init 500 64 7 1000 one_second with Done (q, _) => q | Fault _ => init end.

Lemma one_second_ok : interval_ok one_second.
Proof. intros _. exists 1000000. split; [vm_compute; reflexivity|]. unfold time_bound. lia. Qed.

Lemma q_example_add_ok : add_ok init 500 64 1000 one_second.
Proof.
  constructor; try done; try apply one_second_ok; unfold time_ok, time_bound; lia.
Qed.

Lemma q_example_reachable : reachable 500 q_example.
Proof.
  eapply (reach_add 500 init 500 64 7 1000 one_second _ (64, 1)).
  - by constructor.
  - done.
  - exact q_example_add_ok.
  - vm_compute. reflexivity.
Qed.

Lemma q_example_inv : inv [] q_example.
Proof. apply (timer_reachable_inv _ _ q_example_reachable). Qed.

(** Callbacks that do nothing, and callbacks that cancel a given timer. *)
Lemma idle_callback_ok t0 t1 : callback_ok t0 t1 (fun _ q => Done q).
Proof. intros L p q _. by exists q. Qed.

Lemma cancel_callback_ok t0 t1 id : callback_ok t0 t1 (fun _ q => cancel q id).
Proof.
  intros L p q Hi. destruct (cancel_ok L q id Hi) as (q' & He & _). exists q'. split; [done|].
  apply rtc_once. by apply (api_cancel _ _ _ _ id).
Qed.

Lemma timer_queue_safe_witness :
  inv [] q_example /\ alarm 500 q_example /\
  exists q', handleRead (fun _ q => Done q) q_example 1000 1001 = Done q' /\ reachable 1001 q'.
Proof.
  destruct (timer_queue_safe 500 q_example q_example_reachable) as (H1 & H2 & _ & _ & H3).
  split; [exact H1|]. split; [exact H2|].
  apply H3; [lia|unfold time_bound; lia|apply idle_callback_ok].
Defined.

Lemma handleRead_exact_witness :
  exists q', handleRead (fun _ q => Done q) q_example 1000 1001 = Done q' /\
    heap q' !! 64 = Some (Timer.mk 7 1001000 one_second true 1).
Proof.
  destruct (handleRead_exact (fun _ q => Done q) q_example 1000 1001)
    as (es & rest & q0 & qc & q' & He & _).
  - exact q_example_inv.
  - done.
  - unfold time_bound. lia.
  - apply idle_callback_ok.
  - exists q'. split; [exact He|]. vm_compute in He. injection He as <-. vm_compute. reflexivity.
Defined.

Lemma cancel_exact_witness :
  exists q', cancel q_example (64, 1) = Done q' /\ heap q' !! 64 = None.
Proof.
  destruct (cancel_exact [] q_example (64, 1) q_example_inv) as (q' & He & _ & Hh & _).
  exists q'. split; [exact He|]. rewrite (Hh 64). vm_compute. reflexivity.
Defined.

Lemma cancel_in_callback_witness :
  exists q', handleRead (fun _ q => cancel q (64, 1)) q_example 1000 1001 = Done q' /\
    heap q' !! 64 = None /\ forall w, (w, 64) ∉ timers_ q'.
Proof.
  apply (cancel_in_callback (fun _ q => cancel q (64, 1)) q_example 1000 1001
           64 (Timer.mk 7 1000 one_second true 1) 64 (Timer.mk 7 1000 one_second true 1)).
  - exact q_example_inv.
  - done.
  - unfold time_bound. lia.
  - apply cancel_callback_ok.
  - vm_compute. reflexivity.
  - simpl. lia.
  - vm_compute. reflexivity.
  - simpl. lia.
  - done.
Defined.

Lemma destroy_frees_all_witness : exists q', destroy q_example = Done q' /\ heap q' = ∅.
Proof. exact (destroy_frees_all q_example q_example_inv). Defined.
End TimerQueueTheorems.
