(* ===== verification/Channels.v ===== *)
(** * Channels: event masks and the dispatch of ready events

    Models [Channel] ([src/muduo/net/Channel.h], [Channel.cc]): the interest
    mask, the bits the poller returns, and [handleEventWithGuard], which turns
    the returned bits into calls of the four callbacks.  Channels live in a
    store (a map from addresses) that pollers, event loops and the owners of
    the channels share. *)
From S2P Require Import Prelude.

Local Open Scope Z_scope.

(** ** The bits of [poll(2)]; those of [epoll(7)] are the same *)
Definition POLLIN : Z := 1.
Definition POLLPRI : Z := 2.
Definition POLLOUT : Z := 4.
Definition POLLERR : Z := 8.
Definition POLLHUP : Z := 16.
Definition POLLNVAL : Z := 32.
Definition POLLRDHUP : Z := 8192.

(** [x & mask] as a condition *)
Definition any_bit (x mask : Z) : bool := negb (Z.land x mask =? 0).

Module Channel.

Record t : Type := mk {
  fd_ : Z;
  events_ : Z;
  revents_ : Z;
  index_ : Z;
  logHup_ : bool;
  tied_ : bool;
  eventHandling_ : bool;
  addedToLoop_ : bool;
  (* which of the four callbacks are set *)
  readCallback_ : bool;
  writeCallback_ : bool;
  closeCallback_ : bool;
  errorCallback_ : bool;
}.

Definition kNoneEvent : Z := 0.
Definition kReadEvent : Z := Z.lor POLLIN POLLPRI.
Definition kWriteEvent : Z := POLLOUT.

Definition init (fd : Z) : t := mk fd 0 0 (-1) true false false false false false false false.

Definition set_events (e : Z) (c : t) : t := mk (fd_ c) e (revents_ c) (index_ c) (logHup_ c)
  (tied_ c) (eventHandling_ c) (addedToLoop_ c) (readCallback_ c) (writeCallback_ c) (closeCallback_ c) (errorCallback_ c).
Definition set_revents (r : Z) (c : t) : t := mk (fd_ c) (events_ c) r (index_ c) (logHup_ c)
  (tied_ c) (eventHandling_ c) (addedToLoop_ c) (readCallback_ c) (writeCallback_ c) (closeCallback_ c) (errorCallback_ c).
Definition set_index (i : Z) (c : t) : t := mk (fd_ c) (events_ c) (revents_ c) i (logHup_ c)
  (tied_ c) (eventHandling_ c) (addedToLoop_ c) (readCallback_ c) (writeCallback_ c) (closeCallback_ c) (errorCallback_ c).
Definition set_eventHandling (b : bool) (c : t) : t := mk (fd_ c) (events_ c) (revents_ c) (index_ c) (logHup_ c)
  (tied_ c) b (addedToLoop_ c) (readCallback_ c) (writeCallback_ c) (closeCallback_ c) (errorCallback_ c).
Definition set_addedToLoop (b : bool) (c : t) : t := mk (fd_ c) (events_ c) (revents_ c) (index_ c) (logHup_ c)
  (tied_ c) (eventHandling_ c) b (readCallback_ c) (writeCallback_ c) (closeCallback_ c) (errorCallback_ c).
Definition tie (c : t) : t := mk (fd_ c) (events_ c) (revents_ c) (index_ c) (logHup_ c)
  true (eventHandling_ c) (addedToLoop_ c) (readCallback_ c) (writeCallback_ c) (closeCallback_ c) (errorCallback_ c).
Definition doNotLogHup (c : t) : t := mk (fd_ c) (events_ c) (revents_ c) (index_ c) false
  (tied_ c) (eventHandling_ c) (addedToLoop_ c) (readCallback_ c) (writeCallback_ c) (closeCallback_ c) (errorCallback_ c).
Definition setReadCallback (c : t) : t := mk (fd_ c) (events_ c) (revents_ c) (index_ c) (logHup_ c)
  (tied_ c) (eventHandling_ c) (addedToLoop_ c) true (writeCallback_ c) (closeCallback_ c) (errorCallback_ c).
Definition setWriteCallback (c : t) : t := mk (fd_ c) (events_ c) (revents_ c) (index_ c) (logHup_ c)
  (tied_ c) (eventHandling_ c) (addedToLoop_ c) (readCallback_ c) true (closeCallback_ c) (errorCallback_ c).
Definition setCloseCallback (c : t) : t := mk (fd_ c) (events_ c) (revents_ c) (index_ c) (logHup_ c)
  (tied_ c) (eventHandling_ c) (addedToLoop_ c) (readCallback_ c) (writeCallback_ c) true (errorCallback_ c).
Definition setErrorCallback (c : t) : t := mk (fd_ c) (events_ c) (revents_ c) (index_ c) (logHup_ c)
  (tied_ c) (eventHandling_ c) (addedToLoop_ c) (readCallback_ c) (writeCallback_ c) (closeCallback_ c) true.

Definition isNoneEvent (c : t) : bool := events_ c =? kNoneEvent.
Definition isWriting (c : t) : bool := any_bit (events_ c) kWriteEvent.
Definition isReading (c : t) : bool := any_bit (events_ c) kReadEvent.

(** The new mask of each of the five operations; [update()] follows. *)
Definition enableReading (c : t) : t := set_events (Z.lor (events_ c) kReadEvent) c.
Definition disableReading (c : t) : t := set_events (Z.land (events_ c) (Z.lnot kReadEvent)) c.
Definition enableWriting (c : t) : t := set_events (Z.lor (events_ c) kWriteEvent) c.
Definition disableWriting (c : t) : t := set_events (Z.land (events_ c) (Z.lnot kWriteEvent)) c.
Definition disableAll (c : t) : t := set_events kNoneEvent c.

(** ** Dispatch *)
Inductive callback : Type :=
  | CloseCallback
  | ErrorCallback
  | ReadCallback
  | WriteCallback.

Global Instance callback_eq_dec : EqDecision callback.
Proof. solve_decision. Defined.

(** Is the [std::function] of this callback set? *)
Definition has (c : t) (cb : callback) : bool :=
  match cb with
  | CloseCallback => closeCallback_ c
  | ErrorCallback => errorCallback_ c
  | ReadCallback => readCallback_ c
  | WriteCallback => writeCallback_ c
  end.

(** The world [W] holds the channel ([look], [upd]); [call] runs a callback,
    which may change anything, the channel included. *)
Section Dispatch.
Context {W : Type} (look : W -> t) (upd : (t -> t) -> W -> W) (call : callback -> W -> outcome W).

(** [if (cond) { if (cb) cb(); }] *)
Definition when_set (cond : bool) (cb : callback) (w : W) : outcome W :=
  if cond then (if has (look w) cb then call cb w else mret w) else mret w.

Definition handleEventWithGuard (w : W) : outcome W :=
  let w := upd (set_eventHandling true) w in
  w ← when_set (any_bit (revents_ (look w)) POLLHUP && negb (any_bit (revents_ (look w)) POLLIN))
        CloseCallback w;
  w ← when_set (any_bit (revents_ (look w)) (Z.lor POLLERR POLLNVAL)) ErrorCallback w;
  w ← when_set (any_bit (revents_ (look w)) (Z.lor (Z.lor POLLIN POLLPRI) POLLRDHUP)) ReadCallback w;
  w ← when_set (any_bit (revents_ (look w)) POLLOUT) WriteCallback w;
  mret (upd (set_eventHandling false) w).

(** [alive]: does [tie_.lock()] return an owner? *)
Definition handleEvent (alive : bool) (w : W) : outcome W :=
  if tied_ (look w)
  then if alive then handleEventWithGuard w else mret w
  else handleEventWithGuard w.
End Dispatch.

(** Destruction is legal only outside of dispatch and out of the loop. *)
Definition destroy (c : t) (hasChannel : bool) : outcome unit :=
  assert_ (negb (eventHandling_ c));;
  assert_ (negb (addedToLoop_ c));;
  assert_ (negb hasChannel).
End Channel.

(** ** Specification and theorems *)
Module ChannelTheorems.
Import Channel.

(** The callbacks that ready bits [r] ask for, in order. *)
Definition dispatched (r : Z) : list callback :=
  (if any_bit r POLLHUP && negb (any_bit r POLLIN) then [CloseCallback] else []) ++
  (if any_bit r (Z.lor POLLERR POLLNVAL) then [ErrorCallback] else []) ++
  (if any_bit r (Z.lor (Z.lor POLLIN POLLPRI) POLLRDHUP) then [ReadCallback] else []) ++
  (if any_bit r POLLOUT then [WriteCallback] else []).

(** What callbacks may not do to the channel being dispatched: change its
    returned bits (only pollers do) or install callbacks. *)
Definition stable (c c' : t) : Prop :=
  revents_ c' = revents_ c /\ forall cb, has c' cb = has c cb.

Global Instance stable_preorder : PreOrder stable.
Proof.
  split; [done|]. intros c1 c2 c3 [H1 H2] [H3 H4]. split; [congruence|]. intros cb. by rewrite H4.
Qed.

Section Theorems.
Context {W : Type} (look : W -> t) (upd : (t -> t) -> W -> W) (call : callback -> W -> outcome W).
(** [I] holds of the worlds in which the callbacks of this channel run. *)
Context (I : W -> Prop).
Hypothesis call_stable : forall cb w w', I w -> call cb w = Done w' -> stable (look w) (look w') /\ I w'.

Lemma when_set_run w0 w cond cb (k : W -> outcome W) cbs :
  stable (look w0) (look w) -> I w ->
  (forall w', stable (look w0) (look w') -> I w' ->
     k w' = run_all (fun w cb => call cb w) w' cbs ≫= fun w => mret (upd (set_eventHandling false) w)) ->
  (when_set look call cond cb w ≫= k) =
    run_all (fun w cb => call cb w) w
      (filter (fun cb => has (look w0) cb = true) (if cond then [cb] else []) ++ cbs)
    ≫= fun w => mret (upd (set_eventHandling false) w).
Proof.
  intros Hst Hi Hk. unfold when_set. destruct cond; [|by apply Hk].
  rewrite (proj2 Hst). destruct (has (look w0) cb) eqn:Hh.
  - rewrite filter_cons_True by done. rewrite filter_nil. cbn [app run_all].
    destruct (call cb w) as [w'|f] eqn:Hc; [|done].
    apply call_stable in Hc as [Hs Hi']; [|done]. apply Hk; [by etrans|done].
  - rewrite filter_cons_False by congruence. rewrite filter_nil. by apply Hk.
Qed.

Lemma handleEventWithGuard_run w :
  look (upd (set_eventHandling true) w) = set_eventHandling true (look w) ->
  I (upd (set_eventHandling true) w) ->
  handleEventWithGuard look upd call w =
    run_all (fun w cb => call cb w) (upd (set_eventHandling true) w)
      (filter (fun cb => has (look w) cb = true) (dispatched (revents_ (look w))))
    ≫= fun w => mret (upd (set_eventHandling false) w).
Proof.
  intros Hl Hi. unfold handleEventWithGuard, dispatched. rewrite !filter_app.
  assert (stable (look w) (look (upd (set_eventHandling true) w))) as H0 by (rewrite Hl; done).
  rewrite <-(app_nil_r (filter _ (if any_bit _ POLLOUT then _ else _))).
  rewrite (proj1 H0).
  apply (when_set_run w); [done|done|]. intros w1 H1 Hi1. rewrite (proj1 H1).
  apply (when_set_run w); [done|done|]. intros w2 H2 Hi2. rewrite (proj1 H2).
  apply (when_set_run w); [done|done|]. intros w3 H3 Hi3. rewrite (proj1 H3).
  apply (when_set_run w); [done|done|]. done.
Qed.

(** Dispatch calls exactly the callbacks that are set and that the returned
    bits ask for, each once, in the order close, error, read, write, with
    [eventHandling_] raised during the calls and lowered after them; the close
    callback only when the peer hung up and nothing is left to read; and a tied
    channel whose owner is gone makes no call at all. *)
Theorem handleEvent_dispatch alive w :
  look (upd (set_eventHandling true) w) = set_eventHandling true (look w) ->
  I (upd (set_eventHandling true) w) ->
  handleEvent look upd call alive w =
    if tied_ (look w) && negb alive then Done w
    else run_all (fun w cb => call cb w) (upd (set_eventHandling true) w)
           (filter (fun cb => has (look w) cb = true) (dispatched (revents_ (look w))))
         ≫= fun w => mret (upd (set_eventHandling false) w).
Proof.
  intros Hl Hi. unfold handleEvent. rewrite handleEventWithGuard_run by done. by destruct (tied_ _), alive.
Qed.
End Theorems.

(** A world that is a channel with a log of calls. *)
Definition log_call (cb : callback) (w : t * list callback) : outcome (t * list callback) :=
  Done (w.1, w.2 ++ [cb]).
Definition log_upd (f : t -> t) (w : t * list callback) : t * list callback := (f w.1, w.2).
Definition sample : t :=
  mk 5 7 (Z.lor POLLHUP POLLOUT) 1 true true false true true true true false.

Lemma handleEvent_dispatch_witness :
  handleEvent fst log_upd log_call true (sample, []) = Done (sample, [CloseCallback; WriteCallback]).
Proof.
  rewrite (handleEvent_dispatch fst log_upd log_call (fun _ => True)).
  - vm_compute. reflexivity.
  - intros cb w w' _ [= <-]. done.
  - done.
  - done.
Defined.
End ChannelTheorems.
