(* ===== verification/Pollers.v ===== *)
(** * Pollers: I/O multiplexing with poll(2) and with epoll(7)

    Models [Poller] ([src/muduo/net/Poller.h], [Poller.cc]), [PollPoller]
    ([poller/PollPoller.h], [PollPoller.cc]) and [EPollPoller]
    ([poller/EPollPoller.h], [EPollPoller.cc]).  The classes [PollerOps] and
    [PollerLaws] state what an event loop relies on (a map from descriptors to
    the channel and events they are watched for); both pollers are instances of
    it.  poll(2) reports, of the conditions of each descriptor of the array,
    those the entry asks for and those always reported.  epoll(7) is a parameter
    ([Epoll]) with the behaviour its manual documents; [Unrefused] is a kernel
    that never refuses to watch a descriptor. *)
From S2P Require Import Prelude Channels.

Local Open Scope Z_scope.

(** The channels in memory, by address. *)
Abbreviation channels := (gmap Z Channel.t).

Definition deref (σ : channels) (a : Z) : outcome Channel.t :=
  match σ !! a with Some c => Done c | None => Fault OutOfBounds end.

(** What the kernel answers with: an error number, or the conditions that hold
    of descriptors of the process ([POLLIN], [POLLHUP], ...), in the order in
    which it looks at them; which of these a poller hears of depends on what it
    has asked for. *)
Inductive answer : Type :=
  | PollError (errno : Z)
  | Ready (conds : list (Z * Z)).

(** The conditions [conds] of one descriptor. *)
Definition cond_bits (conds : list (Z * Z)) (fd : Z) : Z :=
  match list_find (fun r => r.1 = fd) conds with Some (_, r) => r.2 | None => 0 end.

(** ** PollPoller *)
Module PollPoller.

Record pollfd : Type := mk_pollfd { pfd_fd : Z; pfd_events : Z; pfd_revents : Z }.

Record t : Type := mk {
  channels_ : gmap Z Z;            (* [map<int, Channel*>] *)
  pollfds_ : list pollfd;
}.

Definition init : t := mk ∅ [].

Definition hasChannel (p : t) (σ : channels) (a : Z) : outcome bool :=
  c ← deref σ a;
  mret (bool_decide (channels_ p !! Channel.fd_ c = Some a)).

Definition updateChannel (p : t) (σ : channels) (a : Z) : outcome (t * channels) :=
  c ← deref σ a;
  let fd := Channel.fd_ c in
  if bool_decide (Channel.index_ c < 0) then
    assert_ (bool_decide (channels_ p !! fd = None));;
    let pfds := pollfds_ p ++ [mk_pollfd fd (i16 (Channel.events_ c)) 0] in
    let idx := i32 (len pfds - 1) in
    mret (mk (<[fd := a]> (channels_ p)) pfds, <[a := Channel.set_index idx c]> σ)
  else
    assert_ (bool_decide (is_Some (channels_ p !! fd)));;
    assert_ (bool_decide (channels_ p !! fd = Some a));;
    let idx := Channel.index_ c in
    assert_ (bool_decide (0 <= idx /\ idx < i32 (len (pollfds_ p))));;
    pfd ← at_ (pollfds_ p) idx;
    assert_ (bool_decide (pfd_fd pfd = fd \/ pfd_fd pfd = - fd - 1));;
    let pfd' := mk_pollfd (if Channel.isNoneEvent c then - fd - 1 else fd)
                  (i16 (Channel.events_ c)) 0 in
    mret (mk (channels_ p) (<[Z.to_nat idx := pfd']> (pollfds_ p)), σ).

Definition removeChannel (p : t) (σ : channels) (a : Z) : outcome (t * channels) :=
  c ← deref σ a;
  let fd := Channel.fd_ c in
  assert_ (bool_decide (is_Some (channels_ p !! fd)));;
  assert_ (bool_decide (channels_ p !! fd = Some a));;
  assert_ (Channel.isNoneEvent c);;
  let idx := Channel.index_ c in
  assert_ (bool_decide (0 <= idx /\ idx < i32 (len (pollfds_ p))));;
  pfd ← at_ (pollfds_ p) idx;
  assert_ (bool_decide (pfd_fd pfd = - fd - 1 /\ pfd_events pfd = Channel.events_ c));;
  let chs := delete fd (channels_ p) in
  let n := len (pollfds_ p) in
  if bool_decide (u64 idx = u64 (n - 1)) then
    mret (mk chs (take (Z.to_nat (n - 1)) (pollfds_ p)), σ)
  else
    back ← at_ (pollfds_ p) (n - 1);
    let swapped := <[Z.to_nat (n - 1) := pfd]> (<[Z.to_nat idx := back]> (pollfds_ p)) in
    let channelAtEnd := pfd_fd back in
    let channelAtEnd := if bool_decide (channelAtEnd < 0) then - channelAtEnd - 1 else channelAtEnd in
    match chs !! channelAtEnd with
    | None => Fault OutOfBounds          (* [channels_[channelAtEnd]] is a null pointer *)
    | Some b =>
        cb ← deref σ b;
        mret (mk chs (take (Z.to_nat (n - 1)) swapped), <[b := Channel.set_index idx cb]> σ)
    end.

(** The loop of [fillActiveChannels]. *)
Fixpoint fillActiveChannels (chs : gmap Z Z) (σ : channels) (pfds : list pollfd) (numEvents : Z)
    (active : list Z) : outcome (channels * list Z) :=
  match pfds with
  | [] => mret (σ, active)
  | pfd :: pfds =>
      if bool_decide (0 < numEvents) then
        if bool_decide (0 < pfd_revents pfd) then
          match chs !! pfd_fd pfd with
          | None => Fault AssertFailure
          | Some a =>
              c ← deref σ a;
              assert_ (bool_decide (Channel.fd_ c = pfd_fd pfd));;
              fillActiveChannels chs (<[a := Channel.set_revents (pfd_revents pfd) c]> σ)
                pfds (numEvents - 1) (active ++ [a])
          end
        else fillActiveChannels chs σ pfds numEvents active
      else mret (σ, active)
  end.

(** [POLLERR], [POLLHUP] and [POLLNVAL] are reported whether asked for or not. *)
Definition always : Z := Z.lor POLLERR (Z.lor POLLHUP POLLNVAL).

(** poll(2) writes [revents] of every [pollfd]: 0 for a negative descriptor,
    otherwise the conditions that hold among those in [events] and [always]. *)
Definition polled (conds : list (Z * Z)) (pfd : pollfd) : pollfd :=
  mk_pollfd (pfd_fd pfd) (pfd_events pfd)
    (if bool_decide (pfd_fd pfd < 0) then 0
     else Z.land (cond_bits conds (pfd_fd pfd)) (Z.lor (pfd_events pfd) always)).
Definition kernel_poll (pfds : list pollfd) (conds : list (Z * Z)) : list pollfd :=
  polled conds <$> pfds.

Definition poll (p : t) (σ : channels) (k : answer) : outcome (t * channels * list Z) :=
  match k with
  | PollError _ => mret (p, σ, [])
  | Ready conds =>
      let pfds := kernel_poll (pollfds_ p) conds in
      let numEvents := len (filter (fun pfd => pfd_revents pfd ≠ 0) pfds) in
      if bool_decide (0 < numEvents) then
        '(σ', active) ← fillActiveChannels (channels_ p) σ pfds numEvents [];
        mret (mk (channels_ p) pfds, σ', active)
      else mret (mk (channels_ p) pfds, σ, [])
  end.
End PollPoller.

(** ** epoll(7) *)
Inductive epoll_op : Type := EPOLL_CTL_ADD | EPOLL_CTL_DEL | EPOLL_CTL_MOD.

(** An epoll instance has an interest list, which [epoll_ctl] changes as
    epoll_ctl(2) says: [ADD] registers a new descriptor (and fails with
    [EEXIST] otherwise), [MOD] and [DEL] change or drop a registered one (and
    fail with [ENOENT] otherwise).  [ADD] and [MOD] may also be refused
    ([ENOMEM], [ENOSPC], [EPERM]), and then change nothing. *)
Class Epoll (K : Type) := {
  epoll_create : K;
  epoll_ctl : K -> epoll_op -> Z -> Z * Z -> K * bool;     (* [false]: the call failed *)
  interest : K -> gmap Z (Z * Z);                          (* fd to data.ptr and events *)
}.

Class EpollLaws (K : Type) `{Epoll K} := {
  epoll_create_empty : interest epoll_create = ∅;
  epoll_add k fd ev : interest k !! fd = None ->
    interest (epoll_ctl k EPOLL_CTL_ADD fd ev).1 =
      if (epoll_ctl k EPOLL_CTL_ADD fd ev).2 then <[fd := ev]> (interest k) else interest k;
  epoll_mod k fd ev : is_Some (interest k !! fd) ->
    interest (epoll_ctl k EPOLL_CTL_MOD fd ev).1 =
      if (epoll_ctl k EPOLL_CTL_MOD fd ev).2 then <[fd := ev]> (interest k) else interest k;
  epoll_del k fd ev : is_Some (interest k !! fd) ->
    exists k', epoll_ctl k EPOLL_CTL_DEL fd ev = (k', true) /\ interest k' = delete fd (interest k);
}.

(** Does the kernel ever refuse to watch a descriptor? *)
Definition epoll_refuses (K : Type) `{Epoll K} : Prop :=
  exists k fd ev,
    interest k !! fd = None /\ (epoll_ctl k EPOLL_CTL_ADD fd ev).2 = false \/
    is_Some (interest k !! fd) /\ (epoll_ctl k EPOLL_CTL_MOD fd ev).2 = false.

Module EPollPoller.

Definition kNew : Z := -1.
Definition kAdded : Z := 1.
Definition kDeleted : Z := 2.
Definition kInitEventListSize : Z := 16.

Section EPollPoller.
Context {K : Type} `{Epoll K}.

Record t : Type := mk {
  channels_ : gmap Z Z;
  epollfd_ : K;
  events_size : Z;                 (* [events_.size()] *)
}.

Definition init : t := mk ∅ epoll_create kInitEventListSize.

Definition hasChannel (p : t) (σ : channels) (a : Z) : outcome bool :=
  c ← deref σ a;
  mret (bool_decide (channels_ p !! Channel.fd_ c = Some a)).

(** A failed [DEL] is logged, any other failure is fatal. *)
Definition update (p : t) (operation : epoll_op) (a : Z) (c : Channel.t) : outcome t :=
  let '(k', ok) := epoll_ctl (epollfd_ p) operation (Channel.fd_ c) (a, u32 (Channel.events_ c)) in
  if (ok : bool) then mret (mk (channels_ p) k' (events_size p))
  else match operation with
       | EPOLL_CTL_DEL => mret (mk (channels_ p) k' (events_size p))
       | _ => Fault LogFatal
       end.

Definition updateChannel (p : t) (σ : channels) (a : Z) : outcome (t * channels) :=
  c ← deref σ a;
  let index := Channel.index_ c in
  let fd := Channel.fd_ c in
  if bool_decide (index = kNew \/ index = kDeleted) then
    p ← (if bool_decide (index = kNew) then
           assert_ (bool_decide (channels_ p !! fd = None));;
           mret (mk (<[fd := a]> (channels_ p)) (epollfd_ p) (events_size p))
         else
           assert_ (bool_decide (is_Some (channels_ p !! fd)));;
           assert_ (bool_decide (channels_ p !! fd = Some a));;
           mret p);
    let c' := Channel.set_index kAdded c in
    p ← update p EPOLL_CTL_ADD a c';
    mret (p, <[a := c']> σ)
  else
    assert_ (bool_decide (is_Some (channels_ p !! fd)));;
    assert_ (bool_decide (channels_ p !! fd = Some a));;
    assert_ (bool_decide (index = kAdded));;
    if Channel.isNoneEvent c then
      p ← update p EPOLL_CTL_DEL a c;
      mret (p, <[a := Channel.set_index kDeleted c]> σ)
    else
      p ← update p EPOLL_CTL_MOD a c;
      mret (p, σ).

Definition removeChannel (p : t) (σ : channels) (a : Z) : outcome (t * channels) :=
  c ← deref σ a;
  let fd := Channel.fd_ c in
  assert_ (bool_decide (is_Some (channels_ p !! fd)));;
  assert_ (bool_decide (channels_ p !! fd = Some a));;
  assert_ (Channel.isNoneEvent c);;
  let index := Channel.index_ c in
  assert_ (bool_decide (index = kAdded \/ index = kDeleted));;
  let p := mk (delete fd (channels_ p)) (epollfd_ p) (events_size p) in
  p ← (if bool_decide (index = kAdded) then update p EPOLL_CTL_DEL a c else mret p);
  mret (p, <[a := Channel.set_index kNew c]> σ).

(** The loop of [fillActiveChannels] over the returned [epoll_event]s. *)
Fixpoint fillActiveChannels (chs : gmap Z Z) (σ : channels) (events : list (Z * Z)) (active : list Z)
    : outcome (channels * list Z) :=
  match events with
  | [] => mret (σ, active)
  | (a, ev) :: events =>
      c ← deref σ a;
      assert_ (bool_decide (is_Some (chs !! Channel.fd_ c)));;
      assert_ (bool_decide (chs !! Channel.fd_ c = Some a));;
      fillActiveChannels chs (<[a := Channel.set_revents ev c]> σ) events (active ++ [a])
  end.

(** [EPOLLERR] and [EPOLLHUP] are reported whether asked for or not. *)
Definition always : Z := Z.lor POLLERR POLLHUP.

(** epoll_wait(2) fills at most [maxevents] of the registered descriptors of
    which a condition holds that was asked for (or is in [always]), each with
    the [data.ptr] it was registered with. *)
Definition kernel_epoll_wait (k : K) (maxevents : Z) (conds : list (Z * Z)) : list (Z * Z) :=
  take (Z.to_nat maxevents)
    (omap (fun r => reg ← interest k !! r.1;
                    let bits := Z.land r.2 (Z.lor reg.2 always) in
                    if bool_decide (bits = 0) then None else Some (reg.1, bits)) conds).

Definition poll (p : t) (σ : channels) (k : answer) : outcome (t * channels * list Z) :=
  match k with
  | PollError _ => mret (p, σ, [])
  | Ready conds =>
      let events := kernel_epoll_wait (epollfd_ p) (events_size p) conds in
      let numEvents := len events in
      if bool_decide (0 < numEvents) then
        assert_ (bool_decide (numEvents <= events_size p));;
        '(σ', active) ← fillActiveChannels (channels_ p) σ events [];
        let size := if bool_decide (numEvents = events_size p) then events_size p * 2 else events_size p in
        mret (mk (channels_ p) (epollfd_ p) size, σ', active)
      else mret (p, σ, [])
  end.
End EPollPoller.
Arguments t : clear implicits.
End EPollPoller.

(** ** The interface of a poller *)

(** What is watched: descriptor to channel and events. *)
Abbreviation watches := (gmap Z (Z * Z)).

Class PollerOps (P : Type) := {
  p_init : P;
  p_updateChannel : P -> channels -> Z -> outcome (P * channels);
  p_removeChannel : P -> channels -> Z -> outcome (P * channels);
  p_hasChannel : P -> channels -> Z -> outcome bool;
  p_poll : P -> channels -> answer -> outcome (P * channels * list Z);
  p_asked : P -> gmap Z Z;         (* what the kernel is asked: descriptor to events *)
  p_always : P -> Z;               (* conditions that the kernel reports unasked *)
}.

(** What a kernel that was asked for [asked] has to report. *)
Definition reports (asked : gmap Z Z) (always : Z) (conds : list (Z * Z)) : list (Z * Z) :=
  omap (fun r => m ← asked !! r.1;
                 let bits := Z.land r.2 (Z.lor m always) in
                 if bool_decide (bits = 0) then None else Some (r.1, bits)) conds.

(** A channel as its owner hands it over. *)
Definition chan_ok (c : Channel.t) : Prop :=
  0 <= Channel.fd_ c < two_31 /\ 0 <= Channel.events_ c < 32768.

(** Operations on a poller change nothing of a channel but its [index_]. *)
Definition index_only (σ σ' : channels) : Prop :=
  forall b, σ' !! b = σ !! b \/
    exists c i, σ !! b = Some c /\ σ' !! b = Some (Channel.set_index i c).

(** What a poller sees of the channels it watches. *)
Definition poller_frame (A : watches) (σ σ' : channels) : Prop :=
  forall fd a e c, A !! fd = Some (a, e) -> σ !! a = Some c ->
    exists c', σ' !! a = Some c' /\ Channel.fd_ c' = Channel.fd_ c /\ Channel.index_ c' = Channel.index_ c.

(** Conditions a kernel may find: those of a descriptor once, in a [short]. *)
Definition ready_ok (conds : list (Z * Z)) : Prop :=
  NoDup conds.*1 /\ Forall (fun r => 0 <= r.2 < 32768) conds.

(** The descriptors with a non-empty mask are those the kernel is asked about;
    it may still be asked about a disabled one (see [epoll_disabled_twice]). *)
Definition asked_ok (A : watches) (asked : gmap Z Z) : Prop :=
  (forall fd a e, A !! fd = Some (a, e) -> e <> 0 -> asked !! fd = Some e) /\
  (forall fd e, asked !! fd = Some e -> exists a, A !! fd = Some (a, e)).

Class PollerLaws (P : Type) `{PollerOps P} := {
  repr : watches -> P -> channels -> Prop;
  may_refuse : Prop;               (* can the kernel refuse to watch a descriptor? *)
  repr_init σ : repr ∅ p_init σ;
  repr_frame A p σ σ' : repr A p σ -> poller_frame A σ σ' -> repr A p σ';
  repr_channel A p σ fd a e : repr A p σ -> A !! fd = Some (a, e) ->
    0 <= e < 32768 /\ exists c, σ !! a = Some c /\ Channel.fd_ c = fd;
  repr_asked A p σ : repr A p σ -> asked_ok A (p_asked p);
  update_new A p σ a c :
    repr A p σ -> σ !! a = Some c -> chan_ok c -> Channel.isNoneEvent c = false ->
    Channel.index_ c = -1 -> A !! Channel.fd_ c = None -> Z.of_nat (size A) < two_31 - 1 ->
    (exists p' σ', p_updateChannel p σ a = Done (p', σ') /\ index_only σ σ' /\
      repr (<[Channel.fd_ c := (a, Channel.events_ c)]> A) p' σ') \/
    (may_refuse /\ p_updateChannel p σ a = Fault LogFatal);
  update_old A p σ a c e :
    repr A p σ -> σ !! a = Some c -> chan_ok c -> A !! Channel.fd_ c = Some (a, e) ->
    (exists p' σ', p_updateChannel p σ a = Done (p', σ') /\ index_only σ σ' /\
      repr (<[Channel.fd_ c := (a, Channel.events_ c)]> A) p' σ') \/
    (may_refuse /\ p_updateChannel p σ a = Fault LogFatal);
  update_stray A p σ a c :
    repr A p σ -> σ !! a = Some c -> fst <$> A !! Channel.fd_ c <> Some a ->
    is_Some (A !! Channel.fd_ c) \/ 0 <= Channel.index_ c ->
    p_updateChannel p σ a = Fault AssertFailure;
  remove_law A p σ a c :
    repr A p σ -> σ !! a = Some c -> Channel.isNoneEvent c = true -> A !! Channel.fd_ c = Some (a, 0) ->
    exists p' σ', p_removeChannel p σ a = Done (p', σ') /\ index_only σ σ' /\
      repr (delete (Channel.fd_ c) A) p' σ';
  remove_stray A p σ a c :
    repr A p σ -> σ !! a = Some c -> fst <$> A !! Channel.fd_ c <> Some a ->
    p_removeChannel p σ a = Fault AssertFailure;
  has_law A p σ a c :
    repr A p σ -> σ !! a = Some c ->
    p_hasChannel p σ a = Done (bool_decide (fst <$> A !! Channel.fd_ c = Some a));
  poll_error A p σ errno : repr A p σ -> p_poll p σ (PollError errno) = Done (p, σ, []);
  poll_ready A p σ conds :
    repr A p σ -> ready_ok conds ->
    exists p' σ' active delivered, p_poll p σ (Ready conds) = Done (p', σ', active) /\
      repr A p' σ' /\ p_asked p' = p_asked p /\ p_always p' = p_always p /\
      delivered ⊆+ reports (p_asked p) (p_always p) conds /\
      (delivered = [] -> reports (p_asked p) (p_always p) conds = []) /\
      Forall2 (fun a r => fst <$> A !! r.1 = Some a /\
                 σ' !! a = Channel.set_revents r.2 <$> σ !! a) active delivered /\
      (forall b, b ∉ active -> σ' !! b = σ !! b);
}.

(** A kernel that refuses nothing. *)
Class Unrefused (P : Type) `{PollerLaws P} := unrefused : ~ may_refuse.

Global Instance PollPoller_ops : PollerOps PollPoller.t := {|
  p_init := PollPoller.init;
  p_updateChannel := PollPoller.updateChannel;
  p_removeChannel := PollPoller.removeChannel;
  p_hasChannel := PollPoller.hasChannel;
  p_poll := PollPoller.poll;
  p_asked p := list_to_map (omap (fun pfd : PollPoller.pollfd =>
    if bool_decide (PollPoller.pfd_fd pfd < 0) then None
    else Some (PollPoller.pfd_fd pfd, PollPoller.pfd_events pfd)) (PollPoller.pollfds_ p));
  p_always _ := PollPoller.always;
|}.

Global Instance EPollPoller_ops {K} `{Epoll K} : PollerOps (EPollPoller.t K) := {|
  p_init := EPollPoller.init;
  p_updateChannel := EPollPoller.updateChannel;
  p_removeChannel := EPollPoller.removeChannel;
  p_hasChannel := EPollPoller.hasChannel;
  p_poll := EPollPoller.poll;
  p_asked p := snd <$> interest (EPollPoller.epollfd_ p);
  p_always _ := EPollPoller.always;
|}.

(** ** Shared lemmas *)

(** The two assertions that [fd] is registered, by a channel known to be so. *)
Ltac registered Hch :=
  rewrite Hch; rewrite (bool_decide_eq_true_2 (is_Some _)) by eauto;
  rewrite (bool_decide_eq_true_2 (Some _ = Some _)) by done; simpl.

Lemma chan_deref_ok σ a c : σ !! a = Some c -> deref σ a = Done c.
Proof. unfold deref. by intros ->. Qed.

Lemma index_only_refl σ : index_only σ σ.
Proof. intros b. by left. Qed.

Lemma index_only_insert σ a c i : σ !! a = Some c -> index_only σ (<[a := Channel.set_index i c]> σ).
Proof.
  intros Hc b. destruct (decide (b = a)) as [->|Hne]; [right|left; by rewrite lookup_insert_ne].
  exists c, i. by rewrite lookup_insert_eq.
Qed.

Lemma isNoneEvent_spec c : Channel.isNoneEvent c = bool_decide (Channel.events_ c = 0).
Proof.
  unfold Channel.isNoneEvent, Channel.kNoneEvent.
  destruct (Z.eqb_spec (Channel.events_ c) 0); case_bool_decide; done.
Qed.

Lemma i16_small x : 0 <= x < 32768 -> i16 x = x.
Proof. intros. zlia. Qed.

Lemma alter_insert_lookup (σ : channels) a c f :
  σ !! a = Some c -> <[a := f c]> σ = alter f a σ.
Proof.
  intros Hc. apply map_eq. intros b. destruct (decide (b = a)) as [->|Hne].
  - by rewrite lookup_insert_eq, lookup_alter_eq, Hc.
  - by rewrite lookup_insert_ne, lookup_alter_ne.
Qed.

(** Writing the returned bits into the channels [l] lists. *)
Fixpoint mark (σ : channels) (l : list (Z * Z)) : channels :=
  match l with
  | [] => σ
  | (a, r) :: l => mark (alter (Channel.set_revents r) a σ) l
  end.

Lemma mark_other σ l b : b ∉ l.*1 -> mark σ l !! b = σ !! b.
Proof.
  revert σ. induction l as [|[a r] l IH]; intros σ Hb; [done|]. simpl.
  rewrite IH by set_solver. apply lookup_alter_ne. set_solver.
Qed.

Lemma mark_lookup σ l a r :
  NoDup l.*1 -> (a, r) ∈ l -> mark σ l !! a = Channel.set_revents r <$> σ !! a.
Proof.
  revert σ. induction l as [|[a' r'] l IH]; intros σ Hnd Hin; [set_solver|].
  simpl in *. apply NoDup_cons in Hnd as [Hne Hnd]. apply elem_of_cons in Hin as [[= -> ->]|Hin].
  - rewrite mark_other by done. by rewrite lookup_alter_eq.
  - rewrite IH by done. rewrite lookup_alter_ne; [done|]. intros ->. apply Hne.
    by apply (list_elem_of_fmap_2 fst) in Hin.
Qed.

Lemma mark_same σ l b c :
  mark σ l !! b = Some c ->
  exists c0, σ !! b = Some c0 /\ Channel.fd_ c = Channel.fd_ c0 /\ Channel.index_ c = Channel.index_ c0.
Proof.
  revert σ. induction l as [|[a r] l IH]; intros σ Hc; [by exists c|]. simpl in Hc.
  apply IH in Hc as (c0 & Hc & -> & ->). destruct (decide (b = a)) as [->|Hne].
  - rewrite lookup_alter_eq in Hc. destruct (σ !! a) as [c1|]; simplify_eq/=. by exists c1.
  - rewrite lookup_alter_ne in Hc by done. by exists c0.
Qed.

Lemma mark_is_Some σ l b : is_Some (σ !! b) -> is_Some (mark σ l !! b).
Proof.
  revert σ. induction l as [|[a r] l IH]; intros σ [c Hc]; [by exists c|]. simpl. apply IH.
  destruct (decide (b = a)) as [->|Hne]; [rewrite lookup_alter_eq, Hc|rewrite lookup_alter_ne, Hc]; eauto.
Qed.

Lemma mark_frame A σ l : poller_frame A σ (mark σ l).
Proof.
  intros fd a e c _ Hc. destruct (mark_is_Some σ l a) as [c' Hc']; [by exists c|].
  exists c'. split; [done|]. apply mark_same in Hc' as (c0 & Hc0 & ? & ?). by simplify_eq.
Qed.

Definition addr_of (A : watches) (fd : Z) : Z := match A !! fd with Some (a, _) => a | None => 0 end.

(** The outcome of a poll, once it is known which descriptors are delivered. *)
Lemma mark_delivered (A : watches) σ delivered :
  NoDup delivered.*1 -> (forall r, r ∈ delivered -> is_Some (A !! r.1)) ->
  (forall fd fd' a e e', A !! fd = Some (a, e) -> A !! fd' = Some (a, e') -> fd = fd') ->
  let l := (fun r : Z * Z => (addr_of A r.1, r.2)) <$> delivered in
  Forall2 (fun a r => fst <$> A !! r.1 = Some a /\
             mark σ l !! a = Channel.set_revents r.2 <$> σ !! a) l.*1 delivered.
Proof.
  intros Hnd HA Hinj l.
  assert (NoDup l.*1) as Hl.
  { unfold l. rewrite <-list_fmap_compose. apply NoDup_fmap_2_strong; [|by eapply NoDup_fmap_1].
    intros r r' Hr Hr'. unfold compose, addr_of. simpl.
    destruct (HA r Hr) as [[a e] Ha], (HA r' Hr') as [[a' e'] Ha']. rewrite Ha, Ha'. intros ->.
    assert (r.1 = r'.1) as Heq by eauto. clear -Hnd Hr Hr' Heq.
    apply list_elem_of_lookup in Hr as [i Hi], Hr' as [j Hj].
    assert (i = j) as ->; [|congruence].
    eapply (NoDup_lookup delivered.*1 i j r.1); rewrite ?list_lookup_fmap, ?Hi, ?Hj; simpl; congruence. }
  rewrite Forall2_fmap_l. unfold l at 2. rewrite Forall2_fmap_l. apply Forall_Forall2_diag, Forall_forall.
  intros r Hr. simpl. destruct (HA r Hr) as [[a e] Ha]. split.
  - unfold addr_of. by rewrite Ha.
  - apply mark_lookup; [done|]. unfold l. apply list_elem_of_fmap. by exists r.
Qed.

Lemma cond_bits_range conds fd : ready_ok conds -> 0 <= cond_bits conds fd < 32768.
Proof.
  intros [_ Hf]. unfold cond_bits. destruct (list_find _ conds) as [[i r]|] eqn:E; [|lia].
  apply list_find_Some in E as (Hi & _ & _). rewrite Forall_forall in Hf. apply Hf. by eapply list_elem_of_lookup_2.
Qed.

Lemma cond_bits_in conds fd : cond_bits conds fd <> 0 -> (fd, cond_bits conds fd) ∈ conds.
Proof.
  unfold cond_bits. destruct (list_find _ conds) as [[i [fd' r]]|] eqn:Hf; [|done].
  apply list_find_Some in Hf as (Hi & Hfd & _). simpl in *. subst. intros _.
  by eapply list_elem_of_lookup_2.
Qed.

Lemma cond_bits_nodup conds fd r : NoDup conds.*1 -> (fd, r) ∈ conds -> cond_bits conds fd = r.
Proof.
  intros Hnd [i Hi]%list_elem_of_lookup. unfold cond_bits.
  destruct (list_find _ conds) as [[j [fd' r']]|] eqn:Hf.
  - apply list_find_Some in Hf as (Hj & Hfd & _). simpl in *. subst fd'.
    assert (i = j) as ->; [|by rewrite Hi in Hj; injection Hj].
    eapply (NoDup_lookup conds.*1 i j fd); [done|by rewrite list_lookup_fmap, Hi|by rewrite list_lookup_fmap, Hj].
  - apply list_find_None in Hf. rewrite Forall_forall in Hf.
    destruct (Hf (fd, r)); [by eapply list_elem_of_lookup_2|done].
Qed.

(** What is reported, and only that, follows from what was asked. *)
Lemma reports_elem asked always conds fd r :
  NoDup conds.*1 ->
  (fd, r) ∈ reports asked always conds <->
    exists m, asked !! fd = Some m /\ r = Z.land (cond_bits conds fd) (Z.lor m always) /\ r <> 0.
Proof.
  intros Hnd. unfold reports. rewrite list_elem_of_omap. split.
  - intros ([fd' b] & Hin & Hr). simpl in Hr. destruct (asked !! fd') as [m|] eqn:Hm; [|done]. simpl in Hr.
    case_bool_decide; [done|]. injection Hr as -> <-. exists m. by rewrite (cond_bits_nodup conds fd b).
  - intros (m & Hm & -> & Hz). exists (fd, cond_bits conds fd). split.
    + apply cond_bits_in. intros Hb. by rewrite Hb in Hz.
    + simpl. rewrite Hm. simpl. by rewrite bool_decide_eq_false_2.
Qed.

Lemma reports_sub asked always conds : (reports asked always conds).*1 `sublist_of` conds.*1.
Proof.
  unfold reports. induction conds as [|[fd b] conds IH]; [done|]. simpl.
  destruct (asked !! fd) as [m|]; simpl; [|by apply sublist_cons].
  case_bool_decide; simpl; [by apply sublist_cons|by apply sublist_skip].
Qed.

Lemma reports_nodup asked always conds : NoDup conds.*1 -> NoDup (reports asked always conds).*1.
Proof. intros Hnd. eapply sublist_NoDup; [exact Hnd|]. apply reports_sub. Qed.

(** ** PollPoller implements the interface *)
Module PollPollerFacts.
Import PollPoller.

Definition encode (fd e : Z) : Z := if bool_decide (e = 0) then - fd - 1 else fd.

Record inv (A : watches) (p : t) (σ : channels) : Prop := {
  pr_channels : channels_ p = fst <$> A;
  pr_entry fd a e : A !! fd = Some (a, e) ->
    0 <= fd /\ 0 <= e < 32768 /\
    exists c pfd, σ !! a = Some c /\ Channel.fd_ c = fd /\ 0 <= Channel.index_ c /\
      pollfds_ p !! Z.to_nat (Channel.index_ c) = Some pfd /\ pfd_fd pfd = encode fd e /\
      pfd_events pfd = e;
  pr_owner i pfd : pollfds_ p !! i = Some pfd ->
    exists fd a e c, A !! fd = Some (a, e) /\ σ !! a = Some c /\ Channel.index_ c = Z.of_nat i;
  pr_len : len (pollfds_ p) < two_31;
}.

Lemma encode_inj fd fd' e e' : 0 <= fd -> 0 <= fd' -> encode fd e = encode fd' e' -> fd = fd'.
Proof. unfold encode. repeat case_bool_decide; lia. Qed.

Lemma entry_lookup (A : watches) p fd : channels_ p = fst <$> A -> channels_ p !! fd = fst <$> A !! fd.
Proof. intros ->. by rewrite lookup_fmap. Qed.

(** Distinct watches have distinct channels and distinct slots. *)
Lemma poll_same_addr A p σ fd fd' a e e' :
  inv A p σ -> A !! fd = Some (a, e) -> A !! fd' = Some (a, e') -> fd = fd'.
Proof.
  intros Hi (_ & _ & c & _ & Hc & <- & _)%(pr_entry _ _ _ Hi) (_ & _ & c' & _ & Hc' & <- & _)%(pr_entry _ _ _ Hi).
  by simplify_eq.
Qed.

Lemma same_index A p σ fd fd' a a' e e' c c' :
  inv A p σ -> A !! fd = Some (a, e) -> A !! fd' = Some (a', e') ->
  σ !! a = Some c -> σ !! a' = Some c' -> Channel.index_ c = Channel.index_ c' -> fd = fd'.
Proof.
  intros Hi (H0 & _ & c1 & pfd & Hc1 & _ & _ & Hp & Hf & _)%(pr_entry _ _ _ Hi)
    (H0' & _ & c2 & pfd' & Hc2 & _ & _ & Hp' & Hf' & _)%(pr_entry _ _ _ Hi) Hc Hc' Hidx.
  simplify_eq. rewrite Hidx in Hp. rewrite Hp in Hp'. injection Hp' as <-.
  by apply (encode_inj _ _ e e'); [..|congruence].
Qed.

Lemma poll_inv_frame A p σ σ' : inv A p σ -> poller_frame A σ σ' -> inv A p σ'.
Proof.
  intros Hi Hf. constructor; try apply Hi.
  - intros fd a e HA. destruct (pr_entry _ _ _ Hi fd a e HA) as (?&?&c&pfd&Hc&Hfd&?&Hp&?&?).
    destruct (Hf fd a e c HA Hc) as (c' & Hc' & Hfd' & Hidx).
    split_and!; try done; try lia. exists c', pfd. rewrite Hidx. split_and!; try done. congruence.
  - intros i pfd Hp. destruct (pr_owner _ _ _ Hi i pfd Hp) as (fd & a & e & c & HA & Hc & Hidx).
    destruct (Hf fd a e c HA Hc) as (c' & Hc' & _ & Hidx'). exists fd, a, e, c'. by rewrite Hidx'.
Qed.

(** A new watch at the end of the array. *)
Lemma inv_push A p σ a c :
  inv A p σ -> σ !! a = Some c -> chan_ok c -> Channel.events_ c <> 0 -> Channel.index_ c = -1 ->
  A !! Channel.fd_ c = None -> len (pollfds_ p) < two_31 - 1 ->
  inv (<[Channel.fd_ c := (a, Channel.events_ c)]> A)
    (mk (<[Channel.fd_ c := a]> (channels_ p))
       (pollfds_ p ++ [mk_pollfd (Channel.fd_ c) (Channel.events_ c) 0]))
    (<[a := Channel.set_index (len (pollfds_ p)) c]> σ).
Proof.
  intros Hi Hc [Hfd He] Hne Hidx HA Hlen.
  assert (forall fd' a' e', A !! fd' = Some (a', e') -> a' <> a) as Hna.
  { intros fd' a' e' HA' ->. apply (pr_entry _ _ _ Hi) in HA' as (_&_&c'&_&Hc'&_&?&_). simplify_eq. lia. }
  constructor; simpl.
  - by rewrite (pr_channels _ _ _ Hi), fmap_insert.
  - intros fd a' e [[<- [= <- <-]]|[Hne' HA']]%lookup_insert_Some.
    + split_and!; try lia.
      exists (Channel.set_index (len (pollfds_ p)) c), (mk_pollfd (Channel.fd_ c) (Channel.events_ c) 0).
      rewrite lookup_insert_eq. split_and!; try done; simpl; [unfold len; lia|..].
      * unfold len. rewrite Nat2Z.id, lookup_app_r, Nat.sub_diag by lia. done.
      * unfold encode. by rewrite bool_decide_eq_false_2.
    + destruct (pr_entry _ _ _ Hi fd a' e HA') as (?&?&c'&pfd&Hc'&?&?&Hp&?&?). split_and!; try lia.
      exists c', pfd. rewrite lookup_insert_ne by (apply not_eq_sym; by eapply Hna). split_and!; try done.
      by apply lookup_app_l_Some.
  - intros i pfd [Hp|[Hge Hp]]%lookup_app_Some.
    + destruct (pr_owner _ _ _ Hi i pfd Hp) as (fd & a' & e & c' & HA' & Hc' & Hi').
      exists fd, a', e, c'. rewrite !lookup_insert_ne by (naive_solver || (apply not_eq_sym; by eapply Hna)).
      done.
    + apply list_lookup_singleton_Some in Hp as [Hi0 <-].
      eexists _, a, _, _. rewrite !lookup_insert_eq. split_and!; try done. simpl. unfold len. lia.
  - rewrite len_app. unfold len in *. simpl. lia.
Qed.

(** Rewriting the slot of a watch. *)
Lemma inv_rewrite A p σ a c e pfd :
  inv A p σ -> σ !! a = Some c -> chan_ok c -> A !! Channel.fd_ c = Some (a, e) ->
  pfd_fd pfd = encode (Channel.fd_ c) (Channel.events_ c) -> pfd_events pfd = Channel.events_ c ->
  inv (<[Channel.fd_ c := (a, Channel.events_ c)]> A)
    (mk (channels_ p) (<[Z.to_nat (Channel.index_ c) := pfd]> (pollfds_ p))) σ.
Proof.
  intros Hi Hc [Hfd He] HA Hpf Hpe.
  destruct (pr_entry _ _ _ Hi _ _ _ HA) as (_&_&c0&pfd0&Hc0&_&Hidx&Hp0&_). simplify_eq.
  constructor; simpl.
  - rewrite (pr_channels _ _ _ Hi), fmap_insert. simpl.
    symmetry. apply insert_id. by rewrite lookup_fmap, HA.
  - intros fd a' e' [[<- [= <- <-]]|[Hne HA']]%lookup_insert_Some.
    + split_and!; try lia. exists c, pfd. split_and!; try done.
      apply list_lookup_insert_eq. by eapply lookup_lt_Some.
    + destruct (pr_entry _ _ _ Hi fd a' e' HA') as (?&?&c'&pfd'&Hc'&?&?&Hp&?&?). split_and!; try lia.
      exists c', pfd'. split_and!; try done. rewrite list_lookup_insert_ne; [done|]. intros Heq.
      apply Hne. eapply (same_index A p σ); eauto. lia.
  - intros i pfd' Hp. assert (is_Some (pollfds_ p !! i)) as [pfd1 Hp1].
    { apply lookup_lt_is_Some. apply lookup_lt_Some in Hp. by rewrite length_insert in Hp. }
    destruct (pr_owner _ _ _ Hi i pfd1 Hp1) as (fd & a' & e' & c' & HA' & Hc' & Hi').
    destruct (decide (fd = Channel.fd_ c)) as [->|Hne].
    + simplify_eq. eexists _, _, _, _. by rewrite lookup_insert_eq.
    + exists fd, a', e', c'. by rewrite lookup_insert_ne.
  - unfold len. rewrite length_insert. apply Hi.
Qed.

(** Dropping a watch whose slot is the last one. *)
Lemma inv_remove_last A p σ a c :
  inv A p σ -> σ !! a = Some c -> A !! Channel.fd_ c = Some (a, 0) ->
  Channel.index_ c = len (pollfds_ p) - 1 ->
  inv (delete (Channel.fd_ c) A)
    (mk (delete (Channel.fd_ c) (channels_ p)) (take (Z.to_nat (len (pollfds_ p) - 1)) (pollfds_ p))) σ.
Proof.
  intros Hi Hc HA Hidx. constructor; simpl.
  - by rewrite (pr_channels _ _ _ Hi), fmap_delete.
  - intros fd a' e [Hne HA']%lookup_delete_Some.
    destruct (pr_entry _ _ _ Hi fd a' e HA') as (?&?&c'&pfd&Hc'&?&?&Hp&?&?). split_and!; try lia.
    exists c', pfd. split_and!; try done. rewrite lookup_take_lt; [done|].
    assert (Channel.index_ c' <> Channel.index_ c) as Hni.
    { intros Heq. apply Hne. symmetry. by eapply (same_index A p σ). }
    apply lookup_lt_Some in Hp. unfold len in *. lia.
  - intros i pfd [Hp Hlt]%lookup_take_Some.
    destruct (pr_owner _ _ _ Hi i pfd Hp) as (fd & a' & e & c' & HA' & Hc' & Hi').
    exists fd, a', e, c'. rewrite lookup_delete_ne; [done|]. intros <-. simplify_eq. unfold len in *. lia.
  - pose proof (pr_len _ _ _ Hi). unfold len in *. rewrite length_take. lia.
Qed.

(** Dropping a watch elsewhere: the last slot moves into the gap. *)
Lemma inv_remove_swap A p σ a c pfd back fd_b b e_b cb :
  inv A p σ -> σ !! a = Some c -> A !! Channel.fd_ c = Some (a, 0) ->
  0 <= Channel.index_ c < len (pollfds_ p) - 1 ->
  pollfds_ p !! Z.to_nat (len (pollfds_ p) - 1) = Some back ->
  A !! fd_b = Some (b, e_b) -> σ !! b = Some cb -> Channel.index_ cb = len (pollfds_ p) - 1 ->
  inv (delete (Channel.fd_ c) A)
    (mk (delete (Channel.fd_ c) (channels_ p))
       (take (Z.to_nat (len (pollfds_ p) - 1))
          (<[Z.to_nat (len (pollfds_ p) - 1) := pfd]> (<[Z.to_nat (Channel.index_ c) := back]> (pollfds_ p)))))
    (<[b := Channel.set_index (Channel.index_ c) cb]> σ).
Proof.
  intros Hi Hc HA Hidx Hback HAb Hcb Hidxb.
  set (n := len (pollfds_ p)) in *. assert (n = Z.of_nat (length (pollfds_ p))) as Hn by done.
  assert (fd_b <> Channel.fd_ c) as Hfb by (intros ->; simplify_eq; lia).
  constructor; simpl.
  - by rewrite (pr_channels _ _ _ Hi), fmap_delete.
  - intros fd a' e [Hne HA']%lookup_delete_Some.
    destruct (pr_entry _ _ _ Hi fd a' e HA') as (?&?&c'&pfd'&Hc'&?&?&Hp&?&?). split_and!; try lia.
    destruct (decide (fd = fd_b)) as [->|Hfd].
    + simplify_eq. exists (Channel.set_index (Channel.index_ c) cb), pfd'.
      rewrite lookup_insert_eq. split_and!; try done; simpl; [lia|].
      rewrite lookup_take_lt by lia. rewrite list_lookup_insert_ne by lia.
      rewrite list_lookup_insert_eq by lia. congruence.
    + assert (a' <> b) as Hab by (intros ->; by apply Hfd, (poll_same_addr A p σ _ _ b e e_b)).
      assert (Channel.index_ c' <> Channel.index_ c) as Hni.
      { intros Heq. apply Hne. symmetry. by eapply (same_index A p σ). }
      assert (Channel.index_ c' <> n - 1) as Hnl.
      { intros Heq. apply Hfd. eapply (same_index A p σ); eauto. congruence. }
      exists c', pfd'. rewrite lookup_insert_ne by done. split_and!; try done.
      apply lookup_lt_Some in Hp as Hlt.
      rewrite lookup_take_lt by lia. by rewrite !list_lookup_insert_ne by lia.
  - intros i pfd' [Hp Hlt]%lookup_take_Some. rewrite list_lookup_insert_ne in Hp by lia.
    destruct (decide (i = Z.to_nat (Channel.index_ c))) as [->|Hne].
    + exists fd_b, b, e_b, (Channel.set_index (Channel.index_ c) cb).
      rewrite lookup_delete_ne by done. rewrite lookup_insert_eq. split_and!; try done. simpl. lia.
    + rewrite list_lookup_insert_ne in Hp by done.
      destruct (pr_owner _ _ _ Hi i pfd' Hp) as (fd & a' & e & c' & HA' & Hc' & Hi').
      exists fd, a', e, c'. rewrite lookup_delete_ne by (intros <-; simplify_eq; lia).
      rewrite lookup_insert_ne by (intros <-; simplify_eq; lia). done.
  - pose proof (pr_len _ _ _ Hi). unfold len in *. rewrite length_take, !length_insert. lia.
Qed.

(** The array has one slot per watch. *)
Lemma len_size A p σ : inv A p σ -> len (pollfds_ p) <= Z.of_nat (size A).
Proof.
  intros Hi.
  set (f := fun fd => match A !! fd with
                      | Some (a, _) => match σ !! a with Some c => Z.to_nat (Channel.index_ c) | None => 0%nat end
                      | None => 0%nat
                      end).
  assert (seq 0 (length (pollfds_ p)) ⊆+ f <$> elements (dom A)) as Hsub%submseteq_length.
  { apply NoDup_submseteq; [apply NoDup_seq|]. intros i Hin%elem_of_seq.
    destruct (lookup_lt_is_Some_2 (pollfds_ p) i) as [pfd Hp]; [lia|].
    destruct (pr_owner _ _ _ Hi i pfd Hp) as (fd & a & e & c & HA & Hc & Hidx).
    apply list_elem_of_fmap. exists fd. unfold f. rewrite HA, Hc. split; [lia|].
    apply elem_of_elements. by apply elem_of_dom_2 in HA. }
  rewrite length_seq, length_fmap in Hsub. rewrite <-size_dom. unfold len.
  apply Nat2Z.inj_le. exact Hsub.
Qed.

Lemma poll_fill_ok (A : watches) σ pfds n active :
  (forall pfd, pfd ∈ pfds -> 0 <= pfd_revents pfd) ->
  (forall pfd, pfd ∈ pfds -> 0 < pfd_revents pfd ->
     exists a e c, A !! pfd_fd pfd = Some (a, e) /\ σ !! a = Some c /\ Channel.fd_ c = pfd_fd pfd) ->
  n = len (filter (fun pfd => pfd_revents pfd ≠ 0) pfds) ->
  let l := (fun r : Z * Z => (addr_of A r.1, r.2)) <$>
             ((fun pfd => (pfd_fd pfd, pfd_revents pfd)) <$> filter (fun pfd => pfd_revents pfd ≠ 0) pfds) in
  fillActiveChannels (fst <$> A) σ pfds n active = Done (mark σ l, active ++ l.*1).
Proof.
  revert σ n active. induction pfds as [|pfd pfds IH]; intros σ n active Hpos Hok ->; simpl.
  { by rewrite app_nil_r. }
  destruct (decide (pfd_revents pfd = 0)) as [Hz|Hz].
  - rewrite filter_cons_False by naive_solver. rewrite (bool_decide_eq_false_2 (0 < pfd_revents pfd)) by lia.
    case_bool_decide as Hn.
    + apply IH; [set_solver|set_solver|done].
    + assert (filter (fun pfd => pfd_revents pfd ≠ 0) pfds = []) as ->.
      { destruct (filter _ pfds); [done|]. unfold len in Hn. simpl in Hn. lia. }
      simpl. by rewrite app_nil_r.
  - rewrite filter_cons_True by done. pose proof (Hpos pfd ltac:(set_solver)).
    rewrite bool_decide_eq_true_2 by (unfold len; simpl; lia). rewrite bool_decide_eq_true_2 by lia.
    destruct (Hok pfd) as (a & e & c & HA & Hc & Hfd); [set_solver|lia|].
    rewrite lookup_fmap, HA. simpl. rewrite (chan_deref_ok _ _ _ Hc). simpl.
    rewrite bool_decide_eq_true_2 by done. simpl.
    rewrite IH; [|set_solver| |unfold len; simpl; lia].
    + assert (addr_of A (pfd_fd pfd) = a) as Ha by (unfold addr_of; by rewrite HA).
      cbn [fmap list_fmap fst snd mark]. rewrite Ha, <-app_assoc.
      by rewrite (alter_insert_lookup σ a c (Channel.set_revents (pfd_revents pfd))).
    + intros pfd' Hin Hpos'. destruct (Hok pfd') as (a' & e' & c' & HA' & Hc' & Hfd'); [set_solver|done|].
      exists a', e'. destruct (decide (a' = a)) as [->|Hne].
      * exists (Channel.set_revents (pfd_revents pfd) c). rewrite lookup_insert_eq. simplify_eq. done.
      * exists c'. by rewrite lookup_insert_ne.
Qed.

Lemma pfds_nodup A p σ : inv A p σ -> NoDup (pfd_fd <$> pollfds_ p).
Proof.
  intros Hi. apply NoDup_alt. intros i j f. rewrite !list_lookup_fmap.
  destruct (pollfds_ p !! i) as [pi|] eqn:Hpi; [|done]. destruct (pollfds_ p !! j) as [pj|] eqn:Hpj; [|done].
  intros [= <-] [= Heq].
  destruct (pr_owner _ _ _ Hi i pi Hpi) as (fd & a & e & c & HA & Hc & Hidx).
  destruct (pr_owner _ _ _ Hi j pj Hpj) as (fd' & a' & e' & c' & HA' & Hc' & Hidx').
  destruct (pr_entry _ _ _ Hi fd a e HA) as (?&_&c1&pfd1&Hc1&_&_&Hp1&He1&_).
  destruct (pr_entry _ _ _ Hi fd' a' e' HA') as (?&_&c2&pfd2&Hc2&_&_&Hp2&He2&_). simplify_eq.
  rewrite Hidx, Nat2Z.id, Hpi in Hp1. rewrite Hidx', Nat2Z.id, Hpj in Hp2. simplify_eq.
  assert (fd = fd') as -> by (apply (encode_inj _ _ e e'); [done|done|congruence]). simplify_eq. lia.
Qed.

Lemma inv_kernel_poll A p σ conds : inv A p σ -> inv A (mk (channels_ p) (kernel_poll (pollfds_ p) conds)) σ.
Proof.
  intros Hi. constructor; simpl; try apply Hi.
  - intros fd a e HA. destruct (pr_entry _ _ _ Hi fd a e HA) as (?&?&c&pfd&Hc&?&?&Hp&?&?).
    split_and!; try lia. exists c, (polled conds pfd). split_and!; try done.
    unfold kernel_poll. by rewrite list_lookup_fmap, Hp.
  - intros i pfd Hp. unfold kernel_poll in Hp. rewrite list_lookup_fmap in Hp.
    destruct (pollfds_ p !! i) as [pfd0|] eqn:Hp0; [|done]. by apply (pr_owner _ _ _ Hi i pfd0).
  - unfold len, kernel_poll. rewrite length_fmap. apply Hi.
Qed.

(** The slots that poll(2) looks at. *)
Definition slots (pfds : list pollfd) : list (Z * Z) :=
  omap (fun pfd => if bool_decide (pfd_fd pfd < 0) then None else Some (pfd_fd pfd, pfd_events pfd)) pfds.

Lemma slots_elem pfds fd e :
  (fd, e) ∈ slots pfds <-> exists pfd, pfd ∈ pfds /\ 0 <= fd /\ pfd_fd pfd = fd /\ pfd_events pfd = e.
Proof.
  unfold slots. rewrite list_elem_of_omap. split.
  - intros (pfd & Hin & Hp). case_bool_decide; [done|]. injection Hp as <- <-. exists pfd. split_and!; [done|lia|done..].
  - intros (pfd & Hin & H0 & <- & <-). exists pfd. split; [done|]. by rewrite bool_decide_eq_false_2 by lia.
Qed.

Lemma slots_sub pfds : (slots pfds).*1 `sublist_of` pfd_fd <$> pfds.
Proof.
  unfold slots. induction pfds as [|pfd pfds IH]; [done|]. simpl.
  case_bool_decide; simpl; [by apply sublist_cons|by apply sublist_skip].
Qed.

Lemma poll_asked_lookup A p σ fd e :
  inv A p σ -> p_asked p !! fd = Some e <-> e <> 0 /\ exists a, A !! fd = Some (a, e).
Proof.
  intros Hi. cbn [p_asked PollPoller_ops]. fold (slots (pollfds_ p)).
  rewrite <-elem_of_list_to_map.
  2: { eapply sublist_NoDup; [by eapply pfds_nodup|apply slots_sub]. }
  rewrite slots_elem. split.
  - intros (pfd & [i Hp]%list_elem_of_lookup & H0 & Hfd & He).
    destruct (pr_owner _ _ _ Hi i pfd Hp) as (fd' & a & e' & c & HA & Hc & Hidx).
    destruct (pr_entry _ _ _ Hi fd' a e' HA) as (?&?&c'&pfd'&Hc'&_&_&Hp'&Hf'&He'). simplify_eq.
    rewrite Hidx, Nat2Z.id, Hp in Hp'. simplify_eq. unfold encode in *. case_bool_decide; [lia|].
    rewrite Hf' in *. eauto.
  - intros (Hz & a & HA). destruct (pr_entry _ _ _ Hi fd a e HA) as (?&_&c&pfd&_&_&_&Hp&Hf&He).
    exists pfd. unfold encode in Hf. rewrite bool_decide_eq_false_2 in Hf by done.
    split_and!; [by eapply list_elem_of_lookup_2|done..].
Qed.

(** [PollPoller] asks the kernel about exactly the descriptors whose channel
    has a non-empty mask. *)
Definition enabled (A : watches) : gmap Z Z := filter (fun x => x.2 <> 0) (snd <$> A).

Lemma enabled_lookup A fd e : enabled A !! fd = Some e <-> e <> 0 /\ exists a, A !! fd = Some (a, e).
Proof.
  unfold enabled. rewrite map_lookup_filter_Some, lookup_fmap. simpl. split.
  - intros [Hl Hz]. destruct (A !! fd) as [[a e']|] eqn:HA; [|done]. simpl in Hl. simplify_eq. eauto.
  - intros [Hz [a ->]]. done.
Qed.

Lemma poll_asked A p σ : inv A p σ -> p_asked p = enabled A.
Proof.
  intros Hi. apply map_eq. intros fd. apply option_eq. intros e.
  by rewrite (poll_asked_lookup A p σ), enabled_lookup.
Qed.

(** What poll(2) reports, slot by slot, is what is due. *)
Definition reported (pfds : list pollfd) : list (Z * Z) :=
  (fun pfd => (pfd_fd pfd, pfd_revents pfd)) <$> filter (fun pfd => pfd_revents pfd ≠ 0) pfds.

Lemma reported_elem pfds fd r :
  (fd, r) ∈ reported pfds <-> exists pfd, pfd ∈ pfds /\ pfd_fd pfd = fd /\ pfd_revents pfd = r /\ r <> 0.
Proof.
  unfold reported. rewrite list_elem_of_fmap. setoid_rewrite list_elem_of_filter. naive_solver.
Qed.

Lemma reported_nodup A p σ conds : inv A p σ -> NoDup (reported (kernel_poll (pollfds_ p) conds)).*1.
Proof.
  intros Hi. unfold reported. rewrite <-list_fmap_compose.
  change (fst ∘ _) with pfd_fd. eapply sublist_NoDup; [|apply fmap_sublist, sublist_filter].
  unfold kernel_poll. rewrite <-list_fmap_compose. by eapply pfds_nodup.
Qed.

Lemma reported_ready A p σ conds :
  inv A p σ -> ready_ok conds ->
  reported (kernel_poll (pollfds_ p) conds) ≡ₚ reports (p_asked p) always conds.
Proof.
  intros Hi [Hnd Hr]. apply NoDup_Permutation.
  { eapply NoDup_fmap_1. by apply (reported_nodup A p σ). }
  { eapply NoDup_fmap_1. by apply reports_nodup. }
  intros [fd r]. rewrite reported_elem, reports_elem by done. unfold kernel_poll. split.
  - intros (pfd & (pfd0 & -> & Hin)%list_elem_of_fmap & Hfd & Hrev & Hz). simpl in *.
    case_bool_decide as Hneg; [by subst r|]. exists (pfd_events pfd0). split; [|by rewrite <-Hfd].
    cbn [p_asked PollPoller_ops]. fold (slots (pollfds_ p)). apply elem_of_list_to_map.
    + eapply sublist_NoDup; [by eapply pfds_nodup|apply slots_sub].
    + apply slots_elem. exists pfd0. split_and!; [done|lia|done..].
  - intros (m & (Hz & a & HA)%(poll_asked_lookup A p σ) & -> & Hnz); [|done].
    destruct (pr_entry _ _ _ Hi fd a m HA) as (?&_&c&pfd&_&_&_&Hp&Hf&He).
    unfold encode in Hf. rewrite bool_decide_eq_false_2 in Hf by done.
    eexists. split; [apply list_elem_of_fmap; exists pfd; split; [done|by eapply list_elem_of_lookup_2]|].
    simpl. rewrite Hf, He, bool_decide_eq_false_2 by lia. done.
Qed.

Lemma poll_update_new A p σ a c :
  inv A p σ -> σ !! a = Some c -> chan_ok c -> Channel.isNoneEvent c = false ->
  Channel.index_ c = -1 -> A !! Channel.fd_ c = None -> Z.of_nat (size A) < two_31 - 1 ->
  exists p' σ', updateChannel p σ a = Done (p', σ') /\ index_only σ σ' /\
    inv (<[Channel.fd_ c := (a, Channel.events_ c)]> A) p' σ'.
Proof.
  intros Hi Hc Hok Hne Hidx HA Hsz. pose proof (len_size _ _ _ Hi) as Hlen. destruct Hok as [Hfd He].
  rewrite isNoneEvent_spec in Hne. apply bool_decide_eq_false_1 in Hne.
  unfold updateChannel. rewrite (chan_deref_ok _ _ _ Hc). simpl.
  rewrite bool_decide_eq_true_2 by lia.
  rewrite bool_decide_eq_true_2 by (rewrite (pr_channels _ _ _ Hi), lookup_fmap, HA; done). simpl.
  rewrite i16_small by done. rewrite len_app. change (len [_]) with 1.
  rewrite i32_small by (pose proof (len_nonneg (pollfds_ p)); zlia).
  replace (len (pollfds_ p) + 1 - 1) with (len (pollfds_ p)) by lia.
  eexists _, _. split; [done|]. split; [by apply index_only_insert|]. apply inv_push; try done. lia.
Qed.

Lemma poll_update_old A p σ a c e :
  inv A p σ -> σ !! a = Some c -> chan_ok c -> A !! Channel.fd_ c = Some (a, e) ->
  exists p' σ', updateChannel p σ a = Done (p', σ') /\ index_only σ σ' /\
    inv (<[Channel.fd_ c := (a, Channel.events_ c)]> A) p' σ'.
Proof.
  intros Hi Hc Hok HA. unfold updateChannel. rewrite (chan_deref_ok _ _ _ Hc). simpl.
  destruct (pr_entry _ _ _ Hi _ _ _ HA) as (?&?&c'&pfd&Hc'&_&Hidx&Hp&Hpf&_). simplify_eq.
  rewrite bool_decide_eq_false_2 by lia.
  assert (channels_ p !! Channel.fd_ c = Some a) as Hch by (by rewrite (pr_channels _ _ _ Hi), lookup_fmap, HA).
  registered Hch.
  pose proof (pr_len _ _ _ Hi) as Hlen. pose proof (lookup_lt_Some _ _ _ Hp) as Hlt.
  rewrite (bool_decide_eq_true_2 (0 <= _ /\ _)).
  2: { rewrite i32_small by (pose proof (len_nonneg (pollfds_ p)); zlia). unfold len. lia. }
  simpl. rewrite (proj2 (at_Done (pollfds_ p) (Channel.index_ c) pfd)) by done. simpl.
  rewrite (bool_decide_eq_true_2 (pfd_fd pfd = _ \/ _)) by (rewrite Hpf; unfold encode; case_bool_decide; lia). simpl.
  eexists _, _. split; [done|]. split; [apply index_only_refl|].
  destruct Hok as [Hfd He]. eapply inv_rewrite; try done; simpl.
  - unfold encode. rewrite isNoneEvent_spec. by repeat case_bool_decide.
  - by apply i16_small.
Qed.

Lemma decode_encode fd e :
  0 <= fd -> (if bool_decide (encode fd e < 0) then - encode fd e - 1 else encode fd e) = fd.
Proof. unfold encode. repeat case_bool_decide; lia. Qed.

Lemma poll_remove A p σ a c :
  inv A p σ -> σ !! a = Some c -> Channel.isNoneEvent c = true -> A !! Channel.fd_ c = Some (a, 0) ->
  exists p' σ', removeChannel p σ a = Done (p', σ') /\ index_only σ σ' /\
    inv (delete (Channel.fd_ c) A) p' σ' /\ σ' !! a = Some c.
Proof.
  intros Hi Hc Hne HA. unfold removeChannel. rewrite (chan_deref_ok _ _ _ Hc). simpl.
  destruct (pr_entry _ _ _ Hi _ _ _ HA) as (?&?&c'&pfd&Hc'&_&Hidx&Hp&Hpf&Hpe). simplify_eq.
  assert (channels_ p !! Channel.fd_ c = Some a) as Hch by (by rewrite (pr_channels _ _ _ Hi), lookup_fmap, HA).
  registered Hch. rewrite Hne. simpl.
  pose proof (pr_len _ _ _ Hi) as Hlen. pose proof (lookup_lt_Some _ _ _ Hp) as Hlt.
  rewrite (bool_decide_eq_true_2 (0 <= _ /\ _)).
  2: { rewrite i32_small by (pose proof (len_nonneg (pollfds_ p)); zlia). unfold len. lia. }
  simpl. rewrite (proj2 (at_Done (pollfds_ p) (Channel.index_ c) pfd)) by done. simpl.
  rewrite isNoneEvent_spec in Hne. apply bool_decide_eq_true_1 in Hne.
  rewrite (bool_decide_eq_true_2 (pfd_fd pfd = _ /\ _)) by (rewrite Hpf, Hpe, Hne; done). simpl.
  assert (0 < len (pollfds_ p)) as Hpos by (unfold len; lia).
  rewrite !u64_small by (unfold len in *; zlia).
  case_bool_decide as Hlast.
  - eexists _, _. split; [done|]. split; [apply index_only_refl|]. split; [|done].
    by apply (inv_remove_last A p σ a c).
  - destruct (lookup_lt_is_Some_2 (pollfds_ p) (Z.to_nat (len (pollfds_ p) - 1))) as [back Hback].
    { unfold len in *. lia. }
    rewrite (proj2 (at_Done (pollfds_ p) (len (pollfds_ p) - 1) back)) by (split; [lia|done]). simpl.
    destruct (pr_owner _ _ _ Hi _ _ Hback) as (fd_b & b & e_b & cb & HAb & Hcb & Hidxb).
    destruct (pr_entry _ _ _ Hi _ _ _ HAb) as (Hfdb&_&cb'&back'&Hcb'&_&_&Hback'&Hbf&_). simplify_eq.
    rewrite Hidxb, Nat2Z.id, Hback in Hback'. injection Hback' as <-.
    assert (Channel.index_ cb = len (pollfds_ p) - 1) as Hib by lia.
    assert (Channel.fd_ c <> fd_b) as Hnb by (intros <-; simplify_eq; lia).
    rewrite Hbf, decode_encode by done.
    rewrite lookup_delete_ne by done. rewrite (pr_channels _ _ _ Hi), lookup_fmap, HAb. simpl.
    rewrite (chan_deref_ok _ _ _ Hcb). simpl. eexists _, _. split; [done|].
    split; [by apply index_only_insert|].
    split; [|rewrite lookup_insert_ne; [done|intros ->; apply Hnb; by simplify_eq]].
    rewrite <-(pr_channels _ _ _ Hi). eapply inv_remove_swap; eauto. unfold len in *. lia.
Qed.

Lemma poll_asked_same p conds :
  p_asked (mk (channels_ p) (kernel_poll (pollfds_ p) conds)) = p_asked p.
Proof.
  cbn [p_asked PollPoller_ops pollfds_]. f_equal. fold (slots (kernel_poll (pollfds_ p) conds)) (slots (pollfds_ p)).
  induction (pollfds_ p) as [|pfd l IH]; [done|]. unfold slots, kernel_poll in *. simpl.
  case_bool_decide; [|f_equal]; exact IH.
Qed.

Lemma polled_range pfds conds pfd :
  ready_ok conds -> pfd ∈ kernel_poll pfds conds -> 0 <= pfd_revents pfd.
Proof.
  intros Hr (pfd0 & -> & _)%list_elem_of_fmap. simpl. case_bool_decide; [done|].
  apply Z.land_nonneg. left. by apply cond_bits_range.
Qed.

Lemma poll_poll A p σ conds :
  inv A p σ -> ready_ok conds ->
  exists p' σ' active delivered, poll p σ (Ready conds) = Done (p', σ', active) /\
    inv A p' σ' /\ p_asked p' = p_asked p /\ delivered ≡ₚ reports (p_asked p) always conds /\
    Forall2 (fun a r => fst <$> A !! r.1 = Some a /\
               σ' !! a = Channel.set_revents r.2 <$> σ !! a) active delivered /\
    (forall b, b ∉ active -> σ' !! b = σ !! b).
Proof.
  intros Hi Hr. set (pfds := kernel_poll (pollfds_ p) conds).
  pose proof (reported_nodup A p σ conds Hi) as Hnd. pose proof (reported_ready A p σ conds Hi Hr) as Hperm.
  fold pfds in Hnd, Hperm.
  assert (forall r, r ∈ reported pfds -> exists a e c, A !! r.1 = Some (a, e) /\ σ !! a = Some c /\ Channel.fd_ c = r.1)
    as Hin.
  { intros [fd r] Hin. rewrite Hperm in Hin. apply reports_elem in Hin as (m & Hm & _); [|apply Hr].
    apply (poll_asked_lookup A p σ) in Hm as (_ & a & HA); [|done]. simpl.
    destruct (pr_entry _ _ _ Hi fd a m HA) as (_&_&c&_&Hc&Hfd&_). by exists a, m, c. }
  set (l := (fun r : Z * Z => (addr_of A r.1, r.2)) <$> reported pfds).
  exists (mk (channels_ p) pfds), (mark σ l), l.*1, (reported pfds).
  split; [|split; [|split; [apply poll_asked_same|split; [done|]]]].
  - unfold poll. fold pfds. rewrite (pr_channels _ _ _ Hi).
    rewrite (poll_fill_ok A σ pfds (len (filter (fun pfd => pfd_revents pfd ≠ 0) pfds)) []); [| | |done].
    + case_bool_decide as Hn; [done|].
      assert (filter (fun pfd => pfd_revents pfd ≠ 0) pfds = []) as Hnil.
      { destruct (filter _ pfds); [done|]. unfold len in Hn. simpl in Hn. lia. }
      unfold l, reported. by rewrite Hnil.
    + intros pfd. by apply polled_range.
    + intros pfd Hpfd Hpos. apply (Hin (pfd_fd pfd, pfd_revents pfd)). apply reported_elem.
      exists pfd. split_and!; try done. lia.
  - eapply poll_inv_frame; [by apply inv_kernel_poll|apply mark_frame].
  - split; [|intros b Hb; by apply mark_other]. apply mark_delivered; [done| |].
    + intros r (a & e & c & -> & _)%Hin. eauto.
    + intros fd fd' a e e'. by apply (poll_same_addr A p σ).
Qed.

(** A channel whose descriptor is not watched for it has no slot. *)
Lemma poll_update_stray A p σ a c :
  inv A p σ -> σ !! a = Some c -> fst <$> A !! Channel.fd_ c <> Some a ->
  is_Some (A !! Channel.fd_ c) \/ 0 <= Channel.index_ c ->
  updateChannel p σ a = Fault AssertFailure.
Proof.
  intros Hi Hc HA Hor. unfold updateChannel. rewrite (chan_deref_ok _ _ _ Hc). simpl.
  rewrite (pr_channels _ _ _ Hi), lookup_fmap.
  case_bool_decide as Hidx.
  - destruct Hor as [[[b e] Hb]|?]; [|lia]. by rewrite Hb.
  - destruct (A !! Channel.fd_ c) as [[b e]|]; simpl in *; [|done].
    by rewrite (bool_decide_eq_false_2 (Some b = Some a)) by done.
Qed.

Lemma poll_remove_stray A p σ a c :
  inv A p σ -> σ !! a = Some c -> fst <$> A !! Channel.fd_ c <> Some a ->
  removeChannel p σ a = Fault AssertFailure.
Proof.
  intros Hi Hc HA. unfold removeChannel. rewrite (chan_deref_ok _ _ _ Hc). simpl.
  rewrite (pr_channels _ _ _ Hi), lookup_fmap.
  destruct (A !! Channel.fd_ c) as [[b e]|]; simpl in *; [|done].
  by rewrite (bool_decide_eq_false_2 (Some b = Some a)) by done.
Qed.

Lemma poll_inv_init σ : inv ∅ init σ.
Proof. by constructor. Qed.

Lemma poll_has A p σ a c :
  inv A p σ -> σ !! a = Some c ->
  hasChannel p σ a = Done (bool_decide (fst <$> A !! Channel.fd_ c = Some a)).
Proof.
  intros Hi Hc. unfold hasChannel. rewrite (chan_deref_ok _ _ _ Hc). simpl.
  by rewrite (pr_channels _ _ _ Hi), lookup_fmap.
Qed.
End PollPollerFacts.

Global Instance PollPoller_laws : PollerLaws PollPoller.t.
Proof.
  refine {| repr := PollPollerFacts.inv; may_refuse := False |}.
  - exact PollPollerFacts.poll_inv_init.
  - exact PollPollerFacts.poll_inv_frame.
  - intros A p σ fd a e Hi HA. destruct (PollPollerFacts.pr_entry _ _ _ Hi _ _ _ HA) as (_&?&c&_&?&?&_). eauto.
  - intros A p σ Hi. rewrite (PollPollerFacts.poll_asked A p σ Hi). split.
    + intros fd a e HA Hz. apply PollPollerFacts.enabled_lookup. eauto.
    + intros fd e [_ ?]%PollPollerFacts.enabled_lookup. done.
  - left. by apply PollPollerFacts.poll_update_new.
  - left. by eapply PollPollerFacts.poll_update_old.
  - exact PollPollerFacts.poll_update_stray.
  - intros A p σ a c Hi Hc Hn HA.
    destruct (PollPollerFacts.poll_remove A p σ a c Hi Hc Hn HA) as (p' & σ' & ? & ? & ? & _). eauto.
  - exact PollPollerFacts.poll_remove_stray.
  - exact PollPollerFacts.poll_has.
  - done.
  - intros A p σ conds Hi Hr.
    destruct (PollPollerFacts.poll_poll A p σ conds Hi Hr) as (p' & σ' & active & d & He & Hi' & Has & Hd & Hf & Ho).
    exists p', σ', active, d. split_and!; try done; [by rewrite Hd|].
    intros ->. by apply Permutation_nil_l in Hd.
Defined.
Global Instance PollPoller_unrefused : Unrefused PollPoller.t.
Proof. intros []. Qed.

(** ** EPollPoller implements the interface *)
Module EPollPollerFacts.
Import EPollPoller.
Section EPollPollerFacts.
Context {K : Type} `{EpollLaws K}.
Implicit Types (A : watches) (p : t K) (σ : channels).

Record inv A p σ : Prop := {
  er_channels : channels_ p = fst <$> A;
  er_entry fd a e : A !! fd = Some (a, e) ->
    0 <= e < 32768 /\
    exists c, σ !! a = Some c /\ Channel.fd_ c = fd /\
      (Channel.index_ c = kAdded /\ interest (epollfd_ p) !! fd = Some (a, e) \/
       Channel.index_ c = kDeleted /\ e = 0 /\ interest (epollfd_ p) !! fd = None);
  er_none fd : A !! fd = None -> interest (epollfd_ p) !! fd = None;
  er_size : 0 < events_size p;
}.

Lemma epoll_inv_init σ : inv ∅ init σ.
Proof. constructor; simpl; try done. intros fd _. by rewrite epoll_create_empty. Qed.

Lemma epoll_inv_frame A p σ σ' : inv A p σ -> poller_frame A σ σ' -> inv A p σ'.
Proof.
  intros Hi Hf. constructor; try apply Hi. intros fd a e HA.
  destruct (er_entry _ _ _ Hi fd a e HA) as (? & c & Hc & Hfd & Hidx).
  destruct (Hf fd a e c HA Hc) as (c' & Hc' & Hfd' & Hidx'). split; [done|].
  exists c'. rewrite Hidx'. split_and!; [done|congruence|done].
Qed.

Lemma epoll_same_addr A p σ fd fd' a e e' :
  inv A p σ -> A !! fd = Some (a, e) -> A !! fd' = Some (a, e') -> fd = fd'.
Proof.
  intros Hi (_ & c & Hc & <- & _)%(er_entry _ _ _ Hi) (_ & c' & Hc' & <- & _)%(er_entry _ _ _ Hi).
  by simplify_eq.
Qed.

(** The interest list and the channel change together, at one descriptor. *)
Lemma inv_set A p σ a c k e i :
  inv A p σ -> σ !! a = Some c -> 0 <= e < 32768 ->
  (forall e', A !! Channel.fd_ c = Some e' -> e'.1 = a) ->
  (forall fd' e', A !! fd' = Some (a, e') -> fd' = Channel.fd_ c) ->
  (i = kAdded /\ interest k = <[Channel.fd_ c := (a, e)]> (interest (epollfd_ p)) \/
   i = kDeleted /\ e = 0 /\ interest k = delete (Channel.fd_ c) (interest (epollfd_ p))) ->
  inv (<[Channel.fd_ c := (a, e)]> A) (mk (<[Channel.fd_ c := a]> (channels_ p)) k (events_size p))
    (<[a := Channel.set_index i c]> σ).
Proof.
  intros Hi Hc He Hown Huniq Hk.
  assert (forall fd', fd' <> Channel.fd_ c -> interest k !! fd' = interest (epollfd_ p) !! fd') as Hother.
  { intros fd' Hne. destruct Hk as [(_ & ->)|(_ & _ & ->)];
      [by rewrite lookup_insert_ne|by rewrite lookup_delete_ne]. }
  constructor; simpl.
  - by rewrite (er_channels _ _ _ Hi), fmap_insert.
  - intros fd a' e' [[<- [= <- <-]]|[Hne HA']]%lookup_insert_Some.
    + split; [done|]. exists (Channel.set_index i c). rewrite lookup_insert_eq. split_and!; try done. simpl.
      destruct Hk as [(-> & ->)|(-> & -> & ->)]; [left|right];
        by rewrite ?lookup_insert_eq, ?lookup_delete_eq.
    + destruct (er_entry _ _ _ Hi fd a' e' HA') as (? & c' & Hc' & Hfd' & Hidx). split; [done|].
      exists c'. rewrite Hother by done. rewrite lookup_insert_ne; [done|].
      intros <-. by apply Hne; symmetry; eapply Huniq.
  - intros fd [HA' Hne]%lookup_insert_None. rewrite Hother by done. by apply (er_none _ _ _ Hi).
  - apply Hi.
Qed.

Lemma u32_small x : 0 <= x < 32768 -> u32 x = x.
Proof. intros. zlia. Qed.

(** The first registration of a channel; the kernel decides. *)
Lemma epoll_update_new A p σ a c :
  inv A p σ -> σ !! a = Some c -> chan_ok c -> Channel.index_ c = -1 -> A !! Channel.fd_ c = None ->
  let '(k, ok) := epoll_ctl (epollfd_ p) EPOLL_CTL_ADD (Channel.fd_ c) (a, Channel.events_ c) in
  if ok then
    exists p' σ', updateChannel p σ a = Done (p', σ') /\ index_only σ σ' /\ epollfd_ p' = k /\
      interest k = <[Channel.fd_ c := (a, Channel.events_ c)]> (interest (epollfd_ p)) /\
      inv (<[Channel.fd_ c := (a, Channel.events_ c)]> A) p' σ'
  else updateChannel p σ a = Fault LogFatal.
Proof.
  intros Hi Hc Hok Hidx HA. unfold updateChannel. rewrite (chan_deref_ok _ _ _ Hc). simpl.
  rewrite bool_decide_eq_true_2 by (left; done). rewrite bool_decide_eq_true_2 by done.
  rewrite bool_decide_eq_true_2 by (rewrite (er_channels _ _ _ Hi), lookup_fmap, HA; done). simpl.
  destruct Hok as [Hfd He]. unfold update. simpl. rewrite u32_small by done.
  pose proof (epoll_add (epollfd_ p) (Channel.fd_ c) (a, Channel.events_ c) (er_none _ _ _ Hi _ HA)) as Hk'.
  destruct (epoll_ctl (epollfd_ p) EPOLL_CTL_ADD (Channel.fd_ c) (a, Channel.events_ c)) as [k' []]; [|done].
  simpl in Hk' |- *. eexists _, _. split; [done|]. split; [by apply index_only_insert|]. split; [done|]. split; [done|].
  apply inv_set; [done..| | |by left].
  - intros e' He'. congruence.
  - intros fd' e' (_ & c' & Hc' & _ & Hi')%(er_entry _ _ _ Hi). simplify_eq.
    unfold kAdded, kDeleted in Hi'. lia.
Qed.

(** What [updateChannel] asks of the kernel for a watched channel, and what the
    interest list is then. *)
Definition next_op (k : K) (fd m : Z) : epoll_op :=
  if bool_decide (is_Some (interest k !! fd))
  then if bool_decide (m = 0) then EPOLL_CTL_DEL else EPOLL_CTL_MOD
  else EPOLL_CTL_ADD.
Definition next_interest (k : K) (fd a m : Z) : gmap Z (Z * Z) :=
  match next_op k fd m with
  | EPOLL_CTL_DEL => delete fd (interest k)
  | _ => <[fd := (a, m)]> (interest k)
  end.

Lemma epoll_update_old A p σ a c e :
  inv A p σ -> σ !! a = Some c -> chan_ok c -> A !! Channel.fd_ c = Some (a, e) ->
  let '(k, ok) := epoll_ctl (epollfd_ p) (next_op (epollfd_ p) (Channel.fd_ c) (Channel.events_ c))
                    (Channel.fd_ c) (a, Channel.events_ c) in
  if ok then
    exists p' σ', updateChannel p σ a = Done (p', σ') /\ index_only σ σ' /\ epollfd_ p' = k /\
      interest k = next_interest (epollfd_ p) (Channel.fd_ c) a (Channel.events_ c) /\
      inv (<[Channel.fd_ c := (a, Channel.events_ c)]> A) p' σ'
  else next_op (epollfd_ p) (Channel.fd_ c) (Channel.events_ c) <> EPOLL_CTL_DEL /\
       updateChannel p σ a = Fault LogFatal.
Proof.
  intros Hi Hc [Hfd He] HA. unfold updateChannel. rewrite (chan_deref_ok _ _ _ Hc). simpl.
  assert (channels_ p !! Channel.fd_ c = Some a) as Hch by (by rewrite (er_channels _ _ _ Hi), lookup_fmap, HA).
  assert (channels_ p = <[Channel.fd_ c := a]> (channels_ p)) as Hsame by (symmetry; by apply insert_id).
  assert (forall e', A !! Channel.fd_ c = Some e' -> e'.1 = a) as Hown by (intros e' He'; by simplify_eq).
  assert (forall fd' e', A !! fd' = Some (a, e') -> fd' = Channel.fd_ c) as Huniq.
  { intros fd' e' HA'. by eapply epoll_same_addr. }
  destruct (er_entry _ _ _ Hi _ _ _ HA) as (_ & c' & Hc' & _ & Hst). simplify_eq. unfold next_interest, next_op.
  destruct Hst as [[Hidx Hin]|(Hidx & -> & Hin)]; rewrite Hidx, Hin; simpl.
  - registered Hch. rewrite isNoneEvent_spec. case_bool_decide as Hn; unfold update; simpl; rewrite u32_small by done.
    + destruct (epoll_del (epollfd_ p) (Channel.fd_ c) (a, Channel.events_ c)) as (k' & -> & Hk'); [by eexists|].
      simpl. eexists _, _. split; [done|]. split; [by apply index_only_insert|]. split; [done|]. split; [done|].
      rewrite Hsame. apply inv_set; try done. by right.
    + pose proof (epoll_mod (epollfd_ p) (Channel.fd_ c) (a, Channel.events_ c) ltac:(by eexists)) as Hk'.
      destruct (epoll_ctl _ _ _ _) as [k' []]; [|done].
      simpl in Hk' |- *. eexists _, _. split; [done|]. split; [apply index_only_refl|]. split; [done|]. split; [done|].
      assert (σ = <[a := Channel.set_index kAdded c]> σ) as ->.
      { symmetry. apply insert_id. rewrite Hc. f_equal. rewrite <-Hidx. by destruct c. }
      rewrite Hsame. apply inv_set; try done. by left.
  - registered Hch. unfold update. simpl. rewrite u32_small by done.
    pose proof (epoll_add (epollfd_ p) (Channel.fd_ c) (a, Channel.events_ c) Hin) as Hk'.
    destruct (epoll_ctl _ _ _ _) as [k' []]; [|done].
    simpl in Hk' |- *. eexists _, _. split; [done|]. split; [by apply index_only_insert|]. split; [done|]. split; [done|].
    rewrite Hsame. apply inv_set; try done. by left.
Qed.

Lemma interest_sub A p σ : inv A p σ -> interest (epollfd_ p) ⊆ A.
Proof.
  intros Hi. apply map_subseteq_spec. intros fd [b e] Hin. destruct (A !! fd) as [[a e']|] eqn:HA.
  - destruct (er_entry _ _ _ Hi fd a e' HA) as (_ & c & _ & _ & [[_ Hin']|(_ & _ & Hin')]); congruence.
  - apply (er_none _ _ _ Hi) in HA. congruence.
Qed.

Lemma epoll_asked A p σ : inv A p σ -> asked_ok A (p_asked p).
Proof.
  intros Hi. cbn [p_asked EPollPoller_ops]. split.
  - intros fd a e HA Hz. destruct (er_entry _ _ _ Hi fd a e HA) as (_ & c & _ & _ & [[_ Hin]|(_ & ? & _)]); [|done].
    by rewrite lookup_fmap, Hin.
  - intros fd e. rewrite lookup_fmap. destruct (interest (epollfd_ p) !! fd) as [[b e']|] eqn:Hin; [|done].
    intros [= <-]. exists b. eapply lookup_weaken; [exact Hin|by apply (interest_sub A p σ)].
Qed.

Lemma epoll_update_stray A p σ a c :
  inv A p σ -> σ !! a = Some c -> fst <$> A !! Channel.fd_ c <> Some a ->
  is_Some (A !! Channel.fd_ c) \/ 0 <= Channel.index_ c ->
  updateChannel p σ a = Fault AssertFailure.
Proof.
  intros Hi Hc HA Hor. unfold updateChannel. rewrite (chan_deref_ok _ _ _ Hc). simpl.
  rewrite (er_channels _ _ _ Hi), lookup_fmap. unfold kNew, kDeleted.
  case_bool_decide as H1; [case_bool_decide as H2|].
  - destruct Hor as [[[b e] Hb]|?]; [|lia]. by rewrite Hb.
  - destruct (A !! Channel.fd_ c) as [[b e]|]; simpl in *; [|done].
    by rewrite (bool_decide_eq_false_2 (Some b = Some a)).
  - destruct (A !! Channel.fd_ c) as [[b e]|]; simpl in *; [|done].
    by rewrite (bool_decide_eq_false_2 (Some b = Some a)).
Qed.

Lemma epoll_remove_stray A p σ a c :
  inv A p σ -> σ !! a = Some c -> fst <$> A !! Channel.fd_ c <> Some a ->
  removeChannel p σ a = Fault AssertFailure.
Proof.
  intros Hi Hc HA. unfold removeChannel. rewrite (chan_deref_ok _ _ _ Hc). simpl.
  rewrite (er_channels _ _ _ Hi), lookup_fmap.
  destruct (A !! Channel.fd_ c) as [[b e]|]; simpl in *; [|done].
  by rewrite (bool_decide_eq_false_2 (Some b = Some a)) by done.
Qed.

Lemma epoll_remove A p σ a c :
  inv A p σ -> σ !! a = Some c -> Channel.isNoneEvent c = true -> A !! Channel.fd_ c = Some (a, 0) ->
  exists p', removeChannel p σ a = Done (p', <[a := Channel.set_index kNew c]> σ) /\
    inv (delete (Channel.fd_ c) A) p' (<[a := Channel.set_index kNew c]> σ).
Proof.
  intros Hi Hc Hn HA. unfold removeChannel. rewrite (chan_deref_ok _ _ _ Hc). simpl.
  assert (channels_ p !! Channel.fd_ c = Some a) as Hch by (by rewrite (er_channels _ _ _ Hi), lookup_fmap, HA).
  registered Hch. rewrite Hn. simpl.
  destruct (er_entry _ _ _ Hi _ _ _ HA) as (_ & c' & Hc' & _ & Hst). simplify_eq.
  assert (exists k', (if bool_decide (Channel.index_ c = kAdded)
      then update (mk (delete (Channel.fd_ c) (channels_ p)) (epollfd_ p) (events_size p)) EPOLL_CTL_DEL a c
      else mret (mk (delete (Channel.fd_ c) (channels_ p)) (epollfd_ p) (events_size p))) =
      Done (mk (delete (Channel.fd_ c) (channels_ p)) k' (events_size p)) /\
      interest k' = delete (Channel.fd_ c) (interest (epollfd_ p))) as (k' & Hk & Hin).
  { destruct Hst as [[Hidx Hin]|(Hidx & _ & Hin)]; rewrite Hidx; simpl.
    - unfold update. simpl.
      destruct (epoll_del (epollfd_ p) (Channel.fd_ c) (a, u32 (Channel.events_ c))) as (k' & -> & Hk'); eauto.
    - exists (epollfd_ p). split; [done|]. by rewrite delete_id. }
  rewrite (bool_decide_eq_true_2 (_ \/ _)) by (destruct Hst as [[? _]|[? _]]; auto). simpl. rewrite Hk. simpl.
  eexists. split; [done|]. constructor; simpl; try apply Hi.
  - by rewrite (er_channels _ _ _ Hi), fmap_delete.
  - intros fd a' e [Hne HA']%lookup_delete_Some.
    destruct (er_entry _ _ _ Hi fd a' e HA') as (? & c' & Hc' & Hfd' & Hidx). split; [done|].
    exists c'. rewrite Hin, lookup_delete_ne by done. rewrite lookup_insert_ne; [done|].
    intros <-. by apply Hne; eapply epoll_same_addr.
  - intros fd. rewrite Hin. intros [->|HA']%lookup_delete_None; [by rewrite lookup_delete_eq|].
    apply lookup_delete_None. right. by apply Hi.
Qed.

Lemma epoll_fill_ok (A : watches) σ (l : list (Z * Z)) active :
  (forall a r, (a, r) ∈ l -> exists c e, σ !! a = Some c /\ A !! Channel.fd_ c = Some (a, e)) ->
  fillActiveChannels (fst <$> A) σ l active = Done (mark σ l, active ++ l.*1).
Proof.
  revert σ active. induction l as [|[a r] l IH]; intros σ active Hl; simpl; [by rewrite app_nil_r|].
  destruct (Hl a r) as (c & e & Hc & HA); [set_solver|]. rewrite (chan_deref_ok _ _ _ Hc). simpl.
  assert ((fst <$> A) !! Channel.fd_ c = Some a) as Hch by (by rewrite lookup_fmap, HA).
  registered Hch. rewrite IH.
  - by rewrite <-app_assoc, (alter_insert_lookup σ a c (Channel.set_revents r)).
  - intros a' r' Hin. destruct (Hl a' r') as (c' & e' & Hc' & HA'); [set_solver|].
    destruct (decide (a' = a)) as [->|Hne].
    + exists (Channel.set_revents r c), e. by rewrite lookup_insert_eq.
    + exists c', e'. by rewrite lookup_insert_ne.
Qed.

(** The kernel reports the first [maxevents] descriptors due by their channels. *)
Lemma epoll_wait_delivered A p σ conds n :
  inv A p σ ->
  kernel_epoll_wait (epollfd_ p) n conds =
    (fun r : Z * Z => (addr_of A r.1, r.2)) <$> take (Z.to_nat n) (reports (p_asked p) always conds).
Proof.
  intros Hi. unfold kernel_epoll_wait, reports. rewrite fmap_take. f_equal. cbn [p_asked EPollPoller_ops].
  induction conds as [|[fd r] conds IH]; [done|]. cbn [omap list_omap]. simpl. rewrite lookup_fmap.
  destruct (interest (epollfd_ p) !! fd) as [[b e]|] eqn:Hin; simpl; [|exact IH].
  case_bool_decide; [exact IH|]. simpl. f_equal; [|exact IH].
  unfold addr_of. by rewrite (lookup_weaken _ _ _ _ Hin (interest_sub A p σ Hi)).
Qed.

Lemma epoll_poll A p σ conds :
  inv A p σ -> ready_ok conds ->
  exists p' σ' active delivered, poll p σ (Ready conds) = Done (p', σ', active) /\
    inv A p' σ' /\ epollfd_ p' = epollfd_ p /\
    delivered = take (Z.to_nat (events_size p)) (reports (p_asked p) always conds) /\
    (0 < events_size p' /\ (len delivered = events_size p -> events_size p' = 2 * events_size p)) /\
    Forall2 (fun a r => fst <$> A !! r.1 = Some a /\
               σ' !! a = Channel.set_revents r.2 <$> σ !! a) active delivered /\
    (forall b, b ∉ active -> σ' !! b = σ !! b).
Proof.
  intros Hi Hr. set (d := take (Z.to_nat (events_size p)) (reports (p_asked p) always conds)).
  assert (d `sublist_of` reports (p_asked p) always conds) as Hsub by apply sublist_take.
  assert (forall r, r ∈ d -> exists a e, A !! r.1 = Some (a, e)) as HA.
  { intros [fd r] Hin. eapply sublist_submseteq, elem_of_submseteq in Hsub; [|exact Hin].
    apply reports_elem in Hsub as (m & Hm & _); [|apply Hr].
    destruct (proj2 (epoll_asked A p σ Hi) fd m Hm) as [a HA]. eauto. }
  set (l := (fun r : Z * Z => (addr_of A r.1, r.2)) <$> d).
  assert (len l = len d) as Hld by (unfold len, l; by rewrite length_fmap).
  pose proof (er_size _ _ _ Hi) as Hsz.
  exists (mk (channels_ p) (epollfd_ p)
    (if bool_decide (0 < len l) then if bool_decide (len l = events_size p) then events_size p * 2
     else events_size p else events_size p)), (mark σ l), l.*1, d.
  split; [|split; [|split; [done|split; [done|split; [|split]]]]].
  - unfold poll. rewrite (epoll_wait_delivered A p σ) by done. fold d l. case_bool_decide as Hn.
    + rewrite (bool_decide_eq_true_2 (_ <= _)).
      2: { unfold len, l, d. rewrite length_fmap, length_take. lia. }
      simpl. rewrite (er_channels _ _ _ Hi). rewrite epoll_fill_ok; [done|].
      intros a r ([fd r'] & [= -> ->] & Hin)%list_elem_of_fmap. destruct (HA _ Hin) as (a & e & Ha). simpl in *.
      unfold addr_of. rewrite Ha. destruct (er_entry _ _ _ Hi fd a e Ha) as (_ & c & Hc & <- & _). eauto.
    + assert (l = []) as -> by (destruct l; [done|]; unfold len in Hn; simpl in Hn; lia). by destruct p.
  - eapply epoll_inv_frame; [|apply mark_frame]. destruct Hi as [? ? ? ?]. constructor; simpl; try done.
    repeat case_bool_decide; lia.
  - simpl. rewrite Hld. repeat case_bool_decide; lia.
  - apply mark_delivered.
    + eapply sublist_NoDup; [apply (reports_nodup (p_asked p) always conds), Hr|by apply fmap_sublist].
    + intros r Hin. destruct (HA r Hin) as (a & e & ->). eauto.
    + intros fd fd' a e e'. by apply (epoll_same_addr A p σ).
  - intros b Hb. by apply mark_other.
Qed.

Lemma epoll_has A p σ a c :
  inv A p σ -> σ !! a = Some c ->
  hasChannel p σ a = Done (bool_decide (fst <$> A !! Channel.fd_ c = Some a)).
Proof.
  intros Hi Hc. unfold hasChannel. rewrite (chan_deref_ok _ _ _ Hc). simpl.
  by rewrite (er_channels _ _ _ Hi), lookup_fmap.
Qed.
End EPollPollerFacts.
End EPollPollerFacts.

Global Instance EPollPoller_laws {K} `{EpollLaws K} : PollerLaws (EPollPoller.t K).
Proof.
  refine {| repr := EPollPollerFacts.inv; may_refuse := epoll_refuses K |}.
  - exact EPollPollerFacts.epoll_inv_init.
  - exact EPollPollerFacts.epoll_inv_frame.
  - intros A p σ fd a e Hi HA. destruct (EPollPollerFacts.er_entry _ _ _ Hi _ _ _ HA) as (?&c&?&?&_). eauto.
  - exact EPollPollerFacts.epoll_asked.
  - intros A p σ a c Hi Hc Hok _ Hidx HA _.
    pose proof (EPollPollerFacts.epoll_update_new A p σ a c Hi Hc Hok Hidx HA) as Hu.
    destruct (epoll_ctl _ _ _ _) as [k []] eqn:Hk.
    + destruct Hu as (p' & σ' & ? & ? & _ & _ & ?). left. eauto.
    + right. split; [|exact Hu]. eexists (EPollPoller.epollfd_ p), _, _. left.
      rewrite Hk. split; [|done]. by apply (EPollPollerFacts.er_none _ _ _ Hi).
  - intros A p σ a c e Hi Hc Hok HA.
    pose proof (EPollPollerFacts.epoll_update_old A p σ a c e Hi Hc Hok HA) as Hu.
    destruct (epoll_ctl _ _ _ _) as [k []] eqn:Hk.
    + destruct Hu as (p' & σ' & ? & ? & _ & _ & ?). left. eauto.
    + destruct Hu as [Hop Hu]. right. split; [|exact Hu]. eexists (EPollPoller.epollfd_ p), _, _.
      unfold EPollPollerFacts.next_op in Hk, Hop. case_bool_decide as Hin; [case_bool_decide; [done|]|]; rewrite Hk; simpl.
      * right. by split; [|reflexivity].
      * left. split; [|reflexivity]. by apply eq_None_not_Some.
  - exact EPollPollerFacts.epoll_update_stray.
  - intros A p σ a c Hi Hc Hn HA. destruct (EPollPollerFacts.epoll_remove A p σ a c Hi Hc Hn HA) as (p' & He & Hi').
    eexists p', _. split; [exact He|]. split; [by apply index_only_insert|done].
  - exact EPollPollerFacts.epoll_remove_stray.
  - exact EPollPollerFacts.epoll_has.
  - done.
  - intros A p σ conds Hi Hr.
    destruct (EPollPollerFacts.epoll_poll A p σ conds Hi Hr) as (p' & σ' & active & d & He & Hi' & Hk & -> & _ & Hf & Ho).
    eexists p', σ', active, _. split; [exact He|]. split; [done|]. split; [cbn; by rewrite Hk|]. split; [done|].
    split; [apply sublist_submseteq, sublist_take|]. split; [|by split].
    pose proof (EPollPollerFacts.er_size _ _ _ Hi) as Hsz. intros Hd%(f_equal length).
    rewrite length_take in Hd. destruct (reports _ _ _); [done|]. simpl in Hd. lia.
Defined.

(** ** Clients: channels changing their interest through a poller *)
Inductive chan_op : Type := EnableReading | DisableReading | EnableWriting | DisableWriting | DisableAll.

Definition chan_apply (o : chan_op) : Channel.t -> Channel.t :=
  match o with
  | EnableReading => Channel.enableReading
  | DisableReading => Channel.disableReading
  | EnableWriting => Channel.enableWriting
  | DisableWriting => Channel.disableWriting
  | DisableAll => Channel.disableAll
  end.

Section Client.
Context {P : Type} `{PollerOps P}.

(** [events_ op= ...; update();] *)
Definition channel_update (p : P) (σ : channels) (a : Z) (o : chan_op) : outcome (P * channels) :=
  c ← deref σ a;
  p_updateChannel p (<[a := Channel.set_addedToLoop true (chan_apply o c)]> σ) a.

Definition channel_remove (p : P) (σ : channels) (a : Z) : outcome (P * channels) :=
  c ← deref σ a;
  assert_ (Channel.isNoneEvent c);;
  p_removeChannel p (<[a := Channel.set_addedToLoop false c]> σ) a.
End Client.

Section ClientFacts.
Context {P : Type} `{PollerLaws P}.
Implicit Types (A : watches) (p : P) (σ : channels).

(** A channel that no poller has seen yet, on its own descriptor. *)
Definition fresh A σ (a : Z) (c : Channel.t) : Prop :=
  σ !! a = Some c /\ Channel.index_ c = -1 /\ A !! Channel.fd_ c = None.

(** Every reachable configuration of a poller and its clients. *)
Inductive reach : watches -> P -> channels -> Prop :=
  | reach_init : reach ∅ p_init ∅
  | reach_new A p σ a fd :
      reach A p σ -> σ !! a = None -> 0 <= fd < two_31 -> reach A p (<[a := Channel.init fd]> σ)
  | reach_add A p σ a c o p' σ' :
      reach A p σ -> fresh A σ a c -> Channel.isNoneEvent (chan_apply o c) = false ->
      Z.of_nat (size A) < two_31 - 1 -> channel_update p σ a o = Done (p', σ') ->
      reach (<[Channel.fd_ c := (a, Channel.events_ (chan_apply o c))]> A) p' σ'
  | reach_update A p σ a c e o p' σ' :
      reach A p σ -> σ !! a = Some c -> A !! Channel.fd_ c = Some (a, e) ->
      channel_update p σ a o = Done (p', σ') ->
      reach (<[Channel.fd_ c := (a, Channel.events_ (chan_apply o c))]> A) p' σ'
  | reach_remove A p σ a c p' σ' :
      reach A p σ -> σ !! a = Some c -> A !! Channel.fd_ c = Some (a, 0) ->
      channel_remove p σ a = Done (p', σ') -> reach (delete (Channel.fd_ c) A) p' σ'
  | reach_poll A p σ conds p' σ' active :
      reach A p σ -> ready_ok conds -> p_poll p σ (Ready conds) = Done (p', σ', active) ->
      reach A p' σ'.

(** Channels carry the events they are watched for. *)
Definition coherent A σ : Prop :=
  (forall a c, σ !! a = Some c -> 0 <= Channel.fd_ c < two_31 /\ 0 <= Channel.events_ c < 8) /\
  (forall fd a e, A !! fd = Some (a, e) -> exists c, σ !! a = Some c /\ Channel.fd_ c = fd /\ Channel.events_ c = e).

Lemma chan_apply_same o c :
  Channel.fd_ (chan_apply o c) = Channel.fd_ c /\ Channel.index_ (chan_apply o c) = Channel.index_ c.
Proof. by destruct o. Qed.

Lemma chan_apply_range o c : 0 <= Channel.events_ c < 8 -> 0 <= Channel.events_ (chan_apply o c) < 8.
Proof.
  intros He. destruct c as [fd ev]. simpl in He.
  assert (ev = 0 \/ ev = 1 \/ ev = 2 \/ ev = 3 \/ ev = 4 \/ ev = 5 \/ ev = 6 \/ ev = 7) as Hev by lia.
  destruct o; destruct_or! Hev; subst ev; vm_compute; split; congruence.
Qed.

Lemma index_only_coherent A σ σ' : index_only σ σ' -> coherent A σ -> coherent A σ'.
Proof.
  intros Ho [H1 H2]. split.
  - intros a c Hc. destruct (Ho a) as [Heq|(c0 & i & Hc0 & Hc')].
    + apply (H1 a). congruence.
    + rewrite Hc in Hc'. injection Hc' as ->. by apply (H1 a c0).
  - intros fd a e (c & Hc & ? & ?)%H2. destruct (Ho a) as [Heq|(c0 & i & Hc0 & Hc')].
    + exists c. by rewrite Heq.
    + simplify_eq. eexists. split; [exact Hc'|]. done.
Qed.

(** Storing a new mask in a channel, just before the poller is told. *)
Lemma stored_frame A σ a c o :
  σ !! a = Some c ->
  poller_frame A σ (<[a := Channel.set_addedToLoop true (chan_apply o c)]> σ).
Proof.
  intros Hc fd a' e c' _ Hc'. destruct (decide (a' = a)) as [->|Hne].
  - rewrite lookup_insert_eq. eexists. split; [done|]. simplify_eq. simpl. apply chan_apply_same.
  - rewrite lookup_insert_ne by done. by exists c'.
Qed.

Lemma stored_ok A p σ a c o :
  repr A p σ -> coherent A σ -> σ !! a = Some c ->
  repr A p (<[a := Channel.set_addedToLoop true (chan_apply o c)]> σ) /\
  chan_ok (Channel.set_addedToLoop true (chan_apply o c)) /\
  Channel.fd_ (chan_apply o c) = Channel.fd_ c /\ Channel.index_ (chan_apply o c) = Channel.index_ c.
Proof.
  intros Hr Hco Hc. pose proof (chan_apply_same o c) as [Hsf Hsi].
  destruct (proj1 Hco a c Hc) as [Hfd He]. pose proof (chan_apply_range o c He). split; [|split; [|done]].
  - eapply repr_frame; [done|by apply stored_frame].
  - unfold chan_ok. simpl. rewrite Hsf. lia.
Qed.

Lemma stored_coherent A σ a c o :
  coherent A σ -> σ !! a = Some c -> (forall fd' e', A !! fd' = Some (a, e') -> fd' = Channel.fd_ c) ->
  coherent (<[Channel.fd_ c := (a, Channel.events_ (chan_apply o c))]> A)
    (<[a := Channel.set_addedToLoop true (chan_apply o c)]> σ).
Proof.
  intros [H1 H2] Hc Huniq. destruct (H1 a c Hc) as [Hfd He].
  pose proof (chan_apply_same o c) as [Hsf _]. split.
  - intros b cb [[<- <-]|[Hne Hb]]%lookup_insert_Some; [|by apply (H1 b)]. simpl.
    rewrite Hsf. split; [done|]. by apply chan_apply_range.
  - intros fd b e [[<- [= <- <-]]|[Hne Hb]]%lookup_insert_Some.
    + rewrite lookup_insert_eq. by eexists.
    + destruct (H2 fd b e Hb) as (cb & Hcb & ? & ?). exists cb. rewrite lookup_insert_ne; [done|].
      intros <-. by apply Hne; symmetry; eapply Huniq.
Qed.

Lemma watch_unique A σ a c fd' e' :
  coherent A σ -> σ !! a = Some c -> A !! fd' = Some (a, e') -> fd' = Channel.fd_ c.
Proof. intros [_ H2] Hc (c' & Hc' & <- & _)%H2. by simplify_eq. Qed.

Lemma fresh_unwatched A σ a c : coherent A σ -> fresh A σ a c -> forall fd' e', A !! fd' <> Some (a, e').
Proof.
  intros Hco (Hc & _ & HA) fd' e' HA'. pose proof (watch_unique _ _ _ _ _ _ Hco Hc HA') as ->. congruence.
Qed.

Lemma update_fresh A p σ a c o :
  repr A p σ -> coherent A σ -> fresh A σ a c -> Channel.isNoneEvent (chan_apply o c) = false ->
  Z.of_nat (size A) < two_31 - 1 ->
  (exists p' σ', channel_update p σ a o = Done (p', σ') /\
    index_only (<[a := Channel.set_addedToLoop true (chan_apply o c)]> σ) σ' /\
    repr (<[Channel.fd_ c := (a, Channel.events_ (chan_apply o c))]> A) p' σ' /\
    coherent (<[Channel.fd_ c := (a, Channel.events_ (chan_apply o c))]> A) σ') \/
  (may_refuse /\ channel_update p σ a o = Fault LogFatal).
Proof.
  intros Hr Hco Hfr Hne Hsz. pose proof (fresh_unwatched _ _ _ _ Hco Hfr) as Hun.
  destruct Hfr as (Hc & Hidx & HA). destruct (stored_ok A p σ a c o Hr Hco Hc) as (Hi' & Hok & Hsf & Hsi).
  unfold channel_update. rewrite (chan_deref_ok _ _ _ Hc). simpl.
  destruct (update_new A p _ a _ Hi' (lookup_insert_eq _ _ _) Hok Hne) as [(p' & σ' & Hu & Ho & Hr')|Hf];
    [simpl; congruence|simpl; by rewrite Hsf|done| |by right].
  simpl in Hr'. rewrite Hsf in Hr'. left. exists p', σ'. split_and!; [done|done|done|].
  eapply index_only_coherent; [done|]. apply stored_coherent; [done|done|]. intros fd' e' HA'. by destruct (Hun fd' e').
Qed.

Lemma update_watched A p σ a c e o :
  repr A p σ -> coherent A σ -> σ !! a = Some c -> A !! Channel.fd_ c = Some (a, e) ->
  (exists p' σ', channel_update p σ a o = Done (p', σ') /\
    index_only (<[a := Channel.set_addedToLoop true (chan_apply o c)]> σ) σ' /\
    repr (<[Channel.fd_ c := (a, Channel.events_ (chan_apply o c))]> A) p' σ' /\
    coherent (<[Channel.fd_ c := (a, Channel.events_ (chan_apply o c))]> A) σ') \/
  (may_refuse /\ channel_update p σ a o = Fault LogFatal).
Proof.
  intros Hr Hco Hc HA. destruct (stored_ok A p σ a c o Hr Hco Hc) as (Hi' & Hok & Hsf & Hsi).
  unfold channel_update. rewrite (chan_deref_ok _ _ _ Hc). simpl.
  destruct (update_old A p _ a _ e Hi' (lookup_insert_eq _ _ _) Hok) as [(p' & σ' & Hu & Ho & Hr')|Hf];
    [simpl; by rewrite Hsf| |by right].
  simpl in Hr'. rewrite Hsf in Hr'. left. exists p', σ'. split_and!; [done|done|done|].
  eapply index_only_coherent; [done|]. apply stored_coherent; [done|done|].
  intros fd' e' HA'. by eapply watch_unique.
Qed.

Lemma remove_watched A p σ a c :
  repr A p σ -> coherent A σ -> σ !! a = Some c -> A !! Channel.fd_ c = Some (a, 0) ->
  exists p' σ', channel_remove p σ a = Done (p', σ') /\
    index_only (<[a := Channel.set_addedToLoop false c]> σ) σ' /\
    repr (delete (Channel.fd_ c) A) p' σ' /\ coherent (delete (Channel.fd_ c) A) σ'.
Proof.
  intros Hr Hco Hc HA. unfold channel_remove. rewrite (chan_deref_ok _ _ _ Hc). simpl.
  assert (Channel.isNoneEvent c = true) as Hn.
  { rewrite isNoneEvent_spec. apply bool_decide_eq_true_2.
    destruct (proj2 Hco _ _ _ HA) as (c' & Hc' & _ & He). by simplify_eq. }
  rewrite Hn. simpl. set (σ1 := <[a := Channel.set_addedToLoop false c]> σ).
  destruct (remove_law A p σ1 a (Channel.set_addedToLoop false c)) as (p' & σ' & He & Ho & Hr').
  - eapply repr_frame; [done|]. intros fd b e cb _ Hb. unfold σ1. destruct (decide (b = a)) as [->|Hne].
    + rewrite lookup_insert_eq. simplify_eq. by eexists.
    + rewrite lookup_insert_ne by done. by exists cb.
  - apply lookup_insert_eq.
  - done.
  - done.
  - exists p', σ'. split_and!; [done|done|done|]. eapply index_only_coherent; [done|]. destruct Hco as [H1 H2]. split.
    + intros b cb [[<- <-]|[Hne Hb]]%lookup_insert_Some; [by apply (H1 a c)|by apply (H1 b)].
    + intros fd b e [Hne Hb]%lookup_delete_Some. destruct (H2 fd b e Hb) as (cb & Hcb & ? & ?).
      exists cb. unfold σ1. rewrite lookup_insert_ne; [done|]. intros <-. simplify_eq.
Qed.

Lemma poll_watched A p σ conds :
  repr A p σ -> coherent A σ -> ready_ok conds ->
  exists p' σ' active delivered, p_poll p σ (Ready conds) = Done (p', σ', active) /\
    repr A p' σ' /\ coherent A σ' /\ p_asked p' = p_asked p /\
    delivered ⊆+ reports (p_asked p) (p_always p) conds /\
    (delivered = [] -> reports (p_asked p) (p_always p) conds = []) /\
    Forall2 (fun a r => fst <$> A !! r.1 = Some a /\
               σ' !! a = Channel.set_revents r.2 <$> σ !! a) active delivered /\
    (forall b, b ∉ active -> σ' !! b = σ !! b).
Proof.
  intros Hr [H1 H2] Hready.
  destruct (poll_ready A p σ conds Hr Hready) as (p' & σ' & active & d & He & Hr' & Has & _ & Hsub & Hne & Hf & Ho).
  exists p', σ', active, d. split_and!; try done.
  assert (forall b, σ' !! b = σ !! b \/ exists r, σ' !! b = Channel.set_revents r <$> σ !! b) as Hb.
  { intros b. destruct (decide (b ∈ active)) as [Hin|Hin]; [right|left; by apply Ho].
    apply list_elem_of_lookup in Hin as [i Hi].
    destruct (Forall2_lookup_l _ _ _ _ _ Hf Hi) as (r & _ & _ & ?). eauto. }
  split.
  - intros a c Hc. destruct (Hb a) as [Heq|[r Heq]]; rewrite Heq in Hc; [by apply (H1 a)|].
    destruct (σ !! a) as [c0|] eqn:Hc0; [|done]. injection Hc as <-. by apply (H1 a c0).
  - intros fd a e (c & Hc & ? & ?)%H2. destruct (Hb a) as [Heq|[r Heq]]; rewrite Heq, Hc; by eexists.
Qed.

(** Updates and removals by a channel that is not watched for its descriptor. *)
Lemma update_stray_asserts A p σ a c o :
  repr A p σ -> coherent A σ -> σ !! a = Some c -> fst <$> A !! Channel.fd_ c <> Some a ->
  is_Some (A !! Channel.fd_ c) \/ 0 <= Channel.index_ c ->
  channel_update p σ a o = Fault AssertFailure.
Proof.
  intros Hr Hco Hc HA Hor. pose proof (chan_apply_same o c) as [Hsf Hsi].
  unfold channel_update. rewrite (chan_deref_ok _ _ _ Hc). simpl.
  eapply (update_stray A); [|apply lookup_insert_eq| |]; simpl; rewrite ?Hsf, ?Hsi; try done.
  eapply repr_frame; [done|by apply stored_frame].
Qed.

Lemma remove_wrong_asserts A p σ a c :
  repr A p σ -> coherent A σ -> σ !! a = Some c -> A !! Channel.fd_ c <> Some (a, 0) ->
  channel_remove p σ a = Fault AssertFailure.
Proof.
  intros Hr Hco Hc HA. unfold channel_remove. rewrite (chan_deref_ok _ _ _ Hc). simpl.
  rewrite isNoneEvent_spec. case_bool_decide as Hn; [|done]. simpl.
  assert (fst <$> A !! Channel.fd_ c <> Some a) as HA'.
  { intros Heq. destruct (A !! Channel.fd_ c) as [[b e]|] eqn:E; [|done]. injection Heq as ->.
    destruct (proj2 Hco _ _ _ E) as (c' & Hc' & _ & He). simplify_eq. by rewrite Hn in HA. }
  eapply (remove_stray A); [|apply lookup_insert_eq|done].
  eapply repr_frame; [done|]. intros fd b e cb _ Hb. destruct (decide (b = a)) as [->|Hne].
  - rewrite lookup_insert_eq. simplify_eq. by eexists.
  - rewrite lookup_insert_ne by done. by exists cb.
Qed.

Lemma reach_ok A p σ : reach A p σ -> repr A p σ /\ coherent A σ.
Proof.
  induction 1 as [|A p σ a fd _ [Hr Hco] Hnone Hfd|A p σ a c o p' σ' _ [Hr Hco] Hfr Hne Hsz He
    |A p σ a c e o p' σ' _ [Hr Hco] Hc HA He|A p σ a c p' σ' _ [Hr Hco] Hc HA He
    |A p σ conds p' σ' active _ [Hr Hco] Hready He].
  - split; [apply repr_init|]. done.
  - split.
    + eapply repr_frame; [done|]. intros fd' b e c _ Hb. exists c. rewrite lookup_insert_ne; [done|]. congruence.
    + destruct Hco as [H1 H2]. split.
      * intros b c [[<- <-]|[_ Hb]]%lookup_insert_Some; [by simpl; lia|by apply (H1 b)].
      * intros fd' b e (c & Hc & ? & ?)%H2. exists c. rewrite lookup_insert_ne; [done|]. congruence.
  - destruct (update_fresh A p σ a c o) as [(p2 & σ2 & He2 & _ & ? & ?)|[_ He2]]; [done..| |]; rewrite He in He2; by simplify_eq.
  - destruct (update_watched A p σ a c e o) as [(p2 & σ2 & He2 & _ & ? & ?)|[_ He2]]; [done..| |]; rewrite He in He2; by simplify_eq.
  - destruct (remove_watched A p σ a c) as (p2 & σ2 & He2 & _ & ? & ?); [done..|]. rewrite He in He2. by simplify_eq.
  - destruct (poll_watched A p σ conds) as (p2 & σ2 & act2 & d & He2 & ? & ? & _); [done..|].
    rewrite He in He2. by simplify_eq.
Qed.

(** What a poller owes its clients in a configuration that watches [A]: which
    operations complete, which fail an assertion, and what [poll] hands out. *)
Record serves A p σ : Prop := {
  sv_has a c : σ !! a = Some c ->
    p_hasChannel p σ a = Done (bool_decide (fst <$> A !! Channel.fd_ c = Some a));
  sv_add a c o : fresh A σ a c -> Channel.isNoneEvent (chan_apply o c) = false ->
    Z.of_nat (size A) < two_31 - 1 ->
    (exists p' σ', channel_update p σ a o = Done (p', σ')) \/
    (may_refuse /\ channel_update p σ a o = Fault LogFatal);
  sv_update a c e o : σ !! a = Some c -> A !! Channel.fd_ c = Some (a, e) ->
    (exists p' σ', channel_update p σ a o = Done (p', σ')) \/
    (may_refuse /\ channel_update p σ a o = Fault LogFatal);
  (* a second channel for a descriptor, or one that was removed and kept its index *)
  sv_stray a c o : σ !! a = Some c -> fst <$> A !! Channel.fd_ c <> Some a ->
    is_Some (A !! Channel.fd_ c) \/ 0 <= Channel.index_ c ->
    channel_update p σ a o = Fault AssertFailure;
  sv_remove a c : σ !! a = Some c -> A !! Channel.fd_ c = Some (a, 0) ->
    exists p' σ', channel_remove p σ a = Done (p', σ');
  sv_remove_wrong a c : σ !! a = Some c -> A !! Channel.fd_ c <> Some (a, 0) ->
    channel_remove p σ a = Fault AssertFailure;
  sv_poll conds : ready_ok conds ->
    exists p' σ' active delivered, p_poll p σ (Ready conds) = Done (p', σ', active) /\
      delivered ⊆+ reports (p_asked p) (p_always p) conds /\
      (delivered = [] -> reports (p_asked p) (p_always p) conds = []) /\
      Forall2 (fun a r => fst <$> A !! r.1 = Some a /\
                 σ' !! a = Channel.set_revents r.2 <$> σ !! a) active delivered /\
      (forall b, b ∉ active -> σ' !! b = σ !! b);
}.

Lemma reach_serves A p σ : reach A p σ -> serves A p σ.
Proof.
  intros [Hr Hco]%reach_ok. constructor.
  - intros a c Hc. by apply has_law.
  - intros a c o Hfr Hne Hsz. destruct (update_fresh A p σ a c o) as [(p' & σ' & ? & _)|?]; eauto.
  - intros a c e o Hc HA. destruct (update_watched A p σ a c e o) as [(p' & σ' & ? & _)|?]; eauto.
  - intros a c o. by apply update_stray_asserts.
  - intros a c Hc HA. destruct (remove_watched A p σ a c) as (p' & σ' & ? & _); eauto.
  - intros a c. by apply remove_wrong_asserts.
  - intros conds Hready. destruct (poll_watched A p σ conds) as (p' & σ' & act & d & ? & _ & _ & _ & ?); [done..|].
    by exists p', σ', act, d.
Qed.
End ClientFacts.

(** An epoll instance that does what its manual says, as a finite map. *)
Module MapEpoll.
Abbreviation K := (gmap Z (Z * Z)).
Definition ctl (k : K) (op : epoll_op) (fd : Z) (ev : Z * Z) : K * bool :=
  match op, k !! fd with
  | EPOLL_CTL_ADD, None => (<[fd := ev]> k, true)
  | EPOLL_CTL_MOD, Some _ => (<[fd := ev]> k, true)
  | EPOLL_CTL_DEL, Some _ => (delete fd k, true)
  | _, _ => (k, false)
  end.
Global Instance map_epoll : Epoll K := {| epoll_create := ∅; epoll_ctl := ctl; interest k := k |}.
Global Instance map_epoll_laws : EpollLaws K.
Proof.
  split; simpl; unfold ctl.
  - done.
  - by intros k fd ev ->.
  - by intros k fd ev [? ->].
  - intros k fd ev [? ->]. by eexists.
Defined.
Global Instance map_epoll_unrefused : Unrefused (EPollPoller.t K).
Proof.
  intros (k & fd & ev & [[Hn Hf]|[[x Hs] Hf]]); simpl in *; unfold ctl in Hf.
  - by rewrite Hn in Hf.
  - by rewrite Hs in Hf.
Qed.
End MapEpoll.

(** One whose limit of watches ([max_user_watches]) is a single descriptor. *)
Module FullEpoll.
Record K : Type := mk { registered : gmap Z (Z * Z) }.
Definition ctl (k : K) (op : epoll_op) (fd : Z) (ev : Z * Z) : K * bool :=
  match op with
  | EPOLL_CTL_ADD => if bool_decide (size (registered k) = 0%nat) then (mk (<[fd := ev]> (registered k)), true) else (k, false)
  | _ => let '(m, ok) := MapEpoll.ctl (registered k) op fd ev in (mk m, ok)
  end.
Global Instance full_epoll : Epoll K := {| epoll_create := mk ∅; epoll_ctl := ctl; interest := registered |}.
Global Instance full_epoll_laws : EpollLaws K.
Proof.
  split; simpl; unfold ctl, MapEpoll.ctl.
  - done.
  - intros k fd ev _. by case_bool_decide.
  - by intros k fd ev [? ->].
  - intros k fd ev [? ->]. by eexists.
Defined.
End FullEpoll.

(** ** Theorems *)
Module PollerTheorems.

(** A channel that registers with an empty mask gets a slot that is not marked
    as ignored, so that taking it off at once fails an assertion. *)
Lemma poll_disable_first A (p : PollPoller.t) σ a c o :
  repr A p σ -> coherent A σ -> fresh A σ a c -> Channel.isNoneEvent (chan_apply o c) = true ->
  Z.of_nat (size A) < two_31 - 1 ->
  exists p' σ', channel_update p σ a o = Done (p', σ') /\ channel_remove p' σ' a = Fault AssertFailure.
Proof.
  intros Hi Hco (Hc & Hidx & HA) Hn Hsz. pose proof (chan_apply_same o c) as [Hsf Hsi].
  pose proof (PollPollerFacts.len_size _ _ _ Hi) as Hlen. pose proof (len_nonneg (PollPoller.pollfds_ p)) as Hlen0.
  destruct (proj1 Hco a c Hc) as [Hfd _].
  unfold channel_update. rewrite (chan_deref_ok _ _ _ Hc). cbn. unfold PollPoller.updateChannel.
  rewrite (chan_deref_ok _ _ _ (lookup_insert_eq _ _ _)). simpl. rewrite Hsf, Hsi, Hidx. simpl.
  rewrite (PollPollerFacts.pr_channels _ _ _ Hi), lookup_fmap, HA. simpl.
  eexists _, _. split; [done|]. unfold channel_remove.
  rewrite (chan_deref_ok _ _ _ (lookup_insert_eq _ _ _)). simpl. unfold Channel.isNoneEvent in *. simpl.
  rewrite Hn. simpl. unfold PollPoller.removeChannel. rewrite (chan_deref_ok _ _ _ (lookup_insert_eq _ _ _)). simpl.
  rewrite Hsf. registered (lookup_insert_eq (fst <$> A) (Channel.fd_ c) a). unfold Channel.isNoneEvent. simpl. rewrite Hn. simpl.
  rewrite !len_app. change (len [_]) with 1. rewrite !i32_small by zlia.
  rewrite (bool_decide_eq_true_2 (0 <= _ /\ _)) by lia. simpl.
  rewrite (proj2 (at_Done _ _ (PollPoller.mk_pollfd (Channel.fd_ c) (i16 (Channel.events_ (chan_apply o c))) 0))).
  2: { split; [lia|]. unfold len. rewrite lookup_app_r by lia.
       by replace (_ - _)%nat with 0%nat by (simpl; lia). }
  cbn [mbind outcome_bind PollPoller.pfd_fd].
  rewrite (bool_decide_eq_false_2 (Channel.fd_ c = - Channel.fd_ c - 1 /\ _)) by lia. done.
Qed.


(** C13. [EPollPoller] refines the same map over any kernel with the documented
    epoll_ctl(2), in every configuration that clients reach whose channels
    first register with a non-empty mask.  The interest list holds every
    descriptor with a non-empty mask, with its channel and events, and nothing
    that is not watched.  A registration is one [ADD]; a change of a watched
    channel is a [DEL] when the new mask is empty, a [MOD] when it is not, and
    an [ADD] when the descriptor is off the list, after which the list is as
    that operation leaves it; it is fatal exactly when the kernel refuses.  A
    poll hands out, of the descriptors on the list with a condition that was
    asked for or is always reported, as many as the event array holds, each
    with these conditions, and doubles a full array. *)
Theorem EPollPoller_serves {K} `{EpollLaws K} A (p : EPollPoller.t K) σ :
  reach A p σ ->
  serves A p σ /\
  (forall fd a e, A !! fd = Some (a, e) -> e <> 0 -> interest (EPollPoller.epollfd_ p) !! fd = Some (a, e)) /\
  interest (EPollPoller.epollfd_ p) ⊆ A /\
  (forall a c o, fresh A σ a c ->
     let m := Channel.events_ (chan_apply o c) in
     let '(k, ok) := epoll_ctl (EPollPoller.epollfd_ p) EPOLL_CTL_ADD (Channel.fd_ c) (a, m) in
     if (ok : bool) then
       exists p' σ', channel_update p σ a o = Done (p', σ') /\ EPollPoller.epollfd_ p' = k /\
         interest k = <[Channel.fd_ c := (a, m)]> (interest (EPollPoller.epollfd_ p))
     else channel_update p σ a o = Fault LogFatal) /\
  (forall a c e o, σ !! a = Some c -> A !! Channel.fd_ c = Some (a, e) ->
     let m := Channel.events_ (chan_apply o c) in
     let '(k, ok) := epoll_ctl (EPollPoller.epollfd_ p)
                       (EPollPollerFacts.next_op (EPollPoller.epollfd_ p) (Channel.fd_ c) m) (Channel.fd_ c) (a, m) in
     if (ok : bool) then
       exists p' σ', channel_update p σ a o = Done (p', σ') /\ EPollPoller.epollfd_ p' = k /\
         interest k = EPollPollerFacts.next_interest (EPollPoller.epollfd_ p) (Channel.fd_ c) a m
     else channel_update p σ a o = Fault LogFatal) /\
  (forall conds, ready_ok conds ->
     exists p' σ' active, EPollPoller.poll p σ (Ready conds) = Done (p', σ', active) /\
       let delivered := take (Z.to_nat (EPollPoller.events_size p)) (reports (p_asked p) EPollPoller.always conds) in
       0 < EPollPoller.events_size p /\
       (len delivered = EPollPoller.events_size p ->
        EPollPoller.events_size p' = 2 * EPollPoller.events_size p) /\
       Forall2 (fun a r => fst <$> A !! r.1 = Some a /\
                  σ' !! a = Channel.set_revents r.2 <$> σ !! a) active delivered /\
       (forall b, b ∉ active -> σ' !! b = σ !! b)).
Proof.
  intros Hr. split; [by apply reach_serves|]. apply reach_ok in Hr as [Hi Hco].
  split; [|split; [|split; [|split]]].
  - intros fd a e HA Hne.
    destruct (EPollPollerFacts.er_entry _ _ _ Hi fd a e HA) as (_ & c & _ & _ & [[_ ?]|(_ & ? & _)]); done.
  - by apply (EPollPollerFacts.interest_sub A p σ).
  - intros a c o (Hc & Hidx & HA) m. destruct (stored_ok A p σ a c o Hi Hco Hc) as (Hi' & Hok & Hsf & Hsi).
    pose proof (EPollPollerFacts.epoll_update_new _ _ _ _ _ Hi' (lookup_insert_eq _ _ _) Hok) as Hu.
    simpl in Hu. rewrite Hsf, Hsi in Hu. specialize (Hu Hidx HA). fold m in Hu.
    unfold channel_update. rewrite (chan_deref_ok _ _ _ Hc). cbn [mbind outcome_bind p_updateChannel EPollPoller_ops].
    destruct (epoll_ctl _ _ _ _) as [k []]; [|exact Hu]. destruct Hu as (p' & σ' & Hd & _ & Hk & Hk' & _); eauto.
  - intros a c e o Hc HA m. destruct (stored_ok A p σ a c o Hi Hco Hc) as (Hi' & Hok & Hsf & Hsi).
    pose proof (EPollPollerFacts.epoll_update_old _ _ _ _ _ e Hi' (lookup_insert_eq _ _ _) Hok) as Hu.
    simpl in Hu. rewrite Hsf in Hu. specialize (Hu HA). fold m in Hu.
    unfold channel_update. rewrite (chan_deref_ok _ _ _ Hc). cbn [mbind outcome_bind p_updateChannel EPollPoller_ops].
    destruct (epoll_ctl _ _ _ _) as [k []]; [|apply Hu]. destruct Hu as (p' & σ' & Hd & _ & Hk & Hk' & _); eauto.
  - intros conds Hready.
    destruct (EPollPollerFacts.epoll_poll A p σ conds Hi Hready) as (p' & σ' & act & d & He & _ & _ & -> & [_ Hdbl] & Hf & Ho).
    exists p', σ', act. split; [done|]. split; [apply Hi|]. done.
Qed.

(** What removal leaves of the channel, in each poller. *)
Lemma poll_removed A (p : PollPoller.t) σ a c :
  repr A p σ -> coherent A σ -> σ !! a = Some c -> A !! Channel.fd_ c = Some (a, 0) ->
  exists q τ, channel_remove p σ a = Done (q, τ) /\ PollPollerFacts.inv (delete (Channel.fd_ c) A) q τ /\
    τ !! a = Some (Channel.set_addedToLoop false c).
Proof.
  intros Hi Hco Hc HA. destruct (proj2 Hco _ _ _ HA) as (c' & Hc' & _ & He). simplify_eq.
  unfold channel_remove. rewrite (chan_deref_ok _ _ _ Hc). simpl.
  assert (Channel.isNoneEvent c = true) as Hn by (rewrite isNoneEvent_spec; by apply bool_decide_eq_true_2).
  rewrite Hn. simpl.
  destruct (PollPollerFacts.poll_remove A p (<[a := Channel.set_addedToLoop false c]> σ) a
              (Channel.set_addedToLoop false c)) as (q & τ & Heq & _ & Hq & Hτ); try done; [|apply lookup_insert_eq|by eauto].
  eapply PollPollerFacts.poll_inv_frame; [done|]. intros fd b e cb _ Hb.
  destruct (decide (b = a)) as [->|Hne]; [rewrite lookup_insert_eq|rewrite lookup_insert_ne by done];
    simplify_eq; eauto.
Qed.

Lemma epoll_removed {K} `{EpollLaws K} A (p : EPollPoller.t K) σ a c q τ :
  repr A p σ -> coherent A σ -> σ !! a = Some c -> A !! Channel.fd_ c = Some (a, 0) ->
  channel_remove p σ a = Done (q, τ) ->
  τ !! a = Some (Channel.set_index EPollPoller.kNew (Channel.set_addedToLoop false c)).
Proof.
  intros Hi Hco Hc HA. unfold channel_remove. rewrite (chan_deref_ok _ _ _ Hc). simpl. intros He. inv_outcome.
  destruct (EPollPollerFacts.epoll_remove A p (<[a := Channel.set_addedToLoop false c]> σ) a
              (Channel.set_addedToLoop false c)) as (q' & Heq & _); try done.
  - eapply EPollPollerFacts.epoll_inv_frame; [done|]. intros fd b e cb _ Hb.
    destruct (decide (b = a)) as [->|Hne]; [rewrite lookup_insert_eq|rewrite lookup_insert_ne by done];
      simplify_eq; eauto.
  - apply lookup_insert_eq.
  - rewrite He in Heq. simplify_eq. apply lookup_insert_eq.
Qed.

(** A removed channel can be registered again with [EPollPoller], which puts
    its [index_] back to [kNew]; [PollPoller] leaves the old slot number in
    [index_], so that any later update of the removed channel fails an
    assertion. *)
Theorem readd_after_remove {K} `{EpollLaws K} A (p : PollPoller.t) (p' : EPollPoller.t K) σ σ' a c c' :
  reach A p σ -> reach A p' σ' -> σ !! a = Some c -> σ' !! a = Some c' ->
  A !! Channel.fd_ c = Some (a, 0) -> A !! Channel.fd_ c' = Some (a, 0) ->
  (exists q τ, channel_remove p σ a = Done (q, τ) /\
     (forall o, channel_update q τ a o = Fault AssertFailure)) /\
  (exists q τ cτ, channel_remove p' σ' a = Done (q, τ) /\ fresh (delete (Channel.fd_ c') A) τ a cτ).
Proof.
  intros [Hi Hco]%reach_ok [Hi' Hco']%reach_ok Hc Hc' HA HA'. split.
  - destruct (poll_removed A p σ a c Hi Hco Hc HA) as (q & τ & He & Hq & Hτ). exists q, τ. split; [done|].
    destruct (PollPollerFacts.pr_entry _ _ _ Hi _ _ _ HA) as (_&_&c1&_&Hc1&_&Hidx&_). simplify_eq.
    destruct (remove_watched A p σ a c Hi Hco Hc HA) as (q' & τ' & He' & _ & Hr & Hco'').
    rewrite He in He'. simplify_eq. intros o. eapply update_stray_asserts; try done; simpl.
    + by rewrite lookup_delete_eq.
    + by right.
  - destruct (remove_watched A p' σ' a c' Hi' Hco' Hc' HA') as (q & τ & He & _ & Hq & Hcq).
    exists q, τ, (Channel.set_index EPollPoller.kNew (Channel.set_addedToLoop false c')). split; [done|].
    split_and!; [by apply (epoll_removed A p' σ' a c' q τ)|done|]. apply lookup_delete_eq.
Qed.

(** *** A channel at address 100 for descriptor 5, read and then disabled *)
Definition A_example : watches := <[5 := (100, 0)]> (<[5 := (100, 3)]> ∅).

Lemma reach_example {P} `{PollerLaws P} `{!Unrefused P} :
  exists (p : P) σ c, reach A_example p σ /\ σ !! 100 = Some c /\ Channel.fd_ c = 5.
Proof.
  assert (reach ∅ (p_init : P) (<[100 := Channel.init 5]> ∅)) as R0.
  { apply (reach_new ∅ p_init ∅ 100 5); [apply reach_init|done|done]. }
  destruct (reach_ok _ _ _ R0) as [Hr0 Hc0].
  assert (fresh ∅ (<[100 := Channel.init 5]> ∅) 100 (Channel.init 5)) as Hf by done.
  destruct (update_fresh _ _ _ _ _ EnableReading Hr0 Hc0 Hf) as [(p1 & σ1 & He1 & _ & Hr1 & Hc1)|[[]%unrefused _]]; [done|done|].
  pose proof (reach_add _ _ _ _ _ EnableReading _ _ R0 Hf eq_refl eq_refl He1) as R1.
  destruct (proj2 Hc1 5 100 3 eq_refl) as (c1 & Hσ1 & Hfd1 & _).
  assert ((<[5 := (100, 3)]> ∅ : watches) !! Channel.fd_ c1 = Some (100, 3)) as HA1 by (by rewrite Hfd1).
  destruct (update_watched _ _ _ _ c1 3 DisableAll Hr1 Hc1 Hσ1 HA1) as [(p2 & σ2 & He2 & _ & Hr2 & Hc2)|[[]%unrefused _]].
  pose proof (reach_update _ _ _ _ _ _ _ _ _ R1 Hσ1 HA1 He2) as R2. rewrite Hfd1 in R2, Hc2.
  destruct (proj2 Hc2 5 100 0) as (c2 & Hσ2 & Hfd2 & _); [done|].
  by exists p2, σ2, c2.
Qed.


Lemma EPollPoller_serves_witness :
  exists (p : EPollPoller.t MapEpoll.K) σ, serves A_example p σ /\ interest (EPollPoller.epollfd_ p) ⊆ A_example.
Proof.
  destruct (reach_example (P := EPollPoller.t MapEpoll.K)) as (p & σ & c & Hr & _).
  exists p, σ. destruct (EPollPoller_serves A_example p σ Hr) as (Hs & _ & Hsub & _). split; [exact Hs|exact Hsub].
Defined.

Lemma readd_after_remove_witness :
  exists (p : PollPoller.t) σ q τ, reach A_example p σ /\ channel_remove p σ 100 = Done (q, τ) /\
    channel_update q τ 100 EnableReading = Fault AssertFailure.
Proof.
  destruct (reach_example (P := PollPoller.t)) as (p & σ & c & Hr & Hc & Hfd).
  destruct (reach_example (P := EPollPoller.t MapEpoll.K)) as (p' & σ' & c' & Hr' & Hc' & Hfd').
  destruct (readd_after_remove A_example p p' σ σ' 100 c c' Hr Hr' Hc Hc') as [(q & τ & He & Hq) _].
  - rewrite Hfd. reflexivity.
  - rewrite Hfd'. reflexivity.
  - exists p, σ, q, τ. split; [exact Hr|]. split; [exact He|]. apply Hq.
Defined.

(** A channel that is disabled while it is disabled already goes back on the
    interest list of an [EPollPoller], with an empty mask, and then hears of a
    hang-up; a [PollPoller] goes on ignoring it. *)
Definition disabled_twice {P} `{PollerOps P} : outcome (list Z) :=
  '(p, σ) ← channel_update (p_init : P) {[100 := Channel.init 5]} 100 EnableReading;
  '(p, σ) ← channel_update p σ 100 DisableReading;
  '(p, σ) ← channel_update p σ 100 DisableAll;
  '(_, _, active) ← p_poll p σ (Ready [(5, POLLHUP)]);
  mret active.

Example epoll_disabled_twice : disabled_twice (P := EPollPoller.t MapEpoll.K) = Done [100].
Proof. vm_compute. reflexivity. Qed.

Example poll_disabled_twice : disabled_twice (P := PollPoller.t) = Done [].
Proof. vm_compute. reflexivity. Qed.

(** A refused [EPOLL_CTL_ADD] is fatal. *)
Example refused_add_fatal :
  ('(p, σ) ← channel_update (p_init : EPollPoller.t FullEpoll.K)
               (<[200 := Channel.init 6]> {[100 := Channel.init 5]}) 100 EnableReading;
   channel_update p σ 200 EnableReading) = Fault LogFatal.
Proof. vm_compute. reflexivity. Qed.

(** A channel whose first operation is [disableAll] cannot be removed from a
    [PollPoller]: its slot is not marked as ignored. *)
Example PollPoller_disable_first :
  ('(p, σ) ← channel_update (p_init : PollPoller.t) {[100 := Channel.init 5]} 100 DisableAll;
   channel_remove p σ 100) = Fault AssertFailure.
Proof. vm_compute. reflexivity. Qed.

Example EPollPoller_disable_first :
  exists q, ('(p, σ) ← channel_update (p_init : EPollPoller.t MapEpoll.K) {[100 := Channel.init 5]} 100 DisableAll;
   channel_remove p σ 100) = Done q.
Proof. eexists. vm_compute. reflexivity. Qed.
End PollerTheorems.
