(* ===== verification/DefaultPollers.v ===== *)
(** * DefaultPollers: the poller of a loop

    [Poller::newDefaultPoller] ([src/muduo/net/poller/DefaultPoller.cc]) chooses
    one of the two pollers when a loop is made; the loop then calls it through
    the virtual functions of [Poller].  The object is modelled as a sum, its
    operations dispatch on it, and it keeps the contract of a poller that
    [Pollers] states, so that whatever is proved against the contract holds
    for both choices. *)
From S2P Require Import Prelude Channels Pollers.

Local Open Scope Z_scope.
Local Open Scope muduo_scope.

Module DefaultPoller.
Section default.
Context {K : Type} `{Epoll K}.

Definition t : Type := PollPoller.t + EPollPoller.t K.

(** [getenv]: the value of [MUDUO_USE_POLL], if it is set. *)
Definition newDefaultPoller (getenv : option bytes) : t :=
  match getenv with Some _ => inl PollPoller.init | None => inr EPollPoller.init end.

(** A virtual call that returns a poller changed in place. *)
Definition on_poll {A} (r : outcome (PollPoller.t * A)) : outcome (t * A) := p ← r; mret (inl p.1, p.2).
Definition on_epoll {A} (r : outcome (EPollPoller.t K * A)) : outcome (t * A) := p ← r; mret (inr p.1, p.2).

Definition default_ops (getenv : option bytes) : PollerOps t := {|
  p_init := newDefaultPoller getenv;
  p_updateChannel p σ a := match p with inl p => on_poll (p_updateChannel p σ a) | inr p => on_epoll (p_updateChannel p σ a) end;
  p_removeChannel p σ a := match p with inl p => on_poll (p_removeChannel p σ a) | inr p => on_epoll (p_removeChannel p σ a) end;
  p_hasChannel p σ a := match p with inl p => p_hasChannel p σ a | inr p => p_hasChannel p σ a end;
  p_poll p σ ans :=
    match p with
    | inl p => r ← p_poll p σ ans; mret (inl r.1.1, r.1.2, r.2)
    | inr p => r ← p_poll p σ ans; mret (inr r.1.1, r.1.2, r.2)
    end;
  p_asked p := match p with inl p => p_asked p | inr p => p_asked p end;
  p_always p := match p with inl p => p_always p | inr p => p_always p end |}.
End default.
Arguments t : clear implicits.
End DefaultPoller.

Module DefaultPollerFacts.
Import DefaultPoller.
Section facts.
Context {K : Type} `{EpollLaws K} (getenv : option bytes).

Lemma default_laws : @PollerLaws (DefaultPoller.t K) (default_ops getenv).
Proof.
  refine (@Build_PollerLaws _ (default_ops getenv)
    (fun A p σ => match p with inl p => repr A p σ | inr p => repr A p σ end) (epoll_refuses K)
    _ _ _ _ _ _ _ _ _ _ _ _).
  - intros σ. cbn [p_init default_ops]. unfold newDefaultPoller.
    destruct getenv; [exact (repr_init (P := PollPoller.t) σ)|exact (repr_init (P := EPollPoller.t K) σ)].
  - intros A [p|p] σ σ'; apply repr_frame.
  - intros A [p|p] σ fd a e; apply repr_channel.
  - intros A [p|p] σ Hr; exact (repr_asked A p σ Hr).
  - intros A [p|p] σ a c Hr; intros; cbn [p_updateChannel default_ops]; unfold on_poll, on_epoll.
    + destruct (update_new A p σ a c) as [(p' & σ' & -> & Hi & Hr')|[[] _]]; try done. left. by eexists _, _.
    + destruct (update_new A p σ a c) as [(p' & σ' & -> & Hi & Hr')|[? ->]]; try done; [left; by eexists _, _|by right].
  - intros A [p|p] σ a c e Hr; intros; cbn [p_updateChannel default_ops]; unfold on_poll, on_epoll.
    + destruct (update_old A p σ a c e) as [(p' & σ' & -> & Hi & Hr')|[[] _]]; try done. left. by eexists _, _.
    + destruct (update_old A p σ a c e) as [(p' & σ' & -> & Hi & Hr')|[? ->]]; try done; [left; by eexists _, _|by right].
  - intros A [p|p] σ a c Hr Hc HA Hor; cbn [p_updateChannel default_ops]; unfold on_poll, on_epoll;
      by rewrite (update_stray A p σ a c Hr Hc HA Hor).
  - intros A [p|p] σ a c Hr; intros; cbn [p_removeChannel default_ops]; unfold on_poll, on_epoll.
    + destruct (remove_law A p σ a c) as (p' & σ' & -> & Hi & Hr'); try done. by eexists _, _.
    + destruct (remove_law A p σ a c) as (p' & σ' & -> & Hi & Hr'); try done. by eexists _, _.
  - intros A [p|p] σ a c Hr Hc HA; cbn [p_removeChannel default_ops]; unfold on_poll, on_epoll;
      by rewrite (remove_stray A p σ a c Hr Hc HA).
  - intros A [p|p] σ a c Hr Hc; cbn [p_hasChannel default_ops]; by apply has_law.
  - intros A [p|p] σ errno Hr; cbn [p_poll default_ops]; by rewrite (poll_error A).
  - intros A [p|p] σ conds Hr Hok; cbn [p_poll default_ops];
      destruct (poll_ready A p σ conds Hr Hok) as (p' & σ' & active & delivered & -> & Hrest); by eexists _, σ', active, delivered.
Defined.
End facts.
End DefaultPollerFacts.

(** ** Properties *)
Module DefaultPollerTheorems.
(** Whichever poller the environment selects, a loop's poller watches what it is
    told to: every operation of a reachable configuration ends as the map of
    watched descriptors says. *)
Theorem default_poller_serves {K} `{EpollLaws K} getenv A (p : DefaultPoller.t K) σ :
  @reach _ (DefaultPoller.default_ops getenv) A p σ ->
  @serves _ (DefaultPoller.default_ops getenv) (DefaultPollerFacts.default_laws getenv) A p σ.
Proof. apply (@reach_serves _ (DefaultPoller.default_ops getenv) (DefaultPollerFacts.default_laws getenv)). Qed.
End DefaultPollerTheorems.
