(* ===== verification/EventLoops.v ===== *)
(** * EventLoops: the reactor, its functor queue and its wakeups

    Models [EventLoop] ([src/muduo/net/EventLoop.h], [EventLoop.cc]).  The loop
    thread and any number of other threads run interleaved: the loop thread is
    a program counter inside [loop()], other threads are inside
    [queueInloop()] or [quit()], between publishing their request and writing
    the eventfd.  What user callbacks do is a parameter ([body]): lists of calls
    into the loop.  [step] is executable, one atomic action at a time. *)
From S2P Require Import Prelude Timestamps StdSet TimerQueues Channels Pollers.

Local Open Scope Z_scope.

Definition k_poll_time_ms : Z := 10000.
Definition eventfd_max : Z := two_64 - 2.

Module EventLoop.

(** What code running in the loop thread asks of the loop. *)
Inductive action : Type :=
  | RunInLoop (f : Z)        (* runInLoop(f) *)
  | QueueInLoop (f : Z)      (* queueInloop(f) *)
  | Quit                     (* quit() *)
  | WakeIfCalling.           (* the second half of queueInloop *)

(** A channel [poll] returned: the wakeup channel, or one whose callbacks
    perform the given actions. *)
Inductive event : Type :=
  | WakeupEvent
  | ChannelEvent (callbacks : list action).

Inductive pc : Type :=
  | Outside                       (* not in loop() *)
  | AtWhile                       (* before [while (!_quit)] *)
  | Polling                       (* in poll(2) *)
  | Handling (active : list event)
  | Swapping                      (* [_calling_pending_functors] is set *)
  | Running (functors : list Z).  (* the local vector, not yet run *)

Record t : Type := mk {
  _looping : bool;
  _quit : bool;
  _event_handling : bool;
  _calling_pending_functors : bool;
  _iteration : Z;
  _pending_functors : list Z;
  eventfd : Z;                    (* the counter of [_wake_up_fd] *)
  at_pc : pc;
  todo : list action;             (* rest of the user code now running in the loop thread *)
  wakers : nat;                   (* other threads about to call wakeup() *)
  (* history *)
  queued : list Z;                (* every functor ever queued, in order *)
  executed : list Z;              (* every queued functor ever started, in order *)
  early : bool;                   (* queued by the loop thread outside of loop() *)
}.

Definition init : t := mk false false false false 0 [] 0 Outside [] 0 [] [] false.

Definition set_at (s : t) p := mk (_looping s) (_quit s) (_event_handling s) (_calling_pending_functors s)
  (_iteration s) (_pending_functors s) (eventfd s) p (todo s) (wakers s) (queued s) (executed s) (early s).
Definition set_todo (s : t) l := mk (_looping s) (_quit s) (_event_handling s) (_calling_pending_functors s)
  (_iteration s) (_pending_functors s) (eventfd s) (at_pc s) l (wakers s) (queued s) (executed s) (early s).
Definition set_eventfd (s : t) n := mk (_looping s) (_quit s) (_event_handling s) (_calling_pending_functors s)
  (_iteration s) (_pending_functors s) n (at_pc s) (todo s) (wakers s) (queued s) (executed s) (early s).
Definition set_wakers (s : t) n := mk (_looping s) (_quit s) (_event_handling s) (_calling_pending_functors s)
  (_iteration s) (_pending_functors s) (eventfd s) (at_pc s) (todo s) n (queued s) (executed s) (early s).
Definition set_quit (s : t) b := mk (_looping s) b (_event_handling s) (_calling_pending_functors s)
  (_iteration s) (_pending_functors s) (eventfd s) (at_pc s) (todo s) (wakers s) (queued s) (executed s) (early s).

(** [wakeup()]: eventfd(2) adds one, or fails with [EAGAIN] (logged) when full. *)
Definition wakeup (s : t) : t :=
  if bool_decide (eventfd s + 1 <= eventfd_max) then set_eventfd s (eventfd s + 1) else s.

(** [handleRead()]: reading an eventfd resets it. *)
Definition handleRead (s : t) : t := set_eventfd s 0.

(** The critical section of [queueInloop]; [own]: in the loop thread. *)
Definition push_pending (own : bool) (s : t) (f : Z) : t :=
  mk (_looping s) (_quit s) (_event_handling s) (_calling_pending_functors s) (_iteration s)
    (_pending_functors s ++ [f]) (eventfd s) (at_pc s) (todo s) (wakers s) (queued s ++ [f]) (executed s)
    (early s || own && match at_pc s with Outside => true | _ => false end).

Definition queueSize (s : t) : Z := len (_pending_functors s).

Section Loop.
(** The code of the functors. *)
Context (body : Z -> list action).

(** One call made by user code in the loop thread ([isInLoopThread()] holds). *)
Definition perform (s : t) (a : action) (rest : list action) : t :=
  match a with
  | RunInLoop f => set_todo s (body f ++ rest)
  | QueueInLoop f => set_todo (push_pending true s f) (WakeIfCalling :: rest)
  | WakeIfCalling =>
      let s := set_todo s rest in
      if _calling_pending_functors s then wakeup s else s
  | Quit => set_todo (set_quit s true) rest
  end.

(** What moves the system. *)
Inductive label : Type :=
  | LoopThread                       (* the next step of the loop thread *)
  | CallLoop                         (* the loop thread calls loop() *)
  | UserCode (acts : list action)    (* the loop thread runs other code, outside of loop() *)
  | PollReturns (active : list event)
  | OtherQueues (f : Z)              (* another thread: queueInloop, up to the unlock *)
  | OtherQuits                       (* another thread: quit, up to the store *)
  | OtherWakes.                      (* another thread: the wakeup() that follows *)

Definition is_wakeup (e : event) : bool := match e with WakeupEvent => true | ChannelEvent _ => false end.

(** [poll] is level-triggered: it returns the wakeup channel exactly when the
    eventfd is readable. *)
Definition poll_allows (s : t) (active : list event) : bool :=
  match length (List.filter is_wakeup active) with
  | 0%nat => bool_decide (eventfd s = 0)
  | 1%nat => bool_decide (0 < eventfd s)
  | _ => false
  end.

(** The loop thread between two calls of user code: the body of [loop()] and
    of [doPendingFunctors()]. *)
Definition loop_step (s : t) : option t :=
  match at_pc s with
  | Outside | Polling => None
  | AtWhile =>
      if _quit s
      then Some (mk false (_quit s) (_event_handling s) (_calling_pending_functors s) (_iteration s)
                   (_pending_functors s) (eventfd s) Outside [] (wakers s) (queued s) (executed s) (early s))
      else Some (set_at s Polling)
  | Handling (WakeupEvent :: active) => Some (set_at (handleRead s) (Handling active))
  | Handling (ChannelEvent cb :: active) => Some (set_todo (set_at s (Handling active)) cb)
  | Handling [] =>
      Some (mk (_looping s) (_quit s) false true (_iteration s) (_pending_functors s) (eventfd s)
              Swapping [] (wakers s) (queued s) (executed s) (early s))
  | Swapping =>
      Some (mk (_looping s) (_quit s) (_event_handling s) (_calling_pending_functors s) (_iteration s)
              [] (eventfd s) (Running (_pending_functors s)) [] (wakers s) (queued s) (executed s) false)
  | Running (f :: functors) =>
      Some (mk (_looping s) (_quit s) (_event_handling s) (_calling_pending_functors s) (_iteration s)
              (_pending_functors s) (eventfd s) (Running functors) (body f) (wakers s) (queued s)
              (executed s ++ [f]) (early s))
  | Running [] =>
      Some (mk (_looping s) (_quit s) (_event_handling s) false (_iteration s) (_pending_functors s)
              (eventfd s) AtWhile [] (wakers s) (queued s) (executed s) (early s))
  end.

Definition step (s : t) (l : label) : option t :=
  match l with
  | LoopThread =>
      match todo s with
      | a :: rest => Some (perform s a rest)
      | [] => loop_step s
      end
  | CallLoop =>
      match at_pc s, todo s with
      | Outside, [] =>
          Some (mk true false (_event_handling s) (_calling_pending_functors s) (_iteration s)
                  (_pending_functors s) (eventfd s) AtWhile [] (wakers s) (queued s) (executed s) (early s))
      | _, _ => None
      end
  | UserCode acts =>
      match at_pc s, todo s with
      | Outside, [] => Some (set_todo s acts)
      | _, _ => None
      end
  | PollReturns active =>
      match at_pc s with
      | Polling =>
          if poll_allows s active
          then Some (mk (_looping s) (_quit s) true (_calling_pending_functors s) (i64 (_iteration s + 1))
                       (_pending_functors s) (eventfd s) (Handling active) [] (wakers s) (queued s)
                       (executed s) (early s))
          else None
      | _ => None
      end
  | OtherQueues f => Some (set_wakers (push_pending false s f) (S (wakers s)))
  | OtherQuits => Some (set_wakers (set_quit s true) (S (wakers s)))
  | OtherWakes =>
      match wakers s with
      | S n => Some (wakeup (set_wakers s n))
      | O => None
      end
  end.

Fixpoint run (s : t) (ls : list label) : option t :=
  match ls with
  | [] => Some s
  | l :: ls => s' ← step s l; run s' ls
  end.
End Loop.

(** ** Channels of the loop: thread and ownership checks around the poller *)
Section Channels.
Context {P : Type} `{PollerOps P}.

(** [assertInLoopThread]: LOG_FATAL otherwise *)
Definition assertInLoopThread (in_loop_thread : bool) : outcome unit :=
  if in_loop_thread then Done () else Fault LogFatal.

Definition updateChannel (in_loop_thread owned : bool) (p : P) (σ : channels) (a : Z) : outcome (P * channels) :=
  assert_ owned;;
  assertInLoopThread in_loop_thread;;
  p_updateChannel p σ a.

(** While events are handled, only the channel being handled, or one that is
    not waiting to be handled, may be removed. *)
Definition removeChannel (in_loop_thread owned event_handling : bool) (current : option Z)
    (active : list Z) (p : P) (σ : channels) (a : Z) : outcome (P * channels) :=
  assert_ owned;;
  assertInLoopThread in_loop_thread;;
  assert_ (negb event_handling || bool_decide (current = Some a) || bool_decide (a ∉ active));;
  p_removeChannel p σ a.

Definition hasChannel (in_loop_thread owned : bool) (p : P) (σ : channels) (a : Z) : outcome bool :=
  assert_ owned;;
  assertInLoopThread in_loop_thread;;
  p_hasChannel p σ a.
End Channels.

(** ** Timers of the loop *)
Definition runAt (q : TimerQueue.t) (now : Timestamp.t) (timer cb : Z) (time : Timestamp.t) :=
  TimerQueue.addTimer q now timer cb time (double_of_int 0).
Definition runAfter (q : TimerQueue.t) (now now' : Timestamp.t) (timer cb : Z) (delay : double) :=
  time ← Timestamp.addTime now delay;
  runAt q now' timer cb time.
Definition runEvery (q : TimerQueue.t) (now now' : Timestamp.t) (timer cb : Z) (interval : double) :=
  time ← Timestamp.addTime now interval;
  TimerQueue.addTimer q now' timer cb time interval.
Definition cancel (q : TimerQueue.t) (id : TimerId) := TimerQueue.cancel q id.
End EventLoop.

(** ** Specification *)
Module EventLoopSpec.
Import EventLoop.

(** Functors taken out of the queue and not yet started. *)
Definition in_flight (s : t) : list Z := match at_pc s with Running fs => fs | _ => [] end.

(** The eventfd is readable, or another thread is about to make it so. *)
Definition armed (s : t) : Prop := 0 < eventfd s \/ (0 < wakers s)%nat.

Definition reachable (body : Z -> list action) (s : t) : Prop :=
  exists ls, run body init ls = Some s.

Record inv (s : t) : Prop := {
  (* exactly once, in order *)
  inv_fifo : queued s = executed s ++ in_flight s ++ _pending_functors s;
  inv_eventfd : 0 <= eventfd s <= eventfd_max;
  inv_flags : match at_pc s with
    | Outside => _looping s = false /\ _event_handling s = false /\ _calling_pending_functors s = false
    | AtWhile => _looping s = true /\ _event_handling s = false /\ _calling_pending_functors s = false /\ todo s = []
    | Polling => _looping s = true /\ _event_handling s = false /\ _calling_pending_functors s = false /\ todo s = []
    | Handling _ => _looping s = true /\ _event_handling s = true /\ _calling_pending_functors s = false
    | Swapping => _looping s = true /\ _event_handling s = false /\ _calling_pending_functors s = true /\ todo s = []
    | Running _ => _looping s = true /\ _event_handling s = false /\ _calling_pending_functors s = true
    end;
  (* no lost wakeup *)
  inv_wake : match at_pc s with
    | Handling _ | Swapping => True
    | Running _ => _pending_functors s <> [] -> armed s \/ head (todo s) = Some WakeIfCalling
    | AtWhile | Outside => _pending_functors s <> [] -> armed s \/ early s = true
    | Polling => (_pending_functors s <> [] -> armed s \/ early s = true) /\ (_quit s = true -> armed s)
    end;
  inv_early : match at_pc s with Running _ => early s = false | _ => True end;
}.
End EventLoopSpec.

(** ** Lemmas *)
Module EventLoopFacts.
Import EventLoop EventLoopSpec.

Lemma wakeup_armed s : 0 <= eventfd s <= eventfd_max -> 0 < eventfd (wakeup s) <= eventfd_max.
Proof. unfold wakeup, eventfd_max. case_bool_decide; simpl; zlia. Qed.

Lemma wakeup_other s :
  let s' := wakeup s in
  _looping s' = _looping s /\ _quit s' = _quit s /\ _event_handling s' = _event_handling s /\
  _calling_pending_functors s' = _calling_pending_functors s /\
  _pending_functors s' = _pending_functors s /\ at_pc s' = at_pc s /\ todo s' = todo s /\
  wakers s' = wakers s /\ queued s' = queued s /\ executed s' = executed s /\ early s' = early s.
Proof. simpl. unfold wakeup. by case_bool_decide. Qed.

(** After a write of the eventfd every wakeup obligation is met. *)
Lemma inv_wakeup s n l :
  inv s -> (todo s = l \/ todo s = WakeIfCalling :: l) -> inv (wakeup (set_todo (set_wakers s n) l)).
Proof.
  intros [Hf He Hfl Hw Hea] Hl. set (s' := set_todo _ _).
  pose proof (wakeup_armed s' He) as Ha. pose proof (wakeup_other s') as (W1&W2&W3&W4&W5&W6&W7&W8&W9&W10&W11).
  assert (armed (wakeup s')) as Harm by (left; lia).
  constructor; unfold in_flight; rewrite ?W1, ?W3, ?W4, ?W5, ?W6, ?W7, ?W9, ?W10, ?W11; simpl.
  - exact Hf.
  - lia.
  - destruct (at_pc s); try exact Hfl; destruct Hfl as (? & ? & ? & Ht); split_and!; try done;
      destruct Hl as [<-|Hl]; congruence.
  - destruct (at_pc s); try done; try split; intros; first [done|by left].
  - exact Hea.
Qed.

Lemma loop_inv_init : inv init.
Proof. constructor; simpl; try done. Qed.

(** User code runs in three places only. *)
Definition user_code_runs (s : t) : Prop :=
  match at_pc s with Outside | Handling _ | Running _ => True | _ => False end.

Lemma todo_user_code s a rest : inv s -> todo s = a :: rest -> user_code_runs s.
Proof.
  intros [_ _ Hfl _ _] Ht. unfold user_code_runs.
  destruct (at_pc s); try done; destruct Hfl as (_ & _ & _ & ?); congruence.
Qed.

(** Steps of user code in the loop thread. *)
Lemma inv_perform body s a rest : inv s -> todo s = a :: rest -> inv (perform body s a rest).
Proof.
  intros Hi Ht. pose proof (todo_user_code _ _ _ Hi Ht) as Huc. pose proof Hi as [Hf He Hfl Hw Hea].
  unfold user_code_runs in Huc.
  destruct a as [f|f| |]; simpl.
  - constructor; simpl; try done; destruct (at_pc s); try done.
    rewrite Ht in Hw. intros Hp. apply Hw in Hp as [?|?]; [by left|done].
  - constructor; simpl; try done.
    + rewrite Hf. unfold in_flight. simpl. by rewrite !app_assoc.
    + by destruct (at_pc s).
    + destruct (at_pc s); try done; intros _; right; by rewrite ?orb_true_r.
    + destruct (at_pc s); try done. by rewrite Hea.
  - constructor; simpl; try done; destruct (at_pc s); try done.
    rewrite Ht in Hw. intros Hp. apply Hw in Hp as [?|?]; [by left|done].
  - destruct (_calling_pending_functors s) eqn:Hc.
    + replace (set_todo s rest) with (set_todo (set_wakers s (wakers s)) rest) by (by destruct s).
      apply inv_wakeup; [done|by right].
    + constructor; simpl; try done; destruct (at_pc s); try done; destruct Hfl as (? & ? & ?); try congruence.
      all: done.
Qed.

Lemma inv_loop_step body s s' : inv s -> todo s = [] -> loop_step body s = Some s' -> inv s'.
Proof.
  intros [Hf He Hfl Hw Hea] Ht. unfold loop_step, in_flight in *.
  destruct (at_pc s) as [| | |[|[|cb] active]| |[|f fs]] eqn:Hpc; try done.
  - destruct (_quit s) eqn:Hq; intros [= <-]; constructor; simpl; try done; try tauto.
    + split; [exact Hw|]. congruence.
  - intros [= <-]. constructor; simpl; try done. tauto.
  - intros [= <-]. constructor; simpl; try done.
  - intros [= <-]. constructor; simpl; try done.
  - intros [= <-]. constructor; simpl; try done; [by rewrite app_nil_r|tauto].
  - intros [= <-]. constructor; simpl; try done; [tauto|].
    intros Hp. apply Hw in Hp as [?|Hh]; [by left|]. by rewrite Ht in Hh.
  - intros [= <-]. constructor; simpl; try done.
    + by rewrite Hf, <-app_assoc.
    + intros Hp. apply Hw in Hp as [?|Hh]; [by left|]. by rewrite Ht in Hh.
Qed.

Lemma inv_step body s l s' : inv s -> step body s l = Some s' -> inv s'.
Proof.
  intros Hi Hs. pose proof Hi as [Hf He Hfl Hw Hea]. destruct l as [| |acts|active|f| |]; simpl in Hs.
  - destruct (todo s) as [|a rest] eqn:Ht.
    + by eapply inv_loop_step.
    + injection Hs as <-. by apply inv_perform.
  - unfold in_flight in Hf. destruct (at_pc s) eqn:Hpc, (todo s); try done. injection Hs as <-.
    constructor; simpl; try done. tauto.
  - destruct (at_pc s) eqn:Hpc, (todo s); try done. injection Hs as <-.
    unfold in_flight in Hf. rewrite Hpc in Hf. constructor; unfold in_flight; simpl; by rewrite ?Hpc.
  - unfold in_flight in Hf. destruct (at_pc s) eqn:Hpc; try done. destruct (poll_allows s active); [|done].
    injection Hs as <-. constructor; simpl; try done. tauto.
  - injection Hs as <-. constructor; simpl; try done.
    + rewrite Hf. unfold in_flight. simpl. by rewrite !app_assoc.
    + unfold armed. simpl. destruct (at_pc s); try done; try split; intros; try (left; right; lia); right; lia.
    + destruct (at_pc s); try done. by rewrite Hea.
  - injection Hs as <-. constructor; simpl; try done.
    unfold armed. simpl. destruct (at_pc s); try done; try split; intros; try (left; right; lia); right; lia.
  - destruct (wakers s) as [|n] eqn:Hn; [done|]. injection Hs as <-.
    replace (set_wakers s n) with (set_todo (set_wakers s n) (todo s)) by done.
    apply inv_wakeup; [done|by left].
Qed.

Lemma run_inv body ls s s' : inv s -> run body s ls = Some s' -> inv s'.
Proof.
  revert s. induction ls as [|l ls IH]; intros s Hi Hr; simpl in Hr; [by simplify_eq|].
  apply bind_Some in Hr as (s1 & Hs & Hr). eapply IH; [|done]. by eapply inv_step.
Qed.

Lemma loop_reachable_inv body s : reachable body s -> inv s.
Proof. intros [ls Hr]. eapply run_inv; [apply loop_inv_init|done]. Qed.

Lemma run_app body s ls1 ls2 s1 :
  run body s ls1 = Some s1 -> run body s (ls1 ++ ls2) = run body s1 ls2.
Proof.
  revert s. induction ls1 as [|l ls1 IH]; intros s Hr; simpl in *; [by simplify_eq|].
  apply bind_Some in Hr as (s' & Hs & Hr). rewrite Hs. simpl. by apply IH.
Qed.

(** ** Progress of the loop thread *)

(** User code does not call itself through [runInLoop] for ever: nested calls
    have decreasing rank. *)
Definition well_nested (body : Z -> list action) (rank : Z -> nat) : Prop :=
  forall f g, RunInLoop g ∈ body f -> (rank g < rank f)%nat.

(** What user code leaves alone, or extends. *)
Definition extends (s s' : t) : Prop :=
  at_pc s' = at_pc s /\ executed s' = executed s /\
  exists more, _pending_functors s' = _pending_functors s ++ more.

Global Instance extends_preorder : PreOrder extends.
Proof.
  split.
  - intros s. split_and!; [done|done|]. exists []. by rewrite app_nil_r.
  - intros s1 s2 s3 (H1 & H2 & m & H3) (H4 & H5 & m' & H6). split_and!; [congruence|congruence|].
    exists (m ++ m'). by rewrite H6, H3, app_assoc.
Qed.

Definition loops (n : nat) : list label := replicate n LoopThread.

Lemma run_loops_trans body s s1 s2 n m :
  run body s (loops n) = Some s1 -> run body s1 (loops m) = Some s2 ->
  run body s (loops (n + m)) = Some s2.
Proof. intros H1 H2. unfold loops. rewrite replicate_add. by rewrite (run_app _ _ _ _ _ H1). Qed.

Lemma perform_extends body s a rest :
  match a with RunInLoop _ => True | _ => extends s (perform body s a rest) end.
Proof.
  destruct a as [f|f| |]; try done.
  - split_and!; [done|done|]. by exists [f].
  - split_and!; [done|done|]. exists []. by rewrite app_nil_r.
  - unfold extends. simpl. destruct (_calling_pending_functors s).
    + pose proof (wakeup_other (set_todo s rest)) as (_&_&_&_&->&->&_&_&_&->&_). split_and!; [done|done|].
      exists []. by rewrite app_nil_r.
    + split_and!; [done|done|]. exists []. by rewrite app_nil_r.
Qed.

Lemma wake_todo body s rest : todo (perform body s WakeIfCalling rest) = rest.
Proof.
  simpl. destruct (_calling_pending_functors s); [|done].
  by pose proof (wakeup_other (set_todo s rest)) as (_&_&_&_&_&_&->&_).
Qed.

Lemma user_code_completes body rank :
  well_nested body rank ->
  forall r acts rest s, (forall g, RunInLoop g ∈ acts -> (rank g < r)%nat) -> todo s = acts ++ rest ->
  exists n s', run body s (loops n) = Some s' /\ todo s' = rest /\ extends s s'.
Proof.
  intros Hwn r. induction (lt_wf r) as [r _ IHr]. intros acts rest.
  induction acts as [|a acts IH]; intros s Hr Ht; simpl in Ht; [by exists 0%nat, s|].
  assert (forall s1, todo s1 = acts ++ rest -> extends s s1 ->
    (exists n, run body s (loops n) = Some s1) ->
    exists n s', run body s (loops n) = Some s' /\ todo s' = rest /\ extends s s') as Hthen.
  { intros s1 Ht1 He1 [n Hn]. destruct (IH s1) as (m & s2 & Hm & Ht2 & He2); [set_solver|done|].
    exists (n + m)%nat, s2. split_and!; [by eapply run_loops_trans|done|by etrans]. }
  pose proof (perform_extends body s a (acts ++ rest)) as Hpe.
  destruct a as [f|f| |].
  - set (s1 := perform body s (RunInLoop f) (acts ++ rest)).
    destruct (IHr (rank f) ltac:(set_solver) (body f) (acts ++ rest) s1) as (n & s2 & Hn & Ht2 & He2).
    { intros g Hg. by eapply Hwn. }
    { done. }
    apply (Hthen s2); [done|exact He2|]. exists (S n). simpl. rewrite Ht. exact Hn.
  - set (s1 := perform body s (QueueInLoop f) (acts ++ rest)).
    apply (Hthen (perform body s1 WakeIfCalling (acts ++ rest))).
    + apply wake_todo.
    + etrans; [exact Hpe|]. apply (perform_extends body s1 WakeIfCalling).
    + exists 2%nat. simpl. rewrite Ht. done.
  - apply (Hthen (perform body s Quit (acts ++ rest))); [done|exact Hpe|].
    exists 1%nat. simpl. by rewrite Ht.
  - apply (Hthen (perform body s WakeIfCalling (acts ++ rest))); [apply wake_todo|exact Hpe|].
    exists 1%nat. cbn [loops replicate run step]. by rewrite Ht.
Qed.

(** The rank of a list of actions. *)
Fixpoint rank_of (rank : Z -> nat) (acts : list action) : nat :=
  match acts with
  | [] => 0
  | RunInLoop g :: acts => Nat.max (S (rank g)) (rank_of rank acts)
  | _ :: acts => rank_of rank acts
  end.

Lemma rank_of_spec rank acts g : RunInLoop g ∈ acts -> (rank g < rank_of rank acts)%nat.
Proof.
  induction acts as [|a acts IH]; [set_solver|]. intros [<-|Hin]%elem_of_cons; simpl; [lia|].
  specialize (IH Hin). destruct a; lia.
Qed.

Lemma todo_completes body rank s :
  well_nested body rank ->
  exists n s', run body s (loops n) = Some s' /\ todo s' = [] /\ extends s s'.
Proof.
  intros Hwn. apply (user_code_completes body rank Hwn (rank_of rank (todo s)) (todo s)).
  - apply rank_of_spec.
  - by rewrite app_nil_r.
Qed.

(** All channels that were ready are handled. *)
Lemma handling_completes body rank active s :
  well_nested body rank -> at_pc s = Handling active -> todo s = [] ->
  exists n s' more, run body s (loops n) = Some s' /\ todo s' = [] /\ at_pc s' = Swapping /\
    executed s' = executed s /\ _pending_functors s' = _pending_functors s ++ more.
Proof.
  intros Hwn. revert s. induction active as [|[|cb] active IH]; intros s Hpc Ht.
  - eexists 1%nat, _, []. simpl. rewrite Ht. unfold loop_step. rewrite Hpc. rewrite app_nil_r. done.
  - destruct (IH (set_at (handleRead s) (Handling active))) as (n & s' & more & Hn & ?); [done|done|].
    exists (S n), s', more. split; [|done]. simpl. rewrite Ht. unfold loop_step. rewrite Hpc. exact Hn.
  - set (s1 := set_todo (set_at s (Handling active)) cb).
    destruct (todo_completes body rank s1 Hwn) as (n & s2 & Hn & Ht2 & Hpc2 & He2 & m1 & Hp2).
    destruct (IH s2) as (m & s3 & m2 & Hm & Ht3 & Hpc3 & He3 & Hp3); [done|done|].
    exists (S (n + m)), s3, (m1 ++ m2). split_and!; try done.
    + simpl. rewrite Ht. unfold loop_step. rewrite Hpc. by apply (run_loops_trans body s1 s2 s3).
    + by rewrite He3, He2.
    + by rewrite Hp3, Hp2, app_assoc.
Qed.

(** All functors taken out of the queue are run. *)
Lemma running_completes body rank fs s :
  well_nested body rank -> at_pc s = Running fs -> todo s = [] ->
  exists n s', run body s (loops n) = Some s' /\ todo s' = [] /\ at_pc s' = AtWhile /\
    executed s' = executed s ++ fs.
Proof.
  intros Hwn. revert s. induction fs as [|f fs IH]; intros s Hpc Ht.
  - eexists 1%nat, _. simpl. rewrite Ht. unfold loop_step. rewrite Hpc. by rewrite app_nil_r.
  - destruct (loop_step body s) as [s1|] eqn:Hs1; [|by unfold loop_step in Hs1; rewrite Hpc in Hs1].
    pose proof Hs1 as Hs1'. unfold loop_step in Hs1. rewrite Hpc in Hs1. injection Hs1 as <-.
    set (s1 := mk _ _ _ _ _ _ _ _ _ _ _ _ _) in *.
    destruct (todo_completes body rank s1 Hwn) as (n & s2 & Hn & Ht2 & Hpc2 & He2 & _).
    destruct (IH s2) as (m & s3 & Hm & Ht3 & Hpc3 & He3); [done|done|].
    exists (S (n + m)), s3. split_and!; try done.
    + simpl. rewrite Ht, Hs1'. by apply (run_loops_trans body s1 s2 s3).
    + rewrite He3, He2. simpl. by rewrite <-app_assoc.
Qed.

Lemma swap_completes body rank s :
  well_nested body rank -> at_pc s = Swapping -> todo s = [] ->
  exists n s', run body s (loops n) = Some s' /\ todo s' = [] /\ at_pc s' = AtWhile /\
    executed s' = executed s ++ _pending_functors s.
Proof.
  intros Hwn Hpc Ht.
  destruct (loop_step body s) as [s1|] eqn:Hs1; [|by unfold loop_step in Hs1; rewrite Hpc in Hs1].
  pose proof Hs1 as Hs1'. unfold loop_step in Hs1. rewrite Hpc in Hs1. injection Hs1 as <-.
  set (s1 := mk _ _ _ _ _ _ _ _ _ _ _ _ _) in *.
  destruct (running_completes body rank (_pending_functors s) s1 Hwn) as (n & s' & Hn & ? & ? & He); [done|done|].
  exists (S n), s'. split_and!; try done. simpl. rewrite Ht, Hs1'. exact Hn.
Qed.
End EventLoopFacts.

(** ** Theorems *)
Module EventLoopTheorems.
Import EventLoop EventLoopSpec EventLoopFacts.

(** C3. No functor passed to [queueInloop], from whatever thread, is lost, run
    twice or overtaken: at any moment the functors ever queued, in the order of
    the calls, are those that the loop thread has started, then those of the
    batch it is running, then those still pending (which they stay if the loop
    quits). *)
Theorem functors_fifo body s :
  reachable body s -> queued s = executed s ++ in_flight s ++ _pending_functors s.
Proof. intros Hr. apply (loop_reachable_inv _ _ Hr). Qed.

(** C4. No wakeup is lost: whenever the loop thread is inside [poll] while a
    functor is pending or [_quit] is set, the eventfd is readable (so that
    [poll] must return with the wakeup channel) or another thread is about to
    write it and can do so at once.  The one exception ([early]) is a functor
    that the loop thread itself queued while it was not in [loop()]: it waits
    until the first [poll] returns for another reason. *)
Theorem no_lost_wakeup body s :
  reachable body s -> at_pc s = Polling ->
  ((_pending_functors s <> [] /\ early s = false) \/ _quit s = true) ->
  (0 < eventfd s /\ poll_allows s [] = false /\ poll_allows s [WakeupEvent] = true) \/
  exists s', step body s OtherWakes = Some s' /\ at_pc s' = Polling /\ 0 < eventfd s' /\
    poll_allows s' [] = false /\ poll_allows s' [WakeupEvent] = true.
Proof.
  intros Hr Hpc Hreq. pose proof (loop_reachable_inv _ _ Hr) as [_ He _ Hw _]. rewrite Hpc in Hw.
  destruct Hw as [Hw1 Hw2].
  assert (forall s0, 0 < eventfd s0 -> poll_allows s0 [] = false /\ poll_allows s0 [WakeupEvent] = true) as Hpa.
  { intros s0 Hs0. unfold poll_allows. simpl. split; [apply bool_decide_eq_false_2|apply bool_decide_eq_true_2]; lia. }
  assert (armed s) as [Ha|Ha].
  { destruct Hreq as [[Hp Hea]|Hq]; [|by apply Hw2]. destruct (Hw1 Hp) as [?|?]; [done|congruence]. }
  - left. split; [done|]. by apply Hpa.
  - right. destruct (wakers s) as [|n] eqn:Hn; [lia|]. simpl. rewrite Hn. eexists. split; [done|].
    pose proof (wakeup_armed (set_wakers s n) He) as Hpos.
    pose proof (wakeup_other (set_wakers s n)) as (_&_&_&_&_&->&_). split; [done|]. split; [lia|]. apply Hpa. lia.
Qed.

(** C24. An iteration of the loop terminates and runs everything that was
    pending when [poll] returned, provided user code does not call itself for
    ever through [runInLoop]: from [poll]'s return the loop thread reaches the
    test of [_quit] again, having started all those functors in order. *)
Theorem iteration_runs_pending body rank s active s1 :
  well_nested body rank -> step body s (PollReturns active) = Some s1 ->
  exists n s2 more, run body s1 (loops n) = Some s2 /\ at_pc s2 = AtWhile /\
    executed s2 = executed s ++ _pending_functors s ++ more.
Proof.
  intros Hwn Hs. simpl in Hs. destruct (at_pc s) eqn:Hpc; try done.
  destruct (poll_allows s active); [|done]. injection Hs as <-. set (s1 := mk _ _ _ _ _ _ _ _ _ _ _ _ _).
  destruct (handling_completes body rank active s1 Hwn) as (n & s2 & more & Hn & Ht & Hpc2 & He & Hp); [done|done|].
  destruct (swap_completes body rank s2 Hwn Hpc2 Ht) as (m & s3 & Hm & _ & Hpc3 & He3).
  exists (n + m)%nat, s3, more. split_and!; [by eapply run_loops_trans|done|]. by rewrite He3, He, Hp.
Qed.

(** [quit()] is not remembered across the start of [loop()]: whatever was
    requested before, [loop()] clears [_quit] and goes on to [poll]. *)
Theorem quit_before_loop_is_lost body s :
  at_pc s = Outside -> todo s = [] -> _quit s = true ->
  exists s1 s2, step body s CallLoop = Some s1 /\ _quit s1 = false /\
    step body s1 LoopThread = Some s2 /\ at_pc s2 = Polling.
Proof.
  intros Hpc Ht _. simpl. rewrite Hpc, Ht. eexists _, _. split; [done|]. split; [done|].
  simpl. split; done.
Qed.

(** *** Concrete runs *)

(** Functor 1 queues functor 2, functor 2 runs functor 3 in place, which quits. *)
Definition sample_body (f : Z) : list action :=
  if bool_decide (f = 1) then [QueueInLoop 2]
  else if bool_decide (f = 2) then [RunInLoop 3]
  else if bool_decide (f = 3) then [Quit] else [].
Definition sample_rank (f : Z) : nat := Z.to_nat (4 - f).

Lemma sample_well_nested : well_nested sample_body sample_rank.
Proof.
  intros f g. unfold sample_body, sample_rank. repeat case_bool_decide; subst; rewrite ?elem_of_cons, ?elem_of_nil.
  - intros [?|?]; [congruence|done].
  - intros [[= ->]|?]; [lia|done].
  - intros [?|?]; [congruence|done].
  - done.
Qed.

Definition queue_then_poll : list label := [CallLoop; OtherQueues 1; LoopThread].

Definition end_of (ls : list label) : t :=
  match run sample_body init ls with Some s => s | None => init end.

Lemma functors_fifo_witness :
  queued (end_of (queue_then_poll ++ [OtherWakes; PollReturns [WakeupEvent]] ++ loops 6)) = [1] ++ [] ++ [2].
Proof.
  apply (functors_fifo sample_body (end_of (queue_then_poll ++ [OtherWakes; PollReturns [WakeupEvent]] ++ loops 6))).
  exists (queue_then_poll ++ [OtherWakes; PollReturns [WakeupEvent]] ++ loops 6). vm_compute. reflexivity.
Defined.

Lemma no_lost_wakeup_witness :
  eventfd (end_of queue_then_poll) = 0 /\ _pending_functors (end_of queue_then_poll) = [1] /\
  exists s', step sample_body (end_of queue_then_poll) OtherWakes = Some s' /\ 0 < eventfd s'.
Proof.
  split; [reflexivity|]. split; [reflexivity|].
  destruct (no_lost_wakeup sample_body (end_of queue_then_poll)) as [(Hpos & _)|(s' & Hs & _ & Hpos & _)].
  - exists queue_then_poll. vm_compute. reflexivity.
  - reflexivity.
  - left. split; [discriminate|reflexivity].
  - discriminate Hpos.
  - exists s'. split; [exact Hs|exact Hpos].
Defined.

Lemma iteration_runs_pending_witness :
  exists s s1 n s2 more, step sample_body s (PollReturns [WakeupEvent]) = Some s1 /\
    run sample_body s1 (loops n) = Some s2 /\ executed s2 = [1] ++ more.
Proof.
  set (s := end_of (queue_then_poll ++ [OtherWakes])). vm_compute in s.
  destruct (iteration_runs_pending sample_body sample_rank s [WakeupEvent] _ sample_well_nested eq_refl)
    as (n & s2 & more & Hn & _ & He).
  eexists s, _, n, s2, more. split; [reflexivity|]. split; [exact Hn|exact He].
Defined.

Lemma quit_before_loop_is_lost_witness :
  exists s s1 s2, run sample_body init [OtherQuits; OtherWakes] = Some s /\ _quit s = true /\
    step sample_body s CallLoop = Some s1 /\ step sample_body s1 LoopThread = Some s2 /\ at_pc s2 = Polling.
Proof.
  eexists.
  destruct (quit_before_loop_is_lost sample_body
    (mk false true false false 0 [] 1 Outside [] 0 [] [] false)) as (s1 & s2 & H1 & _ & H2 & H3).
  - reflexivity.
  - reflexivity.
  - reflexivity.
  - exists s1, s2. split; [vm_compute; reflexivity|]. split; [reflexivity|]. split; [exact H1|]. split; [exact H2|exact H3].
Defined.

(** The exception of [no_lost_wakeup]: a functor the loop thread queues before
    it calls [loop()] waits in the first [poll], with the eventfd not readable. *)
Example early_functor_waits :
  exists s, run sample_body init [UserCode [QueueInLoop 1]; LoopThread; LoopThread; CallLoop; LoopThread] = Some s /\
    at_pc s = Polling /\ _pending_functors s = [1] /\ eventfd s = 0 /\ wakers s = 0%nat.
Proof. eexists. split; [vm_compute; reflexivity|]. done. Qed.
End EventLoopTheorems.
