(* ===== verification/LoopTimers.v ===== *)
(** * LoopTimers: timers set and cancelled from any thread

    [TimerQueues] models the operations of [TimerQueue] in its loop thread.
    Here they are composed with [EventLoop::runInLoop]
    ([src/muduo/net/EventLoop.cc], [TimerQueue.cc]): in another thread
    [addTimer] creates the [Timer] and queues its insertion, [cancel] queues the
    cancellation, and the loop runs the queued functors in order.  A timer whose
    insertion is queued is alive but in neither set.  A handler of the loop
    thread is one step: all that it shares with the other threads is the
    allocator, the atomic counter of timers and the queue of functors.

    The last action of [addTimer], reading [timer->sequence()] for the
    [TimerId] it returns, is a step of its own. *)
From S2P Require Import Prelude Timestamps StdSet TimerQueues EventLoops.

Local Open Scope Z_scope.
Local Open Scope muduo_scope.

Module SharedTimers.
Import TimerQueue TimerQueueSpec.

Inductive functor : Type :=
  | AddTimerInLoop (timer : Z)
  | CancelInLoop (timerId : TimerId).

Record t : Type := mk {
  queue_ : TimerQueue.t;
  pending_ : list functor;      (* in the loop's queue, oldest first *)
  callers_ : list TimerId }.    (* other threads in [addTimer], after [runInLoop], with the timer they created *)

Definition init : t := mk TimerQueue.init [] [].

(** [addTimer] in another thread, up to and with [runInLoop]. *)
Definition addTimer (timer cb : Z) (when : Timestamp.t) (interval : double) (s : t) : t :=
  let q := queue_ s in
  let seq := i64 (s_numCreated_ q + 1) in
  mk (TimerQueue.mk (<[timer := Timer.init cb when interval seq]> (heap q)) seq (timerfd_ q) (timers_ q)
                    (activeTimers_ q) (callingExpiredTimers_ q) (cancelingTimers_ q))
     (pending_ s ++ [AddTimerInLoop timer]) (callers_ s ++ [(timer, seq)]).

(** Its [return TimerId(timer, timer->sequence())], in the call that created the
    timer [id]: the pointer is followed once more. *)
Definition addTimer_returns (id : TimerId) (s : t) : outcome (TimerId * t) :=
  x ← deref (queue_ s) id.1;
  mret ((id.1, Timer.sequence_ x), mk (queue_ s) (pending_ s) (list_difference (callers_ s) [id])).

(** [cancel] in another thread. *)
Definition cancel (id : TimerId) (s : t) : t := mk (queue_ s) (pending_ s ++ [CancelInLoop id]) (callers_ s).

(** The loop runs the oldest functor. *)
Definition run_functor (now : Timestamp.t) (s : t) : outcome t :=
  match pending_ s with
  | [] => mret s
  | f :: rest =>
      q ← (match f with
           | AddTimerInLoop timer => addTimerInLoop (queue_ s) now timer
           | CancelInLoop id => cancelInLoop (queue_ s) id
           end);
      mret (mk q rest (callers_ s))
  end.

Inductive event : Type :=
  | OtherAdds (timer cb : Z) (when : Timestamp.t) (interval : double)
  | OtherReturns (id : TimerId)
  | OtherCancels (id : TimerId)
  | RunFunctor (now : Timestamp.t)
  | LoopAdds (now : Timestamp.t) (timer cb : Z) (when : Timestamp.t) (interval : double)
  | LoopCancels (id : TimerId)
  | Fires (now armed_at : Timestamp.t) (run : Z -> TimerQueue.t -> outcome TimerQueue.t).

(** In the loop thread [runInLoop] runs its functor at once. *)
Definition step (s : t) (ev : event) : outcome t :=
  match ev with
  | OtherAdds timer cb when interval => mret (addTimer timer cb when interval s)
  | OtherReturns id => '(_, s) ← addTimer_returns id s; mret s
  | OtherCancels id => mret (cancel id s)
  | RunFunctor now => run_functor now s
  | LoopAdds now timer cb when interval =>
      '(q, _) ← TimerQueue.addTimer (queue_ s) now timer cb when interval;
      mret (mk q (pending_ s) (callers_ s))
  | LoopCancels id => q ← TimerQueue.cancel (queue_ s) id; mret (mk q (pending_ s) (callers_ s))
  | Fires now armed_at run => q ← handleRead run (queue_ s) now armed_at; mret (mk q (pending_ s) (callers_ s))
  end.

(** The allocator returns memory that is not in use, a [TimerId] comes from a
    timer that was created, the clock does not go back, and callbacks use the
    queue through its interface. *)
Definition allowed (clk : Z) (s : t) (ev : event) : Prop :=
  let q := queue_ s in
  match ev with
  | OtherAdds timer cb when interval =>
      heap q !! timer = None /\ 0 < timer < UINTPTR_MAX /\ s_numCreated_ q + 1 < two_63 /\ time_ok when /\ interval_ok interval
  | OtherReturns id => id ∈ callers_ s
  | OtherCancels id => id.2 <= s_numCreated_ q
  | RunFunctor now => clk <= now /\ time_ok now
  | LoopAdds now timer cb when interval => clk <= now /\ add_ok q now timer when interval
  | LoopCancels id => True
  | Fires now armed_at run => clk <= now /\ now <= armed_at <= time_bound /\ callback_ok now armed_at run
  end.
Definition clock (clk : Z) (ev : event) : Z :=
  match ev with RunFunctor now | LoopAdds now _ _ _ _ => now | Fires _ armed_at _ => armed_at | _ => clk end.

Inductive runs (clk0 : Z) (s0 : t) : Z -> t -> Prop :=
  | runs_refl : runs clk0 s0 clk0 s0
  | runs_step clk s ev s' : runs clk0 s0 clk s -> allowed clk s ev -> step s ev ⇓ s' -> runs clk0 s0 (clock clk ev) s'.
Definition reachable (clk : Z) (s : t) : Prop := exists clk0, 0 < clk0 /\ runs clk0 init clk s.

(** Is the timer [id] alive? *)
Definition alive (s : t) (id : TimerId) : Prop :=
  exists x, heap (queue_ s) !! id.1 = Some x /\ Timer.sequence_ x = id.2.
(** Every event but a return from [addTimer] that reads freed memory. *)
Definition reads_live (s : t) (ev : event) : Prop :=
  match ev with OtherReturns id => is_Some (heap (queue_ s) !! id.1) | _ => True end.

(** The timers whose insertion is queued. *)
Definition added (f : functor) : option Z := match f with AddTimerInLoop p => Some p | CancelInLoop _ => None end.
Definition adds (l : list functor) : list Z := omap added l.
End SharedTimers.

(** ** Lemmas *)
Module LoopTimersFacts.
Import TimerQueue TimerQueueSpec TimerQueueFacts SharedTimers.

Lemma timer_inv_perm L L' q : L ≡ₚ L' -> inv L q -> inv L' q.
Proof.
  intros HP [? ? ? ? Hh Hl Hn ? ?]. split; try done.
  - intros p x Hx. destruct (Hh p x Hx) as (H1&H2&H3&H4&H5&Hloc). repeat (split; [assumption|]). by rewrite <-HP.
  - intros p. rewrite <-HP. apply Hl.
  - by rewrite <-HP.
Qed.

Lemma adds_app l1 l2 : adds (l1 ++ l2) = adds l1 ++ adds l2.
Proof. apply omap_app. Qed.

(** A queued cancellation is older than every insertion queued behind it. *)
Fixpoint ordered (h : gmap Z Timer.t) (l : list functor) : Prop :=
  match l with
  | [] => True
  | CancelInLoop id :: rest => (forall p x, p ∈ adds rest -> h !! p = Some x -> id.2 < Timer.sequence_ x) /\ ordered h rest
  | AddTimerInLoop _ :: rest => ordered h rest
  end.

Lemma ordered_ext h h' l : (forall p, p ∈ adds l -> h' !! p = h !! p) -> ordered h l -> ordered h' l.
Proof.
  induction l as [|[p|id] l IH]; [done|..]; cbn [ordered].
  - intros He. apply IH. intros p' Hp'. apply He. by apply elem_of_cons; right.
  - intros He [Hc Ho]. split; [|by apply IH]. intros p x Hp. rewrite He by done. by apply Hc.
Qed.

Lemma ordered_add h l timer x : ordered h l -> (timer ∉ adds l) -> (forall id, CancelInLoop id ∈ l -> id.2 < Timer.sequence_ x) ->
  ordered (<[timer := x]> h) (l ++ [AddTimerInLoop timer]).
Proof.
  induction l as [|[p|id] l IH]; [done|..]; cbn [ordered app].
  - intros Ho Hn Hc. apply IH; [done|intros ?; apply Hn; by apply elem_of_cons; right|].
    intros id Hid. apply Hc. by apply elem_of_cons; right.
  - intros [Hcl Ho] Hn Hc. split; [|apply IH; [done|done|intros id' Hid'; apply Hc; by apply elem_of_cons; right]].
    intros p y Hp Hy. rewrite adds_app in Hp. destruct (decide (p = timer)) as [->|Hne].
    + rewrite lookup_insert_eq in Hy. injection Hy as <-. apply Hc. by apply elem_of_cons; left.
    + rewrite lookup_insert_ne in Hy by done. apply (Hcl p y); [|done]. apply elem_of_app in Hp as [?|Hp]; [done|].
      by apply list_elem_of_singleton in Hp.
Qed.

Lemma ordered_cancel h l id : ordered h l -> ordered h (l ++ [CancelInLoop id]).
Proof.
  induction l as [|[p|id'] l IH]; cbn [ordered app]; [intros _; by split; [intros p x ?%elem_of_nil|]|done|].
  intros [Hc Ho]. split; [|by apply IH]. intros p x. rewrite adds_app. intros [?|?%elem_of_nil]%elem_of_app; [by apply Hc|done].
Qed.

Record loop_inv (clk : Z) (s : t) : Prop := {
  li_clk : 0 < clk;
  li_inv : inv (adds (pending_ s)) (queue_ s);
  li_alarm : alarm clk (queue_ s);
  li_calling : callingExpiredTimers_ (queue_ s) = false;
  li_ordered : ordered (heap (queue_ s)) (pending_ s);
  li_issued id : CancelInLoop id ∈ pending_ s -> id.2 <= s_numCreated_ (queue_ s) }.

(** Timers are not brought back: what is alive was alive, or is new. *)
Definition newer (q q' : TimerQueue.t) : Prop :=
  s_numCreated_ q <= s_numCreated_ q' /\
  forall p x', heap q' !! p = Some x' -> s_numCreated_ q < Timer.sequence_ x' \/
    exists x, heap q !! p = Some x /\ Timer.sequence_ x = Timer.sequence_ x'.

Global Instance newer_preorder : PreOrder newer.
Proof.
  split.
  - intros q. split; [done|]. intros p x Hx. right. by exists x.
  - intros q1 q2 q3 [H12 N12] [H23 N23]. split; [lia|]. intros p x3 H3. destruct (N23 p x3 H3) as [?|(x2 & H2 & Heq)]; [left; lia|].
    destruct (N12 p x2 H2) as [?|(x1 & H1 & Heq1)]; [left; lia|]. right. exists x1. by rewrite Heq1.
Qed.

Lemma newer_sub q q' : s_numCreated_ q' = s_numCreated_ q -> (forall p x, heap q' !! p = Some x -> heap q !! p = Some x) -> newer q q'.
Proof. intros Hn Hh. split; [by rewrite Hn|]. intros p x Hx. right. exists x. by split; [apply Hh|]. Qed.

Lemma addTimer_newer L q now timer cb when interval q' id :
  inv L q -> add_ok q now timer when interval -> TimerQueue.addTimer q now timer cb when interval ⇓ (q', id) -> newer q q'.
Proof.
  intros Hi [Hfresh Haddr Hcount Hnow Hwhen Hint] He. pose proof (inv_created _ _ Hi). unfold TimerQueue.addTimer in He. rewrite i64_small in He by zlia.
  destruct (addTimerInLoop_ok L _ now timer _ (inv_new L q timer cb when interval Hi Hfresh Haddr Hwhen Hint) (lookup_insert_eq _ _ _) Hnow)
    as (q2 & He2 & _ & Hh & Hn & _). rewrite He2 in He. injection He as <- _. split; [rewrite Hn; cbn; lia|].
  intros p x'. rewrite Hh. cbn [heap]. intros [[<- <-]|[_ Hx]]%lookup_insert_Some; [left; cbn; lia|]. right. by exists x'.
Qed.

Lemma cancel_newer L q id q' : inv L q -> TimerQueue.cancel q id ⇓ q' -> newer q q' /\ forall p, p ∈ L -> heap q' !! p = heap q !! p.
Proof.
  intros Hi He. destruct (cancel_ok L q id Hi) as (q2 & He2 & _ & _ & Hn & _ & Hm). rewrite He in He2. injection He2 as <-. case_decide as Hin.
  - destruct Hm as (_ & Hh & _). rewrite Hh. split.
    + apply newer_sub; [done|]. intros p x. rewrite Hh. by intros [_ ?]%lookup_delete_Some.
    + intros p Hp. apply lookup_delete_ne. intros <-. destruct id as [p s]. by apply (limbo_not_active L q p s Hi Hp).
  - destruct Hm as (Hh & _). rewrite Hh. split; [|done]. apply newer_sub; [done|]. by rewrite Hh.
Qed.

Lemma api_newer L t0 t1 q q' : inv L q -> alarm_calling t1 q -> rtc (api_step t0 t1) q q' -> newer q q'.
Proof.
  intros Hi Ha Hs. revert Hi Ha. induction Hs as [q|q q1 q2 Hs _ IH]; intros Hi Ha; [done|].
  destruct (timer_api_step_ok L t0 t1 q q1 Hi Ha Hs) as (Hi1 & Ha1 & _). etransitivity; [|by apply IH].
  destruct Hs as [now timer cb when interval id Hok _ He|id He]; [by eapply addTimer_newer|by eapply cancel_newer].
Qed.

(** [reset] creates no timer. *)
Lemma insert_counts q p q' b : TimerQueue.insert q p ⇓ (q', b) -> s_numCreated_ q' = s_numCreated_ q.
Proof.
  unfold TimerQueue.insert. destruct (sizes_agree q); [|done]. cbn [assert_ mbind outcome_bind]. destruct (deref q p) as [x|]; [|done].
  cbn [mbind outcome_bind]. destruct (set_insert _ _) as [l []]; [|done]. cbn [assert_ mbind outcome_bind].
  destruct (bool_decide _); [|done]. cbn [assert_ mbind outcome_bind]. destruct (sizes_agree _); [|done]. by intros [= <- _].
Qed.

Lemma reset_counts now es : forall q q', run_all (reset_one now) q es ⇓ q' -> s_numCreated_ q' = s_numCreated_ q.
Proof.
  induction es as [|e es IH]; intros q q'; [by intros [= <-]|]. cbn [run_all]. intros (q1 & Hq1 & Hq')%bind_Done. rewrite (IH _ _ Hq').
  unfold reset_one in Hq1. destruct (deref q e.2) as [x|]; [|done]. cbn [mbind outcome_bind] in Hq1.
  destruct (Timer.repeat_ x && bool_decide ((e.2, Timer.sequence_ x) ∉ cancelingTimers_ q)); [|by injection Hq1 as <-].
  destruct (Timer.restart x now) as [x'|]; [|done]. cbn [mbind outcome_bind] in Hq1.
  destruct (TimerQueue.insert _ e.2) as [[q2 b]|] eqn:Hins; [|done]. injection Hq1 as <-. by apply insert_counts in Hins.
Qed.

Lemma handleRead_counts run q now armed_at q' es q0 qc : handleRead run q now armed_at ⇓ q' -> getExpired (readTimerfd q) now ⇓ (es, q0) ->
  run_all (run_expired run) (set_canceling (set_calling q0 true) ∅) es ⇓ qc -> s_numCreated_ q' = s_numCreated_ qc.
Proof.
  unfold handleRead. intros He Hg Hr. rewrite Hg in He. cbn [mbind outcome_bind] in He. rewrite Hr in He. cbn [mbind outcome_bind] in He.
  unfold reset in He. apply bind_Done in He as (q1 & Hq1 & He). apply reset_counts in Hq1. cbn in Hq1. rewrite <-Hq1.
  apply bind_Done in He as (next & _ & He). unfold resetTimerfd in He. destruct (Timestamp.valid next); [|by injection He as <-].
  destruct (howMuchTimeFromNow next armed_at); [|done]. by injection He as <-.
Qed.

(** An expiration: what is alive afterwards was alive, or is new; timers whose
    insertion is queued are left alone. *)
Lemma fires_newer P run q now armed_at q' : inv P q -> 0 < now -> now <= armed_at <= time_bound -> callback_ok now armed_at run ->
  handleRead run q now armed_at ⇓ q' ->
  inv P q' /\ alarm armed_at q' /\ callingExpiredTimers_ q' = false /\ newer q q' /\ (forall p, p ∈ P -> heap q' !! p = heap q !! p).
Proof.
  intros Hi Hnow Harm Hrun He.
  destruct (handleRead_with P run q now armed_at Hi Hnow Harm Hrun) as (q2 & qc & He2 & Hi' & Ha & Hc & es & q0 & Hg & Hs & Hrun' & Hi0 & Hf & _ & _ & Hh & Hne & Hin).
  rewrite He in He2. injection He2 as <-. split_and!; [done..| |].
  - destruct (getExpired_ok _ _ now (inv_ext P q (readTimerfd q) eq_refl eq_refl eq_refl eq_refl Hi)) as (es' & q0' & Hg' & _ & Hh0 & _ & _ & _ & _ & Hn0 & _).
    rewrite Hg in Hg'. injection Hg' as <- <-.
    assert (newer (set_canceling (set_calling q0 true) ∅) qc) as Hnew.
    { eapply api_newer; [by eapply inv_ext; [..|exact Hi0]| |exact Hs]. unfold alarm_calling. cbn. destruct (timers_ q0); [done|]. inversion Hf; subst. left. lia. }
    assert (newer q qc) as Hqc.
    { change (heap (readTimerfd q)) with (heap q) in Hh0. change (s_numCreated_ (readTimerfd q)) with (s_numCreated_ q) in Hn0.
      destruct Hnew as [H1 H2]. cbn in H1, H2. rewrite Hh0, Hn0 in H2. rewrite Hn0 in H1. by split. }
    etransitivity; [exact Hqc|]. split; [by rewrite (handleRead_counts _ _ _ _ _ _ _ _ He Hg Hrun')|]. intros p x' Hx'. right.
    destruct (decide (p ∈ es.*2)) as [Hp|Hp]; [|exists x'; by rewrite <-Hne].
    destruct (inv_limbo _ _ Hi0 p) as [[x Hx] _]; [by apply elem_of_app; left|]. rewrite Hh0 in Hx. cbn in Hx. rewrite (Hin p x Hp Hx) in Hx'.
    apply rearm_fields in Hx' as (Hseq & _). exists x. rewrite Hh by (by apply elem_of_app; left). done.
  - intros p Hp. rewrite Hne, Hh; [done|by apply elem_of_app; right|]. intros Hpe.
    pose proof (inv_limbo_nodup _ _ Hi0) as Hnd. apply NoDup_app in Hnd as (_ & Hd & _). by eapply Hd.
Qed.

(** Steps of other threads. *)
Lemma other_add_inv clk s timer cb when interval : loop_inv clk s -> allowed clk s (OtherAdds timer cb when interval) ->
  loop_inv clk (addTimer timer cb when interval s) /\ newer (queue_ s) (queue_ (addTimer timer cb when interval s)).
Proof.
  intros [Hclk Hi Ha Hc Ho Hiss] (Hfresh & Haddr & Hcount & Hwhen & Hint). pose proof (inv_created _ _ Hi) as H0.
  unfold addTimer. rewrite i64_small by zlia. set (q' := TimerQueue.mk _ _ _ _ _ _ _). split; [split; cbn [queue_ pending_]; try done|].
  - apply (timer_inv_perm (timer :: adds (pending_ s))); [by rewrite adds_app, Permutation_app_comm|]. by apply inv_new.
  - apply ordered_add; [done| |].
    + intros Hin. apply (inv_limbo _ _ Hi) in Hin as [[x Hx] _]. congruence.
    + intros id Hid%Hiss. cbn. lia.
  - intros id [Hid|Hid]%elem_of_app; [apply Hiss in Hid; cbn; lia|]. by apply list_elem_of_singleton in Hid.
  - split; [cbn; lia|]. cbn. intros p x' [[<- <-]|[_ Hx]]%lookup_insert_Some; [left; cbn; lia|]. right. by exists x'.
Qed.

Lemma other_cancel_inv clk s id : loop_inv clk s -> id.2 <= s_numCreated_ (queue_ s) -> loop_inv clk (cancel id s).
Proof.
  intros [Hclk Hi Ha Hc Ho Hiss] Hid. split; cbn [cancel queue_ pending_]; try done.
  - by rewrite adds_app, app_nil_r.
  - by apply ordered_cancel.
  - intros id' [?|Hin]%elem_of_app; [by apply Hiss|]. apply list_elem_of_singleton in Hin. by injection Hin as ->.
Qed.

(** Steps of the loop thread that change only the queue. *)
Lemma loop_inv_queue clk clk' s q' : loop_inv clk s -> clk <= clk' -> inv (adds (pending_ s)) q' -> alarm clk' q' ->
  callingExpiredTimers_ q' = false -> newer (queue_ s) q' -> (forall p, p ∈ adds (pending_ s) -> heap q' !! p = heap (queue_ s) !! p) ->
  loop_inv clk' (mk q' (pending_ s) (callers_ s)).
Proof.
  intros [Hclk Hi Ha Hc Ho Hiss] Hle Hi' Ha' Hc' [Hn _] Hh. split; cbn [queue_ pending_]; try done; [lia| |].
  - by eapply ordered_ext.
  - intros id Hid%Hiss. lia.
Qed.

(** The oldest functor; a cancellation kills its timer. *)
Lemma timer_functor_ok clk now s : loop_inv clk s -> clk <= now -> time_ok now ->
  exists s', run_functor now s ⇓ s' /\ loop_inv now s' /\ newer (queue_ s) (queue_ s') /\
    forall id rest, pending_ s = CancelInLoop id :: rest -> forall x, heap (queue_ s') !! id.1 = Some x -> Timer.sequence_ x <> id.2.
Proof.
  intros Hinv Hle Hnow. pose proof Hinv as [Hclk Hi Ha Hc Ho Hiss]. unfold run_functor. destruct (pending_ s) as [|[timer|id] rest] eqn:Hp.
  - exists s. split_and!; [done| |done|done]. split; rewrite ?Hp; try done; [lia|]. unfold alarm in *. destruct (timers_ (queue_ s)); [done|].
    destruct Ha as (a & ? & ?). exists a. split; [done|lia].
  - cbn [adds omap list_omap added] in Hi. destruct (inv_limbo _ _ Hi timer) as [[x Hx] _]; [by apply elem_of_cons; left|].
    destruct (addTimerInLoop_ok _ _ now timer x Hi Hx Hnow) as (q' & -> & Hi' & Hh & Hn & _ & Hc' & _ & Hm). eexists. split; [done|].
    split_and!; [|by apply newer_sub; cbn; [|rewrite Hh]|done]. split; cbn [queue_ pending_]; try done; [lia| |by rewrite Hc'|by rewrite Hh|].
    + unfold alarm in *. destruct (timers_ q') as [|f l]; [done|]. destruct Hm as [?|(Hfd & g & l0 & Hq & Hg)]; [done|]. rewrite Hq in Ha.
      destruct Ha as (a & ? & ?). exists a. rewrite Hfd. split; [done|lia].
    + intros id Hid. rewrite Hn. apply Hiss. by apply elem_of_cons; right.
  - destruct (cancel_ok _ _ id Hi) as (q' & He & Hi' & Hfd & Hn & Hc' & Hm). destruct (cancel_newer _ _ _ _ Hi He) as [Hnew Hsame].
    pose proof (alarm_cancel _ _ _ _ _ Hi Ha He) as Ha'. unfold TimerQueue.cancel in He. rewrite He. eexists. split; [done|]. cbn [ordered] in Ho. destruct Ho as [Hyoung Ho]. split_and!; [|done|].
    + split; cbn [queue_ pending_]; try done; [lia| |by rewrite Hc'| |].
      * unfold alarm in *. destruct (timers_ q'); [done|]. destruct Ha' as (a & ? & ?). exists a. split; [done|lia].
      * eapply ordered_ext; [|exact Ho]. done.
      * intros id' Hid. rewrite Hn. apply Hiss. by apply elem_of_cons; right.
    + intros id' rest' [= <- _] x Hx Hseq. destruct Hnew as [_ Hback]. destruct (Hback _ _ Hx) as [Hlt|(x0 & Hx0 & Heq)].
      { rewrite Hseq in Hlt. specialize (Hiss id ltac:(by apply elem_of_cons; left)). lia. }
      destruct (inv_heap _ _ Hi id.1 x0 Hx0) as (_&_&_&_&_&[Hl|Hl]).
      * specialize (Hyoung id.1 x0 Hl Hx0). lia.
      * assert (id ∈ activeTimers_ (queue_ s)) as Hact. { destruct id as [p sq]. apply (inv_active _ _ Hi). exists x0. split_and!; [done|cbn in Hseq; congruence|done]. }
        rewrite decide_True in Hm by done. destruct Hm as (_ & Hh & _). cbn in Hx. rewrite Hh, lookup_delete_eq in Hx. done.
Qed.

Lemma returns_ok s id : alive s id ->
  addTimer_returns id s ⇓ (id, mk (queue_ s) (pending_ s) (list_difference (callers_ s) [id])).
Proof. intros (x & Hx & Hs). unfold addTimer_returns. rewrite (timer_deref_ok _ _ _ Hx). destruct id as [p q]. cbn in *. by rewrite Hs. Qed.

Lemma step_reads_live s ev s' : step s ev ⇓ s' -> reads_live s ev.
Proof.
  destruct ev as [|id| | | | |]; try done. cbn. unfold addTimer_returns, deref. by destruct (heap (queue_ s) !! id.1).
Qed.

Lemma loop_step_ok clk s ev : loop_inv clk s -> allowed clk s ev -> reads_live s ev ->
  exists s', step s ev ⇓ s' /\ loop_inv (clock clk ev) s' /\ newer (queue_ s) (queue_ s').
Proof.
  intros Hinv Hal Hra. pose proof Hinv as [Hclk Hi Ha Hc Ho Hiss]. destruct ev as [timer cb when interval|id|id|now|now timer cb when interval|id|now armed_at run]; cbn [step clock allowed] in *.
  - destruct (other_add_inv clk s timer cb when interval Hinv Hal). eauto.
  - destruct Hra as [x Hx]. unfold addTimer_returns. rewrite (timer_deref_ok _ _ _ Hx). eexists. split; [done|]. by split; [split|].
  - eexists. split; [done|]. split; [by apply other_cancel_inv|done].
  - destruct Hal as [Hle Hnow]. destruct (timer_functor_ok clk now s Hinv Hle Hnow) as (s' & ? & ? & ? & _). eauto.
  - destruct Hal as [Hle Hok]. destruct (addTimer_ok _ clk (queue_ s) now timer cb when interval Hi Hok Hle) as (q' & He & Hi' & Hh & _ & Hc' & _).
    rewrite He. eexists. split; [done|]. pose proof (addTimer_newer _ _ _ _ _ _ _ _ _ Hi Hok He) as Hnew. split; [|done].
    apply (loop_inv_queue clk); [done|done|done|exact (alarm_addTimer _ _ _ _ _ _ _ _ _ _ Hi Hok Hle Ha He)|by rewrite Hc'|done|]. intros p Hp. rewrite Hh. apply lookup_insert_ne. intros <-.
    apply (inv_limbo _ _ Hi) in Hp as [[x Hx] _]. destruct Hok. congruence.
  - destruct (cancel_ok _ _ id Hi) as (q' & He & Hi' & _ & _ & Hc' & _). rewrite He. eexists. split; [done|]. destruct (cancel_newer _ _ _ _ Hi He) as [Hnew Hsame].
    split; [|done]. apply (loop_inv_queue clk); [done|done|done|exact (alarm_cancel _ _ _ _ _ Hi Ha He)|by rewrite Hc'|done|done].
  - destruct Hal as (Hle & Harm & Hrun). destruct (handleRead_with _ run (queue_ s) now armed_at Hi ltac:(lia) Harm Hrun) as (q' & _ & He & _). rewrite He.
    destruct (fires_newer _ run (queue_ s) now armed_at q' Hi ltac:(lia) Harm Hrun He) as (Hi' & Ha' & Hc' & Hnew & Hsame). eexists. split; [done|]. split; [|done].
    apply (loop_inv_queue clk); [done|lia|done..].
Qed.

Lemma timer_runs_inv clk0 s0 clk s : loop_inv clk0 s0 -> runs clk0 s0 clk s -> loop_inv clk s /\ newer (queue_ s0) (queue_ s).
Proof.
  intros H0. induction 1 as [|clk s ev s' _ [IH Hn] Ha Hs]; [done|]. destruct (loop_step_ok clk s ev IH Ha) as (s2 & Hs2 & Hi2 & Hn2).
  { by eapply step_reads_live. }
  rewrite Hs in Hs2. injection Hs2 as <-. split; [done|]. by etransitivity.
Qed.

Lemma init_loop_inv clk : 0 < clk -> loop_inv clk init.
Proof. intros Hclk. split; [done|apply timer_inv_init|done|done|done|]. by intros id ?%elem_of_nil. Qed.

Lemma timers_reachable_inv clk s : reachable clk s -> loop_inv clk s.
Proof. intros (clk0 & H0 & Hr). by apply (timer_runs_inv clk0 init clk s (init_loop_inv clk0 H0)). Qed.
End LoopTimersFacts.

(** ** Properties *)
Module LoopTimersTheorems.
Import TimerQueue TimerQueueSpec TimerQueueFacts SharedTimers LoopTimersFacts.

(** C1.  Timers from any thread: whatever [addTimer]s and [cancel]s of the loop
    thread and of other threads are interleaved with the functors and the
    expirations of the loop, every step that can happen next completes without
    a failed assertion or a use of freed memory, but for one: the return of an
    [addTimer] of another thread reads [timer->sequence()], which gives the id
    of its timer while that timer is alive, and is a use of freed memory exactly
    when the loop has freed it (because it fired or was cancelled) and the
    memory holds no other timer.  Every live timer is either scheduled or has
    exactly one insertion queued, and the timerfd fires by the first deadline. *)
Theorem timers_from_any_thread clk s : reachable clk s ->
  (forall ev, allowed clk s ev -> reads_live s ev -> exists s', step s ev ⇓ s' /\ reachable (clock clk ev) s') /\
  (forall id, alive s id -> exists s', addTimer_returns id s ⇓ (id, s') /\ queue_ s' = queue_ s) /\
  (forall id, heap (queue_ s) !! id.1 = None <-> step s (OtherReturns id) = Fault OutOfBounds) /\
  NoDup (adds (pending_ s)) /\
  (forall p x, heap (queue_ s) !! p = Some x -> p ∈ adds (pending_ s) <-> (Timer.expiration_ x, p) ∉ timers_ (queue_ s)) /\
  (forall p, p ∈ adds (pending_ s) -> is_Some (heap (queue_ s) !! p)) /\
  alarm clk (queue_ s).
Proof.
  intros Hr. pose proof (timers_reachable_inv _ _ Hr) as Hinv. pose proof Hinv as [_ Hi Ha _ _ _]. split_and!.
  - intros ev Hal Hra. destruct (loop_step_ok clk s ev Hinv Hal Hra) as (s' & Hs & _). exists s'. split; [done|]. destruct Hr as (clk0 & H0 & Hruns).
    exists clk0. split; [done|]. by eapply runs_step.
  - intros id Hid. eexists. split; [by apply returns_ok|done].
  - intros id. cbn. unfold addTimer_returns, deref. by destruct (heap (queue_ s) !! id.1).
  - apply Hi.
  - intros p x Hx. split; [intros Hp; apply (inv_limbo _ _ Hi p Hp)|]. intros Hn. by destruct (inv_heap _ _ Hi p x Hx) as (_&_&_&_&_&[?|?]).
  - intros p Hp. apply (inv_limbo _ _ Hi p Hp).
  - done.
Qed.

(** A cancellation queued by another thread is final: when its functor has
    run, the timer of that id is not alive, and it never is again, even if
    the memory is used for another timer. *)
Theorem queued_cancel_final clk s id rest now s' : reachable clk s -> pending_ s = CancelInLoop id :: rest -> clk <= now -> time_ok now ->
  step s (RunFunctor now) ⇓ s' ->
  forall clk2 s2, runs now s' clk2 s2 -> forall x, heap (queue_ s2) !! id.1 = Some x -> Timer.sequence_ x <> id.2.
Proof.
  intros Hr Hp Hle Hnow Hs clk2 s2 Hruns x Hx Hseq. pose proof (timers_reachable_inv _ _ Hr) as Hinv.
  destruct (timer_functor_ok clk now s Hinv Hle Hnow) as (s1 & Hs1 & Hinv1 & [Hcount _] & Hdead). cbn [step] in Hs. rewrite Hs in Hs1. injection Hs1 as <-.
  destruct (timer_runs_inv _ _ _ _ Hinv1 Hruns) as [_ [_ Hback]]. destruct (Hback _ _ Hx) as [Hlt|(x0 & Hx0 & Heq)].
  - pose proof (li_issued _ _ Hinv id) as Hiss. rewrite Hp in Hiss. specialize (Hiss ltac:(by apply elem_of_cons; left)). lia.
  - apply (Hdead id rest Hp x0 Hx0). congruence.
Qed.

(** *** Concrete runs: another thread sets a timer at address 64 *)
Import TimerQueueTheorems (one_second, one_second_ok, idle_callback_ok).
Definition never : double := double_of_int 0.
Definition after (s : t) (ev : event) : t := match step s ev with Done s' => s' | Fault _ => s end.
Definition s_added : t := after init (OtherAdds 64 7 1000 never).
Definition s_cancelled : t := after s_added (OtherCancels (64, 1)).
Definition s_inserted : t := after s_cancelled (RunFunctor 600).

Lemma never_ok : interval_ok never.
Proof. by intros ?. Qed.

Lemma added_allowed : allowed 500 init (OtherAdds 64 7 1000 never).
Proof. split; [done|]. split; [by vm_compute|]. split; [by vm_compute|]. split; [split; by vm_compute|]. apply never_ok. Qed.

Lemma reach_more clk s ev s' : reachable clk s -> allowed clk s ev -> step s ev ⇓ s' -> reachable (clock clk ev) s'.
Proof. intros (clk0 & H0 & Hr) Ha Hs. exists clk0. split; [done|]. by eapply runs_step. Qed.

Lemma s_added_reachable : reachable 500 s_added.
Proof. apply (reach_more 500 init (OtherAdds 64 7 1000 never)); [exists 500; split; [done|constructor]|apply added_allowed|by vm_compute]. Qed.

Lemma s_inserted_reachable : reachable 600 s_inserted.
Proof.
  apply (reach_more 500 s_cancelled (RunFunctor 600)); [|by split; [|split; vm_compute]|by vm_compute].
  apply (reach_more 500 s_added (OtherCancels (64, 1))); [apply s_added_reachable|by vm_compute|by vm_compute].
Qed.

Lemma timers_from_any_thread_witness :
  NoDup (adds (pending_ s_added)) /\
  (forall p x, heap (queue_ s_added) !! p = Some x -> p ∈ adds (pending_ s_added) <-> (Timer.expiration_ x, p) ∉ timers_ (queue_ s_added)) /\
  exists s', step s_added (RunFunctor 600) ⇓ s' /\ reachable 600 s'.
Proof.
  destruct (timers_from_any_thread 500 s_added s_added_reachable) as (Hstep & _ & _ & Hnd & Hsched & _ & _).
  split; [exact Hnd|]. split; [exact Hsched|]. apply (Hstep (RunFunctor 600)); [by split; [|split; vm_compute]|done].
Defined.

Lemma queued_cancel_final_witness : heap (queue_ s_inserted) !! 64 <> None /\
  forall x, heap (queue_ (after s_inserted (RunFunctor 700))) !! 64 = Some x -> Timer.sequence_ x <> 1.
Proof.
  split; [by vm_compute|].
  apply (queued_cancel_final 600 s_inserted (64, 1) [] 700 (after s_inserted (RunFunctor 700)) s_inserted_reachable) with (clk2 := 700);
    [by vm_compute|done|by split; vm_compute|by vm_compute|constructor].
Defined.

(** A cancellation made in the loop thread overtakes an insertion that is still
    queued: it finds no such timer, and the timer is scheduled afterwards. *)
Theorem loop_cancel_overtakes_add : exists s, reachable 600 s /\
  s = after (after s_added (LoopCancels (64, 1))) (RunFunctor 600) /\ (1000, 64) ∈ timers_ (queue_ s) /\ pending_ s = [].
Proof.
  eexists. split; [|split; [reflexivity|split; [by vm_compute; left|by vm_compute]]].
  apply (reach_more 500 (after s_added (LoopCancels (64, 1))) (RunFunctor 600)); [|by split; [|split; vm_compute]|by vm_compute].
  apply (reach_more 500 s_added (LoopCancels (64, 1))); [apply s_added_reachable|done|by vm_compute].
Qed.

(** [addTimer] reads [timer->sequence()] after it has queued the insertion: if
    the loop has meanwhile run the timer and freed it, the read is of freed
    memory. *)
Theorem addTimer_reads_freed : exists s, reachable 1600 s /\ allowed 1600 s (OtherReturns (64, 1)) /\
  step s (OtherReturns (64, 1)) = Fault OutOfBounds.
Proof.
  exists (after (after s_added (RunFunctor 600)) (Fires 1500 1600 (fun _ q => Done q))). split; [|split; [by vm_compute; left|by vm_compute]].
  apply (reach_more 600 (after s_added (RunFunctor 600)) (Fires 1500 1600 (fun _ q => Done q))); [| |by vm_compute].
  - apply (reach_more 500 s_added (RunFunctor 600)); [apply s_added_reachable|by split; [|split; vm_compute]|by vm_compute].
  - split; [done|]. split; [by split; vm_compute|]. apply idle_callback_ok.
Qed.
End LoopTimersTheorems.
