(* ===== verification/LoopLifetimes.v ===== *)
(** * LoopLifetimes: loops, the threads they belong to and what they own

    The constructor and the destructor of [EventLoop] ([src/muduo/net/EventLoop.cc])
    with those of its parts: the poller ([poller/EPollPoller.cc]), the timer
    queue with its timerfd ([TimerQueue.cc]), the eventfd, and the two channels
    that the loop registers with its own poller ([Channel.cc]).  A process
    has any number of threads, each with its [t_loop_in_this_thread]; user code
    makes loops, puts channels on them and takes them off, adds timers, and
    destroys loops.  The descriptors that the kernel has given out are part of
    the state: each [::close] of a destructor is a step of its own.  The model
    is over any poller that keeps [PollerLaws]. *)
From S2P Require Import Prelude Timestamps StdSet TimerQueues Channels Pollers DefaultPollers EventLoops.

Local Open Scope Z_scope.

(** The descriptors of a process that are open, and how many calls of [::close]
    named one that was not ([EBADF]). *)
Record files : Type := mk_files { opened : gset Z; ebadf : nat }.
Definition open_file (fd : Z) (F : files) : files := mk_files ({[fd]} ∪ opened F) (ebadf F).
Definition close_file (fd : Z) (F : files) : files :=
  if bool_decide (fd ∈ opened F) then mk_files (opened F ∖ {[fd]}) (ebadf F)
  else mk_files (opened F) (S (ebadf F)).

Module LoopObject.
Section LoopObject.
Context {P : Type} `{PollerOps P}.

(** An [EventLoop] with the members of its timer queue.  [chans] are the
    channels whose [loop_] points to this loop. *)
Record t : Type := mk {
  _thread_id : Z;
  _poller : P;
  poller_fds : list Z;             (* [epollfd_] of an [EPollPoller] *)
  _timer_queue : TimerQueue.t;
  timerfd_ : Z;
  timerfdChannel_ : Z;
  _wake_up_fd : Z;
  _wake_up_channel : Z;
  chans : channels;
  _event_handling : bool;
  _active_channels : list Z;
  _current_active_channel : option Z;
}.

Definition with_io (l : t) (p : P) (σ : channels) : t :=
  mk (_thread_id l) p (poller_fds l) (_timer_queue l) (timerfd_ l) (timerfdChannel_ l)
    (_wake_up_fd l) (_wake_up_channel l) σ (_event_handling l) (_active_channels l) (_current_active_channel l).
Definition with_timers (l : t) (q : TimerQueue.t) : t :=
  mk (_thread_id l) (_poller l) (poller_fds l) q (timerfd_ l) (timerfdChannel_ l)
    (_wake_up_fd l) (_wake_up_channel l) (chans l) (_event_handling l) (_active_channels l) (_current_active_channel l).
Definition with_wake_up (l : t) (fd ch : Z) : t :=
  mk (_thread_id l) (_poller l) (poller_fds l) (_timer_queue l) (timerfd_ l) (timerfdChannel_ l)
    fd ch (chans l) (_event_handling l) (_active_channels l) (_current_active_channel l).
Definition with_active (l : t) (handling : bool) (active : list Z) (current : option Z) : t :=
  mk (_thread_id l) (_poller l) (poller_fds l) (_timer_queue l) (timerfd_ l) (timerfdChannel_ l)
    (_wake_up_fd l) (_wake_up_channel l) (chans l) handling active current.

Definition isInLoopThread (tid : Z) (l : t) : bool := bool_decide (_thread_id l = tid).

(** [new Channel(this, fd)] *)
Definition new_channel (l : t) (ch fd : Z) : t :=
  with_io l (_poller l) (<[ch := Channel.init fd]> (chans l)).
Definition setReadCallback (l : t) (ch : Z) : t :=
  with_io l (_poller l) (alter Channel.setReadCallback ch (chans l)).

(** [enableReading()] and the like, called by thread [tid]: the new mask, then
    [Channel::update] and [EventLoop::updateChannel]. *)
Definition channel_op (tid : Z) (l : t) (ch : Z) (o : chan_op) : outcome t :=
  c ← deref (chans l) ch;
  '(p, σ) ← EventLoop.updateChannel (isInLoopThread tid l) true (_poller l)
              (<[ch := Channel.set_addedToLoop true (chan_apply o c)]> (chans l)) ch;
  mret (with_io l p σ).

(** [Channel::remove] and [EventLoop::removeChannel] *)
Definition remove (tid : Z) (l : t) (ch : Z) : outcome t :=
  c ← deref (chans l) ch;
  assert_ (Channel.isNoneEvent c);;
  '(p, σ) ← EventLoop.removeChannel (isInLoopThread tid l) true (_event_handling l) (_current_active_channel l)
              (_active_channels l) (_poller l)
              (<[ch := Channel.set_addedToLoop false c]> (chans l)) ch;
  mret (with_io l p σ).

(** [~Channel]: only the loop's thread asks the loop. *)
Definition delete_channel (tid : Z) (l : t) (ch : Z) : outcome t :=
  c ← deref (chans l) ch;
  has ← (if isInLoopThread tid l
         then EventLoop.hasChannel true true (_poller l) (chans l) ch else mret false);
  Channel.destroy c has;;
  mret (with_io l (_poller l) (delete ch (chans l))).

(** What the kernel and the allocator answer to a constructor: descriptors
    (negative when the call failed) and addresses. *)
Record resources : Type := mk_resources {
  r_epollfd : option Z;            (* [None]: the environment selects [PollPoller] *)
  r_timerfd : Z;
  r_eventfd : Z;
  r_timerfdChannel : Z;
  r_wake_up_channel : Z;
}.

(** [epollfd_(::epoll_create1(...))]; [LOG_SYSFATAL] when it failed. *)
Definition create_poller (epollfd : option Z) (F : files) : outcome (list Z * files) :=
  match epollfd with
  | Some fd => if bool_decide (fd < 0) then Fault LogFatal else mret ([fd], open_file fd F)
  | None => mret ([], F)
  end.
Definition createTimerfd (timerfd : Z) (F : files) : outcome (Z * files) :=
  if bool_decide (timerfd < 0) then Fault LogFatal else mret (timerfd, open_file timerfd F).
(** [LOG_SYSERR], which does not flush, then [abort()]. *)
Definition createEventfd (event_fd : Z) (F : files) : outcome (Z * files) :=
  if bool_decide (event_fd < 0) then Fault Aborted else mret (event_fd, open_file event_fd F).

(** [TimerQueue(this)]: the timerfd is read from the start. *)
Definition new_timer_queue (tid : Z) (l : t) : outcome t :=
  let l := setReadCallback (new_channel l (timerfdChannel_ l) (timerfd_ l)) (timerfdChannel_ l) in
  channel_op tid l (timerfdChannel_ l) EnableReading.

(** Constructor; [current] is [t_loop_in_this_thread] of the calling thread. *)
Definition construct (tid : Z) (current : option Z) (r : resources) (F : files) : outcome (t * files) :=
  '(pfds, F) ← create_poller (r_epollfd r) F;
  '(timerfd, F) ← createTimerfd (r_timerfd r) F;
  l ← new_timer_queue tid (mk tid p_init pfds TimerQueue.init timerfd (r_timerfdChannel r) (-1) 0 ∅ false [] None);
  '(event_fd, F) ← createEventfd (r_eventfd r) F;
  let l := new_channel (with_wake_up l event_fd (r_wake_up_channel r)) (r_wake_up_channel r) event_fd in
  match current with
  | Some _ => Fault LogFatal       (* another EventLoop exists in this thread *)
  | None =>
      l ← channel_op tid (setReadCallback l (_wake_up_channel l)) (_wake_up_channel l) EnableReading;
      mret (l, F)
  end.

(** [~TimerQueue] and the destruction of its channel. *)
Definition destroy_timer_queue (tid : Z) (l : t) (F : files) : outcome (t * files) :=
  l ← channel_op tid l (timerfdChannel_ l) DisableAll;
  l ← remove tid l (timerfdChannel_ l);
  let F := close_file (timerfd_ l) F in
  q ← TimerQueue.destroy (_timer_queue l);
  l ← delete_channel tid (with_timers l q) (timerfdChannel_ l);
  mret (l, F).

(** [~EPollPoller]; a [PollPoller] has no descriptor. *)
Definition destroy_poller (l : t) (F : files) : files := foldr close_file F (poller_fds l).

(** The body of [~EventLoop], then the members in the reverse order of their
    declaration: the wakeup channel, the timer queue, the poller. *)
Definition destroy (tid : Z) (l : t) (F : files) : outcome files :=
  l ← channel_op tid l (_wake_up_channel l) DisableAll;
  l ← remove tid l (_wake_up_channel l);
  let F := close_file (_wake_up_fd l) F in
  l ← delete_channel tid l (_wake_up_channel l);
  '(l, F) ← destroy_timer_queue tid l F;
  mret (destroy_poller l F).

(** The descriptors that a loop owns. *)
Definition fds (l : t) : list Z := _wake_up_fd l :: timerfd_ l :: poller_fds l.
End LoopObject.
Arguments t : clear implicits.
End LoopObject.

(** ** A process with threads, loops and descriptors *)
Module LoopProcess.
Section LoopProcess.
Context {P : Type} `{PollerOps P}.

Record t : Type := mk {
  t_loop_in_this_thread : gmap Z Z;     (* by thread; absent: NULL *)
  fd_table : files;                     (* the descriptors opened by loops *)
  loops : gmap Z (LoopObject.t P);      (* live loops, by address *)
}.

Definition init : t := mk ∅ (mk_files ∅ 0) ∅.
Definition open_fds (w : t) : gset Z := opened (fd_table w).

Definition getEventLoopOfCurrentThread (w : t) (tid : Z) : option Z := t_loop_in_this_thread w !! tid.

Definition deref_loop (w : t) (a : Z) : outcome (LoopObject.t P) :=
  match loops w !! a with Some l => Done l | None => Fault Undefined end.
Definition set_loop (w : t) (a : Z) (l : LoopObject.t P) : t :=
  mk (t_loop_in_this_thread w) (fd_table w) (<[a := l]> (loops w)).

(** What the thread of a loop does with its timers ([LoopTimers] has the other
    threads): the clock readings, the address of the new timer and the
    callbacks are parameters. *)
Inductive timer_op : Type :=
  | RunAt (now timer cb : Z) (time : Timestamp.t)
  | RunAfter (now now' timer cb : Z) (delay : double)
  | RunEvery (now now' timer cb : Z) (interval : double)
  | CancelTimer (id : TimerId)
  | Expire (now armed_at : Z) (run : Z -> TimerQueue.t -> outcome TimerQueue.t).   (* the timerfd is readable *)

Definition run_timer_op (q : TimerQueue.t) (o : timer_op) : outcome TimerQueue.t :=
  match o with
  | RunAt now timer cb time => '(q, _) ← EventLoop.runAt q now timer cb time; mret q
  | RunAfter now now' timer cb delay => '(q, _) ← EventLoop.runAfter q now now' timer cb delay; mret q
  | RunEvery now now' timer cb interval => '(q, _) ← EventLoop.runEvery q now now' timer cb interval; mret q
  | CancelTimer id => EventLoop.cancel q id
  | Expire now armed_at run => TimerQueue.handleRead run q now armed_at
  end.

(** What threads do.  A label names the calling thread, the loop, and what the
    allocator returned. *)
Inductive label : Type :=
  | Construct (tid this : Z) (r : LoopObject.resources)
  | Destruct (tid this : Z)
  | NewChannel (this ch fd : Z)
  | ChannelOp (tid this ch : Z) (o : chan_op)
  | RemoveChannel (tid this ch : Z)
  | DeleteChannel (tid this ch : Z)
  | TimerOp (this : Z) (o : timer_op).                     (* by the thread of the loop *)

Definition construct (w : t) (tid this : Z) (r : LoopObject.resources) : outcome t :=
  '(l, F) ← LoopObject.construct tid (getEventLoopOfCurrentThread w tid) r (fd_table w);
  mret (mk (<[tid := this]> (t_loop_in_this_thread w)) F (<[this := l]> (loops w))).

(** [t_loop_in_this_thread] is that of the thread that runs the destructor. *)
Definition destruct_loop (w : t) (tid this : Z) : outcome t :=
  l ← deref_loop w this;
  F ← LoopObject.destroy tid l (fd_table w);
  mret (mk (delete tid (t_loop_in_this_thread w)) F (delete this (loops w))).

(** An operation of a live loop. *)
Definition on_loop (w : t) (this : Z) (f : LoopObject.t P -> outcome (LoopObject.t P)) : outcome t :=
  l ← deref_loop w this;
  l' ← f l;
  mret (set_loop w this l').

Definition on_timers (l : LoopObject.t P) (o : timer_op) : outcome (LoopObject.t P) :=
  q ← run_timer_op (LoopObject._timer_queue l) o;
  mret (LoopObject.with_timers l q).

Definition step (w : t) (lb : label) : outcome t :=
  match lb with
  | Construct tid this r => construct w tid this r
  | Destruct tid this => destruct_loop w tid this
  | NewChannel this ch fd => on_loop w this (fun l => mret (LoopObject.new_channel l ch fd))
  | ChannelOp tid this ch o => on_loop w this (fun l => LoopObject.channel_op tid l ch o)
  | RemoveChannel tid this ch => on_loop w this (fun l => LoopObject.remove tid l ch)
  | DeleteChannel tid this ch => on_loop w this (fun l => LoopObject.delete_channel tid l ch)
  | TimerOp this o => on_loop w this (fun l => on_timers l o)
  end.
End LoopProcess.
Arguments t : clear implicits.
End LoopProcess.

(** ** Specification *)
Module LoopSpec.
Import LoopObject.
Section LoopSpec.
Context {P : Type} `{PollerLaws P}.
Implicit Types (l : LoopObject.t P) (w : LoopProcess.t P).

(** The channels of a loop whose poller watches [A]: a channel is on the loop
    exactly when [addedToLoop_] says so; [h] is the channel being dispatched. *)
Record io_ok (h : option Z) (A : watches) l : Prop := {
  io_repr : repr A (_poller l) (chans l);
  io_coherent : coherent A (chans l);
  io_added ch c : chans l !! ch = Some c ->
    Channel.eventHandling_ c = bool_decide (h = Some ch) /\
    (Channel.addedToLoop_ c = true <-> fst <$> A !! Channel.fd_ c = Some ch);
}.

(** One of the loop's own channels. *)
Definition own_channel l (ch fd : Z) : Prop :=
  exists c, chans l !! ch = Some c /\ Channel.fd_ c = fd /\ Channel.addedToLoop_ c = true.

Record loop_ok l : Prop := {
  lo_io : exists A, io_ok None A l;
  lo_idle : _event_handling l = false;
  lo_wake_up : own_channel l (_wake_up_channel l) (_wake_up_fd l);
  lo_timerfd : own_channel l (timerfdChannel_ l) (timerfd_ l);
  lo_apart : _wake_up_channel l <> timerfdChannel_ l;
  lo_timers : TimerQueueSpec.inv [] (_timer_queue l);
  lo_fds : NoDup (fds l);
}.

Record proc_ok w : Prop := {
  po_loop a l : LoopProcess.loops w !! a = Some l -> loop_ok l;
  (* [t_loop_in_this_thread] of a thread is the live loop of that thread *)
  po_tls tid a : LoopProcess.getEventLoopOfCurrentThread w tid = Some a <->
    exists l, LoopProcess.loops w !! a = Some l /\ _thread_id l = tid;
  (* the open descriptors are those of the live loops *)
  po_fds fd : fd ∈ LoopProcess.open_fds w <-> exists a l, LoopProcess.loops w !! a = Some l /\ fd ∈ fds l;
  po_apart a b l m fd : LoopProcess.loops w !! a = Some l -> LoopProcess.loops w !! b = Some m ->
    fd ∈ fds l -> fd ∈ fds m -> a = b;
  (* no descriptor was closed that was not open *)
  po_closes : ebadf (LoopProcess.fd_table w) = 0%nat;
}.

(** What the kernel and the allocator return when the calls succeed. *)
Definition resources_fds (r : resources) : list Z :=
  r_eventfd r :: r_timerfd r :: option_list (r_epollfd r).
Definition resources_ok w (r : resources) : Prop :=
  NoDup (resources_fds r) /\
  Forall (fun fd => 0 <= fd < two_31 /\ fd ∉ LoopProcess.open_fds w) (resources_fds r) /\
  r_wake_up_channel r <> r_timerfdChannel r.

(** A channel of the user: not one of the two that the loop keeps for itself. *)
Definition of_user l (ch : Z) : Prop := ch <> _wake_up_channel l /\ ch <> timerfdChannel_ l.

(** A channel that may change its mask: it is on the loop, or it was never on
    it, asks for some event, and no other channel of the loop has its descriptor. *)
Definition may_update l (ch : Z) (c : Channel.t) (o : chan_op) : Prop :=
  Channel.addedToLoop_ c = true \/
  (Channel.index_ c = -1 /\ Channel.isNoneEvent (chan_apply o c) = false /\
   Z.of_nat (size (chans l)) < two_31 - 1 /\
   forall b c', chans l !! b = Some c' -> Channel.addedToLoop_ c' = true -> Channel.fd_ c' <> Channel.fd_ c).

(** What the library asks of the caller of a timer operation: times and
    intervals in range, and callbacks that use the queue through its interface. *)
Definition timer_op_ok (q : TimerQueue.t) (o : LoopProcess.timer_op) : Prop :=
  match o with
  | LoopProcess.RunAt now timer cb time => TimerQueueSpec.add_ok q now timer time (double_of_int 0)
  | LoopProcess.RunAfter now now' timer cb delay =>
      exists time, Timestamp.addTime now delay = Done time /\ TimerQueueSpec.add_ok q now' timer time (double_of_int 0)
  | LoopProcess.RunEvery now now' timer cb interval =>
      exists time, Timestamp.addTime now interval = Done time /\ TimerQueueSpec.add_ok q now' timer time interval
  | LoopProcess.CancelTimer _ => True
  | LoopProcess.Expire now armed_at run =>
      0 < now <= armed_at /\ armed_at <= TimerQueueSpec.time_bound /\ TimerQueueSpec.callback_ok now armed_at run
  end.

(** What the library asks of its user. *)
Definition allowed w (lb : LoopProcess.label) : Prop :=
  match lb with
  | LoopProcess.Construct tid this r =>
      LoopProcess.getEventLoopOfCurrentThread w tid = None /\
      LoopProcess.loops w !! this = None /\ resources_ok w r
  | LoopProcess.Destruct tid this =>
      exists l, LoopProcess.loops w !! this = Some l /\ _thread_id l = tid
  | LoopProcess.NewChannel this ch fd =>
      exists l, LoopProcess.loops w !! this = Some l /\ chans l !! ch = None /\ 0 <= fd < two_31
  | LoopProcess.ChannelOp tid this ch o =>
      exists l c, LoopProcess.loops w !! this = Some l /\ _thread_id l = tid /\ of_user l ch /\
        chans l !! ch = Some c /\ may_update l ch c o
  | LoopProcess.RemoveChannel tid this ch =>
      exists l c, LoopProcess.loops w !! this = Some l /\ _thread_id l = tid /\ of_user l ch /\
        chans l !! ch = Some c /\ Channel.addedToLoop_ c = true /\ Channel.isNoneEvent c = true
  | LoopProcess.DeleteChannel tid this ch =>
      exists l c, LoopProcess.loops w !! this = Some l /\ of_user l ch /\
        chans l !! ch = Some c /\ Channel.addedToLoop_ c = false
  | LoopProcess.TimerOp this o =>
      exists l, LoopProcess.loops w !! this = Some l /\ timer_op_ok (_timer_queue l) o
  end.

(** A history in which every call is allowed when it is made. *)
Fixpoint permitted w (lbs : list LoopProcess.label) : Prop :=
  match lbs with
  | [] => True
  | lb :: lbs => allowed w lb /\ forall w', LoopProcess.step w lb = Done w' -> permitted w' lbs
  end.
End LoopSpec.
End LoopSpec.

(** ** Lemmas *)
Module LoopFacts.
Import LoopObject LoopSpec.

Lemma index_only_out σ σ' b c :
  index_only σ σ' -> σ !! b = Some c -> exists i, σ' !! b = Some (Channel.set_index i c).
Proof.
  intros Ho Hc. destruct (Ho b) as [Heq|(c0 & i & Hc0 & Hc')].
  - exists (Channel.index_ c). rewrite Heq, Hc. by destruct c.
  - exists i. by simplify_eq.
Qed.

Lemma index_only_in σ σ' b c' :
  index_only σ σ' -> σ' !! b = Some c' -> exists c i, σ !! b = Some c /\ c' = Channel.set_index i c.
Proof.
  intros Ho Hc. destruct (Ho b) as [Heq|(c0 & i & Hc0 & Hc')].
  - exists c', (Channel.index_ c'). rewrite <-Heq, Hc. by destruct c'.
  - exists c0, i. by simplify_eq.
Qed.

(** No loop watches more descriptors than it has channels. *)
Lemma coherent_size A σ : coherent A σ -> (size A <= size σ)%nat.
Proof.
  intros [_ H2]. rewrite <-(size_dom A), <-(length_map_to_list σ). unfold size, set_size. simpl.
  rewrite <-(length_fmap (fun x : Z * Channel.t => Channel.fd_ x.2)).
  apply submseteq_length, NoDup_submseteq; [apply NoDup_elements|]. intros fd.
  rewrite elem_of_elements, elem_of_dom. intros [[a e] HA].
  destruct (H2 fd a e HA) as (c & Hc & <- & _). apply list_elem_of_fmap. exists (a, c).
  split; [done|]. by apply elem_of_map_to_list.
Qed.

Section LoopFacts.
Context {P : Type} `{PollerLaws P} `{!Unrefused P}.
Implicit Types (l : LoopObject.t P) (w : LoopProcess.t P).

(** Members that no channel operation touches. *)
Definition same_members l l' : Prop := l' = with_io l (_poller l') (chans l').

Lemma same_members_trans l1 l2 l3 : same_members l1 l2 -> same_members l2 l3 -> same_members l1 l3.
Proof. unfold same_members. intros -> ->. done. Qed.

Lemma isInLoopThread_own l : isInLoopThread (_thread_id l) l = true.
Proof. by apply bool_decide_eq_true_2. Qed.

(** A channel's new state is stored and the poller told: what each channel then says. *)
Lemma io_stored h A A' l l' ch c0 :
  io_ok h A l -> repr A' (_poller l') (chans l') -> coherent A' (chans l') ->
  index_only (<[ch := c0]> (chans l)) (chans l') ->
  Channel.eventHandling_ c0 = bool_decide (h = Some ch) ->
  (Channel.addedToLoop_ c0 = true <-> fst <$> A' !! Channel.fd_ c0 = Some ch) ->
  (forall b fd, b <> ch -> fst <$> A' !! fd = Some b <-> fst <$> A !! fd = Some b) ->
  io_ok h A' l'.
Proof.
  intros Hio Hr Hco Ho He Ha HA. constructor; [done..|].
  intros b cb (c1 & i & Hc1 & ->)%(index_only_in _ _ _ _ Ho). simpl.
  apply lookup_insert_Some in Hc1 as [[<- <-]|[Hne Hc1]]; [done|].
  rewrite HA by done. by apply (io_added _ _ _ Hio).
Qed.

Lemma io_watch h A l ch c : io_ok h A l -> chans l !! ch = Some c -> Channel.addedToLoop_ c = true ->
  A !! Channel.fd_ c = Some (ch, Channel.events_ c).
Proof.
  intros Hio Hc Hadd. apply (io_added _ _ _ Hio _ _ Hc) in Hadd.
  destruct (A !! Channel.fd_ c) as [[b e]|] eqn:HA; [|done]. injection Hadd as ->.
  destruct (proj2 (io_coherent _ _ _ Hio) _ _ _ HA) as (c' & Hc' & _ & <-). by simplify_eq.
Qed.

(** A descriptor that no channel on the loop has is not watched. *)
Lemma io_unwatched h A l fd : io_ok h A l ->
  (forall b c', chans l !! b = Some c' -> Channel.addedToLoop_ c' = true -> Channel.fd_ c' <> fd) ->
  A !! fd = None.
Proof.
  intros Hio Hno. destruct (A !! fd) as [[b e]|] eqn:HA; [|done].
  destruct (proj2 (io_coherent _ _ _ Hio) _ _ _ HA) as (c' & Hc' & Hfd & _).
  destruct (Hno b c' Hc'); [|done]. apply (io_added _ _ _ Hio _ _ Hc'). by rewrite Hfd, HA.
Qed.

Lemma op_ok h A l ch c o :
  io_ok h A l -> chans l !! ch = Some c -> may_update l ch c o ->
  exists l', channel_op (_thread_id l) l ch o = Done l' /\ same_members l l' /\
    io_ok h (<[Channel.fd_ c := (ch, Channel.events_ (chan_apply o c))]> A) l' /\
    index_only (<[ch := Channel.set_addedToLoop true (chan_apply o c)]> (chans l)) (chans l').
Proof.
  intros Hio Hc Hmay. pose proof (io_repr _ _ _ Hio) as Hr. pose proof (io_coherent _ _ _ Hio) as Hco.
  assert (exists p' σ', channel_update (_poller l) (chans l) ch o = Done (p', σ') /\
    index_only (<[ch := Channel.set_addedToLoop true (chan_apply o c)]> (chans l)) σ' /\
    repr (<[Channel.fd_ c := (ch, Channel.events_ (chan_apply o c))]> A) p' σ' /\
    coherent (<[Channel.fd_ c := (ch, Channel.events_ (chan_apply o c))]> A) σ' /\
    (forall b fd, b <> ch -> fd = Channel.fd_ c -> fst <$> A !! fd <> Some b)) as (p' & σ' & Hu & Ho & Hr' & Hco' & Hoth).
  { destruct Hmay as [Hadd|(Hidx & Hne & Hsz & Hno)].
    - pose proof (io_watch _ _ _ _ _ Hio Hc Hadd) as HA.
      destruct (update_watched A _ _ ch c _ o Hr Hco Hc HA) as [(p' & σ' & ? & ? & ? & ?)|[[]%unrefused _]]. exists p', σ'.
      split_and!; try done. intros b fd Hb -> Hf. rewrite HA in Hf. by injection Hf.
    - pose proof (io_unwatched _ _ _ _ Hio Hno) as HA. pose proof (coherent_size _ _ Hco).
      destruct (update_fresh A _ _ ch c o Hr Hco) as [(p' & σ' & ? & ? & ? & ?)|[[]%unrefused _]]; [done|done|lia|].
      exists p', σ'. split_and!; try done. intros b fd Hb -> Hf. by rewrite HA in Hf. }
  exists (with_io l p' σ'). split; [|split; [done|split]]; [|eapply (io_stored h A)|]; try done; simpl.
  - unfold channel_op, EventLoop.updateChannel. unfold channel_update in Hu.
    rewrite (chan_deref_ok _ _ _ Hc) in *. rewrite isInLoopThread_own. cbn [mbind outcome_bind assert_ EventLoop.assertInLoopThread] in *.
    by rewrite Hu.
  - destruct (io_added _ _ _ Hio _ _ Hc) as [<- _]. by destruct o.
  - pose proof (chan_apply_same o c) as [-> _]. by rewrite lookup_insert_eq.
  - intros b fd Hb. destruct (decide (fd = Channel.fd_ c)) as [->|Hn].
    + rewrite lookup_insert_eq. split; [by intros [= ->]|]. intros Hf. by destruct (Hoth b (Channel.fd_ c)).
    + by rewrite lookup_insert_ne.
Qed.

(** [removeChannel] refuses a channel that [loop()] may be about to dispatch. *)
Definition removable l (ch : Z) : Prop :=
  _event_handling l = false \/ _current_active_channel l = Some ch \/ ch ∉ _active_channels l.

Lemma removable_assert l ch : removable l ch ->
  (negb (_event_handling l) || bool_decide (_current_active_channel l = Some ch) || bool_decide (ch ∉ _active_channels l)) = true.
Proof.
  unfold removable. destruct (_event_handling l); [|done]. intros [?|[Hc|Hc]]; [done|..]; simpl.
  - by rewrite bool_decide_eq_true_2.
  - rewrite (bool_decide_eq_true_2 (ch ∉ _)) by done. apply orb_true_r.
Qed.

Lemma remove_ok h A l ch c :
  io_ok h A l -> chans l !! ch = Some c -> Channel.addedToLoop_ c = true -> Channel.isNoneEvent c = true ->
  removable l ch ->
  exists l', remove (_thread_id l) l ch = Done l' /\ same_members l l' /\
    io_ok h (delete (Channel.fd_ c) A) l' /\
    index_only (<[ch := Channel.set_addedToLoop false c]> (chans l)) (chans l').
Proof.
  intros Hio Hc Hadd Hn Hrm. pose proof (io_watch _ _ _ _ _ Hio Hc Hadd) as HA.
  pose proof Hn as He. rewrite isNoneEvent_spec in He. apply bool_decide_eq_true_1 in He. rewrite He in HA.
  destruct (remove_watched A (_poller l) (chans l) ch c) as (p' & σ' & Hu & Ho & Hr' & Hco'); [apply Hio|apply Hio|done|done|].
  exists (with_io l p' σ'). split; [|split; [done|split]]; [|eapply (io_stored h A)|]; try done; simpl.
  - unfold remove, EventLoop.removeChannel. unfold channel_remove in Hu.
    rewrite (chan_deref_ok _ _ _ Hc) in *. rewrite isInLoopThread_own.
    cbn [mbind outcome_bind assert_ EventLoop.assertInLoopThread] in *. rewrite Hn in *.
    rewrite (removable_assert _ _ Hrm).
    cbn [mbind outcome_bind assert_] in *. by rewrite Hu.
  - by destruct (io_added _ _ _ Hio _ _ Hc) as [<- _].
  - by rewrite lookup_delete_eq.
  - intros b fd Hb. destruct (decide (fd = Channel.fd_ c)) as [->|Hne]; [|by rewrite lookup_delete_ne].
    rewrite lookup_delete_eq, HA. split; [done|]. by intros [= ->].
Qed.

(** A channel as its constructor leaves it, callbacks aside. *)
Definition blank (c : Channel.t) : Prop :=
  Channel.eventHandling_ c = false /\ Channel.addedToLoop_ c = false /\
  0 <= Channel.fd_ c < two_31 /\ Channel.events_ c = 0 /\ Channel.index_ c = -1.

(** Forgetting or adding a channel that is not on the loop. *)
Lemma io_frame h A l σ' :
  io_ok h A l -> (forall b c, chans l !! b = Some c -> Channel.addedToLoop_ c = true -> σ' !! b = Some c) ->
  (forall b c, σ' !! b = Some c -> chans l !! b = Some c \/
     blank c /\ chans l !! b = None /\ h <> Some b) ->
  io_ok h A (with_io l (_poller l) σ').
Proof.
  intros Hio Hkeep Hnew. destruct (io_coherent _ _ _ Hio) as [H1 H2].
  assert (forall fd a e, A !! fd = Some (a, e) ->
    exists c, chans l !! a = Some c /\ σ' !! a = Some c /\ Channel.fd_ c = fd /\ Channel.events_ c = e) as Hw.
  { intros fd a e HA. destruct (H2 fd a e HA) as (c & Hc & Hfd & He). exists c. split_and!; try done.
    apply (Hkeep a c Hc). apply (io_added _ _ _ Hio a c Hc). by rewrite Hfd, HA. }
  constructor; simpl.
  - eapply repr_frame; [apply Hio|]. intros fd a e c HA Hc.
    destruct (Hw fd a e HA) as (c' & Hc' & Hσ & _). simplify_eq. by exists c.
  - split.
    + intros a c Hc. destruct (Hnew a c Hc) as [Hc'|((_ & _ & Hfd & He & _) & _)]; [by apply (H1 a)|lia].
    + intros fd a e (c & _ & Hc & ?)%Hw. by exists c.
  - intros ch c Hc. destruct (Hnew ch c Hc) as [Hc'|((He & Ha & _) & Hnone & Hh)]; [by apply (io_added _ _ _ Hio)|].
    rewrite bool_decide_eq_false_2 by done. split; [done|]. rewrite Ha. split; [done|]. intros HA. destruct (A !! Channel.fd_ c) as [[a e]|] eqn:Hf; [|done].
    injection HA as ->. destruct (Hw _ _ _ Hf) as (c' & Hc' & _). congruence.
Qed.

Lemma delete_ok h A tid l ch c :
  io_ok h A l -> chans l !! ch = Some c -> Channel.addedToLoop_ c = false -> h <> Some ch ->
  delete_channel tid l ch = Done (with_io l (_poller l) (delete ch (chans l))) /\
  io_ok h A (with_io l (_poller l) (delete ch (chans l))).
Proof.
  intros Hio Hc Hadd Hh. split.
  - unfold delete_channel. rewrite (chan_deref_ok _ _ _ Hc). cbn [mbind outcome_bind].
    destruct (io_added _ _ _ Hio _ _ Hc) as [He Ha]. rewrite Hadd in Ha. rewrite bool_decide_eq_false_2 in He by done.
    assert ((if isInLoopThread tid l then EventLoop.hasChannel true true (_poller l) (chans l) ch
             else mret false) = Done false) as ->.
    { destruct (isInLoopThread tid l); [|done]. unfold EventLoop.hasChannel.
      cbn [mbind outcome_bind assert_ EventLoop.assertInLoopThread].
      rewrite (has_law A _ _ _ c) by (try apply Hio; done). f_equal. apply bool_decide_eq_false_2. intros Hf.
      by apply Ha in Hf. }
    cbn [mbind outcome_bind]. unfold Channel.destroy. by rewrite He, Hadd.
  - apply io_frame; [done| |].
    + intros b cb Hb Hab. rewrite lookup_delete_ne; [done|]. intros ->. congruence.
    + intros b cb [_ Hb]%lookup_delete_Some. by left.
Qed.

Lemma new_ok h A l ch c :
  io_ok h A l -> chans l !! ch = None -> h <> Some ch -> blank c -> io_ok h A (with_io l (_poller l) (<[ch := c]> (chans l))).
Proof.
  intros Hio Hn Hh Hb. apply io_frame; [done| |].
  - intros b cb Hcb _. rewrite lookup_insert_ne; [done|]. congruence.
  - intros b cb [[<- <-]|[_ Hcb]]%lookup_insert_Some; auto.
Qed.

Lemma blank_init fd : 0 <= fd < two_31 -> blank (Channel.init fd).
Proof. unfold blank. simpl. lia. Qed.

(** An operation on [ch] keeps the other channels where they are. *)
Lemma own_kept l l' ch c b fd :
  index_only (<[ch := c]> (chans l)) (chans l') -> b <> ch -> own_channel l b fd -> own_channel l' b fd.
Proof.
  intros Ho Hb (cb & Hcb & Hfd & Ha).
  destruct (index_only_out _ _ b cb Ho) as [i Hi]; [by rewrite lookup_insert_ne|]. by exists (Channel.set_index i cb).
Qed.

(** [new Channel], [setReadCallback], [enableReading]: a channel of the loop's own. *)
Lemma put_on A l ch fd :
  io_ok None A l -> chans l !! ch = None -> 0 <= fd < two_31 -> Z.of_nat (size (chans l)) < two_31 - 2 ->
  (forall b c', chans l !! b = Some c' -> Channel.fd_ c' <> fd) ->
  exists l', channel_op (_thread_id l) (setReadCallback (new_channel l ch fd) ch) ch EnableReading = Done l' /\
    same_members l l' /\ io_ok None (<[fd := (ch, 3)]> A) l' /\ own_channel l' ch fd /\
    (forall b fd', b <> ch -> own_channel l b fd' -> own_channel l' b fd') /\
    (forall b c', chans l' !! b = Some c' -> b = ch \/ exists c, chans l !! b = Some c /\ Channel.fd_ c' = Channel.fd_ c).
Proof.
  intros Hio Hn Hfd Hsz Hno. set (c0 := Channel.setReadCallback (Channel.init fd)).
  assert (setReadCallback (new_channel l ch fd) ch = with_io l (_poller l) (<[ch := c0]> (chans l))) as ->.
  { unfold setReadCallback, new_channel, with_io. simpl. by rewrite alter_insert_eq. }
  destruct (op_ok None A (with_io l (_poller l) (<[ch := c0]> (chans l))) ch c0 EnableReading) as (l' & He & Hs & Hio' & Ho).
  - apply new_ok; [done..|]. by apply blank_init.
  - apply lookup_insert_eq.
  - right. simpl. split_and!; [done|done| |].
    + rewrite map_size_insert_None by done. lia.
    + intros b c' [[<- <-]|[_ Hb]]%lookup_insert_Some; [done|]. intros _. by apply (Hno b).
  - simpl in Ho. rewrite insert_insert_eq in Ho. exists l'.
    split_and!; [done|by rewrite Hs|done| | |].
    + destruct (index_only_out _ _ ch _ Ho (lookup_insert_eq _ _ _)) as [i Hi]. eexists. split; [exact Hi|]. done.
    + intros b fd' Hb. by eapply own_kept.
    + intros b c' (c1 & i & Hc1 & ->)%(index_only_in _ _ _ _ Ho).
      apply lookup_insert_Some in Hc1 as [[<- _]|[_ Hc1]]; [by left|right]. by exists c1.
Qed.

(** [disableAll], [remove]: the channel is off the loop, the others are not touched. *)
Lemma take_off A l ch fd :
  io_ok None A l -> own_channel l ch fd -> _event_handling l = false ->
  exists l1 l2 A2 c, channel_op (_thread_id l) l ch DisableAll = Done l1 /\ same_members l l1 /\
    remove (_thread_id l) l1 ch = Done l2 /\ same_members l l2 /\ io_ok None A2 l2 /\
    chans l2 !! ch = Some c /\ Channel.addedToLoop_ c = false /\
    (forall b fd', b <> ch -> own_channel l b fd' -> own_channel l2 b fd').
Proof.
  intros Hio (c & Hc & Hfd & Ha) Hidle.
  destruct (op_ok None A l ch c DisableAll Hio Hc) as (l1 & He1 & Hs1 & Hio1 & Ho1); [by left|].
  destruct (index_only_out _ _ ch _ Ho1 (lookup_insert_eq _ _ _)) as [i Hi].
  destruct (remove_ok None _ l1 ch _ Hio1 Hi) as (l2 & He2 & Hs2 & Hio2 & Ho2); [done|done|left; by rewrite Hs1|].
  destruct (index_only_out _ _ ch _ Ho2 (lookup_insert_eq _ _ _)) as [j Hj].
  eexists l1, l2, _, _. split_and!; [done|done| |by eapply same_members_trans|exact Hio2|exact Hj|done|].
  - by rewrite <-He2, Hs1.
  - intros b fd' Hb Hown. eapply own_kept; [exact Ho2|done|]. by eapply own_kept.
Qed.

(** The part of the constructor before the test of [t_loop_in_this_thread]. *)
Lemma construct_begins tid r F :
  0 <= r_timerfd r < two_31 -> (forall fd, r_epollfd r = Some fd -> 0 <= fd) ->
  exists l A, let F' := foldr open_file F (option_list (r_epollfd r)) in
    create_poller (r_epollfd r) F = Done (option_list (r_epollfd r), F') /\
    createTimerfd (r_timerfd r) F' = Done (r_timerfd r, open_file (r_timerfd r) F') /\
    new_timer_queue tid (mk tid p_init (option_list (r_epollfd r)) TimerQueue.init (r_timerfd r) (r_timerfdChannel r) (-1) 0 ∅ false [] None) = Done l /\
    l = mk tid (_poller l) (option_list (r_epollfd r)) TimerQueue.init (r_timerfd r) (r_timerfdChannel r) (-1) 0 (chans l) false [] None /\
    io_ok None A l /\ own_channel l (r_timerfdChannel r) (r_timerfd r) /\
    (forall b c, chans l !! b = Some c -> b = r_timerfdChannel r /\ Channel.fd_ c = r_timerfd r).
Proof.
  intros Ht Hp.
  set (l0 := mk tid p_init (option_list (r_epollfd r)) TimerQueue.init (r_timerfd r) (r_timerfdChannel r) (-1) 0 ∅ false [] None).
  destruct (put_on ∅ l0 (r_timerfdChannel r) (r_timerfd r)) as (l & Hl & Hs & Hio & Hown & _ & Hin); [|done..|].
  { constructor; [apply repr_init|done|done]. }
  exists l, (<[r_timerfd r := (r_timerfdChannel r, 3)]> ∅). unfold createTimerfd.
  rewrite (bool_decide_eq_false_2 (_ < 0)) by lia. split_and!; try done.
  - unfold create_poller. destruct (r_epollfd r) as [fd|]; [|done]. specialize (Hp fd eq_refl).
    rewrite bool_decide_eq_false_2; [done|lia].
  - intros b c Hc. destruct (Hin b c Hc) as [->|(c' & Hc' & _)]; [|done]. split; [done|].
    destruct Hown as (c' & Hc' & Hfd & _). by simplify_eq.
Qed.

(** The kernel refuses the poller or the timer its descriptor, or the eventfd. *)
Lemma construct_without_fd tid current r F :
  Exists (fun fd => fd < 0) (r_timerfd r :: option_list (r_epollfd r)) ->
  construct tid current r F = Fault LogFatal.
Proof.
  intros Hneg. unfold construct. apply Exists_cons in Hneg as [Ht|He].
  - assert (forall F, createTimerfd (r_timerfd r) F = Fault LogFatal) as E
      by (intros F'; unfold createTimerfd; by rewrite bool_decide_eq_true_2).
    unfold create_poller. destruct (r_epollfd r); [case_bool_decide|]; cbn [mbind outcome_bind mret outcome_ret]; by rewrite ?E.
  - destruct (r_epollfd r) as [fd|]; simpl in He; [|by inversion He].
    unfold create_poller. rewrite bool_decide_eq_true_2; [done|]. by apply Exists_cons in He as [?|?%Exists_nil].
Qed.

Lemma construct_without_eventfd tid current r F :
  Forall (fun fd => 0 <= fd < two_31) (r_timerfd r :: option_list (r_epollfd r)) -> r_eventfd r < 0 ->
  construct tid current r F = Fault Aborted.
Proof.
  intros [Ht Hp]%Forall_cons Hneg. unfold construct.
  destruct (construct_begins tid r F Ht) as (l & A & E1 & E2 & E4 & _).
  { intros fd Hfd. rewrite Hfd in Hp. simpl in Hp. rewrite Forall_singleton in Hp. lia. }
  rewrite E1. cbn [mbind outcome_bind]. rewrite E2. cbn [mbind outcome_bind]. rewrite E4. cbn [mbind outcome_bind].
  unfold createEventfd. by rewrite bool_decide_eq_true_2.
Qed.

Lemma opened_all fds F :
  opened (foldr open_file F fds) = list_to_set fds ∪ opened F /\ ebadf (foldr open_file F fds) = ebadf F.
Proof. induction fds as [|fd fds [IH1 IH2]]; simpl; [set_solver|]. rewrite IH1, IH2. set_solver. Qed.

(** Descriptors that are open, closed one after the other. *)
Lemma closed_all fds F :
  NoDup fds -> (forall fd, fd ∈ fds -> fd ∈ opened F) ->
  opened (foldr close_file F fds) = opened F ∖ list_to_set fds /\ ebadf (foldr close_file F fds) = ebadf F.
Proof.
  induction fds as [|fd fds IH]; simpl; [set_solver|]. intros [Hn Hnd]%NoDup_cons Hin.
  destruct IH as [IH1 IH2]; [done|set_solver|]. unfold close_file at 1 3.
  rewrite bool_decide_eq_true_2 by (rewrite IH1; set_solver). simpl. rewrite IH1, IH2. set_solver.
Qed.

Lemma construct_ok tid r w :
  resources_ok w r ->
  exists l F, construct tid None r (LoopProcess.fd_table w) = Done (l, F) /\ loop_ok l /\ _thread_id l = tid /\
    fds l = resources_fds r /\ _timer_queue l = TimerQueue.init /\
    opened F = list_to_set (fds l) ∪ LoopProcess.open_fds w /\ ebadf F = ebadf (LoopProcess.fd_table w).
Proof.
  intros (Hnd' & [[He _] [[Htm _] Hep]%Forall_cons]%Forall_cons & Hne). pose proof Hnd' as [Hnd _]%NoDup_cons.
  assert (forall F, createEventfd (r_eventfd r) F = Done (r_eventfd r, open_file (r_eventfd r) F)) as E3
    by (intros F; unfold createEventfd; rewrite bool_decide_eq_false_2; [done|lia]).
  destruct (construct_begins tid r (LoopProcess.fd_table w) Htm) as (l & A & E1 & E2 & E4 & Hl & Hio & Hown & Hin).
  { intros fd Hfd. rewrite Hfd in Hep. simpl in Hep. rewrite Forall_singleton in Hep. lia. }
  unfold construct. rewrite E1. cbn [mbind outcome_bind]. rewrite E2. cbn [mbind outcome_bind]. rewrite E4.
  cbn [mbind outcome_bind]. rewrite E3. cbn [mbind outcome_bind].
  destruct (put_on A (with_wake_up l (r_eventfd r) (r_wake_up_channel r)) (r_wake_up_channel r) (r_eventfd r))
    as (l' & Hl' & Hs & Hio' & Hown' & Hkept & _).
  - by destruct Hio.
  - destruct (chans l !! r_wake_up_channel r) as [c|] eqn:Hc; [|done]. by destruct (Hin _ _ Hc).
  - done.
  - simpl. assert (chans l ⊆ {[r_timerfdChannel r := default (Channel.init 0) (chans l !! r_timerfdChannel r)]}) as Hsub%map_subseteq_size.
    { apply map_subseteq_spec. intros b c Hc. destruct (Hin b c Hc) as [-> _]. rewrite Hc. apply lookup_singleton_eq. }
    rewrite map_size_singleton in Hsub. zlia.
  - intros b c Hc. destruct (Hin b c Hc) as [_ ->]. set_solver.
  - exists l'. eexists. rewrite Hl in Hl' |- *. cbn [_thread_id with_wake_up new_channel with_io] in Hl'.
    assert (_wake_up_channel l' = r_wake_up_channel r /\ _wake_up_fd l' = r_eventfd r /\
      timerfdChannel_ l' = r_timerfdChannel r /\ timerfd_ l' = r_timerfd r /\
      _timer_queue l' = TimerQueue.init /\ fds l' = resources_fds r) as (F1 & F2 & F3 & F4 & F5 & F6) by (rewrite Hs, Hl; done).
    split; [cbn; rewrite Hl'; reflexivity|]. split_and!.
    + constructor; rewrite ?F1, ?F2, ?F3, ?F4, ?F5, ?F6; [by eexists|by rewrite Hs, Hl|done|by apply Hkept|done| |done].
      apply TimerQueueFacts.timer_inv_init.
    + by rewrite Hs, Hl.
    + done.
    + done.
    + rewrite F6. unfold resources_fds, LoopProcess.open_fds. simpl. rewrite (proj1 (opened_all _ _)). set_solver.
    + simpl. apply opened_all.
Qed.

Lemma loop_destroy_ok l F :
  loop_ok l -> (forall fd, fd ∈ fds l -> fd ∈ opened F) ->
  exists F', destroy (_thread_id l) l F = Done F' /\
    opened F' = opened F ∖ list_to_set (fds l) /\ ebadf F' = ebadf F.
Proof.
  intros [[A Hio] Hidle Hw Ht Hne Htq Hnd] Hopen. unfold destroy.
  destruct (take_off A l _ _ Hio Hw Hidle) as (l1 & l2 & A2 & c & E1 & S1 & E2 & S2 & Hio2 & Hc & Ha & Hk).
  rewrite E1. cbn [mbind outcome_bind]. replace (_wake_up_channel l1) with (_wake_up_channel l) by by rewrite S1. rewrite E2. cbn [mbind outcome_bind].
  replace (_wake_up_channel l2) with (_wake_up_channel l) by by rewrite S2.
  replace (_wake_up_fd l2) with (_wake_up_fd l) by by rewrite S2.
  destruct (delete_ok None A2 (_thread_id l) l2 _ c Hio2 Hc Ha ltac:(done)) as [E3 Hio3]. rewrite E3. cbn [mbind outcome_bind].
  set (l3 := with_io l2 _ _) in *.
  assert (same_members l l3) as S3 by (unfold l3; by rewrite S2).
  assert (own_channel l3 (timerfdChannel_ l3) (timerfd_ l3)) as Ht3.
  { rewrite S3. cbn [timerfdChannel_ timerfd_ with_io]. destruct (Hk _ _ (not_eq_sym Hne) Ht) as (ct & Hct & ?).
    exists ct. split; [|done]. simpl. by rewrite lookup_delete_ne. }
  destruct (take_off A2 l3 _ _ Hio3 Ht3 ltac:(by rewrite S3)) as (l4 & l5 & A5 & c5 & E4 & S4 & E5 & S5 & Hio5 & Hc5 & Ha5 & _).
  assert (_thread_id l3 = _thread_id l) as Htid by by rewrite S3. rewrite Htid in E4, E5.
  unfold destroy_timer_queue. rewrite E4. cbn [mbind outcome_bind]. replace (timerfdChannel_ l4) with (timerfdChannel_ l3) by by rewrite S4.
  rewrite E5. cbn [mbind outcome_bind].
  assert (_timer_queue l5 = _timer_queue l) as -> by by rewrite S5, S3.
  destruct (TimerQueueFacts.destroy_ok (_timer_queue l) Htq) as (q & -> & _). cbn [mbind outcome_bind].
  assert (timerfdChannel_ l5 = timerfdChannel_ l3) as -> by by rewrite S5.
  destruct (delete_ok None A5 (_thread_id l) (with_timers l5 q) (timerfdChannel_ l3) c5) as [E6 _]; [by destruct Hio5|done|done|done|].
  rewrite E6. eexists. split; [done|]. unfold destroy_poller.
  replace (timerfd_ l5) with (timerfd_ l) by by rewrite S5, S3. cbn [poller_fds with_io with_timers].
  replace (poller_fds l5) with (poller_fds l) by by rewrite S5, S3.
  change (close_file (timerfd_ l) (close_file (_wake_up_fd l) F)) with (foldr close_file F [timerfd_ l; _wake_up_fd l]).
  rewrite <-foldr_app.
  assert (poller_fds l ++ [timerfd_ l; _wake_up_fd l] ≡ₚ fds l) as Hp by (unfold fds; solve_Permutation).
  destruct (closed_all (poller_fds l ++ [timerfd_ l; _wake_up_fd l]) F) as [H1 H2].
  - by rewrite Hp.
  - intros fd Hin. apply Hopen. by rewrite <-Hp.
  - rewrite H1, H2. split; [|done]. apply set_eq. intros fd. rewrite !elem_of_difference, !elem_of_list_to_set. by rewrite Hp.
Qed.
End LoopFacts.
End LoopFacts.

(** *** The invariant of a process *)
Module LoopProcessFacts.
Import LoopObject LoopSpec LoopFacts.
Section LoopProcessFacts.
Context {P : Type} `{PollerLaws P} `{!Unrefused P}.
Implicit Types (l : LoopObject.t P) (w : LoopProcess.t P).

Lemma proc_init : proc_ok LoopProcess.init.
Proof.
  constructor; simpl.
  - intros a l Hl. by rewrite lookup_empty in Hl.
  - intros tid a. unfold LoopProcess.getEventLoopOfCurrentThread. simpl. rewrite lookup_empty. split; [done|].
    intros (l & Hl & _). by rewrite lookup_empty in Hl.
  - intros fd. split; [set_solver|]. intros (a & l & Hl & _). by rewrite lookup_empty in Hl.
  - intros a b l m fd Hl. by rewrite lookup_empty in Hl.
  - done.
Qed.

Lemma deref_loop_ok w a l : LoopProcess.loops w !! a = Some l -> LoopProcess.deref_loop w a = Done l.
Proof. unfold LoopProcess.deref_loop. by intros ->. Qed.

(** An operation that keeps the thread and the descriptors of a loop. *)
Lemma on_loop_ok w this l l' f :
  proc_ok w -> LoopProcess.loops w !! this = Some l -> f l = Done l' ->
  loop_ok l' -> _thread_id l' = _thread_id l -> fds l' = fds l ->
  exists w', LoopProcess.on_loop w this f = Done w' /\ proc_ok w'.
Proof.
  intros Hw Hl Hf Hl' Ht Hfds. exists (LoopProcess.set_loop w this l'). split.
  { unfold LoopProcess.on_loop. rewrite (deref_loop_ok _ _ _ Hl). cbn [mbind outcome_bind]. by rewrite Hf. }
  assert (forall a m', LoopProcess.loops (LoopProcess.set_loop w this l') !! a = Some m' ->
    exists m, LoopProcess.loops w !! a = Some m /\ _thread_id m = _thread_id m' /\ fds m = fds m' /\ loop_ok m') as Hback.
  { simpl. intros a m' [[<- <-]|[Hne Hm]]%lookup_insert_Some; [by exists l|]. exists m'. split_and!; try done. by apply (po_loop _ Hw a). }
  assert (forall a m, LoopProcess.loops w !! a = Some m ->
    exists m', LoopProcess.loops (LoopProcess.set_loop w this l') !! a = Some m' /\ _thread_id m' = _thread_id m /\ fds m' = fds m) as Hforth.
  { intros a m Hm. simpl. destruct (decide (a = this)) as [->|Hne].
    - rewrite lookup_insert_eq. exists l'. rewrite Hl in Hm. injection Hm as <-. by split_and!.
    - rewrite lookup_insert_ne by done. by exists m. }
  constructor.
  - intros a m' (m & _ & _ & _ & ?)%Hback. done.
  - intros tid a. change (LoopProcess.getEventLoopOfCurrentThread (LoopProcess.set_loop w this l') tid)
      with (LoopProcess.getEventLoopOfCurrentThread w tid). rewrite (po_tls _ Hw). split.
    + intros (m & Hm & <-). destruct (Hforth a m Hm) as (m' & ? & ? & _). by exists m'.
    + intros (m' & Hm' & <-). destruct (Hback a m' Hm') as (m & ? & ? & _). by exists m.
  - intros fd. change (LoopProcess.open_fds (LoopProcess.set_loop w this l')) with (LoopProcess.open_fds w).
    rewrite (po_fds _ Hw). split.
    + intros (a & m & Hm & Hin). destruct (Hforth a m Hm) as (m' & ? & _ & Heq). exists a, m'. by rewrite Heq.
    + intros (a & m' & Hm' & Hin). destruct (Hback a m' Hm') as (m & ? & _ & Heq & _). exists a, m. by rewrite Heq.
  - intros a b m1 m2 fd (n1 & ? & _ & <- & _)%Hback (n2 & ? & _ & <- & _)%Hback. by apply (po_apart _ Hw).
  - apply Hw.
Qed.

(** Operations on channels of the user leave the loop well formed. *)
Lemma loop_ok_kept l l' A' ch :
  loop_ok l -> same_members l l' -> io_ok None A' l' -> of_user l ch ->
  (forall b fd, b <> ch -> own_channel l b fd -> own_channel l' b fd) ->
  loop_ok l' /\ _thread_id l' = _thread_id l /\ fds l' = fds l.
Proof.
  intros [_ Hidle Hwk Htm Hne Htq Hnd] Hs Hio [Hn1 Hn2] Hk. unfold same_members in Hs. split; [|by rewrite Hs].
  assert (_wake_up_channel l' = _wake_up_channel l /\ _wake_up_fd l' = _wake_up_fd l /\
    timerfdChannel_ l' = timerfdChannel_ l /\ timerfd_ l' = timerfd_ l /\
    _timer_queue l' = _timer_queue l /\ fds l' = fds l) as (F1 & F2 & F3 & F4 & F5 & F6) by (rewrite Hs; done).
  constructor; rewrite ?F1, ?F2, ?F3, ?F4, ?F5, ?F6; [by eexists|by rewrite Hs|by apply Hk|by apply Hk|done|done|done].
Qed.

Lemma construct_keeps w tid this r :
  proc_ok w -> allowed w (LoopProcess.Construct tid this r) ->
  exists w', LoopProcess.construct w tid this r = Done w' /\ proc_ok w' /\
    LoopProcess.t_loop_in_this_thread w' = <[tid := this]> (LoopProcess.t_loop_in_this_thread w) /\
    exists l, LoopProcess.loops w' !! this = Some l /\ _timer_queue l = TimerQueue.init.
Proof.
  intros Hw (Htls & Hthis & Hr). destruct (construct_ok tid r w Hr) as (l & F & He & Hl & Ht & Hfds & Hq & HF & Heb).
  unfold LoopProcess.construct. rewrite Htls, He. cbn [mbind outcome_bind]. eexists. split; [done|].
  split; [|split; [done|exists l; split; [apply lookup_insert_eq|done]]].
  destruct Hr as (_ & Hfree & _). rewrite Forall_forall in Hfree.
  assert (forall a m fd, LoopProcess.loops w !! a = Some m -> fd ∈ fds m -> fd ∈ fds l -> False) as Hdis.
  { intros a m fd Hm Hin Hin'. rewrite Hfds in Hin'. apply (Hfree fd Hin'). apply (po_fds _ Hw). eauto. }
  constructor; cbn [LoopProcess.loops LoopProcess.fd_table]; [| | | |by rewrite Heb; apply Hw].
  - intros a m [[<- <-]|[_ Hm]]%lookup_insert_Some; [done|]. by apply (po_loop _ Hw a).
  - intros tid' a. unfold LoopProcess.getEventLoopOfCurrentThread in *. simpl.
    destruct (decide (tid' = tid)) as [->|Hnt].
    + rewrite lookup_insert_eq. split.
      * intros [= <-]. exists l. by rewrite lookup_insert_eq.
      * intros (m & [[<- _]|[_ Hm]]%lookup_insert_Some & Htm); [done|].
        assert (t_loop : LoopProcess.t_loop_in_this_thread w !! tid = Some a) by (apply (po_tls _ Hw); eauto). congruence.
    + rewrite lookup_insert_ne by done. rewrite (po_tls _ Hw tid' a). split.
      * intros (m & Hm & Htm). exists m. rewrite lookup_insert_ne; [done|]. congruence.
      * intros (m & [[_ <-]|[_ Hm]]%lookup_insert_Some & Htm); [congruence|]. by exists m.
  - intros fd. unfold LoopProcess.open_fds at 1. cbn [LoopProcess.fd_table]. rewrite HF.
    rewrite elem_of_union, elem_of_list_to_set, (po_fds _ Hw). split.
    + intros [Hin|(a & m & Hm & Hin)]; [exists this, l; by rewrite lookup_insert_eq|].
      exists a, m. rewrite lookup_insert_ne; [done|]. congruence.
    + intros (a & m & [[_ <-]|[_ Hm]]%lookup_insert_Some & Hin); [by left|right]. eauto.
  - intros a b m1 m2 fd [[<- <-]|[Ha Hm1]]%lookup_insert_Some [[<- <-]|[Hb Hm2]]%lookup_insert_Some Hin1 Hin2; try done.
    + by destruct (Hdis b m2 fd).
    + by destruct (Hdis a m1 fd).
    + by apply (po_apart _ Hw a b m1 m2 fd).
Qed.

Lemma destruct_keeps w tid this :
  proc_ok w -> allowed w (LoopProcess.Destruct tid this) ->
  exists w', LoopProcess.destruct_loop w tid this = Done w' /\ proc_ok w'.
Proof.
  intros Hw (l & Hl & <-).
  destruct (loop_destroy_ok l (LoopProcess.fd_table w) (po_loop _ Hw _ _ Hl)) as (F & He & HF & Heb).
  { intros fd Hin. apply (po_fds _ Hw). eauto. }
  unfold LoopProcess.destruct_loop. rewrite (deref_loop_ok _ _ _ Hl). cbn [mbind outcome_bind]. rewrite He.
  cbn [mbind outcome_bind]. eexists. split; [done|].
  assert (LoopProcess.t_loop_in_this_thread w !! _thread_id l = Some this) as Htls by (apply (po_tls _ Hw); eauto).
  constructor; cbn [LoopProcess.loops LoopProcess.fd_table]; [| | | |by rewrite Heb; apply Hw].
  - intros a m [_ Hm]%lookup_delete_Some. by apply (po_loop _ Hw a).
  - intros tid a. unfold LoopProcess.getEventLoopOfCurrentThread. simpl. rewrite lookup_delete_Some.
    pose proof (po_tls _ Hw tid a) as Hiff. unfold LoopProcess.getEventLoopOfCurrentThread in Hiff. rewrite Hiff. split.
    + intros (Hne & m & Hm & Htm). exists m. rewrite lookup_delete_ne; [done|]. intros <-. by simplify_eq.
    + intros (m & [Hne Hm]%lookup_delete_Some & <-). split; [|by exists m]. intros Heq. apply Hne.
      assert (LoopProcess.t_loop_in_this_thread w !! _thread_id m = Some a) as Hm' by (apply (po_tls _ Hw); eauto). congruence.
  - intros fd. unfold LoopProcess.open_fds. cbn [LoopProcess.fd_table]. rewrite HF.
    rewrite elem_of_difference, elem_of_list_to_set. fold (LoopProcess.open_fds w). rewrite (po_fds _ Hw). split.
    + intros ((a & m & Hm & Hin) & Hnot). exists a, m. rewrite lookup_delete_ne; [done|]. intros <-. by simplify_eq.
    + intros (a & m & [Hne Hm]%lookup_delete_Some & Hin). split; [by exists a, m|]. intros Hin'.
      by apply Hne, (po_apart _ Hw this a l m fd).
  - intros a b m1 m2 fd [_ Hm1]%lookup_delete_Some [_ Hm2]%lookup_delete_Some. by apply (po_apart _ Hw).
Qed.

Lemma timer_op_keeps q o :
  TimerQueueSpec.inv [] q -> timer_op_ok q o ->
  exists q', LoopProcess.run_timer_op q o = Done q' /\ TimerQueueSpec.inv [] q'.
Proof.
  intros Hi Hok. destruct o as [now timer cb time|now now' timer cb delay|now now' timer cb interval|id|now armed_at run];
    cbn [LoopProcess.run_timer_op]; simpl in Hok.
  - destruct (TimerQueueFacts.addTimer_ok [] now q now timer cb time (double_of_int 0)) as (q' & He & Hq & _); [done|done|lia|].
    exists q'. unfold EventLoop.runAt. by rewrite He.
  - destruct Hok as (time & Ht & Hok). unfold EventLoop.runAfter, EventLoop.runAt. rewrite Ht. cbn [mbind outcome_bind].
    destruct (TimerQueueFacts.addTimer_ok [] now' q now' timer cb time (double_of_int 0)) as (q' & He & Hq & _); [done|done|lia|].
    exists q'. by rewrite He.
  - destruct Hok as (time & Ht & Hok). unfold EventLoop.runEvery. rewrite Ht. cbn [mbind outcome_bind].
    destruct (TimerQueueFacts.addTimer_ok [] now' q now' timer cb time interval) as (q' & He & Hq & _); [done|done|lia|].
    exists q'. by rewrite He.
  - destruct (TimerQueueFacts.cancel_ok [] q id Hi) as (q' & He & Hq & _). by exists q'.
  - destruct Hok as (H1 & H2 & H3).
    destruct (TimerQueueFacts.timer_handleRead_ok run q now armed_at) as (q' & qc & He & Hq & _); [done|lia|lia|done|].
    by exists q'.
Qed.

Lemma channel_steps_keep w lb :
  proc_ok w -> allowed w lb ->
  match lb with LoopProcess.Construct _ _ _ | LoopProcess.Destruct _ _ => False | _ => True end ->
  exists w', LoopProcess.step w lb = Done w' /\ proc_ok w'.
Proof.
  intros Hw Hal Hlb. destruct lb as [| |this ch fd|tid this ch o|tid this ch|tid this ch|this o]; [done|done|..]; simpl in Hal |- *.
  - destruct Hal as (l & Hl & Hn & Hfd). pose proof (po_loop _ Hw _ _ Hl) as Hok. destruct (lo_io _ Hok) as [A Hio].
    destruct (loop_ok_kept l (new_channel l ch fd) A ch) as (Hok' & Ht & Hf); [done|done| | | |by eapply on_loop_ok].
    + by apply new_ok, blank_init.
    + split; intros ->; [destruct (lo_wake_up _ Hok) as (c & ? & _)|destruct (lo_timerfd _ Hok) as (c & ? & _)]; congruence.
    + intros b fd' Hb (c & Hc & ?). exists c. simpl. by rewrite lookup_insert_ne.
  - destruct Hal as (l & c & Hl & <- & Hu & Hc & Hmay). pose proof (po_loop _ Hw _ _ Hl) as Hok. destruct (lo_io _ Hok) as [A Hio].
    destruct (op_ok None A l ch c o Hio Hc Hmay) as (l' & He & Hs & Hio' & Ho).
    destruct (loop_ok_kept l l' _ ch Hok Hs Hio' Hu) as (Hok' & Ht & Hf); [|by eapply on_loop_ok].
    intros b fd. by eapply own_kept.
  - destruct Hal as (l & c & Hl & <- & Hu & Hc & Ha & Hn). pose proof (po_loop _ Hw _ _ Hl) as Hok. destruct (lo_io _ Hok) as [A Hio].
    destruct (remove_ok None A l ch c Hio Hc Ha Hn (or_introl (lo_idle _ Hok))) as (l' & He & Hs & Hio' & Ho).
    destruct (loop_ok_kept l l' _ ch Hok Hs Hio' Hu) as (Hok' & Ht & Hf); [|by eapply on_loop_ok].
    intros b fd. by eapply own_kept.
  - destruct Hal as (l & c & Hl & Hu & Hc & Ha). pose proof (po_loop _ Hw _ _ Hl) as Hok. destruct (lo_io _ Hok) as [A Hio].
    destruct (delete_ok None A tid l ch c Hio Hc Ha ltac:(done)) as [He Hio'].
    destruct (loop_ok_kept l (with_io l (_poller l) (delete ch (chans l))) A ch) as (Hok' & Ht & Hf); [done|done|done|done| |by eapply on_loop_ok].
    intros b fd Hb (cb & Hcb & ?). exists cb. simpl. by rewrite lookup_delete_ne.
  - destruct Hal as (l & Hl & Hop). pose proof (po_loop _ Hw _ _ Hl) as Hok.
    destruct (timer_op_keeps (_timer_queue l) o (lo_timers _ Hok) Hop) as (q & He & Hq).
    apply (on_loop_ok w this l (with_timers l q)); try done.
    + unfold LoopProcess.on_timers. by rewrite He.
    + destruct Hok as [[A [? ? ?]] ? ? ? ? _ ?]. constructor; try done. exists A. by constructor.
Qed.

Lemma process_step_keeps w lb : proc_ok w -> allowed w lb -> exists w', LoopProcess.step w lb = Done w' /\ proc_ok w'.
Proof.
  intros Hw Hal. destruct lb; [by destruct (construct_keeps w tid this r Hw Hal) as (w' & ? & ? & _); exists w'|by apply destruct_keeps|by apply channel_steps_keep..].
Qed.

Lemma permitted_runs w lbs :
  proc_ok w -> permitted w lbs -> exists w', run_all LoopProcess.step w lbs = Done w' /\ proc_ok w'.
Proof.
  revert w. induction lbs as [|lb lbs IH]; intros w Hw Hp; [by exists w|]. destruct Hp as [Hal Hp].
  destruct (process_step_keeps w lb Hw Hal) as (w1 & He & Hw1). cbn [run_all]. rewrite He. cbn [mbind outcome_bind]. eauto.
Qed.
End LoopProcessFacts.
End LoopProcessFacts.

(** ** The unit test ([src/muduo/net/tests/EventLoop_unittest.cc])

    The two threads, each up to the call of [loop()], with their assertions. *)
Module EventLoopUnittest.
Import LoopProcess.
Section EventLoopUnittest.
Context {P : Type} `{PollerOps P}.

Definition main (w : LoopProcess.t P) (tid loop : Z) (r : LoopObject.resources) : outcome (LoopProcess.t P) :=
  assert_ (bool_decide (getEventLoopOfCurrentThread w tid = None));;
  w ← construct w tid loop r;
  assert_ (bool_decide (getEventLoopOfCurrentThread w tid = Some loop));;
  mret w.

Definition threadFunc (w : LoopProcess.t P) (tid loop : Z) (r : LoopObject.resources)
    (now now' timer callback : Z) : outcome (LoopProcess.t P) :=
  assert_ (bool_decide (getEventLoopOfCurrentThread w tid = None));;
  w ← construct w tid loop r;
  assert_ (bool_decide (getEventLoopOfCurrentThread w tid = Some loop));;
  on_loop w loop (fun l =>
    '(q, _) ← EventLoop.runEvery (LoopObject._timer_queue l) now now' timer callback (double_of_int 2);
    mret (LoopObject.with_timers l q)).
End EventLoopUnittest.
End EventLoopUnittest.

(** ** Properties *)
Module LoopTheorems.
Import LoopObject LoopSpec LoopFacts LoopProcessFacts.


(** C38.  Misuse and refused resources stop the process at once, in any process
    that kept to the rules so far: a second loop in a thread that has one, the
    destruction of a loop from another thread, and an operation on one of its
    channels from another thread end in [LOG_FATAL] ([Channel::remove] of a
    channel whose mask is not empty fails its own assertion before); a
    constructor to which the kernel refuses the epoll instance or the timerfd
    ends in [LOG_SYSFATAL], and one to which it refuses the eventfd in
    [abort()]. *)
Theorem loop_misuse_aborts {P} `{PollerLaws P} `{!Unrefused P} (lbs : list LoopProcess.label) w :
  permitted (P := P) LoopProcess.init lbs -> run_all LoopProcess.step LoopProcess.init lbs = Done w ->
  (forall tid this r a, LoopProcess.getEventLoopOfCurrentThread w tid = Some a -> resources_ok w r ->
     LoopProcess.step w (LoopProcess.Construct tid this r) = Fault LogFatal) /\
  (forall tid this r, Exists (fun fd => fd < 0) (r_timerfd r :: option_list (r_epollfd r)) ->
     LoopProcess.step w (LoopProcess.Construct tid this r) = Fault LogFatal) /\
  (forall tid this r, Forall (fun fd => 0 <= fd < two_31) (r_timerfd r :: option_list (r_epollfd r)) ->
     r_eventfd r < 0 -> LoopProcess.step w (LoopProcess.Construct tid this r) = Fault Aborted) /\
  (forall tid this l, LoopProcess.loops w !! this = Some l -> tid <> _thread_id l ->
     LoopProcess.step w (LoopProcess.Destruct tid this) = Fault LogFatal /\
     (forall ch c o, chans l !! ch = Some c ->
        LoopProcess.step w (LoopProcess.ChannelOp tid this ch o) = Fault LogFatal) /\
     (forall ch c, chans l !! ch = Some c ->
        LoopProcess.step w (LoopProcess.RemoveChannel tid this ch) =
          Fault (if Channel.isNoneEvent c then LogFatal else AssertFailure))).
Proof.
  intros Hp He. destruct (permitted_runs _ _ proc_init Hp) as (w' & He' & Hw). rewrite He in He'. injection He' as <-.
  split_and!.
  - intros tid this r a Htls (_ & [[He1 _] [[Htm _] Hep]%Forall_cons]%Forall_cons & _). simpl.
    unfold LoopProcess.construct. rewrite Htls.
    destruct (construct_begins tid r (LoopProcess.fd_table w) Htm) as (l & A & E1 & E2 & E4 & _).
    { intros fd Hfd. rewrite Hfd in Hep. simpl in Hep. rewrite Forall_singleton in Hep. lia. }
    unfold construct. rewrite E1. cbn [mbind outcome_bind]. rewrite E2. cbn [mbind outcome_bind].
    rewrite E4. cbn [mbind outcome_bind]. unfold createEventfd. rewrite bool_decide_eq_false_2; [done|lia].
  - intros tid this r Hneg. simpl. unfold LoopProcess.construct. by rewrite construct_without_fd.
  - intros tid this r Hr Hneg. simpl. unfold LoopProcess.construct. by rewrite construct_without_eventfd.
  - intros tid this l Hl Hne.
    assert (isInLoopThread tid l = false) as Hth by (apply bool_decide_eq_false_2; congruence).
    assert (forall ch c o, chans l !! ch = Some c -> channel_op tid l ch o = Fault LogFatal) as Hop.
    { intros ch c o Hc. unfold channel_op. rewrite (chan_deref_ok _ _ _ Hc), Hth. done. }
    pose proof (deref_loop_ok _ _ _ Hl) as Hd. split_and!; simpl.
    + unfold LoopProcess.destruct_loop, destroy. rewrite Hd. cbn [mbind outcome_bind].
      destruct (lo_wake_up _ (po_loop _ Hw _ _ Hl)) as (c & Hc & _). by rewrite (Hop _ c).
    + intros ch c o Hc. unfold LoopProcess.on_loop. rewrite Hd. cbn [mbind outcome_bind]. by rewrite (Hop _ c).
    + intros ch c Hc. unfold LoopProcess.on_loop. rewrite Hd. cbn [mbind outcome_bind].
      unfold remove. rewrite (chan_deref_ok _ _ _ Hc), Hth. cbn [mbind outcome_bind].
      by destruct (Channel.isNoneEvent c).
Qed.

(** The assertions of the unit test hold in the two threads, in any process in
    which the thread has no loop yet, and the loop of every other thread stays. *)
Theorem unittest_passes {P} `{PollerLaws P} `{!Unrefused P} (w : LoopProcess.t P) tid loop r now now' timer cb :
  proc_ok w -> allowed w (LoopProcess.Construct tid loop r) ->
  TimerQueueSpec.time_ok now -> TimerQueueSpec.time_ok now' -> TimerQueueSpec.time_ok (now + 2000000) ->
  0 < timer < UINTPTR_MAX ->
  (exists w1, EventLoopUnittest.main w tid loop r = Done w1 /\ proc_ok w1 /\
     forall tid', LoopProcess.getEventLoopOfCurrentThread w1 tid' =
       if decide (tid' = tid) then Some loop else LoopProcess.getEventLoopOfCurrentThread w tid') /\
  (exists w2, EventLoopUnittest.threadFunc w tid loop r now now' timer cb = Done w2 /\ proc_ok w2 /\
     forall tid', LoopProcess.getEventLoopOfCurrentThread w2 tid' =
       if decide (tid' = tid) then Some loop else LoopProcess.getEventLoopOfCurrentThread w tid').
Proof.
  intros Hw Hal Hn Hn' Ht Htm. pose proof Hal as (Hnone & _).
  destruct (construct_keeps w tid loop r Hw Hal) as (w1 & He & Hw1 & Htls & l & Hl & Hq).
  assert (forall tid', LoopProcess.getEventLoopOfCurrentThread w1 tid' =
    if decide (tid' = tid) then Some loop else LoopProcess.getEventLoopOfCurrentThread w tid') as Hget.
  { intros tid'. unfold LoopProcess.getEventLoopOfCurrentThread. rewrite Htls.
    case_decide as Hd; [rewrite Hd; apply lookup_insert_eq|by apply lookup_insert_ne]. }
  assert (LoopProcess.getEventLoopOfCurrentThread w1 tid = Some loop) as Hgt by by (rewrite Hget, decide_True).
  unfold EventLoopUnittest.main, EventLoopUnittest.threadFunc.
  rewrite Hnone, He. cbn [mbind outcome_bind]. rewrite Hgt. rewrite !(bool_decide_eq_true_2 (_ = _)) by done.
  cbn [assert_ mbind outcome_bind]. split; [by exists w1|].
  destruct (TimerQueueFacts.addTimer_ok [] now' (_timer_queue l) now' timer cb (now + 2000000) (double_of_int 2))
    as (q & Hadd & Hq' & _); [apply (po_loop _ Hw1 _ _ Hl)| |lia|].
  { rewrite Hq. constructor; try done. intros _. exists 2000000. split; [by vm_compute|]. unfold TimerQueueSpec.time_bound. lia. }
  destruct (on_loop_ok w1 loop l (with_timers l q) (fun l =>
    '(q, _) ← EventLoop.runEvery (_timer_queue l) now now' timer cb (double_of_int 2); mret (with_timers l q)))
    as (w2 & He2 & Hw2); [done|done| | |done|done|].
  - unfold EventLoop.runEvery, Timestamp.addTime.
    assert (Timestamp.micros (double_of_int 2) = Done 2000000) as -> by by vm_compute. cbn [mbind outcome_bind].
    rewrite checked64_ok; [cbn [mbind outcome_bind]; by rewrite Hadd|].
    unfold TimerQueueSpec.time_ok, TimerQueueSpec.time_bound in Ht. int_range.
  - destruct (po_loop _ Hw1 _ _ Hl) as [[A [? ? ?]] ? ? ? ? _ ?]. constructor; try done. exists A. by constructor.
  - exists w2. split; [done|]. split; [done|]. intros tid'. rewrite <-Hget. unfold LoopProcess.on_loop in He2.
    rewrite (deref_loop_ok _ _ _ Hl) in He2. cbn [mbind outcome_bind] in He2.
    apply bind_Done in He2 as (l2 & _ & [= <-]). done.
Qed.

(** *** Two threads with a loop each; the first takes a channel on and goes *)
Definition res (epollfd : option Z) (fd ch : Z) : resources := mk_resources epollfd fd (fd + 1) ch (ch + 8).

Definition history : list LoopProcess.label :=
  [LoopProcess.Construct 1 1000 (res None 3 1100); LoopProcess.NewChannel 1000 1200 9;
   LoopProcess.ChannelOp 1 1000 1200 EnableReading; LoopProcess.Construct 2 2000 (res None 5 2100);
   LoopProcess.TimerOp 1000 (LoopProcess.RunAt 500 64 7 1000);
   LoopProcess.TimerOp 1000 (LoopProcess.Expire 2000 2000 (fun _ q => Done q));
   LoopProcess.Destruct 1 1000].

Lemma history_permitted : permitted (P := PollPoller.t) LoopProcess.init history.
Proof.
  unfold history.
  repeat (match goal with |- permitted _ (_ :: _) => idtac end; split; [|
    let w := fresh in let Hw := fresh in intros w Hw; vm_compute in Hw; injection Hw as <-]); try exact I; simpl.
  - split_and!; try done. split_and!; [by_computation| |done]. by_computation.
  - eexists. by split_and!.
  - eexists _, _. split_and!; try done. right. split_and!; try done.
    match goal with |- forall b c', ?m !! b = Some c' -> ?A -> ?B =>
      change (map_Forall (fun b c' => Channel.addedToLoop_ c' = true -> Channel.fd_ c' <> 9) m) end.
    by_computation.
  - split_and!; try done. split_and!; [by_computation| |done]. by_computation.
  - eexists. split; [reflexivity|]. constructor; try done.
  - eexists. split; [reflexivity|]. split_and!; try done. apply TimerQueueTheorems.idle_callback_ok.
  - eexists. by split.
Qed.


Lemma loop_misuse_aborts_witness :
  exists w, run_all (LoopProcess.step (P := PollPoller.t)) LoopProcess.init history = Done w /\
    LoopProcess.step w (LoopProcess.Construct 2 3000 (res None 7 3100)) = Fault LogFatal /\
    LoopProcess.step w (LoopProcess.Destruct 1 2000) = Fault LogFatal.
Proof.
  destruct (run_all (LoopProcess.step (P := PollPoller.t)) LoopProcess.init history) as [w|] eqn:He; [|vm_compute in He; discriminate He].
  destruct (loop_misuse_aborts history w history_permitted He) as (H1 & _ & _ & H3). exists w. split; [done|].
  vm_compute in He. injection He as <-. split.
  - eapply (H1 2 3000 (res None 7 3100) 2000); [reflexivity|]. split_and!; [by_computation|by_computation|done].
  - edestruct (H3 1 2000) as [H4 _]; [reflexivity|discriminate|]. exact H4.
Defined.
End LoopTheorems.
