(* ===== verification/Reactors.v ===== *)
(** * Reactors: one iteration of the loop over its poller and its channels

    The body of [EventLoop::loop] ([src/muduo/net/EventLoop.cc]) up to
    [doPendingFunctors], with the poller, the channels and the callbacks of their
    owners composed: the poller fills [_active_channels], [handleEvent] of each
    turns the returned bits into calls, and the callbacks in turn change the
    interest of channels, put new ones on the loop, take channels off and
    destroy them, under the assertion of [removeChannel] that keeps the channels
    still waiting in [_active_channels] alive.  The model is over any poller
    that keeps [PollerLaws]. *)
From S2P Require Import Prelude Timestamps StdSet TimerQueues Channels Pollers DefaultPollers EventLoops LoopLifetimes.

Local Open Scope Z_scope.

Module Reactor.
Section Reactor.
Context {P : Type} `{PollerOps P}.

(** What a callback asks of the loop, in the loop's thread. *)
Inductive action : Type :=
  | Op (ch : Z) (o : chan_op)                    (* enableReading() and the like *)
  | Remove (ch : Z)                              (* channel->remove() *)
  | New (ch fd : Z)                              (* new Channel(loop, fd) *)
  | SetCallback (ch : Z) (cb : Channel.callback)
  | Tie (ch : Z)
  | Delete (ch : Z)                              (* delete channel *)
  | Expire (ch : Z).                             (* the last owner of the object [ch] is tied to goes *)

Record t : Type := mk {
  object : LoopObject.t P;
  expired : gset Z;                              (* channels whose [tie_.lock()] fails *)
  calls : list (Z * Channel.callback);           (* history: every callback made *)
}.

Definition on_object (w : t) (r : outcome (LoopObject.t P)) : outcome t :=
  l ← r; mret (mk l (expired w) (calls w)).
Definition on_channel (w : t) (ch : Z) (f : Channel.t -> Channel.t) : t :=
  mk (LoopObject.with_io (object w) (LoopObject._poller (object w)) (alter f ch (LoopObject.chans (object w))))
    (expired w) (calls w).

Definition set_callback (cb : Channel.callback) : Channel.t -> Channel.t :=
  match cb with
  | Channel.CloseCallback => Channel.setCloseCallback
  | Channel.ErrorCallback => Channel.setErrorCallback
  | Channel.ReadCallback => Channel.setReadCallback
  | Channel.WriteCallback => Channel.setWriteCallback
  end.

Definition act (w : t) (a : action) : outcome t :=
  let l := object w in
  let tid := LoopObject._thread_id l in
  match a with
  | Op ch o => on_object w (LoopObject.channel_op tid l ch o)
  | Remove ch => on_object w (LoopObject.remove tid l ch)
  | New ch fd => on_object w (mret (LoopObject.new_channel l ch fd))
  | SetCallback ch cb => _ ← deref (LoopObject.chans l) ch; mret (on_channel w ch (set_callback cb))
  | Tie ch => _ ← deref (LoopObject.chans l) ch; mret (on_channel w ch Channel.tie)
  | Delete ch => on_object w (LoopObject.delete_channel tid l ch)
  | Expire ch => mret (mk l ({[ch]} ∪ expired w) (calls w))
  end.

Section Callbacks.
(** The code of the callbacks: what a call does, given the state it finds. *)
Context (body : Z -> Channel.callback -> t -> list action).

Definition call (ch : Z) (cb : Channel.callback) (w : t) : outcome t :=
  let w := mk (object w) (expired w) (calls w ++ [(ch, cb)]) in
  run_all act w (body ch cb w).

Definition look (ch : Z) (w : t) : Channel.t :=
  default (Channel.init 0) (LoopObject.chans (object w) !! ch).
Definition upd (ch : Z) (f : Channel.t -> Channel.t) (w : t) : t := on_channel w ch f.

(** [channel->handleEvent(_poll_return_time)] *)
Definition handleEvent (ch : Z) (w : t) : outcome t :=
  _ ← deref (LoopObject.chans (object w)) ch;
  Channel.handleEvent (look ch) (upd ch) (call ch) (bool_decide (ch ∉ expired w)) w.

(** One round of [for (Channel* channel : _active_channels)]. *)
Definition dispatch (w : t) (ch : Z) : outcome t :=
  let l := object w in
  let l := LoopObject.with_active l (LoopObject._event_handling l) (LoopObject._active_channels l) (Some ch) in
  handleEvent ch (mk l (expired w) (calls w)).

(** The body of the loop, up to [doPendingFunctors]. *)
Definition iterate (w : t) (ans : answer) : outcome t :=
  let l := object w in
  '(p, σ, active) ← p_poll (LoopObject._poller l) (LoopObject.chans l) ans;
  let l := LoopObject.with_active (LoopObject.with_io l p σ) true active (LoopObject._current_active_channel l) in
  w ← run_all dispatch (mk l (expired w) (calls w)) active;
  let l := object w in
  mret (mk (LoopObject.with_active l false (LoopObject._active_channels l) None) (expired w) (calls w)).
End Callbacks.
End Reactor.
Arguments t : clear implicits.
End Reactor.

(** ** Specification *)
Module ReactorSpec.
Import LoopObject LoopSpec LoopFacts Reactor.
Section ReactorSpec.
Context {P : Type} `{PollerLaws P}.
Implicit Types (w : Reactor.t P).

(** What an owner may ask, as in [LoopSpec]: in addition it does not destroy,
    tie or rewire a channel that is on the loop or being dispatched, and it
    removes a channel only if that is the one being dispatched or is not
    waiting to be. *)
Definition act_ok w (a : action) : Prop :=
  let σ := chans (object w) in
  match a with
  | Op ch o => exists c, σ !! ch = Some c /\ may_update (object w) ch c o
  | Remove ch => exists c, σ !! ch = Some c /\ Channel.addedToLoop_ c = true /\ Channel.isNoneEvent c = true /\
      removable (object w) ch
  | New ch fd => σ !! ch = None /\ 0 <= fd < two_31
  | SetCallback ch _ | Tie ch | Delete ch =>
      exists c, σ !! ch = Some c /\ Channel.addedToLoop_ c = false /\ Channel.eventHandling_ c = false
  | Expire _ => True
  end.

Fixpoint acts_ok w (acts : list action) : Prop :=
  match acts with
  | [] => True
  | a :: acts => act_ok w a /\ forall w', act w a = Done w' -> acts_ok w' acts
  end.

(** Between two iterations, with the poller watching [A]. *)
Definition idle (A : watches) w : Prop := io_ok None A (object w) /\ _event_handling (object w) = false.

(** A callback of channel [ch] is running. *)
Definition in_callback (ch : Z) w : Prop :=
  (exists A, io_ok (Some ch) A (object w)) /\ is_Some (chans (object w) !! ch) /\
  _event_handling (object w) = true /\ _current_active_channel (object w) = Some ch.

(** Callbacks that keep to the rules whenever they are called. *)
Definition lawful (body : Z -> Channel.callback -> Reactor.t P -> list action) : Prop :=
  forall ch cb w, in_callback ch w -> acts_ok w (body ch cb w).

(** The calls that channel [c] at [ch] makes for the returned bits [r]. *)
Definition due (ch : Z) (c : Channel.t) (r : Z) : list (Z * Channel.callback) :=
  pair ch <$> filter (fun cb => Channel.has c cb = true) (ChannelTheorems.dispatched r).
End ReactorSpec.
End ReactorSpec.

(** ** Lemmas *)
Module ReactorFacts.
Import LoopObject LoopSpec LoopFacts Reactor ReactorSpec.

(** What a dispatch looks at: the returned bits, the callbacks and the tie. *)
Definition like (c c' : Channel.t) : Prop := ChannelTheorems.stable c c' /\ Channel.tied_ c' = Channel.tied_ c.

Global Instance like_preorder : PreOrder like.
Proof.
  split; [done|]. intros c1 c2 c3 [H1 H2] [H3 H4]. split; [by etrans|congruence].
Qed.

Lemma like_index c i : like c (Channel.set_index i c).
Proof. done. Qed.
Lemma like_op c o : like c (Channel.set_addedToLoop true (chan_apply o c)).
Proof. by destruct o. Qed.

Section ReactorFacts.
Context {P : Type} `{PollerLaws P} `{!Unrefused P}.
Implicit Types (w : Reactor.t P) (l : LoopObject.t P).

(** What is not changed by the actions of a callback of channel [cur]. *)
Record kept (cur : Z) w w' : Prop := {
  kp_members : _event_handling (object w') = _event_handling (object w) /\
    _active_channels (object w') = _active_channels (object w) /\
    _current_active_channel (object w') = _current_active_channel (object w);
  kp_calls : calls w' = calls w;
  kp_expired : expired w ⊆ expired w';
  kp_current c : chans (object w) !! cur = Some c -> exists c', chans (object w') !! cur = Some c' /\ like c c';
  kp_waiting b c : b ∈ _active_channels (object w) -> b <> cur ->
    chans (object w) !! b = Some c -> Channel.addedToLoop_ c = true ->
    exists c', chans (object w') !! b = Some c' /\ like c c' /\ Channel.addedToLoop_ c' = true;
}.

Lemma kept_refl cur w : kept cur w w.
Proof. constructor; try done; intros; by eexists. Qed.

Lemma kept_trans cur w1 w2 w3 : kept cur w1 w2 -> kept cur w2 w3 -> kept cur w1 w3.
Proof.
  intros [(M1 & M2 & M3) C1 X1 K1 W1] [(N1 & N2 & N3) C2 X2 K2 W2]. constructor; [|congruence|set_solver|..].
  - split_and!; congruence.
  - intros c Hc. destruct (K1 c Hc) as (c' & Hc' & ?). destruct (K2 c' Hc') as (c2 & ? & ?).
    exists c2. split; [done|]. by etrans.
  - intros b c Hb Hne Hc Ha. destruct (W1 b c Hb Hne Hc Ha) as (c' & Hc' & ? & ?).
    destruct (W2 b c') as (c2 & ? & ? & ?); [by rewrite M2|done..|]. exists c2. split; [done|]. split; [by etrans|done].
Qed.

(** Storing [c0] for [ch] and renumbering keeps every other channel. *)
Lemma stored_kept cur w l' ch c c0 :
  same_members (object w) l' -> index_only (<[ch := c0]> (chans (object w))) (chans l') ->
  chans (object w) !! ch = Some c -> like c c0 ->
  (ch ∈ _active_channels (object w) -> ch <> cur -> Channel.addedToLoop_ c0 = true) ->
  kept cur w (mk l' (expired w) (calls w)).
Proof.
  intros Hs Ho Hc Hl Ha. constructor; cbn [object expired calls]; [by rewrite Hs|done|done|..].
  - intros c1 Hc1. destruct (decide (cur = ch)) as [->|Hne].
    + destruct (index_only_out _ _ ch _ Ho (lookup_insert_eq _ _ _)) as [i Hi]. simplify_eq. by eexists.
    + destruct (index_only_out _ _ cur c1 Ho) as [i Hi]; [by rewrite lookup_insert_ne|]. by eexists.
  - intros b cb Hb Hne Hcb Hab. destruct (decide (b = ch)) as [->|Hn].
    + destruct (index_only_out _ _ ch _ Ho (lookup_insert_eq _ _ _)) as [i Hi]. simplify_eq.
      eexists. split; [exact Hi|]. split; [done|]. by apply Ha.
    + destruct (index_only_out _ _ b cb Ho) as [i Hi]; [by rewrite lookup_insert_ne|].
      eexists. split; [exact Hi|]. done.
Qed.

(** The channels that are on the loop, or current, are as they were. *)
Lemma framed_kept cur w σ' :
  is_Some (chans (object w) !! cur) ->
  (forall b c, chans (object w) !! b = Some c -> Channel.addedToLoop_ c = true \/ b = cur -> σ' !! b = Some c) ->
  kept cur w (mk (with_io (object w) (_poller (object w)) σ') (expired w) (calls w)).
Proof.
  intros _ Hk. constructor; cbn [object expired calls]; try done; simpl.
  - intros c Hc. exists c. split; [|done]. apply Hk; auto.
  - intros b c _ _ Hc Ha. exists c. split; [|done]. apply Hk; auto.
Qed.

(** Rewiring a channel that is not on the loop. *)
Lemma io_alter h A l ch c f :
  io_ok h A l -> chans l !! ch = Some c -> Channel.addedToLoop_ c = false ->
  Channel.eventHandling_ (f c) = Channel.eventHandling_ c -> Channel.addedToLoop_ (f c) = false ->
  Channel.fd_ (f c) = Channel.fd_ c -> Channel.events_ (f c) = Channel.events_ c ->
  io_ok h A (with_io l (_poller l) (alter f ch (chans l))).
Proof.
  intros Hio Hc Ha Hf1 Hf2 Hf3 Hf4. destruct (io_coherent _ _ _ Hio) as [H1 H2].
  assert (forall fd a e, A !! fd = Some (a, e) -> a <> ch) as Hoff.
  { intros fd a e HA ->. destruct (H2 fd ch e HA) as (c' & Hc' & Hfd & _). simplify_eq.
    apply (io_added _ _ _ Hio) in Hc as [_ Hiff]. rewrite Ha in Hiff. destruct Hiff as [_ Hiff].
    discriminate Hiff. by rewrite HA. }
  constructor; simpl.
  - eapply repr_frame; [apply Hio|]. intros fd a e ca HA Hca. exists ca.
    rewrite lookup_alter_ne; [done|]. intros <-. by eapply Hoff.
  - split.
    + intros a ca Hca. destruct (decide (a = ch)) as [->|Hne].
      * rewrite lookup_alter_eq, Hc in Hca. injection Hca as <-. rewrite Hf3, Hf4. by apply (H1 ch).
      * rewrite lookup_alter_ne in Hca by done. by apply (H1 a).
    + intros fd a e HA. destruct (H2 fd a e HA) as (ca & Hca & ?). exists ca. rewrite lookup_alter_ne; [done|].
      intros <-. by eapply Hoff.
  - intros b cb Hcb. destruct (decide (b = ch)) as [->|Hne].
    + rewrite lookup_alter_eq, Hc in Hcb. injection Hcb as <-. rewrite Hf1, Hf2, Hf3, <-Ha. by apply (io_added _ _ _ Hio).
    + rewrite lookup_alter_ne in Hcb by done. by apply (io_added _ _ _ Hio).
Qed.

(** One action of a callback of [cur]: it completes and keeps what the loop relies on. *)
Lemma act_keeps cur w a :
  in_callback cur w -> act_ok w a ->
  exists w', act w a = Done w' /\ in_callback cur w' /\ kept cur w w'.
Proof.
  intros Hin Hok.
  assert (forall w' A', act w a = Done w' -> io_ok (Some cur) A' (object w') -> kept cur w w' ->
    exists w', act w a = Done w' /\ in_callback cur w' /\ kept cur w w') as Hfin.
  { intros w' A' He Hio' Hk. exists w'. split; [done|]. split; [|done]. destruct Hin as (_ & [c Hc] & He' & Hcur).
    unfold in_callback. destruct (kp_members _ _ _ Hk) as (-> & _ & ->). split; [by exists A'|]. split; [|done].
    destruct (kp_current _ _ _ Hk c Hc) as (c' & ? & _). by exists c'. }
  destruct Hin as ((A & Hio) & Hcc & Heh & Hcur).
  assert (forall ch c, chans (object w) !! ch = Some c -> Channel.eventHandling_ c = false -> Some cur <> Some ch) as Hnc.
  { intros ch c Hc Hh [= <-]. destruct (io_added _ _ _ Hio _ _ Hc) as [Hh' _]. rewrite Hh in Hh'.
    by rewrite bool_decide_eq_true_2 in Hh'. }
  destruct a as [ch o|ch|ch fd|ch cb|ch|ch|ch]; cbn [act act_ok] in *.
  - destruct Hok as (c & Hc & Hmay). destruct (op_ok _ A _ ch c o Hio Hc Hmay) as (l' & He & Hs & Hio' & Ho).
    rewrite He in *. eapply Hfin; [done|exact Hio'|]. eapply stored_kept; [done|done|done|apply like_op|done].
  - destruct Hok as (c & Hc & Ha & Hn & Hrm). destruct (remove_ok _ A _ ch c Hio Hc Ha Hn Hrm) as (l' & He & Hs & Hio' & Ho).
    rewrite He in *. eapply Hfin; [done|exact Hio'|]. eapply stored_kept; [done|done|done|done|]. simpl.
    intros Hact Hne. destruct Hrm as [?|[?|?]]; congruence.
  - destruct Hok as (Hn & Hfd). eapply Hfin; [done|apply new_ok|apply framed_kept]; try done.
    + intros [= <-]. by destruct Hcc; congruence.
    + intros b c Hc _. rewrite lookup_insert_ne; [done|]. congruence.
  - destruct Hok as (c & Hc & Ha & Hh). rewrite (chan_deref_ok _ _ _ Hc) in *. cbn [mbind outcome_bind] in *.
    eapply Hfin; [done|eapply (io_alter _ A); try done; by destruct cb|]. apply framed_kept; [done|].
    intros b cb' Hb Hor. rewrite lookup_alter_ne; [done|]. intros <-. simplify_eq.
    destruct Hor as [?| ->]; [congruence|]. by destruct (Hnc _ _ Hc).
  - destruct Hok as (c & Hc & Ha & Hh). rewrite (chan_deref_ok _ _ _ Hc) in *. cbn [mbind outcome_bind] in *.
    eapply Hfin; [done|by eapply (io_alter _ A)|]. apply framed_kept; [done|].
    intros b cb' Hb Hor. rewrite lookup_alter_ne; [done|]. intros <-. simplify_eq.
    destruct Hor as [?| ->]; [congruence|]. by destruct (Hnc _ _ Hc).
  - destruct Hok as (c & Hc & Ha & Hh).
    destruct (delete_ok _ A (_thread_id (object w)) _ ch c Hio Hc Ha (Hnc _ _ Hc Hh)) as [He Hio'].
    rewrite He in *. eapply Hfin; [done|exact Hio'|]. apply framed_kept; [done|].
    intros b cb' Hb Hor. rewrite lookup_delete_ne; [done|]. intros <-. simplify_eq.
    destruct Hor as [?| ->]; [congruence|]. by destruct (Hnc _ _ Hc).
  - eapply Hfin; [done|exact Hio|]. constructor; simpl; try done; [set_solver|..]; intros; by eexists.
Qed.

Lemma acts_keep cur w acts :
  in_callback cur w -> acts_ok w acts ->
  exists w', run_all act w acts = Done w' /\ in_callback cur w' /\ kept cur w w'.
Proof.
  revert w. induction acts as [|a acts IH]; intros w Hin Hok; [exists w; by split_and!; try apply kept_refl|].
  destruct Hok as [Ha Hok]. destruct (act_keeps cur w a Hin Ha) as (w1 & He1 & Hin1 & Hk1).
  destruct (IH w1 Hin1 (Hok w1 He1)) as (w2 & He2 & Hin2 & Hk2). exists w2. cbn [run_all]. rewrite He1.
  split; [done|]. split; [done|]. by eapply kept_trans.
Qed.

(** [w] after the calls [log] have been logged. *)
Definition logged w (log : list (Z * Channel.callback)) : Reactor.t P := mk (object w) (expired w) (calls w ++ log).

Lemma kept_logged cur w w' log : kept cur w w' -> kept cur (logged w log) (logged w' log).
Proof. intros [M C X K W]. constructor; simpl; try done. by rewrite C. Qed.

Section Lawful.
Context (body : Z -> Channel.callback -> Reactor.t P -> list action).
Hypothesis body_lawful : lawful body.

Lemma calls_keep ch w cbs :
  in_callback ch w ->
  exists w', run_all (fun w cb => call body ch cb w) w cbs = Done w' /\ in_callback ch w' /\
    kept ch (logged w (pair ch <$> cbs)) w'.
Proof.
  revert w. induction cbs as [|cb cbs IH]; intros w Hin; cbn [run_all].
  { exists w. split; [done|]. split; [done|]. unfold logged. rewrite fmap_nil, app_nil_r. destruct w. apply kept_refl. }
  destruct (acts_keep ch (logged w [(ch, cb)]) (body ch cb (logged w [(ch, cb)]))) as (w1 & He1 & Hin1 & Hk1);
    [done|by apply body_lawful|].
  destruct (IH w1 Hin1) as (w2 & He2 & Hin2 & Hk2). exists w2.
  change (call body ch cb w) with (run_all act (logged w [(ch, cb)]) (body ch cb (logged w [(ch, cb)]))). rewrite He1.
  split; [done|]. split; [done|]. eapply kept_trans; [|exact Hk2].
  apply (kept_logged _ _ _ (pair ch <$> cbs)) in Hk1. unfold logged in *. rewrite fmap_cons. simpl in *.
  by rewrite <-app_assoc in Hk1.
Qed.

(** Raising and lowering [eventHandling_]. *)
Lemma io_handling h h' A l ch b :
  io_ok h A l -> (forall x, x <> ch -> (h = Some x <-> h' = Some x)) -> b = bool_decide (h' = Some ch) ->
  io_ok h' A (with_io l (_poller l) (alter (Channel.set_eventHandling b) ch (chans l))).
Proof.
  intros Hio Hx ->. destruct (io_coherent _ _ _ Hio) as [H1 H2].
  assert (forall a c', alter (Channel.set_eventHandling (bool_decide (h' = Some ch))) ch (chans l) !! a = Some c' ->
    exists c, chans l !! a = Some c /\ c' = Channel.set_eventHandling (if decide (a = ch) then bool_decide (h' = Some ch) else Channel.eventHandling_ c) c) as Hback.
  { intros a c'. destruct (decide (a = ch)) as [->|Hne].
    - rewrite lookup_alter_eq. intros (c & -> & Hc)%fmap_Some. by exists c.
    - rewrite lookup_alter_ne by done. intros Hc. exists c'. split; [done|]. by destruct c'. }
  constructor; simpl.
  - eapply repr_frame; [apply Hio|]. intros fd a e c HA Hc. destruct (decide (a = ch)) as [->|Hne].
    + rewrite lookup_alter_eq, Hc. by eexists.
    + rewrite lookup_alter_ne by done. by exists c.
  - split.
    + intros a c' (c & Hc & ->)%Hback. simpl. by apply (H1 a).
    + intros fd a e (c & Hc & ? & ?)%H2. destruct (decide (a = ch)) as [->|Hne].
      * rewrite lookup_alter_eq, Hc. by eexists.
      * rewrite lookup_alter_ne by done. by exists c.
  - intros a c' (c & Hc & ->)%Hback. simpl. destruct (io_added _ _ _ Hio _ _ Hc) as [He Ha]. split; [|done].
    destruct (decide (a = ch)) as [->|Hd]; [done|]. rewrite He. apply bool_decide_ext. by apply Hx.
Qed.

(** The calls of one channel. *)
Definition segment (w : Reactor.t P) ch c : list (Z * Channel.callback) :=
  if Channel.tied_ c && bool_decide (ch ∈ expired w) then [] else due ch c (Channel.revents_ c).

Lemma handleEvent_ok A ch w c :
  io_ok None A (object w) -> _event_handling (object w) = true -> _current_active_channel (object w) = Some ch ->
  chans (object w) !! ch = Some c ->
  exists w' A', handleEvent body ch w = Done w' /\ io_ok None A' (object w') /\
    kept ch (logged w (segment w ch c)) w'.
Proof.
  intros Hio Heh Hcur Hc. unfold handleEvent. rewrite (chan_deref_ok _ _ _ Hc). cbn [mbind outcome_bind].
  set (w0 := upd ch (Channel.set_eventHandling true) w).
  assert (look ch w = c) as Hlook by (unfold look; by rewrite Hc).
  assert (in_callback ch w0) as Hin0.
  { split; [exists A|split; [|done]].
    - apply (io_handling None); [done| |by rewrite bool_decide_eq_true_2]. intros x Hx. split; [done|congruence].
    - simpl. rewrite lookup_alter_eq, Hc. by eexists. }
  rewrite (ChannelTheorems.handleEvent_dispatch (look ch) (upd ch) (call body ch) (in_callback ch)).
  - rewrite Hlook. unfold segment.
    assert (negb (bool_decide (ch ∉ expired w)) = bool_decide (ch ∈ expired w)) as ->.
    { rewrite <-bool_decide_not. apply bool_decide_ext. split; [by intros ?%dec_stable|auto]. }
    destruct (Channel.tied_ c && bool_decide (ch ∈ expired w)).
    { exists w, A. split; [done|]. split; [done|]. unfold logged. rewrite app_nil_r. destruct w. apply kept_refl. }
    fold w0. unfold due. set (cbs := filter _ _).
    destruct (calls_keep ch w0 cbs Hin0) as (w1 & -> & Hin1 & Hk1). cbn [mbind outcome_bind].
    destruct Hin1 as ((A1 & Hio1) & [c1 Hc1] & Heh1 & Hcur1).
    eexists (upd ch (Channel.set_eventHandling false) w1), A1. split; [done|]. split.
    { apply (io_handling (Some ch)); [done| |done]. intros x Hx. split; [congruence|done]. }
    destruct Hk1 as [M1 C1 X1 K1 W1]. constructor; simpl in *; try done.
    + intros c2 Hc2. destruct (K1 (Channel.set_eventHandling true c2)) as (c' & Hc' & Hl).
      { by rewrite lookup_alter_eq, Hc2. }
      rewrite lookup_alter_eq, Hc'. eexists. split; [done|]. by destruct Hl as [[? ?] ?].
    + intros b cb Hb Hne Hcb Hab. rewrite lookup_alter_ne by done. apply W1; [done|done| |done].
      by rewrite lookup_alter_ne.
  - intros cb w1 w2 Hin1 Hcall. destruct (calls_keep ch w1 [cb] Hin1) as (w' & He & Hin' & Hk').
    cbn [run_all] in He. rewrite Hcall in He. injection He as <-. split; [|done].
    destruct Hin1 as (_ & [c1 Hc1] & _). destruct (kp_current _ _ _ Hk' c1 Hc1) as (c2 & Hc2 & [Hs _]).
    unfold look. by rewrite Hc1, Hc2.
  - unfold look, upd. simpl. by rewrite lookup_alter_eq, Hc.
  - done.
Qed.

(** The channels of [l] wait to be dispatched as [poll] left them in [σ0]. *)
Definition waiting (σ0 : channels) (chs : list Z) w : Prop :=
  forall b, b ∈ chs -> exists c0 c, σ0 !! b = Some c0 /\ chans (object w) !! b = Some c /\ like c0 c /\
    Channel.addedToLoop_ c = true.

(** A channel made its calls, unless it is tied to an object that is gone. *)
Definition served (σ0 : channels) (E E' : gset Z) (ch : Z) (seg : list (Z * Channel.callback)) : Prop :=
  exists c, σ0 !! ch = Some c /\
    ((seg = due ch c (Channel.revents_ c) /\ (Channel.tied_ c = true -> ch ∉ E)) \/
     (seg = [] /\ Channel.tied_ c = true /\ ch ∈ E')).

Lemma served_mono σ0 E1 E1' E2 E2' ch seg :
  E1 ⊆ E2 -> E2' ⊆ E1' -> served σ0 E2 E2' ch seg -> served σ0 E1 E1' ch seg.
Proof. intros H1 H2 (c & Hc & Hor). exists c. split; [done|]. set_solver. Qed.

Lemma like_due ch c0 c : like c0 c -> due ch c (Channel.revents_ c) = due ch c0 (Channel.revents_ c0).
Proof.
  intros [[-> Hh] _]. unfold due. f_equal. apply list_filter_iff. intros cb. by rewrite Hh.
Qed.

Lemma segment_served σ0 w ch c0 c E' :
  σ0 !! ch = Some c0 -> like c0 c -> expired w ⊆ E' -> served σ0 (expired w) E' ch (segment w ch c).
Proof.
  intros Hc0 Hl HE. exists c0. split; [done|]. unfold segment. rewrite (proj2 Hl), (like_due _ _ _ Hl).
  destruct (Channel.tied_ c0); simpl; [case_bool_decide|]; [right; set_solver|by left|by left].
Qed.

Lemma dispatch_all σ0 chs A w :
  io_ok None A (object w) -> _event_handling (object w) = true -> NoDup chs ->
  chs ⊆ _active_channels (object w) -> waiting σ0 chs w ->
  exists w' A' segs, run_all (dispatch body) w chs = Done w' /\ io_ok None A' (object w') /\
    expired w ⊆ expired w' /\ calls w' = calls w ++ concat segs /\
    Forall2 (served σ0 (expired w) (expired w')) chs segs.
Proof.
  revert A w. induction chs as [|ch chs IH]; intros A w Hio Heh Hnd Hsub Hw.
  { exists w, A, []. split_and!; try done. by rewrite app_nil_r. }
  apply NoDup_cons in Hnd as [Hnin Hnd]. destruct (Hw ch) as (c0 & c & Hc0 & Hc & Hl & Ha); [set_solver|].
  cbn [run_all].
  set (w0 := mk (with_active (object w) (_event_handling (object w)) (_active_channels (object w)) (Some ch)) (expired w) (calls w)).
  destruct (handleEvent_ok A ch w0 c) as (w1 & A1 & He1 & Hio1 & Hk1); [by destruct Hio|done|done|done|].
  change (dispatch body w ch) with (handleEvent body ch w0). rewrite He1. cbn [mbind outcome_bind]. destruct (kp_members _ _ _ Hk1) as (E1 & E2 & _).
  destruct (IH A1 w1) as (w2 & A2 & segs & He2 & Hio2 & Hx2 & Hc2 & Hf2); [done|by rewrite E1|done| | |].
  - rewrite E2. set_solver.
  - intros b Hb. destruct (Hw b) as (b0 & cb & Hb0 & Hcb & Hlb & Hab); [set_solver|].
    destruct (kp_waiting _ _ _ Hk1 b cb) as (cb' & ? & ? & ?); [set_solver|by intros ->|done|done|].
    exists b0, cb'. split_and!; try done. by etrans.
  - exists w2, A2, (segment w0 ch c :: segs). pose proof (kp_expired _ _ _ Hk1) as Hx1. simpl in Hx1.
    split_and!; [done|done|set_solver| |].
    + rewrite Hc2, (kp_calls _ _ _ Hk1). simpl. by rewrite app_assoc.
    + constructor; [apply (segment_served _ w0 ch c0 c); [done|done|set_solver]|].
      eapply Forall2_impl; [exact Hf2|]. intros b seg. by apply served_mono.
Qed.
End Lawful.
End ReactorFacts.
End ReactorFacts.

(** ** Properties *)
Module ReactorTheorems.
Import LoopObject LoopSpec LoopFacts Reactor ReactorSpec ReactorFacts.

(** Each descriptor has its own channel, so no channel is active twice. *)
Lemma active_NoDup A (σ σ' : channels) active delivered (ready : list (Z * Z)) :
  coherent A σ -> NoDup ready.*1 -> delivered ⊆+ ready ->
  Forall2 (fun a r => fst <$> A !! r.1 = Some a /\ σ' !! a = Channel.set_revents r.2 <$> σ !! a) active delivered ->
  NoDup active.
Proof.
  intros Hco Hnd Hsub Hf.
  apply submseteq_Permutation in Hsub as [k Hk]. rewrite Hk, fmap_app in Hnd. apply NoDup_app in Hnd as [Hnd' _].
  clear Hk. induction Hf as [|a r active delivered [HA _] Hf IH]; [constructor|].
  rewrite fmap_cons in Hnd'. apply NoDup_cons in Hnd' as [Hn Hnd']. constructor; [|by apply IH].
  intros Hin. apply Hn. apply list_elem_of_lookup in Hin as [i Hi].
  destruct (Forall2_lookup_l _ _ _ _ _ Hf Hi) as (r' & Hr' & HA' & _).
  destruct (A !! r.1) as [[a1 e1]|] eqn:E1; [|done]. destruct (A !! r'.1) as [[a2 e2]|] eqn:E2; [|done].
  simpl in *. simplify_eq. destruct (proj2 Hco _ _ _ E1) as (c & Hc & <- & _).
  rewrite <-(watch_unique _ _ _ _ _ _ Hco Hc E2). apply list_elem_of_fmap. exists r'. split; [done|].
  by eapply list_elem_of_lookup_2.
Qed.

(** C6.  One iteration of the loop, with the poller, the channels and the
    callbacks of their owners together, over a kernel that refuses to watch no
    descriptor: when [poll] returns, having been told what was due (at least
    one descriptor if any was), the channel of each descriptor handed out is
    dispatched once, in order, and makes
    exactly the calls that its returned bits ask for and its owner has set
    (none when it is tied to an object that is gone), whatever lawful callbacks
    do meanwhile to this and other channels; nothing fails, no channel that
    waits to be dispatched is gone when its turn comes, and the loop is ready
    for the next iteration with the poller consistent. *)
Theorem iteration_dispatches {P} `{PollerLaws P} `{!Unrefused P} body A (w : Reactor.t P) conds :
  lawful body -> idle A w -> ready_ok conds ->
  let told := reports (p_asked (_poller (object w))) (p_always (_poller (object w))) conds in
  exists w' A' active delivered segs, iterate body w (Ready conds) = Done w' /\ idle A' w' /\
    delivered ⊆+ told /\ (delivered = [] -> told = []) /\ expired w ⊆ expired w' /\
    calls w' = calls w ++ concat segs /\
    Forall2 (fun ch r => fst <$> A !! r.1 = Some ch) active delivered /\
    Forall2 (fun cr seg => exists c, chans (object w) !! cr.1 = Some c /\
        ((seg = due cr.1 c cr.2 /\ (Channel.tied_ c = true -> cr.1 ∉ expired w)) \/
         (seg = [] /\ Channel.tied_ c = true /\ cr.1 ∈ expired w')))
      (zip active delivered.*2) segs.
Proof.
  intros Hb [Hio Hidle] Hr told. unfold iterate.
  destruct (poll_watched A (_poller (object w)) (chans (object w)) conds (io_repr _ _ _ Hio) (io_coherent _ _ _ Hio) Hr)
    as (p' & σ' & active & delivered & He & Hrp & Hco & _ & Hsub & Hne & Hf & Ho).
  rewrite He. cbn [mbind outcome_bind].
  set (w0 := mk (with_active (with_io (object w) p' σ') true active (_current_active_channel (object w))) (expired w) (calls w)).
  pose proof (active_NoDup _ _ _ _ _ _ (io_coherent _ _ _ Hio) (reports_nodup _ _ _ (proj1 Hr)) Hsub Hf) as Hnd.
  assert (forall b, b ∈ active -> exists c r, chans (object w) !! b = Some c /\ σ' !! b = Some (Channel.set_revents r c) /\
    Channel.addedToLoop_ c = true) as Hact.
  { intros b Hin. apply list_elem_of_lookup in Hin as [i Hi].
    destruct (Forall2_lookup_l _ _ _ _ _ Hf Hi) as (r & _ & HA & Hσ).
    destruct (A !! r.1) as [[b' e]|] eqn:EA; [|done]. injection HA as ->.
    destruct (proj2 (io_coherent _ _ _ Hio) _ _ _ EA) as (c & Hc & Hfd & _). exists c, r.2.
    split; [done|]. split; [by rewrite Hσ, Hc|]. apply (io_added _ _ _ Hio _ _ Hc). by rewrite Hfd, EA. }
  assert (io_ok None A (object w0)) as Hio0.
  { constructor; simpl; [done|done|]. intros ch c Hc. destruct (decide (ch ∈ active)) as [Hin|Hin].
    - destruct (Hact ch Hin) as (c1 & r & Hc1 & Hσ & _). simplify_eq. by apply (io_added _ _ _ Hio ch c1).
    - rewrite Ho in Hc by done. by apply (io_added _ _ _ Hio). }
  destruct (dispatch_all body Hb σ' active A w0) as (w1 & A1 & segs & He1 & Hio1 & Hx1 & Hc1 & Hf1); [done|done|done|done| |].
  { intros b Hin. destruct (Hact b Hin) as (c & r & Hc & Hσ & Ha). eexists _, _. split_and!; [exact Hσ|exact Hσ|done..]. }
  rewrite He1. cbn [mbind outcome_bind]. eexists _, A1, active, delivered, segs. split; [done|].
  split; [by destruct Hio1|]. split_and!; [done|done|done|done| |].
  - eapply Forall2_impl; [exact Hf|]. by intros ch r [? _].
  - clear -Hf Hf1. revert segs Hf1. induction Hf as [|a r active delivered [HA Hσ] Hf IH]; intros segs Hf1.
    { inversion Hf1. constructor. }
    inversion Hf1 as [|? seg ? segs' (c & Hc & Hor) Hf1']; subst. rewrite fmap_cons. simpl. constructor; [|by apply IH].
    rewrite Hσ in Hc. apply fmap_Some in Hc as (c0 & Hc0 & ->). exists c0. split; [done|]. exact Hor.
Qed.

(** The assertion of [removeChannel]: while events are handled, a channel that is
    in [_active_channels] and not the current one cannot be taken off the loop,
    whether it still waits to be dispatched or was dispatched before. *)
Theorem active_removal_asserts {P} `{PollerLaws P} cur (w : Reactor.t P) ch c :
  in_callback cur w -> ch ∈ _active_channels (object w) -> ch <> cur ->
  chans (object w) !! ch = Some c -> act w (Remove ch) = Fault AssertFailure.
Proof.
  intros (_ & _ & Heh & Hcur) Hin Hne Hc. cbn [act]. unfold remove. rewrite (chan_deref_ok _ _ _ Hc).
  cbn [mbind outcome_bind]. destruct (Channel.isNoneEvent c); [|done]. unfold EventLoop.removeChannel.
  rewrite isInLoopThread_own, Heh, Hcur. rewrite (bool_decide_eq_false_2 (Some cur = Some ch)) by congruence.
  rewrite (bool_decide_eq_false_2 (ch ∉ _)) by auto. done.
Qed.

(** *** A channel whose callbacks take it off the loop *)
Definition leave {P} (ch : Z) (_ : Channel.callback) (w : Reactor.t P) : list action :=
  match chans (object w) !! ch with
  | Some c => if Channel.addedToLoop_ c then [Op ch DisableAll; Remove ch] else []
  | None => []
  end.

Lemma leave_lawful {P} `{PollerLaws P} `{!Unrefused P} : lawful (P := P) leave.
Proof.
  intros ch cb w Hin. pose proof Hin as ((A & Hio) & [c Hc] & Heh & Hcur). unfold leave. rewrite Hc.
  destruct (Channel.addedToLoop_ c) eqn:Ha; [|done].
  destruct (op_ok _ A _ ch c DisableAll Hio Hc) as (l' & He & Hs & _ & Ho); [by left|].
  split; [exists c; split; [done|by left]|]. intros w' Hw'. cbn [act] in Hw'. rewrite He in Hw'. injection Hw' as <-.
  destruct (index_only_out _ _ ch _ Ho (lookup_insert_eq _ _ _)) as [i Hi]. split; [|done]. cbn [act_ok object].
  eexists. split; [exact Hi|]. split_and!; [done|done|]. right. left. by rewrite Hs.
Qed.

Definition bare_loop {P} `{PollerOps P} : LoopObject.t P :=
  LoopObject.mk 1 p_init [] TimerQueue.init (-1) 0 (-1) 0 ∅ false [] None.

Lemma iteration_dispatches_witness :
  exists (w w' : Reactor.t PollPoller.t) A', iterate leave w (Ready [(5, POLLIN)]) = Done w' /\
    calls w' = [(100, Channel.ReadCallback)] /\ idle A' w'.
Proof.
  destruct (put_on (P := PollPoller.t) ∅ bare_loop 100 5) as (l & Hl & _ & Hio & _); [|done|done|done|done|].
  { constructor; [apply repr_init|done|done]. }
  set (w := Reactor.mk l ∅ []).
  destruct (iteration_dispatches leave (<[5 := (100, 3)]> ∅) w [(5, POLLIN)]) as (w' & A' & active & delivered & segs & He & Hid & _).
  - apply leave_lawful.
  - split; [exact Hio|]. vm_compute in Hl. injection Hl as <-. done.
  - split; [apply NoDup_singleton|]. constructor; [|constructor]. done.
  - exists w, w', A'. split; [exact He|]. split; [|exact Hid].
    unfold w in He. vm_compute in Hl. injection Hl as <-. vm_compute in He. injection He as <-. reflexivity.
Defined.
End ReactorTheorems.
