(* ===== verification/TcpConnections.v ===== *)
(** * TcpConnections: one TCP connection in its I/O loop

    Models [TcpConnection] ([src/muduo/net/TcpConnection.h],
    [TcpConnection.cc]) over the [ByteQueue] interface of its two buffers.  The
    state machine, the channel's mask, the functors the connection queues in
    its loop and the calls it makes to user code are explicit; the kernel's
    answers to [write(2)] and [readv(2)] are arguments of the operations.  The
    history fields [accepted], [wire], [received] and [fin] say what was
    submitted, what reached the socket, what was read from it, and when the
    write side was shut down.  Handlers and calls in the loop thread are one
    step; a call of another thread tests [state_] in one step and stores
    [kDisconnecting] and queues its functor in a later one: [callers] are those
    in between, [late] counts the stores that found the connection closed
    meanwhile. *)
From S2P Require Import Prelude NetBuffer Channels.

Local Open Scope Z_scope.
Local Open Scope muduo_scope.

Definition EWOULDBLOCK : Z := 11.
Definition EPIPE : Z := 32.
Definition ECONNRESET : Z := 104.

Module TcpConnection.

Inductive StateE : Type := kDisconnected | kConnecting | kConnected | kDisconnecting.
Global Instance StateE_eq_dec : EqDecision StateE.
Proof. solve_decision. Defined.

(** Functors queued in the I/O loop. *)
Inductive functor : Type :=
  | SendInLoop (message : bytes)
  | ShutdownInLoop
  | ForceCloseInLoop
  | StartReadInLoop
  | StopReadInLoop
  | WriteComplete
  | HighWaterMark (n : Z).

(** Calls that another thread makes, and where it is once its test of [state_]
    has succeeded: before [setState(kDisconnecting)], or before it hands the
    functor to the loop or asks for the timer. *)
Inductive request : Type :=
  | Send (message : bytes)
  | Shutdown
  | ForceClose
  | ForceCloseWithDelay.
Inductive effect : Type := Enqueue (f : functor) | Arm.
Inductive errand : Type := Mark (e : effect) | Finish (e : effect).

(** Calls to the user's callbacks and to the owner. *)
Inductive call : Type :=
  | ConnectionCallback (up : bool)
  | MessageCallback
  | WriteCompleteCallback
  | HighWaterMarkCallback (n : Z)
  | CloseCallback.

Global Instance call_eq_dec : EqDecision call.
Proof. solve_decision. Defined.

(** [write(2)]: an error number, or how many bytes were taken. *)
Definition write_t : Type := bytes -> Z + Z.

Section Connection.
Context {Q : Type} `{ByteQueue Q}.

Record t : Type := mk {
  state_ : StateE;
  reading_ : bool;
  channel_ : Channel.t;
  writeCompleteCallback_ : bool;         (* is it set? *)
  highWaterMarkCallback_ : bool;
  highWaterMark_ : Z;
  inputBuffer_ : Q;
  outputBuffer_ : Q;
  pending : list functor;                (* queued in the loop, oldest first *)
  timers : nat;                          (* forceClose timers in flight *)
  callers : list errand;                 (* other threads inside a call *)
  (* history *)
  late : nat;                            (* stores of kDisconnecting over kDisconnected *)
  calls : list call;
  accepted : bytes;
  wire : bytes;
  received : bytes;
  fin : list (StateE * bytes);           (* calls of shutdownWrite: the state, what was accepted *)
}.

Definition init (fd : Z) (wc hw : bool) (hwm : Z) (inb outb : Q) : t :=
  mk kConnecting true
    (Channel.setErrorCallback (Channel.setCloseCallback (Channel.setWriteCallback
       (Channel.setReadCallback (Channel.init fd)))))
    wc hw hwm inb outb [] 0 [] 0 [] [] [] [] [].

Definition setState (s : StateE) (c : t) : t := mk s (reading_ c) (channel_ c) (writeCompleteCallback_ c)
  (highWaterMarkCallback_ c) (highWaterMark_ c) (inputBuffer_ c) (outputBuffer_ c) (pending c) (timers c) (callers c) (late c)
  (calls c) (accepted c) (wire c) (received c) (fin c).
Definition set_reading (b : bool) (c : t) : t := mk (state_ c) b (channel_ c) (writeCompleteCallback_ c)
  (highWaterMarkCallback_ c) (highWaterMark_ c) (inputBuffer_ c) (outputBuffer_ c) (pending c) (timers c) (callers c) (late c)
  (calls c) (accepted c) (wire c) (received c) (fin c).
(** A change of the channel; [update()] marks it as added to the loop. *)
Definition on_channel (f : Channel.t -> Channel.t) (c : t) : t := mk (state_ c) (reading_ c)
  (Channel.set_addedToLoop true (f (channel_ c))) (writeCompleteCallback_ c)
  (highWaterMarkCallback_ c) (highWaterMark_ c) (inputBuffer_ c) (outputBuffer_ c) (pending c) (timers c) (callers c) (late c)
  (calls c) (accepted c) (wire c) (received c) (fin c).
Definition set_channel (ch : Channel.t) (c : t) : t := mk (state_ c) (reading_ c) ch (writeCompleteCallback_ c)
  (highWaterMarkCallback_ c) (highWaterMark_ c) (inputBuffer_ c) (outputBuffer_ c) (pending c) (timers c) (callers c) (late c)
  (calls c) (accepted c) (wire c) (received c) (fin c).
Definition set_buffers (i o : Q) (c : t) : t := mk (state_ c) (reading_ c) (channel_ c) (writeCompleteCallback_ c)
  (highWaterMarkCallback_ c) (highWaterMark_ c) i o (pending c) (timers c) (callers c) (late c)
  (calls c) (accepted c) (wire c) (received c) (fin c).
(** [loop_->queueInloop(f)] *)
Definition queue (f : functor) (c : t) : t := mk (state_ c) (reading_ c) (channel_ c) (writeCompleteCallback_ c)
  (highWaterMarkCallback_ c) (highWaterMark_ c) (inputBuffer_ c) (outputBuffer_ c) (pending c ++ [f]) (timers c) (callers c) (late c)
  (calls c) (accepted c) (wire c) (received c) (fin c).
Definition set_pending (l : list functor) (c : t) : t := mk (state_ c) (reading_ c) (channel_ c) (writeCompleteCallback_ c)
  (highWaterMarkCallback_ c) (highWaterMark_ c) (inputBuffer_ c) (outputBuffer_ c) l (timers c) (callers c) (late c)
  (calls c) (accepted c) (wire c) (received c) (fin c).
Definition set_timers (n : nat) (c : t) : t := mk (state_ c) (reading_ c) (channel_ c) (writeCompleteCallback_ c)
  (highWaterMarkCallback_ c) (highWaterMark_ c) (inputBuffer_ c) (outputBuffer_ c) (pending c) n (callers c) (late c)
  (calls c) (accepted c) (wire c) (received c) (fin c).
Definition set_callers (l : list errand) (n : nat) (c : t) : t := mk (state_ c) (reading_ c) (channel_ c)
  (writeCompleteCallback_ c) (highWaterMarkCallback_ c) (highWaterMark_ c) (inputBuffer_ c) (outputBuffer_ c)
  (pending c) (timers c) l n (calls c) (accepted c) (wire c) (received c) (fin c).
Definition log_call (k : call) (c : t) : t := mk (state_ c) (reading_ c) (channel_ c) (writeCompleteCallback_ c)
  (highWaterMarkCallback_ c) (highWaterMark_ c) (inputBuffer_ c) (outputBuffer_ c) (pending c) (timers c) (callers c) (late c)
  (calls c ++ [k]) (accepted c) (wire c) (received c) (fin c).
Definition set_history (acc w r : bytes) (f : list (StateE * bytes)) (c : t) : t := mk (state_ c) (reading_ c) (channel_ c)
  (writeCompleteCallback_ c) (highWaterMarkCallback_ c) (highWaterMark_ c) (inputBuffer_ c) (outputBuffer_ c)
  (pending c) (timers c) (callers c) (late c) (calls c) acc w r f.
Definition to_wire (d : bytes) (c : t) : t := set_history (accepted c) (wire c ++ d) (received c) (fin c) c.
Definition accept (d : bytes) (c : t) : t := set_history (accepted c ++ d) (wire c) (received c) (fin c) c.

(** [cb]: is the new callback not empty? *)
Definition setWriteCompleteCallback (cb : bool) (c : t) : t := mk (state_ c) (reading_ c) (channel_ c) cb
  (highWaterMarkCallback_ c) (highWaterMark_ c) (inputBuffer_ c) (outputBuffer_ c) (pending c) (timers c) (callers c) (late c)
  (calls c) (accepted c) (wire c) (received c) (fin c).
Definition setHighWaterMarkCallback (cb : bool) (highWaterMark : Z) (c : t) : t := mk (state_ c) (reading_ c) (channel_ c)
  (writeCompleteCallback_ c) cb highWaterMark (inputBuffer_ c) (outputBuffer_ c) (pending c) (timers c) (callers c) (late c)
  (calls c) (accepted c) (wire c) (received c) (fin c).
Definition isReading (c : t) : bool := reading_ c.

Definition connected (c : t) : bool := bool_decide (state_ c = kConnected).
Definition disconnected (c : t) : bool := bool_decide (state_ c = kDisconnected).

(** The first part of [sendInLoop]: try writing directly.  Returns [nwrote],
    [remaining] and [faultError]. *)
Definition try_write (write : write_t) (c : t) (data : bytes) : Z * Z * bool * t :=
  if negb (Channel.isWriting (channel_ c)) && (bq_readable (outputBuffer_ c) =? 0) then
    match write data with
    | inr nwrote =>
        let remaining := u64 (len data - nwrote) in
        let c := to_wire (slice data 0 nwrote) c in
        (nwrote, remaining, false,
         if (remaining =? 0) && writeCompleteCallback_ c then queue WriteComplete c else c)
    | inl errno =>
        (0, len data, negb (errno =? EWOULDBLOCK) && ((errno =? EPIPE) || (errno =? ECONNRESET)), c)
    end
  else (0, len data, false, c).

(** The second part: buffer what is left, [remaining] bytes from [nwrote] on. *)
Definition buffer_rest (c : t) (data : bytes) (nwrote remaining : Z) : outcome t :=
  let oldLen := bq_readable (outputBuffer_ c) in
  let c := if bool_decide (highWaterMark_ c <= u64 (oldLen + remaining)) &&
              bool_decide (oldLen < highWaterMark_ c) && highWaterMarkCallback_ c
           then queue (HighWaterMark (u64 (oldLen + remaining))) c else c in
  out ← bq_append (outputBuffer_ c) (slice data nwrote remaining);
  let c := set_buffers (inputBuffer_ c) out c in
  mret (if Channel.isWriting (channel_ c) then c else on_channel Channel.enableWriting c).

Definition sendInLoop (write : write_t) (c : t) (data : bytes) : outcome t :=
  if bool_decide (state_ c = kDisconnected) then mret c
  else
    let '(nwrote, remaining, faultError, c) := try_write write c data in
    assert_ (bool_decide (remaining <= len data));;
    let c := if (faultError : bool) then c else accept data c in
    if negb faultError && bool_decide (0 < remaining)
    then buffer_rest c data nwrote remaining
    else mret c.

(** [send], called in the loop thread or in another one. *)
Definition send (in_loop_thread : bool) (write : write_t) (c : t) (message : bytes) : outcome t :=
  if bool_decide (state_ c = kConnected)
  then if in_loop_thread then sendInLoop write c message else mret (queue (SendInLoop message) c)
  else mret c.

(** [send(Buffer* )]: the bytes of [buf], which is emptied if they were taken. *)
Definition send_buffer (in_loop_thread : bool) (write : write_t) (c : t) (buf : Q) : outcome (t * Q) :=
  if bool_decide (state_ c = kConnected)
  then if in_loop_thread
       then c ← sendInLoop write c (bq_content buf); mret (c, bq_retrieveAll buf)
       else mret (queue (SendInLoop (bq_content buf)) c, bq_retrieveAll buf)
  else mret (c, buf).

(** [socket_->shutdownWrite()] *)
Definition shutdownWrite (c : t) : t :=
  set_history (accepted c) (wire c) (received c) (fin c ++ [(state_ c, accepted c)]) c.

Definition shutdownInLoop (c : t) : t :=
  if Channel.isWriting (channel_ c) then c else shutdownWrite c.

Definition shutdown (in_loop_thread : bool) (c : t) : t :=
  if bool_decide (state_ c = kConnected)
  then let c := setState kDisconnecting c in
       if in_loop_thread then shutdownInLoop c else queue ShutdownInLoop c
  else c.

Definition closable (c : t) : bool :=
  bool_decide (state_ c = kConnected \/ state_ c = kDisconnecting).

Definition forceClose (c : t) : t :=
  if closable c then queue ForceCloseInLoop (setState kDisconnecting c) else c.

(** The timer holds a weak reference to the connection and calls [forceClose]. *)
Definition forceCloseWithDelay (c : t) : t :=
  if closable c then set_timers (S (timers c)) (setState kDisconnecting c) else c.

Definition startReadInLoop (c : t) : t :=
  if negb (reading_ c) || negb (Channel.isReading (channel_ c))
  then set_reading true (on_channel Channel.enableReading c) else c.
Definition startRead (in_loop_thread : bool) (c : t) : t :=
  if in_loop_thread then startReadInLoop c else queue StartReadInLoop c.

Definition stopReadInLoop (c : t) : t :=
  if reading_ c || Channel.isReading (channel_ c)
  then set_reading false (on_channel Channel.disableReading c) else c.
Definition stopRead (in_loop_thread : bool) (c : t) : t :=
  if in_loop_thread then stopReadInLoop c else queue StopReadInLoop c.

(** The same calls in another thread, which share [state_] with the loop thread
    and take no lock: the test, the store and the rest are separate steps. *)
Definition passes (r : request) (c : t) : bool :=
  match r with
  | Send _ | Shutdown => bool_decide (state_ c = kConnected)
  | ForceClose | ForceCloseWithDelay => closable c
  end.
Definition errand_of (r : request) : errand :=
  match r with
  | Send message => Finish (Enqueue (SendInLoop message))
  | Shutdown => Mark (Enqueue ShutdownInLoop)
  | ForceClose => Mark (Enqueue ForceCloseInLoop)
  | ForceCloseWithDelay => Mark Arm
  end.
Definition other_tests (r : request) (c : t) : t :=
  if passes r c then set_callers (callers c ++ [errand_of r]) (late c) c else c.
Definition perform (e : effect) (c : t) : t :=
  match e with Enqueue f => queue f c | Arm => set_timers (S (timers c)) c end.
(** The thread at place [i] of [callers] goes on. *)
Definition other_proceeds (i : nat) (c : t) : t :=
  match callers c !! i with
  | Some (Mark e) => setState kDisconnecting
      (set_callers (<[i := Finish e]> (callers c)) (late c + if disconnected c then 1 else 0) c)
  | Some (Finish e) => perform e (set_callers (delete i (callers c)) (late c) c)
  | None => c
  end.
(** All steps of a call, one after the other. *)
Definition other_calls (r : request) (c : t) : t :=
  let i := length (callers c) in
  if passes r c then
    match r with
    | Send _ => other_proceeds i (other_tests r c)
    | _ => other_proceeds i (other_proceeds i (other_tests r c))
    end
  else c.

(** ** Handlers; [user k c] is the user's callback for [k] *)
Context (user : call -> t -> outcome t).

Definition invoke (k : call) (c : t) : outcome t := user k (log_call k c).

Definition connectEstablished (c : t) : outcome t :=
  assert_ (bool_decide (state_ c = kConnecting));;
  let c := setState kConnected c in
  let c := set_channel (Channel.tie (channel_ c)) c in
  let c := on_channel Channel.enableReading c in
  invoke (ConnectionCallback true) c.

Definition connectDestroyed (c : t) : outcome t :=
  c ← (if bool_decide (state_ c = kConnected)
       then invoke (ConnectionCallback false) (on_channel Channel.disableAll (setState kDisconnected c))
       else mret c);
  assert_ (Channel.isNoneEvent (channel_ c));;
  mret (set_channel (Channel.set_addedToLoop false (channel_ c)) c).

Definition handleClose (c : t) : outcome t :=
  assert_ (closable c);;
  let c := on_channel Channel.disableAll (setState kDisconnected c) in
  c ← invoke (ConnectionCallback false) c;
  mret (log_call CloseCallback c).

(** [handleError] reads [SO_ERROR] and logs it. *)
Definition handleError (c : t) : t := c.

Definition handleRead (readv : Buffer.readv_t) (c : t) : outcome t :=
  '(n, err, inb) ← bq_readFd readv (inputBuffer_ c);
  let data := drop (length (bq_content (inputBuffer_ c))) (bq_content inb) in
  let c := set_buffers inb (outputBuffer_ c) c in
  let c := set_history (accepted c) (wire c) (received c ++ data) (fin c) c in
  if bool_decide (0 < n) then invoke MessageCallback c
  else if bool_decide (n = 0) then handleClose c
  else mret (handleError c).

Definition handleWrite (write : write_t) (c : t) : outcome t :=
  if Channel.isWriting (channel_ c) then
    match write (bq_content (outputBuffer_ c)) with
    | inr n =>
        if bool_decide (0 < n) then
          out ← bq_retrieve (outputBuffer_ c) n;
          let c := to_wire (slice (bq_content (outputBuffer_ c)) 0 n) c in
          let c := set_buffers (inputBuffer_ c) out c in
          if bq_readable (outputBuffer_ c) =? 0 then
            let c := on_channel Channel.disableWriting c in
            let c := if writeCompleteCallback_ c then queue WriteComplete c else c in
            mret (if bool_decide (state_ c = kDisconnecting) then shutdownInLoop c else c)
          else mret c
        else mret c
    | inl _ => mret c
    end
  else mret c.

Definition forceCloseInLoop (c : t) : outcome t :=
  if closable c then handleClose c else mret c.

(** One functor of the loop's queue. *)
Definition run_functor (write : write_t) (f : functor) (c : t) : outcome t :=
  match f with
  | SendInLoop message => sendInLoop write c message
  | ShutdownInLoop => mret (shutdownInLoop c)
  | ForceCloseInLoop => forceCloseInLoop c
  | StartReadInLoop => mret (startReadInLoop c)
  | StopReadInLoop => mret (stopReadInLoop c)
  | WriteComplete => invoke WriteCompleteCallback c
  | HighWaterMark n => invoke (HighWaterMarkCallback n) c
  end.

(** [defaultConnectionCallback], which only logs, and [defaultMessageCallback]. *)
Definition defaultConnectionCallback (c : t) : outcome t := mret c.
Definition defaultMessageCallback (c : t) : outcome t := mret (set_buffers (bq_retrieveAll (inputBuffer_ c)) (outputBuffer_ c) c).

(** [~TcpConnection] *)
Definition destroy (c : t) : outcome unit := assert_ (bool_decide (state_ c = kDisconnected)).
End Connection.
Arguments t : clear implicits.
End TcpConnection.

(** ** Specification *)
Module TcpConnectionSpec.
Import TcpConnection.
Section Spec.
Context {Q : Type} `{ByteQueue Q}.

Definition write_ok (write : write_t) : Prop := forall d n, write d = inr n -> 0 <= n <= len d.
(** Room for [d] in the output buffer, or for any read in the input buffer. *)
Definition room (c : t Q) (d : bytes) : Prop := len (bq_content (outputBuffer_ c)) + len d <= Buffer.cap.
Definition read_ok (readv : Buffer.readv_t) (c : t Q) : Prop :=
  Buffer.readv_ok readv /\
  forall iov data, readv iov = inr data -> len (bq_content (inputBuffer_ c)) + len data <= Buffer.cap.

Definition count (k : call) (l : list call) : nat := length (filter (fun k' => k' = k) l).

Definition open (c : t Q) : Prop := state_ c = kConnected \/ state_ c = kDisconnecting.

Record inv (c : t Q) : Prop := {
  i_in : bq_wf (inputBuffer_ c);
  i_out : bq_wf (outputBuffer_ c);
  (* the bytes on the wire and those buffered are the bytes accepted, in order *)
  i_stream : accepted c = wire c ++ bq_content (outputBuffer_ c);
  i_input : exists consumed, received c = consumed ++ bq_content (inputBuffer_ c);
  i_events : 0 <= Channel.events_ (channel_ c) < 8;
  i_state : match state_ c with
    | kConnecting => Channel.events_ (channel_ c) = 0 /\ calls c = [] /\ bq_content (outputBuffer_ c) = []
    | kConnected | kDisconnecting => Channel.isWriting (channel_ c) = true <-> bq_content (outputBuffer_ c) <> []
    | kDisconnected => Channel.events_ (channel_ c) = 0
    end;
  i_calls : match state_ c with
    | kConnecting => True
    | kConnected | kDisconnecting =>
        count (ConnectionCallback true) (calls c) = 1%nat /\
        count (ConnectionCallback false) (calls c) = 0%nat /\ count CloseCallback (calls c) = 0%nat
    | kDisconnected =>
        count (ConnectionCallback true) (calls c) = 1%nat /\
        count (ConnectionCallback false) (calls c) = 1%nat /\ (count CloseCallback (calls c) <= 1)%nat
    end;
  i_pending : state_ c = kConnecting -> pending c = [];
  (* the write side is shut down only when everything accepted was written *)
  i_fin : forall s b, (s, b) ∈ fin c -> s <> kDisconnected -> b `prefix_of` wire c;
}.

(** What user code may do in the loop thread. *)
Inductive api_step (c c' : t Q) : Prop :=
  | api_send w msg : write_ok w -> room c msg -> send true w c msg = Done c' -> api_step c c'
  | api_send_buffer w buf buf' : write_ok w -> room c (bq_content buf) ->
      send_buffer true w c buf = Done (c', buf') -> api_step c c'
  | api_shutdown : c' = shutdown true c -> api_step c c'
  | api_forceClose : c' = forceClose c -> api_step c c'
  | api_forceCloseWithDelay : c' = forceCloseWithDelay c -> api_step c c'
  | api_startRead : open c -> c' = startRead true c -> api_step c c'
  | api_stopRead : open c -> c' = stopRead true c -> api_step c c'
  | api_retrieve n inb : 0 <= n <= len (bq_content (inputBuffer_ c)) ->
      bq_retrieve (inputBuffer_ c) n = Done inb -> c' = set_buffers inb (outputBuffer_ c) c -> api_step c c'
  | api_retrieveAll : c' = set_buffers (bq_retrieveAll (inputBuffer_ c)) (outputBuffer_ c) c -> api_step c c'
  | api_setWriteCompleteCallback cb : c' = setWriteCompleteCallback cb c -> api_step c c'
  | api_setHighWaterMarkCallback cb hwm : c' = setHighWaterMarkCallback cb hwm c -> api_step c c'.

Definition user_ok (user : call -> t Q -> outcome (t Q)) : Prop :=
  forall k c, inv c -> exists c', user k c = Done c' /\ rtc api_step c c'.

(** The store of another thread finds the connection still open. *)
Definition on_time (i : nat) (c : t Q) : Prop :=
  match callers c !! i with Some (Mark _) => open c | _ => state_ c <> kConnecting end.

(** Everything that can happen to a connection whose socket reads as [reads]
    allows. *)
Inductive step_with (reads : t Q -> Buffer.readv_t -> Prop) (user : call -> t Q -> outcome (t Q)) (c c' : t Q) : Prop :=
  | s_establish : state_ c = kConnecting -> connectEstablished user c = Done c' -> step_with reads user c c'
  | s_api : state_ c <> kConnecting -> api_step c c' -> step_with reads user c c'
  | s_other_tests r : c' = other_tests r c -> step_with reads user c c'
  | s_other_proceeds i : on_time i c -> c' = other_proceeds i c -> step_with reads user c c'
  | s_timer n : timers c = S n -> c' = forceClose (set_timers n c) -> step_with reads user c c'
  | s_other_startRead : state_ c <> kConnecting -> c' = startRead false c -> step_with reads user c c'
  | s_other_stopRead : state_ c <> kConnecting -> c' = stopRead false c -> step_with reads user c c'
  | s_functor f rest w : pending c = f :: rest -> (f = StartReadInLoop \/ f = StopReadInLoop -> open c) ->
      write_ok w -> (forall msg, f = SendInLoop msg -> room c msg) ->
      run_functor user w f (set_pending rest c) = Done c' -> step_with reads user c c'
  | s_read readv : Channel.isReading (channel_ c) = true -> read_ok readv c -> reads c readv ->
      handleRead user readv c = Done c' -> step_with reads user c c'
  | s_write w : write_ok w -> handleWrite w c = Done c' -> step_with reads user c c'
  | s_hup : Channel.isNoneEvent (channel_ c) = false -> handleClose user c = Done c' -> step_with reads user c c'
  | s_destroy : state_ c = kDisconnected \/ state_ c = kConnected ->
      connectDestroyed user c = Done c' -> step_with reads user c c'.

(** Nothing is promised: a functor or [connectDestroyed] in any state, any answer
    of the kernel, and stores of other threads that come after the close. *)
Definition acts (c c' : t Q) : Prop := api_step c c' \/ c' = startRead true c \/ c' = stopRead true c.
Definition user_acts (user : call -> t Q -> outcome (t Q)) : Prop :=
  forall k c c', user k c = Done c' -> rtc acts c c'.
Inductive any_step (user : call -> t Q -> outcome (t Q)) (c c' : t Q) : Prop :=
  | a_establish : connectEstablished user c = Done c' -> any_step user c c'
  | a_act : acts c c' -> any_step user c c'
  | a_other_tests r : c' = other_tests r c -> any_step user c c'
  | a_other_proceeds i : c' = other_proceeds i c -> any_step user c c'
  | a_timer n : timers c = S n -> c' = forceClose (set_timers n c) -> any_step user c c'
  | a_other_startRead : c' = startRead false c -> any_step user c c'
  | a_other_stopRead : c' = stopRead false c -> any_step user c c'
  | a_functor f rest w : pending c = f :: rest -> run_functor user w f (set_pending rest c) = Done c' -> any_step user c c'
  | a_read readv : handleRead user readv c = Done c' -> any_step user c c'
  | a_write w : handleWrite w c = Done c' -> any_step user c c'
  | a_close : handleClose user c = Done c' -> any_step user c c'
  | a_destroy : connectDestroyed user c = Done c' -> any_step user c c'.

(** The calls that mark the life of a connection; one that goes down tells the
    user, and the owner too unless the owner itself destroys it. *)
Definition lifetime (l : list call) : list call :=
  filter (fun k => k = ConnectionCallback true \/ k = ConnectionCallback false \/ k = CloseCallback) l.
Definition going_down (owner_told : bool) : list call :=
  ConnectionCallback false :: if owner_told then [CloseCallback] else [].

(** The socket may return anything. *)
Definition step : (call -> t Q -> outcome (t Q)) -> t Q -> t Q -> Prop := step_with (fun _ _ => True).

(** A new connection with empty buffers. *)
Definition initial (c : t Q) : Prop :=
  exists fd wc hw hwm inb outb, c = init fd wc hw hwm inb outb /\ 0 <= hwm /\
    bq_wf inb /\ bq_content inb = [] /\ bq_wf outb /\ bq_content outb = [].

Definition reachable (user : call -> t Q -> outcome (t Q)) (c : t Q) : Prop :=
  exists c0, initial c0 /\ rtc (step user) c0 c.
Definition any_reachable (user : call -> t Q -> outcome (t Q)) (c : t Q) : Prop :=
  exists c0, initial c0 /\ rtc (any_step user) c0 c.
End Spec.
End TcpConnectionSpec.

(** ** Lemmas *)
Module TcpConnectionFacts.
Import TcpConnection TcpConnectionSpec.

(** *** Event masks below 8 *)
Ltac mask_cases ch :=
  destruct ch as [? ev]; simpl in *;
  match goal with
  | Hr : 0 <= ev < 8 |- _ =>
      let Hev := fresh in
      assert (ev = 0 \/ ev = 1 \/ ev = 2 \/ ev = 3 \/ ev = 4 \/ ev = 5 \/ ev = 6 \/ ev = 7) as Hev by lia;
      destruct_or! Hev; subst ev
  end.

Lemma mask_enableWriting ch : 0 <= Channel.events_ ch < 8 ->
  Channel.isWriting (Channel.enableWriting ch) = true /\ 0 <= Channel.events_ (Channel.enableWriting ch) < 8.
Proof. intros. mask_cases ch; done. Qed.

Lemma mask_disableWriting ch : 0 <= Channel.events_ ch < 8 ->
  Channel.isWriting (Channel.disableWriting ch) = false /\ 0 <= Channel.events_ (Channel.disableWriting ch) < 8.
Proof. intros. mask_cases ch; done. Qed.

Lemma mask_enableReading ch : 0 <= Channel.events_ ch < 8 ->
  Channel.isWriting (Channel.enableReading ch) = Channel.isWriting ch /\
  0 <= Channel.events_ (Channel.enableReading ch) < 8.
Proof. intros. mask_cases ch; done. Qed.

Lemma mask_disableReading ch : 0 <= Channel.events_ ch < 8 ->
  Channel.isWriting (Channel.disableReading ch) = Channel.isWriting ch /\
  0 <= Channel.events_ (Channel.disableReading ch) < 8.
Proof. intros. mask_cases ch; done. Qed.

Lemma mask_none ch : Channel.events_ ch = 0 ->
  Channel.isWriting ch = false /\ Channel.isReading ch = false /\ Channel.isNoneEvent ch = true.
Proof. unfold Channel.isWriting, Channel.isReading, Channel.isNoneEvent. by intros ->. Qed.

Lemma reading_some ch : Channel.isReading ch = true -> Channel.isNoneEvent ch = false.
Proof.
  unfold Channel.isReading, Channel.isNoneEvent. intros Hr. apply Z.eqb_neq. intros Hz. by rewrite Hz in Hr.
Qed.

(** *** Counting calls *)
Lemma count_app k l k' : count k (l ++ [k']) = (count k l + if decide (k' = k) then 1 else 0)%nat.
Proof.
  unfold count. rewrite filter_app, length_app. f_equal. simpl. unfold filter. simpl. by case_decide.
Qed.

Section Facts.
Context {Q : Type} `{ByteQueue Q}.
Implicit Types (c : t Q).

(** Changes that no part of the invariant looks at. *)
Definition same_core c c' : Prop :=
  inputBuffer_ c' = inputBuffer_ c /\ outputBuffer_ c' = outputBuffer_ c /\ accepted c' = accepted c /\
  wire c' = wire c /\ received c' = received c /\ channel_ c' = channel_ c /\ state_ c' = state_ c /\
  calls c' = calls c /\ fin c' = fin c.

Lemma inv_core c c' : same_core c c' -> (state_ c = kConnecting -> pending c' = []) -> inv c -> inv c'.
Proof.
  intros (H1 & H2 & H3 & H4 & H5 & H6 & H7 & H8 & H9) Hp [].
  constructor; rewrite ?H1, ?H2, ?H3, ?H4, ?H5, ?H6, ?H7, ?H8, ?H9; done.
Qed.

Lemma inv_queue f c : inv c -> state_ c <> kConnecting -> inv (queue f c).
Proof. intros Hi Hs. by apply (inv_core c). Qed.

(** An open connection stays so when it starts disconnecting. *)
Lemma inv_disconnecting c : inv c -> open c -> inv (setState kDisconnecting c).
Proof.
  intros Hi Ho. destruct Hi as [? ? ? ? ? Hs Hc ? ?]. constructor; simpl; try done;
    destruct Ho as [Ho|Ho]; rewrite Ho in Hs, Hc; done.
Qed.

Lemma closable_open c : closable c = true <-> open c.
Proof. apply bool_decide_eq_true. Qed.

Lemma open_writing c : inv c -> open c ->
  (Channel.isWriting (channel_ c) = true <-> bq_content (outputBuffer_ c) <> []).
Proof. intros Hi Ho. pose proof (i_state _ Hi). by destruct Ho as [Ho|Ho]; rewrite Ho in *. Qed.

Lemma readable_zero q : bq_wf q -> (bq_readable q =? 0) = bool_decide (bq_content q = []).
Proof.
  intros Hq. rewrite bq_readable_ok by done. unfold len. destruct (bq_content q); [done|].
  rewrite bool_decide_eq_false_2 by done. apply Z.eqb_neq. simpl. lia.
Qed.

Lemma inv_accept_wire c n data :
  inv c -> open c -> bq_content (outputBuffer_ c) = [] -> slice data 0 n = data ->
  inv (accept data (to_wire (slice data 0 n) c)).
Proof.
  intros Hi Ho He Hd. rewrite Hd. destruct Hi as [? ? Hst ? ? Hs ? ? Hf]. constructor; simpl; try done.
  - rewrite Hst, He, !app_nil_r. done.
  - intros s b Hin Hne. etrans; [by eapply Hf|]. by eexists.
Qed.

(** The state in which the rest of a message is buffered. *)
Record sending (rest : bytes) c : Prop := {
  sd_open : open c;
  sd_inv : inv (set_history (wire c ++ bq_content (outputBuffer_ c)) (wire c) (received c) (fin c) c);
  sd_stream : accepted c = wire c ++ bq_content (outputBuffer_ c) ++ rest;
}.

Lemma sending_queue rest f c : sending rest c -> sending rest (queue f c).
Proof.
  intros [Ho Hi Hs]. split; [done| |done]. eapply inv_core; [| |exact Hi]; [by split_and!|].
  simpl. destruct Ho; congruence.
Qed.

Lemma buffer_rest_ok c data nwrote remaining :
  sending (slice data nwrote remaining) c -> 0 < len (slice data nwrote remaining) ->
  len (bq_content (outputBuffer_ c)) + len (slice data nwrote remaining) <= Buffer.cap ->
  exists c', buffer_rest c data nwrote remaining = Done c' /\ inv c' /\ state_ c' = state_ c /\
    calls c' = calls c /\ accepted c' = accepted c /\ wire c' = wire c.
Proof.
  intros Hs Hpos Hroom. unfold buffer_rest.
  set (c1 := if _ && _ then _ else _).
  assert (sending (slice data nwrote remaining) c1 /\ outputBuffer_ c1 = outputBuffer_ c /\
    state_ c1 = state_ c /\ calls c1 = calls c /\ accepted c1 = accepted c /\ wire c1 = wire c)
    as ([Ho Hi Hst] & Eo & Es & Ek & Ea & Ew).
  { unfold c1. case_match; [|done]. split; [by apply sending_queue|done]. }
  pose proof (i_out _ Hi) as Hwf. simpl in Hwf.
  destruct (bq_append_ok (outputBuffer_ c1) (slice data nwrote remaining)) as (out & -> & Hwf' & Hc'); [done|congruence|].
  simpl. eexists. split; [done|].
  pose proof (i_events _ Hi) as Hev. simpl in Hev. pose proof (mask_enableWriting _ Hev) as [Hw Hr].
  assert (bq_content out <> []) as Hne.
  { rewrite Hc'. intros [_ Hnil]%app_nil. rewrite Hnil in Hpos. done. }
  assert (Hst' : accepted c1 = wire c1 ++ bq_content out) by (by rewrite Hst, Hc').
  destruct Hi as [Hin _ _ Hinp _ Hs1 Hcl Hp Hf]. simpl in *.
  destruct (Channel.isWriting (channel_ c1)) eqn:Hwr; simpl.
  - split_and!; try done. constructor; simpl; try done.
    destruct Ho as [Ho|Ho]; rewrite Ho; by rewrite Hwr.
  - split_and!; try done. constructor; simpl; try done.
    destruct Ho as [Ho|Ho]; rewrite Ho; (split; [done|]); intros _; exact Hw.
Qed.

Lemma sending_accept c d1 d2 :
  inv c -> open c -> (bq_content (outputBuffer_ c) = [] \/ d1 = []) ->
  sending d2 (accept (d1 ++ d2) (to_wire d1 c)).
Proof.
  intros Hi Ho He. destruct Hi as [? ? Hst ? ? ? ? ? Hf].
  assert (bq_content (outputBuffer_ c) ++ d1 = d1 ++ bq_content (outputBuffer_ c)) as Hcomm.
  { destruct He as [-> | ->]; by rewrite ?app_nil_r. }
  split; [done| |].
  - constructor; simpl; try done. intros s b Hin Hne. etrans; [by eapply Hf|]. by eexists.
  - simpl. rewrite Hst, <-!app_assoc. f_equal. by rewrite !app_assoc, Hcomm.
Qed.

(** Everything, or what the socket did not take, goes to the buffer. *)
Lemma buffer_tail c data n :
  inv c -> open c -> room c data -> 0 <= n <= len data ->
  (bq_content (outputBuffer_ c) = [] \/ n = 0) -> 0 < len data - n ->
  exists c', buffer_rest (accept data (to_wire (slice data 0 n) c)) data n (len data - n) = Done c' /\
    inv c' /\ state_ c' = state_ c /\ calls c' = calls c /\ accepted c' = accepted c ++ data.
Proof.
  intros Hi Ho Hroom Hn He Hpos.
  assert (data = slice data 0 n ++ slice data n (len data - n)) as Hsplit.
  { unfold slice, len in *. rewrite drop_0. rewrite (take_ge (drop _ _)) by (rewrite length_drop; lia).
    by rewrite take_drop. }
  assert (len (slice data n (len data - n)) = len data - n) as Hlen by (apply len_slice; lia).
  destruct (buffer_rest_ok (accept data (to_wire (slice data 0 n) c)) data n (len data - n))
    as (c' & Hc' & Hi' & ? & ? & ? & ?).
  - pose proof (sending_accept c (slice data 0 n) (slice data n (len data - n)) Hi Ho) as Hs.
    rewrite <-Hsplit in Hs. apply Hs. destruct He as [?| ->]; [by left|by right].
  - lia.
  - unfold room in Hroom. simpl. lia.
  - exists c'. by split_and!.
Qed.

Lemma inv_accept_nil c : inv c -> inv (accept [] c).
Proof. intros []. constructor; simpl; rewrite ?app_nil_r; done. Qed.

Lemma to_wire_nil c : to_wire [] c = c.
Proof. destruct c. unfold to_wire, set_history. simpl. by rewrite app_nil_r. Qed.

Lemma buffer_whole c data :
  inv c -> open c -> room c data ->
  exists c', (if bool_decide (0 < len data) then buffer_rest (accept data c) data 0 (len data)
              else mret (accept data c)) = Done c' /\
    inv c' /\ state_ c' = state_ c /\ calls c' = calls c /\ accepted c' = accepted c ++ data.
Proof.
  intros Hi Ho Hroom. case_bool_decide as Hpos.
  - destruct (buffer_tail c data 0) as (c' & Hc' & ?); [done..|lia|by right|lia|].
    change (slice data 0 0) with (@nil ascii) in Hc'. rewrite to_wire_nil, Z.sub_0_r in Hc'. by exists c'.
  - assert (data = []) as -> by (destruct data; [done|]; unfold len in Hpos; simpl in Hpos; lia).
    eexists. split; [done|]. split; [by apply inv_accept_nil|]. done.
Qed.

(** [sendInLoop] in any state after the connection is up. *)
Lemma sendInLoop_ok w c data :
  inv c -> state_ c <> kConnecting -> write_ok w -> room c data ->
  exists c', sendInLoop w c data = Done c' /\ inv c' /\ state_ c' = state_ c /\ calls c' = calls c /\
    (state_ c = kDisconnected -> c' = c) /\
    (accepted c' = accepted c ++ data \/ accepted c' = accepted c /\ wire c' = wire c).
Proof.
  intros Hi Hnc Hw Hroom. unfold sendInLoop. case_bool_decide as Hd; [by exists c; eauto 10|].
  assert (open c) as Ho by (unfold open; destruct (state_ c); naive_solver).
  unfold try_write. rewrite readable_zero by apply Hi. pose proof (len_nonneg data) as Hnn.
  destruct (negb (Channel.isWriting (channel_ c)) && bool_decide (bq_content (outputBuffer_ c) = [])) eqn:Htry.
  - apply andb_true_iff in Htry as [_ He]. apply bool_decide_eq_true_1 in He.
    destruct (w data) as [errno|n] eqn:Hwd.
    + rewrite (bool_decide_eq_true_2 (len data <= len data)) by lia. simpl.
      destruct (negb (errno =? EWOULDBLOCK) && _); simpl.
      * exists c. split_and!; try done. by right.
      * destruct (buffer_whole c data) as (c' & Hc' & ? & ? & ? & ?); [done..|].
        exists c'. split_and!; try done. by left.
    + apply Hw in Hwd. rewrite u64_small by (unfold room, Buffer.cap in Hroom; pose proof
        (len_nonneg (bq_content (outputBuffer_ c))); zlia).
      rewrite (bool_decide_eq_true_2 (len data - n <= len data)) by lia. simpl.
      destruct (Z.eqb_spec (len data - n) 0) as [Hz|Hz]; simpl.
      * rewrite (bool_decide_eq_false_2 (0 < len data - n)) by lia. eexists. split; [done|].
        assert (inv (accept data (to_wire (slice data 0 n) c))) as Hi'.
        { apply inv_accept_wire; try done. replace n with (len data) by lia. apply slice_full. }
        split_and!; try done; destruct (writeCompleteCallback_ c); try done; [|by left..].
        by eapply inv_core; [| |exact Hi']; [by split_and!|].
      * rewrite (bool_decide_eq_true_2 (0 < len data - n)) by lia.
        destruct (buffer_tail c data n) as (c' & Hc' & ? & ? & ? & ?); [done..|lia|by left|lia|].
        exists c'. split_and!; try done. by left.
  - rewrite (bool_decide_eq_true_2 (len data <= len data)) by lia. simpl.
    destruct (buffer_whole c data) as (c' & Hc' & ? & ? & ? & ?); [done..|].
    exists c'. split_and!; try done. by left.
Qed.

(** *** The other operations *)
Lemma not_connecting c : open c -> state_ c <> kConnecting.
Proof. intros [-> | ->]; done. Qed.

Lemma inv_shutdownInLoop c : inv c -> state_ c <> kConnecting -> inv (shutdownInLoop c).
Proof.
  intros Hi Hnc. unfold shutdownInLoop. destruct (Channel.isWriting (channel_ c)) eqn:Hwr; [done|].
  destruct Hi as [? ? Hst ? ? Hs ? Hp Hf]. constructor; simpl; try done.
  intros s b [Hin|Hin%list_elem_of_singleton]%elem_of_app Hne; [by eapply Hf|]. injection Hin as -> ->.
  rewrite Hst. destruct (state_ c); try done; destruct (bq_content (outputBuffer_ c)); try (by rewrite app_nil_r);
    exfalso; assert (Channel.isWriting (channel_ c) = true) by (by apply Hs); congruence.
Qed.

Lemma shutdownInLoop_keeps c : state_ (shutdownInLoop c) = state_ c /\ calls (shutdownInLoop c) = calls c.
Proof. unfold shutdownInLoop. by destruct (Channel.isWriting (channel_ c)). Qed.

Lemma inv_forceClose c : inv c -> inv (forceClose c).
Proof.
  intros Hi. unfold forceClose. destruct (closable c) eqn:Ho; [|done]. apply closable_open in Ho.
  apply inv_queue; [by apply inv_disconnecting|done].
Qed.

Lemma inv_other_tests r c : inv c -> inv (other_tests r c).
Proof. intros Hi. unfold other_tests. case_match; [|done]. by apply (inv_core c); [by split_and!|apply Hi|]. Qed.

Lemma inv_other_proceeds i c : inv c -> on_time i c -> inv (other_proceeds i c).
Proof.
  unfold on_time, other_proceeds. intros Hi Hot. destruct (callers c !! i) as [[e|[f|]]|]; [| | |done].
  - apply inv_disconnecting; [|done]. by apply (inv_core c); [by split_and!|apply Hi|].
  - by apply (inv_core c).
  - by apply (inv_core c); [by split_and!|apply Hi|].
Qed.

(** A call that is not interrupted is the operation itself. *)
Lemma proceeds_mark e l c : callers c = l ++ [Mark e] -> state_ c <> kDisconnected ->
  other_proceeds (length l) c = setState kDisconnecting (set_callers (l ++ [Finish e]) (late c) c).
Proof.
  intros E Hs. unfold other_proceeds, disconnected. rewrite E, list_lookup_middle by done.
  rewrite bool_decide_eq_false_2, Nat.add_0_r, insert_app_r_alt, Nat.sub_diag by done || lia. done.
Qed.

Lemma proceeds_finish e l c : callers c = l ++ [Finish e] ->
  other_proceeds (length l) c = perform e (set_callers l (late c) c).
Proof.
  intros E. unfold other_proceeds. rewrite E, list_lookup_middle by done. by rewrite delete_middle, app_nil_r.
Qed.

Lemma other_uninterrupted c :
  (forall msg w, send false w c msg = Done (other_calls (Send msg) c)) /\
  shutdown false c = other_calls Shutdown c /\ forceClose c = other_calls ForceClose c /\
  forceCloseWithDelay c = other_calls ForceCloseWithDelay c.
Proof.
  assert (forall e, state_ c <> kDisconnected -> 
    other_proceeds (length (callers c)) (other_proceeds (length (callers c)) (set_callers (callers c ++ [Mark e]) (late c) c))
    = perform e (setState kDisconnecting c)) as Hmark.
  { intros e Hs. rewrite (proceeds_mark e (callers c) (set_callers _ _ c)) by done. rewrite (proceeds_finish e) by done. by destruct c. }
  unfold other_calls, other_tests, send, shutdown, forceClose, forceCloseWithDelay, passes. cbn [errand_of]. split_and!.
  - intros msg w. case_bool_decide; [|done]. simpl. rewrite (proceeds_finish (Enqueue (SendInLoop msg))) by done. by destruct c.
  - case_bool_decide; [|done]. rewrite Hmark by congruence. done.
  - destruct (closable c) eqn:Ho; [|done]. apply closable_open in Ho. rewrite Hmark by (destruct Ho; congruence). done.
  - destruct (closable c) eqn:Ho; [|done]. apply closable_open in Ho. rewrite Hmark by (destruct Ho; congruence). done.
Qed.

(** A change of the read half of the mask. *)
Lemma inv_read_mask c f b :
  inv c -> open c ->
  Channel.isWriting (f (channel_ c)) = Channel.isWriting (channel_ c) ->
  0 <= Channel.events_ (f (channel_ c)) < 8 ->
  inv (set_reading b (on_channel f c)).
Proof.
  intros [? ? ? ? ? Hs ? ? ?] Ho Hw Hr. constructor; simpl; try done.
  destruct Ho as [Ho|Ho]; rewrite Ho in *;
    change (Channel.isWriting (Channel.set_addedToLoop true (f (channel_ c)))) with (Channel.isWriting (f (channel_ c)));
    by rewrite Hw.
Qed.

Lemma inv_startRead c : inv c -> open c -> inv (startReadInLoop c).
Proof.
  intros Hi Ho. unfold startReadInLoop. case_match; [|done].
  destruct (mask_enableReading _ (i_events _ Hi)). by apply inv_read_mask.
Qed.

Lemma inv_stopRead c : inv c -> open c -> inv (stopReadInLoop c).
Proof.
  intros Hi Ho. unfold stopReadInLoop. case_match; [|done].
  destruct (mask_disableReading _ (i_events _ Hi)). by apply inv_read_mask.
Qed.

(** What user code cannot change. *)
Definition api_keeps c c' : Prop :=
  calls c' = calls c /\ state_ c' <> kConnecting /\
  (state_ c = kDisconnected -> state_ c' = kDisconnected /\ channel_ c' = channel_ c).

Lemma keeps_closable c c' :
  state_ c <> kConnecting -> calls c' = calls c -> (state_ c <> kDisconnected -> open c') ->
  (state_ c = kDisconnected -> c' = c) -> api_keeps c c'.
Proof.
  intros Hnc Hk Ho Hd. split_and!; [done| |].
  - destruct (decide (state_ c = kDisconnected)) as [Hs|Hs]; [by rewrite Hd|]. by apply not_connecting, Ho.
  - intros Hs. by rewrite Hd.
Qed.

Lemma send_api_ok w c msg :
  inv c -> state_ c <> kConnecting -> write_ok w -> room c msg ->
  exists c', send true w c msg = Done c' /\ inv c' /\ api_keeps c c'.
Proof.
  intros Hi Hnc Hw Hroom. unfold send. case_bool_decide as Hs.
  - destruct (sendInLoop_ok w c msg) as (c' & -> & Hi' & Hs' & Hk & Hd & _); [done..|].
    exists c'. split_and!; try done. apply keeps_closable; try done. intros _. left. congruence.
  - exists c. split_and!; done.
Qed.

Lemma conn_api_step_ok c c' : inv c -> state_ c <> kConnecting -> api_step c c' -> inv c' /\ api_keeps c c'.
Proof.
  intros Hi Hnc [w msg Hw Hroom He|w buf buf' Hw Hroom He|He|He|He|Ho He|Ho He|n inb Hn He1 He|He|cb He|cb hwm He]; subst.
  - destruct (send_api_ok w c msg) as (c2 & He2 & ?); [done..|]. rewrite He in He2. by simplify_eq.
  - unfold send_buffer in He. case_bool_decide as Hs; [|by injection He as <- <-].
    destruct (sendInLoop_ok w c (bq_content buf)) as (c2 & He2 & Hi' & Hs' & Hk & Hd & _); [done..|].
    rewrite He2 in He. simpl in He. injection He as <- <-. split; [done|].
    apply keeps_closable; try done. intros _. left. congruence.
  - unfold shutdown. case_bool_decide as Hs; [|done].
    assert (inv (setState kDisconnecting c)) as Hi1 by (apply inv_disconnecting; [done|by left]).
    split; [by apply inv_shutdownInLoop|]. unfold shutdownInLoop. destruct (Channel.isWriting _);
      (apply keeps_closable; [done|done|by right|congruence]).
  - split; [by apply inv_forceClose|]. unfold forceClose. destruct (closable c) eqn:Hc; [|done].
    apply closable_open in Hc. apply keeps_closable; [done|done|by right|]. intros Hd. destruct Hc; congruence.
  - unfold forceCloseWithDelay. destruct (closable c) eqn:Hc; [|done]. apply closable_open in Hc. split.
    + eapply inv_core; [| |by apply (inv_disconnecting c)]; [by split_and!|done].
    + apply keeps_closable; [done|done|by right|]. intros Hd. destruct Hc; congruence.
  - split; [by apply inv_startRead|]. simpl. unfold startReadInLoop. case_match; [|done].
    apply keeps_closable; [done|done|done|]. intros Hd. destruct Ho; congruence.
  - split; [by apply inv_stopRead|]. simpl. unfold stopReadInLoop. case_match; [|done].
    apply keeps_closable; [done|done|done|]. intros Hd. destruct Ho; congruence.
  - destruct (bq_retrieve_ok (inputBuffer_ c) n) as (inb' & He2 & Hwf & Hc); [apply Hi|done|].
    rewrite He1 in He2. injection He2 as <-. split; [|done].
    destruct Hi as [? ? ? [consumed Hr] ? ? ? ? ?]. constructor; simpl; try done.
    exists (consumed ++ take (Z.to_nat n) (bq_content (inputBuffer_ c))).
    by rewrite Hr, Hc, <-app_assoc, take_drop.
  - destruct (bq_retrieveAll_ok (inputBuffer_ c) (i_in _ Hi)) as [Hwf Hc]. split; [|done].
    destruct Hi as [? ? ? [consumed Hr] ? ? ? ? ?]. constructor; simpl; try done.
    exists (received c). by rewrite Hc, app_nil_r.
  - split; [|done]. by destruct Hi.
  - split; [|done]. by destruct Hi.
Qed.

Lemma conn_api_steps_ok c c' :
  rtc api_step c c' -> inv c -> state_ c <> kConnecting -> inv c' /\ api_keeps c c'.
Proof.
  induction 1 as [c|c c1 c2 Hs _ IH]; intros Hi Hnc; [done|].
  destruct (conn_api_step_ok c c1 Hi Hnc Hs) as (Hi1 & Hk1 & Hn1 & Hd1).
  destruct (IH Hi1 Hn1) as (Hi2 & Hk2 & Hn2 & Hd2). split; [done|]. split_and!; [congruence|done|].
  intros Hd. destruct (Hd1 Hd) as [Hs1 Hc1]. destruct (Hd2 Hs1). split; congruence.
Qed.

(** *** Handlers that call user code *)
Section Handlers.
Context (user : call -> t Q -> outcome (t Q)) (Huser : user_ok user).

Lemma invoke_ok k c :
  inv (log_call k c) -> state_ c <> kConnecting ->
  exists c', invoke user k c = Done c' /\ inv c' /\ api_keeps (log_call k c) c'.
Proof.
  intros Hi Hnc. destruct (Huser k _ Hi) as (c' & He & Hsteps).
  exists c'. split; [done|]. by apply conn_api_steps_ok.
Qed.

(** Callbacks that say nothing about the connection's lifetime. *)
Lemma inv_log_other k c :
  inv c -> state_ c <> kConnecting ->
  k <> ConnectionCallback true -> k <> ConnectionCallback false -> k <> CloseCallback -> inv (log_call k c).
Proof.
  intros [? ? ? ? ? Hs Hk ? ?] Hnc H1 H2 H3. constructor; simpl; try done.
  - by destruct (state_ c).
  - destruct (state_ c); rewrite ?count_app, ?decide_False, ?Nat.add_0_r by done; done.
Qed.

(** The connection goes down: the state in which the callback is made. *)
Lemma inv_going_down c :
  inv c -> open c ->
  inv (log_call (ConnectionCallback false) (on_channel Channel.disableAll (setState kDisconnected c))).
Proof.
  intros [? ? ? ? ? ? Hk ? ?] Ho. constructor; simpl; try done.
  rewrite !count_app. rewrite (decide_False (P := ConnectionCallback false = ConnectionCallback true)) by done.
  rewrite (decide_False (P := ConnectionCallback false = CloseCallback)) by done. rewrite decide_True by done.
  destruct Ho as [Ho|Ho]; rewrite Ho in Hk; destruct Hk as (-> & -> & ->); simpl; lia.
Qed.

Lemma handleClose_ok c :
  inv c -> open c ->
  exists c', handleClose user c = Done c' /\ inv c' /\ state_ c' = kDisconnected /\
    calls c' = calls c ++ [ConnectionCallback false; CloseCallback].
Proof.
  intros Hi Ho. unfold handleClose. rewrite (proj2 (closable_open c) Ho). simpl.
  set (c1 := on_channel _ _).
  destruct (invoke_ok (ConnectionCallback false) c1) as (c2 & -> & Hi2 & Hk2 & _ & Hd2).
  { by apply inv_going_down. } { done. }
  simpl. destruct (Hd2 eq_refl) as [Hs2 _]. eexists. split; [done|].
  assert (count CloseCallback (calls c2) = 0%nat) as Hc0.
  { rewrite Hk2. simpl. rewrite count_app. pose proof (i_calls _ Hi) as Hk.
    destruct Ho as [Ho|Ho]; rewrite Ho in Hk; destruct Hk as (_ & _ & ->); done. }
  split_and!; [|done|simpl; rewrite Hk2; simpl; by rewrite <-app_assoc].
  destruct Hi2 as [? ? ? ? ? Hst Hk ? ?]. rewrite Hs2 in *. constructor; simpl; rewrite ?Hs2; try done.
  rewrite !count_app. destruct Hk as (-> & -> & _). rewrite Hc0. by repeat case_decide.
Qed.

Lemma handleWrite_ok w c :
  inv c -> state_ c <> kConnecting -> write_ok w ->
  exists c', handleWrite w c = Done c' /\ inv c' /\ state_ c' = state_ c /\ calls c' = calls c.
Proof.
  intros Hi Hnc Hw. unfold handleWrite. destruct (Channel.isWriting (channel_ c)) eqn:Hwr; [|by exists c].
  assert (open c) as Ho.
  { pose proof (i_state _ Hi) as Hs. unfold open. destruct (state_ c); try tauto.
    destruct (mask_none _ Hs); congruence. }
  destruct (w _) as [e|n] eqn:Hwd; [by exists c|]. apply Hw in Hwd.
  case_bool_decide as Hpos; [|by exists c].
  destruct (bq_retrieve_ok (outputBuffer_ c) n) as (out & -> & Hwf & Hc); [apply Hi|lia|]. simpl.
  set (o := bq_content (outputBuffer_ c)) in *.
  assert (o = slice o 0 n ++ bq_content out) as Hsplit.
  { rewrite Hc. unfold slice. by rewrite drop_0, take_drop. }
  destruct Hi as [? ? Hst ? Hev Hs Hk Hp Hf]. fold o in Hst.
  pose proof (mask_disableWriting _ Hev) as [Hdw Hdr].
  assert (inv (set_buffers (inputBuffer_ c) out (to_wire (slice o 0 n) c)) \/ bq_content out = []) as Hkeep.
  { destruct (decide (bq_content out = [])) as [->|Hne]; [by right|left]. constructor; simpl; try done.
    - rewrite Hst. rewrite Hsplit at 1. by rewrite <-app_assoc.
    - destruct Ho as [Ho|Ho]; rewrite Ho; by rewrite Hwr.
    - intros s b Hin Hns. etrans; [by eapply Hf|]. by eexists. }
  rewrite readable_zero by done. case_bool_decide as He.
  - set (c1 := on_channel _ _).
    assert (inv c1) as Hi1.
    { constructor; simpl; try done.
      - rewrite Hst. rewrite Hsplit at 1. by rewrite He, !app_nil_r.
      - destruct Ho as [Ho|Ho]; rewrite Ho; rewrite He; (split; [|done]); intros Htr;
          change (Channel.isWriting (Channel.disableWriting (channel_ c)) = true) in Htr; congruence.
      - intros s b Hin Hns. etrans; [by eapply Hf|]. by eexists. }
    set (c2 := if writeCompleteCallback_ c1 then queue WriteComplete c1 else c1).
    assert (inv c2 /\ state_ c2 = state_ c /\ calls c2 = calls c) as (Hi2 & Hs2 & Hk2).
    { unfold c2. destruct (writeCompleteCallback_ c1); [|done]. split; [by apply inv_queue|done]. }
    eexists. split; [done|]. case_bool_decide; [|done].
    split; [apply inv_shutdownInLoop; [done|congruence]|].
    destruct (shutdownInLoop_keeps c2) as [E1 E2]. split; [rewrite <-Hs2; exact E1|rewrite <-Hk2; exact E2].
  - destruct Hkeep as [Hkeep|?]; [|done]. eexists. split; [done|]. done.
Qed.

(** The bytes just read are in the input buffer. *)
Lemma inv_read c inb data : inv c -> bq_wf inb -> bq_content inb = bq_content (inputBuffer_ c) ++ data ->
  inv (set_history (accepted c) (wire c) (received c ++ data) (fin c) (set_buffers inb (outputBuffer_ c) c)).
Proof.
  intros Hi Hwf Hc. destruct Hi as [? ? ? [consumed Hrecv] ? ? ? ? ?]. constructor; simpl; try done.
  exists consumed. by rewrite Hrecv, Hc, app_assoc.
Qed.

Lemma conn_handleRead_ok readv c :
  inv c -> open c -> read_ok readv c ->
  exists c', handleRead user readv c = Done c' /\ inv c' /\ state_ c' <> kConnecting.
Proof.
  intros Hi Ho [Hok Hroom]. unfold handleRead.
  destruct (bq_readFd_ok readv (inputBuffer_ c)) as (iov & _ & Hr); [apply Hi|done|].
  pose proof (fun inb data => inv_read c inb data Hi) as Hinv.
  destruct (readv iov) as [errno|data] eqn:Hd.
  - rewrite Hr. simpl. rewrite drop_all. eexists. split; [done|]. split; [|by apply not_connecting].
    apply Hinv; [apply Hi|by rewrite app_nil_r].
  - destruct Hr as (inb & -> & Hwf & Hc); [by eapply Hroom|]. simpl.
    rewrite Hc, drop_app_length. specialize (Hinv inb data Hwf Hc).
    set (c1 := set_history _ _ _ _ _) in *.
    case_bool_decide.
    + destruct (invoke_ok MessageCallback c1) as (c' & -> & Hi' & _ & Hn' & _); [|by apply not_connecting|by eauto].
      apply inv_log_other; try done. by apply not_connecting.
    + pose proof (len_nonneg data). rewrite bool_decide_eq_true_2 by lia.
      destruct (handleClose_ok c1) as (c' & -> & Hi' & Hs' & _); [done..|].
      exists c'. split_and!; try done. congruence.
Qed.

(** The state in which the user is told that the connection is up. *)
Lemma inv_established c : inv c -> state_ c = kConnecting ->
  inv (log_call (ConnectionCallback true)
         (on_channel Channel.enableReading (set_channel (Channel.tie (channel_ (setState kConnected c))) (setState kConnected c)))).
Proof.
  intros Hi Hs. destruct Hi as [? ? ? ? Hev Hst Hk ? ?]. rewrite Hs in Hst, Hk. destruct Hst as (Hz & Hcalls & Hout).
  constructor; simpl; try done.
  - by rewrite Hz.
  - split; [|by rewrite Hout]. unfold Channel.isWriting. simpl. rewrite Hz. done.
  - by rewrite Hcalls.
Qed.

Lemma connectEstablished_ok c :
  inv c -> state_ c = kConnecting ->
  exists c', connectEstablished user c = Done c' /\ inv c' /\ state_ c' <> kConnecting.
Proof.
  intros Hi Hs. unfold connectEstablished. rewrite bool_decide_eq_true_2 by done. simpl.
  set (c1 := on_channel _ _).
  destruct (invoke_ok (ConnectionCallback true) c1) as (c' & -> & Hi' & _ & Hn' & _); [by apply inv_established|done|by eauto].
Qed.

Lemma connectDestroyed_ok c :
  inv c -> state_ c = kDisconnected \/ state_ c = kConnected ->
  exists c', connectDestroyed user c = Done c' /\ inv c' /\ state_ c' = kDisconnected /\
    Channel.addedToLoop_ (channel_ c') = false /\ Channel.isNoneEvent (channel_ c') = true.
Proof.
  intros Hi Hs. unfold connectDestroyed.
  assert (exists c1, (if bool_decide (state_ c = kConnected)
       then invoke user (ConnectionCallback false) (on_channel Channel.disableAll (setState kDisconnected c))
       else mret c) = Done c1 /\ inv c1 /\ state_ c1 = kDisconnected) as (c1 & -> & Hi1 & Hs1).
  { case_bool_decide as Hc.
    - destruct (invoke_ok (ConnectionCallback false) (on_channel Channel.disableAll (setState kDisconnected c)))
        as (c1 & -> & Hi1 & _ & _ & Hd1); [by apply inv_going_down; [|left]|done|].
      exists c1. split_and!; [done|done|]. by apply Hd1.
    - exists c. split_and!; [done|done|]. by destruct Hs. }
  simpl. pose proof (i_state _ Hi1) as Hst. rewrite Hs1 in Hst.
  destruct (mask_none _ Hst) as (_ & _ & Hn). rewrite Hn. simpl. eexists. split; [done|].
  split_and!; try done. destruct Hi1. constructor; simpl; try done.
Qed.

Lemma handleClose_faults c e : inv c -> handleClose user c = Fault e <-> e = AssertFailure /\ ~ open c.
Proof.
  intros Hi. destruct (closable c) eqn:Ho.
  - apply closable_open in Ho as Ho'. destruct (handleClose_ok c Hi Ho') as (c' & -> & _). naive_solver.
  - unfold handleClose. rewrite Ho. assert (~ open c) by (rewrite <-closable_open; congruence). simpl. naive_solver.
Qed.

Lemma connectDestroyed_disconnecting c : state_ c = kDisconnecting -> connectDestroyed user c =
  if Channel.isNoneEvent (channel_ c) then Done (set_channel (Channel.set_addedToLoop false (channel_ c)) c)
  else Fault AssertFailure.
Proof.
  intros Hs. unfold connectDestroyed. rewrite bool_decide_eq_false_2 by congruence. simpl.
  by destruct (Channel.isNoneEvent (channel_ c)).
Qed.

(** The functors that do not look at the state, on a connection that is down. *)
Lemma connectDestroyed_functors c : inv c -> state_ c = kDisconnected ->
  connectDestroyed user (startReadInLoop c) = Fault AssertFailure /\
  exists c', connectDestroyed user (stopReadInLoop c) = Done c'.
Proof.
  intros Hi Hs. pose proof (i_state _ Hi) as Hst. rewrite Hs in Hst. destruct (mask_none _ Hst) as (_ & Hr & Hn). split.
  - unfold startReadInLoop. rewrite Hr, orb_true_r. unfold connectDestroyed. simpl. rewrite bool_decide_eq_false_2 by congruence. simpl.
    unfold Channel.isNoneEvent. simpl. by rewrite Hst.
  - unfold stopReadInLoop. rewrite Hr, orb_false_r. unfold connectDestroyed.
    destruct (reading_ c); simpl; rewrite bool_decide_eq_false_2 by congruence; simpl; [|rewrite Hn; by eexists].
    unfold Channel.isNoneEvent. simpl. rewrite Hst. simpl. by eexists.
Qed.

Lemma run_functor_ok w f rest c :
  inv c -> pending c = f :: rest -> (f = StartReadInLoop \/ f = StopReadInLoop -> open c) ->
  write_ok w -> (forall msg, f = SendInLoop msg -> room c msg) ->
  exists c', run_functor user w f (set_pending rest c) = Done c' /\ inv c' /\ state_ c' <> kConnecting.
Proof.
  intros Hi Hp H1 Hw Hroom.
  assert (state_ c <> kConnecting) as Hnc by (intros Hs; rewrite (i_pending _ Hi Hs) in Hp; done).
  assert (inv (set_pending rest c)) as Hi1 by (by apply (inv_core c)).
  destruct f as [msg| | | | | |n]; simpl; try done.
  - destruct (sendInLoop_ok w (set_pending rest c) msg) as (c' & -> & Hi' & Hs' & _);
      [done|done|done|by apply Hroom|]. exists c'. split_and!; [done|done|by rewrite Hs'].
  - eexists. split; [done|]. split; [by apply inv_shutdownInLoop|].
    by rewrite (proj1 (shutdownInLoop_keeps _)).
  - unfold forceCloseInLoop. destruct (closable (set_pending rest c)) eqn:Hc; [|by eauto].
    apply closable_open in Hc. destruct (handleClose_ok (set_pending rest c)) as (c' & -> & Hi' & Hs' & _); [done..|].
    exists c'. split_and!; [done|done|by rewrite Hs'].
  - assert (open (set_pending rest c)) as Ho by (apply H1; by left). eexists. split; [done|]. split; [by apply inv_startRead|].
    unfold startReadInLoop. by case_match.
  - assert (open (set_pending rest c)) as Ho by (apply H1; by right). eexists. split; [done|]. split; [by apply inv_stopRead|].
    unfold stopReadInLoop. by case_match.
  - destruct (invoke_ok WriteCompleteCallback (set_pending rest c)) as (c' & -> & Hi' & _ & Hn' & _);
      [by apply inv_log_other|done|by eauto].
  - destruct (invoke_ok (HighWaterMarkCallback n) (set_pending rest c)) as (c' & -> & Hi' & _ & Hn' & _);
      [by apply inv_log_other|done|by eauto].
Qed.
End Handlers.

(** *** Reachable connections *)
Lemma inv_initial c : initial c -> inv c.
Proof.
  intros (fd & wc & hw & hwm & inb & outb & -> & _ & ? & Hin & ? & Hout). constructor; simpl; try done.
  - by exists [].
  - intros s b Hin'. set_solver.
Qed.

(** An event mask that is not empty belongs to an open connection. *)
Lemma reading_open c : inv c -> Channel.isReading (channel_ c) = true -> open c.
Proof.
  intros Hi Hr. pose proof (i_state _ Hi) as Hs. unfold open. destruct (state_ c); try tauto.
  - by destruct (mask_none _ Hs) as (_ & ? & _); congruence.
  - by destruct (mask_none _ (proj1 Hs)) as (_ & ? & _); congruence.
Qed.

Lemma events_open c : inv c -> Channel.isNoneEvent (channel_ c) = false -> open c.
Proof.
  intros Hi Hr. pose proof (i_state _ Hi) as Hs. unfold open. destruct (state_ c); try tauto.
  - by destruct (mask_none _ Hs) as (_ & _ & ?); congruence.
  - by destruct (mask_none _ (proj1 Hs)) as (_ & _ & ?); congruence.
Qed.

Lemma handleWrite_connecting w c : inv c -> state_ c = kConnecting -> handleWrite w c = Done c.
Proof.
  intros Hi Hs. pose proof (i_state _ Hi) as Hst. rewrite Hs in Hst. destruct Hst as [Hz _].
  unfold handleWrite. by rewrite (proj1 (mask_none _ Hz)).
Qed.

Lemma conn_step_inv user c c' : user_ok user -> inv c -> step user c c' -> inv c'.
Proof.
  intros Hu Hi [Hs He|Hs He|r He|i Hot He|n Hn He|Hs He|Hs He|f rest w Hp H1 Hw Hroom He|readv Hr Hok _ He|w Hw He|Hn He|Hs He].
  - destruct (connectEstablished_ok user Hu c) as (c2 & He2 & ? & _); [done..|]. rewrite He in He2. by simplify_eq.
  - by apply (conn_api_step_ok c c').
  - subst. by apply inv_other_tests.
  - subst. by apply inv_other_proceeds.
  - subst. apply inv_forceClose. apply (inv_core c); [by split_and!|apply Hi|done].
  - subst. by apply inv_queue.
  - subst. by apply inv_queue.
  - destruct (run_functor_ok user Hu w f rest c) as (c2 & He2 & ? & _); [done..|]. rewrite He in He2. by simplify_eq.
  - destruct (conn_handleRead_ok user Hu readv c) as (c2 & He2 & ? & _); [done|by apply reading_open|done|].
    rewrite He in He2. by simplify_eq.
  - destruct (decide (state_ c = kConnecting)) as [Hs|Hs].
    + rewrite handleWrite_connecting in He by done. by injection He as <-.
    + destruct (handleWrite_ok w c) as (c2 & He2 & ? & _); [done..|]. rewrite He in He2. by simplify_eq.
  - destruct (handleClose_ok user Hu c) as (c2 & He2 & ? & _); [done|by apply events_open|].
    rewrite He in He2. by simplify_eq.
  - destruct (connectDestroyed_ok user Hu c) as (c2 & He2 & ? & _); [done..|]. rewrite He in He2. by simplify_eq.
Qed.

(** User code that sets no callbacks. *)
Definition defaults (k : call) (c : t Q) : outcome (t Q) :=
  match k with
  | ConnectionCallback _ => defaultConnectionCallback c
  | MessageCallback => defaultMessageCallback c
  | _ => mret c
  end.

Lemma defaults_ok : user_ok defaults.
Proof.
  intros k c Hi. destruct k; (eexists; split; [done|]); try apply rtc_refl. by apply rtc_once, api_retrieveAll.
Qed.

Lemma conn_reachable_inv user c : user_ok user -> reachable user c -> inv c.
Proof.
  intros Hu (c0 & H0 & Hsteps). apply inv_initial in H0. revert H0.
  induction Hsteps as [|c0 c1 c2 Hs _ IH]; [done|]. intros Hi. apply IH. by eapply conn_step_inv.
Qed.

(** *** The life of a connection, whatever happens to it *)

(** Steps that tell nobody that the connection is up or down. *)
Definition silent c c' : Prop :=
  lifetime (calls c') = lifetime (calls c) /\ late c' = late c /\ (state_ c = kConnecting -> callers c' = callers c) /\
  (state_ c' = state_ c \/ open c /\ open c').
Global Instance silent_preorder : PreOrder silent.
Proof.
  split; [intros c; split_and!; auto|]. intros c1 c2 c3 (K1 & L1 & C1 & S1) (K2 & L2 & C2 & S2). split_and!; [congruence..| |].
  - intros Hs. destruct S1 as [S1|[[] _]]; [|congruence..]. rewrite C2, C1 by congruence. done.
  - unfold open in *. destruct S1 as [S1|[O1 O2]], S2 as [S2|[O3 O4]]; rewrite ?S2, <-?S1; auto.
Qed.

Lemma lifetime_app l1 l2 : lifetime (l1 ++ l2) = lifetime l1 ++ lifetime l2.
Proof. apply filter_app. Qed.

Lemma silent_queue f c : silent c (queue f c).
Proof. split_and!; auto. Qed.
Lemma silent_shutdownInLoop c : silent c (shutdownInLoop c).
Proof. unfold shutdownInLoop. case_match; split_and!; auto. Qed.
Lemma silent_mark c : open c -> silent c (setState kDisconnecting c).
Proof. intros Ho. split_and!; auto. right. split; [done|by right]. Qed.
Lemma silent_forceClose c : silent c (forceClose c).
Proof.
  unfold forceClose. destruct (closable c) eqn:Ho; [|done]. apply closable_open in Ho.
  etrans; [by apply silent_mark|apply silent_queue].
Qed.
Lemma silent_startRead b c : silent c (startRead b c).
Proof. unfold startRead, startReadInLoop. repeat case_match; split_and!; auto. Qed.
Lemma silent_stopRead b c : silent c (stopRead b c).
Proof. unfold stopRead, stopReadInLoop. repeat case_match; split_and!; auto. Qed.

Lemma silent_try_write w c data : silent c (try_write w c data).2.
Proof. unfold try_write. repeat case_match; split_and!; auto. Qed.

Lemma silent_buffer_rest c data (nwrote r : Z) c' : buffer_rest c data nwrote r ⇓ c' -> silent c c'.
Proof.
  unfold buffer_rest. cbv zeta. case_match; (destruct (bq_append _ _) as [out|]; [|done]; intros [= <-]; case_match; split_and!; auto).
Qed.

Lemma silent_sendInLoop w c data c' : sendInLoop w c data ⇓ c' -> silent c c'.
Proof.
  unfold sendInLoop. case_bool_decide; [by intros [= <-]|]. pose proof (silent_try_write w c data) as Hf.
  destruct (try_write w c data) as [[[nwrote remaining] faultError] c1]. cbn [snd] in Hf.
  destruct (assert_ _) as [[]|]; [|done]. cbn [mbind outcome_bind]. set (c2 := if faultError then c1 else accept data c1).
  assert (silent c c2) as Hf2 by (etrans; [exact Hf|]; unfold c2; destruct faultError; split_and!; auto). clearbody c2.
  case_match; [intros Hb; etrans; [exact Hf2|by eapply silent_buffer_rest]|by intros [= <-]].
Qed.

Lemma silent_shutdown b c : silent c (shutdown b c).
Proof.
  unfold shutdown. case_bool_decide; [|done]. etrans; [apply silent_mark; by left|].
  destruct b; [apply silent_shutdownInLoop|apply silent_queue].
Qed.

Lemma silent_api c c' : api_step c c' -> silent c c'.
Proof.
  intros [w msg _ _ He|w buf buf' _ _ He| -> | -> | -> |_ -> |_ -> |n inb _ _ -> | -> |cb -> |cb hwm ->];
    [| | | | | | |split_and!; by auto..].
  - unfold send in He. case_bool_decide; [by eapply silent_sendInLoop|by injection He as <-].
  - unfold send_buffer in He. case_bool_decide; [|by injection He as <- <-].
    destruct (sendInLoop w c (bq_content buf)) as [c1|] eqn:E; [|done]. injection He as <- <-. by eapply silent_sendInLoop.
  - apply silent_shutdown.
  - apply silent_forceClose.
  - unfold forceCloseWithDelay. destruct (closable c) eqn:Ho; [|done]. apply closable_open in Ho.
    etrans; [by apply silent_mark|]. split_and!; auto.
  - apply silent_startRead.
  - apply silent_stopRead.
Qed.

Lemma silent_acts c c' : rtc acts c c' -> silent c c'.
Proof.
  induction 1 as [|c c1 c2 [Ha|[-> | ->]] _ IH]; [done|..]; (etrans; [|exact IH]);
    [by apply silent_api|apply silent_startRead|apply silent_stopRead].
Qed.

Lemma silent_handleWrite w c c' : handleWrite w c ⇓ c' -> silent c c'.
Proof.
  unfold handleWrite. case_match; [|by intros [= <-]]. destruct (w _) as [|n]; [by intros [= <-]|].
  case_match; [|by intros [= <-]]. destruct (bq_retrieve _ _) as [out|]; [|done]. cbn [mbind outcome_bind].
  set (c1 := set_buffers _ _ _). assert (silent c c1) as Hf by (split_and!; auto). clearbody c1.
  case_match; [|by intros [= <-]]. intros [= <-]. etrans; [exact Hf|].
  set (c2 := if writeCompleteCallback_ _ then _ else _). assert (silent c1 c2) as Hf2 by (unfold c2; case_match; split_and!; auto).
  clearbody c2. etrans; [exact Hf2|]. case_match; [apply silent_shutdownInLoop|done].
Qed.

(** What has been told so far. *)
Definition life c : Prop :=
  match state_ c with
  | kConnecting => lifetime (calls c) = [] /\ late c = 0%nat /\ callers c = []
  | s => exists ends, lifetime (calls c) = ConnectionCallback true :: flat_map going_down ends /\
      length ends = (late c + if decide (s = kDisconnected) then 1 else 0)%nat
  end.

Lemma life_silent c c' : silent c c' -> life c -> life c'.
Proof.
  intros (Hk & Hl & Hc & Hs). unfold life. rewrite Hk, Hl. destruct Hs as [-> |[[-> | ->] [-> | ->]]]; try done.
  destruct (state_ c); try done. by rewrite Hc.
Qed.

(** An open connection goes down. *)
Lemma life_down told c c' : life c -> open c -> state_ c' = kDisconnected -> late c' = late c ->
  lifetime (calls c') = lifetime (calls c) ++ going_down told -> life c'.
Proof.
  intros Hl Ho Hs' Hlate Hk. unfold life. rewrite Hs', Hlate, Hk.
  assert (exists ends, lifetime (calls c) = ConnectionCallback true :: flat_map going_down ends /\ length ends = late c) as (ends & -> & Hlen).
  { unfold life in Hl. destruct Ho as [Ho|Ho]; rewrite Ho, Nat.add_0_r in Hl; done. }
  exists (ends ++ [told]). rewrite flat_map_app, length_app. simpl. rewrite app_nil_r, Hlen. done.
Qed.

Lemma life_other_tests r c : life c -> life (other_tests r c).
Proof.
  unfold other_tests, life. destruct (passes r c) eqn:Hp; [|done]. simpl. destruct (state_ c) eqn:Hs; try done.
  destruct r; unfold passes, closable in Hp; apply bool_decide_eq_true_1 in Hp; rewrite Hs in Hp; naive_solver.
Qed.

Lemma life_other_proceeds i c : life c -> life (other_proceeds i c).
Proof.
  intros Hl. unfold other_proceeds. destruct (callers c !! i) as [[e|e]|] eqn:Hi; [| |done].
  all: assert (state_ c <> kConnecting) as Hnc by (intros Hs; unfold life in Hl; rewrite Hs in Hl; destruct Hl as (_ & _ & El); by rewrite El in Hi).
  - unfold disconnected, life in *. simpl. case_bool_decide as Hd.
    + rewrite Hd in Hl. destruct Hl as (ends & Hk & Hlen). exists ends. simpl in Hlen. by rewrite Nat.add_0_r.
    + rewrite Nat.add_0_r. by destruct (state_ c).
  - apply (life_silent c); [|done]. destruct e; split_and!; auto; done.
Qed.

Section life.
Context (user : call -> t Q -> outcome (t Q)) (Hacts : user_acts user).

Lemma silent_invoke k c c' : invoke user k c ⇓ c' -> silent (log_call k c) c'.
Proof. intros He. by apply silent_acts, (Hacts k). Qed.

Lemma silent_other k c c' : lifetime [k] = [] -> invoke user k c ⇓ c' -> silent c c'.
Proof.
  intros Hk He%silent_invoke. etrans; [|exact He]. split_and!; auto. simpl. by rewrite lifetime_app, Hk, app_nil_r.
Qed.

Lemma life_handleClose c c' : life c -> handleClose user c ⇓ c' -> life c'.
Proof.
  intros Hl. unfold handleClose. destruct (closable c) eqn:Ho; [|done]. apply closable_open in Ho. cbn [assert_ mbind outcome_bind].
  destruct (invoke user _ _) as [c2|] eqn:E; [|done]. intros [= <-]. apply silent_invoke in E as (Hk & Hlate & _ & Hs). simpl in Hk.
  apply (life_down true c); try done.
  - by destruct Hs as [Hs|[[] _]].
  - simpl. by rewrite lifetime_app, Hk, !lifetime_app, <-app_assoc.
Qed.

Lemma life_connectDestroyed c c' : life c -> connectDestroyed user c ⇓ c' -> life c'.
Proof.
  intros Hl. unfold connectDestroyed. case_bool_decide as Hc; cbn [mbind outcome_bind mret outcome_ret].
  - destruct (invoke user _ _) as [c2|] eqn:E; [|done]. cbn [mbind outcome_bind]. destruct (assert_ _); [|done]. intros [= <-].
    apply silent_invoke in E as (Hk & Hlate & _ & Hs). simpl in Hk. apply (life_down false c); [done|by left| |done|].
    + by destruct Hs as [Hs|[[] _]].
    + simpl. by rewrite Hk, lifetime_app.
  - destruct (assert_ _); [|done]. by intros [= <-].
Qed.

Lemma life_connectEstablished c c' : life c -> connectEstablished user c ⇓ c' -> life c'.
Proof.
  intros Hl. unfold connectEstablished. case_bool_decide as Hs; [|done]. cbn [assert_ mbind outcome_bind].
  intros He%silent_invoke. eapply life_silent; [exact He|]. unfold life in *. rewrite Hs in Hl. destruct Hl as (Hk & Hlate & _).
  simpl. exists []. by rewrite lifetime_app, Hk, Hlate.
Qed.

Lemma life_handleRead readv c c' : life c -> handleRead user readv c ⇓ c' -> life c'.
Proof.
  intros Hl. unfold handleRead. destruct (bq_readFd readv _) as [[[n err] inb]|]; [|done]. cbn [mbind outcome_bind].
  set (c1 := set_history _ _ _ _ _). assert (life c1) as Hl1 by done. clearbody c1.
  repeat case_bool_decide; [|by apply life_handleClose|by intros [= <-]].
  intros He%silent_other; [|done]. by eapply life_silent.
Qed.

Lemma life_functor w f c c' : life c -> run_functor user w f c ⇓ c' -> life c'.
Proof.
  intros Hl. destruct f as [msg| | | | | |n]; cbn [run_functor].
  - intros He%silent_sendInLoop. by eapply life_silent.
  - intros [= <-]. eapply life_silent, Hl. apply silent_shutdownInLoop.
  - unfold forceCloseInLoop. case_match; [by apply life_handleClose|by intros [= <-]].
  - intros [= <-]. eapply life_silent, Hl. apply (silent_startRead true).
  - intros [= <-]. eapply life_silent, Hl. apply (silent_stopRead true).
  - intros He%silent_other; [|done]. by eapply life_silent.
  - intros He%silent_other; [|done]. by eapply life_silent.
Qed.

Lemma life_step c c' : any_step user c c' -> life c -> life c'.
Proof.
  intros [He|Ha|r -> |i -> |n _ -> | -> | -> |f rest w _ He|readv He|w He|He|He] Hl.
  - by eapply life_connectEstablished.
  - eapply life_silent, Hl. by apply silent_acts, rtc_once.
  - by apply life_other_tests.
  - by apply life_other_proceeds.
  - by eapply life_silent; [apply silent_forceClose|].
  - by eapply life_silent, Hl; apply silent_startRead.
  - by eapply life_silent, Hl; apply silent_stopRead.
  - by eapply life_functor, He.
  - by eapply life_handleRead.
  - by eapply life_silent; [eapply silent_handleWrite|].
  - by eapply life_handleClose.
  - by eapply life_connectDestroyed.
Qed.

Lemma any_reachable_life c : any_reachable user c -> life c.
Proof.
  intros (c0 & (fd & wc & hw & hwm & inb & outb & -> & _) & Hs).
  assert (life (init fd wc hw hwm inb outb)) as Hl by done. revert Hl.
  induction Hs as [|c0 c1 c2 Hs _ IH]; [done|]. intros Hl. apply IH. by eapply life_step.
Qed.
End life.

(** *** Draining *)

(** A socket that takes at least one byte of what it is offered. *)
Definition writable (w : write_t) : Prop :=
  forall d, d <> [] -> exists n, w d = inr n /\ 1 <= n <= len d.

Fixpoint handleWrites (w : write_t) (k : nat) (c : t Q) : outcome (t Q) :=
  match k with O => mret c | S k => c' ← handleWrite w c; handleWrites w k c' end.

Lemma handleWrite_drains w c :
  inv c -> open c -> writable w -> bq_content (outputBuffer_ c) <> [] ->
  exists c', handleWrite w c = Done c' /\ accepted c' = accepted c /\ state_ c' = state_ c /\
    (length (bq_content (outputBuffer_ c')) < length (bq_content (outputBuffer_ c)))%nat /\
    (bq_content (outputBuffer_ c') = [] -> state_ c = kDisconnecting -> (kDisconnecting, accepted c) ∈ fin c').
Proof.
  intros Hi Ho Hw Hne. unfold handleWrite. rewrite (proj2 (open_writing _ Hi Ho)) by done.
  destruct (Hw _ Hne) as (n & -> & Hn). rewrite bool_decide_eq_true_2 by lia.
  destruct (bq_retrieve_ok (outputBuffer_ c) n) as (out & -> & Hwf & Hc); [apply Hi|lia|]. simpl.
  assert (length (bq_content out) < length (bq_content (outputBuffer_ c)))%nat as Hlt.
  { rewrite Hc, length_drop. unfold len in Hn. lia. }
  pose proof (mask_disableWriting _ (i_events _ Hi)) as [Hdw _].
  rewrite readable_zero by done. case_bool_decide as He.
  - set (c1 := on_channel _ _). set (c2 := if writeCompleteCallback_ c1 then queue WriteComplete c1 else c1).
    assert (accepted c2 = accepted c /\ state_ c2 = state_ c /\ outputBuffer_ c2 = out /\
      channel_ c2 = Channel.set_addedToLoop true (Channel.disableWriting (channel_ c))) as (E1 & E2 & E3 & E4).
    { unfold c2. by destruct (writeCompleteCallback_ c1). }
    exists (if bool_decide (state_ c2 = kDisconnecting) then shutdownInLoop c2 else c2).
    split; [done|]. clearbody c2. case_bool_decide as Hs.
    + unfold shutdownInLoop. rewrite E4.
      change (Channel.isWriting (Channel.set_addedToLoop true (Channel.disableWriting (channel_ c))))
        with (Channel.isWriting (Channel.disableWriting (channel_ c))). rewrite Hdw.
      unfold shutdownWrite, set_history. cbn [accepted state_ outputBuffer_ fin]. rewrite E1, E2, E3.
      split_and!; try done. intros _ Hd. rewrite Hd. set_solver.
    + rewrite E1, E2, E3. split_and!; try done. congruence.
  - eexists. split; [done|]. simpl. split_and!; done.
Qed.

Lemma drains w k c :
  inv c -> state_ c = kDisconnecting -> write_ok w -> writable w ->
  bq_content (outputBuffer_ c) <> [] -> (length (bq_content (outputBuffer_ c)) <= k)%nat ->
  exists j c', (j <= k)%nat /\ handleWrites w j c = Done c' /\ inv c' /\ bq_content (outputBuffer_ c') = [] /\
    accepted c' = accepted c /\ (kDisconnecting, accepted c) ∈ fin c'.
Proof.
  revert c. induction k as [|k IH]; intros c Hi Hs Hok Hw Hne Hk.
  { destruct (bq_content (outputBuffer_ c)); [done|simpl in Hk; lia]. }
  destruct (handleWrite_drains w c) as (c1 & He1 & Ha1 & Hs1 & Hlt & Hfin); [done|by right|done..|].
  destruct (handleWrite_ok w c) as (c1' & He1' & Hi1 & _); [done|congruence|done|].
  rewrite He1 in He1'. injection He1' as <-.
  destruct (decide (bq_content (outputBuffer_ c1) = [])) as [Hz|Hnz].
  - exists 1%nat, c1. split_and!; try done; [lia| |by apply Hfin]. simpl. by rewrite He1.
  - destruct (IH c1) as (j & c' & Hj & He & Hi' & Hz & Ha & Hf); [done|congruence|done|done|done|lia|].
    exists (S j), c'. split_and!; try done; [lia| |congruence|by rewrite <-Ha1]. simpl. by rewrite He1.
Qed.

(** *** What a send queues *)

(** The high-water notification of a buffer that grows from [old] to [new]. *)
Definition high_water c (old new : Z) : list functor :=
  if bool_decide (old < highWaterMark_ c <= new) && highWaterMarkCallback_ c then [HighWaterMark new] else [].

Lemma buffer_rest_queues c data n r :
  bq_wf (outputBuffer_ c) -> len (slice data n r) = r -> 0 <= r ->
  len (bq_content (outputBuffer_ c)) + r <= Buffer.cap ->
  exists c', buffer_rest c data n r = Done c' /\
    bq_content (outputBuffer_ c') = bq_content (outputBuffer_ c) ++ slice data n r /\
    pending c' = pending c ++ high_water c (len (bq_content (outputBuffer_ c))) (len (bq_content (outputBuffer_ c')))
    /\ wire c' = wire c.
Proof.
  intros Hwf Hlen Hr Hcap. unfold buffer_rest. rewrite bq_readable_ok by done.
  pose proof (len_nonneg (bq_content (outputBuffer_ c))) as Hnn.
  rewrite u64_small by (unfold Buffer.cap in Hcap; zlia).
  destruct (bq_append_ok (outputBuffer_ c) (slice data n r)) as (out & Ha & Hwf' & Hc); [done|lia|].
  set (old := len (bq_content (outputBuffer_ c))) in *. set (b := _ && _ && _).
  assert (len (bq_content out) = old + r) as Hnew by (rewrite Hc, len_app; lia).
  assert (high_water c old (len (bq_content out)) = if b then [HighWaterMark (old + r)] else []) as Hhw.
  { unfold high_water, b. rewrite Hnew. repeat case_bool_decide; try lia; done. }
  clearbody b. destruct b; simpl; rewrite Ha; simpl; eexists; (split; [done|]).
  all: destruct (Channel.isWriting (channel_ c)); simpl; rewrite Hhw, ?app_nil_r.
  all: by split_and!.
Qed.

Lemma high_water_same c old : high_water c old old = [].
Proof. unfold high_water. rewrite bool_decide_eq_false_2; [done|lia]. Qed.

Lemma sendInLoop_queues w c data :
  inv c -> open c -> write_ok w -> room c data ->
  exists c' wc, sendInLoop w c data = Done c' /\ (wc = [] \/ wc = [WriteComplete] /\ bq_content (outputBuffer_ c') = []) /\
    pending c' = pending c ++ wc ++
      high_water c (len (bq_content (outputBuffer_ c))) (len (bq_content (outputBuffer_ c'))).
Proof.
  intros Hi Ho Hw Hroom. pose proof (i_out _ Hi) as Hwf. pose proof (len_nonneg data) as Hnn.
  unfold room in Hroom. pose proof (len_nonneg (bq_content (outputBuffer_ c))) as Hnn2.
  assert (forall c1, outputBuffer_ c1 = outputBuffer_ c -> pending c1 = pending c ->
    highWaterMark_ c1 = highWaterMark_ c -> highWaterMarkCallback_ c1 = highWaterMarkCallback_ c ->
    forall n r, 0 <= n -> 0 <= r -> n + r = len data ->
    exists c' wc, (if bool_decide (0 < r) then buffer_rest c1 data n r else mret c1) = Done c' /\
      (wc = [] \/ wc = [WriteComplete] /\ bq_content (outputBuffer_ c') = []) /\
      pending c' = pending c ++ wc ++
        high_water c (len (bq_content (outputBuffer_ c))) (len (bq_content (outputBuffer_ c')))) as Hrest.
  { intros c1 E1 E2 E3 E4 n r H1 H2 H3. case_bool_decide.
    - destruct (buffer_rest_queues c1 data n r) as (c' & Hc' & _ & Hp & _).
      + by rewrite E1.
      + apply len_slice; lia.
      + done.
      + rewrite E1. lia.
      + exists c', []. split; [done|]. split; [by left|].
        rewrite Hp, E1, E2. unfold high_water. by rewrite E3, E4.
    - exists c1, []. split; [done|]. split; [by left|]. rewrite E1, E2, high_water_same. simpl. by rewrite app_nil_r. }
  unfold sendInLoop. rewrite bool_decide_eq_false_2 by (destruct Ho; congruence).
  unfold try_write. rewrite readable_zero by done.
  destruct (negb (Channel.isWriting (channel_ c)) && bool_decide (bq_content (outputBuffer_ c) = [])) eqn:Htry.
  2: { rewrite (bool_decide_eq_true_2 (len data <= len data)) by lia.
       cbn [mbind outcome_bind assert_ negb andb]. apply Hrest; done || lia. }
  apply andb_true_iff in Htry as [_ He]. apply bool_decide_eq_true_1 in He.
  destruct (w data) as [errno|n] eqn:Hwd.
  - rewrite (bool_decide_eq_true_2 (len data <= len data)) by lia. cbn [mbind outcome_bind assert_].
    destruct (negb (errno =? EWOULDBLOCK) && _).
    + exists c, []. split; [done|]. split; [by left|]. rewrite high_water_same. simpl. by rewrite app_nil_r.
    + cbn [negb andb]. apply Hrest; done || lia.
  - apply Hw in Hwd. rewrite u64_small by (unfold Buffer.cap in Hroom; zlia).
    rewrite (bool_decide_eq_true_2 (len data - n <= len data)) by lia. cbn [mbind outcome_bind assert_ negb andb].
    destruct (Z.eqb_spec (len data - n) 0) as [Hz|Hz]; cbn [andb].
    + rewrite (bool_decide_eq_false_2 (0 < len data - n)) by lia.
      eexists _, (if writeCompleteCallback_ c then [WriteComplete] else []). split; [done|].
      simpl. destruct (writeCompleteCallback_ c); simpl; rewrite high_water_same, ?app_nil_r; auto.
    + apply Hrest; done || lia.
Qed.
End Facts.
End TcpConnectionFacts.

(** ** Theorems *)
Module TcpConnectionTheorems.
Import TcpConnection TcpConnectionSpec TcpConnectionFacts.
Section Theorems.
Context {Q : Type} `{ByteQueue Q}.
Implicit Types (c : t Q).


(** C10. Which assertions of a connection can fail.  In every reachable state
    [connectEstablished] of a new connection, [handleRead] on a channel that
    waits for input, [handleWrite] at any time, [handleClose] on a channel with
    any interest and every queued functor return.  [handleClose] itself fails
    its assertion exactly when the connection is not open.
    [connectDestroyed] returns for a connection that is up or down; one that is
    disconnecting fails in [Channel::remove] exactly when its channel still has
    an interest, and so does one that is down when a [startRead] functor, which
    does not look at the state, has run on it (a [stopRead] functor does no harm). *)
Theorem connection_safe user c :
  user_ok user -> reachable user c ->
  (state_ c = kConnecting -> exists c', connectEstablished user c = Done c') /\
  (forall readv, Channel.isReading (channel_ c) = true -> read_ok readv c ->
     exists c', handleRead user readv c = Done c') /\
  (forall w, write_ok w -> exists c', handleWrite w c = Done c') /\
  (Channel.isNoneEvent (channel_ c) = false -> exists c', handleClose user c = Done c') /\
  (forall e, handleClose user c = Fault e <-> e = AssertFailure /\ ~ open c) /\
  (forall f rest w, pending c = f :: rest -> write_ok w -> (forall msg, f = SendInLoop msg -> room c msg) ->
     exists c', run_functor user w f (set_pending rest c) = Done c') /\
  (state_ c = kDisconnected \/ state_ c = kConnected -> exists c', connectDestroyed user c = Done c') /\
  (state_ c = kDisconnecting -> connectDestroyed user c =
     if Channel.isNoneEvent (channel_ c) then Done (set_channel (Channel.set_addedToLoop false (channel_ c)) c)
     else Fault AssertFailure) /\
  (state_ c = kDisconnected -> connectDestroyed user (startReadInLoop c) = Fault AssertFailure /\
     exists c', connectDestroyed user (stopReadInLoop c) = Done c').
Proof.
  intros Hu Hr. pose proof (conn_reachable_inv _ _ Hu Hr) as Hi. split_and!.
  - intros Hs. destruct (connectEstablished_ok user Hu c) as (c' & ? & _); eauto.
  - intros readv Hrd Hok. destruct (conn_handleRead_ok user Hu readv c) as (c' & ? & _); eauto. by apply reading_open.
  - intros w Hw. destruct (decide (state_ c = kConnecting)).
    + exists c. by apply handleWrite_connecting.
    + destruct (handleWrite_ok w c) as (c' & ? & _); eauto.
  - intros Hn. destruct (handleClose_ok user Hu c) as (c' & ? & _); eauto. by apply events_open.
  - intros e. exact (handleClose_faults user Hu c e Hi).
  - intros f rest w Hp Hw Hroom. destruct f; try (by eexists);
      (destruct (run_functor_ok user Hu w _ rest c Hi Hp) as (c' & ? & _); eauto; by intros []).
  - intros Hs. destruct (connectDestroyed_ok user Hu c) as (c' & ? & _); eauto.
  - apply connectDestroyed_disconnecting.
  - by apply connectDestroyed_functors.
Qed.

(** C19. Life cycle, for every interleaving of the loop thread with calls of other
    threads (whose test of [state_], store of [kDisconnecting] and queueing are
    separate steps), functors and [connectDestroyed] in any state: nobody is told anything of a
    connection in [kConnecting]; after that the user has been told once, first
    of all, that it is up, and then once more than the stores that came too late, if it
    is in [kDisconnected], or exactly as often as there were such stores, if it
    is not, that it is down, each time followed by at most one call of the
    owner's close callback.  So without a late store both are told once. *)
Theorem callbacks_once user c :
  user_acts user -> any_reachable user c ->
  (state_ c = kConnecting -> lifetime (calls c) = []) /\
  (state_ c <> kConnecting -> exists ends,
     lifetime (calls c) = ConnectionCallback true :: flat_map going_down ends /\
     length ends = (late c + if decide (state_ c = kDisconnected) then 1 else 0)%nat).
Proof.
  intros Hu Hr. pose proof (any_reachable_life user Hu c Hr) as Hl. unfold life in Hl.
  destruct (state_ c); simpl in *; (split; [|done]); [done|intros _; apply Hl|done..].
Qed.

(** The write side is shut down only after everything accepted has been
    written: at every [shutdownWrite] of a connection that is not yet down, all
    bytes accepted by then are on the wire before the FIN. *)
Theorem fin_after_data user c s b :
  user_ok user -> reachable user c -> (s, b) ∈ fin c -> s <> kDisconnected -> b `prefix_of` wire c.
Proof. intros Hu Hr. apply (i_fin _ (conn_reachable_inv _ _ Hu Hr)). Qed.

(** C28. A shutdown requested while output is buffered is not forgotten: as long
    as the socket takes at least one byte per writable event, within as many
    events as there are buffered bytes the buffer is empty, every accepted byte
    is on the wire, and the write side has been shut down. *)
Theorem shutdown_completes user w c :
  user_ok user -> reachable user c -> state_ c = kDisconnecting -> write_ok w -> writable w ->
  bq_content (outputBuffer_ c) <> [] ->
  exists j c', (j <= length (bq_content (outputBuffer_ c)))%nat /\ handleWrites w j c = Done c' /\
    wire c' = accepted c /\ (kDisconnecting, accepted c) ∈ fin c'.
Proof.
  intros Hu Hr Hs Hok Hw Hne. pose proof (conn_reachable_inv _ _ Hu Hr) as Hi.
  destruct (drains w (length (bq_content (outputBuffer_ c))) c) as (j & c' & Hj & He & Hi' & Hz & Ha & Hf); [done..|].
  exists j, c'. split_and!; try done. pose proof (i_stream _ Hi') as Hst. rewrite Hz, app_nil_r in Hst. congruence.
Qed.

(** Back pressure: a send queues the high-water-mark callback exactly when it
    makes the output buffer reach the mark from below, with the new length; and
    it queues the write-complete callback only when everything went straight to
    the socket. *)
Theorem high_water_mark_exact user w c data :
  user_ok user -> reachable user c -> open c -> write_ok w -> room c data ->
  exists c' wc, sendInLoop w c data = Done c' /\
    (wc = [] \/ wc = [WriteComplete] /\ bq_content (outputBuffer_ c') = []) /\
    pending c' = pending c ++ wc ++
      high_water c (len (bq_content (outputBuffer_ c))) (len (bq_content (outputBuffer_ c'))).
Proof. intros Hu Hr. apply sendInLoop_queues. by eapply conn_reachable_inv. Qed.

(** [connectDestroyed] takes only connections that are up or down: one that
    is still disconnecting (shut down, but not yet closed by the peer) keeps
    its read interest, and removing its channel fails an assertion. *)
Theorem destroy_while_disconnecting user c :
  state_ c = kDisconnecting -> Channel.isReading (channel_ c) = true ->
  connectDestroyed user c = Fault AssertFailure.
Proof.
  intros Hs Hr. rewrite connectDestroyed_disconnecting by done. by rewrite (reading_some _ Hr).
Qed.
End Theorems.

(** *** A connection over [Buffer], with user code that does nothing *)
Definition quiet (k : call) (c : t Buffer.t) : outcome (t Buffer.t) := Done c.

Lemma quiet_ok : user_ok quiet.
Proof. intros k c _. by exists c. Qed.

Definition empty_buffer : Buffer.t := Buffer.mk (replicate 64 "000"%char) 8 8.
Lemma empty_buffer_ok : bq_wf empty_buffer /\ bq_content empty_buffer = [].
Proof.
  split; [|done]. change (Buffer.wf empty_buffer). unfold Buffer.wf. vm_compute. split_and!; congruence.
Qed.

Definition fresh_conn : t Buffer.t := init 5 true true 100 empty_buffer empty_buffer.

(** A socket that takes one byte at a time. *)
Definition one_byte : write_t := fun d => inr (Z.min 1 (len d)).
Lemma one_byte_ok : write_ok one_byte.
Proof. intros d n [= <-]. pose proof (len_nonneg d). lia. Qed.
Lemma one_byte_writable : writable one_byte.
Proof. intros d Hd. exists (Z.min 1 (len d)). destruct d; [done|]. unfold len. simpl. split; [done|]. lia. Qed.

Definition after {A} (m : outcome A) (d : A) : A := match m with Done a => a | Fault _ => d end.
Definition up_conn : t Buffer.t := after (connectEstablished quiet fresh_conn) fresh_conn.
Definition hello_conn : t Buffer.t := after (send true one_byte up_conn (lit "hello")) up_conn.
Definition closing_conn : t Buffer.t := shutdown true hello_conn.

Lemma closing_reachable : reachable quiet closing_conn.
Proof.
  exists fresh_conn. split.
  { exists 5, true, true, 100, empty_buffer, empty_buffer. pose proof empty_buffer_ok as [? ?]. done. }
  apply (rtc_l _ _ up_conn); [apply s_establish; vm_compute; reflexivity|].
  apply (rtc_l _ _ hello_conn).
  { apply s_api; [vm_compute; discriminate|]. apply (api_send _ _ one_byte (lit "hello")).
    - apply one_byte_ok.
    - vm_compute. discriminate.
    - vm_compute. reflexivity. }
  apply rtc_once, s_api; [vm_compute; discriminate|]. by apply api_shutdown.
Qed.


Lemma connection_safe_witness : exists c', handleClose quiet closing_conn = Done c'.
Proof.
  destruct (connection_safe quiet closing_conn quiet_ok closing_reachable) as (_ & _ & _ & H4 & _).
  apply H4. vm_compute. reflexivity.
Defined.

(** [forceClose] of another thread is interrupted between its test and its
    store, by the peer's close: both notifications are made twice. *)
Definition revived_conn : t Buffer.t :=
  let c := other_tests ForceClose up_conn in
  let c := after (handleClose quiet c) c in
  let c := other_proceeds 0 (other_proceeds 0 c) in
  after (run_functor quiet one_byte ForceCloseInLoop (set_pending [] c)) c.

Lemma revived_reachable : any_reachable quiet revived_conn.
Proof.
  exists fresh_conn. split.
  { exists 5, true, true, 100, empty_buffer, empty_buffer. pose proof empty_buffer_ok as [? ?]. done. }
  eapply rtc_l; [apply (a_establish _ _ up_conn); vm_compute; reflexivity|].
  eapply rtc_l; [by apply (a_other_tests _ _ _ ForceClose)|].
  eapply rtc_l; [apply a_close; vm_compute; reflexivity|].
  eapply rtc_l; [by apply (a_other_proceeds _ _ _ 0)|].
  eapply rtc_l; [by apply (a_other_proceeds _ _ _ 0)|].
  apply rtc_once, (a_functor _ _ _ ForceCloseInLoop [] one_byte); vm_compute; reflexivity.
Qed.

Lemma callbacks_once_witness : late revived_conn = 1%nat /\ exists ends, length ends = 2%nat /\
  lifetime (calls revived_conn) = ConnectionCallback true :: flat_map going_down ends.
Proof.
  split; [vm_compute; reflexivity|].
  destruct (callbacks_once quiet revived_conn) as [_ H].
  - intros k c c' Hc. injection Hc as <-. constructor.
  - exact revived_reachable.
  - destruct H as (ends & Hk & Hl); [vm_compute; discriminate|]. exists ends. split; [exact Hl|exact Hk].
Defined.

Lemma shutdown_completes_witness :
  exists j c', (j <= 4)%nat /\ handleWrites one_byte j closing_conn = Done c' /\ wire c' = lit "hello".
Proof.
  destruct (shutdown_completes quiet one_byte closing_conn quiet_ok closing_reachable eq_refl one_byte_ok one_byte_writable)
    as (j & c' & Hj & He & Hw & _).
  - vm_compute. discriminate.
  - exists j, c'. split; [exact Hj|]. split; [exact He|]. rewrite Hw. vm_compute. reflexivity.
Defined.

Definition drained_conn : t Buffer.t := after (handleWrites one_byte 4 closing_conn) closing_conn.

Lemma drained_reachable : reachable quiet drained_conn.
Proof.
  destruct closing_reachable as (c0 & H0 & Hs). exists c0. split; [exact H0|]. etrans; [exact Hs|].
  assert (forall k c, handleWrites one_byte k closing_conn = Done c -> rtc (step quiet) closing_conn c) as Hk.
  { generalize closing_conn. intros c1 k. revert c1. induction k as [|k IH]; intros c1 c Hc; simpl in Hc.
    - injection Hc as ->. done.
    - apply bind_Done in Hc as (c2 & Hc2 & Hc). eapply rtc_l; [|by apply IH].
      apply (s_write _ quiet _ _ one_byte); [apply one_byte_ok|exact Hc2]. }
  apply (Hk 4%nat). vm_compute. reflexivity.
Qed.

Lemma fin_after_data_witness : lit "hello" `prefix_of` wire drained_conn.
Proof.
  apply (fin_after_data quiet drained_conn kDisconnecting (lit "hello") quiet_ok drained_reachable).
  - vm_compute. constructor.
  - discriminate.
Defined.

Definition long_message : bytes := replicate 98 "x"%char.

Lemma high_water_mark_exact_witness :
  exists c', sendInLoop one_byte closing_conn long_message = Done c' /\
    last (pending c') = Some (HighWaterMark 102).
Proof.
  destruct (high_water_mark_exact quiet one_byte closing_conn long_message quiet_ok closing_reachable)
    as (c' & wc & He & _ & Hp).
  - right. vm_compute. reflexivity.
  - apply one_byte_ok.
  - vm_compute. discriminate.
  - exists c'. split; [exact He|]. vm_compute in He. injection He as <-. rewrite Hp.
    rewrite !last_app. vm_compute. reflexivity.
Defined.

Lemma destroy_while_disconnecting_witness :
  connectDestroyed quiet closing_conn = Fault AssertFailure.
Proof. apply (destroy_while_disconnecting quiet closing_conn); vm_compute; reflexivity. Defined.
End TcpConnectionTheorems.
