(* ===== verification/Conversations.v ===== *)
(** * Conversations: two connections at the ends of one TCP stream

    Composes two objects of [TcpConnections], each with its own user code, loop
    and buffers, over the stream socket that joins them.  The kernel is not
    modelled further than TCP promises: a read returns the next bytes that
    the other end has written, in order and without a gap, and the end of the
    stream only behind the last of them.  The theorems say which of the bytes
    that one program hands to [send] the other program gets. *)
From S2P Require Import Prelude NetBuffer Channels TcpConnections.

Local Open Scope Z_scope.
Local Open Scope muduo_scope.

(** ** The stream *)
Module Stream.
Import TcpConnection TcpConnectionSpec.
Section stream.
Context {Q : Type} `{ByteQueue Q}.
Implicit Types (c peer n f : t Q).

(** The peer has shut down its write side, or has closed. *)
Definition ended peer : Prop := fin peer <> [] \/ state_ peer = kDisconnected.

(** What reading the socket of [c] may give. *)
Definition stream_read peer c (readv : Buffer.readv_t) : Prop :=
  forall iov data, readv iov = inr data -> received c ++ data `prefix_of` wire peer /\
    (foldr Z.add 0 iov > 0 -> data = [] -> ended peer /\ received c = wire peer).

(** One end moves; the other one stands still. *)
Inductive step (user_n user_f : call -> t Q -> outcome (t Q)) : t Q * t Q -> t Q * t Q -> Prop :=
  | near_step n f n' : step_with (stream_read f) user_n n n' -> step user_n user_f (n, f) (n', f)
  | far_step n f f' : step_with (stream_read n) user_f f f' -> step user_n user_f (n, f) (n, f').

Definition reachable (user_n user_f : call -> t Q -> outcome (t Q)) (p : t Q * t Q) : Prop :=
  exists n f, initial n /\ initial f /\ rtc (step user_n user_f) (n, f) p.

(** The bytes sent by [n] on their way to the program at [f]: those it has
    taken, those in its input buffer, those in the kernels and those in the
    output buffer of [n]. *)
Definition carries n f : Prop :=
  exists consumed flight,
    received f = consumed ++ bq_content (inputBuffer_ f) /\
    wire n = received f ++ flight /\
    accepted n = consumed ++ bq_content (inputBuffer_ f) ++ flight ++ bq_content (outputBuffer_ n).

(** A kernel that passes on at least one byte of what [n] has written, and [k]
    reads of [f]. *)
Definition generous n (readv : t Q -> Buffer.readv_t) : Prop :=
  forall f, received f `prefix_of` wire n -> received f <> wire n ->
    Buffer.readv_ok (readv f) /\ stream_read n f (readv f) /\
    forall iov, foldr Z.add 0 iov > 0 -> exists data, readv f iov = inr data /\ data <> [].
Fixpoint handleReads (user : call -> t Q -> outcome (t Q)) (readv : t Q -> Buffer.readv_t) (k : nat) f : outcome (t Q) :=
  match k with O => mret f | S k => f' ← handleRead user (readv f) f; handleReads user readv k f' end.

(** User code that goes on reading. *)
Definition attentive (user : call -> t Q -> outcome (t Q)) : Prop :=
  forall c c', user MessageCallback c ⇓ c' -> Channel.isReading (channel_ c) = true -> Channel.isReading (channel_ c') = true.
End stream.
End Stream.

(** ** Lemmas *)
Module StreamFacts.
Import TcpConnection TcpConnectionSpec TcpConnectionFacts Stream.
Section facts.
Context {Q : Type} `{ByteQueue Q}.
Implicit Types (c peer n f : t Q).

(** Nothing is read, and what is on the wire stays there. *)
Definition flows c c' : Prop := received c' = received c /\ wire c `prefix_of` wire c'.
Global Instance flows_preorder : PreOrder flows.
Proof. split; [done|]. intros c1 c2 c3 [E1 P1] [E2 P2]. split; [congruence|by etrans]. Qed.

Lemma flows_shutdownInLoop c : flows c (shutdownInLoop c).
Proof. unfold shutdownInLoop. by case_match. Qed.

Lemma flows_buffer_rest c data (nwrote r : Z) c' : buffer_rest c data nwrote r ⇓ c' -> flows c c'.
Proof.
  unfold buffer_rest. cbv zeta. case_match; (destruct (bq_append _ _) as [out|]; [|done]; intros [= <-]; by case_match).
Qed.

Lemma flows_try_write w c data : flows c (try_write w c data).2.
Proof.
  unfold try_write. case_match; [|done]. destruct (w data) as [|n]; [done|]. cbn [snd].
  case_match; (split; [done|by eexists]).
Qed.

Lemma flows_sendInLoop w c data c' : sendInLoop w c data ⇓ c' -> flows c c'.
Proof.
  unfold sendInLoop. case_bool_decide; [by intros [= <-]|]. pose proof (flows_try_write w c data) as Hf.
  destruct (try_write w c data) as [[[nwrote remaining] faultError] c1]. cbn [snd] in Hf.
  destruct (assert_ _) as [[]|]; [|done]. cbn [mbind outcome_bind]. set (c2 := if faultError then c1 else accept data c1).
  assert (flows c c2) as Hf2 by (unfold c2; by destruct faultError). clearbody c2.
  case_match; [intros Hb; etrans; [exact Hf2|by eapply flows_buffer_rest]|by intros [= <-]].
Qed.

Lemma flows_forceClose c : flows c (forceClose c).
Proof. unfold forceClose. by case_match. Qed.

Lemma flows_send b w c msg c' : send b w c msg ⇓ c' -> flows c c'.
Proof. unfold send. repeat case_match; [apply flows_sendInLoop|by intros [= <-]..]. Qed.

Lemma flows_shutdown b c : flows c (shutdown b c).
Proof.
  unfold shutdown. repeat case_match; [|done..]. by etrans; [|apply flows_shutdownInLoop].
Qed.

Lemma flows_api c c' : api_step c c' -> flows c c'.
Proof.
  intros [w msg _ _ He|w buf buf' _ _ He| -> | -> | -> |_ -> |_ -> |n inb _ _ -> | -> |cb -> |cb hwm ->].
  - by eapply flows_send.
  - unfold send_buffer in He. case_match; [|by injection He as <- <-].
    destruct (sendInLoop w c (bq_content buf)) as [c1|] eqn:E; [|done]. injection He as <- <-. by eapply flows_sendInLoop.
  - apply flows_shutdown.
  - apply flows_forceClose.
  - unfold forceCloseWithDelay. by case_match.
  - unfold startRead, startReadInLoop. by case_match.
  - unfold stopRead, stopReadInLoop. by case_match.
  - done.
  - done.
  - done.
  - done.
Qed.

Lemma flows_apis c c' : rtc api_step c c' -> flows c c'.
Proof. induction 1; [done|]. etrans; [by apply flows_api|done]. Qed.

Section handlers.
Context (user : call -> t Q -> outcome (t Q)) (Huser : user_ok user).

Lemma flows_invoke k c c' : inv (log_call k c) -> invoke user k c ⇓ c' -> flows c c'.
Proof.
  intros Hi He. destruct (Huser k _ Hi) as (c2 & He2 & Hs). unfold invoke in He. rewrite He in He2. injection He2 as <-.
  apply flows_apis in Hs. by etrans; [|exact Hs].
Qed.

Lemma flows_handleClose c c' : inv c -> handleClose user c ⇓ c' -> flows c c'.
Proof.
  intros Hi. unfold handleClose. destruct (closable c) eqn:Ho; [|done]. apply closable_open in Ho. cbn [assert_ mbind outcome_bind].
  set (c1 := on_channel _ _). destruct (invoke user _ c1) as [c2|] eqn:E; [|done]. intros [= <-].
  etrans; [|by apply flows_invoke in E; [exact E|by apply inv_going_down]]. done.
Qed.

Lemma flows_handleWrite w c c' : handleWrite w c ⇓ c' -> flows c c'.
Proof.
  unfold handleWrite. case_match; [|by intros [= <-]]. destruct (w _) as [|n]; [by intros [= <-]|].
  case_match; [|by intros [= <-]]. destruct (bq_retrieve _ _) as [out|]; [|done]. cbn [mbind outcome_bind].
  set (c1 := set_buffers _ _ _). assert (flows c c1) as Hf by (split; [done|by eexists]). clearbody c1.
  case_match; [|by intros [= <-]]. intros [= <-]. etrans; [exact Hf|].
  set (c2 := if writeCompleteCallback_ _ then _ else _). assert (flows c1 c2) as Hf2 by (unfold c2; by case_match).
  clearbody c2. etrans; [exact Hf2|]. case_match; [apply flows_shutdownInLoop|done].
Qed.

Lemma flows_connectEstablished c c' : inv c -> state_ c = kConnecting -> connectEstablished user c ⇓ c' -> flows c c'.
Proof.
  intros Hi Hs. unfold connectEstablished. rewrite bool_decide_eq_true_2 by done. cbn [assert_ mbind outcome_bind].
  intros He%flows_invoke; [|by apply inv_established]. by etrans; [|exact He].
Qed.

Lemma flows_connectDestroyed c c' : inv c -> connectDestroyed user c ⇓ c' -> flows c c'.
Proof.
  intros Hi. unfold connectDestroyed. case_bool_decide as Hs.
  - destruct (invoke user _ _) as [c1|] eqn:E; [|done]. apply flows_invoke in E; [|by apply inv_going_down; [|left]].
    cbn [mbind outcome_bind]. destruct (assert_ _); [|done]. intros [= <-]. by etrans; [|exact E].
  - cbn [mbind outcome_bind mret outcome_ret]. destruct (assert_ _); [|done]. by intros [= <-].
Qed.

Lemma flows_functor w (f : functor) rest c c' : inv c -> pending c = f :: rest -> run_functor user w f (set_pending rest c) ⇓ c' -> flows c c'.
Proof.
  intros Hi Hp. assert (state_ c <> kConnecting) as Hnc by (intros Hs; rewrite (i_pending _ Hi Hs) in Hp; done).
  assert (inv (set_pending rest c)) as Hi1 by (by apply (inv_core c)).
  enough (run_functor user w f (set_pending rest c) ⇓ c' -> flows (set_pending rest c) c') as Hf.
  { intros He%Hf. by etrans; [|exact He]. }
  destruct f as [msg| | | | | |n]; cbn [run_functor].
  - apply flows_sendInLoop.
  - intros [= <-]. apply flows_shutdownInLoop.
  - unfold forceCloseInLoop. case_match; [by apply flows_handleClose|by intros [= <-]].
  - intros [= <-]. unfold startReadInLoop. by case_match.
  - intros [= <-]. unfold stopReadInLoop. by case_match.
  - apply flows_invoke. by apply inv_log_other.
  - apply flows_invoke. by apply inv_log_other.
Qed.

(** A read appends what the socket has returned. *)
Lemma handleRead_flows readv c c' : inv c -> open c -> read_ok readv c -> handleRead user readv c ⇓ c' ->
  wire c `prefix_of` wire c' /\ exists iov, foldr Z.add 0 iov > 0 /\
  match readv iov with
  | inl _ => received c' = received c
  | inr data => received c' = received c ++ data /\ (data = [] -> state_ c' = kDisconnected) /\
      (data <> [] -> attentive user -> Channel.isReading (channel_ c) = true -> Channel.isReading (channel_ c') = true)
  end.
Proof.
  intros Hi Ho [Hok Hroom]. unfold handleRead.
  destruct (bq_readFd_ok readv (inputBuffer_ c)) as (iov & Hiov & Hr); [apply Hi|done|].
  destruct (readv iov) as [errno|data] eqn:Hd.
  - rewrite Hr. cbn [mbind outcome_bind]. rewrite drop_all. intros [= <-]. cbn. rewrite app_nil_r.
    split; [done|]. exists iov. by rewrite Hd.
  - destruct Hr as (inb & -> & Hwf & Hc); [by eapply Hroom|]. cbn [mbind outcome_bind]. rewrite Hc, drop_app_length.
    pose proof (inv_read c inb data Hi Hwf Hc) as Hi1. set (c1 := set_history _ _ _ _ _) in *. pose proof (len_nonneg data).
    case_bool_decide as Hpos; [|rewrite bool_decide_eq_true_2 by lia].
    + intros He. assert (flows c1 c') as [Hrc Hw]
        by (apply flows_invoke in He; [done|by apply inv_log_other; [|by apply not_connecting|..]]). split; [exact Hw|].
      exists iov. rewrite Hd. split_and!; [done|exact Hrc|intros ->; by cbn in Hpos|].
      intros _ Ha Hr. exact (Ha _ _ He Hr).
    + intros He. destruct (handleClose_ok user Huser c1 Hi1 Ho) as (c2 & He2 & _ & Hs2 & _). rewrite He in He2. injection He2 as <-.
      apply flows_handleClose in He as [Hrc Hw]; [|done]. split; [exact Hw|]. exists iov. rewrite Hd. split_and!; [done..|]. intros Hne.
      destruct data; [done|]. unfold len in Hpos. cbn in Hpos. lia.
Qed.

(** One step of an end, whatever it is. *)
Lemma end_step_flows peer c c' : inv c -> step_with (stream_read peer) user c c' -> received c `prefix_of` wire peer ->
  wire c `prefix_of` wire c' /\ received c' `prefix_of` wire peer.
Proof.
  intros Hi Hst Hp. enough (flows c c' \/ wire c `prefix_of` wire c' /\ received c' `prefix_of` wire peer) as [[-> Hw]|]; [done..|].
  destruct Hst as [Hs He|_ He|r He|i _ He|k _ He|_ He|_ He|f rest w Hpd _ _ _ He|readv Hr Hok Hrd He|w _ He|_ He|_ He]; [left..|right|left|left|left].
  - by apply flows_connectEstablished.
  - by apply flows_api.
  - subst. unfold other_tests. by case_match.
  - subst. unfold other_proceeds. by destruct (callers c !! i) as [[e|[]]|].
  - subst. by etrans; [|apply flows_forceClose].
  - by subst.
  - by subst.
  - by eapply flows_functor.
  - destruct (handleRead_flows readv c c' Hi (reading_open _ Hi Hr) Hok He) as (Hw & iov & Hiov & Hd). split; [done|].
    destruct (readv iov) as [|data] eqn:E; [by rewrite Hd|]. destruct Hd as [-> _]. by apply (Hrd iov).
  - by eapply flows_handleWrite.
  - by apply flows_handleClose.
  - by apply flows_connectDestroyed.
Qed.
End handlers.

Lemma step_with_any reads user c c' : step_with reads user c c' -> TcpConnectionSpec.step user c c'.
Proof.
  unfold TcpConnectionSpec.step. intros [Hs He|Hs He|r He|i Hot He|k Hk He|Hs He|Hs He|f rest w Hp H1 Hw Hr He|readv Hr Hok Hrd He|w Hw He|Hn He|Hs He];
    [by apply s_establish|by apply s_api|by eapply s_other_tests|by eapply s_other_proceeds
    |by eapply s_timer|by apply s_other_startRead|by apply s_other_stopRead|by eapply s_functor|by eapply s_read|by eapply s_write|by apply s_hup|by apply s_destroy].
Qed.

Section pair.
Context (user_n user_f : call -> t Q -> outcome (t Q)) (Hn : user_ok user_n) (Hf : user_ok user_f).

Record joined n f : Prop := {
  j_near : inv n;
  j_far : inv f;
  j_to_far : received f `prefix_of` wire n;
  j_to_near : received n `prefix_of` wire f }.

Lemma step_joined p p' : joined p.1 p.2 -> step user_n user_f p p' -> joined p'.1 p'.2.
Proof.
  intros Hj Hst. destruct Hst as [n f n' Hs|n f f' Hs]; destruct Hj as [In If Jf Jn]; cbn [fst snd] in *.
  - destruct (end_step_flows user_n Hn f n n' In Hs Jn) as [Hw Hr]. split; [|done|by etrans|done].
    by apply (conn_step_inv user_n n); [| |apply step_with_any in Hs].
  - destruct (end_step_flows user_f Hf n f f' If Hs Jf) as [Hw Hr]. split; [done| |done|by etrans].
    by apply (conn_step_inv user_f f); [| |apply step_with_any in Hs].
Qed.

Lemma reachable_joined n f : reachable user_n user_f (n, f) -> joined n f.
Proof.
  intros (n0 & f0 & H1 & H2 & Hs). remember (n0, f0) as p eqn:Ep. remember (n, f) as p' eqn:Ep'.
  assert (joined p.1 p.2) as Hj.
  { subst p. split; [by apply inv_initial..| |]; destruct H1 as (? & ? & ? & ? & ? & ? & -> & _), H2 as (? & ? & ? & ? & ? & ? & -> & _); done. }
  clear Ep H1 H2. induction Hs as [|p1 p2 p3 Hs _ IH]; [by subst|]. apply IH; [done|]. by apply (step_joined p1).
Qed.
End pair.

Lemma joined_carries n f : joined n f -> carries n f.
Proof.
  intros [In If [flight Hw] _]. destruct (i_input _ If) as [consumed Hr]. exists consumed, flight. split_and!; [done..|].
  by rewrite (i_stream _ In), Hw, Hr, <-!app_assoc.
Qed.

(** Every byte that [n] has accepted goes to the wire. *)
Lemma drains_open w k n : inv n -> open n -> write_ok w -> writable w -> (length (bq_content (outputBuffer_ n)) <= k)%nat ->
  exists j n', (j <= k)%nat /\ handleWrites w j n ⇓ n' /\ inv n' /\ wire n' = accepted n /\ wire n `prefix_of` wire n'.
Proof.
  intros Hi Ho Hok Hw. revert n Hi Ho. induction k as [|k IH]; intros n Hi Ho Hk;
    destruct (decide (bq_content (outputBuffer_ n) = [])) as [Hz|Hnz].
  1,3: exists 0%nat, n; split_and!; [lia|done|done|by rewrite (i_stream _ Hi), Hz, app_nil_r|done].
  { destruct (bq_content (outputBuffer_ n)); [done|cbn in Hk; lia]. }
  destruct (handleWrite_drains w n) as (n1 & He1 & Ha1 & Hs1 & Hlt & _); [done..|].
  destruct (handleWrite_ok w n) as (n1' & He1' & Hi1 & _); [done|by apply not_connecting|done|]. rewrite He1 in He1'. injection He1' as <-.
  destruct (IH n1) as (j & n' & Hj & He & Hi' & Hw' & Hp); [done|unfold open in *; by rewrite Hs1|lia|].
  exists (S j), n'. split_and!; [lia| |done|congruence|]; [cbn [handleWrites]; by rewrite He1|].
  etrans; [|exact Hp]. by apply (flows_handleWrite w n n1).
Qed.

(** Every byte on the wire is read. *)
Lemma reads_all user readv n k f : user_ok user -> attentive user -> generous n readv -> inv f ->
  Channel.isReading (channel_ f) = true -> received f `prefix_of` wire n -> len (wire n) <= Buffer.cap ->
  (length (wire n) - length (received f) <= k)%nat ->
  exists j f', (j <= k)%nat /\ handleReads user readv j f ⇓ f' /\ inv f' /\ received f' = wire n.
Proof.
  intros Hu Ha Hg Hi Hr Hp Hcap. revert f Hi Hr Hp. induction k as [|k IH]; intros f Hi Hr Hp Hk;
    destruct (decide (received f = wire n)) as [He|Hne].
  1,3: exists 0%nat, f; split_and!; [lia|done..].
  { destruct Hne. destruct Hp as [[|x l] Hp]; [by rewrite Hp, app_nil_r|]. rewrite Hp, length_app in Hk. cbn in Hk. lia. }
  destruct (Hg f Hp Hne) as (Hok & Hst & Hgive). pose proof (reading_open _ Hi Hr) as Ho.
  assert (read_ok (readv f) f) as Hrd.
  { split; [done|]. intros iov data Hd. destruct (i_input _ Hi) as [consumed Hc]. destruct (Hst iov data Hd) as [Hpre%prefix_length _].
    rewrite Hc, !length_app in Hpre. unfold len in *. lia. }
  destruct (conn_handleRead_ok user Hu (readv f) f) as (f1 & He1 & Hi1 & _); [done..|].
  destruct (handleRead_flows user Hu (readv f) f f1) as (_ & iov & Hiov & Hd); [done..|].
  destruct (Hgive iov Hiov) as (data & Hdata & Hnil). rewrite Hdata in Hd. destruct Hd as (Hrc & _ & Hr1).
  assert (received f1 `prefix_of` wire n) as Hp1 by (rewrite Hrc; by apply (Hst iov data Hdata)).
  assert (length (received f) < length (received f1))%nat as Hlt.
  { rewrite Hrc, length_app. destruct data; [done|cbn; lia]. }
  destruct (IH f1) as (j & f' & Hj & He & Hi' & Hw'); [done|by apply Hr1|done|lia|].
  exists (S j), f'. split_and!; [lia| |done|done]. cbn [handleReads]. by rewrite He1.
Qed.

Lemma joined_sym n f : joined n f -> joined f n.
Proof. by intros []. Qed.
End facts.
End StreamFacts.

(** ** Properties *)
Module ConversationTheorems.
Import TcpConnection TcpConnectionSpec TcpConnectionFacts Stream StreamFacts.


(** C21.  Delivery: in every state that two connections reach in which the sender
    is open and the receiver waits for input, whatever the sender has accepted
    arrives (at most [Buffer.cap] bytes): with sockets that take and pass on at least one byte
    at a time, as many writable events of the sender as it has buffered bytes,
    and as many readable events of a receiver that goes on reading as there are
    bytes it has not got, are enough. *)
Theorem everything_arrives {Q} `{ByteQueue Q} user_n user_f w (readv : t Q -> t Q -> Buffer.readv_t) (n f : t Q) :
  user_ok user_n -> user_ok user_f -> attentive user_f -> reachable user_n user_f (n, f) ->
  open n -> Channel.isReading (channel_ f) = true -> len (accepted n) <= Buffer.cap ->
  write_ok w -> writable w -> (forall n, generous n (readv n)) ->
  exists j n' k f', (j <= length (bq_content (outputBuffer_ n)))%nat /\ handleWrites w j n ⇓ n' /\
    (k <= length (accepted n) - length (received f))%nat /\ handleReads user_f (readv n') k f ⇓ f' /\
    received f' = accepted n.
Proof.
  intros Hn Hf Ha Hr Ho Hrd Hcap Hok Hw Hg. destruct (reachable_joined user_n user_f Hn Hf n f Hr) as [In If Jf _].
  destruct (drains_open w _ n In Ho Hok Hw (Nat.le_refl _)) as (j & n' & Hj & He & _ & Hacc & Hp).
  destruct (reads_all user_f (readv n') n' (length (wire n') - length (received f)) f) as (k & f' & Hk & Hrs & _ & Hrc);
    [done..|by etrans|by rewrite Hacc|done|].
  exists j, n', k, f'. split_and!; [done..|by rewrite <-Hacc|done|congruence].
Qed.

(** *** A pair over [Buffer] *)
Import TcpConnectionTheorems.
Definition next_bytes (n f : t Buffer.t) : Buffer.readv_t :=
  fun iov => inr (take (Z.to_nat (foldr Z.add 0 iov)) (drop (length (received f)) (wire n))).
Definition heard_conn : t Buffer.t := after (handleRead defaults (next_bytes hello_conn up_conn) up_conn) up_conn.

Lemma next_bytes_prefix n f iov data : received f `prefix_of` wire n -> next_bytes n f iov = inr data ->
  received f ++ data `prefix_of` wire n.
Proof.
  intros [l Hl] [= <-]. rewrite Hl, drop_app_length. apply prefix_app. eexists. symmetry. apply take_drop.
Qed.

Lemma next_bytes_generous n : generous n (next_bytes n).
Proof.
  intros f Hp Hne.
  assert (forall iov data, foldr Z.add 0 iov > 0 -> next_bytes n f iov = inr data -> data <> []) as Hnil.
  { intros iov data Hiov [= <-] E. destruct Hp as [l Hl]. rewrite Hl, drop_app_length in E.
    destruct l; [by rewrite Hl, app_nil_r in Hne|]. destruct (Z.to_nat _) eqn:Ez; [lia|done]. }
  split_and!.
  - intros iov data Hpos [= <-]. unfold len. rewrite length_take. assert (0 <= foldr Z.add 0 iov) by (induction Hpos; cbn; lia). lia.
  - intros iov data Hd. split; [by apply (next_bytes_prefix n f iov)|]. intros Hiov ->. by destruct (Hnil iov [] Hiov Hd).
  - intros iov Hiov. eexists. split; [done|]. by apply (Hnil iov).
Qed.

Lemma heard_reachable : reachable quiet defaults (hello_conn, heard_conn).
Proof.
  assert (initial fresh_conn) as Hini.
  { exists 5, true, true, 100, empty_buffer, empty_buffer. destruct empty_buffer_ok as [? ?]. by split_and!. }
  exists fresh_conn, fresh_conn. split_and!; [done..|].
  apply (rtc_l _ _ (up_conn, fresh_conn)); [apply near_step, s_establish; by vm_compute|].
  apply (rtc_l _ _ (hello_conn, fresh_conn)).
  { apply near_step, s_api; [by vm_compute|]. apply (api_send _ _ one_byte (lit "hello")); [apply one_byte_ok|by vm_compute|by vm_compute]. }
  apply (rtc_l _ _ (hello_conn, up_conn)); [apply far_step, s_establish; by vm_compute|].
  assert (received up_conn `prefix_of` wire hello_conn) as Hp by (exists (lit "h"); vm_compute; reflexivity).
  destruct (next_bytes_generous hello_conn up_conn Hp) as (Hok & Hst & _); [vm_compute; discriminate|].
  apply rtc_once, far_step, (s_read _ _ _ _ (next_bytes hello_conn up_conn)); [vm_compute; reflexivity| |done|vm_compute; reflexivity].
  split; [done|]. intros iov data Hd. apply next_bytes_prefix, prefix_length in Hd; [|done].
  replace (received up_conn) with (@nil ascii) in Hd by (vm_compute; reflexivity).
  replace (wire hello_conn) with (lit "h") in Hd by (vm_compute; reflexivity).
  replace (bq_content (inputBuffer_ up_conn)) with (@nil ascii) by (vm_compute; reflexivity).
  unfold len, Buffer.cap. cbn in Hd |- *. lia.
Qed.


Lemma everything_arrives_witness : exists j n' k f', (j <= 4)%nat /\ handleWrites one_byte j hello_conn ⇓ n' /\
  (k <= 4)%nat /\ handleReads defaults (next_bytes n') k heard_conn ⇓ f' /\ received f' = lit "hello".
Proof.
  apply (everything_arrives quiet defaults one_byte next_bytes hello_conn heard_conn quiet_ok defaults_ok).
  - intros c c' [= <-]. done.
  - exact heard_reachable.
  - left. vm_compute. reflexivity.
  - vm_compute. reflexivity.
  - vm_compute. discriminate.
  - exact one_byte_ok.
  - exact one_byte_writable.
  - exact next_bytes_generous.
Defined.
End ConversationTheorems.
