(* ===== verification/LogStreams.v ===== *)
(** * LogStreams: formatting into a fixed buffer

    Models [FixedBuffer] and [LogStream] ([src/muduo/base/LogStream.h],
    [LogStream.cc]): the digit tables, the conversion loops for decimal and
    hexadecimal integers, and the all-or-nothing appends to a buffer of fixed
    size.  [snprintf("%.12g")] is a parameter of the [double] operator. *)
From S2P Require Import Prelude.

Local Open Scope Z_scope.

(** ** Conversion of integers *)
Definition digits : bytes := lit "9876543210123456789".
Definition digitsHex : bytes := lit "0123456789ABCDEF".
(** [zero[lsd]], with [zero = digits + 9] *)
Definition zero_at (lsd : Z) : outcome char := at_ digits (9 + lsd).

(** The [do ... while (i != 0)] loop of [convert], least significant digit first. *)
Fixpoint convert_loop (fuel : nat) (i : Z) : outcome bytes :=
  match fuel with
  | O => Fault Undefined
  | S fuel =>
      let lsd := Z.rem i 10 in
      let i := Z.quot i 10 in
      c ← zero_at lsd;
      rest ← (if i =? 0 then mret [] else convert_loop fuel i);
      mret (c :: rest)
  end.

(** The characters [convert] leaves in the buffer before the terminating NUL.
    Twenty rounds are enough for any 64-bit integer. *)
Definition convert (value : Z) : outcome bytes :=
  l ← convert_loop 20 value;
  mret (rev (l ++ if bool_decide (value < 0) then ["-"%char] else [])).

Fixpoint convertHex_loop (fuel : nat) (i : Z) : outcome bytes :=
  match fuel with
  | O => Fault Undefined
  | S fuel =>
      let lsd := Z.rem i 16 in
      let i := Z.quot i 16 in
      c ← at_ digitsHex lsd;
      rest ← (if i =? 0 then mret [] else convertHex_loop fuel i);
      mret (c :: rest)
  end.
Definition convertHex (value : Z) : outcome bytes :=
  l ← convertHex_loop 16 value;
  mret (rev l).

(** ** The buffer and the stream *)
Module FixedBuffer.
Record t : Type := mk {
  _data : bytes;
  _cur : Z;                      (* offset into [_data] *)
}.
Definition init (SIZE : nat) : t := mk (replicate SIZE "000"%char) 0.

Definition length (b : t) : Z := i32 (_cur b).
Definition avail (b : t) : Z := i32 (len (_data b) - _cur b).
Definition add (b : t) (n : Z) : t := mk (_data b) (_cur b + n).
Definition reset (b : t) : t := mk (_data b) 0.
Definition bzero (b : t) : t := mk (replicate (List.length (_data b)) "000"%char) (_cur b).
Definition toString (b : t) : bytes := slice (_data b) 0 (length b).

Definition append (b : t) (s : bytes) : outcome t :=
  if bool_decide (len s < u64 (avail b))
  then d ← overwrite (_data b) (_cur b) s; mret (mk d (_cur b + len s))
  else mret b.

(** [*_cur = '\0'] *)
Definition debugString (b : t) : outcome t :=
  d ← overwrite (_data b) (_cur b) ["000"%char]; mret (mk d (_cur b)).
End FixedBuffer.

Definition k_small_buffer : nat := 4000.
Definition k_max_number_size : Z := 32.

Module LogStream.
Import FixedBuffer.

(** [convert] writes into the buffer, NUL included; then the cursor moves. *)
Definition formatInteger (b : t) (v : Z) : outcome t :=
  if bool_decide (k_max_number_size <= avail b) then
    s ← convert v;
    d ← overwrite (_data b) (_cur b) (s ++ ["000"%char]);
    mret (add (mk d (_cur b)) (len s))
  else mret b.

Definition formatPointer (b : t) (v : Z) : outcome t :=
  if bool_decide (k_max_number_size <= avail b) then
    s ← convertHex v;
    d ← overwrite (_data b) (_cur b) (lit "0x" ++ s ++ ["000"%char]);
    mret (add (mk d (_cur b)) (len s + 2))
  else mret b.

(** [text] is what [snprintf] produces for ["%.12g"]. *)
Definition formatDouble (b : t) (text : bytes) : outcome t :=
  if bool_decide (k_max_number_size <= avail b) then
    d ← overwrite (_data b) (_cur b) (take 31 text ++ ["000"%char]);
    mret (add (mk d (_cur b)) (len text))
  else mret b.

(** The operands of [<<]. *)
Inductive operand : Type :=
  | Bool (v : bool)
  | Integer (v : Z)              (* short to unsigned long long *)
  | Pointer (v : Z)
  | Double (text : bytes)
  | Char (c : char)
  | CString (s : option bytes)   (* [const char*], possibly null *)
  | Str (s : bytes).             (* string, StringPiece, Buffer, Fmt *)

Definition put (b : t) (o : operand) : outcome t :=
  match o with
  | Bool v => append b (if v then lit "1" else lit "0")
  | Integer v => formatInteger b v
  | Pointer v => formatPointer b v
  | Double text => formatDouble b text
  | Char c => append b [c]
  | CString (Some s) => append b s
  | CString None => append b (lit "(null)")
  | Str s => append b s
  end.
End LogStream.

(** ** Specification: what the text means *)
Module DecimalSpec.
Definition digit_value (c : char) : option Z :=
  let n := Z.of_N (N_of_ascii c) in
  if bool_decide (48 <= n <= 57) then Some (n - 48) else None.

(** The number a non-empty string of digits denotes. *)
Fixpoint digits_value (acc : Z) (s : bytes) : option Z :=
  match s with
  | [] => Some acc
  | c :: s => d ← digit_value c; digits_value (10 * acc + d) s
  end.
Definition read (s : bytes) : option Z :=
  match s with
  | [] => None
  | c :: s' =>
      if bool_decide (c = "-"%char)
      then match s' with [] => None | _ => Z.opp <$> digits_value 0 s' end
      else digits_value 0 s
  end.
End DecimalSpec.

(** ** Lemmas *)
Module LogStreamFacts.
Import DecimalSpec.

Lemma zero_at_digit lsd :
  -9 <= lsd <= 9 -> exists c, zero_at lsd = Done c /\ digit_value c = Some (Z.abs lsd).
Proof.
  intros H.
  assert (exists n, (n < 19)%nat /\ lsd = Z.of_nat n - 9) as (n & Hn & ->) by (exists (Z.to_nat (lsd + 9)); lia).
  do 19 (destruct n as [|n]; [eexists; split; reflexivity|]). lia.
Qed.

(** The digits of [convert_loop], least significant first. *)
Fixpoint little (s : bytes) : option Z :=
  match s with
  | [] => Some 0
  | c :: s => d ← digit_value c; r ← little s; Some (d + 10 * r)
  end.

Lemma rem_quot_10 i :
  -9 <= Z.rem i 10 <= 9 /\ Z.abs i = Z.abs (Z.rem i 10) + 10 * Z.abs (Z.quot i 10).
Proof.
  pose proof (Z.quot_rem' i 10). pose proof (Z.rem_bound_abs i 10 ltac:(done)).
  destruct (Z.le_gt_cases 0 i).
  - pose proof (Z.rem_nonneg i 10 ltac:(done) ltac:(done)). pose proof (Z.quot_pos i 10 ltac:(done) ltac:(done)). lia.
  - pose proof (Z.rem_nonpos i 10 ltac:(done) ltac:(lia)).
    assert (Z.quot i 10 <= 0) by (rewrite <-(Z.opp_involutive i), Z.quot_opp_l by done;
      pose proof (Z.quot_pos (- i) 10 ltac:(lia) ltac:(done)); lia). lia.
Qed.

Lemma convert_loop_ok fuel i :
  Z.abs i < 10 ^ Z.of_nat fuel ->
  (0 < fuel)%nat ->
  exists l, convert_loop fuel i = Done l /\ little l = Some (Z.abs i) /\
    (1 <= length l <= fuel)%nat /\ Forall (fun c => is_Some (digit_value c)) l.
Proof.
  revert i. induction fuel as [|fuel IH]; intros i Hi Hf; [lia|]. cbn [convert_loop].
  destruct (rem_quot_10 i) as [Hr Habs].
  destruct (zero_at_digit (Z.rem i 10) Hr) as (c & -> & Hc). bind_step.
  destruct (Z.eqb_spec (Z.quot i 10) 0) as [Hz|Hz].
  - eexists. split; [done|]. simpl. rewrite Hc. simpl. split; [f_equal; lia|]. split; [lia|].
    constructor; [by eexists|done].
  - assert (Z.abs (Z.quot i 10) < 10 ^ Z.of_nat fuel) as Hlt.
    { rewrite Nat2Z.inj_succ, Z.pow_succ_r in Hi by lia. lia. }
    destruct fuel as [|fuel]; [simpl in Hlt; lia|].
    destruct (IH (Z.quot i 10)) as (l & Hl & Hv & Hlen & Hd); [done|lia|]. rewrite Hl.
    eexists. split; [done|]. cbn [little]. rewrite Hc. simpl. rewrite Hv. simpl.
    split; [f_equal; lia|]. split; [simpl; lia|]. constructor; [by eexists|done].
Qed.

Lemma digits_value_app acc s1 s2 :
  digits_value acc (s1 ++ s2) = v ← digits_value acc s1; digits_value v s2.
Proof.
  revert acc. induction s1 as [|c s1 IH]; intros acc; [done|]. simpl.
  destruct (digit_value c); simpl; [apply IH|done].
Qed.

Lemma digits_value_rev l v : little l = Some v -> digits_value 0 (rev l) = Some v.
Proof.
  revert v. induction l as [|c l IH]; intros v; simpl; [done|].
  destruct (digit_value c) as [d|] eqn:Hd; [|done]. destruct (little l) as [r|]; [|done]. simpl.
  intros [= <-]. rewrite digits_value_app, (IH r) by done. simpl. rewrite Hd. simpl. f_equal. lia.
Qed.

Lemma minus_not_digit : digit_value "-"%char = None.
Proof. done. Qed.

Lemma read_unsigned s : s <> [] -> Forall (fun c => is_Some (digit_value c)) s -> read s = digits_value 0 s.
Proof.
  intros Hne Hd. destruct s as [|c s]; [done|]. inversion Hd as [|? ? Hc]; subst. unfold read.
  case_bool_decide as Hn; [|done]. subst. rewrite minus_not_digit in Hc. by destruct Hc.
Qed.

(** The conversion of any 64-bit integer, signed or not, denotes it. *)
Lemma convert_ok v :
  - two_63 <= v < two_64 ->
  exists s, convert v = Done s /\ read s = Some v /\ 1 <= len s <= 21.
Proof.
  intros Hv. unfold convert.
  destruct (convert_loop_ok 20 v) as (l & -> & Hval & Hlen & Hd); [|lia|].
  { change (Z.abs v < 100000000000000000000). unfold two_63, two_64 in Hv. lia. }
  simpl. eexists. split; [done|]. apply digits_value_rev in Hval.
  assert (rev l <> []) as Hne by (intros Hz%(f_equal length); rewrite length_rev in Hz; simpl in Hz; lia).
  assert (Forall (fun c => is_Some (digit_value c)) (rev l)) as Hd' by (by apply Forall_rev).
  case_bool_decide as Hneg.
  - rewrite rev_app_distr. simpl. destruct (rev l) as [|c r] eqn:Hr; [done|]. split.
    + change (read ("-"%char :: c :: r)) with (Z.opp <$> digits_value 0 (c :: r)). rewrite Hval. simpl. f_equal. lia.
    + apply (f_equal length) in Hr. rewrite length_rev in Hr. unfold len. simpl in *. lia.
  - rewrite app_nil_r. rewrite read_unsigned by done. split; [rewrite Hval; f_equal; lia|].
    unfold len. rewrite length_rev. lia.
Qed.

(** The number of digits. *)
Lemma convert_loop_width fuel : forall i l k,
  0 <= i < 10 ^ Z.of_nat (S k) -> convert_loop fuel i = Done l -> (length l <= S k)%nat.
Proof.
  induction fuel as [|fuel IH]; intros i l k Hi Hl; [done|]. cbn [convert_loop] in Hl. inv_outcome.
  rename H0 into Hrest. destruct (Z.eqb_spec (i ÷ 10) 0); inv_outcome; [simpl; lia|].
  destruct k as [|k].
  - exfalso. rewrite Z.quot_div_nonneg in * by lia. change (10 ^ Z.of_nat 1) with 10 in Hi.
    rewrite Z.div_small in * by lia. done.
  - apply (IH _ _ k) in Hrest; [simpl; lia|]. rewrite Z.quot_div_nonneg by lia.
    rewrite (Nat2Z.inj_succ (S k)), Z.pow_succ_r in Hi by lia. split; [apply Z.div_pos; lia|].
    apply Z.div_lt_upper_bound; lia.
Qed.

Lemma convert_width v s k :
  0 <= v < 10 ^ Z.of_nat (S k) -> convert v = Done s -> (length s <= S k)%nat.
Proof.
  intros Hv Hs. unfold convert in Hs. inv_outcome. rewrite length_rev, length_app.
  rewrite bool_decide_eq_false_2 by lia. simpl.
  match goal with H : convert_loop _ _ = _ |- _ => apply (convert_loop_width _ _ _ k) in H; [lia|done] end.
Qed.

Lemma convertHex_loop_ok fuel i :
  0 <= i < 16 ^ Z.of_nat fuel -> (0 < fuel)%nat ->
  exists l, convertHex_loop fuel i = Done l /\ (1 <= length l <= fuel)%nat.
Proof.
  revert i. induction fuel as [|fuel IH]; intros i Hi Hf; [lia|]. cbn [convertHex_loop].
  rewrite Z.rem_mod_nonneg, Z.quot_div_nonneg by lia.
  pose proof (Z.mod_pos_bound i 16 ltac:(done)).
  destruct (at_ok digitsHex (i `mod` 16)) as [c ->]; [by change (Z.of_nat (length digitsHex)) with 16|]. bind_step.
  destruct (Z.eqb_spec (i / 16) 0) as [Hz|Hz].
  - eexists. split; [done|]. simpl. lia.
  - assert (0 <= i / 16 < 16 ^ Z.of_nat fuel) as Hlt.
    { rewrite Nat2Z.inj_succ, Z.pow_succ_r in Hi by lia. split; [apply Z.div_pos; lia|].
      apply Z.div_lt_upper_bound; lia. }
    destruct fuel as [|fuel]; [simpl in Hlt; lia|].
    destruct (IH (i / 16)) as (l & -> & Hlen); [done|lia|]. eexists. split; [done|]. simpl. lia.
Qed.

Lemma convertHex_ok v : 0 <= v < two_64 -> exists s, convertHex v = Done s /\ 1 <= len s <= 16.
Proof.
  intros Hv. unfold convertHex. destruct (convertHex_loop_ok 16 v) as (l & -> & Hlen); [done|lia|].
  eexists. split; [done|]. unfold len. rewrite length_rev. lia.
Qed.

(** *** The buffer *)
Import FixedBuffer LogStream.

(** A buffer of at most [2^31 - 1] bytes with its cursor inside. *)
Definition wf (b : t) : Prop := 0 <= _cur b <= len (_data b) /\ len (_data b) < two_31.

Lemma avail_wf b : wf b -> avail b = len (_data b) - _cur b /\ u64 (avail b) = avail b.
Proof. intros [H1 H2]. unfold avail. rewrite i32_small by zlia. split; [done|]. apply u64_small. zlia. Qed.

Lemma toString_wf b : wf b -> toString b = slice (_data b) 0 (_cur b).
Proof. intros [H1 H2]. unfold toString, FixedBuffer.length. by rewrite i32_small by zlia. Qed.

(** Writing [s ++ tail] at the cursor and moving the cursor over [s]. *)
Lemma write_at_cursor b (s tl : bytes) :
  wf b -> _cur b + len (s ++ tl) <= len (_data b) ->
  exists d, overwrite (_data b) (_cur b) (s ++ tl) = Done d /\
    let b' := mk d (_cur b + len s) in wf b' /\ len d = len (_data b) /\ toString b' = toString b ++ s.
Proof.
  intros Hwf Hroom. pose proof Hwf as [H1 H2]. rewrite len_app in Hroom.
  pose proof (len_nonneg s). pose proof (len_nonneg tl).
  rewrite overwrite_Done by (rewrite ?len_app; lia). eexists. split; [done|].
  assert (len (take (Z.to_nat (_cur b)) (_data b) ++ (s ++ tl) ++
    drop (Z.to_nat (_cur b + len (s ++ tl))) (_data b)) = len (_data b)) as Hlen
    by (apply len_overwritten; rewrite ?len_app; lia).
  set (d := take _ _ ++ _) in *. simpl.
  assert (wf (mk d (_cur b + len s))) as Hwf'.
  { split; simpl; [lia|]. rewrite Hlen. lia. }
  split; [done|]. split; [done|]. rewrite !toString_wf by done. simpl. unfold slice. rewrite !drop_0.
  unfold d. unfold len in *.
  rewrite take_app_ge by (rewrite length_take; lia). rewrite length_take, Nat.min_l by lia. f_equal.
  rewrite <-app_assoc. rewrite take_app_ge by lia.
  replace (Z.to_nat (_cur b + Z.of_nat (List.length s)) - Z.to_nat (_cur b) - List.length s)%nat with 0%nat by lia.
  by rewrite take_0, app_nil_r.
Qed.

Lemma append_ok b s :
  wf b -> exists b', append b s = Done b' /\ wf b' /\ len (_data b') = len (_data b) /\
    toString b' = toString b ++ (if bool_decide (len s < len (_data b) - _cur b) then s else []).
Proof.
  intros Hwf. destruct (avail_wf b Hwf) as [Ha Hu]. unfold append. rewrite Hu, Ha.
  case_bool_decide as Hlt.
  - destruct (write_at_cursor b s []) as (d & Hd & Hwf' & Hlen & Hs); [done|rewrite app_nil_r; lia|].
    rewrite app_nil_r in Hd. rewrite Hd. simpl. eexists. split; [done|]. done.
  - exists b. by rewrite app_nil_r.
Qed.

(** The text of an operand. *)
Definition text_of (o : operand) (s : bytes) : Prop :=
  match o with
  | Bool v => s = if v then lit "1" else lit "0"
  | Integer v => read s = Some v
  | Pointer v => exists h, convertHex v = Done h /\ s = lit "0x" ++ h
  | Double text => s = text
  | Char c => s = [c]
  | CString (Some s') => s = s'
  | CString None => s = lit "(null)"
  | Str s' => s = s'
  end.

(** The values the operators take. *)
Definition operand_ok (o : operand) : Prop :=
  match o with
  | Integer v => - two_63 <= v < two_64
  | Pointer v => 0 <= v < two_64
  | Double text => len text < 32
  | _ => True
  end.

Lemma put_number b s :
  wf b -> k_max_number_size <= avail b -> len s < 32 ->
  exists d, overwrite (_data b) (_cur b) (s ++ ["000"%char]) = Done d /\
    let b' := mk d (_cur b + len s) in wf b' /\ len d = len (_data b) /\ toString b' = toString b ++ s.
Proof.
  intros Hwf Hav Hlen. destruct (avail_wf b Hwf) as [Ha _]. unfold k_max_number_size in Hav.
  apply write_at_cursor; [done|]. rewrite len_app. change (len ["000"%char]) with 1. lia.
Qed.

Lemma put_ok b o :
  wf b -> operand_ok o ->
  exists b' s, put b o = Done b' /\ wf b' /\ len (_data b') = len (_data b) /\
    toString b' = toString b ++ s /\ (s = [] \/ text_of o s) /\
    (forall s', text_of o s' -> len s' + 32 <= len (_data b) - _cur b -> text_of o s).
Proof.
  intros Hwf Hok. destruct (avail_wf b Hwf) as [Ha Hu].
  assert (forall s0, (forall s, text_of o s <-> s = s0) -> put b o = append b s0 ->
    exists b' s, put b o = Done b' /\ wf b' /\ len (_data b') = len (_data b) /\
    toString b' = toString b ++ s /\ (s = [] \/ text_of o s) /\
    (forall s', text_of o s' -> len s' + 32 <= len (_data b) - _cur b -> text_of o s)) as Happ.
  { intros s0 Hs0 ->. destruct (append_ok b s0 Hwf) as (b' & He & Hwf' & Hl & Ht). eexists b', _.
    split_and!; [done..| |].
    - case_bool_decide; [right; by apply Hs0|by left].
    - intros s' ->%Hs0 Hroom. rewrite bool_decide_eq_true_2 by lia. by apply Hs0. }
  destruct o as [v|v|v|text|c|[s|]|s]; try (by eapply Happ).
  - simpl. unfold formatInteger. destruct (convert_ok v Hok) as (s & Hc & Hread & Hlen).
    case_bool_decide as Hav.
    + rewrite Hc. simpl. destruct (put_number b s Hwf Hav) as (d & -> & Hwf' & Hld & Ht); [lia|].
      eexists _, s. split; [done|]. split_and!; try done. by right.
    + exists b, []. rewrite app_nil_r. split_and!; try done; [by left|].
      intros s' Hs' Hroom. exfalso. pose proof (len_nonneg s'). unfold k_max_number_size in Hav. lia.
  - simpl. unfold formatPointer. destruct (convertHex_ok v Hok) as (h & Hc & Hlen).
    case_bool_decide as Hav.
    + rewrite Hc. simpl. change ("0"%char :: "x"%char :: h ++ ["000"%char]) with ((lit "0x" ++ h) ++ ["000"%char]).
      destruct (put_number b (lit "0x" ++ h) Hwf Hav) as (d & -> & Hwf' & Hld & Ht).
      { rewrite len_app. change (len (lit "0x")) with 2. lia. }
      rewrite len_app in Hwf', Ht. change (len (lit "0x")) with 2 in Hwf', Ht. simpl. unfold add. simpl.
      rewrite (Z.add_comm (len h) 2).
      eexists _, (lit "0x" ++ h). split; [done|]. split_and!; try done; [right; by exists h|by exists h].
    + exists b, []. rewrite app_nil_r. split_and!; try done; [by left|].
      intros s' Hs' Hroom. exfalso. pose proof (len_nonneg s'). unfold k_max_number_size in Hav. lia.
  - simpl in *. unfold formatDouble. case_bool_decide as Hav.
    + rewrite take_ge by (unfold len in Hok; lia).
      destruct (put_number b text Hwf Hav Hok) as (d & -> & Hwf' & Hld & Ht).
      eexists _, text. split; [done|]. split_and!; try done. by right.
    + exists b, []. rewrite app_nil_r. split_and!; try done; [by left|].
      intros s' Hs' Hroom. exfalso. pose proof (len_nonneg s'). unfold k_max_number_size in Hav. lia.
Qed.
End LogStreamFacts.

(** ** Theorems *)
Module LogStreamTheorems.
Import DecimalSpec LogStreamFacts FixedBuffer LogStream.

(** Integers are formatted faithfully: the conversion loop ends within
    twenty rounds for every signed or unsigned 64-bit value, the most negative
    one included, never indexes outside the digit table, and its text of at
    most 21 characters reads back as the value. *)
Theorem convert_round_trip v :
  - two_63 <= v < two_64 -> exists s, convert v = Done s /\ read s = Some v /\ 1 <= len s <= 21.
Proof. apply convert_ok. Qed.

Lemma convert_round_trip_witness :
  convert (- two_63) = Done (lit "-9223372036854775808") /\ read (lit "-9223372036854775808") = Some (- two_63).
Proof.
  destruct (convert_round_trip (- two_63)) as (s & Hs & Hr & _); [vm_compute; split; congruence|].
  split; [vm_compute; reflexivity|]. vm_compute in Hs. injection Hs as <-. exact Hr.
Defined.

(** Whatever is streamed into a log line, no byte is written outside the
    buffer and no operand is ever cut: the line is the concatenation of the
    operands' texts, each complete or left out as a whole. *)
Theorem logstream_lines ops b :
  wf b -> Forall operand_ok ops ->
  exists b' texts, run_all put b ops = Done b' /\ wf b' /\ len (_data b') = len (_data b) /\
    toString b' = toString b ++ concat texts /\
    Forall2 (fun o s => s = [] \/ text_of o s) ops texts.
Proof.
  intros Hwf Hok. revert b Hwf. induction Hok as [|o ops Ho _ IH]; intros b Hwf.
  { exists b, []. rewrite app_nil_r. done. }
  destruct (put_ok b o Hwf Ho) as (b1 & s & He & Hwf1 & Hl1 & Ht1 & Hs & _).
  destruct (IH b1 Hwf1) as (b2 & texts & He2 & Hwf2 & Hl2 & Ht2 & Hf).
  exists b2, (s :: texts). cbn [run_all]. rewrite He. simpl. split_and!; try done; [congruence| |by constructor].
  by rewrite Ht2, Ht1, app_assoc.
Qed.

Lemma logstream_lines_witness :
  exists b', run_all put (init 64) [Str (lit "fd = "); Integer (-7); CString None; Bool true] = Done b' /\
    toString b' = lit "fd = -7(null)1".
Proof.
  destruct (logstream_lines [Str (lit "fd = "); Integer (-7); CString None; Bool true] (init 64))
    as (b' & texts & He & _).
  - vm_compute. split; [split; congruence|reflexivity].
  - repeat constructor; vm_compute; congruence.
  - exists b'. split; [exact He|]. vm_compute in He. injection He as <-. vm_compute. reflexivity.
Defined.
End LogStreamTheorems.
