(* ===== verification/HttpServer.v ===== *)
(** * HttpServer: the HTTP/1.x front end of the web server

    Models [Request] ([src/web_server/Request.h]), [ContextParse]
    ([ContextParse.h], [ContextParse.cc]), [Response] ([Response.h],
    [Response.cc]) and the message handlers of [Server] ([Server.cc]).  The
    parser runs on [Buffer] ([NetBuffer]); its loop has fuel, and the theorems
    show that one round more than the bytes there are is always enough.  The
    iteration order of an [unordered_map] is an argument. *)
From S2P Require Import Prelude NetBuffer Timestamps LogStreams.

Local Open Scope Z_scope.
Local Open Scope muduo_scope.

Abbreviation headers := (gmap bytes bytes).

(** [std::find(begin, end, c)]: the bytes before the match, and those after it
    ([None]: [end]). *)
Fixpoint split_at (c : char) (s : bytes) : bytes * option bytes :=
  match s with
  | [] => ([], None)
  | x :: s' => if bool_decide (x = c) then ([], Some s')
               else let '(a, b) := split_at c s' in (x :: a, b)
  end.

(** [isspace] in the "C" locale. *)
Definition isspace (c : char) : bool :=
  let n := N_of_ascii c in (n =? 32)%N || ((9 <=? n)%N && (n <=? 13)%N).
Fixpoint skip_spaces (s : bytes) : bytes :=
  match s with
  | c :: s' => if isspace c then skip_spaces s' else s
  | [] => []
  end.

Module Request.
Inductive Method : Type := Invalid | Get | Post | Head | Put | Delete.
Inductive Version : Type := Unknow | Http10 | Http11.
Global Instance Method_eq_dec : EqDecision Method.
Proof. solve_decision. Defined.
Global Instance Version_eq_dec : EqDecision Version.
Proof. solve_decision. Defined.

Record t : Type := mk {
  method_ : Method;
  version_ : Version;
  path_ : bytes;
  query_ : bytes;
  receive_time_ : Timestamp.t;
  headers_ : headers;
}.

Definition init : t := mk Invalid Unknow [] [] 0 ∅.
Definition setQuery (q : bytes) (r : t) := mk (method_ r) (version_ r) (path_ r) q (receive_time_ r) (headers_ r).
Definition setPath (p : bytes) (r : t) := mk (method_ r) (version_ r) p (query_ r) (receive_time_ r) (headers_ r).
Definition setVersion (v : Version) (r : t) := mk (method_ r) v (path_ r) (query_ r) (receive_time_ r) (headers_ r).
Definition setReceiveTime (t : Timestamp.t) (r : Request.t) :=
  mk (method_ r) (version_ r) (path_ r) (query_ r) t (headers_ r).

Definition method_of (m : bytes) : Method :=
  if bool_decide (m = lit "GET") then Get
  else if bool_decide (m = lit "POST") then Post
  else if bool_decide (m = lit "HEAD") then Head
  else if bool_decide (m = lit "PUT") then Put
  else if bool_decide (m = lit "DELETE") then Delete
  else Invalid.

Definition setMethod (m : bytes) (r : t) : outcome (t * bool) :=
  assert_ (bool_decide (method_ r = Invalid));;
  let method := method_of m in
  mret (mk method (version_ r) (path_ r) (query_ r) (receive_time_ r) (headers_ r),
        bool_decide (method ≠ Invalid)).

Definition methodString (m : Method) : bytes :=
  match m with
  | Get => lit "GET" | Post => lit "POST" | Head => lit "HEAD" | Put => lit "PUT"
  | Delete => lit "DELETE" | Invalid => lit "UNKNOW"
  end.

(** The two trimming loops of [addHeader]. *)
Definition trim (value : bytes) : bytes := rev (skip_spaces (rev (skip_spaces value))).
Definition addHeader (field value : bytes) (r : t) : t :=
  mk (method_ r) (version_ r) (path_ r) (query_ r) (receive_time_ r) (<[field := trim value]> (headers_ r)).
Definition getHeader (field : bytes) (r : t) : bytes := default [] (headers_ r !! field).
End Request.

Module ContextParse.
Import Request.
Inductive ContextParseState : Type := ExceptRequestLine | ExceptHeader | ExceptBody | GotAll.
Global Instance ContextParseState_eq_dec : EqDecision ContextParseState.
Proof. solve_decision. Defined.

Record t : Type := mk { state_ : ContextParseState; request_ : Request.t }.
Definition init : t := mk ExceptRequestLine Request.init.
Definition gotAll (c : t) : bool := bool_decide (state_ c = GotAll).
Definition reset (c : t) : t := init.

(** The version part of the request line: eight bytes, [HTTP/1.0] or [HTTP/1.1]. *)
Definition parse_version (s : bytes) (r : Request.t) : Request.t * bool :=
  if bool_decide (len s = 8) && bool_decide (take 7 s = lit "HTTP/1.") then
    match last s with
    | Some "1"%char => (setVersion Http11 r, true)
    | Some "0"%char => (setVersion Http10 r, true)
    | _ => (r, false)
    end
  else (r, false).

(** The request is changed as parsing goes, also when it fails. *)
Definition processRequestLine (line : bytes) (r : Request.t) : outcome (Request.t * bool) :=
  match split_at " "%char line with
  | (_, None) => mret (r, false)
  | (method, Some rest) =>
      '(r, ok) ← setMethod method r;
      if (ok : bool) then
        match split_at " "%char rest with
        | (_, None) => mret (r, false)
        | (target, Some version) =>
            let r := match split_at "?"%char target with
                     | (path, Some query) => setQuery ("?"%char :: query) (setPath path r)
                     | (_, None) => setPath target r
                     end in
            mret (parse_version version r)
        end
      else mret (r, false)
  end.

(** One round of the loop: the context, the buffer, [ok], [has_more]. *)
Definition parse_round (receive_time : Timestamp.t) (c : t) (buf : Buffer.t)
    : outcome (t * Buffer.t * bool * bool) :=
  match state_ c with
  | ExceptRequestLine =>
      match Buffer.findCRLF buf with
      | Some crlf =>
          let line := slice (Buffer.buffer_ buf) (Buffer.peek buf) (crlf - Buffer.peek buf) in
          '(r, ok) ← processRequestLine line (request_ c);
          if (ok : bool) then
            buf ← Buffer.retrieveUntil buf (crlf + 2);
            mret (mk ExceptHeader (setReceiveTime receive_time r), buf, true, true)
          else mret (mk ExceptRequestLine r, buf, false, false)
      | None => mret (c, buf, true, false)
      end
  | ExceptHeader =>
      match Buffer.findCRLF buf with
      | Some crlf =>
          let line := slice (Buffer.buffer_ buf) (Buffer.peek buf) (crlf - Buffer.peek buf) in
          let '(c, has_more) :=
            match split_at ":"%char line with
            | (field, Some value) => (mk ExceptHeader (addHeader field value (request_ c)), true)
            | (_, None) => (mk GotAll (request_ c), false)
            end in
          buf ← Buffer.retrieveUntil buf (crlf + 2);
          mret (c, buf, true, has_more)
      | None => mret (c, buf, true, false)
      end
  | ExceptBody => mret (mk GotAll (request_ c), buf, true, false)
  | GotAll => mret (c, buf, true, true)
  end.

(** [None]: the loop has not ended within [fuel] rounds. *)
Fixpoint parseRequest (fuel : nat) (receive_time : Timestamp.t) (c : t) (buf : Buffer.t)
    : outcome (option (t * Buffer.t * bool)) :=
  match fuel with
  | O => mret None
  | S fuel =>
      '(c, buf, ok, has_more) ← parse_round receive_time c buf;
      if (has_more : bool) then parseRequest fuel receive_time c buf else mret (Some (c, buf, ok))
  end.
End ContextParse.

Module Response.
Record t : Type := mk {
  headers_ : headers;
  status_code_ : Z;
  status_message_ : bytes;
  close_connection_ : bool;
  body_ : bytes;
}.
Definition init (close : bool) : t := mk ∅ 0 [] close [].
Definition setStatusCode (c : Z) (r : t) := mk (headers_ r) c (status_message_ r) (close_connection_ r) (body_ r).
Definition setStatusMessage (m : bytes) (r : t) := mk (headers_ r) (status_code_ r) m (close_connection_ r) (body_ r).
Definition setCloseConnection (on : bool) (r : t) := mk (headers_ r) (status_code_ r) (status_message_ r) on (body_ r).
Definition addHeader (k v : bytes) (r : t) :=
  mk (<[k := v]> (headers_ r)) (status_code_ r) (status_message_ r) (close_connection_ r) (body_ r).
Definition setContentType (ct : bytes) (r : t) := addHeader (lit "Content-Type") ct r.
Definition setBody (b : bytes) (r : t) := mk (headers_ r) (status_code_ r) (status_message_ r) (close_connection_ r) b.

Definition CRLF : bytes := Buffer.kCRLF.

(** [snprintf(buf, 32, ...)]: at most 31 characters. *)
Definition snprintf32 (text : bytes) : bytes := take 31 text.

Definition appendToBuffer (order : list (bytes * bytes)) (r : t) (output : Buffer.t) : outcome Buffer.t :=
  code ← convert (status_code_ r);
  output ← Buffer.append output (snprintf32 (lit "HTTP/1.1 " ++ code));
  output ← Buffer.append output (status_message_ r);
  output ← Buffer.append output CRLF;
  output ← (if close_connection_ r then Buffer.append output (lit "Connection: close" ++ CRLF)
            else
              size ← convert (len (body_ r));
              output ← Buffer.append output (snprintf32 (lit "Content-Lenght: " ++ size ++ CRLF));
              Buffer.append output (lit "Connection: Keep-Alive" ++ CRLF));
  output ← run_all (fun output (h : bytes * bytes) =>
              output ← Buffer.append output h.1;
              output ← Buffer.append output (lit ": ");
              output ← Buffer.append output h.2;
              Buffer.append output CRLF) output order;
  output ← Buffer.append output CRLF;
  Buffer.append output (body_ r).
End Response.

(** ** The server's handlers *)
Module Server.

(** What a handler asks of its connection and of the idle timer. *)
Inductive effect : Type :=
  | Send (data : bytes)
  | Shutdown
  | TouchTimer.

(** [HttpRequest], given the text of the current time and the loaded image. *)
Definition HttpRequest (now image : bytes) (req : Request.t) (resp : Response.t) : Response.t :=
  let ok content_type body :=
    Response.setBody body (Response.addHeader (lit "Server") (lit "Naive Server")
      (Response.setContentType content_type
         (Response.setStatusMessage (lit "OK") (Response.setStatusCode 200 resp)))) in
  if bool_decide (Request.path_ req = lit "/") then
    ok (lit "text/html")
      (lit "<html><head><title>This is a test page for Naive Server</title></head><body><h1>Welcome to Naive Server</h1>Now is "
       ++ now ++ lit "<img src=" ++ ["034"%char] ++ lit "http://192.168.3.148:8000/image.jpg" ++ ["034"%char]
       ++ lit "></body></html>")
  else if bool_decide (Request.path_ req = lit "/image.jpg") then ok (lit "image/jpg") image
  else if bool_decide (Request.path_ req = lit "/hello") then
    ok (lit "text/plain") (lit "Hello, world!" ++ ["010"%char])
  else Response.setCloseConnection true
         (Response.setStatusMessage (lit "Not Found") (Response.setStatusCode 404 resp)).

Definition is_short_link (req : Request.t) : bool :=
  let connection := Request.getHeader (lit "Connection") req in
  bool_decide (connection = lit "close") ||
  (bool_decide (Request.version_ req = Request.Http10) && negb (bool_decide (connection = lit "Keep-Alive"))).

(** [callback] is [http_callback_]; [fresh] the local [Buffer]; [order] the
    iteration order of the response's headers. *)
Definition onRequest (callback : Request.t -> Response.t -> Response.t) (order : headers -> list (bytes * bytes))
    (fresh : Buffer.t) (use_timer alive : bool) (req : Request.t) : outcome (list effect) :=
  let response := callback req (Response.init (is_short_link req)) in
  buf ← Response.appendToBuffer (order (Response.headers_ response)) response fresh;
  mret (Send (Buffer.content buf) ::
        if Response.close_connection_ response then [Shutdown]
        else if use_timer && alive then [TouchTimer] else []).

Definition bad_request : bytes := lit "HTTP/1.1 400 Bad Request" ++ Buffer.kCRLF ++ Buffer.kCRLF.

Definition onMessage (fuel : nat) (callback : Request.t -> Response.t -> Response.t)
    (order : headers -> list (bytes * bytes)) (fresh : Buffer.t) (use_timer alive : bool)
    (receive_time : Timestamp.t) (context : ContextParse.t) (buf : Buffer.t)
    : outcome (option (ContextParse.t * Buffer.t * list effect)) :=
  r ← ContextParse.parseRequest fuel receive_time context buf;
  match r with
  | None => mret None
  | Some (context, buf, ok) =>
      let bad := if (ok : bool) then [] else [Send bad_request; Shutdown] in
      if ContextParse.gotAll context then
        effects ← onRequest callback order fresh use_timer alive (ContextParse.request_ context);
        mret (Some (ContextParse.reset context, buf, bad ++ effects))
      else mret (Some (context, buf, bad))
  end.
End Server.

(** ** Specification: the parser on byte strings *)
Module HttpSpec.
Import Request ContextParse.

Definition round (receive_time : Timestamp.t) (c : t) (s : bytes) : outcome (t * bytes * bool * bool) :=
  match state_ c with
  | ExceptRequestLine =>
      match search2 Buffer.CR Buffer.LF s with
      | Some i =>
          '(r, ok) ← processRequestLine (take (Z.to_nat i) s) (request_ c);
          if (ok : bool)
          then mret (mk ExceptHeader (setReceiveTime receive_time r), drop (Z.to_nat (i + 2)) s, true, true)
          else mret (mk ExceptRequestLine r, s, false, false)
      | None => mret (c, s, true, false)
      end
  | ExceptHeader =>
      match search2 Buffer.CR Buffer.LF s with
      | Some i =>
          match split_at ":"%char (take (Z.to_nat i) s) with
          | (field, Some value) =>
              mret (mk ExceptHeader (addHeader field value (request_ c)), drop (Z.to_nat (i + 2)) s, true, true)
          | (_, None) => mret (mk GotAll (request_ c), drop (Z.to_nat (i + 2)) s, true, false)
          end
      | None => mret (c, s, true, false)
      end
  | ExceptBody => mret (mk GotAll (request_ c), s, true, false)
  | GotAll => mret (c, s, true, true)
  end.

Fixpoint parse (fuel : nat) (receive_time : Timestamp.t) (c : t) (s : bytes) : outcome (option (t * bytes * bool)) :=
  match fuel with
  | O => mret None
  | S fuel =>
      '(c, s, ok, has_more) ← round receive_time c s;
      if (has_more : bool) then parse fuel receive_time c s else mret (Some (c, s, ok))
  end.

(** Rounds that are always enough. *)
Definition enough (s : bytes) : nat := S (length s).
Definition parse_all (receive_time : Timestamp.t) (c : t) (s : bytes) := parse (enough s) receive_time c s.

(** The text of a request. *)
Definition print_version (v : Version) : bytes :=
  match v with Http11 => lit "HTTP/1.1" | _ => lit "HTTP/1.0" end.
Definition print_header (h : bytes * bytes) : bytes := h.1 ++ lit ": " ++ h.2 ++ Buffer.kCRLF.
Definition print_request (m : Method) (path query : bytes) (v : Version) (hs : list (bytes * bytes)) : bytes :=
  (methodString m ++ lit " " ++ (path ++ query) ++ lit " " ++ print_version v) ++ Buffer.kCRLF ++
  concat (print_header <$> hs) ++ Buffer.kCRLF.

Definition header_ok (h : bytes * bytes) : Prop :=
  (Buffer.CR ∉ h.1) /\ (":"%char ∉ h.1) /\ (Buffer.CR ∉ h.2) /\ trim h.2 = h.2.
Record request_ok (m : Method) (path query : bytes) (v : Version) (hs : list (bytes * bytes)) : Prop := {
  rq_method : m <> Invalid;
  rq_path : (Buffer.CR ∉ path) /\ (" "%char ∉ path) /\ ("?"%char ∉ path);
  rq_query : query = [] \/ exists q, query = "?"%char :: q /\ (Buffer.CR ∉ q) /\ (" "%char ∉ q);
  rq_version : v <> Unknow;
  rq_headers : Forall header_ok hs;
}.
Definition header_map (hs : list (bytes * bytes)) : headers :=
  foldl (fun m h => <[h.1 := h.2]> m) ∅ hs.

(** Messages that arrive one after the other, until the parser has a request or
    rejects the input; the messages not yet read come back. *)
Fixpoint feed (c : t) (b : Buffer.t) (messages : list (Timestamp.t * bytes))
    : outcome (option (t * Buffer.t * bool * list (Timestamp.t * bytes))) :=
  match messages with
  | [] => mret (Some (c, b, true, []))
  | (time, d) :: messages =>
      b ← Buffer.append b d;
      r ← parseRequest (enough (Buffer.content b)) time c b;
      match r with
      | None => mret None
      | Some (c, b, ok) =>
          if gotAll c || negb ok then mret (Some (c, b, ok, messages)) else feed c b messages
      end
  end.

(** The context without its receive time. *)
Definition forget (c : t) : t := mk (state_ c) (setReceiveTime 0 (request_ c)).

(** A response, with the texts of its status code and of its length. *)
Definition response_text (code size : bytes) (order : list (bytes * bytes)) (r : Response.t) : bytes :=
  lit "HTTP/1.1 " ++ code ++ Response.status_message_ r ++ Buffer.kCRLF ++
  (if Response.close_connection_ r then lit "Connection: close" ++ Buffer.kCRLF
   else lit "Content-Lenght: " ++ size ++ Buffer.kCRLF ++ lit "Connection: Keep-Alive" ++ Buffer.kCRLF) ++
  concat (print_header <$> order) ++ Buffer.kCRLF ++ Response.body_ r.
End HttpSpec.

(** ** Lemmas *)
Module HttpFacts.
Import Request ContextParse HttpSpec.
Import Buffer (CR, LF).

Lemma search2_bound a b s i : search2 a b s = Some i -> 0 <= i /\ (Z.to_nat i + 2 <= length s)%nat.
Proof.
  intros (l1 & l2 & -> & <- & _)%BufferFacts.search2_Some. unfold len. rewrite length_app. simpl. lia.
Qed.

(** Appending does not move the first match. *)
Lemma search2_app a b s more i : search2 a b s = Some i -> search2 a b (s ++ more) = Some i.
Proof.
  intros (l1 & l2 & -> & <- & Hn)%BufferFacts.search2_Some. rewrite <-app_assoc. simpl.
  by apply BufferFacts.search2_first.
Qed.

Lemma split_at_found c a b : c ∉ a -> split_at c (a ++ c :: b) = (a, Some b).
Proof.
  induction a as [|x a IH]; intros Hn; simpl; [by rewrite bool_decide_eq_true_2|].
  rewrite bool_decide_eq_false_2 by set_solver. rewrite IH by set_solver. done.
Qed.

Lemma split_at_absent c a : c ∉ a -> split_at c a = (a, None).
Proof.
  induction a as [|x a IH]; intros Hn; simpl; [done|].
  rewrite bool_decide_eq_false_2 by set_solver. rewrite IH by set_solver. done.
Qed.

Lemma search2_line line rest : CR ∉ line -> search2 CR LF (line ++ CR :: LF :: rest) = Some (len line).
Proof.
  intros Hn. apply BufferFacts.search2_first. intros (l1 & l2 & Hl).
  apply (f_equal (fun l => l !! length l1)) in Hl as H1.
  apply (f_equal (fun l => l !! S (length l1))) in Hl as H2.
  rewrite (list_lookup_middle l1) in H1 by done.
  change (l1 ++ CR :: LF :: l2) with (l1 ++ [CR] ++ LF :: l2) in H2. rewrite app_assoc in H2.
  rewrite (list_lookup_middle (l1 ++ [CR])) in H2 by (rewrite length_app; simpl; lia).
  apply lookup_app_Some in H1 as [H1|[Hge H1]].
  - apply Hn. by eapply list_elem_of_lookup_2.
  - apply lookup_lt_Some in H2. rewrite length_app in H2. simpl in H2. lia.
Qed.

(** *** The loop on a [Buffer] is the loop on its readable bytes *)
Lemma line_content b i : Buffer.wf b -> 0 <= i <= len (Buffer.content b) ->
  slice (Buffer.buffer_ b) (Buffer.peek b) (Buffer.peek b + i - Buffer.peek b) = take (Z.to_nat i) (Buffer.content b).
Proof.
  intros Hwf Hi. replace (Buffer.peek b + i - Buffer.peek b) with i by lia. by apply BufferFacts.slice_content.
Qed.

Lemma take_line_content b i :
  Buffer.wf b -> search2 CR LF (Buffer.content b) = Some i ->
  slice (Buffer.buffer_ b) (Buffer.peek b) (Buffer.peek b + i - Buffer.peek b) = take (Z.to_nat i) (Buffer.content b) /\
  exists b', Buffer.retrieveUntil b (Buffer.peek b + i + 2) ⇓ b' /\ Buffer.wf b' /\
    Buffer.content b' = drop (Z.to_nat (i + 2)) (Buffer.content b).
Proof.
  intros Hwf Hi. apply search2_bound in Hi as [H0 H2]. split; [apply line_content; [done|unfold len; lia]|].
  replace (Buffer.peek b + i + 2) with (Buffer.peek b + (i + 2)) by lia.
  apply BufferFacts.retrieveUntil_spec; [done|]. unfold len. lia.
Qed.

Lemma parse_round_content t c b :
  Buffer.wf b ->
  match round t c (Buffer.content b) with
  | Done (c', s', ok, more) => exists b', parse_round t c b ⇓ (c', b', ok, more) /\ Buffer.wf b' /\ Buffer.content b' = s'
  | Fault f => parse_round t c b ↯ f
  end.
Proof.
  intros Hwf. unfold round, parse_round. rewrite BufferFacts.findCRLF_content.
  destruct (state_ c).
  - destruct (search2 _ _ _) as [i|] eqn:Hs; simpl; [|by eauto].
    destruct (take_line_content b i Hwf Hs) as [-> (b' & Hr & ? & ?)].
    destruct (processRequestLine _ _) as [[r ok]|f]; simpl; [|done].
    destruct ok; simpl; [rewrite Hr; simpl|]; eauto.
  - destruct (search2 _ _ _) as [i|] eqn:Hs; simpl; [|by eauto].
    destruct (take_line_content b i Hwf Hs) as [-> (b' & Hr & ? & ?)].
    destruct (split_at _ _) as [field [value|]]; simpl; rewrite Hr; simpl; eauto.
  - simpl. eauto.
  - simpl. eauto.
Qed.

Lemma parse_content fuel t c b :
  Buffer.wf b ->
  match parse fuel t c (Buffer.content b) with
  | Done (Some (c', s', ok)) =>
      exists b', parseRequest fuel t c b ⇓ (Some (c', b', ok)) /\ Buffer.wf b' /\ Buffer.content b' = s'
  | Done None => parseRequest fuel t c b ⇓ None
  | Fault f => parseRequest fuel t c b ↯ f
  end.
Proof.
  revert c b. induction fuel as [|fuel IH]; intros c b Hwf; [done|]. cbn [parse parseRequest].
  pose proof (parse_round_content t c b Hwf) as Hr.
  destruct (round t c (Buffer.content b)) as [[[[c' s'] ok] more]|f]; [|by rewrite Hr].
  destruct Hr as (b' & -> & Hwf' & Hc'). simpl. destruct more; [|simpl; eauto].
  rewrite <-Hc'. by apply IH.
Qed.

(** *** Termination *)
Lemma round_decreases t c s c' s' ok :
  state_ c <> GotAll -> round t c s ⇓ (c', s', ok, true) ->
  (length s' < length s)%nat /\ state_ c' <> GotAll.
Proof.
  intros Hc. unfold round. destruct (state_ c) eqn:Hst; [| |done|done].
  - destruct (search2 _ _ _) as [i|] eqn:Hs; [|done]. apply search2_bound in Hs.
    destruct (processRequestLine _ _) as [[r []]|f]; simpl; try done. intros [= <- <- <-].
    rewrite length_drop. split; [lia|done].
  - destruct (search2 _ _ _) as [i|] eqn:Hs; [|done]. apply search2_bound in Hs.
    destruct (split_at _ _) as [field [value|]]; simpl; try done. intros [= <- <- <-].
    rewrite length_drop. split; [lia|done].
Qed.

Lemma parse_terminates t fuel c s :
  state_ c <> GotAll -> (length s < fuel)%nat -> parse fuel t c s <> Done None.
Proof.
  revert c s. induction fuel as [|fuel IH]; intros c s Hc Hf; [lia|]. cbn [parse].
  destruct (round t c s) as [[[[c' s'] ok] [|]]|f] eqn:Hr; simpl; try done.
  apply round_decreases in Hr as [Hlt Hc']; [|done]. apply IH; [done|lia].
Qed.

(** More fuel changes nothing. *)
Lemma parse_more t fuel fuel' c s :
  parse fuel t c s <> Done None -> (fuel <= fuel')%nat -> parse fuel' t c s = parse fuel t c s.
Proof.
  revert fuel' c s. induction fuel as [|fuel IH]; intros fuel' c s Hn Hle; [done|].
  destruct fuel' as [|fuel']; [lia|]. cbn [parse] in *.
  destruct (round t c s) as [[[[c' s'] ok] [|]]|f]; simpl in *; try done. apply IH; [done|lia].
Qed.

Lemma parse_enough t fuel c s :
  state_ c <> GotAll -> (length s < fuel)%nat -> parse fuel t c s = parse_all t c s.
Proof.
  intros Hc Hf. unfold parse_all, enough. apply parse_more; [|lia]. apply parse_terminates; [done|lia].
Qed.

(** *** Bytes that arrive later *)
Lemma round_app t c s more :
  state_ c <> GotAll -> state_ c <> ExceptBody ->
  match round t c s with
  | Done (c', s', ok, true) => round t c (s ++ more) ⇓ (c', s' ++ more, ok, true)
  | Done (c', s', ok, false) =>
      if ok then (c' = c /\ s' = s) \/ (state_ c' = GotAll /\ round t c (s ++ more) ⇓ (c', s' ++ more, ok, false))
      else round t c (s ++ more) ⇓ (c', s' ++ more, ok, false)
  | Fault f => round t c (s ++ more) ↯ f
  end.
Proof.
  intros Hg Hb. unfold round. destruct (state_ c) eqn:Hst; try done.
  - destruct (search2 CR LF s) as [i|] eqn:Hs; [|by left].
    rewrite (search2_app _ _ _ _ _ Hs). apply search2_bound in Hs as [H0 H2].
    rewrite take_app_le by lia. rewrite drop_app_le by lia.
    destruct (processRequestLine _ _) as [[r []]|f]; simpl; done.
  - destruct (search2 CR LF s) as [i|] eqn:Hs; [|by left].
    rewrite (search2_app _ _ _ _ _ Hs). apply search2_bound in Hs as [H0 H2].
    rewrite take_app_le by lia. rewrite drop_app_le by lia.
    destruct (split_at _ _) as [field [value|]]; simpl; [done|]. by right.
Qed.

Lemma round_not_body t c s c' s' ok more :
  round t c s ⇓ (c', s', ok, more) -> state_ c <> ExceptBody -> state_ c' <> ExceptBody.
Proof.
  unfold round. destruct (state_ c) eqn:Hst; intros Hr Hb; try done.
  - destruct (search2 _ _ _); [|injection Hr as <- _ _ _; congruence].
    destruct (processRequestLine _ _) as [[r []]|f]; simpl in Hr; [| |done]; by injection Hr as <- _ _ _.
  - destruct (search2 _ _ _); [|injection Hr as <- _ _ _; congruence].
    destruct (split_at _ _) as [field [value|]]; by injection Hr as <- _ _ _.
  - injection Hr as <- _ _ _. congruence.
Qed.

(** [parse_all] one round at a time. *)
Lemma parse_all_round t c s :
  state_ c <> GotAll ->
  parse_all t c s =
    '(c', s', ok, has_more) ← round t c s;
    if (has_more : bool) then parse_all t c' s' else mret (Some (c', s', ok)).
Proof.
  intros Hc. unfold parse_all at 1, enough. cbn [parse].
  destruct (round t c s) as [[[[c' s'] ok] [|]]|f] eqn:Hr; simpl; try done.
  apply round_decreases in Hr as [Hlt Hc']; [|done]. by apply parse_enough.
Qed.

Lemma parse_all_app t s more : forall c c1 s1 ok,
  state_ c <> GotAll -> state_ c <> ExceptBody -> parse_all t c s ⇓ (Some (c1, s1, ok)) ->
  parse_all t c (s ++ more) =
    if ok then if gotAll c1 then Done (Some (c1, s1 ++ more, true)) else parse_all t c1 (s1 ++ more)
    else Done (Some (c1, s1 ++ more, false)).
Proof.
  remember (length s) as n eqn:Hn. revert s Hn. induction (lt_wf n) as [n _ IH]. intros s -> c c1 s1 ok Hg Hb Hp.
  rewrite parse_all_round in Hp |- * by done. pose proof (round_app t c s more Hg Hb) as Hr.
  destruct (round t c s) as [[[[c' s'] ok'] [|]]|f] eqn:He; simpl in Hp; [| |done].
  - rewrite Hr. simpl. pose proof (round_not_body _ _ _ _ _ _ _ He Hb).
    apply round_decreases in He as [Hlt Hc']; [|done]. by eapply (IH (length s')).
  - injection Hp as -> -> ->. destruct ok.
    + destruct Hr as [[-> ->]|[Hall Hr]].
      * unfold gotAll. rewrite bool_decide_eq_false_2 by done. by rewrite (parse_all_round t c (s ++ more)).
      * unfold gotAll. rewrite bool_decide_eq_true_2 by done. by rewrite Hr.
    + by rewrite Hr.
Qed.

Lemma parse_all_app_fault t s more f : forall c,
  state_ c <> GotAll -> state_ c <> ExceptBody -> parse_all t c s ↯ f -> parse_all t c (s ++ more) ↯ f.
Proof.
  remember (length s) as n eqn:Hn. revert s Hn. induction (lt_wf n) as [n _ IH]. intros s -> c Hg Hb Hp.
  rewrite parse_all_round in Hp |- * by done. pose proof (round_app t c s more Hg Hb) as Hr.
  destruct (round t c s) as [[[[c' s'] ok'] [|]]|f'] eqn:He; simpl in Hp; [|done|].
  - rewrite Hr. simpl. pose proof (round_not_body _ _ _ _ _ _ _ He Hb).
    apply round_decreases in He as [Hlt Hc']; [|done]. by eapply (IH (length s')).
  - injection Hp as ->. by rewrite Hr.
Qed.

Lemma round_length t c s c' s' ok more : round t c s ⇓ (c', s', ok, more) -> (length s' <= length s)%nat.
Proof.
  unfold round. destruct (state_ c); try (by intros [= _ <- _ _]).
  - destruct (search2 _ _ _) as [i|]; [|by intros [= _ <- _ _]].
    destruct (processRequestLine _ _) as [[r []]|f]; simpl; [|by intros [= _ <- _ _]|done].
    intros [= _ <- _ _]. rewrite length_drop. lia.
  - destruct (search2 _ _ _) as [i|]; [|by intros [= _ <- _ _]].
    destruct (split_at _ _) as [f [v|]]; intros [= _ <- _ _]; rewrite length_drop; lia.
Qed.

Lemma parse_length t fuel c s c' s' ok :
  parse fuel t c s ⇓ (Some (c', s', ok)) -> (length s' <= length s)%nat.
Proof.
  revert c s. induction fuel as [|fuel IH]; intros c s Hp; [done|]. cbn [parse] in Hp.
  destruct (round t c s) as [[[[c1 s1] ok1] [|]]|f] eqn:Hr; simpl in Hp; [| |done]; apply round_length in Hr.
  - apply IH in Hp. lia.
  - by injection Hp as _ -> _.
Qed.

(** *** Well-formed requests *)
Lemma take_line (line rest : bytes) : take (Z.to_nat (len line)) (line ++ rest) = line.
Proof. unfold len. rewrite Nat2Z.id. by rewrite take_app_length. Qed.

Lemma drop_line (line rest : bytes) : drop (Z.to_nat (len line + 2)) (line ++ CR :: LF :: rest) = rest.
Proof.
  unfold len. replace (Z.to_nat (Z.of_nat (length line) + 2)) with (length line + 2)%nat by lia.
  by rewrite drop_app_add'.
Qed.

(** A complete line in front of the parser. *)
Lemma round_request_line t r line rest r' :
  CR ∉ line -> processRequestLine line r ⇓ (r', true) ->
  round t (mk ExceptRequestLine r) (line ++ CR :: LF :: rest) =
    Done (mk ExceptHeader (setReceiveTime t r'), rest, true, true).
Proof.
  intros Hn Hp. unfold round. simpl. rewrite search2_line by done. rewrite take_line, Hp. simpl.
  by rewrite drop_line.
Qed.

Lemma round_header t r line rest field value :
  CR ∉ line -> split_at ":"%char line = (field, Some value) ->
  round t (mk ExceptHeader r) (line ++ CR :: LF :: rest) =
    Done (mk ExceptHeader (addHeader field value r), rest, true, true).
Proof.
  intros Hn Hp. unfold round. simpl. rewrite search2_line by done. rewrite take_line, Hp. simpl.
  by rewrite drop_line.
Qed.

Lemma round_blank t r rest :
  round t (mk ExceptHeader r) (CR :: LF :: rest) ⇓ (mk GotAll r, rest, true, false).
Proof.
  change (CR :: LF :: rest) with ([] ++ CR :: LF :: rest). unfold round. cbn [state_].
  rewrite search2_line by set_solver. done.
Qed.

Lemma method_round_trip m : m <> Invalid -> method_of (methodString m) = m.
Proof. by destruct m. Qed.

Lemma methodString_clean m : (CR ∉ methodString m) /\ (" "%char ∉ methodString m).
Proof. destruct m; split; by_computation. Qed.

Lemma parse_version_ok v r : v <> Unknow -> parse_version (print_version v) r = (setVersion v r, true).
Proof. by destruct v. Qed.

Lemma split_target path query :
  "?"%char ∉ path -> (query = [] \/ exists q, query = "?"%char :: q) ->
  forall r, match split_at "?"%char (path ++ query) with
  | (p, Some q) => setQuery ("?"%char :: q) (setPath p r)
  | (_, None) => setPath (path ++ query) r
  end = if decide (query = []) then setPath path r else setQuery query (setPath path r).
Proof.
  intros Hp [->|[q ->]] r.
  - rewrite app_nil_r, split_at_absent by done. done.
  - by rewrite split_at_found.
Qed.

Lemma processRequestLine_ok m path query v r :
  method_ r = Invalid -> query_ r = [] -> m <> Invalid -> v <> Unknow ->
  (" "%char ∉ path) -> ("?"%char ∉ path) -> (query = [] \/ exists q, query = "?"%char :: q /\ (" "%char ∉ q)) ->
  processRequestLine (methodString m ++ lit " " ++ (path ++ query) ++ lit " " ++ print_version v) r =
    Done (Request.mk m v path query (receive_time_ r) (headers_ r), true).
Proof.
  intros Hm Hq Hmi Hv Hp1 Hp2 Hquery. unfold processRequestLine.
  change (lit " " ++ (path ++ query) ++ lit " " ++ print_version v)
    with (" "%char :: (path ++ query) ++ " "%char :: print_version v).
  rewrite split_at_found by apply methodString_clean.
  unfold setMethod. rewrite (bool_decide_eq_true_2 (method_ r = Invalid)) by done. simpl.
  rewrite method_round_trip by done. rewrite bool_decide_eq_true_2 by done. simpl.
  rewrite split_at_found.
  2: { destruct Hquery as [->|(q & -> & Hq2)]; [by rewrite app_nil_r|]. rewrite elem_of_app, elem_of_cons.
       intros [?|[?|?]]; [done|congruence|done]. }
  rewrite split_target by (done || naive_solver). rewrite parse_version_ok by done. do 3 f_equal.
  destruct r. simpl in *. subst. case_decide as Hz; [by rewrite Hz|done].
Qed.

Lemma skip_spaces_space v : skip_spaces (" "%char :: v) = skip_spaces v.
Proof. done. Qed.

(** The headers, up to and including the blank line. *)
Lemma parse_headers t hs r rest :
  Forall header_ok hs ->
  parse_all t (mk ExceptHeader r) (concat (print_header <$> hs) ++ CR :: LF :: rest) =
    Done (Some (mk GotAll (Request.mk (method_ r) (version_ r) (path_ r) (query_ r) (receive_time_ r)
      (foldl (fun m h => <[h.1 := h.2]> m) (headers_ r) hs)), rest, true)).
Proof.
  intros Hok. revert r. induction Hok as [|[f v] hs (Hf & Hcolon & Hv & Htrim) _ IH]; intros r.
  - change (concat (print_header <$> []) ++ CR :: LF :: rest) with (CR :: LF :: rest).
    rewrite parse_all_round by done. rewrite round_blank. simpl. by destruct r.
  - cbn [fst snd] in *.
    assert (concat (print_header <$> (f, v) :: hs) ++ CR :: LF :: rest =
      (f ++ ":"%char :: " "%char :: v) ++ CR :: LF :: (concat (print_header <$> hs) ++ CR :: LF :: rest)) as ->.
    { rewrite fmap_cons. cbn [concat]. unfold print_header at 1. cbn [fst snd]. by rewrite <-!app_assoc. }
    rewrite parse_all_round by done.
    rewrite (round_header t r (f ++ ":"%char :: " "%char :: v) _ f (" "%char :: v)).
    + simpl. rewrite IH. unfold addHeader. simpl. unfold trim. rewrite skip_spaces_space.
      fold (trim v). by rewrite Htrim.
    + rewrite elem_of_app, !elem_of_cons. intros [?|[?|[?|?]]]; [done|discriminate|discriminate|done].
    + by apply split_at_found.
Qed.

Lemma parse_request_text t m path query v hs rest :
  request_ok m path query v hs ->
  parse_all t init (print_request m path query v hs ++ rest) =
    Done (Some (mk GotAll (Request.mk m v path query t (header_map hs)), rest, true)).
Proof.
  intros [Hm (Hp1 & Hp2 & Hp3) Hq Hv Hh]. unfold print_request.
  set (line := methodString m ++ _). set (hdrs := concat _).
  assert ((line ++ Buffer.kCRLF ++ hdrs ++ Buffer.kCRLF) ++ rest = line ++ CR :: LF :: (hdrs ++ CR :: LF :: rest))
    as -> by (by rewrite <-!app_assoc).
  assert (query = [] \/ exists q, query = "?"%char :: q /\ (" "%char ∉ q)) as Hq' by naive_solver.
  rewrite parse_all_round by done.
  rewrite (round_request_line t Request.init line _ (Request.mk m v path query 0 ∅)).
  - bind_step. unfold hdrs. rewrite parse_headers by done. done.
  - unfold line. pose proof (methodString_clean m) as [Hc _]. rewrite !elem_of_app.
    intros [?|[Hs|[[?|Hs]|[Hs|Hs]]]]; try done.
    + revert Hs. by_computation.
    + destruct Hq as [->|(q & -> & Hq1 & _)]; [by apply not_elem_of_nil in Hs|].
      apply elem_of_cons in Hs as [?|?]; done.
    + revert Hs. by_computation.
    + revert Hs. destruct v; by_computation.
  - unfold line. by rewrite processRequestLine_ok.
Qed.

(** *** The receive time plays no part in parsing *)
Lemma processRequestLine_forget line r :
  processRequestLine line (setReceiveTime 0 r) = prod_map (setReceiveTime 0) id <$> processRequestLine line r.
Proof.
  unfold processRequestLine, setMethod. destruct (split_at _ line) as [m [rest|]]; [|done]. simpl.
  destruct (bool_decide (method_ r = Invalid)); [|done]. simpl. destruct (bool_decide (method_of m ≠ Invalid)); [|done].
  destruct (split_at _ rest) as [target [version|]]; [|done]. simpl. f_equal.
  destruct (split_at "?"%char target) as [p [q|]]; unfold parse_version;
    (destruct (_ && _); [|done]); by repeat case_match.
Qed.

Lemma round_forget t c s :
  round 0 (forget c) s = (fun '(c', s', ok, more) => (forget c', s', ok, more)) <$> round t c s.
Proof.
  destruct c as [st r]. unfold round. simpl. destruct st; try done.
  - destruct (search2 _ _ _); [|done]. simpl. rewrite processRequestLine_forget.
    destruct (processRequestLine _ _) as [[r' []]|f]; done.
  - destruct (search2 _ _ _); [|done]. simpl. destruct (split_at _ _) as [f [v|]]; done.
Qed.

Definition forget_result (r : option (ContextParse.t * bytes * bool)) : option (ContextParse.t * bytes * bool) :=
  match r with Some (c, s, ok) => Some (forget c, s, ok) | None => None end.

Lemma parse_forget t fuel c s :
  parse fuel 0 (forget c) s = forget_result <$> parse fuel t c s.
Proof.
  revert c s. induction fuel as [|fuel IH]; intros c s; [done|]. cbn [parse].
  rewrite (round_forget t). destruct (round t c s) as [[[[c' s'] ok] [|]]|f]; simpl; [|done..].
  apply IH.
Qed.

(** *** Several messages *)
(** What the parser left unread, it cannot yet use. *)
Definition settled (c : t) (s : bytes) : Prop :=
  state_ c <> GotAll /\ state_ c <> ExceptBody /\ round 0 (forget c) s ⇓ (forget c, s, true, false).

Lemma settled_result t fuel c s c' s' :
  state_ c <> GotAll -> state_ c <> ExceptBody ->
  parse fuel t c s ⇓ (Some (c', s', true)) -> gotAll c' = false -> settled c' s'.
Proof.
  revert c s. induction fuel as [|fuel IH]; intros c s Hg Hb Hp Hn; [done|]. cbn [parse] in Hp.
  destruct (round t c s) as [[[[c1 s1] ok] [|]]|f] eqn:Hr; simpl in Hp; [| |done].
  - apply (IH c1 s1); [|by eapply round_not_body|done..]. by eapply round_decreases.
  - injection Hp as -> -> ->. pose proof (round_app t c s [] Hg Hb) as Ha. rewrite Hr in Ha.
    unfold gotAll in Hn. apply bool_decide_eq_false in Hn.
    destruct Ha as [[-> ->]|[? _]]; [|done]. split_and!; [done..|]. by rewrite (round_forget t), Hr.
Qed.

Lemma parse_all_forget t c s : parse_all 0 (forget c) s = forget_result <$> parse_all t c s.
Proof. apply parse_forget. Qed.

Lemma feed_parse messages : forall c b,
  Buffer.wf b -> settled c (Buffer.content b) ->
  len (Buffer.content b) + len (concat (snd <$> messages)) <= Buffer.cap ->
  match parse_all 0 (forget c) (Buffer.content b ++ concat (snd <$> messages)) with
  | Done (Some (c', s', ok)) => exists c1 b' left,
      feed c b messages ⇓ (Some (c1, b', ok, left)) /\ forget c1 = c' /\ Buffer.wf b' /\
      Buffer.content b' ++ concat (snd <$> left) = s'
  | Done None => False
  | Fault f => feed c b messages ↯ f
  end.
Proof.
  induction messages as [|[time d] messages IH]; intros c b Hwf (Hg & Hb & Hs) Hcap.
  { simpl. rewrite app_nil_r, parse_all_round by done. rewrite Hs. simpl.
    exists c, b, []. simpl. by rewrite app_nil_r. }
  rewrite fmap_cons in *. cbn [concat snd] in *. rewrite !len_app in Hcap.
  pose proof (len_nonneg (concat (snd <$> messages))).
  destruct (BufferFacts.append_spec b d) as (b1 & Hb1 & Hwf1 & Hc1); [done|lia|].
  cbn [feed]. rewrite Hb1. bind_step. rewrite app_assoc, <-Hc1.
  pose proof (parse_content (enough (Buffer.content b1)) time c b1 Hwf1) as Hp.
  fold (parse_all time c (Buffer.content b1)) in Hp.
  pose proof (parse_all_forget time c (Buffer.content b1)) as Hf.
  destruct (parse_all time c _) as [[[[c1 s1] ok]|]|f] eqn:Ht; simpl in Hf.
  - destruct Hp as (b2 & -> & Hwf2 & Hc2). bind_step.
    rewrite (parse_all_app 0 _ (concat (snd <$> messages)) (forget c) _ _ _ Hg Hb Hf). change (gotAll (forget c1)) with (gotAll c1).
    destruct ok; [destruct (gotAll c1) eqn:Hall|]; simpl;
      [by eexists _, _, _; split_and!; [done..|by rewrite Hc2]| |
       rewrite orb_true_r; by eexists _, _, _; split_and!; [done..|by rewrite Hc2]].
    rewrite <-Hc2. apply IH; [done|rewrite Hc2; by eapply settled_result|].
    apply parse_length in Ht. rewrite <-Hc2, Hc1 in Ht. rewrite length_app in Ht. unfold len in *. lia.
  - exfalso. revert Ht. apply parse_terminates; [done|unfold enough; lia].
  - rewrite (parse_all_app_fault 0 _ _ _ (forget c) Hg Hb Hf). by rewrite Hp.
Qed.

(** *** Responses *)
Lemma snprintf32_fits text : (length text <= 31)%nat -> Response.snprintf32 text = text.
Proof. intros. by apply take_ge. Qed.

(** Perform the next [append], whose room the context gives. *)
Ltac unfold_content :=
  repeat match goal with H : Buffer.content ?b = _ |- context [Buffer.content ?b] => rewrite H end.
Ltac append_step :=
  match goal with
  | |- context [Buffer.append ?b ?d] =>
      let b' := fresh "b" in let Hwf := fresh "Hwf" in let Hc := fresh "Hc" in
      destruct (BufferFacts.append_spec b d) as (b' & -> & Hwf & Hc);
      [done|unfold_content; rewrite ?len_app in *; lia|bind_step]
  end.

(** The header loop of [appendToBuffer]. *)
Lemma append_headers order : forall b,
  Buffer.wf b -> len (Buffer.content b) + len (concat (print_header <$> order)) <= Buffer.cap ->
  exists b', run_all (fun output (h : bytes * bytes) =>
              output ← Buffer.append output h.1;
              output ← Buffer.append output (lit ": ");
              output ← Buffer.append output h.2;
              Buffer.append output Response.CRLF) b order ⇓ b' /\ Buffer.wf b' /\
    Buffer.content b' = Buffer.content b ++ concat (print_header <$> order).
Proof.
  induction order as [|[k v] order IH]; intros b Hwf Hcap; [exists b; simpl; by rewrite app_nil_r|].
  rewrite fmap_cons in *. cbn [concat] in *. unfold print_header at 1 in Hcap. cbn [fst snd] in Hcap.
  change Buffer.kCRLF with Response.CRLF in Hcap.
  rewrite !len_app in Hcap. pose proof (len_nonneg (concat (print_header <$> order))).
  pose proof (len_nonneg v). pose proof (len_nonneg (lit ": ")). pose proof (len_nonneg Response.CRLF).
  cbn [run_all fst snd]. do 4 append_step.
  destruct (IH b3) as (b' & -> & ? & Hc'); [done|unfold_content; rewrite !len_app; lia|].
  exists b'. split_and!; [done..|]. unfold_content. unfold print_header at 2. by rewrite <-!app_assoc.
Qed.

Lemma appendToBuffer_text order r b :
  Buffer.wf b -> 0 <= Response.status_code_ r < 10 ^ 9 -> len (Response.body_ r) < 10 ^ 12 ->
  len (Buffer.content b) + len (Response.status_message_ r) + len (concat (print_header <$> order)) +
    len (Response.body_ r) + 100 <= Buffer.cap ->
  exists code size b', Response.appendToBuffer order r b ⇓ b' /\ Buffer.wf b' /\
    DecimalSpec.read code = Some (Response.status_code_ r) /\
    DecimalSpec.read size = Some (len (Response.body_ r)) /\
    Buffer.content b' = Buffer.content b ++ response_text code size order r /\
    len (response_text code size order r) <=
      len (Response.status_message_ r) + len (concat (print_header <$> order)) + len (Response.body_ r) + 100.
Proof.
  intros Hwf Hcode Hbody Hcap. pose proof (len_nonneg (Response.body_ r)).
  pose proof (len_nonneg (Response.status_message_ r)). pose proof (len_nonneg (concat (print_header <$> order))).
  destruct (LogStreamFacts.convert_ok (Response.status_code_ r)) as (code & Hcc & Hcr & Hcl);
    [unfold two_63, two_64; lia|].
  destruct (LogStreamFacts.convert_ok (len (Response.body_ r))) as (size & Hsc & Hsr & Hsl);
    [unfold two_63, two_64; lia|].
  exists code, size. unfold Response.appendToBuffer. rewrite Hcc, Hsc. bind_step.
  apply (LogStreamFacts.convert_width _ _ 8) in Hcc; [|done]. apply (LogStreamFacts.convert_width _ _ 11) in Hsc; [|lia].
  rewrite !snprintf32_fits by (rewrite ?length_app; simpl; lia).
  assert (len (lit "HTTP/1.1 ") = 9 /\ len (lit "Connection: close") = 17 /\ len (lit "Content-Lenght: ") = 16 /\
    len (lit "Connection: Keep-Alive") = 22 /\ len Response.CRLF = 2) as (? & ? & ? & ? & ?) by done.
  assert (len (response_text code size order r) <=
      len (Response.status_message_ r) + len (concat (print_header <$> order)) + len (Response.body_ r) + 100) as Hlen.
  { unfold response_text. change Buffer.kCRLF with Response.CRLF.
    destruct (Response.close_connection_ r); rewrite !len_app; unfold len in *; lia. }
  do 3 append_step. unfold response_text in *. destruct (Response.close_connection_ r).
  - append_step.
    destruct (append_headers order b3) as (b4 & -> & Hwf4 & Hc4);
      [done|unfold_content; rewrite !len_app; lia|bind_step].
    do 2 append_step. eexists. split_and!; [done..| |done]. unfold_content. by rewrite <-!app_assoc.
  - do 2 append_step.
    destruct (append_headers order b4) as (b5 & -> & Hwf5 & Hc5);
      [done|unfold_content; rewrite !len_app; lia|bind_step].
    do 2 append_step. eexists. split_and!; [done..| |done]. unfold_content. by rewrite <-!app_assoc.
Qed.

(** *** When the parser can fail *)
(** No request line has been half read. *)
Definition clean (c : t) : Prop := state_ c = ExceptRequestLine -> method_ (request_ c) = Invalid.

Lemma processRequestLine_clean line r :
  method_ r = Invalid -> exists r' ok, processRequestLine line r ⇓ (r', ok).
Proof.
  intros Hm. unfold processRequestLine, setMethod. rewrite (bool_decide_eq_true_2 (method_ r = Invalid)) by done.
  destruct (split_at _ line) as [m [rest|]]; simpl; [|eauto].
  destruct (bool_decide (method_of m ≠ Invalid)); [|eauto].
  destruct (split_at _ rest) as [target [version|]]; simpl; [|eauto].
  destruct (parse_version _ _) as [r' ok]. by exists r', ok.
Qed.

Local Ltac give := by do 4 eexists; split; [reflexivity|intros ? ?].

Lemma round_clean t c s :
  clean c -> exists c' s' ok more, round t c s ⇓ (c', s', ok, more) /\ (ok = true -> clean c').
Proof.
  intros Hcl. unfold round.
  destruct (state_ c) eqn:Hst; [| |give|do 4 eexists; split; [reflexivity|by intros]].
  - destruct (search2 _ _ _) as [i|]; [|do 4 eexists; split; [reflexivity|by intros]].
    destruct (processRequestLine_clean (take (Z.to_nat i) s) (request_ c)) as (r' & ok & ->); [by apply Hcl|].
    destruct ok; give.
  - destruct (search2 _ _ _) as [i|]; [|do 4 eexists; split; [reflexivity|by intros]].
    destruct (split_at _ _) as [f [v|]]; give.
Qed.

Lemma parse_clean t fuel : forall c s,
  clean c -> state_ c <> GotAll -> (length s < fuel)%nat ->
  exists c' s' ok, parse fuel t c s ⇓ (Some (c', s', ok)) /\ (ok = true -> clean c').
Proof.
  induction fuel as [|fuel IH]; intros c s Hcl Hg Hf; [lia|]. cbn [parse].
  destruct (round_clean t c s Hcl) as (c' & s' & ok & more & Hr & Hcl'). rewrite Hr. simpl.
  destruct more; [|by eauto 10]. pose proof (round_decreases _ _ _ _ _ _ Hg Hr) as [Hlt Hg'].
  apply IH; [|done|lia]. apply Hcl'. revert Hr. unfold round. destruct (state_ c); [| |done..].
  - destruct (search2 _ _ _); [|done]. by destruct (processRequestLine _ _) as [[? []]|]; intros [=].
  - destruct (search2 _ _ _); [|done]. by destruct (split_at _ _) as [? [?|]]; intros [=].
Qed.

(** A method that has been stored makes the next attempt at the line abort. *)
Lemma processRequestLine_twice line r r' ok :
  method_ r = Invalid -> processRequestLine line r ⇓ (r', ok) -> method_ r' <> Invalid ->
  processRequestLine line r' ↯ AssertFailure.
Proof.
  unfold processRequestLine. intros Hm. destruct (split_at _ line) as [m [rest|]]; [|intros [= <- _]; done].
  intros _ Hm'. unfold setMethod. by rewrite (bool_decide_eq_false_2 (method_ r' = Invalid)).
Qed.

Lemma bad_line t r line rest r' :
  CR ∉ line -> processRequestLine line r ⇓ (r', false) ->
  parse_all t (mk ExceptRequestLine r) (line ++ CR :: LF :: rest) =
    Done (Some (mk ExceptRequestLine r', line ++ CR :: LF :: rest, false)).
Proof.
  intros Hn Hp. rewrite parse_all_round by done. unfold round. cbn [state_].
  rewrite search2_line by done. rewrite take_line. cbn [request_]. by rewrite Hp.
Qed.

Lemma bad_line_fault t r line rest f :
  CR ∉ line -> processRequestLine line r ↯ f ->
  parse_all t (mk ExceptRequestLine r) (line ++ CR :: LF :: rest) ↯ f.
Proof.
  intros Hn Hp. rewrite parse_all_round by done. unfold round. cbn [state_].
  rewrite search2_line by done. rewrite take_line. cbn [request_]. by rewrite Hp.
Qed.
End HttpFacts.

(** ** Properties *)
Module HttpTheorems.
Import Request ContextParse HttpSpec HttpFacts.
Import Buffer (CR, LF).

Lemma parseRequest_all t fuel c b :
  Buffer.wf b -> state_ c <> GotAll -> (length (Buffer.content b) < fuel)%nat ->
  match parse_all t c (Buffer.content b) with
  | Done (Some (c', s', ok)) =>
      exists b', parseRequest fuel t c b ⇓ (Some (c', b', ok)) /\ Buffer.wf b' /\ Buffer.content b' = s'
  | Done None => parseRequest fuel t c b ⇓ None
  | Fault f => parseRequest fuel t c b ↯ f
  end.
Proof. intros Hwf Hg Hf. rewrite <-(parse_enough t fuel) by done. by apply parse_content. Qed.

(** C15.  A request read back is the request written: the text of any
    well-formed request, cut into messages at arbitrary places and followed by
    anything, makes the parser accept with exactly its method, path, query,
    version and headers, and leaves exactly the bytes that follow it. *)
Theorem request_round_trip m path query v hs messages rest b :
  request_ok m path query v hs -> Buffer.wf b -> Buffer.content b = [] ->
  concat (snd <$> messages) = print_request m path query v hs ++ rest ->
  len (concat (snd <$> messages)) <= Buffer.cap ->
  exists t b' left,
    feed init b messages ⇓ (Some (mk GotAll (Request.mk m v path query t (header_map hs)), b', true, left)) /\
    Buffer.wf b' /\ Buffer.content b' ++ concat (snd <$> left) = rest.
Proof.
  intros Hok Hwf Hc Htext Hcap. pose proof (feed_parse messages init b Hwf) as Hf. rewrite Hc in Hf.
  change (forget init) with init in Hf. rewrite Htext in Hf. simpl app in Hf.
  rewrite parse_request_text in Hf by done.
  destruct Hf as (c1 & b' & left & -> & Hforget & Hwf' & Hrest); [by split_and!|by rewrite <-Htext|].
  destruct c1 as [st [m1 v1 p1 q1 t1 h1]]. injection Hforget as -> -> -> -> -> ->. by exists t1, b', left.
Qed.

Definition example_buffer : Buffer.t := Buffer.mk (replicate 64 "000"%char) 8 8.
Definition example_headers : list (bytes * bytes) := [(lit "Host", lit "a"); (lit "Connection", lit "close")].
Definition example_messages : list (Timestamp.t * bytes) :=
  [(5, lit "GE"); (6, lit "T /hello?x=1 HTTP/1.1" ++ [CR]);
   (7, [LF] ++ lit "Host: a" ++ [CR; LF] ++ lit "Conn");
   (8, lit "ection: close" ++ [CR; LF] ++ [CR; LF] ++ lit "GET")].

Lemma example_request_ok : request_ok Get (lit "/hello") (lit "?x=1") Http11 example_headers.
Proof.
  split; [done| | |done|].
  - split_and!; by_computation.
  - right. exists (lit "x=1"). split_and!; [done| |]; by_computation.
  - repeat constructor; by_computation.
Qed.

Lemma request_round_trip_witness :
  exists t b' left,
    feed init example_buffer example_messages =
      Done (Some (mk GotAll (Request.mk Get Http11 (lit "/hello") (lit "?x=1") t (header_map example_headers)), b', true, left)) /\
    Buffer.wf b' /\ Buffer.content b' ++ concat (snd <$> left) = lit "GET".
Proof.
  apply request_round_trip.
  - apply example_request_ok.
  - vm_compute. by repeat split.
  - vm_compute. reflexivity.
  - vm_compute. reflexivity.
  - by vm_compute.
Defined.

(** C31.  The parsing loop returns: with one round more than the bytes there
    are, [parseRequest] ends without a failed assertion from any context whose
    request line is not half read, and leaves such a context when it accepts;
    the result does not depend on the fuel.  In state [GotAll] the loop never
    ends, which is why [onMessage] resets the context before it returns. *)
Theorem parseRequest_returns t c b :
  Buffer.wf b -> clean c ->
  (state_ c <> GotAll -> exists c' b' ok, Buffer.wf b' /\ (ok = true -> clean c') /\
     forall fuel, (length (Buffer.content b) < fuel)%nat -> exists b'',
       parseRequest fuel t c b ⇓ (Some (c', b'', ok)) /\ Buffer.content b'' = Buffer.content b') /\
  (state_ c = GotAll -> forall fuel, parseRequest fuel t c b ⇓ None).
Proof.
  intros Hwf Hcl. split.
  - intros Hg. destruct (parse_clean t (enough (Buffer.content b)) c (Buffer.content b) Hcl Hg) as (c' & s' & ok & Hp & Hcl');
      [unfold enough; lia|].
    fold (parse_all t c (Buffer.content b)) in Hp.
    pose proof (parseRequest_all t (enough (Buffer.content b)) c b Hwf Hg) as Ha. rewrite Hp in Ha.
    destruct Ha as (b' & _ & Hwf' & Hc'); [unfold enough; lia|]. exists c', b', ok. split_and!; [done..|].
    intros fuel Hf. pose proof (parseRequest_all t fuel c b Hwf Hg Hf) as Ha. rewrite Hp in Ha.
    destruct Ha as (b'' & -> & _ & Hc''). exists b''. by rewrite Hc', Hc''.
  - intros Hg fuel. induction fuel as [|fuel IH]; [done|]. cbn [parseRequest]. unfold parse_round. by rewrite Hg.
Qed.

Definition example_unfinished : Buffer.t := Buffer.mk (replicate 8 "000"%char ++ lit "GET / HTTP/1.1" ++ [CR; LF] ++ lit "Host: a") 8 31.

Lemma parseRequest_returns_witness :
  exists c' b' ok, Buffer.wf b' /\ (ok = true -> clean c') /\
     forall fuel, (23 < fuel)%nat -> exists b'',
       parseRequest fuel 5 init example_unfinished ⇓ (Some (c', b'', ok)) /\
       Buffer.content b'' = Buffer.content b'.
Proof. apply (parseRequest_returns 5 init example_unfinished); [vm_compute; by repeat split|done|done]. Defined.

Definition request_of m path query v hs (time : Timestamp.t) : Request.t :=
  Request.mk m v path query time (header_map hs).

(** A complete request at the front of the input buffer gets exactly one
    response: the callback is applied to that request, its response is sent as
    one block of text, the connection is shut down or its idle timer renewed,
    the context is reset, and the bytes after the request stay in the buffer
    (also when they are a second complete request). *)
Theorem onMessage_serves_request m path query v hs rest b fuel callback order fresh use_timer alive time :
  request_ok m path query v hs -> Buffer.wf b -> Buffer.content b = print_request m path query v hs ++ rest ->
  (length (Buffer.content b) < fuel)%nat -> Buffer.wf fresh -> Buffer.content fresh = [] ->
  let req := request_of m path query v hs time in
  let response := callback req (Response.init (Server.is_short_link req)) in
  let hdrs := order (Response.headers_ response) in
  0 <= Response.status_code_ response < 10 ^ 9 -> len (Response.body_ response) < 10 ^ 12 ->
  len (Response.status_message_ response) + len (concat (print_header <$> hdrs)) +
    len (Response.body_ response) + 100 <= Buffer.cap ->
  exists code size b',
    Server.onMessage fuel callback order fresh use_timer alive time init b =
      Done (Some (init, b', Server.Send (response_text code size hdrs response) ::
        if Response.close_connection_ response then [Server.Shutdown]
        else if use_timer && alive then [Server.TouchTimer] else [])) /\
    DecimalSpec.read code = Some (Response.status_code_ response) /\
    DecimalSpec.read size = Some (len (Response.body_ response)) /\
    Buffer.wf b' /\ Buffer.content b' = rest.
Proof.
  intros Hok Hwf Hc Hf Hfw Hfc req response hdrs Hcode Hbody Hcap.
  pose proof (parseRequest_all time fuel init b Hwf) as Hp. rewrite Hc, parse_request_text in Hp by done.
  destruct Hp as (b' & Hp & Hwf' & Hrest); [done|by rewrite <-Hc|].
  destruct (appendToBuffer_text hdrs response fresh) as (code & size & out & Hout & _ & Hr1 & Hr2 & Hc2 & _);
    [done..|rewrite Hfc; change (len (@nil char)) with 0; lia|].
  rewrite Hfc in Hc2. exists code, size, b'. split_and!; [|done..].
  unfold Server.onMessage. rewrite Hp. bind_step. unfold gotAll.
  rewrite bool_decide_eq_true_2 by done. cbn [request_].
  change (Request.mk m v path query time (header_map hs)) with req.
  unfold Server.onRequest. fold response. fold hdrs. rewrite Hout. bind_step.
  by rewrite Hc2.
Qed.

Definition in_map_order (h : headers) : list (bytes * bytes) := map_to_list h.
Definition hello_request : Buffer.t :=
  Buffer.mk (replicate 8 "000"%char ++ print_request Get (lit "/hello") [] Http11 [] ++ lit "GET") 8 34.

Lemma onMessage_serves_request_witness :
  let req := request_of Get (lit "/hello") [] Http11 [] 5 in
  let response := Server.HttpRequest [] [] req (Response.init (Server.is_short_link req)) in
  exists code size b',
    Server.onMessage 40 (Server.HttpRequest [] []) in_map_order example_buffer true true 5 init hello_request =
      Done (Some (init, b', Server.Send (response_text code size (in_map_order (Response.headers_ response)) response) ::
        [Server.TouchTimer])) /\
    DecimalSpec.read code = Some 200 /\ DecimalSpec.read size = Some 14 /\
    Buffer.wf b' /\ Buffer.content b' = lit "GET".
Proof.
  apply (onMessage_serves_request Get (lit "/hello") [] Http11 [] (lit "GET") hello_request 40
    (Server.HttpRequest [] []) in_map_order example_buffer true true 5).
  - split; [done| |by left|done|constructor].
    split_and!; by_computation.
  - vm_compute. by repeat split.
  - vm_compute. reflexivity.
  - vm_compute. lia.
  - vm_compute. by repeat split.
  - vm_compute. reflexivity.
  - by vm_compute.
  - by vm_compute.
  - by vm_compute.
Defined.

(** A malformed request line with a known method stops the server: the
    first message is answered with 400 and a shutdown, but the line stays in
    the buffer and its method in the context, so whatever the peer sends next
    is parsed into [setMethod]'s failing assertion. *)
Theorem bad_request_line_aborts line rest r' b fuel callback order fresh use_timer alive time :
  (CR ∉ line) -> processRequestLine line Request.init ⇓ (r', false) -> method_ r' <> Invalid ->
  Buffer.wf b -> Buffer.content b = line ++ CR :: LF :: rest -> (length (Buffer.content b) < fuel)%nat ->
  exists c' b', Server.onMessage fuel callback order fresh use_timer alive time init b =
      Done (Some (c', b', [Server.Send Server.bad_request; Server.Shutdown])) /\ Buffer.wf b' /\
    forall d fuel' time', len (Buffer.content b') + len d <= Buffer.cap ->
      (length (Buffer.content b') + length d < fuel')%nat ->
      exists b2, Buffer.append b' d ⇓ b2 /\
        Server.onMessage fuel' callback order fresh use_timer alive time' c' b2 ↯ AssertFailure.
Proof.
  intros Hn Hl Hm Hwf Hc Hf. pose proof (parseRequest_all time fuel init b Hwf) as Hp.
  rewrite Hc in Hp. unfold init in Hp. rewrite (bad_line _ _ _ _ _ Hn Hl) in Hp.
  destruct Hp as (b' & Hp & Hwf' & Hc'); [done|by rewrite <-Hc|].
  exists (mk ExceptRequestLine r'), b'. split_and!; [|done|].
  { unfold Server.onMessage, init. by rewrite Hp. }
  intros d fuel' time' Hcap Hf'. destruct (BufferFacts.append_spec b' d) as (b2 & Hb2 & Hwf2 & Hc2); [done..|].
  exists b2. split; [done|]. unfold Server.onMessage.
  pose proof (parseRequest_all time' fuel' (mk ExceptRequestLine r') b2 Hwf2) as Hp2.
  rewrite Hc2, Hc', <-app_assoc in Hp2. simpl app in Hp2.
  rewrite (bad_line_fault _ _ _ _ AssertFailure Hn) in Hp2 by (by apply (processRequestLine_twice line Request.init r' false)).
  rewrite Hp2; [done..|]. rewrite Hc' in Hf'. rewrite length_app in Hf' |- *. simpl in *. rewrite length_app. lia.
Qed.

Definition bad_line_buffer : Buffer.t := Buffer.mk (replicate 8 "000"%char ++ lit "GET /" ++ [CR; LF]) 8 15.

Lemma bad_request_line_aborts_witness :
  exists c' b', Server.onMessage 40 (Server.HttpRequest [] []) in_map_order example_buffer true true 5 init bad_line_buffer =
      Done (Some (c', b', [Server.Send Server.bad_request; Server.Shutdown])) /\ Buffer.wf b' /\
    forall d fuel' time', len (Buffer.content b') + len d <= Buffer.cap ->
      (length (Buffer.content b') + length d < fuel')%nat ->
      exists b2, Buffer.append b' d ⇓ b2 /\
        Server.onMessage fuel' (Server.HttpRequest [] []) in_map_order example_buffer true true time' c' b2 ↯ AssertFailure.
Proof.
  apply (bad_request_line_aborts (lit "GET /") [] (Request.mk Get Unknow [] [] 0 ∅)).
  - by_computation.
  - reflexivity.
  - done.
  - vm_compute. by repeat split.
  - vm_compute. reflexivity.
  - vm_compute. lia.
Defined.
End HttpTheorems.
