(* ===== verification/TimeWheels.v ===== *)
(** * TimeWheels: the idle-connection timing wheel of the web server

    Models [TimerWheel] ([src/web_server/TimeWheel.h], [TimeWheel.cc]).  A
    [shared_ptr<TimeWheelEntry>] is the identity of its entry; the entry lives
    as long as some slot holds it, and the tick that drops the last reference
    runs its destructor, which shuts the connection down.  The theorem says,
    for every sequence of ticks and insertions, how long an entry lives. *)
From S2P Require Import Prelude.

Local Open Scope Z_scope.
Local Open Scope muduo_scope.

Abbreviation entry := Z.

Module TimerWheel.
Record t : Type := mk {
  max_second : Z;
  next_second : Z;
  wheel_ : list (list entry);
  run_ : bool;
}.

Definition init (second : Z) : t := mk second 0 (replicate (Z.to_nat second) []) false.
Definition isRunning (w : t) : bool := run_ w.

(** [runEvery] and [cancel] are calls of the event loop; the wheel's own state
    is its flag. *)
Definition start (w : t) : outcome t :=
  assert_ (negb (run_ w));;
  mret (mk (max_second w) (next_second w) (wheel_ w) true).
Definition stop (w : t) : outcome t :=
  assert_ (run_ w);;
  mret (mk (max_second w) (next_second w) (wheel_ w) false).

(** The entries that some slot holds. *)
Definition held (w : t) : list entry := mjoin (wheel_ w).

(** The new wheel, and the entries destroyed. *)
Definition onTimer (w : t) : outcome (t * list entry) :=
  slot ← at_ (wheel_ w) (next_second w);
  let wheel := <[Z.to_nat (next_second w) := []]> (wheel_ w) in
  n ← checked32 (next_second w + 1);
  if bool_decide (max_second w = 0) then Fault Undefined
  else
    let w' := mk (max_second w) (Z.rem n (max_second w)) wheel (run_ w) in
    mret (w', remove_dups (filter (fun e => e ∉ held w') slot)).

Definition insertEntryInLoop (w : t) (e : entry) : outcome t :=
  next ← checked32 (next_second w - 1);
  let next := if bool_decide (next < 0) then next + 1 else next in
  slot ← at_ (wheel_ w) next;
  mret (mk (max_second w) (next_second w) (<[Z.to_nat next := slot ++ [e]]> (wheel_ w)) (run_ w)).

(** [insertEntry]: the functor that [runInLoop] is given, if any. *)
Definition insertEntry (w : t) (e : entry) : option (t -> outcome t) :=
  if run_ w then Some (fun w => insertEntryInLoop w e) else None.
End TimerWheel.

(** ** Specification *)
Module WheelSpec.
Import TimerWheel.
Inductive op : Type := Tick | Insert (e : entry).

Definition exec (w : t) (o : op) : outcome t :=
  match o with
  | Tick => fst <$> onTimer w
  | Insert e => match insertEntry w e with Some functor => functor w | None => mret w end
  end.
Definition is_tick (o : op) : bool := match o with Tick => true | _ => false end.
Definition ticks (ops : list op) : Z := len (List.filter is_tick ops).

Definition wf (w : t) : Prop :=
  0 <= next_second w < max_second w /\ max_second w < two_31 /\ len (wheel_ w) = max_second w.

(** How many ticks an insertion lasts after [n] ticks of a wheel of [max] slots. *)
Definition life (max n : Z) : Z := if bool_decide (n `mod` max = 0) then 1 else max.

(** The entry is in the slot that will be cleared by the [d]-th tick from now. *)
Definition slot_of (w : t) (d : Z) : nat := Z.to_nat ((next_second w + d - 1) `mod` max_second w).
Definition present (w : t) (e : entry) (d : Z) : Prop :=
  1 <= d <= max_second w /\ exists slot, wheel_ w !! slot_of w d = Some slot /\ e ∈ slot.
End WheelSpec.

(** ** Lemmas *)
Module WheelFacts.
Import TimerWheel WheelSpec.

Lemma init_wf second : 0 < second < two_31 -> wf (init second).
Proof. intros H. unfold wf, len. simpl. rewrite length_replicate. lia. Qed.

Lemma next_eq w : wf w -> Z.rem (next_second w + 1) (max_second w) =
  if bool_decide (next_second w + 1 = max_second w) then 0 else next_second w + 1.
Proof.
  intros (Hn & _ & _). rewrite Z.rem_mod_nonneg by lia. case_bool_decide as H.
  - rewrite H. apply Z.mod_same. lia.
  - apply Z.mod_small. lia.
Qed.

Lemma slot_eq w d : wf w -> 1 <= d <= max_second w ->
  slot_of w d = Z.to_nat (if bool_decide (next_second w + d - 1 < max_second w) then next_second w + d - 1
                          else next_second w + d - 1 - max_second w).
Proof.
  intros (Hn & _ & _) Hd. unfold slot_of. f_equal. case_bool_decide.
  - apply Z.mod_small. lia.
  - rewrite <-(Z.mod_small (next_second w + d - 1 - max_second w) (max_second w)) by lia.
    rewrite <-(Z.mod_add (next_second w + d - 1 - max_second w) 1) by lia. f_equal. lia.
Qed.

Lemma held_present w e : wf w -> e ∈ held w <-> exists d, present w e d.
Proof.
  intros Hwf. pose proof Hwf as (Hn & _ & Hl). unfold held. rewrite list_elem_of_join. split.
  - intros (slot & He & (i & Hi)%list_elem_of_lookup). pose proof (lookup_lt_Some _ _ _ Hi) as Hlt. unfold len in Hl.
    set (d := if bool_decide (next_second w <= Z.of_nat i) then Z.of_nat i - next_second w + 1
              else Z.of_nat i - next_second w + 1 + max_second w).
    assert (1 <= d <= max_second w) as Hd by (unfold d; case_bool_decide; lia).
    exists d. split; [done|]. exists slot. split; [|done]. rewrite slot_eq by done.
    rewrite <-Hi. f_equal. unfold d in *. repeat case_bool_decide; lia.
  - intros (d & _ & slot & Hs & He). exists slot. split; [done|]. by eapply list_elem_of_lookup_2.
Qed.

Definition ticked (w : t) : t :=
  mk (max_second w) (Z.rem (next_second w + 1) (max_second w)) (<[Z.to_nat (next_second w) := []]> (wheel_ w)) (run_ w).

Lemma ticked_wf w : wf w -> wf (ticked w).
Proof.
  intros Hwf. pose proof Hwf as (Hn & Hm & Hl). unfold wf, ticked, len in *. simpl.
  rewrite length_insert, next_eq by done. case_bool_decide; lia.
Qed.

Lemma ticked_present w e d : wf w -> present (ticked w) e d <-> d < max_second w /\ 1 <= d /\ present w e (d + 1).
Proof.
  intros Hwf. pose proof (ticked_wf w Hwf) as Hwf'. pose proof Hwf as (Hn & Hm & Hl).
  assert (1 <= d <= max_second w -> slot_of (ticked w) d =
    if bool_decide (d = max_second w) then Z.to_nat (next_second w) else slot_of w (d + 1)) as Hslot.
  { intros Hd. rewrite slot_eq by done. unfold ticked; cbn [next_second max_second]. rewrite next_eq by done.
    destruct (decide (d = max_second w)) as [Hx|Hx].
    - rewrite (bool_decide_eq_true_2 (d = _)) by done. repeat case_bool_decide; lia.
    - rewrite (bool_decide_eq_false_2 (d = _)) by done. rewrite (slot_eq w (d + 1)) by (done || lia).
      repeat case_bool_decide; lia. }
  unfold present. change (max_second (ticked w)) with (max_second w). split.
  - intros (Hd & slot & Hs & He). rewrite Hslot in Hs by done. unfold ticked in Hs; cbn [wheel_] in Hs.
    case_bool_decide as Hmax.
    + rewrite list_lookup_insert_eq in Hs by (unfold len in Hl; lia). injection Hs as <-. by apply not_elem_of_nil in He.
    + rewrite list_lookup_insert_ne in Hs; [split_and!; [lia..|]; by exists slot|].
      rewrite slot_eq by (done || lia). case_bool_decide; lia.
  - intros (Hd & Hd1 & _ & slot & Hs & He). split; [lia|]. exists slot. split; [|done].
    rewrite Hslot by lia. rewrite bool_decide_eq_false_2 by lia. unfold ticked; cbn [wheel_].
    rewrite list_lookup_insert_ne; [done|]. rewrite slot_eq by (done || lia). clear Hslot; case_bool_decide; lia.
Qed.

Lemma onTimer_spec w : wf w ->
  exists dead, onTimer w ⇓ (ticked w, dead) /\ NoDup dead /\
    forall e, e ∈ dead <-> e ∈ held w /\ (e ∉ held (ticked w)).
Proof.
  intros Hwf. pose proof Hwf as (Hn & Hm & Hl). unfold onTimer.
  destruct (at_ok (wheel_ w) (next_second w)) as [slot Hslot]; [unfold len in Hl; lia|].
  rewrite Hslot. bind_step. rewrite checked32_ok by (unfold int32_range, two_31 in *; lia).
  bind_step. rewrite bool_decide_eq_false_2 by lia. fold (ticked w).
  eexists. split_and!; [done|apply NoDup_remove_dups|]. intros e.
  rewrite elem_of_remove_dups, list_elem_of_filter. apply at_Done in Hslot as [_ Hslot]. split.
  - intros [Hne He]. split; [|done]. apply list_elem_of_join. exists slot. split; [done|]. by eapply list_elem_of_lookup_2.
  - intros [He Hne]. split; [done|]. apply list_elem_of_join in He as (slot' & He & (i & Hi)%list_elem_of_lookup).
    destruct (decide (i = Z.to_nat (next_second w))) as [->|Hi']; [congruence|]. destruct Hne.
    apply list_elem_of_join. exists slot'. split; [done|]. apply list_elem_of_lookup. exists i.
    unfold ticked; cbn [wheel_]. by rewrite list_lookup_insert_ne.
Qed.

(** [insertEntryInLoop] puts the entry where it will last [life]. *)
Lemma insert_spec w e0 : wf w ->
  exists w', insertEntryInLoop w e0 ⇓ w' /\ wf w' /\ max_second w' = max_second w /\
    next_second w' = next_second w /\ run_ w' = run_ w /\
    forall e d, present w' e d <-> present w e d \/ (e = e0 /\ d = life (max_second w) (next_second w)).
Proof.
  intros Hwf. pose proof Hwf as (Hn & Hm & Hl). unfold insertEntryInLoop.
  rewrite checked32_ok by (unfold int32_range, two_31 in *; lia). bind_step.
  set (next := if bool_decide (next_second w - 1 < 0) then next_second w - 1 + 1 else next_second w - 1).
  set (dl := life (max_second w) (next_second w)).
  assert (0 <= next < max_second w /\ 1 <= dl <= max_second w /\ Z.to_nat next = slot_of w dl) as (Hnext & Hdl & Heq).
  { unfold next, dl, life. rewrite Z.mod_small by lia. case_bool_decide as H1; case_bool_decide as H2; try lia.
    - split_and!; [lia..|]. rewrite slot_eq by (done || lia). case_bool_decide; lia.
    - split_and!; [lia..|]. rewrite slot_eq by (done || lia). case_bool_decide; lia. }
  destruct (at_ok (wheel_ w) next) as [slot Hslot]; [unfold len in Hl; lia|].
  rewrite Hslot. apply at_Done in Hslot as [_ Hslot]. eexists. split; [done|].
  split_and!; [unfold wf, len in *; simpl; by rewrite length_insert|done..|].
  intros e d. unfold present. cbn [max_second wheel_].
  change (slot_of (mk _ _ _ _) d) with (slot_of w d). rewrite Heq in Hslot |- *.
  assert (1 <= d <= max_second w -> slot_of w d = slot_of w dl -> d = dl) as Hinj.
  { intros Hd. rewrite !slot_eq by done. repeat case_bool_decide; lia. }
  pose proof (lookup_lt_Some _ _ _ Hslot) as Hlt. split.
  - intros (Hd & slot' & Hs & He). destruct (decide (slot_of w d = slot_of w dl)) as [Hsame|Hdiff].
    + rewrite Hsame, list_lookup_insert_eq in Hs by done. injection Hs as <-.
      apply elem_of_app in He as [He|He%list_elem_of_singleton]; [left|right; by split; [|apply Hinj]].
      split; [done|]. exists slot. by rewrite Hsame.
    + rewrite list_lookup_insert_ne in Hs by done. left. split; [done|]. by exists slot'.
  - intros [(Hd & slot' & Hs & He)|[-> ->]].
    + split; [done|]. destruct (decide (slot_of w d = slot_of w dl)) as [Hsame|Hdiff].
      * rewrite Hsame in Hs |- *. exists (slot ++ [e0]). rewrite list_lookup_insert_eq by done.
        simplify_eq. split; [done|]. apply elem_of_app. by left.
      * exists slot'. by rewrite list_lookup_insert_ne.
    + split; [done|]. exists (slot ++ [e0]). rewrite list_lookup_insert_eq by done.
      split; [done|]. apply elem_of_app. right. by apply list_elem_of_singleton.
Qed.

Lemma life_mod max n : life max (n `mod` max) = life max n.
Proof. unfold life. by rewrite Zmod_mod. Qed.

Lemma ticks_app ops1 ops2 : ticks (ops1 ++ ops2) = ticks ops1 + ticks ops2.
Proof. unfold ticks. by rewrite List.filter_app, len_app. Qed.

Lemma ticks_nonneg ops : 0 <= ticks ops.
Proof. unfold ticks. auto with muduo. Qed.

Lemma ticks_cons o ops : ticks (o :: ops) = (if is_tick o then 1 else 0) + ticks ops.
Proof. change (o :: ops) with ([o] ++ ops). rewrite ticks_app. by destruct o. Qed.

(** An insertion of [e] among [ops] that still lasts [d] ticks, after [n] earlier ones. *)
Definition lasts (max n : Z) (ops : list op) (e : entry) (d : Z) : Prop :=
  exists ops1 ops2, ops = ops1 ++ Insert e :: ops2 /\ d + ticks ops2 = life max (n + ticks ops1).

Lemma lasts_cons max n o ops e d :
  lasts max n (o :: ops) e d <->
  (o = Insert e /\ d + ticks ops = life max n) \/ lasts max (n + if is_tick o then 1 else 0) ops e d.
Proof.
  split.
  - intros ([|o1 ops1] & ops2 & Heq & Hd); simpl in Heq; injection Heq as -> ->.
    + left. split; [done|]. by rewrite Z.add_0_r in Hd.
    + right. exists ops1, ops2. split; [done|]. by rewrite ticks_cons, Z.add_assoc in Hd.
  - intros [[-> Hd]|(ops1 & ops2 & -> & Hd)].
    + exists [], ops. split; [done|]. by rewrite Z.add_0_r.
    + exists (o :: ops1), ops2. split; [done|]. by rewrite ticks_cons, Z.add_assoc.
Qed.

Lemma lasts_mod max n ops e d : lasts max (n `mod` max) ops e d <-> lasts max n ops e d.
Proof.
  assert (forall m, life max (n `mod` max + m) = life max (n + m)) as Hl
    by (intros m; by rewrite <-(life_mod max (_ + m)), Zplus_mod_idemp_l, life_mod).
  unfold lasts. by setoid_rewrite Hl.
Qed.

Lemma exec_spec w o : wf w -> run_ w = true ->
  exists w', exec w o ⇓ w' /\ wf w' /\ max_second w' = max_second w /\ run_ w' = true /\
    next_second w' = (next_second w + if is_tick o then 1 else 0) `mod` max_second w /\
    forall e d, 1 <= d -> present w' e d <->
      present w e (d + if is_tick o then 1 else 0) \/ (o = Insert e /\ d = life (max_second w) (next_second w)).
Proof.
  intros Hwf Hrun. pose proof Hwf as (Hn & _ & _). destruct o as [|e0]; cbn [exec is_tick].
  - destruct (onTimer_spec w Hwf) as (dead & -> & _). exists (ticked w).
    split_and!; [done|by apply ticked_wf|done..| |].
    + simpl. rewrite Z.rem_mod_nonneg by lia. done.
    + intros e d Hd. rewrite ticked_present by done. split; [naive_solver|].
      intros [Hp|[? _]]; [|done]. pose proof Hp as [? _]. split_and!; [lia|done|apply Hp..].
  - unfold insertEntry. rewrite Hrun. destruct (insert_spec w e0 Hwf) as (w' & -> & Hwf' & Hm & Hnx & Hr & Hp).
    exists w'. rewrite !Z.add_0_r. split_and!; [done..|by rewrite Hr|by rewrite Hnx, Z.mod_small|].
    intros e d _. rewrite Hp, Z.add_0_r. naive_solver.
Qed.

Lemma run_spec ops : forall w, wf w -> run_ w = true ->
  exists w', run_all exec w ops ⇓ w' /\ wf w' /\ max_second w' = max_second w /\
    forall e d, 1 <= d -> present w' e d <->
      present w e (d + ticks ops) \/ lasts (max_second w) (next_second w) ops e d.
Proof.
  induction ops as [|o ops IH]; intros w Hwf Hrun.
  { exists w. split_and!; [done..|]. intros e d Hd. change (ticks []) with 0. rewrite Z.add_0_r.
    split; [by left|]. intros [?|(ops1 & ops2 & Heq & _)]; [done|]. by destruct ops1. }
  destruct (exec_spec w o Hwf Hrun) as (w1 & He & Hwf1 & Hm1 & Hr1 & Hn1 & Hp1).
  destruct (IH w1 Hwf1 Hr1) as (w2 & He2 & Hwf2 & Hm2 & Hp2).
  exists w2. split_and!; [by simpl; rewrite He|done|congruence|]. intros e d Hd.
  pose proof (ticks_nonneg ops). rewrite Hp2, Hp1, lasts_cons, Hm1, Hn1, lasts_mod, ticks_cons by lia.
  replace (d + ((if is_tick o then 1 else 0) + ticks ops)) with (d + ticks ops + if is_tick o then 1 else 0) by lia.
  tauto.
Qed.

(** The wheel that [start] leaves, and what it holds after some operations. *)
Definition started (max : Z) : t := mk max 0 (wheel_ (init max)) true.

Lemma run_lasts max ops : 0 < max < two_31 -> exists w, run_all exec (started max) ops ⇓ w /\ wf w /\
  forall e d, 1 <= d -> present w e d <-> lasts max 0 ops e d.
Proof.
  intros Hmax. destruct (run_spec ops (started max)) as (w & Hrun & Hwf & _ & Hp); [by apply init_wf|done|].
  exists w. split_and!; [done..|]. intros e d Hd. rewrite Hp by done. split; [|by right]. intros [(_ & slot & Hs & He)|?]; [|done].
  apply lookup_replicate in Hs as [-> _]. by apply not_elem_of_nil in He.
Qed.

(** An entry is held while one of its insertions is younger than its life. *)
Lemma held_lasts max ops w e : wf w -> (forall e d, 1 <= d -> present w e d <-> lasts max 0 ops e d) ->
  e ∈ held w <-> exists ops1 ops2, ops = ops1 ++ Insert e :: ops2 /\ ticks ops2 < life max (ticks ops1).
Proof.
  intros Hwf Hlast. rewrite held_present by done. split.
  - intros (d & Hd). pose proof Hd as [Hd1 _]. apply Hlast in Hd as (ops1 & ops2 & -> & Heq); [|lia].
    exists ops1, ops2. split; [done|]. rewrite Z.add_0_l in Heq. lia.
  - intros (ops1 & ops2 & Heq & Hlt). exists (life max (ticks ops1) - ticks ops2). apply Hlast; [lia|].
    exists ops1, ops2. split; [done|]. rewrite Z.add_0_l. lia.
Qed.

(** What one operation does to what is held. *)
Lemma held_insert w e w' : wf w -> insertEntryInLoop w e ⇓ w' -> forall e', e' ∈ held w' <-> e' ∈ held w \/ e' = e.
Proof.
  intros Hwf Hw e'. destruct (insert_spec w e Hwf) as (w1 & Hw1 & Hwf1 & _ & _ & _ & Hp). rewrite Hw in Hw1. injection Hw1 as <-.
  rewrite !held_present by done. setoid_rewrite Hp. split; [naive_solver|]. intros [(d & Hd)| ->]; [by exists d; left|]. eexists. by right.
Qed.

Lemma held_tick w e : wf w -> e ∈ held (ticked w) -> e ∈ held w.
Proof.
  intros Hwf. rewrite (held_present (ticked w)) by (by apply ticked_wf). rewrite held_present by done.
  intros (d & (_ & _ & Hp)%ticked_present); [|done]. by eexists.
Qed.
End WheelFacts.

(** ** Properties *)
Module WheelTheorems.
Import TimerWheel WheelSpec WheelFacts.

(** How long a connection may idle: after any sequence of ticks and
    insertions the wheel holds an entry exactly while some insertion of it is
    younger than its life, and the next tick destroys exactly the entries none
    of whose insertions outlasts it, each once.  An insertion lives
    [max_second] ticks, except one made when [next_second] is [0], which
    lives a single tick. *)
Theorem entry_lifetime max ops e :
  0 < max < two_31 ->
  exists w0 w w' dead,
    start (init max) ⇓ w0 /\ run_all exec w0 ops ⇓ w /\ onTimer w ⇓ (w', dead) /\ NoDup dead /\
    (e ∈ held w <-> exists ops1 ops2, ops = ops1 ++ Insert e :: ops2 /\ ticks ops2 < life max (ticks ops1)) /\
    (e ∈ dead <-> e ∈ held w /\
       forall ops1 ops2, ops = ops1 ++ Insert e :: ops2 -> life max (ticks ops1) <= ticks ops2 + 1).
Proof.
  intros Hmax. destruct (run_lasts max ops Hmax) as (w & Hrun & Hwf & Hlast).
  destruct (onTimer_spec w Hwf) as (dead & Ht & Hnd & Hdead).
  exists (started max), w, (ticked w), dead. split_and!; [done..|by apply held_lasts|].
  - rewrite Hdead. rewrite (held_present (ticked w)) by (by apply ticked_wf). split.
    + intros [Hh Hn]. split; [done|]. intros ops1 ops2 Heq. apply Z.nlt_ge. intros Hlt. apply Hn.
      assert (present w e (life max (ticks ops1) - ticks ops2)) as Hpr.
      { apply Hlast; [pose proof (ticks_nonneg ops2); lia|]. exists ops1, ops2. split; [done|]. rewrite Z.add_0_l. lia. }
      exists (life max (ticks ops1) - ticks ops2 - 1). apply ticked_present; [done|]. rewrite Z.sub_add.
      pose proof Hpr as [? _]. split_and!; [lia..|apply Hpr].
    + intros [Hh Hall]. split; [done|]. intros (d & (Hd1 & Hd2 & Hpr)%ticked_present); [|done].
      apply Hlast in Hpr as (ops1 & ops2 & Heq & Hl); [|lia]. apply Hall in Heq. rewrite Z.add_0_l in Hl. lia.
Qed.

Definition example_ops : list op := [Insert 7; Tick; Insert 8; Tick; Tick].

Lemma entry_lifetime_witness :
  exists w0 w w' dead,
    start (init 3) ⇓ w0 /\ run_all exec w0 example_ops ⇓ w /\ onTimer w ⇓ (w', dead) /\ NoDup dead /\
    (8 ∈ held w <-> exists ops1 ops2, example_ops = ops1 ++ Insert 8 :: ops2 /\ ticks ops2 < life 3 (ticks ops1)) /\
    (8 ∈ dead <-> 8 ∈ held w /\
       forall ops1 ops2, example_ops = ops1 ++ Insert 8 :: ops2 -> life 3 (ticks ops1) <= ticks ops2 + 1).
Proof. apply (entry_lifetime 3 example_ops 8). by vm_compute. Defined.

End WheelTheorems.
