(* ===== verification/WebServers.v ===== *)
(** * WebServers: the web server with its idle timer

    Composes the HTTP handlers of [HttpServer] with the timing wheel of
    [TimeWheels] into the rest of [Server] ([src/web_server/Server.cc]): the
    constructor, [onConnection], the context of a connection and what the
    effects of [onMessage] do.  The server has one loop ([setThreadNum(0)], the
    default of [Run.cc]), so that [runInLoop] runs its functor at once and a
    handler is not interrupted.  An entry of the wheel belongs to one
    connection; when its last reference is dropped, its destructor shuts that
    connection down if it still exists. *)
From S2P Require Import Prelude Endian NetBuffer Timestamps HttpServer TimeWheels.

Local Open Scope Z_scope.
Local Open Scope muduo_scope.

Module WebServer.
Section server.
Context (use_timer_ : bool) (http_callback_ : Request.t -> Response.t -> Response.t)
        (order : headers -> list (bytes * bytes)) (fresh : Buffer.t).

(** A connection: the two halves of its [ContextType], its input buffer, what
    the handlers asked of it, and whether its entry shut it down. *)
Record conn : Type := mk_conn {
  context_ : ContextParse.t;
  entry_ : option entry;
  input_ : Buffer.t;
  effects_ : list Server.effect;
  timed_out_ : bool }.

Record t : Type := mk { timer_ : TimerWheel.t; next_entry_ : entry; connections_ : gmap Z conn }.

(** The constructor, without the image. *)
Definition make : outcome t :=
  w ← (if use_timer_ then TimerWheel.start (TimerWheel.init 10) else mret (TimerWheel.init 10));
  mret (mk w 0 ∅).

(** The image: the file that [fopen] found, its length by [ftell] and the bytes
    that [fread] delivered. *)
Definition load_image (image_path : bytes) (file : option (Z * bytes)) : outcome bytes :=
  if bool_decide (image_path = []) then mret []
  else match file with
       | None => Fault AssertFailure
       | Some (file_len, data) => assert_ (bool_decide (len data = u64 file_len));; mret data
       end.

(** [insertEntry]: the functor runs at once; with it, what it does to the wheel. *)
Definition insertEntry (e : entry) (w : TimerWheel.t) : outcome (TimerWheel.t * list WheelSpec.op) :=
  match TimerWheel.insertEntry w e with
  | Some functor => w ← functor w; mret (w, [WheelSpec.Insert e])
  | None => mret (w, [])
  end.

(** [onConnection] of the new connection [fd]. *)
Definition onConnection (fd : Z) (input : Buffer.t) (s : t) : outcome (t * list WheelSpec.op) :=
  if use_timer_ then
    let e := next_entry_ s in
    p ← insertEntry e (timer_ s);
    mret (mk p.1 (e + 1) (<[fd := mk_conn ContextParse.init (Some e) input [] false]> (connections_ s)), p.2)
  else mret (mk (timer_ s) (next_entry_ s) (<[fd := mk_conn ContextParse.init None input [] false]> (connections_ s)), []).

(** [weak_ptr::lock] of the entry: some slot still holds it. *)
Definition alive (e : option entry) (w : TimerWheel.t) : bool :=
  match e with Some e => bool_decide (e ∈ TimerWheel.held w) | None => false end.

Definition touches (fx : list Server.effect) : bool :=
  existsb (fun f => match f with Server.TouchTimer => true | _ => false end) fx.

(** [onMessage] with the bytes [data] just read. *)
Definition onMessage (fd : Z) (time : Timestamp.t) (data : bytes) (s : t) : outcome (t * list WheelSpec.op) :=
  match connections_ s !! fd with
  | None => mret (s, [])
  | Some c =>
      buf ← Buffer.append (input_ c) data;
      r ← Server.onMessage (HttpSpec.enough (Buffer.content buf)) http_callback_ order fresh use_timer_
            (alive (entry_ c) (timer_ s)) time (context_ c) buf;
      match r with
      | None => Fault Undefined
      | Some (context, buf, fx) =>
          p ← (match entry_ c with
               | Some e => if touches fx then insertEntry e (timer_ s) else mret (timer_ s, [])
               | None => mret (timer_ s, [])
               end);
          mret (mk p.1 (next_entry_ s)
                   (<[fd := mk_conn context (entry_ c) buf (effects_ c ++ fx) (timed_out_ c)]> (connections_ s)), p.2)
      end
  end.

(** [~TimeWheelEntry] of the entries in [dead]. *)
Definition expire (dead : list entry) (c : conn) : conn :=
  match entry_ c with
  | Some e => if bool_decide (e ∈ dead) then mk_conn (context_ c) (entry_ c) (input_ c) (effects_ c ++ [Server.Shutdown]) true else c
  | None => c
  end.

Definition onTimer (s : t) : outcome (t * list WheelSpec.op) :=
  p ← TimerWheel.onTimer (timer_ s);
  mret (mk p.1 (next_entry_ s) (expire p.2 <$> connections_ s), [WheelSpec.Tick]).

(** The connection [fd] is destroyed. *)
Definition onClose (fd : Z) (s : t) : t := mk (timer_ s) (next_entry_ s) (delete fd (connections_ s)).

Inductive event : Type :=
  | Connected (fd : Z) (input : Buffer.t) | Message (fd : Z) (time : Timestamp.t) (data : bytes) | Tick | Closed (fd : Z).

Definition step (s : t) (ev : event) : outcome (t * list WheelSpec.op) :=
  match ev with
  | Connected fd input => onConnection fd input s
  | Message fd time data => onMessage fd time data s
  | Tick => onTimer s
  | Closed fd => mret (onClose fd s, [])
  end.

(** The states a server reaches, with everything that happened to its wheel.  A
    new connection has a new descriptor; the timer runs if it was started. *)
Definition allowed (s : t) (ev : event) : Prop :=
  match ev with Connected fd _ => connections_ s !! fd = None | Tick => use_timer_ = true | _ => True end.

Inductive reachable (s0 : t) : t -> list WheelSpec.op -> Prop :=
  | reach_refl : reachable s0 s0 []
  | reach_step s ops ev s' more : reachable s0 s ops -> allowed s ev -> step s ev ⇓ (s', more) -> reachable s0 s' (ops ++ more).
End server.
End WebServer.

Module WebServerFacts.
Import TimerWheel WheelSpec WheelFacts WebServer.
Section facts.
Context (http_callback_ : Request.t -> Response.t -> Response.t) (order : headers -> list (bytes * bytes)) (fresh : Buffer.t).
Abbreviation step_ := (step true http_callback_ order fresh).

(** A connection is timed out exactly when its entry is gone, and shares its
    entry with no other. *)
Record inv (s : t) (ops : list op) : Prop := {
  inv_wf : wf (timer_ s) /\ run_ (timer_ s) = true;
  inv_ops : run_all exec (started 10) ops ⇓ timer_ s;
  inv_entry fd c : connections_ s !! fd = Some c -> exists e, entry_ c = Some e /\ e < next_entry_ s /\
    (timed_out_ c = true <-> e ∉ held (timer_ s));
  inv_inj fd fd' c c' e : connections_ s !! fd = Some c -> connections_ s !! fd' = Some c' ->
    entry_ c = Some e -> entry_ c' = Some e -> fd = fd' }.

Lemma insertEntry_ok e w : wf w -> run_ w = true -> exists w',
  WebServer.insertEntry e w ⇓ (w', [Insert e]) /\ exec w (Insert e) ⇓ w' /\ wf w' /\ run_ w' = true /\
  forall e', e' ∈ held w' <-> e' ∈ held w \/ e' = e.
Proof.
  intros Hwf Hr. destruct (insert_spec w e Hwf) as (w' & Hw' & Hwf' & _ & _ & Hr' & _). exists w'.
  unfold WebServer.insertEntry, exec, TimerWheel.insertEntry. rewrite Hr. cbn [mbind outcome_bind]. rewrite Hw'.
  split_and!; [done..|by rewrite Hr'|]. by eapply held_insert.
Qed.

(** The handlers ask for the timer only while the entry is alive. *)
Lemma touches_alive fuel use_timer alive time context buf context' buf' fx :
  Server.onMessage fuel http_callback_ order fresh use_timer alive time context buf ⇓ Some (context', buf', fx) ->
  touches fx = true -> alive = true.
Proof.
  unfold Server.onMessage. destruct (ContextParse.parseRequest fuel time context buf) as [[[[c b] ok]|]|]; [|done..].
  cbn [mbind outcome_bind]. destruct (ContextParse.gotAll c).
  - unfold Server.onRequest. destruct (Response.appendToBuffer _ _ _) as [out|]; [|done]. cbn [mbind outcome_bind].
    intros [= _ _ <-]. unfold touches. rewrite existsb_app. destruct ok, (Response.close_connection_ _), use_timer, alive; done.
  - intros [= _ _ <-]. by destruct ok.
Qed.

Lemma run_snoc w ops o w1 w2 : run_all exec w ops ⇓ w1 -> exec w1 o ⇓ w2 -> run_all exec w (ops ++ [o]) ⇓ w2.
Proof. intros H1 H2. rewrite run_all_app, H1. cbn [mbind outcome_bind run_all]. by rewrite H2. Qed.

(** The other connections, when [fd] gets a new record with an entry of its own
    and the wheel holds more. *)
Lemma inv_update s ops fd c w n more : inv s ops -> wf w -> run_ w = true -> run_all exec (started 10) (ops ++ more) ⇓ w ->
  next_entry_ s <= n -> (forall e, e < next_entry_ s -> e ∈ held w <-> e ∈ held (timer_ s)) ->
  (exists e, entry_ c = Some e /\ e < n /\ (timed_out_ c = true <-> e ∉ held w) /\
     forall fd' c', fd' <> fd -> connections_ s !! fd' = Some c' -> entry_ c' <> Some e) ->
  inv (mk w n (<[fd := c]> (connections_ s))) (ops ++ more).
Proof.
  intros [_ _ He Hi] Hwf Hr Hops Hn Hheld (e & Hce & Hen & Ht & Hother). split; cbn [timer_ next_entry_ connections_]; [done|done| |].
  - intros fd' c' [[<- <-]|[Hne Hc']]%lookup_insert_Some; [eauto|]. destruct (He _ _ Hc') as (e' & He' & Hlt & Ht').
    exists e'. split_and!; [done|lia|]. by rewrite Hheld.
  - intros f1 f2 c1 c2 e' H1 H2 He1 He2. apply lookup_insert_Some in H1 as [[<- <-]|[Hn1 H1]], H2 as [[<- <-]|[Hn2 H2]]; [done| | |by eapply Hi].
    + rewrite Hce in He1. injection He1 as <-. by destruct (Hother f2 c2).
    + rewrite Hce in He2. injection He2 as <-. by destruct (Hother f1 c1).
Qed.

Lemma connection_inv s ops fd input s' more : inv s ops -> connections_ s !! fd = None ->
  onConnection true fd input s ⇓ (s', more) -> inv s' (ops ++ more).
Proof.
  intros Hinv Hfd Hs. pose proof Hinv as [[Hwf Hr] Hops He _]. destruct (insertEntry_ok (next_entry_ s) (timer_ s) Hwf Hr) as (w & Hw & Hx & Hwf' & Hr' & Hh).
  unfold onConnection in Hs. rewrite Hw in Hs. injection Hs as <- <-. cbn [fst snd]. apply inv_update; [done|done|done|by eapply run_snoc|lia| |].
  - intros e Hlt. rewrite Hh. split; [|by left]. intros [?| ->]; [done|lia].
  - exists (next_entry_ s). split_and!; [done|lia| |].
    + cbn [timed_out_]. split; [done|]. intros Hn. destruct Hn. apply Hh. by right.
    + intros fd' c' _ Hc' Hce. destruct (He _ _ Hc') as (e' & He' & Hlt & _). rewrite Hce in He'. injection He' as <-. lia.
Qed.

Lemma message_inv s ops fd time data s' more : inv s ops ->
  onMessage true http_callback_ order fresh fd time data s ⇓ (s', more) -> inv s' (ops ++ more).
Proof.
  intros Hinv Hs. pose proof Hinv as [[Hwf Hr] Hops He Hi]. unfold onMessage in Hs.
  destruct (connections_ s !! fd) as [c|] eqn:Hc; [|by injection Hs as <- <-; rewrite app_nil_r].
  destruct (He _ _ Hc) as (e & Hce & Hlt & Ht). destruct (Buffer.append (input_ c) data) as [buf|]; [|done]. cbn [mbind outcome_bind] in Hs.
  destruct (Server.onMessage _ _ _ _ _ _ _ _ _) as [[[[context buf'] fx]|]|] eqn:Hm; [|done..]. cbn [mbind outcome_bind] in Hs. rewrite Hce in Hs.
  assert (forall fd' c', fd' <> fd -> connections_ s !! fd' = Some c' -> entry_ c' <> Some e) as Hother.
  { intros fd' c' Hne Hc' Hce'. by destruct Hne, (Hi fd' fd c' c e Hc' Hc Hce' Hce). }
  destruct (touches fx) eqn:Htf.
  - assert (e ∈ held (timer_ s)) as Hheld.
    { pose proof (touches_alive _ _ _ _ _ _ _ _ _ Hm Htf) as Ha. rewrite Hce in Ha. by apply bool_decide_eq_true in Ha. }
    destruct (insertEntry_ok e (timer_ s) Hwf Hr) as (w & Hw & Hx & Hwf' & Hr' & Hh). rewrite Hw in Hs. injection Hs as <- <-.
    assert (forall e', e' ∈ held w <-> e' ∈ held (timer_ s)) as Hsame by (intros e'; rewrite Hh; naive_solver).
    apply inv_update; [done|done|done|by eapply run_snoc|lia|auto|]. exists e. split_and!; [done|done| |done]. cbn [timed_out_]. by rewrite Hsame.
  - injection Hs as <- <-. apply inv_update; [done|done|done|by rewrite app_nil_r|lia|done|]. by exists e.
Qed.

Lemma tick_inv s ops s' more : inv s ops -> onTimer s ⇓ (s', more) -> inv s' (ops ++ more).
Proof.
  intros [[Hwf Hr] Hops He Hi] Hs. unfold onTimer in Hs. destruct (onTimer_spec (timer_ s) Hwf) as (dead & Hd & _ & Hdead).
  rewrite Hd in Hs. injection Hs as <- <-. cbn [fst snd]. 
  assert (forall c, entry_ (expire dead c) = entry_ c) as Hent by (intros c; unfold expire; destruct (entry_ c) eqn:Hc; [case_bool_decide|]; done).
  split; cbn [timer_ next_entry_ connections_].
  - split; [by apply ticked_wf|done].
  - eapply run_snoc; [done|]. cbn [exec]. by rewrite Hd.
  - intros fd c. rewrite lookup_fmap. destruct (connections_ s !! fd) as [c0|] eqn:Hc; [|done]. intros [= <-].
    destruct (He _ _ Hc) as (e & Hce & Hlt & Ht). exists e. rewrite Hent. split_and!; [done..|]. unfold expire. rewrite Hce.
    case_bool_decide as Hin; [apply Hdead in Hin as [_ Hin]; by split|]. rewrite Ht. split; [intros Hn Hh; by apply Hn, held_tick|].
    intros Hn Hh. apply Hin, Hdead. by split.
  - intros fd fd' c c' e. rewrite !lookup_fmap. destruct (connections_ s !! fd) as [c0|] eqn:Hc; [|done].
    destruct (connections_ s !! fd') as [c0'|] eqn:Hc'; [|done]. intros [= <-] [= <-]. rewrite !Hent. by apply (Hi _ _ _ _ _ Hc Hc').
Qed.

Lemma server_inv s0 s ops : make true ⇓ s0 -> reachable true http_callback_ order fresh s0 s ops -> inv s ops.
Proof.
  intros H0. induction 1 as [|s ops ev s' more _ IH Ha Hs].
  - injection H0 as <-. split; cbn [timer_ connections_ next_entry_]; [|done|by intros ? ? ?%lookup_empty_Some|by intros ? ? ? ? ? ?%lookup_empty_Some].
    split; [by apply init_wf|done].
  - destruct ev as [fd input|fd time data| |fd]; cbn [step] in Hs.
    + by eapply connection_inv.
    + by eapply message_inv.
    + by eapply tick_inv.
    + injection Hs as <- <-. rewrite app_nil_r. destruct IH as [Hw Hops He Hi]. split; cbn [timer_ connections_ next_entry_ onClose]; [done|done| |].
      * intros fd' c [_ Hc]%lookup_delete_Some. by apply (He fd').
      * intros f1 f2 c1 c2 e [_ H1]%lookup_delete_Some [_ H2]%lookup_delete_Some. by eapply Hi.
Qed.
End facts.
End WebServerFacts.

(** ** Properties *)
Module WebServerTheorems.
Import TimerWheel WheelSpec WheelFacts WebServer WebServerFacts.

(** When the server closes idle connections: every connection has an entry
    of its own, and it has been shut down by the timer exactly when no
    insertion of that entry (at accept, and after each request served without
    closing) is younger than its life, [10] ticks or a single one.  A
    connection that was shut down is never inserted again. *)
Theorem idle_timeout callback order fresh s0 s ops fd c :
  make true ⇓ s0 -> reachable true callback order fresh s0 s ops -> connections_ s !! fd = Some c -> exists e,
  entry_ c = Some e /\
  (timed_out_ c = false <-> exists ops1 ops2, ops = ops1 ++ Insert e :: ops2 /\ ticks ops2 < life 10 (ticks ops1)) /\
  (forall time data s' more, onMessage true callback order fresh fd time data s ⇓ (s', more) ->
     more = [] \/ (more = [Insert e] /\ timed_out_ c = false)) /\
  (forall fd' c', connections_ s !! fd' = Some c' -> entry_ c' = Some e -> fd' = fd).
Proof.
  intros H0 Hr Hc. destruct (server_inv _ _ _ _ _ _ H0 Hr) as [[Hwf Hrun] Hops He Hi]. destruct (He _ _ Hc) as (e & Hce & _ & Ht).
  exists e. split_and!; [done| | |intros fd' c' Hc' Hce'; by eapply Hi].
  - destruct (run_lasts 10 ops) as (w & Hw & _ & Hlast); [unfold two_31; lia|]. rewrite Hops in Hw. injection Hw as <-.
    rewrite <-(held_lasts 10 ops (timer_ s) e Hwf Hlast), <-not_true_iff_false, Ht. destruct (decide (e ∈ held (timer_ s))); tauto.
  - intros time data s' more Hm. unfold onMessage in Hm. rewrite Hc in Hm. destruct (Buffer.append (input_ c) data) as [buf|]; [|done]. cbn [mbind outcome_bind] in Hm.
    destruct (Server.onMessage _ _ _ _ _ _ _ _ _) as [[[[context buf'] fx]|]|] eqn:Hom; [|done..]. cbn [mbind outcome_bind] in Hm. rewrite Hce in Hm.
    destruct (touches fx) eqn:Htf; [right|left; by injection Hm as _ <-].
    destruct (insertEntry_ok e (timer_ s) Hwf Hrun) as (w & Hw & _). rewrite Hw in Hm. injection Hm as _ <-. split; [done|].
    pose proof (touches_alive _ _ _ _ _ _ _ _ _ _ _ _ Hom Htf) as Ha. rewrite Hce in Ha. apply bool_decide_eq_true in Ha.
    apply not_true_iff_false. rewrite Ht. tauto.
Qed.

(** A connection accepted after one tick, and a keep-alive request on it. *)
Definition request_text : bytes := HttpSpec.print_request Request.Get (lit "/hello") [] Request.Http11 [].
Definition play_callback : Request.t -> Response.t -> Response.t := Server.HttpRequest [] [].
Definition play_order : headers -> list (bytes * bytes) := map_to_list.
Definition play_buffer : Buffer.t := Buffer.mk (replicate 256 "000"%char) 8 8.
Definition play (p : outcome (t * list op)) (ev : event) : outcome (t * list op) :=
  q ← p; r ← step true play_callback play_order play_buffer q.1 ev; mret (r.1, q.2 ++ r.2).
Definition played (evs : list event) : outcome (t * list op) := foldl play (s ← make true; mret (s, [])) evs.
Definition play_events : list event := [Tick; Connected 5 play_buffer; Tick; Message 5 0 request_text; Tick].
Definition play_at (k : nat) : t * list op := match played (take k play_events) with Done p => p | Fault _ => (mk (init 10) 0 ∅, []) end.
Definition play_state : t := (play_at 5).1.
Definition play_conn : conn := match connections_ play_state !! 5 with Some c => c | None => mk_conn ContextParse.init None play_buffer [] false end.

Lemma play_one p ev q : reachable true play_callback play_order play_buffer (mk (started 10) 0 ∅) p.1 p.2 -> allowed true p.1 ev ->
  play (Done p) ev ⇓ q -> reachable true play_callback play_order play_buffer (mk (started 10) 0 ∅) q.1 q.2.
Proof.
  intros Hr Ha Hp. unfold play in Hp. cbn [mbind outcome_bind] in Hp.
  destruct (step true play_callback play_order play_buffer p.1 ev) as [[s' more]|] eqn:Hs; [|done]. injection Hp as <-. by eapply reach_step.
Qed.

Lemma idle_timeout_witness : exists e,
  entry_ play_conn = Some e /\
  (timed_out_ play_conn = false <-> exists ops1 ops2, (play_at 5).2 = ops1 ++ Insert e :: ops2 /\ ticks ops2 < life 10 (ticks ops1)) /\
  (forall time data s' more, onMessage true play_callback play_order play_buffer 5 time data play_state ⇓ (s', more) ->
     more = [] \/ (more = [Insert e] /\ timed_out_ play_conn = false)) /\
  (forall fd' c', connections_ play_state !! fd' = Some c' -> entry_ c' = Some e -> fd' = 5).
Proof.
  apply (idle_timeout play_callback play_order play_buffer (mk (started 10) 0 ∅) play_state (play_at 5).2 5 play_conn);
    [done| |by vm_compute].
  apply (play_one (play_at 4) Tick (play_at 5)); [|done|by vm_compute].
  apply (play_one (play_at 3) (Message 5 0 request_text) (play_at 4)); [|done|by vm_compute].
  apply (play_one (play_at 2) Tick (play_at 3)); [|done|by vm_compute].
  apply (play_one (play_at 1) (Connected 5 play_buffer) (play_at 2)); [|by vm_compute|by vm_compute].
  apply (play_one (play_at 0) Tick (play_at 1)); [apply reach_refl|done|by vm_compute].
Defined.

(** The image is loaded whole, or the constructor fails an assertion. *)
Theorem image_loaded_whole image_path file image : load_image image_path file ⇓ image ->
  (image_path = [] /\ image = []) \/ exists file_len, file = Some (file_len, image) /\ len image = u64 file_len.
Proof.
  unfold load_image. case_bool_decide as Hp; [intros [= <-]; by left|]. destruct file as [[n data]|]; [|done].
  case_bool_decide as Hl; [|done]. intros [= <-]. right. by exists n.
Qed.
End WebServerTheorems.
