(* ===== verification/Clients.v ===== *)
(** * Clients: Connector and TcpClient

    Models [Connector] ([src/muduo/net/Connector.h], [Connector.cc]), the parts
    of [SocketsOps.cc] it uses, and [TcpClient] ([TcpClient.h], [TcpClient.cc]).
    The event loop is the explicit queue of functors and the list of timers;
    the answers of the kernel are arguments of the steps.  The theorems show
    that a client that starts only when idle never fails an assertion, leaks
    no descriptor and never closes one twice, that retries back off as
    intended, and what happens when a client starts at the wrong time. *)
From S2P Require Import Prelude LogStreams.

Local Open Scope Z_scope.
Local Open Scope muduo_scope.

(** ** Descriptors, functors and timers around a client *)
Inductive functor : Type :=
  | StartInLoop
  | StopInLoop
  | ResetChannel
  | ConnectDestroyed (fd : Z).
Global Instance functor_eq_dec : EqDecision functor.
Proof. solve_decision. Defined.

Record env : Type := mk_env {
  pending_ : list functor;   (* functors queued in the loop *)
  timers_ : list Z;          (* timers that will call [startInLoop]: their delays in ms *)
  open_ : gset Z;            (* open sockets *)
  bad_close_ : bool;         (* [sockets::close] has reported an error *)
}.
Definition queueInLoop (f : functor) (e : env) : env := mk_env (pending_ e ++ [f]) (timers_ e) (open_ e) (bad_close_ e).
Definition runAfter (ms : Z) (e : env) : env := mk_env (pending_ e) (timers_ e ++ [ms]) (open_ e) (bad_close_ e).

(** What the kernel answers while a step runs. *)
Record answers : Type := mk_answers {
  a_socket : Z;      (* [::socket]: a descriptor, or negative *)
  a_errno : Z;       (* [::connect]: [0], or the errno *)
}.

(** errno values (Linux). *)
Definition EPERM := 1.
Definition EINTR := 4.
Definition EAGAIN := 11.
Definition EADDRINUSE := 98.
Definition EADDRNOTAVAIL := 99.
Definition ENETUNREACH := 101.
Definition EISCONN := 106.
Definition ECONNREFUSED := 111.
Definition EINPROGRESS := 115.

Module sockets.
Definition createNonblockingOrDie (a : answers) (e : env) : outcome (Z * env) :=
  if bool_decide (a_socket a < 0) then Fault LogFatal
  else mret (a_socket a, mk_env (pending_ e) (timers_ e) ({[a_socket a]} ∪ open_ e) (bad_close_ e)).
Definition close (fd : Z) (e : env) : env :=
  mk_env (pending_ e) (timers_ e) (open_ e ∖ {[fd]}) (bad_close_ e || negb (bool_decide (fd ∈ open_ e))).

(** [isSelfConnect] on the two addresses: family, port, address bytes. *)
Record sockaddr : Type := mk_sockaddr { family : Z; port : Z; addr : bytes }.
Definition AF_INET := 2.
Definition AF_INET6 := 10.
Definition isSelfConnect (localaddr peeraddr : sockaddr) : bool :=
  if bool_decide (family localaddr = AF_INET)
  then bool_decide (port localaddr = port peeraddr) && bool_decide (take 4 (addr localaddr) = take 4 (addr peeraddr))
  else if bool_decide (family localaddr = AF_INET6)
  then bool_decide (port localaddr = port peeraddr) && bool_decide (addr localaddr = addr peeraddr)
  else false.

(** [getSocketError]: [getsockopt] fails with an errno, or yields [SO_ERROR]. *)
Definition getSocketError (answer : Z + Z) : Z := match answer with inl errno => errno | inr optval => optval end.
End sockets.

Module Connector.
Inductive States : Type := kDisconnected | kConnecting | kConnected.
Global Instance States_eq_dec : EqDecision States.
Proof. solve_decision. Defined.

Definition kMaxRetryDelayMs : Z := 30 * 1000.
Definition kInitRetryDelayMs : Z := 500.

(** [channel_]: its descriptor, and whether it is registered with the poller. *)
Record t : Type := mk {
  connect_ : bool;
  state_ : States;
  channel_ : option (Z * bool);
  retryDelayMs_ : Z;
}.
Definition init : t := mk false kDisconnected None kInitRetryDelayMs.
Definition destroy (c : t) : outcome unit := assert_ (bool_decide (channel_ c = None)).

Definition setState (s : States) (c : t) : t := mk (connect_ c) s (channel_ c) (retryDelayMs_ c).
Definition setConnect (b : bool) (c : t) : t := mk b (state_ c) (channel_ c) (retryDelayMs_ c).
Definition setChannel (ch : option (Z * bool)) (c : t) : t := mk (connect_ c) (state_ c) ch (retryDelayMs_ c).

Definition retry (fd : Z) (c : t) (e : env) : t * env :=
  let e := sockets.close fd e in
  let c := setState kDisconnected c in
  if connect_ c
  then (mk (connect_ c) (state_ c) (channel_ c) (Z.min (retryDelayMs_ c * 2) kMaxRetryDelayMs),
        runAfter (retryDelayMs_ c) e)
  else (c, e).

Definition connecting (fd : Z) (c : t) : outcome t :=
  let c := setState kConnecting c in
  assert_ (bool_decide (channel_ c = None));;
  mret (setChannel (Some (fd, true)) c).

Definition connect (a : answers) (c : t) (e : env) : outcome (t * env) :=
  '(fd, e) ← sockets.createNonblockingOrDie a e;
  let savedErrno := a_errno a in
  if bool_decide (savedErrno ∈ [0; EINPROGRESS; EINTR; EISCONN]) then
    c ← connecting fd c; mret (c, e)
  else if bool_decide (savedErrno ∈ [EAGAIN; EADDRINUSE; EADDRNOTAVAIL; ECONNREFUSED; ENETUNREACH]) then
    mret (retry fd c e)
  else mret (c, sockets.close fd e).

Definition startInLoop (a : answers) (c : t) (e : env) : outcome (t * env) :=
  assert_ (bool_decide (state_ c = kDisconnected));;
  if connect_ c then connect a c e else mret (c, e).

(** [in_loop]: the caller is the loop's thread, so that [runInLoop] is a call. *)
Definition start (in_loop : bool) (a : answers) (c : t) (e : env) : outcome (t * env) :=
  let c := setConnect true c in
  if in_loop then startInLoop a c e else mret (c, queueInLoop StartInLoop e).

Definition restart (a : answers) (c : t) (e : env) : outcome (t * env) :=
  startInLoop a (mk true kDisconnected (channel_ c) kInitRetryDelayMs) e.

Definition removeAndResetChannel (c : t) (e : env) : outcome (Z * t * env) :=
  match channel_ c with
  | Some (fd, true) => mret (fd, setChannel (Some (fd, false)) c, queueInLoop ResetChannel e)
  | _ => Fault Undefined
  end.
Definition resetChannel (c : t) : t := setChannel None c.

Definition stop (c : t) (e : env) : t * env := (setConnect false c, queueInLoop StopInLoop e).
Definition stopInLoop (c : t) (e : env) : outcome (t * env) :=
  if bool_decide (state_ c = kConnecting) then
    '(fd, c, e) ← removeAndResetChannel (setState kDisconnected c) e;
    mret (retry fd c e)
  else mret (c, e).

(** [handleWrite]; the descriptor that [newConnectionCallback_] is given, if any. *)
Definition handleWrite (so_error : Z) (self_connect : bool) (c : t) (e : env) : outcome (t * env * option Z) :=
  if bool_decide (state_ c = kConnecting) then
    '(fd, c, e) ← removeAndResetChannel c e;
    if negb (bool_decide (so_error = 0)) then mret (retry fd c e, None)
    else if self_connect then mret (retry fd c e, None)
    else
      let c := setState kConnected c in
      if connect_ c then mret (c, e, Some fd) else mret (c, sockets.close fd e, None)
  else
    assert_ (bool_decide (state_ c = kDisconnected));; mret (c, e, None).

Definition handleError (c : t) (e : env) : outcome (t * env) :=
  if bool_decide (state_ c = kConnecting) then
    '(fd, c, e) ← removeAndResetChannel c e;
    mret (retry fd c e)
  else mret (c, e).
End Connector.

(** ** TcpClient *)
Module TcpClient.

(** A connection: its name and its socket. *)
Abbreviation connection := (bytes * Z)%type.

Record t : Type := mk {
  connector_ : Connector.t;
  name_ : bytes;
  retry_ : bool;
  connect_ : bool;
  nextConnId_ : Z;
  connection_ : option connection;
}.
Definition init (name : bytes) : t := mk Connector.init name false true 1 None.
Definition set_connector (k : Connector.t) (c : t) : t :=
  mk k (name_ c) (retry_ c) (connect_ c) (nextConnId_ c) (connection_ c).
Definition set_connect (b : bool) (c : t) : t :=
  mk (connector_ c) (name_ c) (retry_ c) b (nextConnId_ c) (connection_ c).
Definition enableRetry (c : t) : t := mk (connector_ c) (name_ c) true (connect_ c) (nextConnId_ c) (connection_ c).

Definition connect (in_loop : bool) (a : answers) (c : t) (e : env) : outcome (t * env) :=
  let c := set_connect true c in
  '(k, e) ← Connector.start in_loop a (connector_ c) e;
  mret (set_connector k c, e).

(** Also whether the connection is asked to shut down. *)
Definition disconnect (c : t) : t * bool :=
  (set_connect false c, match connection_ c with Some _ => true | None => false end).

Definition stop (c : t) (e : env) : t * env :=
  let c := set_connect false c in
  let '(k, e) := Connector.stop (connector_ c) e in
  (set_connector k c, e).

(** [snprintf(buf, 32, ":%s#%d", ...)] cuts the text at 31 characters. *)
Definition newConnection (peer : bytes) (fd : Z) (c : t) : outcome t :=
  id ← convert (nextConnId_ c);
  let buf := take 31 (lit ":" ++ peer ++ lit "#" ++ id) in
  next ← checked32 (nextConnId_ c + 1);
  mret (mk (connector_ c) (name_ c) (retry_ c) (connect_ c) next (Some (name_ c ++ buf, fd))).

Definition removeConnection (a : answers) (conn : connection) (c : t) (e : env) : outcome (t * env) :=
  assert_ (bool_decide (connection_ c = Some conn));;
  let c := mk (connector_ c) (name_ c) (retry_ c) (connect_ c) (nextConnId_ c) None in
  let e := queueInLoop (ConnectDestroyed conn.2) e in
  if retry_ c && connect_ c then
    '(k, e) ← Connector.restart a (connector_ c) e;
    mret (set_connector k c, e)
  else mret (c, e).

(** [~TcpClient]: what it asks of its connection, and the connector that is left,
    kept alive by the loop's functors and timers.  [unique]: nobody else holds
    the connection.  The timer of the last line only keeps the connector alive. *)
Inductive wish : Type := SetCloseCallback | ForceClose.
Definition destroy (unique : bool) (c : t) (e : env) : list wish * Connector.t * env :=
  match connection_ c with
  | Some _ => (SetCloseCallback :: (if unique then [ForceClose] else []), connector_ c, e)
  | None => let '(k, e) := Connector.stop (connector_ c) e in ([], k, e)
  end.
(** [detail::removeConnection], the close callback from then on. *)
Definition detail_removeConnection (conn : connection) (e : env) : env := queueInLoop (ConnectDestroyed conn.2) e.

(** ** Steps of a client and its loop *)
Inductive op : Type :=
  | Connect (in_loop : bool) (a : answers)
  | Disconnect
  | Stop
  | EnableRetry
  | RunFunctor (a : answers)
  | Timer (a : answers)
  | Event (err write : bool) (so_error : Z) (self_connect : bool) (peer : bytes)
  | Closed (a : answers).

Definition run_functor (a : answers) (f : functor) (c : t) (e : env) : outcome (t * env) :=
  match f with
  | StartInLoop => '(k, e) ← Connector.startInLoop a (connector_ c) e; mret (set_connector k c, e)
  | StopInLoop => '(k, e) ← Connector.stopInLoop (connector_ c) e; mret (set_connector k c, e)
  | ResetChannel => mret (set_connector (Connector.resetChannel (connector_ c)) c, e)
  | ConnectDestroyed fd => mret (c, sockets.close fd e)
  end.

(** The dispatch of [Channel::handleEvent]: error first, then write. *)
Definition event (err write : bool) (so_error : Z) (self_connect : bool) (peer : bytes) (c : t) (e : env)
    : outcome (t * env) :=
  '(k, e) ← (if err then Connector.handleError (connector_ c) e else mret (connector_ c, e));
  '(k, e, fd) ← (if write then Connector.handleWrite so_error self_connect k e else mret (k, e, None));
  let c := set_connector k c in
  match fd with
  | Some fd => c ← newConnection peer fd c; mret (c, e)
  | None => mret (c, e)
  end.

Definition step (s : t * env) (o : op) : outcome (t * env) :=
  let '(c, e) := s in
  match o with
  | Connect in_loop a => connect in_loop a c e
  | Disconnect => mret ((disconnect c).1, e)
  | Stop => mret (stop c e)
  | EnableRetry => mret (enableRetry c, e)
  | RunFunctor a =>
      match pending_ e with
      | f :: fs => run_functor a f c (mk_env fs (timers_ e) (open_ e) (bad_close_ e))
      | [] => mret (c, e)
      end
  | Timer a =>
      match timers_ e with
      | _ :: ts =>
          '(k, e) ← Connector.startInLoop a (connector_ c) (mk_env (pending_ e) ts (open_ e) (bad_close_ e));
          mret (set_connector k c, e)
      | [] => mret (c, e)
      end
  | Event err write so_error self peer => event err write so_error self peer c e
  | Closed a => match connection_ c with Some conn => removeConnection a conn c e | None => mret (c, e) end
  end.

(** ** What the loop does with the connector of a destroyed client

    The functors and timers left, and the events of its channel; with each
    step the descriptor that [newConnectionCallback_] would be called with. *)
Inductive orphan_op : Type :=
  | OFunctor (a : answers) (f : functor)
  | OTimer (a : answers)
  | OError
  | OWrite (so_error : Z) (self_connect : bool).
Definition orphan_step (k : Connector.t) (e : env) (o : orphan_op) : outcome (Connector.t * env * option Z) :=
  match o with
  | OFunctor a StartInLoop | OTimer a => '(k, e) ← Connector.startInLoop a k e; mret (k, e, None)
  | OFunctor _ StopInLoop => '(k, e) ← Connector.stopInLoop k e; mret (k, e, None)
  | OFunctor _ ResetChannel => mret (Connector.resetChannel k, e, None)
  | OFunctor _ (ConnectDestroyed fd) => mret (k, sockets.close fd e, None)
  | OError => '(k, e) ← Connector.handleError k e; mret (k, e, None)
  | OWrite so_error self_connect => Connector.handleWrite so_error self_connect k e
  end.
End TcpClient.

(** ** Specification: when a client may do what, and what it keeps *)
Module ClientSpec.
Import Connector TcpClient.

(** Nothing of an earlier attempt is left. *)
Definition idle (c : TcpClient.t) (e : env) : Prop :=
  state_ (connector_ c) = kDisconnected /\ channel_ (connector_ c) = None /\
  timers_ e = [] /\ (StartInLoop ∉ pending_ e).

(** [socket(2)] returns a descriptor that is not open. *)
Definition answers_ok (a : answers) (e : env) : Prop := 0 <= a_socket a /\ (a_socket a ∉ open_ e).

(** [connect] is called when the client is idle.  A timer fires half a second
    or more after the handler that set it, when the loop has run the
    [resetChannel] that the same handler queued; a new connection can close
    only in a later turn of the loop, for the same reason.  A channel has
    events while it is registered. *)
Definition allowed (s : TcpClient.t * env) (o : op) : Prop :=
  let '(c, e) := s in
  match o with
  | Connect _ a => idle c e /\ answers_ok a e
  | RunFunctor a => answers_ok a e
  | Timer a => (ResetChannel ∉ pending_ e) /\ answers_ok a e
  | Closed a => (ResetChannel ∉ pending_ e) /\ answers_ok a e
  | Event _ _ _ _ _ => (exists fd, channel_ (connector_ c) = Some (fd, true)) /\ nextConnId_ c + 1 < two_31
  | Disconnect | Stop | EnableRetry => True
  end.

Inductive reachable (name : bytes) : TcpClient.t * env -> Prop :=
  | reach_init : reachable name (TcpClient.init name, mk_env [] [] ∅ false)
  | reach_step s o s' : reachable name s -> allowed s o -> step s o ⇓ s' -> reachable name s'.

Definition chan_fds (k : Connector.t) : list Z := match channel_ k with Some (fd, true) => [fd] | _ => [] end.
Definition conn_fds (c : TcpClient.t) : list Z := match connection_ c with Some (_, fd) => [fd] | None => [] end.
Definition dead_fds (fs : list functor) : list Z :=
  omap (fun f => match f with ConnectDestroyed fd => Some fd | _ => None end) fs.

(** The sockets that the client is responsible for: that of the attempt, that of
    the connection, and those of connections about to be destroyed. *)
Definition owned (s : TcpClient.t * env) : list Z :=
  chan_fds (connector_ s.1) ++ conn_fds s.1 ++ dead_fds (pending_ s.2).

Definition counts (f : functor) (e : env) : nat := length (filter (fun g => g = f) (pending_ e)).
Definition attempts (k : Connector.t) (e : env) : nat :=
  length (timers_ e) + counts StartInLoop e + if bool_decide (state_ k = kDisconnected) then 0 else 1.
End ClientSpec.

Module ClientFacts.
Import Connector TcpClient ClientSpec.

(** Exactly the sockets of [fds] are open, each once, and no close has failed. *)
Definition holds (fds : list Z) (e : env) : Prop :=
  NoDup fds /\ (forall fd, fd ∈ open_ e <-> fd ∈ fds) /\ bad_close_ e = false.

(** The channel is registered in state [kConnecting] only, and waits for
    [resetChannel] otherwise. *)
Definition channel_inv (k : Connector.t) (e : env) : Prop :=
  match state_ k with
  | kConnecting => (exists fd, channel_ k = Some (fd, true)) /\ counts ResetChannel e = 0%nat
  | _ => (channel_ k = None /\ counts ResetChannel e = 0%nat) \/
         ((exists fd, channel_ k = Some (fd, false)) /\ counts ResetChannel e = 1%nat /\ counts StartInLoop e = 0%nat)
  end.

Record inv (s : TcpClient.t * env) : Prop := {
  inv_sockets : holds (owned s) s.2;
  inv_channel : channel_inv (connector_ s.1) s.2;
  inv_attempts : (attempts (connector_ s.1) s.2 <= 1)%nat;
  inv_connection : connection_ s.1 <> None -> state_ (connector_ s.1) = kConnected;
  inv_delay : kInitRetryDelayMs <= retryDelayMs_ (connector_ s.1) <= kMaxRetryDelayMs;
  inv_id : 1 <= nextConnId_ s.1 < two_31;
}.

Lemma counts_queue f g e : counts f (queueInLoop g e) = (counts f e + if decide (g = f) then 1 else 0)%nat.
Proof.
  unfold counts, queueInLoop. simpl. rewrite filter_app, length_app. f_equal.
  rewrite filter_cons, filter_nil. by case_decide.
Qed.

Lemma counts_zero f e : counts f e = 0%nat <-> f ∉ pending_ e.
Proof.
  unfold counts. rewrite length_zero_iff_nil. split.
  - intros Hn Hf. assert (f ∈ filter (fun g => g = f) (pending_ e)) as H by (by apply list_elem_of_filter).
    rewrite Hn in H. by apply not_elem_of_nil in H.
  - intros Hf. destruct (filter _ _) as [|g l] eqn:Hl; [done|].
    assert (g ∈ filter (fun g => g = f) (pending_ e)) as [-> ?]%list_elem_of_filter by (rewrite Hl; by apply list_elem_of_here).
    done.
Qed.

Lemma holds_perm fds fds' e : fds ≡ₚ fds' -> holds fds e -> holds fds' e.
Proof. intros Hp (Hn & Ho & Hb). split_and!; [by rewrite <-Hp| |done]. intros fd. by rewrite Ho, Hp. Qed.

Lemma holds_env fds p ts e : holds fds e -> holds fds (mk_env p ts (open_ e) (bad_close_ e)).
Proof. done. Qed.

Lemma holds_close fd fds e : holds (fd :: fds) e -> holds fds (sockets.close fd e).
Proof.
  intros (Hn & Ho & Hb). inversion Hn as [|? ? Hfd Hn']; subst. unfold sockets.close. split_and!; simpl.
  - done.
  - intros fd'. rewrite elem_of_difference, elem_of_singleton, Ho, elem_of_cons. naive_solver.
  - rewrite Hb. rewrite bool_decide_eq_true_2; [done|]. apply Ho, elem_of_cons. by left.
Qed.

Lemma holds_open a fds e : holds fds e -> answers_ok a e ->
  exists e', sockets.createNonblockingOrDie a e ⇓ (a_socket a, e') /\ holds (a_socket a :: fds) e' /\
    pending_ e' = pending_ e /\ timers_ e' = timers_ e.
Proof.
  intros (Hn & Ho & Hb) [Ha Hfresh]. unfold sockets.createNonblockingOrDie. rewrite bool_decide_eq_false_2 by lia.
  eexists. split; [done|]. split_and!; [|done..]. split_and!; simpl; [| |done].
  - apply NoDup_cons. by rewrite <-Ho.
  - intros fd. rewrite elem_of_union, elem_of_singleton, Ho, elem_of_cons. done.
Qed.

(** *** The connector's operations *)
Definition delay_ok (k : Connector.t) : Prop := kInitRetryDelayMs <= retryDelayMs_ k <= kMaxRetryDelayMs.

(** No timer more, or one more. *)
Definition may_retry (e e' : env) : Prop := timers_ e' = timers_ e \/ exists ms, timers_ e' = timers_ e ++ [ms].

Lemma retry_spec fd k e F k' e' :
  retry fd k e = (k', e') -> holds (fd :: F) e -> delay_ok k ->
  holds F e' /\ delay_ok k' /\ state_ k' = kDisconnected /\ channel_ k' = channel_ k /\
  pending_ e' = pending_ e /\ may_retry e e'.
Proof.
  unfold retry, delay_ok, may_retry. intros Hr Hh Hd. apply holds_close in Hh.
  simpl in Hr. destruct (Connector.connect_ k); injection Hr as <- <-; split_and!; try done; simpl; eauto;
    unfold kInitRetryDelayMs, kMaxRetryDelayMs in *; lia.
Qed.

(** The outcomes of an attempt to connect. *)
Definition attempted (k' : Connector.t) (e e' : env) : Prop :=
  (state_ k' = kConnecting /\ (exists fd, channel_ k' = Some (fd, true)) /\ timers_ e' = timers_ e) \/
  (state_ k' = kDisconnected /\ channel_ k' = None /\ may_retry e e').

Lemma startInLoop_spec a k e F :
  state_ k = kDisconnected -> channel_ k = None -> delay_ok k -> holds F e -> answers_ok a e ->
  exists k' e', startInLoop a k e ⇓ (k', e') /\ holds (chan_fds k' ++ F) e' /\ delay_ok k' /\
    pending_ e' = pending_ e /\ attempted k' e e'.
Proof.
  intros Hs Hc Hd Hh Ha. unfold startInLoop. rewrite Hs. cbn [mbind outcome_bind assert_].
  rewrite (bool_decide_eq_true_2 (kDisconnected = kDisconnected)) by done. simpl. unfold attempted.
  destruct (Connector.connect_ k) eqn:Hconn.
  2: { exists k, e. unfold chan_fds. rewrite Hc. split_and!; try done. right. split_and!; [done..|by left]. }
  unfold Connector.connect. destruct (holds_open a F e Hh Ha) as (e1 & -> & Hh1 & Hp1 & Ht1). simpl.
  case_bool_decide; [|case_bool_decide].
  - unfold connecting. simpl. rewrite Hc. eexists _, _. split; [done|]. simpl. split_and!; [done..|].
    left. rewrite Ht1. eauto.
  - destruct (retry (a_socket a) k e1) as [k' e'] eqn:Hr.
    destruct (retry_spec _ _ _ _ _ _ Hr Hh1 Hd) as (Hh' & Hd' & Hs' & Hc' & Hp' & Ht').
    exists k', e'. unfold chan_fds. rewrite Hc', Hc. split_and!; [done..|congruence|].
    right. split_and!; [done..|]. unfold may_retry in *. by rewrite <-Ht1.
  - eexists _, _. split; [done|]. unfold chan_fds. rewrite Hc. apply holds_close in Hh1.
    split_and!; [done..|]. right. split_and!; [done..|]. by left.
Qed.

Lemma removeAndResetChannel_spec fd k e F :
  channel_ k = Some (fd, true) -> holds (chan_fds k ++ F) e ->
  removeAndResetChannel k e ⇓ (fd, setChannel (Some (fd, false)) k, queueInLoop ResetChannel e) /\
  holds (fd :: F) (queueInLoop ResetChannel e).
Proof. unfold removeAndResetChannel, chan_fds. intros ->. by split. Qed.

(** Giving up an attempt: what [handleError], [stopInLoop] and a failed
    [handleWrite] have in common. *)
Definition given_up (k' : Connector.t) (e e' : env) : Prop :=
  state_ k' = kDisconnected /\ (exists fd, channel_ k' = Some (fd, false)) /\
  pending_ e' = pending_ e ++ [ResetChannel] /\ may_retry e e'.

Lemma give_up_spec fd k e F k' e' :
  channel_ k = Some (fd, true) -> holds (chan_fds k ++ F) e -> delay_ok k ->
  retry fd (setChannel (Some (fd, false)) k) (queueInLoop ResetChannel e) = (k', e') ->
  holds F e' /\ delay_ok k' /\ given_up k' e e'.
Proof.
  intros Hc Hh Hd Hr. destruct (removeAndResetChannel_spec fd k e F Hc Hh) as [_ Hh'].
  destruct (retry_spec _ _ _ _ _ _ Hr Hh' Hd) as (? & ? & ? & Hc' & Hp & Ht).
  split_and!; [done..|]. unfold given_up. split_and!; [done| |done|done]. rewrite Hc'. by exists fd.
Qed.

Lemma counts_pending f e e' : pending_ e' = pending_ e -> counts f e' = counts f e.
Proof. unfold counts. by intros ->. Qed.

Lemma counts_cons f g fs e :
  pending_ e = g :: fs -> counts f e = ((if decide (g = f) then 1 else 0) + length (filter (fun h => h = f) fs))%nat.
Proof. unfold counts. intros ->. rewrite filter_cons. by case_decide. Qed.

Lemma may_retry_length e e' : timers_ e = [] -> may_retry e e' -> (length (timers_ e') <= 1)%nat.
Proof. unfold may_retry. intros -> [->|[ms ->]]; simpl; lia. Qed.

(** Nothing is scheduled. *)
Definition quiet (e : env) : Prop := timers_ e = [] /\ counts StartInLoop e = 0%nat /\ counts ResetChannel e = 0%nat.

Lemma inv_started c k' e e' :
  attempted k' e e' -> holds (chan_fds k' ++ conn_fds c ++ dead_fds (pending_ e)) e' -> pending_ e' = pending_ e ->
  quiet e -> connection_ c = None -> delay_ok k' -> 1 <= nextConnId_ c < two_31 -> inv (set_connector k' c, e').
Proof.
  intros Hat Hh Hp (Ht & Hs & Hr) Hc Hd Hid. unfold attempted in Hat.
  split; simpl; [|unfold channel_inv|unfold attempts|by rewrite Hc|done|done].
  - unfold owned. simpl. rewrite Hp. exact Hh.
  - rewrite !(counts_pending _ _ _ Hp). destruct Hat as [(-> & ? & _)|(-> & ? & _)]; [done|]. left. done.
  - rewrite (counts_pending _ _ _ Hp), Hs. destruct Hat as [(-> & _ & ->)|(-> & _ & Hm)].
    + rewrite Ht. simpl. lia.
    + rewrite bool_decide_eq_true_2 by done. apply may_retry_length in Hm; [lia|done].
Qed.

Lemma inv_given_up c k' e e' :
  given_up k' e e' -> holds (conn_fds c ++ dead_fds (pending_ e)) e' ->
  quiet e -> connection_ c = None -> delay_ok k' -> 1 <= nextConnId_ c < two_31 -> inv (set_connector k' c, e').
Proof.
  intros (Hst & (fd & Hch) & Hp & Hm) Hh (Ht & Hs & Hr) Hc Hd Hid.
  assert (forall f, counts f e' = (counts f e + if decide (ResetChannel = f) then 1 else 0)%nat) as Hcnt.
  { intros f. rewrite <-counts_queue. by apply counts_pending. }
  split; simpl; [|unfold channel_inv|unfold attempts|by rewrite Hc|done|done].
  - unfold owned. simpl. unfold chan_fds. rewrite Hch, Hp. unfold dead_fds. rewrite omap_app. simpl. by rewrite app_nil_r.
  - rewrite Hst. right. rewrite !Hcnt, Hs, Hr. split_and!; [by exists fd|done..].
  - rewrite Hst, Hcnt, Hs. rewrite bool_decide_eq_true_2 by done. apply may_retry_length in Hm; [|done]. simpl. lia.
Qed.

(** What the invariant says in each state. *)
Lemma inv_connecting s fd : inv s -> channel_ (connector_ s.1) = Some (fd, true) ->
  state_ (connector_ s.1) = kConnecting /\ quiet s.2 /\ connection_ s.1 = None.
Proof.
  intros [_ Hch Hat Hconn _ _] Hc. unfold channel_inv in Hch.
  destruct (state_ (connector_ s.1)) eqn:Hst; [destruct Hch as [[? _]|[[? ?] _]]; congruence| |
    destruct Hch as [[? _]|[[? ?] _]]; congruence].
  unfold attempts in Hat. rewrite Hst, bool_decide_eq_false_2 in Hat by done. split_and!; [done|..].
  - split_and!; [apply nil_length_inv; lia|lia|apply Hch].
  - destruct (connection_ s.1); [|done]. by discriminate Hconn.
Qed.

Lemma inv_no_connection s : inv s -> state_ (connector_ s.1) <> kConnected -> connection_ s.1 = None.
Proof. intros Hi Hst. destruct (connection_ s.1) eqn:Hc; [|done]. destruct Hst. apply Hi. by rewrite Hc. Qed.

Lemma inv_channel_none s : inv s -> state_ (connector_ s.1) <> kConnecting ->
  counts ResetChannel s.2 = 0%nat -> channel_ (connector_ s.1) = None.
Proof.
  intros Hi Hst Hr. pose proof (inv_channel _ Hi) as Hch. unfold channel_inv in Hch.
  destruct (state_ (connector_ s.1)); [|done|]; destruct Hch as [[? _]|[_ [? _]]]; try done; lia.
Qed.

(** *** Each step *)
(** An attempt from a quiet loop, whose other sockets are [F]. *)
Lemma attempt_inv a c k e :
  state_ k = kDisconnected -> channel_ k = None -> delay_ok k -> answers_ok a e ->
  holds (conn_fds c ++ dead_fds (pending_ e)) e -> quiet e -> connection_ c = None -> 1 <= nextConnId_ c < two_31 ->
  exists k' e', startInLoop a k e ⇓ (k', e') /\ inv (set_connector k' c, e').
Proof.
  intros Hst Hc Hd Ha Hh Hq Hconn Hid.
  destruct (startInLoop_spec a k e _ Hst Hc Hd Hh Ha) as (k' & e' & Hk & Hh' & Hd' & Hp & Hat).
  exists k', e'. split; [done|]. by eapply inv_started.
Qed.

Lemma owned_disconnected c e : channel_ (connector_ c) = None ->
  owned (c, e) = conn_fds c ++ dead_fds (pending_ e).
Proof. unfold owned, chan_fds. simpl. by intros ->. Qed.

Lemma step_connect in_loop a c e : inv (c, e) -> idle c e -> answers_ok a e ->
  exists s', step (c, e) (Connect in_loop a) ⇓ s' /\ inv s'.
Proof.
  intros Hi (Hst & Hch & Ht & Hs) Ha. pose proof Hi as [Hso _ Hat _ Hd Hid]. simpl in *.
  apply counts_zero in Hs.
  assert (counts ResetChannel e = 0%nat) as Hr.
  { pose proof (inv_channel _ Hi) as Hc. unfold channel_inv in Hc. simpl in Hc. rewrite Hst in Hc.
    destruct Hc as [[_ ?]|[[? ?] _]]; [done|congruence]. }
  assert (connection_ c = None) as Hconn by (apply (inv_no_connection _ Hi); simpl; by rewrite Hst).
  unfold connect, Connector.start. destruct in_loop; simpl.
  - rewrite owned_disconnected in Hso by done.
    destruct (attempt_inv a (set_connect true c) (setConnect true (connector_ c)) e) as (k' & e' & -> & Hi');
      [done..|]. simpl. eauto.
  - eexists. split; [done|]. split; simpl; [|unfold channel_inv; simpl|unfold attempts; simpl|by rewrite Hconn|done|done].
    + unfold owned in *. simpl in *. unfold dead_fds in *. rewrite omap_app. simpl. by rewrite app_nil_r.
    + rewrite Hst, counts_queue. left. split; [done|]. simpl. lia.
    + rewrite counts_queue, Hst, Ht, Hs. simpl. lia.
Qed.

(** Changes that the invariant does not look at. *)
Lemma inv_same c c' e e' :
  inv (c, e) -> state_ (connector_ c') = state_ (connector_ c) -> channel_ (connector_ c') = channel_ (connector_ c) ->
  retryDelayMs_ (connector_ c') = retryDelayMs_ (connector_ c) -> connection_ c' = connection_ c ->
  nextConnId_ c' = nextConnId_ c -> open_ e' = open_ e -> bad_close_ e' = bad_close_ e -> timers_ e' = timers_ e ->
  dead_fds (pending_ e') = dead_fds (pending_ e) -> (forall f, f <> StopInLoop -> counts f e' = counts f e) ->
  inv (c', e').
Proof.
  intros [Hso Hch Hat Hc Hd Hid] E1 E2 E3 E4 E5 E6 E7 E8 E9 E10. simpl in *.
  split; simpl; [|unfold channel_inv|unfold attempts|..];
    rewrite ?E1, ?E2, ?E3, ?E4, ?E5, ?E8, ?E10 by done; try done.
  unfold owned, holds, chan_fds, conn_fds in *. simpl in *. by rewrite E2, E4, E9, E6, E7.
Qed.

Lemma step_stop c e : inv (c, e) -> exists s', step (c, e) Stop ⇓ s' /\ inv s'.
Proof.
  intros Hi. eexists. split; [done|]. eapply inv_same; [done|..]; try done.
  - simpl. unfold dead_fds. rewrite omap_app. simpl. by rewrite app_nil_r.
  - intros f Hf. simpl. rewrite counts_queue. rewrite decide_False by congruence. lia.
Qed.

Lemma step_closed a c e : inv (c, e) -> (ResetChannel ∉ pending_ e) -> answers_ok a e ->
  exists s', step (c, e) (Closed a) ⇓ s' /\ inv s'.
Proof.
  intros Hi Hr Ha. pose proof Hi as [Hso Hch Hat Hconn Hd Hid]. simpl in *. apply counts_zero in Hr.
  destruct (connection_ c) as [[cname fd]|] eqn:Hc; [|by eauto]. specialize (Hconn ltac:(done)).
  assert (channel_ (connector_ c) = None) as Hnone by (apply (inv_channel_none _ Hi); simpl; [by rewrite Hconn|done]).
  rewrite owned_disconnected in Hso by done. unfold conn_fds in Hso. rewrite Hc in Hso.
  unfold attempts in Hat. rewrite Hconn, bool_decide_eq_false_2 in Hat by done.
  assert (timers_ e = []) as Ht by (apply nil_length_inv; lia).
  unfold removeConnection. rewrite Hc, bool_decide_eq_true_2 by done. simpl.
  set (e1 := queueInLoop (ConnectDestroyed fd) e).
  assert (holds (dead_fds (pending_ e1)) e1) as Hso1.
  { simpl. unfold dead_fds. rewrite omap_app. simpl. eapply holds_perm; [|exact Hso]. apply Permutation_cons_append. }
  assert (quiet e1) as Hq by (unfold quiet, e1; rewrite !counts_queue; simpl; split_and!; [done|lia..]).
  destruct (retry_ c && connect_ c).
  - unfold restart. destruct (attempt_inv a (mk (connector_ c) (name_ c) (retry_ c) (connect_ c) (nextConnId_ c) None)
      (Connector.mk true kDisconnected (channel_ (connector_ c)) kInitRetryDelayMs) e1) as (k' & e' & -> & Hi');
      [done..| |done| |done|done|done|]; [split; unfold kInitRetryDelayMs, kMaxRetryDelayMs; simpl; lia|exact Hso1|].
    simpl. eauto.
  - eexists. split; [done|]. destruct Hq as (Hq1 & Hq2 & Hq3).
    split; simpl; [|unfold channel_inv; simpl|unfold attempts; simpl|done|done|done].
    + unfold owned, chan_fds. simpl. rewrite Hnone. exact Hso1.
    + rewrite Hconn. left. done.
    + fold e1. rewrite Hq2, Hconn, Ht. simpl. lia.
Qed.

Lemma step_timer a c e : inv (c, e) -> (ResetChannel ∉ pending_ e) -> answers_ok a e ->
  exists s', step (c, e) (Timer a) ⇓ s' /\ inv s'.
Proof.
  intros Hi Hr Ha. pose proof Hi as [Hso _ Hat _ Hd Hid]. simpl in *. apply counts_zero in Hr.
  destruct (timers_ e) as [|ms ts] eqn:Ht; [by eauto|]. unfold attempts in Hat. rewrite Ht in Hat. simpl in Hat.
  case_bool_decide as Hst; [|lia]. assert (ts = []) as -> by (apply nil_length_inv; lia).
  assert (channel_ (connector_ c) = None) as Hnone by (apply (inv_channel_none _ Hi); simpl; [by rewrite Hst|done]).
  assert (connection_ c = None) as Hconn by (apply (inv_no_connection _ Hi); simpl; by rewrite Hst).
  rewrite owned_disconnected in Hso by done.
  destruct (attempt_inv a c (connector_ c) (mk_env (pending_ e) [] (open_ e) (bad_close_ e))) as (k' & e' & -> & Hi');
    [done..| |done|done|]; [split_and!; [done| |done]; unfold counts in *; simpl; lia|]. simpl. eauto.
Qed.

(** A registered channel, seen from [handleError], [stopInLoop] and [handleWrite]. *)
Lemma give_up_inv c e fd : inv (c, e) -> channel_ (connector_ c) = Some (fd, true) ->
  let '(k', e') := retry fd (setChannel (Some (fd, false)) (setState kDisconnected (connector_ c))) (queueInLoop ResetChannel e) in
  inv (set_connector k' c, e') /\ state_ k' = kDisconnected.
Proof.
  intros Hi Hc. destruct (inv_connecting _ _ Hi Hc) as (Hst & Hq & Hconn). simpl in *.
  destruct (retry _ _ _) as [k' e'] eqn:Hr. pose proof (inv_sockets _ Hi) as Hso. unfold owned in Hso. simpl in Hso.
  destruct (give_up_spec fd (setState kDisconnected (connector_ c)) e _ k' e' Hc Hso (inv_delay _ Hi) Hr) as (Hh & Hd & Hg).
  split; [|apply Hg]. eapply inv_given_up; [done..|]. apply (inv_id _ Hi).
Qed.

Lemma retry_state fd k s e : retry fd (setState s k) e = retry fd k e.
Proof. done. Qed.

Lemma handleError_inv c e : inv (c, e) ->
  exists k' e', handleError (connector_ c) e ⇓ (k', e') /\ inv (set_connector k' c, e') /\ state_ k' <> kConnecting /\
    (state_ (connector_ c) = kConnecting -> state_ k' = kDisconnected).
Proof.
  intros Hi. unfold handleError. case_bool_decide as Hst.
  - pose proof (inv_channel _ Hi) as Hch. unfold channel_inv in Hch. simpl in Hch. rewrite Hst in Hch.
    destruct Hch as [[fd Hc] _]. unfold removeAndResetChannel. rewrite Hc. simpl.
    pose proof (give_up_inv c e fd Hi Hc) as Hg. destruct (retry _ _ _) as [k' e'] eqn:Hr in Hg. destruct Hg as [Hg Hk].
    change (setChannel _ (setState kDisconnected (connector_ c)))
      with (setState kDisconnected (setChannel (Some (fd, false)) (connector_ c))) in Hr.
    rewrite retry_state in Hr. rewrite Hr. exists k', e'. split_and!; [done|done|by rewrite Hk|done].
  - exists (connector_ c), e. split_and!; [done| |done|done]. by destruct c.
Qed.

Lemma stopInLoop_inv c e : inv (c, e) ->
  exists k' e', stopInLoop (connector_ c) e ⇓ (k', e') /\ inv (set_connector k' c, e').
Proof.
  intros Hi. unfold stopInLoop. case_bool_decide as Hst.
  - pose proof (inv_channel _ Hi) as Hch. unfold channel_inv in Hch. simpl in Hch. rewrite Hst in Hch.
    destruct Hch as [[fd Hc] _]. unfold removeAndResetChannel. simpl. rewrite Hc. simpl.
    pose proof (give_up_inv c e fd Hi Hc) as Hg. destruct (retry _ _ _) as [k' e'] eqn:Hr in Hg.
    rewrite Hr. exists k', e'. split; [done|apply Hg].
  - exists (connector_ c), e. split; [done|]. by destruct c.
Qed.

Lemma step_functor a c e : inv (c, e) -> answers_ok a e -> exists s', step (c, e) (RunFunctor a) ⇓ s' /\ inv s'.
Proof.
  intros Hi Ha. simpl. destruct (pending_ e) as [|f fs] eqn:Hp; [by eauto|].
  set (e1 := mk_env fs (timers_ e) (open_ e) (bad_close_ e)).
  assert (forall g, counts g e = ((if decide (f = g) then 1 else 0) + counts g e1)%nat) as Hcnt
    by (intros g; by rewrite (counts_cons g f fs e Hp)).
  pose proof Hi as [Hso Hch Hat Hconn Hd Hid]. simpl in *. destruct f as [| | |fd]; simpl.
  - unfold attempts in Hat. rewrite Hcnt in Hat. simpl in Hat. case_bool_decide as Hst; [|lia].
    unfold channel_inv in Hch. rewrite Hst, !Hcnt in Hch. simpl in Hch.
    destruct Hch as [[Hnone Hr]|(_ & _ & ?)]; [|lia].
    rewrite owned_disconnected, Hp in Hso by done. simpl in Hso.
    destruct (attempt_inv a c (connector_ c) e1) as (k' & e' & -> & Hi'); [done..| | |done|]; simpl; [|..|by eauto].
    + split_and!; [apply nil_length_inv; simpl; lia|lia|done].
    + apply (inv_no_connection _ Hi). simpl. by rewrite Hst.
  - assert (inv (c, e1)) as Hi1.
    { eapply inv_same; [exact Hi|..]; try done; simpl; [by rewrite Hp|]. intros g Hg. rewrite Hcnt.
      rewrite decide_False by congruence. lia. }
    destruct (stopInLoop_inv c e1 Hi1) as (k' & e' & -> & Hi'). simpl. eauto.
  - eexists. split; [done|]. unfold channel_inv in Hch. rewrite !Hcnt in Hch. simpl in Hch.
    split; simpl; [|unfold channel_inv; simpl|unfold attempts in *; simpl in *; rewrite Hcnt in Hat; exact Hat|done|done|done].
    + unfold owned, chan_fds in *. simpl in *. rewrite Hp in Hso. simpl in Hso.
      destruct (state_ (connector_ c)); [|lia|]; destruct Hch as [[_ ?]|[[fd Hc] _]]; try lia; by rewrite Hc in Hso.
    + destruct (state_ (connector_ c)); [left|lia|left]; (split; [done|]); destruct Hch as [[_ ?]|(_ & ? & _)]; lia.
  - eexists. split; [done|].
    split; simpl; [|unfold channel_inv in *|unfold attempts in *|done|done|done].
    + unfold owned in *. simpl in *. rewrite Hp in Hso. simpl in Hso. apply (holds_close fd).
      eapply holds_perm; [|exact Hso]. by rewrite !(Permutation_middle _ _ fd).
    + rewrite !Hcnt in Hch. exact Hch.
    + rewrite Hcnt in Hat. exact Hat.
Qed.

(** The state after a successful [handleWrite], with the socket handed over or closed. *)
Lemma connected_inv c c' e e' fd :
  inv (c, e) -> channel_ (connector_ c) = Some (fd, true) ->
  channel_ (connector_ c') = Some (fd, false) -> state_ (connector_ c') = kConnected ->
  retryDelayMs_ (connector_ c') = retryDelayMs_ (connector_ c) -> 1 <= nextConnId_ c' < two_31 ->
  pending_ e' = pending_ e ++ [ResetChannel] -> timers_ e' = timers_ e ->
  holds (conn_fds c' ++ dead_fds (pending_ e)) e' -> inv (c', e').
Proof.
  intros Hi Hc Hc' Hst Hd Hid Hp Ht Hh. destruct (inv_connecting _ _ Hi Hc) as (_ & (Hq1 & Hq2 & Hq3) & _).
  assert (forall f, counts f e' = (counts f e + if decide (ResetChannel = f) then 1 else 0)%nat) as Hcnt.
  { intros f. rewrite <-counts_queue. by apply counts_pending. }
  simpl in *. split; simpl; [|unfold channel_inv|unfold attempts|done|rewrite Hd; apply (inv_delay _ Hi)|done].
  - unfold owned, chan_fds. simpl. rewrite Hc', Hp. unfold dead_fds in *. rewrite omap_app. simpl. by rewrite app_nil_r.
  - rewrite Hst. right. rewrite !Hcnt, Hq2, Hq3. split_and!; [by exists fd|done..].
  - rewrite Hst, Hcnt, Hq2, Ht, Hq1. simpl. lia.
Qed.

Lemma handleWrite_inv so_error self peer c e fd :
  inv (c, e) -> channel_ (connector_ c) = Some (fd, true) -> nextConnId_ c + 1 < two_31 ->
  exists s', event false true so_error self peer c e ⇓ s' /\ inv s'.
Proof.
  intros Hi Hc Hid. pose proof (inv_connecting _ _ Hi Hc) as (Hst & _ & Hconn). simpl in Hst, Hconn.
  pose proof (give_up_inv c e fd Hi Hc) as Hg.
  change (setChannel _ (setState kDisconnected (connector_ c)))
    with (setState kDisconnected (setChannel (Some (fd, false)) (connector_ c))) in Hg. rewrite retry_state in Hg.
  pose proof (inv_id _ Hi) as Hid1. pose proof (inv_sockets _ Hi) as Hso. unfold owned, chan_fds, conn_fds in Hso.
  simpl in Hso, Hid1. rewrite Hc, Hconn in Hso. simpl in Hso.
  unfold event, handleWrite. cbn [mbind outcome_bind mret outcome_ret]. rewrite Hst.
  rewrite (bool_decide_eq_true_2 (kConnecting = kConnecting)) by done.
  unfold removeAndResetChannel. rewrite Hc. cbn [mbind outcome_bind mret outcome_ret].
  destruct (negb _); [|destruct self]; simpl;
    [destruct (retry _ _ _) as [k' e']; destruct Hg; by eauto..|].
  destruct (Connector.connect_ (connector_ c)) eqn:Hcon; simpl.
  - unfold newConnection. destruct (LogStreamFacts.convert_ok (nextConnId_ c)) as (id & Hconv & _);
      [unfold two_31, two_63, two_64 in *; lia|].
    simpl. rewrite Hconv. simpl. rewrite checked32_ok by (unfold int32_range, two_31 in *; lia). simpl.
    eexists. split; [done|]. eapply (connected_inv c _ e); try done; simpl; lia.
  - eexists. split; [done|]. eapply (connected_inv c _ e); try done.
    unfold conn_fds. simpl. rewrite Hconn. by apply holds_close.
Qed.

Lemma step_event err write so_error self peer c e fd :
  inv (c, e) -> channel_ (connector_ c) = Some (fd, true) -> nextConnId_ c + 1 < two_31 ->
  exists s', step (c, e) (Event err write so_error self peer) ⇓ s' /\ inv s'.
Proof.
  intros Hi Hc Hid. simpl. destruct err.
  - destruct (handleError_inv c e Hi) as (k' & e' & Hk & Hi' & _ & Hdis). unfold event. rewrite Hk.
    bind_step. destruct (inv_connecting _ _ Hi Hc) as (Hst & _). specialize (Hdis Hst).
    destruct write; simpl; [|by eauto]. unfold handleWrite. rewrite Hdis. simpl. eauto.
  - destruct write; [by eapply handleWrite_inv|]. simpl. eexists. split; [done|]. by destruct c.
Qed.

Lemma client_step_inv s o : inv s -> allowed s o -> exists s', step s o ⇓ s' /\ inv s'.
Proof.
  destruct s as [c e]. intros Hi Ha. destruct o; simpl in Ha.
  - destruct Ha. by apply step_connect.
  - eexists. split; [done|]. by eapply inv_same.
  - by apply step_stop.
  - eexists. split; [done|]. by eapply inv_same.
  - by apply step_functor.
  - destruct Ha. by apply step_timer.
  - destruct Ha as [[fd Hc] Hid]. by eapply step_event.
  - destruct Ha. by apply step_closed.
Qed.

Lemma init_inv name : inv (TcpClient.init name, mk_env [] [] ∅ false).
Proof.
  split; simpl; [|unfold channel_inv; simpl; by left|unfold attempts; simpl; lia|done|by split|unfold two_31; lia].
  unfold holds, owned. simpl. split_and!; [constructor|set_solver|done].
Qed.

Lemma client_reachable_inv name s : reachable name s -> inv s.
Proof.
  induction 1 as [|s o s' _ IH Ha Hs]; [apply init_inv|].
  destruct (client_step_inv s o IH Ha) as (s1 & Hs1 & Hi). rewrite Hs in Hs1. by injection Hs1 as ->.
Qed.
End ClientFacts.

(** ** Properties *)
Module OrphanFacts.
Import TcpClient Connector.
Lemma retry_quiet fd k e : connect_ k = false -> connect_ (retry fd k e).1 = false /\ open_ (retry fd k e).2 ⊆ open_ e.
Proof. intros Hk. unfold retry. simpl. rewrite Hk. simpl. set_solver. Qed.

Lemma removed_quiet k e fd k' e' : removeAndResetChannel k e ⇓ (fd, k', e') -> connect_ k' = connect_ k /\ open_ e' = open_ e.
Proof. unfold removeAndResetChannel. destruct (channel_ k) as [[f []]|]; try done. by intros [= _ <- <-]. Qed.

(** A connector with [connect_ = false] connects and calls back no more. *)
Lemma orphan_quiet k e o k' e' fd : connect_ k = false -> orphan_step k e o ⇓ (k', e', fd) ->
  connect_ k' = false /\ fd = None /\ open_ e' ⊆ open_ e.
Proof.
  intros Hk. assert (forall a, startInLoop a k e ⇓ (k, e) \/ exists f, startInLoop a k e ↯ f) as Hstart.
  { intros a. unfold startInLoop. case_bool_decide; [left; by rewrite Hk|right; by eexists]. }
  assert (forall k1 e1, k1 = k /\ e1 = e -> connect_ k1 = false /\ (@None Z) = None /\ open_ e1 ⊆ open_ e) as Hsame by (by intros ? ? [-> ->]).
  destruct o as [a [| | |f]|a| |so self]; cbn [orphan_step].
  - destruct (Hstart a) as [-> |[f ->]]; cbn [mbind outcome_bind mret outcome_ret]; [intros [= <- <- <-]; auto|by intros [=]].
  - unfold stopInLoop. case_bool_decide; [|intros [= <- <- <-]; auto].
    destruct (removeAndResetChannel (setState kDisconnected k) e) as [[[f k1] e1]|] eqn:Hr; [|by cbn]. apply removed_quiet in Hr as [Hc Ho]. cbn [mbind outcome_bind].
    destruct (retry_quiet f k1 e1) as [Hk1 He1]; [by rewrite Hc|]. destruct (retry f k1 e1). intros [= <- <- <-]. rewrite <-Ho. auto.
  - intros [= <- <- <-]. auto.
  - intros [= <- <- <-]. split_and!; [done..|]. simpl. set_solver.
  - destruct (Hstart a) as [-> |[f ->]]; cbn [mbind outcome_bind mret outcome_ret]; [intros [= <- <- <-]; auto|by intros [=]].
  - unfold handleError. case_bool_decide; [|intros [= <- <- <-]; auto].
    destruct (removeAndResetChannel k e) as [[[f k1] e1]|] eqn:Hr; [|by cbn]. apply removed_quiet in Hr as [Hc Ho]. rewrite Hk in Hc. cbn [mbind outcome_bind].
    destruct (retry_quiet f k1 e1) as [Hk1 He1]; [done|]. destruct (retry f k1 e1). intros [= <- <- <-]. rewrite <-Ho. auto.
  - unfold handleWrite. case_bool_decide.
    + destruct (removeAndResetChannel k e) as [[[f k1] e1]|] eqn:Hr; [|by cbn]. apply removed_quiet in Hr as [Hc Ho]. rewrite Hk in Hc. cbn [mbind outcome_bind].
      destruct (retry_quiet f k1 e1) as [Hk1 He1]; [done|]. destruct (negb _), self; try (destruct (retry f k1 e1); intros [= <- <- <-]; rewrite <-Ho; auto).
      simpl. rewrite Hc. intros [= <- <- <-]. simpl. rewrite <-Ho. split_and!; [done..|set_solver].
    + case_bool_decide; [|done]. intros [= <- <- <-]. auto.
Qed.
End OrphanFacts.

Module ClientTheorems.
Import OrphanFacts.
Import Connector TcpClient ClientSpec ClientFacts.

(** C17.  A client that connects only when idle is safe: in every reachable
    state every allowed step completes (no failed assertion, no use of a
    channel that is gone), the open sockets are exactly those of the attempt,
    of the connection and of connections being destroyed, each owned once,
    none has been closed twice, and at most one attempt is under way. *)
Theorem client_safe name c e o :
  reachable name (c, e) -> allowed (c, e) o ->
  (exists s', step (c, e) o ⇓ s') /\ NoDup (owned (c, e)) /\
  (forall fd, fd ∈ open_ e <-> fd ∈ owned (c, e)) /\ bad_close_ e = false /\ (attempts (connector_ c) e <= 1)%nat.
Proof.
  intros Hr Ha. apply client_reachable_inv in Hr. destruct (client_step_inv _ _ Hr Ha) as (s' & Hs & _).
  destruct (inv_sockets _ Hr) as (Hn & Ho & Hb). split_and!; [by exists s'|done..|]. apply (inv_attempts _ Hr).
Qed.

(** A client whose attempt on socket [3] is in progress, has succeeded, and
    whose connection has been closed. *)
Definition ex_client name k id conn : TcpClient.t := mk k name false true id conn.
Definition ex_connecting name : TcpClient.t * env :=
  (ex_client name (Connector.mk true kConnecting (Some (3, true)) 500) 1 None, mk_env [] [] {[3]} false).
Definition ex_connected name : TcpClient.t * env :=
  (ex_client name (Connector.mk true kConnected (Some (3, false)) 500) 2 (Some (name ++ lit ":h#1", 3)),
   mk_env [ResetChannel] [] {[3]} false).
Definition ex_reset name : TcpClient.t * env :=
  (ex_client name (Connector.mk true kConnected None 500) 2 (Some (name ++ lit ":h#1", 3)), mk_env [] [] {[3]} false).
Definition ex_closed name : TcpClient.t * env :=
  (ex_client name (Connector.mk true kConnected None 500) 2 None, mk_env [ConnectDestroyed 3] [] {[3]} false).
Definition ex_gone name : TcpClient.t * env :=
  (ex_client name (Connector.mk true kConnected None 500) 2 None, mk_env [] [] ∅ false).
(** One whose attempt was refused, then stopped. *)
Definition ex_refused name : TcpClient.t * env :=
  (ex_client name (Connector.mk true kDisconnected None 1000) 1 None, mk_env [] [500] ∅ false).
Definition ex_stopping name : TcpClient.t * env :=
  (mk (Connector.mk false kDisconnected None 1000) name false false 1 None, mk_env [StopInLoop] [500] ∅ false).
Definition ex_stopped name : TcpClient.t * env :=
  (mk (Connector.mk false kDisconnected None 1000) name false false 1 None, mk_env [] [500] ∅ false).

Lemma fresh_4 (s : TcpClient.t * env) : open_ s.2 = {[3]} \/ open_ s.2 = ∅ -> answers_ok (mk_answers 4 EINPROGRESS) s.2.
Proof. intros [H|H]; (split; [done|]); simpl; rewrite H; set_solver. Qed.

Lemma reach_connecting name : reachable name (ex_connecting name).
Proof.
  eapply (reach_step _ _ (Connect true (mk_answers 3 EINPROGRESS))); [apply reach_init| |by vm_compute].
  split; [|by split]. split_and!; [done..|]. apply not_elem_of_nil.
Qed.

Lemma reach_gone name : reachable name (ex_gone name).
Proof.
  assert (reachable name (ex_connected name)) as H1.
  { eapply (reach_step _ _ (Event false true 0 false (lit "h"))); [apply reach_connecting| |by vm_compute].
    split; [by exists 3|done]. }
  assert (reachable name (ex_reset name)) as H2.
  { eapply (reach_step _ _ (RunFunctor (mk_answers 4 EINPROGRESS))); [exact H1| |by vm_compute].
    apply (fresh_4 (ex_connected name)). by left. }
  assert (reachable name (ex_closed name)) as H3.
  { eapply (reach_step _ _ (Closed (mk_answers 4 EINPROGRESS))); [exact H2| |].
    2: { cbn [step ex_reset ex_client connection_]. unfold removeConnection.
         by rewrite bool_decide_eq_true_2. }
    split; [apply not_elem_of_nil|]. apply (fresh_4 (ex_reset name)). by left. }
  eapply (reach_step _ _ (RunFunctor (mk_answers 4 EINPROGRESS))); [exact H3| |by vm_compute].
  apply (fresh_4 (ex_closed name)). by left.
Qed.

Lemma reach_stopped name : reachable name (ex_stopped name).
Proof.
  assert (reachable name (ex_refused name)) as H1.
  { eapply (reach_step _ _ (Connect true (mk_answers 3 ECONNREFUSED))); [apply reach_init| |by vm_compute].
    split; [|by split]. split_and!; [done..|]. apply not_elem_of_nil. }
  assert (reachable name (ex_stopping name)) as H2 by (by eapply (reach_step _ _ Stop); [exact H1| |by vm_compute]).
  eapply (reach_step _ _ (RunFunctor (mk_answers 4 EINPROGRESS))); [exact H2| |by vm_compute].
  apply (fresh_4 (ex_stopping name)). by right.
Qed.

Lemma client_safe_witness :
  let '(c, e) := ex_connecting (lit "cli") in
  (exists s', step (c, e) (Event true true ECONNREFUSED false []) ⇓ s') /\ NoDup (owned (c, e)) /\
  (forall fd, fd ∈ open_ e <-> fd ∈ owned (c, e)) /\ bad_close_ e = false /\ (attempts (connector_ c) e <= 1)%nat.
Proof.
  apply (client_safe (lit "cli")).
  - apply reach_connecting.
  - split; [by exists 3|done].
Defined.

Definition refused (a : answers) : Prop :=
  0 <= a_socket a /\ a_errno a ∈ [EAGAIN; EADDRINUSE; EADDRNOTAVAIL; ECONNREFUSED; ENETUNREACH].
Definition backoff (n : nat) : Z := Z.min (kInitRetryDelayMs * 2 ^ Z.of_nat n) kMaxRetryDelayMs.

Lemma backoff_succ n : Z.min (backoff n * 2) kMaxRetryDelayMs = backoff (S n).
Proof.
  unfold backoff, kMaxRetryDelayMs, kInitRetryDelayMs. rewrite Nat2Z.inj_succ, Z.pow_succ_r by lia.
  pose proof (Z.pow_pos_nonneg 2 (Z.of_nat n) ltac:(lia) ltac:(lia)). lia.
Qed.

Lemma startInLoop_refused a k e n :
  refused a -> state_ k = kDisconnected -> Connector.connect_ k = true -> retryDelayMs_ k = backoff n -> timers_ e = [] ->
  exists k' e', startInLoop a k e ⇓ (k', e') /\ state_ k' = kDisconnected /\ Connector.connect_ k' = true /\
    retryDelayMs_ k' = backoff (S n) /\ timers_ e' = [backoff n].
Proof.
  intros [Hfd Herr] Hst Hc Hd Ht. unfold startInLoop. rewrite Hst, Hc.
  rewrite (bool_decide_eq_true_2 (kDisconnected = kDisconnected)) by done. simpl.
  unfold Connector.connect, sockets.createNonblockingOrDie.
  rewrite (bool_decide_eq_false_2 (a_socket a < 0)) by lia. simpl.
  rewrite (bool_decide_eq_false_2 (a_errno a ∈ [0; EINPROGRESS; EINTR; EISCONN])).
  2: { intros H. repeat (apply elem_of_cons in Herr as [Herr|Herr]; [rewrite Herr in H; revert H; by_computation|]).
       by apply not_elem_of_nil in Herr. }
  rewrite bool_decide_eq_true_2 by done. unfold retry. simpl. rewrite Hc. eexists _, _. split; [done|].
  simpl. rewrite Ht, Hd. split_and!; [done..| |done]. apply backoff_succ.
Qed.

(** Retries back off: while attempts are refused, the first retry waits
    500 ms and each later one twice as long as the one before, up to 30 s. *)
Theorem retry_backoff name a0 failures :
  Forall refused (a0 :: failures) ->
  exists c e, run_all step (TcpClient.init name, mk_env [] [] ∅ false) (Connect true a0 :: (Timer <$> failures)) ⇓ (c, e) /\
    timers_ e = [backoff (length failures)].
Proof.
  intros Hall. inversion Hall as [|? ? Ha0 Hf]; subst. cbn [run_all step].
  unfold connect, Connector.start.
  destruct (startInLoop_refused a0 (setConnect true Connector.init) (mk_env [] [] ∅ false) 0 Ha0)
    as (k & e & Hs & Hst & Hc & Hd & Ht); [done..|].
  cbn [connector_ set_connect TcpClient.init]. rewrite Hs. cbn [mbind outcome_bind mret outcome_ret].
  assert (forall k c e n, state_ k = kDisconnected -> Connector.connect_ k = true -> retryDelayMs_ k = backoff (S n) ->
    timers_ e = [backoff n] -> exists c' e', run_all step (set_connector k c, e) (Timer <$> failures) ⇓ (c', e') /\
    timers_ e' = [backoff (n + length failures)]) as Hrun.
  { clear -Hf. induction Hf as [|a failures Ha _ IH]; intros k c e n Hst Hc Hd Ht.
    - simpl. rewrite Nat.add_0_r. by eauto.
    - cbn [run_all fmap list_fmap step]. rewrite Ht.
      destruct (startInLoop_refused a k (mk_env (pending_ e) [] (open_ e) (bad_close_ e)) (S n) Ha)
        as (k' & e' & Hs & Hst' & Hc' & Hd' & Ht'); [done..|].
      cbn [connector_ set_connector]. rewrite Hs. cbn [mbind outcome_bind mret outcome_ret].
      replace (n + length (a :: failures))%nat with (S n + length failures)%nat by (simpl; lia).
      by apply (IH k' (set_connector k c)). }
  destruct (Hrun k (set_connect true (TcpClient.init name)) e 0%nat) as (c' & e' & -> & Hl); [done..|].
  by exists c', e'.
Qed.

Lemma retry_backoff_witness :
  exists c e, run_all step (TcpClient.init (lit "cli"), mk_env [] [] ∅ false)
      (Connect true (mk_answers 3 ECONNREFUSED) :: (Timer <$> replicate 6 (mk_answers 3 ECONNREFUSED))) ⇓ (c, e) /\
    timers_ e = [backoff 6].
Proof.
  apply (retry_backoff (lit "cli") (mk_answers 3 ECONNREFUSED) (replicate 6 (mk_answers 3 ECONNREFUSED))).
  repeat constructor; simpl; lia || (by_computation).
Defined.

(** After the destructor of a client without a connection, nothing calls it
    back: whatever functors, timers and events are still to come, the connector
    never calls [newConnectionCallback_], which is bound to the client, and
    opens no socket. *)
Theorem destroyed_client_quiet unique c e ops : connection_ c = None -> forall k e' fds k' e'',
  destroy unique c e = ([], k, e') ->
  foldl (fun r o => p ← r; q ← orphan_step p.1.1 p.1.2 o; mret (q.1, p.2 ++ option_list q.2)) (mret ((k, e'), [])) ops ⇓ ((k', e''), fds) ->
  fds = [] /\ open_ e'' ⊆ open_ e.
Proof.
  intros Hc k e' fds k' e'' Hd. unfold destroy in Hd. rewrite Hc in Hd. injection Hd as <- <-. revert fds k' e''.
  assert (forall r, (match r with Done p => Connector.connect_ p.1.1 = false /\ p.2 = [] /\ open_ p.1.2 ⊆ open_ e | Fault _ => True end) ->
    match foldl (fun r o => p ← r; q ← orphan_step p.1.1 p.1.2 o; mret (q.1, p.2 ++ option_list q.2)) r ops with
    | Done p => Connector.connect_ p.1.1 = false /\ p.2 = [] /\ open_ p.1.2 ⊆ open_ e | Fault _ => True end) as Hall.
  { induction ops as [|o ops IH]; intros r Hr; [done|]. cbn [foldl]. apply IH. destruct r as [[[k e0] l]|]; [|done].
    cbn [mbind outcome_bind fst snd] in *. destruct Hr as (Hk & -> & Hsub).
    destruct (orphan_step k e0 o) as [[[k1 e1] fd]|] eqn:Hs; [|done]. cbn [mbind outcome_bind mret outcome_ret fst snd app].
    destruct (orphan_quiet _ _ _ _ _ _ Hk Hs) as (Hk1 & -> & Ho). split_and!; [done..|set_solver]. }
  intros fds k' e'' Hf. specialize (Hall (mret ((Connector.setConnect false (connector_ c), queueInLoop StopInLoop e), []))).
  rewrite Hf in Hall. by destruct Hall as (_ & Hl & Hs).
Qed.

(** Connecting again at the wrong time stops the process.  After a
    connection has been closed (without [enableRetry]) nothing is pending or
    open, yet [connect] fails the assertion on the connector's state, which is
    still [kConnected].  After [stop] during a pending retry, [connect]
    succeeds and the old timer, which [stop] has not cancelled, then fails the
    same assertion. *)
Theorem connect_again_aborts name :
  (exists c e, reachable name (c, e) /\ connection_ c = None /\ timers_ e = [] /\ pending_ e = [] /\ open_ e = ∅ /\
     forall a, step (c, e) (Connect true a) ↯ AssertFailure) /\
  (exists c e s1 a1, reachable name (c, e) /\ connect_ c = false /\ pending_ e = [] /\ open_ e = ∅ /\
     step (c, e) (Connect true a1) ⇓ s1 /\ forall a2, step s1 (Timer a2) ↯ AssertFailure).
Proof.
  split.
  - eexists _, _. split; [apply reach_gone|]. by split_and!.
  - eexists _, _, _, (mk_answers 4 EINPROGRESS). split; [apply reach_stopped|].
    split_and!; [done..| |]; [vm_compute; reflexivity|done].
Qed.
End ClientTheorems.
