(* ===== verification/Servers.v ===== *)
(** * Servers: Acceptor, EventLoopThreadPool and TcpServer

    Models [Acceptor] ([src/muduo/net/Acceptor.cc]) with the [accept] wrapper of
    [SocketsOps.cc], the loop selection of [EventLoopThreadPool]
    ([EventLoopThreadPool.cc]), the address text of [InetAddress.cc] and
    [TcpServer] ([TcpServer.cc]).  A loop is its identity; [0] is the base loop. *)
From S2P Require Import Prelude LogStreams Clients.

Local Open Scope Z_scope.
Local Open Scope muduo_scope.

(** More errno values of [accept(2)] (Linux). *)
Definition EMFILE := 24.
Definition EPROTO := 71.
Definition ECONNABORTED := 103.

Module Acceptor.
Record t : Type := mk {
  acceptSocket_ : Z;
  listenning_ : bool;
  reading_ : bool;                   (* [acceptChannel_] is registered for reading *)
  idleFd_ : Z;
  newConnectionCallback_ : bool;     (* whether it is set *)
}.

(** A descriptor that [accept], [accept4] or [open] has returned is open; [-1]
    stands for a failed call. *)
Definition open_fd (fd : Z) (e : env) : env :=
  if bool_decide (0 <= fd) then mk_env (pending_ e) (timers_ e) ({[fd]} ∪ open_ e) (bad_close_ e) else e.

Definition init (listen_fd null_fd : Z) (e : env) : outcome (t * env) :=
  '(fd, e) ← sockets.createNonblockingOrDie (mk_answers listen_fd 0) e;
  assert_ (bool_decide (0 <= null_fd));;
  mret (mk fd false false null_fd false, open_fd null_fd e).

Definition setNewConnectionCallback (a : t) : t := mk (acceptSocket_ a) (listenning_ a) (reading_ a) (idleFd_ a) true.

(** [listenOrDie] with the result of [listen(2)]. *)
Definition listen (ret : Z) (a : t) : outcome t :=
  if bool_decide (ret < 0) then Fault LogFatal
  else mret (mk (acceptSocket_ a) true true (idleFd_ a) (newConnectionCallback_ a)).

(** [sockets::accept]: the descriptor or the errno that [accept4] answered;
    an errno that is not expected stops the process. *)
Definition accept (answer : Z + Z) (e : env) : outcome (Z * Z * env) :=
  match answer with
  | inr fd => mret (fd, 0, open_fd fd e)
  | inl savedErrno =>
      if bool_decide (savedErrno ∈ [EAGAIN; ECONNABORTED; EINTR; EPROTO; EPERM; EMFILE])
      then mret (-1, savedErrno, e)
      else Fault LogFatal
  end.

(** [::close]; that of a failed call's [-1] is refused and closes nothing. *)
Definition posix_close (fd : Z) (e : env) : env := if bool_decide (0 <= fd) then sockets.close fd e else e.

(** What [errno] is when [LOG_SYSERR] has written its line, and what the kernel
    answers to the second [accept] and to [open], [-1] for a failure. *)
Record spare : Type := mk_spare { s_errno : Z; s_accept : Z; s_open : Z }.

(** The descriptor handed to [newConnectionCallback_], if any. *)
Definition handleRead (answer : Z + Z) (sp : spare) (a : t) (e : env) : outcome (t * env * option Z) :=
  '(connfd, _, e) ← accept answer e;
  if bool_decide (0 <= connfd) then
    if newConnectionCallback_ a then mret (a, e, Some connfd)
    else mret (a, sockets.close connfd e, None)
  else if bool_decide (s_errno sp = EMFILE) then
    let e := posix_close (idleFd_ a) e in
    let e := open_fd (s_accept sp) e in
    let e := posix_close (s_accept sp) e in
    let e := open_fd (s_open sp) e in
    mret (mk (acceptSocket_ a) (listenning_ a) (reading_ a) (s_open sp) (newConnectionCallback_ a), e, None)
  else mret (a, e, None).

(** [~Acceptor], and that of its [acceptSocket_]. *)
Definition destroy (a : t) (e : env) : env := sockets.close (acceptSocket_ a) (posix_close (idleFd_ a) e).
End Acceptor.

Abbreviation loop := Z.

Module EventLoopThreadPool.
Record t : Type := mk {
  _base_loop : loop;
  _started : bool;
  _num_threads : Z;
  _next : Z;
  _loops : list loop;
}.
Definition init (base : loop) : t := mk base false 0 0 [].
Definition setThreadNum (num : Z) (p : t) : t := mk (_base_loop p) (_started p) num (_next p) (_loops p).

(** [fresh]: the loops that [startLoop] of the successive threads returns. *)
Definition start (fresh : nat -> loop) (p : t) : outcome t :=
  assert_ (negb (_started p));;
  mret (mk (_base_loop p) true (_num_threads p) (_next p) (_loops p ++ (fresh <$> seq 0 (Z.to_nat (_num_threads p))))).

Definition getNextLoop (p : t) : outcome (loop * t) :=
  assert_ (_started p);;
  match _loops p with
  | [] => mret (_base_loop p, p)
  | _ =>
      l ← at_ (_loops p) (_next p);
      next ← checked32 (_next p + 1);
      let next := if bool_decide (len (_loops p) <= u64 next) then 0 else next in
      mret (l, mk (_base_loop p) (_started p) (_num_threads p) next (_loops p))
  end.

Definition getLoopForHash (hash_code : Z) (p : t) : outcome loop :=
  match _loops p with
  | [] => mret (_base_loop p)
  | _ => at_ (_loops p) (hash_code `mod` len (_loops p))
  end.

Definition getAllLoops (p : t) : outcome (list loop) :=
  assert_ (_started p);;
  match _loops p with [] => mret [_base_loop p] | ls => mret ls end.
End EventLoopThreadPool.

(** [InetAddress::toIpPort] into its 64-byte array, [ip] being the text that
    [inet_ntop] writes. *)
Definition toIpPort (ip : bytes) (port : Z) : outcome bytes :=
  assert_ (bool_decide (len ip < 64));;
  p ← convert port;
  mret (ip ++ take (Z.to_nat (63 - len ip)) (lit ":" ++ p)).

Module TcpServer.
Record connection : Type := mk_connection { name : bytes; sockfd : Z; io_loop : loop }.

Record t : Type := mk {
  _ip_port : bytes;
  _name : bytes;
  _thread_pool : EventLoopThreadPool.t;
  _started : Z;
  _listening : bool;           (* [_acceptor->listenning()] *)
  _next_conn_id : Z;
  _connections : gmap bytes connection;
}.
Definition init (base : loop) (ip_port nm : bytes) : t :=
  mk ip_port nm (EventLoopThreadPool.init base) 0 false 1 ∅.
Definition setThreadNum (num : Z) (s : t) : outcome t :=
  assert_ (bool_decide (0 <= num));;
  mret (mk (_ip_port s) (_name s) (EventLoopThreadPool.setThreadNum num (_thread_pool s)) (_started s) (_listening s)
           (_next_conn_id s) (_connections s)).

Definition start (fresh : nat -> loop) (s : t) : outcome t :=
  if bool_decide (_started s = 0) then
    pool ← EventLoopThreadPool.start fresh (_thread_pool s);
    assert_ (negb (_listening s));;
    mret (mk (_ip_port s) (_name s) pool 1 true (_next_conn_id s) (_connections s))
  else mret (mk (_ip_port s) (_name s) (_thread_pool s) 1 (_listening s) (_next_conn_id s) (_connections s)).

Definition newConnection (fd : Z) (s : t) : outcome (t * connection) :=
  '(l, pool) ← EventLoopThreadPool.getNextLoop (_thread_pool s);
  id ← convert (_next_conn_id s);
  let buf := take 63 (lit "-" ++ _ip_port s ++ lit "#" ++ id) in
  next ← checked32 (_next_conn_id s + 1);
  let connect_name := _name s ++ buf in
  let conn := mk_connection connect_name fd l in
  mret (mk (_ip_port s) (_name s) pool (_started s) (_listening s) next (<[connect_name := conn]> (_connections s)), conn).

Definition removeConnectionInLoop (conn : connection) (s : t) : outcome t :=
  let n := match _connections s !! name conn with Some _ => 1 | None => 0 end in
  assert_ (bool_decide (n = 1));;
  mret (mk (_ip_port s) (_name s) (_thread_pool s) (_started s) (_listening s) (_next_conn_id s)
           (delete (name conn) (_connections s))).

(** [~TcpServer]: the connections for which [connectDestroyed] is run. *)
Definition destroy (s : t) : list connection := (map_to_list (_connections s)).*2.
End TcpServer.

(** ** Specification *)
Module ServerSpec.
Import TcpServer.

(** The descriptors of an acceptor: its socket, its spare one if it has any, and
    those it has handed over and that are still open. *)
Definition valid_fd (fd : Z) : list Z := if bool_decide (0 <= fd) then [fd] else [].
Definition acceptor_fds (a : Acceptor.t) (handed : list Z) : list Z :=
  Acceptor.acceptSocket_ a :: valid_fd (Acceptor.idleFd_ a) ++ handed.

(** The kernel fails, or gives a descriptor that is not open. *)
Definition accept_ok (answer : Z + Z) (sp : Acceptor.spare) (a : Acceptor.t) (e : env) : Prop :=
  match answer with
  | inr fd => 0 <= fd /\ (fd ∉ open_ e)
  | inl _ => (0 <= Acceptor.s_accept sp -> Acceptor.s_accept sp ∉ open_ e ∖ {[Acceptor.idleFd_ a]}) /\
      (0 <= Acceptor.s_open sp -> Acceptor.s_open sp ∉ open_ e ∖ {[Acceptor.idleFd_ a]})
  end.
Definition expected (errno : Z) : Prop := errno ∈ [EAGAIN; ECONNABORTED; EINTR; EPROTO; EPERM; EMFILE].

(** A server, and the connections that are alive. *)
Inductive op : Type := New (fd : Z) | Remove (i : nat).
Definition step (st : t * list connection) (o : op) : outcome (t * list connection) :=
  let '(s, live) := st in
  match o with
  | New fd => '(s, conn) ← newConnection fd s; mret (s, live ++ [conn])
  | Remove i =>
      match live !! i with
      | Some conn => s ← removeConnectionInLoop conn s; mret (s, delete i live)
      | None => mret (s, live)
      end
  end.
Definition news (ops : list op) : Z := len (List.filter (fun o => match o with New _ => true | _ => false end) ops).

(** The loop of the [n]-th connection, from [0]. *)
Definition loop_of (base : loop) (loops : list loop) (n : Z) : loop :=
  match loops with [] => base | _ => default base (loops !! Z.to_nat (n `mod` len loops)) end.
End ServerSpec.

(** ** Lemmas *)
Module ServerFacts.
Import TcpServer ServerSpec.

(** The name of the connection with number [id]. *)
Definition name_text (ip_port nm : bytes) (id : Z) (text : bytes) : Prop :=
  exists d, convert id ⇓ d /\ DecimalSpec.read d = Some id /\ text = nm ++ lit "-" ++ ip_port ++ lit "#" ++ d.

Lemma name_text_inj ip nm i j text : name_text ip nm i text -> name_text ip nm j text -> i = j.
Proof.
  intros (d & _ & Hi & ->) (d' & _ & Hj & Heq). rewrite !(inj_iff (app _)) in Heq. subst. congruence.
Qed.

Lemma getNextLoop_ok base ls n k :
  len ls < two_31 -> 0 <= n ->
  let next := match ls with [] => 0 | _ => n `mod` len ls end in
  let next' := match ls with [] => 0 | _ => (n + 1) `mod` len ls end in
  EventLoopThreadPool.getNextLoop (EventLoopThreadPool.mk base true k next ls) =
    Done (loop_of base ls n, EventLoopThreadPool.mk base true k next' ls).
Proof.
  intros Hl Hn. destruct ls as [|l0 ls']; [done|]. set (ls := l0 :: ls') in *. simpl.
  assert (0 < len ls) as Hpos by (unfold len, ls; simpl; lia).
  pose proof (Z.mod_pos_bound n (len ls) Hpos) as Hb.
  unfold EventLoopThreadPool.getNextLoop. cbn [EventLoopThreadPool._started EventLoopThreadPool._loops EventLoopThreadPool._next assert_ mbind outcome_bind].
  destruct (at_ok ls (n `mod` len ls)) as [l Hat]; [unfold len in *; lia|]. unfold loop_of.
  unfold ls at 1. fold ls. rewrite Hat. bind_step.
  rewrite checked32_ok by (unfold int32_range, two_31 in *; lia). bind_step.
  rewrite u64_small by (unfold two_31, two_64 in *; lia).
  apply at_Done in Hat as [_ Hat]. fold ls. unfold ls at 3. fold ls. rewrite Hat. simpl.
  unfold mret, outcome_ret. do 3 f_equal. rewrite <-(Zplus_mod_idemp_l n 1). case_bool_decide.
  - replace (n `mod` len ls + 1) with (len ls) by lia. by rewrite Z.mod_same by lia.
  - symmetry. apply Z.mod_small. lia.
Qed.

(** The longest text fits: 63 characters, with an IPv6 address and any [int]. *)
Lemma name_fits ip d : len ip <= 51 -> (length d <= 10)%nat ->
  take 63 (lit "-" ++ ip ++ lit "#" ++ d) = lit "-" ++ ip ++ lit "#" ++ d.
Proof. intros Hip Hd. apply take_ge. rewrite !length_app. unfold len in Hip. simpl. lia. Qed.

(** [INET6_ADDRSTRLEN] is 46, with the terminating NUL. *)
Lemma toIpPort_ok addr port :
  len addr <= 45 -> 0 <= port < two_16 -> exists ip, toIpPort addr port ⇓ ip /\ len ip <= 51.
Proof.
  intros Ha Hp. unfold toIpPort. rewrite bool_decide_eq_true_2 by lia. simpl.
  destruct (LogStreamFacts.convert_ok port) as (d & Hd & _); [unfold two_16, two_63, two_64 in *; lia|]. rewrite Hd. simpl.
  apply (LogStreamFacts.convert_width port d 4) in Hd; [|unfold two_16 in *; lia].
  eexists. split; [done|]. rewrite len_app. unfold len in *. rewrite length_take. simpl. lia.
Qed.

(** The state after [n] connections. *)
Record tracks (base : loop) (ls : list loop) (ip nm : bytes) (n : Z) (st : t * list connection) : Prop := {
  tr_ip : _ip_port st.1 = ip;
  tr_name : _name st.1 = nm;
  tr_pool : exists k, _thread_pool st.1 =
    EventLoopThreadPool.mk base true k (match ls with [] => 0 | _ => n `mod` len ls end) ls;
  tr_next : _next_conn_id st.1 = n + 1;
  tr_map : forall text c, _connections st.1 !! text = Some c <-> c ∈ st.2 /\ name c = text;
  tr_nodup : NoDup (name <$> st.2);
  tr_live : forall c, c ∈ st.2 -> exists i, 0 <= i < n /\ name_text ip nm (i + 1) (name c) /\ io_loop c = loop_of base ls i;
}.

Section tracking.
Context (base : loop) (ls : list loop) (ip nm : bytes).
Context (Hls : len ls < two_31) (Hip : len ip <= 51).

Lemma new_tracks n st fd :
  tracks base ls ip nm n st -> 0 <= n -> n + 2 < two_31 ->
  exists s' c, newConnection fd st.1 ⇓ (s', c) /\ tracks base ls ip nm (n + 1) (s', st.2 ++ [c]) /\
    sockfd c = fd /\ io_loop c = loop_of base ls n.
Proof.
  intros [E1 E2 [k Hpool] Hid Hmap Hnd Hlive] Hn Hb. unfold newConnection. rewrite Hpool.
  rewrite (getNextLoop_ok base ls n k Hls Hn). bind_step.
  destruct (LogStreamFacts.convert_ok (n + 1)) as (d & Hd & Hread & _); [unfold two_31, two_63, two_64 in *; lia|].
  rewrite Hid, Hd. bind_step. rewrite checked32_ok by (unfold int32_range, two_31 in *; lia).
  bind_step. rewrite E1, E2.
  rewrite (name_fits ip d Hip) by (apply (LogStreamFacts.convert_width (n + 1) d 9); [unfold two_31 in *; lia|done]).
  eexists _, _. split; [done|]. split_and!; [|done..].
  set (text := nm ++ _). assert (name_text ip nm (n + 1) text) as Htext by (by exists d).
  assert (text ∉ (name <$> st.2)) as Hfresh.
  { intros (c & Heq & Hc)%list_elem_of_fmap. destruct (Hlive c Hc) as (i & Hi & Ht & _). rewrite <-Heq in Ht.
    pose proof (name_text_inj _ _ _ _ _ Htext Ht). lia. }
  split; simpl; [done|done|by eexists|lia| | |].
  - intros text' c. rewrite elem_of_app, list_elem_of_singleton, lookup_insert_Some, Hmap. split.
    + intros [[<- <-]|[Hne [Hc <-]]]; [by split; [right|]|by split; [left|]].
    + intros [[Hc| ->] Heq]; [|by left].
      right. split; [|done]. intros Heq'. apply Hfresh. rewrite Heq', <-Heq. by apply list_elem_of_fmap_2.
  - rewrite fmap_app. apply NoDup_app. split_and!; [done| |apply NoDup_singleton].
    intros x Hx ->%list_elem_of_singleton. done.
  - intros c [Hc| ->%list_elem_of_singleton]%elem_of_app.
    + destruct (Hlive c Hc) as (i & Hi & ? & ?). exists i. split_and!; [lia..|done|done].
    + exists n. split_and!; [lia..|done|done].
Qed.

Lemma remove_tracks n st i c :
  tracks base ls ip nm n st -> st.2 !! i = Some c ->
  exists s', removeConnectionInLoop c st.1 ⇓ s' /\ tracks base ls ip nm n (s', delete i st.2).
Proof.
  intros [E1 E2 Hpool Hid Hmap Hnd Hlive] Hi. unfold removeConnectionInLoop.
  assert (_connections st.1 !! name c = Some c) as Hc by (apply Hmap; split; [by eapply list_elem_of_lookup_2|done]).
  rewrite Hc. simpl. eexists. split; [done|].
  pose proof (take_drop_middle _ _ _ Hi) as Hsplit. rewrite delete_take_drop. rewrite <-Hsplit in Hnd.
  set (l1 := take i st.2) in *. set (l2 := drop (S i) st.2) in *.
  rewrite fmap_app, fmap_cons in Hnd. apply NoDup_app in Hnd as (Hn1 & Hdisj & Hn2).
  apply NoDup_cons in Hn2 as [Hc2 Hn2].
  assert (forall c', c' ∈ l1 ++ l2 -> c' ∈ st.2 /\ name c' <> name c) as Hother.
  { intros c' Hc'. rewrite <-Hsplit. split; [set_solver|]. intros Heq. apply elem_of_app in Hc' as [Hc'|Hc'].
    - apply (Hdisj (name c')); [by apply list_elem_of_fmap_2|]. rewrite Heq. apply list_elem_of_here.
    - apply Hc2. rewrite <-Heq. by apply list_elem_of_fmap_2. }
  split; simpl; [done|done|done|done| | |].
  - intros text c'. rewrite lookup_delete_Some, Hmap. split.
    + intros [Hne [Hc' Heq]]. split; [|done]. rewrite <-Hsplit in Hc'.
      apply elem_of_app in Hc' as [?|[->|?]%elem_of_cons]; [apply elem_of_app; by left|done|apply elem_of_app; by right].
    + intros [Hc' Heq]. destruct (Hother c' Hc') as [? ?]. split; [congruence|done].
  - rewrite fmap_app. apply NoDup_app. split_and!; [done| |done].
    intros x Hx Hx'. apply (Hdisj x Hx). apply elem_of_cons. by right.
  - intros c' Hc'. apply Hlive. by apply Hother.
Qed.

Lemma run_tracks ops : forall n st,
  tracks base ls ip nm n st -> 0 <= n -> n + news ops + 1 < two_31 ->
  exists st', run_all step st ops ⇓ st' /\ tracks base ls ip nm (n + news ops) st'.
Proof.
  induction ops as [|o ops IH]; intros n [s live] Htr Hn Hb.
  { exists (s, live). split; [done|]. change (news []) with 0. by rewrite Z.add_0_r. }
  assert (0 <= news ops) as Hnn by (unfold news; auto with muduo). destruct o as [fd|i].
  - assert (news (New fd :: ops) = 1 + news ops) as Hc by (unfold news, len; simpl; lia). rewrite Hc in *.
    destruct (new_tracks n (s, live) fd Htr Hn) as (s' & c & Hs & Htr' & _); [lia|]. cbn [fst snd] in *.
    destruct (IH (n + 1) _ Htr') as (st' & Hrun & Htr''); [lia..|]. exists st'.
    cbn [run_all step]. rewrite Hs. split; [done|]. by replace (n + (1 + news ops)) with (n + 1 + news ops) by lia.
  - change (news (Remove i :: ops)) with (news ops) in *. cbn [run_all step].
    destruct (live !! i) as [c|] eqn:Hi; [|by apply IH].
    destruct (remove_tracks n (s, live) i c Htr Hi) as (s' & Hs & Htr'). cbn [fst snd] in *. rewrite Hs.
    cbn [mbind outcome_bind mret outcome_ret]. by apply IH.
Qed.
End tracking.

(** *** The acceptor's descriptors *)
Definition accounted (fds : list Z) (e : env) : Prop := ClientFacts.holds fds e.

Lemma open_fd_holds fd fds e :
  accounted fds e -> (0 <= fd -> fd ∉ fds) -> accounted (valid_fd fd ++ fds) (Acceptor.open_fd fd e).
Proof.
  intros (Hn & Ho & Hb) Hfresh. unfold Acceptor.open_fd, valid_fd. case_bool_decide as Hfd; [|done].
  split_and!; simpl; [apply NoDup_cons; auto| |done].
  intros fd'. by rewrite elem_of_union, elem_of_singleton, Ho, elem_of_cons.
Qed.

Lemma posix_close_holds fd fds e : accounted (valid_fd fd ++ fds) e -> accounted fds (Acceptor.posix_close fd e).
Proof. unfold Acceptor.posix_close, valid_fd. case_bool_decide; [apply ClientFacts.holds_close|done]. Qed.

Lemma acceptor_perm a handed : acceptor_fds a handed ≡ₚ valid_fd (Acceptor.idleFd_ a) ++ Acceptor.acceptSocket_ a :: handed.
Proof. unfold acceptor_fds, valid_fd. case_bool_decide; [apply perm_swap|done]. Qed.

(** Giving the spare descriptor up and taking one again, as far as the kernel
    allows. *)
Lemma emfile_holds errno sp a e handed :
  accounted (acceptor_fds a handed) e -> accept_ok (inl errno) sp a e ->
  accounted (acceptor_fds (Acceptor.mk (Acceptor.acceptSocket_ a) (Acceptor.listenning_ a) (Acceptor.reading_ a)
       (Acceptor.s_open sp) (Acceptor.newConnectionCallback_ a)) handed)
    (Acceptor.open_fd (Acceptor.s_open sp) (Acceptor.posix_close (Acceptor.s_accept sp)
       (Acceptor.open_fd (Acceptor.s_accept sp) (Acceptor.posix_close (Acceptor.idleFd_ a) e)))).
Proof.
  intros Hh [Hfa Hfo]. pose proof (ClientFacts.holds_perm _ _ _ (acceptor_perm a handed) Hh) as Hh'.
  pose proof (posix_close_holds _ _ _ Hh') as Hh1. pose proof Hh' as (Hnd & Hopen & _).
  assert (forall fd, fd ∉ open_ e ∖ {[Acceptor.idleFd_ a]} -> 0 <= fd -> fd ∉ Acceptor.acceptSocket_ a :: handed) as Hfresh.
  { intros fd Hfd Hpos Hin. apply Hfd. apply elem_of_difference. rewrite Hopen, elem_of_singleton. split; [by apply elem_of_app; right|].
    intros ->. apply NoDup_app in Hnd as (_ & Hn & _). apply (Hn (Acceptor.idleFd_ a)); [|done].
    unfold valid_fd. rewrite bool_decide_eq_true_2 by done. by apply list_elem_of_singleton. }
  eapply ClientFacts.holds_perm; [symmetry; apply acceptor_perm|]. cbn [Acceptor.idleFd_ Acceptor.acceptSocket_].
  apply open_fd_holds; [|intros Hp; apply Hfresh; auto]. apply posix_close_holds, open_fd_holds; [done|]. intros Hp. apply Hfresh; auto.
Qed.
End ServerFacts.

(** ** Properties *)
Module ServerTheorems.
Import TcpServer ServerSpec ServerFacts.

(** C23.  The server keeps track of its connections: whatever connections come
    and go, names never collide (so that the assertion of
    [removeConnectionInLoop] holds), the map holds exactly the live
    connections, each under its name, the [i]-th connection runs in the
    [i]-th loop round robin, and the destructor takes down exactly those. *)
Theorem server_tracks_connections base fresh nm addr port num ops :
  0 <= num < two_31 -> len addr <= 45 -> 0 <= port < two_16 -> news ops + 1 < two_31 ->
  let ls := fresh <$> seq 0 (Z.to_nat num) in
  exists ip s0 s1 s live,
    toIpPort addr port ⇓ ip /\ setThreadNum num (init base ip nm) ⇓ s0 /\ start fresh s0 ⇓ s1 /\
    run_all step (s1, []) ops ⇓ (s, live) /\ NoDup (name <$> live) /\
    (forall text c, _connections s !! text = Some c <-> c ∈ live /\ name c = text) /\
    (forall c, c ∈ live -> exists i, 0 <= i < news ops /\ name_text ip nm (i + 1) (name c) /\ io_loop c = loop_of base ls i) /\
    destroy s ≡ₚ live.
Proof.
  intros Hnum Haddr Hport Hb ls. destruct (toIpPort_ok addr port Haddr Hport) as (ip & Hipp & Hip). exists ip.
  unfold setThreadNum. rewrite bool_decide_eq_true_2 by lia. simpl. eexists _, _. unfold start. simpl.
  assert (tracks base ls ip nm 0 (mk ip nm (EventLoopThreadPool.mk base true num 0 ls) 1 true 1 ∅, [])) as Htr.
  { split; simpl; [done|done| |done| |constructor|by intros c ?%not_elem_of_nil].
    - exists num. by destruct ls.
    - intros text c. rewrite lookup_empty. split; [done|]. by intros [?%not_elem_of_nil _]. }
  destruct (run_tracks base ls ip nm ltac:(unfold len, ls; rewrite length_fmap, length_seq; lia) Hip ops 0 _ Htr)
    as ([s live] & Hrun & [_ _ _ _ Hmap Hnd Hlive]); [lia..|].
  exists s, live. simpl in *. split_and!; [done|done|done|done|done|done|done|].
  apply NoDup_Permutation.
  - apply (NoDup_fmap_1 name). unfold destroy. rewrite <-list_fmap_compose.
    rewrite (list_fmap_ext _ fst); [apply NoDup_fst_map_to_list|].
    intros i [text c] Hi. simpl. apply list_elem_of_lookup_2, elem_of_map_to_list, Hmap in Hi. by destruct Hi.
  - by apply (NoDup_fmap_1 name).
  - intros c. unfold destroy. rewrite list_elem_of_fmap. split.
    + intros ([text c'] & -> & Hc%elem_of_map_to_list). by apply Hmap in Hc as [? _].
    + intros Hc. exists (name c, c). split; [done|]. apply elem_of_map_to_list. by apply Hmap.
Qed.

Lemma server_tracks_connections_witness :
  let ls := Z.of_nat <$> seq 0 (Z.to_nat 2) in
  exists ip s0 s1 s live,
    toIpPort (lit "0.0.0.0") 8000 ⇓ ip /\ setThreadNum 2 (init 100 ip (lit "srv")) ⇓ s0 /\ start Z.of_nat s0 ⇓ s1 /\
    run_all step (s1, []) [New 5; New 6; Remove 0; New 5] ⇓ (s, live) /\ NoDup (name <$> live) /\
    (forall text c, _connections s !! text = Some c <-> c ∈ live /\ name c = text) /\
    (forall c, c ∈ live -> exists i, 0 <= i < 3 /\ name_text ip (lit "srv") (i + 1) (name c) /\
       io_loop c = loop_of 100 ls i) /\
    destroy s ≡ₚ live.
Proof.
  apply (server_tracks_connections 100 Z.of_nat (lit "srv") (lit "0.0.0.0") 8000 2 [New 5; New 6; Remove 0; New 5]);
    by vm_compute.
Defined.

(** C36.  The acceptor accounts for every descriptor, whatever the kernel
    answers: the open ones are always exactly its socket, its spare one if it
    has one, and those handed over; none is leaked, and none is closed that is
    not its own and open.  When a connection can be accepted, its descriptor is
    handed over, or closed if nobody takes it.  After an expected error nothing
    changes unless [errno], as [LOG_SYSERR] leaves it, is [EMFILE]: then the
    spare descriptor is given up, a connection that can be accepted in its place
    is closed, and the spare one is what [open] then gives: none, if it fails.
    An unexpected error stops the process. *)
Theorem acceptor_descriptors answer sp a e handed :
  accounted (acceptor_fds a handed) e -> accept_ok answer sp a e ->
  match answer with
  | inl errno => ~ expected errno
  | inr _ => False
  end /\ Acceptor.handleRead answer sp a e ↯ LogFatal \/
  exists a' e' h, Acceptor.handleRead answer sp a e ⇓ (a', e', h) /\
    accounted (acceptor_fds a' (match h with Some fd => fd :: handed | None => handed end)) e' /\
    Acceptor.acceptSocket_ a' = Acceptor.acceptSocket_ a /\
    match answer with
    | inr fd => h = (if Acceptor.newConnectionCallback_ a then Some fd else None) /\ a' = a
    | inl errno => h = None /\ expected errno /\
        Acceptor.idleFd_ a' = (if bool_decide (Acceptor.s_errno sp = EMFILE) then Acceptor.s_open sp else Acceptor.idleFd_ a) /\
        (Acceptor.s_errno sp <> EMFILE -> a' = a /\ e' = e)
    end.
Proof.
  intros Hh Hok. unfold Acceptor.handleRead, Acceptor.accept.
  destruct answer as [errno|fd].
  - unfold expected. destruct (decide (errno ∈ [EAGAIN; ECONNABORTED; EINTR; EPROTO; EPERM; EMFILE])) as [Hexp|Hexp];
      [rewrite (bool_decide_eq_true_2 _ Hexp); right|rewrite (bool_decide_eq_false_2 _ Hexp); left; by split].
    simpl. case_bool_decide as Hem; eexists _, _, _; (split; [done|]).
    + pose proof (emfile_holds errno sp a e handed Hh Hok) as Hh'. by split_and!.
    + by split_and!.
  - right. destruct Hok as [Hfd Hfresh]. simpl. rewrite bool_decide_eq_true_2 by done.
    assert (fd ∉ acceptor_fds a handed) as Hfresh' by (destruct Hh as (_ & Ho & _); by rewrite <-Ho).
    pose proof (open_fd_holds fd _ e Hh (fun _ => Hfresh')) as Hh1. unfold valid_fd in Hh1 at 1. rewrite bool_decide_eq_true_2 in Hh1 by done.
    destruct (Acceptor.newConnectionCallback_ a); eexists _, _, _; (split; [done|]); (split; [|by split_and!]).
    + eapply ClientFacts.holds_perm; [|exact Hh1]. unfold acceptor_fds. cbn [app]. rewrite <-(Permutation_middle _ handed fd). apply perm_swap.
    + by apply ClientFacts.holds_close in Hh1.
Qed.

Definition example_acceptor : Acceptor.t := Acceptor.mk 3 true true 4 true.
Definition example_fds : env := mk_env [] [] {[3; 4; 7]} false.

(** The pending connection is gone, and another thread has taken the place of
    the spare descriptor. *)
Lemma acceptor_descriptors_witness :
  exists a' e', Acceptor.handleRead (inl EMFILE) (Acceptor.mk_spare EMFILE (-1) (-1)) example_acceptor example_fds ⇓ (a', e', None) /\
    accounted (acceptor_fds a' [7]) e' /\ Acceptor.idleFd_ a' = -1.
Proof.
  destruct (acceptor_descriptors (inl EMFILE) (Acceptor.mk_spare EMFILE (-1) (-1)) example_acceptor example_fds [7])
    as [[He _]|(a' & e' & h & Hr & Hacc & _ & -> & _ & Hidle & _)].
  - split_and!; [by_computation| |done].
    intros fd. unfold example_fds, acceptor_fds. simpl. set_solver.
  - split; intros Hneg; by destruct Hneg.
  - destruct He. unfold expected. set_solver.
  - exists a', e'. split; [exact Hr|]. split; [exact Hacc|exact Hidle].
Defined.
End ServerTheorems.
