(* ===== verification/Dates.v ===== *)
(** * Dates: Julian day numbers

    Models [Date] ([src/muduo/base/Date.h], [Date.cc]).  Division is that of
    C++ (towards zero) and every [int] that the code computes is checked for
    overflow.  The theorem relates the two conversions to the calendar. *)
From S2P Require Import Prelude.

Local Open Scope Z_scope.
Local Open Scope muduo_scope.

Module Date.
Record YearMonthDay : Type := mk_ymd { year : Z; month : Z; day : Z }.
Global Instance YearMonthDay_eq_dec : EqDecision YearMonthDay.
Proof. solve_decision. Defined.

Definition getJulianDayNumber (year month day : Z) : outcome Z :=
  let a := Z.quot (14 - month) 12 in
  y ← checked32 (year + 4800 - a);
  m ← checked32 (month + 12 * a - 3);
  yd ← checked32 (y * 365);
  checked32 (day + Z.quot (153 * m + 2) 5 + yd + Z.quot y 4 - Z.quot y 100 + Z.quot y 400 - 32045).

Definition getYearMonthDay (julianDayNumber : Z) : outcome YearMonthDay :=
  a ← checked32 (julianDayNumber + 32044);
  a4 ← checked32 (4 * a + 3);
  let b := Z.quot a4 146097 in
  bb ← checked32 (b * 146097);
  let c := a - Z.quot bb 4 in
  let d := Z.quot (4 * c + 3) 1461 in
  let e := c - Z.quot (1461 * d) 4 in
  let m := Z.quot (5 * e + 2) 153 in
  mret (mk_ymd (b * 100 + d - 4800 + Z.quot m 10) (m + 3 - 12 * Z.quot m 10) (e - Z.quot (153 * m + 2) 5 + 1)).

(** [julianDayNumber_] is the whole state of a date. *)
Definition t : Type := Z.
Definition invalid : t := 0.
Definition kDaysPerWeek : Z := 7.
Definition make (year month day : Z) : outcome t := getJulianDayNumber year month day.
Definition of_tm (tm_year tm_mon tm_mday : Z) : outcome t := getJulianDayNumber (tm_year + 1900) (tm_mon + 1) tm_mday.
Definition valid (d : t) : bool := bool_decide (0 < d).
Definition yearMonthDay (d : t) : outcome YearMonthDay := getYearMonthDay d.
Definition weekDay (d : t) : Z := Z.rem (d + 1) kDaysPerWeek.
Definition operator_lt (x y : t) : bool := bool_decide (x < y).
Definition operator_eq (x y : t) : bool := bool_decide (x = y).
Definition kJulianDayOf1970_01_01 : outcome Z := getJulianDayNumber 1970 1 1.
End Date.

(** ** Specification: the Gregorian calendar *)
Module Calendar.
Import Date.
Definition leap (y : Z) : bool := (y mod 4 =? 0) && (negb (y mod 100 =? 0) || (y mod 400 =? 0)).
Definition days_in (y m : Z) : Z :=
  if m =? 2 then if leap y then 29 else 28
  else if (m =? 4) || (m =? 6) || (m =? 9) || (m =? 11) then 30 else 31.
Definition is_date (x : YearMonthDay) : Prop :=
  1 <= month x <= 12 /\ 1 <= day x <= days_in (year x) (month x).
Definition tomorrow (x : YearMonthDay) : YearMonthDay :=
  if day x <? days_in (year x) (month x) then mk_ymd (year x) (month x) (day x + 1)
  else if month x <? 12 then mk_ymd (year x) (month x + 1) 1
  else mk_ymd (year x + 1) 1 1.

(** The years whose days the code computes without overflow. *)
Definition in_range (x : YearMonthDay) : Prop := -4799 <= year x <= 1000000.
End Calendar.

Module DateFacts.
Import Date Calendar.

(** The year that begins in March, and the month counted from March. *)
Definition myear (x : YearMonthDay) : Z := year x + 4800 - if month x <=? 2 then 1 else 0.
Definition mmonth (x : YearMonthDay) : Z := if month x <=? 2 then month x + 9 else month x - 3.
(** Days since the first of March. *)
Definition yday (x : YearMonthDay) : Z := (153 * mmonth x + 2) / 5 + day x - 1.
Definition jdn (x : YearMonthDay) : Z :=
  yday x + 365 * myear x + myear x / 4 - myear x / 100 + myear x / 400 - 32044.

Lemma march m : 1 <= m <= 12 -> Z.quot (14 - m) 12 = if m <=? 2 then 1 else 0.
Proof. intros Hm. rewrite Z.quot_div_nonneg by lia. destruct (Z.leb_spec m 2); Z.to_euclidean_division_equations; lia. Qed.

Lemma bounds x : is_date x -> in_range x -> 0 <= myear x <= 1004800 /\ 0 <= mmonth x <= 11 /\ 0 <= yday x <= 365.
Proof.
  destruct x as [y m d]. unfold is_date, in_range, yday, myear, mmonth, days_in. simpl. intros [Hm Hd] Hy.
  assert (m = 2 -> d <= 29) as H2 by (intros ->; simpl in Hd; destruct (leap y); lia).
  assert (1 <= d <= 31) as H31 by (repeat case_match; lia). clear Hd.
  destruct (Z.leb_spec m 2); split_and!; Z.to_euclidean_division_equations; lia.
Qed.

Lemma jdn_ok x : is_date x -> in_range x -> getJulianDayNumber (year x) (month x) (day x) ⇓ (jdn x).
Proof.
  intros Hx Hr. destruct (bounds x Hx Hr) as (Hy & Hm & Hd). unfold getJulianDayNumber.
  rewrite march by apply Hx.
  replace (year x + 4800 - _) with (myear x) by done.
  replace (month x + 12 * _ - 3) with (mmonth x) by (unfold mmonth; destruct (_ <=? _); lia).
  rewrite !checked32_ok by (unfold int32_range, two_31; lia). bind_step.
  rewrite checked32_ok by (unfold int32_range, two_31; lia). bind_step.
  rewrite !Z.quot_div_nonneg by lia.
  assert (day x + (153 * mmonth x + 2) / 5 + myear x * 365 + myear x / 4 - myear x / 100 + myear x / 400 - 32045 = jdn x)
    as -> by (unfold jdn, yday; lia).
  apply checked32_ok. unfold jdn. unfold int32_range, two_31. Z.to_euclidean_division_equations; lia.
Qed.

(** A day in a 400-year cycle: only in a leap year has the year that began in
    March its 366th day. *)
Lemma leap_day x : is_date x -> yday x = 365 -> leap (year x) = true /\ month x = 2.
Proof.
  destruct x as [y m d]. unfold is_date, yday, mmonth, days_in. simpl. intros [Hm Hd] He.
  assert (m = 2) as ->.
  { assert (m <> 2 -> d <= 31) as H31 by (repeat case_match; lia).
    destruct (Z.leb_spec m 2); Z.to_euclidean_division_equations; lia. }
  simpl in *. destruct (leap y); [done|]. exfalso. change ((153 * (2 + 9) + 2) / 5) with 337 in He. lia.
Qed.

Lemma split_century Y : 0 <= Y ->
  Y = 100 * (Y / 100) + Y mod 100 /\ Y / 4 = 25 * (Y / 100) + (Y mod 100) / 4 /\ Y / 400 = (Y / 100) / 4 /\ 0 <= Y mod 100 < 100.
Proof. intros H. Z.to_euclidean_division_equations; lia. Qed.

(** The three divisions of [getYearMonthDay], undone. *)
Lemma century B c : 0 <= B -> 0 <= c <= 36524 -> (c = 36524 -> B mod 4 = 3) ->
  let a := c + 36524 * B + B / 4 in (4 * a + 3) / 146097 = B /\ a - (B * 146097) / 4 = c.
Proof. intros HB Hc Hl. simpl. Z.to_euclidean_division_equations; lia. Qed.

Lemma year_of_century D e : 0 <= D < 100 -> 0 <= e <= 365 -> (e = 365 -> D mod 4 = 3) ->
  let c := e + 365 * D + D / 4 in (4 * c + 3) / 1461 = D /\ c - (1461 * D) / 4 = e /\ 0 <= c <= 36524.
Proof. intros HD He Hl. simpl. Z.to_euclidean_division_equations; lia. Qed.

Lemma month_of_year m d : 0 <= m <= 11 -> 1 <= d <= 31 ->
  d <= (153 * (m + 1) + 2) / 5 - (153 * m + 2) / 5 \/ (m = 11 /\ d <= 29) ->
  let e := (153 * m + 2) / 5 + d - 1 in (5 * e + 2) / 153 = m.
Proof. intros Hm Hd Hl. simpl. Z.to_euclidean_division_equations; lia. Qed.

Lemma month_length x : is_date x ->
  day x <= (153 * (mmonth x + 1) + 2) / 5 - (153 * mmonth x + 2) / 5 \/ (mmonth x = 11 /\ day x <= 29).
Proof.
  destruct x as [y m d]. unfold is_date, mmonth, days_in. simpl. intros [Hm Hd].
  assert (m = 1 \/ m = 2 \/ m = 3 \/ m = 4 \/ m = 5 \/ m = 6 \/ m = 7 \/ m = 8 \/ m = 9 \/ m = 10 \/ m = 11 \/ m = 12)
    as Hcase by lia.
  repeat (destruct Hcase as [->|Hcase]); try subst; simpl in *; try (left; Z.to_euclidean_division_equations; lia).
  right. destruct (leap y); lia.
Qed.

(** What the leap rule means for the year that began in March. *)
Lemma leap_march x : is_date x -> in_range x -> yday x = 365 ->
  (myear x mod 100) mod 4 = 3 /\ (myear x mod 100 = 99 -> (myear x / 100) mod 4 = 3).
Proof.
  intros Hx Hr He. destruct (leap_day x Hx He) as [Hl Hm]. unfold myear. rewrite Hm. simpl. unfold leap in Hl.
  apply andb_true_iff in Hl as [H4 Hl]. apply Z.eqb_eq in H4. apply orb_true_iff in Hl.
  assert (year x mod 100 <> 0 \/ year x mod 400 = 0) as Hl'.
  { destruct Hl as [Hl|Hl]; [left|right; by apply Z.eqb_eq]. apply negb_true_iff, Z.eqb_neq in Hl. done. }
  clear Hl. unfold in_range in Hr. split; Z.to_euclidean_division_equations; lia.
Qed.

Lemma ymd_ok x : is_date x -> in_range x -> getYearMonthDay (jdn x) ⇓ x.
Proof.
  intros Hx Hr. destruct (bounds x Hx Hr) as (Hy & Hm & He).
  destruct (split_century (myear x)) as (E1 & E2 & E3 & HD); [lia|].
  set (B := myear x / 100) in *. set (D := myear x mod 100) in *.
  assert (0 <= B <= 10048) as HB by (unfold B; Z.to_euclidean_division_equations; lia).
  destruct (year_of_century D (yday x)) as (Hd & Hec & Hc); [done|done|by intros; apply leap_march|].
  set (c := yday x + 365 * D + D / 4) in *.
  assert (c = 36524 -> B mod 4 = 3) as Hlast.
  { intros Hc'. assert (yday x = 365 /\ D = 99) as [H365 H99] by (unfold c in Hc'; Z.to_euclidean_division_equations; lia).
    by apply leap_march. }
  destruct (century B c) as (Hb & Hcc); [lia|done|done|].
  set (a := c + 36524 * B + B / 4) in *.
  assert (jdn x + 32044 = a) as Ha by (unfold jdn, a, c; rewrite E2, E3; rewrite E1 at 1; fold B; lia).
  assert (0 <= a <= 400000000) as Hab by (unfold a; Z.to_euclidean_division_equations; lia).
  unfold getYearMonthDay. rewrite Ha.
  rewrite !checked32_ok by (unfold int32_range, two_31; lia). bind_step.
  rewrite checked32_ok by (unfold int32_range, two_31; lia). bind_step.
  rewrite (Z.quot_div_nonneg (4 * a + 3)) by lia. rewrite Hb.
  rewrite checked32_ok by (unfold int32_range, two_31; lia). bind_step.
  rewrite (Z.quot_div_nonneg (B * 146097)) by lia. rewrite Hcc.
  rewrite (Z.quot_div_nonneg (4 * c + 3)) by lia. rewrite Hd.
  rewrite (Z.quot_div_nonneg (1461 * D)) by lia. rewrite Hec.
  rewrite (Z.quot_div_nonneg (5 * yday x + 2)) by lia.
  assert (1 <= day x <= 31) as Hday by (destruct Hx as [_ Hx]; unfold days_in in Hx; repeat case_match; lia).
  pose proof (month_of_year (mmonth x) (day x) Hm Hday (month_length x Hx)) as Hmo.
  change ((153 * mmonth x + 2) / 5 + day x - 1) with (yday x) in Hmo. cbv zeta in Hmo. rewrite Hmo.
  rewrite !Z.quot_div_nonneg by lia. unfold mret, outcome_ret. f_equal.
  destruct Hx as [Hmx _]. destruct x as [y m d]. unfold yday, myear, mmonth in *. simpl in *.
  destruct (Z.leb_spec m 2); f_equal; Z.to_euclidean_division_equations; lia.
Qed.

Lemma leap_correction y :
  (y / 4 - y / 100 + y / 400) - ((y - 1) / 4 - (y - 1) / 100 + (y - 1) / 400) = if leap y then 1 else 0.
Proof.
  unfold leap. destruct (Z.eqb_spec (y mod 4) 0), (Z.eqb_spec (y mod 100) 0), (Z.eqb_spec (y mod 400) 0); simpl;
    Z.to_euclidean_division_equations; lia.
Qed.

Lemma leap_4800 y : leap (y + 4800) = leap y.
Proof.
  unfold leap. change 4800 with (1200 * 4) at 1. rewrite Z.mod_add by lia.
  change 4800 with (48 * 100) at 1. rewrite Z.mod_add by lia. change 4800 with (12 * 400). by rewrite Z.mod_add by lia.
Qed.

Lemma jdn_march y : jdn (mk_ymd y 3 1) = jdn (mk_ymd y 2 (days_in y 2)) + 1.
Proof.
  unfold jdn, yday, myear, mmonth, days_in. simpl. pose proof (leap_correction (y + 4800)) as Hl. rewrite leap_4800 in Hl.
  change ((153 * (3 - 3) + 2) / 5) with 0. change ((153 * (2 + 9) + 2) / 5) with 337.
  rewrite !Z.sub_0_r. destruct (leap y); lia.
Qed.

Lemma jdn_next_month y m : 1 <= m <= 11 -> jdn (mk_ymd y (m + 1) 1) = jdn (mk_ymd y m (days_in y m)) + 1.
Proof.
  intros Hm.
  assert (m = 2 \/ m = 1 \/ m = 3 \/ m = 4 \/ m = 5 \/ m = 6 \/ m = 7 \/ m = 8 \/ m = 9 \/ m = 10 \/ m = 11)
    as Hcase by lia.
  destruct Hcase as [->|Hcase]; [apply jdn_march|].
  repeat (destruct Hcase as [->|Hcase]); try subst; unfold jdn, yday, myear, mmonth, days_in; simpl;
    Z.to_euclidean_division_equations; lia.
Qed.

Lemma jdn_new_year y : jdn (mk_ymd (y + 1) 1 1) = jdn (mk_ymd y 12 31) + 1.
Proof.
  unfold jdn, yday, myear, mmonth. simpl. replace (y + 1 + 4800 - 1) with (y + 4800 - 0) by lia.
  change ((153 * (1 + 9) + 2) / 5) with 306. change ((153 * (12 - 3) + 2) / 5) with 275. lia.
Qed.

Lemma days_in_pos y m : 1 <= days_in y m.
Proof. unfold days_in. repeat case_match; lia. Qed.

Lemma jdn_tomorrow x : is_date x -> jdn (tomorrow x) = jdn x + 1 /\ is_date (tomorrow x).
Proof.
  destruct x as [y m d]. unfold is_date, tomorrow. simpl. intros [Hm Hd].
  destruct (Z.ltb_spec d (days_in y m)); [|destruct (Z.ltb_spec m 12)]; simpl.
  - split; [unfold jdn, yday, myear, mmonth; simpl; lia|lia].
  - assert (d = days_in y m) as -> by lia. pose proof (days_in_pos y (m + 1)).
    split; [apply jdn_next_month; lia|lia].
  - assert (m = 12) as -> by lia. change (days_in y 12) with 31 in *. assert (d = 31) as -> by lia.
    split; [apply jdn_new_year|]. change (days_in (y + 1) 1) with 31. lia.
Qed.
End DateFacts.

(** ** Properties *)
Module DateTheorems.
Import Date Calendar DateFacts.

(** C35.  Dates follow the Gregorian calendar: for every date of the years
    -4799 to 1000000 both conversions complete without integer overflow, the
    date comes back from its Julian day number, and the next day has the next
    number (and the next day of the week), the count being anchored at
    1970-01-01. *)
Theorem date_calendar x :
  is_date x -> in_range x -> in_range (tomorrow x) ->
  kJulianDayOf1970_01_01 ⇓ 2440588 /\
  exists n, make (year x) (month x) (day x) ⇓ n /\ yearMonthDay n ⇓ x /\
    make (year (tomorrow x)) (month (tomorrow x)) (day (tomorrow x)) ⇓ (n + 1) /\
    yearMonthDay (n + 1) ⇓ (tomorrow x) /\ (0 <= n -> weekDay (n + 1) = (weekDay n + 1) mod 7).
Proof.
  intros Hx Hr Hr'. destruct (jdn_tomorrow x Hx) as [Hn Hx']. split; [reflexivity|]. exists (jdn x).
  unfold make, yearMonthDay. split_and!; [by apply jdn_ok|by apply ymd_ok| | |].
  - rewrite jdn_ok by done. by rewrite Hn.
  - rewrite <-Hn. by apply ymd_ok.
  - intros Hpos. unfold weekDay, kDaysPerWeek. rewrite !Z.rem_mod_nonneg by lia. by rewrite Zplus_mod_idemp_l.
Qed.

Lemma date_calendar_witness :
  kJulianDayOf1970_01_01 ⇓ 2440588 /\
  exists n, make 2000 2 28 ⇓ n /\ yearMonthDay n ⇓ (mk_ymd 2000 2 28) /\
    make 2000 2 29 ⇓ (n + 1) /\ yearMonthDay (n + 1) ⇓ (mk_ymd 2000 2 29) /\
    (0 <= n -> weekDay (n + 1) = (weekDay n + 1) mod 7).
Proof. apply (date_calendar (mk_ymd 2000 2 28)); by vm_compute. Defined.
End DateTheorems.
