(* ===== verification/UtcTimes.v ===== *)
(** * UtcTimes: broken-down UTC time

    Models the static conversions of [TimeZone] ([src/muduo/base/TimeZone.cc]:
    [fillHMS], [toUtcTime], [fromUtcTime]), which are the library's own
    [gmtime(3)] and [timegm(3)], over the [Date] of Dates.v.  The class
    [CTime] states what the C library's functions of those names promise;
    the instance at the end discharges it with [toUtcTime] and
    [fromUtcTime], as the comments of the source intend. *)
From S2P Require Import Prelude Dates.

Local Open Scope Z_scope.
Local Open Scope muduo_scope.

(** [struct tm] of [<time.h>] with the two GNU fields. *)
Record tm : Type := mk_tm {
  tm_sec : Z; tm_min : Z; tm_hour : Z;
  tm_mday : Z; tm_mon : Z; tm_year : Z;
  tm_wday : Z; tm_yday : Z; tm_isdst : Z;
  tm_gmtoff : Z; tm_zone : option bytes }.
Global Instance tm_eq_dec : EqDecision tm.
Proof. solve_decision. Defined.

(** [memZero]. *)
Definition tm_zero : tm := mk_tm 0 0 0 0 0 0 0 0 0 0 None.

Module UtcTime.
Definition kSecondsPerDay : Z := 24 * 60 * 60.

(** [unsigned] arithmetic; the fields are [int]. *)
Definition fillHMS (seconds : Z) (utc : tm) : tm :=
  let minutes := seconds / 60 in
  mk_tm (seconds mod 60) (minutes mod 60) (minutes / 60)
        (tm_mday utc) (tm_mon utc) (tm_year utc) (tm_wday utc) (tm_yday utc)
        (tm_isdst utc) (tm_gmtoff utc) (tm_zone utc).

Definition set_zone (z : option bytes) (u : tm) : tm :=
  mk_tm (tm_sec u) (tm_min u) (tm_hour u) (tm_mday u) (tm_mon u) (tm_year u) (tm_wday u) (tm_yday u)
        (tm_isdst u) (tm_gmtoff u) z.
Definition set_date (year mon mday wday : Z) (u : tm) : tm :=
  mk_tm (tm_sec u) (tm_min u) (tm_hour u) mday mon year wday (tm_yday u)
        (tm_isdst u) (tm_gmtoff u) (tm_zone u).
Definition set_yday (yday : Z) (u : tm) : tm :=
  mk_tm (tm_sec u) (tm_min u) (tm_hour u) (tm_mday u) (tm_mon u) (tm_year u) (tm_wday u) yday
        (tm_isdst u) (tm_gmtoff u) (tm_zone u).

Definition toUtcTime (secondsSinceEpoch : Z) (yday : bool) : outcome tm :=
  let utc := set_zone (Some (lit "GMT")) tm_zero in
  let seconds := i32 (Z.rem secondsSinceEpoch kSecondsPerDay) in
  let days := i32 (Z.quot secondsSinceEpoch kSecondsPerDay) in
  '(seconds, days) ← (if bool_decide (seconds < 0)
                      then days' ← checked32 (days - 1); mret (seconds + kSecondsPerDay, days')
                      else mret (seconds, days));
  let utc := fillHMS (u32 seconds) utc in
  k ← Date.kJulianDayOf1970_01_01;
  date ← checked32 (days + k);
  ymd ← Date.yearMonthDay date;
  let utc := set_date (Date.year ymd - 1900) (Date.month ymd - 1) (Date.day ymd) (Date.weekDay date) utc in
  if yday
  then startOfYear ← Date.make (Date.year ymd) 1 1;
       n ← checked32 (date - startOfYear);
       mret (set_yday n utc)
  else mret utc.

Definition fromUtcTime (year month day hour minute seconds : Z) : outcome Z :=
  date ← Date.make year month day;
  h ← checked32 (hour * 3600);
  m ← checked32 (minute * 60);
  hm ← checked32 (h + m);
  secondsInDay ← checked32 (hm + seconds);
  k ← Date.kJulianDayOf1970_01_01;
  days ← checked32 (date - k);
  s ← checked64 (days * kSecondsPerDay);
  checked64 (s + secondsInDay).

Definition fromUtcTime_tm (utc : tm) : outcome Z :=
  year ← checked32 (tm_year utc + 1900);
  month ← checked32 (tm_mon utc + 1);
  fromUtcTime year month (tm_mday utc) (tm_hour utc) (tm_min utc) (tm_sec utc).
End UtcTime.

(** ** Specification: seconds since the Epoch *)
Module CivilTime.
Import Date Calendar DateFacts.

Definition date_of (u : tm) : YearMonthDay := mk_ymd (tm_year u + 1900) (tm_mon u + 1) (tm_mday u).

(** A broken-down time that names a second of the calendar. *)
Definition valid_tm (u : tm) : Prop :=
  is_date (date_of u) /\ in_range (date_of u) /\
  0 <= tm_hour u < 24 /\ 0 <= tm_min u < 60 /\ 0 <= tm_sec u < 60.

Definition civil (u : tm) : Z :=
  (jdn (date_of u) - 2440588) * 86400 + tm_hour u * 3600 + tm_min u * 60 + tm_sec u.

Definition epoch_day (t : Z) : Z := t / 86400 + 2440588.

(** Days 0 to 365,000,000 of the Julian count: 4714 BC to AD 994608. *)
Definition representable (t : Z) : Prop := 0 <= epoch_day t <= 365000000.
Global Instance representable_dec t : Decision (representable t).
Proof. unfold representable. apply _. Defined.

(** The first day of the year of [x], counted from zero. *)
Definition day_of_year (x : YearMonthDay) : Z := jdn x - jdn (mk_ymd (year x) 1 1).
End CivilTime.

(** What the source relies on of [gmtime_r(3)] and [timegm(3)]: the first
    yields the calendar second of [t], the second numbers a calendar second
    and reads only its date and time of day. *)
Class CTime := {
  gmtime_r : Z -> tm;
  timegm : tm -> Z;
  gmtime_r_valid : forall t, CivilTime.representable t -> CivilTime.valid_tm (gmtime_r t);
  gmtime_r_civil : forall t, CivilTime.representable t -> CivilTime.civil (gmtime_r t) = t;
  timegm_civil : forall u, CivilTime.valid_tm u -> timegm u = CivilTime.civil u }.

Module UtcTimeFacts.
Import Date Calendar DateFacts UtcTime CivilTime.

(** Every day from the first of year -4799 on has a date. *)
Definition first_day : YearMonthDay := mk_ymd (-4799) 1 1.

Lemma year_tomorrow x : is_date x -> year x <= year (tomorrow x).
Proof. intros _. unfold tomorrow. destruct (_ <? _); [done|]. destruct (_ <? _); simpl; lia. Qed.

Lemma date_of_day n : jdn first_day <= n -> exists x, is_date x /\ -4799 <= year x /\ jdn x = n.
Proof.
  intros Hn. replace n with (jdn first_day + (n - jdn first_day)) by lia.
  generalize (n - jdn first_day) (proj2 (Z.le_0_sub (jdn first_day) n) Hn). clear n Hn.
  apply natlike_ind; [exists first_day; split_and!; by vm_compute|].
  intros k Hk (x & Hx & Hy & Hj). destruct (jdn_tomorrow x Hx) as [Hj' Hx'].
  exists (tomorrow x). pose proof (year_tomorrow x Hx). split_and!; [done|lia|lia].
Qed.

Lemma first_day_jdn : jdn first_day = -31738.
Proof. reflexivity. Qed.

Lemma year_bound x : is_date x -> -4799 <= year x -> jdn x <= 365000000 -> in_range x.
Proof.
  intros Hx Hy Hj. split; [done|]. unfold jdn, yday, myear, mmonth in Hj. destruct Hx as [Hm Hd].
  destruct (Z.leb_spec (month x) 2); Z.to_euclidean_division_equations; lia.
Qed.

Lemma day_exists n : 0 <= n <= 365000000 -> exists x, is_date x /\ in_range x /\ jdn x = n.
Proof.
  intros Hn. destruct (date_of_day n) as (x & Hx & Hy & <-); [rewrite first_day_jdn; lia|].
  exists x. split_and!; [done| |done]. apply year_bound; [done|done|lia].
Qed.

Lemma epoch_ok : kJulianDayOf1970_01_01 ⇓ 2440588.
Proof. reflexivity. Qed.

(** The division of the source, towards zero and corrected, is the floor. *)
Lemma split_day t : representable t ->
  Z.quot t kSecondsPerDay = (if bool_decide (Z.rem t kSecondsPerDay < 0) then t / 86400 + 1 else t / 86400) /\
  Z.rem t kSecondsPerDay = (if bool_decide (Z.rem t kSecondsPerDay < 0) then t mod 86400 - 86400 else t mod 86400).
Proof.
  intros _. unfold kSecondsPerDay. change (24 * 60 * 60) with 86400.
  case_bool_decide; Z.to_euclidean_division_equations; lia.
Qed.

Lemma day_of_year_range x : is_date x -> 0 <= day_of_year x < 365 + if leap (year x) then 1 else 0.
Proof.
  destruct x as [y m d]. unfold is_date, day_of_year, jdn, yday, myear, mmonth, days_in. simpl. intros [Hm Hd].
  pose proof (leap_correction (y + 4800)) as Hl. rewrite leap_4800 in Hl.
  assert (m = 1 \/ m = 2 \/ m = 3 \/ m = 4 \/ m = 5 \/ m = 6 \/ m = 7 \/ m = 8 \/ m = 9 \/ m = 10 \/ m = 11 \/ m = 12)
    as Hcase by lia.
  repeat (destruct Hcase as [->|Hcase]); try subst m; simpl in *; destruct (leap y); rewrite ?Z.sub_0_r;
    change ((153 * (1 + 9) + 2) / 5) with 306 in *; Z.to_euclidean_division_equations; lia.
Qed.

Lemma year_length y : jdn (mk_ymd (y + 1) 1 1) = jdn (mk_ymd y 1 1) + 365 + if leap y then 1 else 0.
Proof.
  pose proof (leap_correction (y + 4800)) as Hl. rewrite leap_4800 in Hl.
  unfold jdn, yday, myear, mmonth. simpl. replace (y + 1 + 4800 - 1) with (y + 4800) by lia. lia.
Qed.

Lemma years_grow y k : 0 <= k -> jdn (mk_ymd y 1 1) + 365 * k <= jdn (mk_ymd (y + k) 1 1).
Proof.
  revert k. apply natlike_ind; [rewrite Z.mul_0_r, !Z.add_0_r; lia|]. intros k Hk IH.
  replace (y + Z.succ k) with (y + k + 1) by lia. rewrite year_length. destruct (leap (y + k)); lia.
Qed.

(** A day belongs to the year whose first day it does not precede. *)
Lemma year_between x y1 y2 : is_date x -> jdn (mk_ymd y1 1 1) <= jdn x < jdn (mk_ymd y2 1 1) -> y1 <= year x < y2.
Proof.
  intros Hx Hj. pose proof (day_of_year_range x Hx) as Hd. unfold day_of_year in Hd. split.
  - apply Z.nlt_ge. intros Hlt. pose proof (years_grow (year x + 1) (y1 - (year x + 1))) as Hg.
    replace (year x + 1 + _) with y1 in Hg by lia. rewrite year_length in Hg. lia.
  - apply Z.nle_gt. intros Hle. pose proof (years_grow y2 (year x - y2)) as Hg.
    replace (y2 + (year x - y2)) with (year x) in Hg by lia. lia.
Qed.

Lemma new_year x : is_date x -> in_range x -> make (year x) 1 1 ⇓ (jdn (mk_ymd (year x) 1 1)).
Proof.
  intros Hx Hr. apply (jdn_ok (mk_ymd (year x) 1 1)); [|done]. unfold is_date. cbn [month day year].
  pose proof (days_in_pos (year x) 1). lia.
Qed.

(** The whole of [toUtcTime]: the date is that of the day, the clock that of
    the second in the day. *)
Lemma toUtcTime_ok t b x : representable t -> is_date x -> in_range x -> jdn x = epoch_day t ->
  toUtcTime t b ⇓ (mk_tm (t mod 60) (t / 60 mod 60) (t / 3600 mod 24) (day x) (month x - 1) (year x - 1900)
    ((t / 86400 + 4) mod 7) (if b then day_of_year x else 0) 0 0 (Some (lit "GMT"))).
Proof.
  intros Ht Hx Hr Hj. pose proof (split_day t Ht) as [Hq Hm]. unfold representable, epoch_day in *.
  assert (Hsd : 0 <= t mod 86400 < 86400) by (apply Z.mod_pos_bound; lia).
  assert (Hday : int32_range (t / 86400) /\ int32_range (t / 86400 + 1)) by (unfold int32_range, two_31; lia).
  unfold toUtcTime.
  assert (Hsplit : (if bool_decide (i32 (Z.rem t kSecondsPerDay) < 0)
     then days' ← checked32 (i32 (Z.quot t kSecondsPerDay) - 1); mret (i32 (Z.rem t kSecondsPerDay) + kSecondsPerDay, days')
     else mret (i32 (Z.rem t kSecondsPerDay), i32 (Z.quot t kSecondsPerDay)))
     ⇓ (t mod 86400, t / 86400)).
  { revert Hq Hm. case_bool_decide; intros -> ->; rewrite !i32_small by (unfold int32_range, two_31; lia).
    - rewrite bool_decide_true by lia. rewrite checked32_ok by (unfold int32_range, two_31; lia). bind_step.
      do 2 f_equal; unfold kSecondsPerDay; lia.
    - by rewrite bool_decide_false by lia. }
  run_with Hsplit. cbv beta iota. run_with epoch_ok. run_int. rewrite <-Hj. run_with (ymd_ok x Hx Hr).
  assert (Hu : u32 (t mod 86400) = t mod 86400) by (unfold u32, two_32; rewrite Z.mod_small; lia). rewrite Hu.
  assert (Hw : weekDay (jdn x) = (t / 86400 + 4) mod 7).
  { rewrite Hj. unfold weekDay, kDaysPerWeek. rewrite Z.rem_mod_nonneg by lia. Z.to_euclidean_division_equations; lia. }
  assert (Hc : t mod 86400 mod 60 = t mod 60 /\ t mod 86400 / 60 mod 60 = t / 60 mod 60 /\ t mod 86400 / 60 / 60 = t / 3600 mod 24)
    by (split_and!; Z.to_euclidean_division_equations; lia).
  destruct Hc as (Hc1 & Hc2 & Hc3).
  destruct b.
  - run_with (new_year x Hx Hr). pose proof (day_of_year_range x Hx) as Hy. unfold day_of_year in Hy.
    assert (Hy' : (if leap (year x) then 1 else 0) <= 1) by (destruct (leap _); lia). run_int.
    unfold set_yday, set_date, set_zone, fillHMS. simpl. rewrite Hw, Hc1, Hc2, Hc3. done.
  - unfold set_date, set_zone, fillHMS. simpl. rewrite Hw, Hc1, Hc2, Hc3. done.
Qed.

Lemma fromUtcTime_ok u : valid_tm u -> fromUtcTime_tm u ⇓ (civil u).
Proof.
  intros (Hx & Hr & Hh & Hm & Hs).
  assert (Hyr : -4799 <= tm_year u + 1900 <= 1000000) by apply Hr.
  assert (Hmo : 1 <= tm_mon u + 1 <= 12) by apply Hx.
  destruct (bounds (date_of u) Hx Hr) as (Hy & _ & Hd).
  assert (Hj : -32044 <= jdn (date_of u) <= 370000000).
  { unfold jdn. clear -Hy Hd. Z.to_euclidean_division_equations; lia. }
  unfold fromUtcTime_tm. run_int. unfold fromUtcTime, make, kSecondsPerDay.
  run_with (jdn_ok (date_of u) Hx Hr). run_int. run_with epoch_ok. run_int.
  rewrite checked64_ok by int_range. f_equal. unfold civil. lia.
Qed.

(** A calendar second splits into its day and its second of the day. *)
Lemma civil_parts u : valid_tm u ->
  epoch_day (civil u) = jdn (date_of u) /\ civil u mod 60 = tm_sec u /\
  civil u / 60 mod 60 = tm_min u /\ civil u / 3600 mod 24 = tm_hour u.
Proof.
  intros (_ & _ & Hh & Hm & Hs). unfold epoch_day, civil.
  split_and!; Z.to_euclidean_division_equations; lia.
Qed.

Lemma jdn_inj x y : is_date x -> in_range x -> is_date y -> in_range y -> jdn x = jdn y -> x = y.
Proof. intros Hx Hrx Hy Hry He. pose proof (ymd_ok x Hx Hrx) as H. rewrite He, (ymd_ok y Hy Hry) in H. congruence. Qed.

(** [toUtcTime] in terms of the specification. *)
Lemma toUtcTime_spec t b : representable t -> exists u, toUtcTime t b ⇓ u /\ valid_tm u /\ civil u = t /\
  tm_wday u = (t / 86400 + 4) mod 7 /\ tm_yday u = (if b then day_of_year (date_of u) else 0) /\
  tm_isdst u = 0 /\ tm_gmtoff u = 0.
Proof.
  intros Ht. destruct (day_exists (epoch_day t) Ht) as (x & Hx & Hr & Hj).
  pose proof (toUtcTime_ok t b x Ht Hx Hr Hj) as Hu. eexists. split; [exact Hu|].
  unfold valid_tm, civil, date_of. simpl.
  assert (Hdate : mk_ymd (year x - 1900 + 1900) (month x - 1 + 1) (day x) = x) by (destruct x; simpl; f_equal; lia).
  rewrite Hdate. split_and!; try done; try (apply Z.mod_pos_bound; lia).
  rewrite Hj. unfold epoch_day. Z.to_euclidean_division_equations; lia.
Qed.
End UtcTimeFacts.

(** The library's own conversions meet the contract of the C library's. *)
Module OwnTime.
Import UtcTime CivilTime UtcTimeFacts.
Definition own_gmtime_r (t : Z) : tm := match toUtcTime t true with Done u => u | Fault _ => tm_zero end.
Definition own_timegm (u : tm) : Z := match fromUtcTime_tm u with Done t => t | Fault _ => -1 end.

Lemma own_gmtime_r_spec t : representable t -> valid_tm (own_gmtime_r t) /\ civil (own_gmtime_r t) = t.
Proof. intros Ht. unfold own_gmtime_r. destruct (toUtcTime_spec t true Ht) as (u & -> & Hv & Hc & _). done. Qed.

#[export] Instance own_time : CTime.
Proof.
  refine {| gmtime_r := own_gmtime_r; timegm := own_timegm |}.
  - apply own_gmtime_r_spec.
  - apply own_gmtime_r_spec.
  - intros u Hu. unfold own_timegm. by rewrite fromUtcTime_ok.
Defined.
End OwnTime.

(** ** Properties *)
Module UtcTimeTheorems.
Import Date Calendar UtcTime CivilTime UtcTimeFacts.

(** UTC conversion is exact: for every second from 4714 BC to AD 994608
    [toUtcTime] completes, names a second of the calendar, its day of the
    week and (when asked) of the year, and [fromUtcTime] gives the second
    back; any other broken-down time that [fromUtcTime] maps to that second
    has the same date and clock. *)
Theorem utc_round_trip t yday : representable t -> exists u,
  toUtcTime t yday ⇓ u /\ valid_tm u /\ fromUtcTime_tm u ⇓ t /\
  tm_wday u = (t / 86400 + 4) mod 7 /\
  (yday = true -> 0 <= tm_yday u < 365 + if leap (year (date_of u)) then 1 else 0) /\
  forall u', valid_tm u' -> fromUtcTime_tm u' ⇓ t ->
    date_of u' = date_of u /\ tm_hour u' = tm_hour u /\ tm_min u' = tm_min u /\ tm_sec u' = tm_sec u.
Proof.
  intros Ht. destruct (toUtcTime_spec t yday Ht) as (u & Hu & Hv & Hc & Hw & Hy & _). exists u.
  split_and!; [done|done|by rewrite fromUtcTime_ok, Hc|done| |].
  - intros ->. rewrite Hy. apply day_of_year_range, Hv.
  - intros u' Hv' Hu'. rewrite fromUtcTime_ok in Hu' by done. injection Hu' as Hc'.
    destruct (civil_parts u Hv) as (Hd & Hs & Hm & Hh), (civil_parts u' Hv') as (Hd' & Hs' & Hm' & Hh').
    rewrite Hc in *. rewrite Hc' in *. split_and!; [|congruence..].
    destruct Hv as (? & ? & _), Hv' as (? & ? & _). apply jdn_inj; congruence.
Qed.

Lemma utc_round_trip_witness : representable (-1) /\ exists u,
  toUtcTime (-1) true ⇓ u /\ valid_tm u /\ fromUtcTime_tm u ⇓ (-1) /\
  tm_wday u = 3 /\
  (true = true -> 0 <= tm_yday u < 365 + if leap (year (date_of u)) then 1 else 0) /\
  forall u', valid_tm u' -> fromUtcTime_tm u' ⇓ (-1) ->
    date_of u' = date_of u /\ tm_hour u' = tm_hour u /\ tm_min u' = tm_min u /\ tm_sec u' = tm_sec u.
Proof. split; [by vm_compute|]. apply (utc_round_trip (-1) true). by vm_compute. Defined.

(** The last second before the Epoch. *)
Example toUtcTime_before_epoch :
  toUtcTime (-1) true ⇓ mk_tm 59 59 23 31 11 69 3 364 0 0 (Some (lit "GMT")).
Proof. vm_compute. reflexivity. Qed.
End UtcTimeTheorems.
