(* ===== verification/Formats.v ===== *)
(** * Formats: integers and times as text

    The [printf] directives the source uses for integers, and the functions
    that are one call of [snprintf]: [Timestamp::toString] and
    [toFormattedString] ([src/muduo/base/Timestamp.cc]), [Date::toIsoString]
    ([src/muduo/base/Date.cc]) and [Fmt] ([src/muduo/base/LogStream.cc]). *)
From S2P Require Import Prelude Endian Timestamps LogStreams Dates UtcTimes.

Local Open Scope Z_scope.
Local Open Scope muduo_scope.

(** ** [snprintf] *)
Module Printf.
(** Digits of a non-negative integer; twenty are enough for 64 bits. *)
Fixpoint dec_loop (fuel : nat) (n : Z) (acc : bytes) : bytes :=
  let acc := char_of_Z (48 + n mod 10) :: acc in
  match fuel with
  | O => acc
  | S fuel => if n <? 10 then acc else dec_loop fuel (n / 10) acc
  end.
Definition dec (n : Z) : bytes := dec_loop 19 n [].

(** A conversion specification: literal text, [%s], or [%d] and its kin with
    a width, padded with zeros after the sign or with spaces before it. *)
Inductive spec : Type :=
  | Text (s : bytes)
  | Int (zero : bool) (width : nat) (v : Z).

Definition sign (v : Z) : bytes := if v <? 0 then lit "-" else [].
Definition show (p : spec) : bytes :=
  match p with
  | Text s => s
  | Int zero width v =>
      let body := dec (Z.abs v) in
      let pad := (width - length (sign v ++ body))%nat in
      if zero then sign v ++ replicate pad "0"%char ++ body
      else replicate pad " "%char ++ sign v ++ body
  end.
Definition format (l : list spec) : bytes := concat (map show l).

(** The string left in a buffer of [size] bytes, and the returned length. *)
Definition snprintf (size : nat) (l : list spec) : bytes * Z := (take (size - 1) (format l), len (format l)).

Definition d (v : Z) : spec := Int false 0 v.
Definition d0 (width : nat) (v : Z) : spec := Int true width v.
Definition dw (width : nat) (v : Z) : spec := Int false width v.
Definition chars (s : string) : spec := Text (lit s).
End Printf.

(** ** Times as text *)
Module TimestampText.
Import Printf.
Section text.
Context `{CTime}.

Definition toString (x : Timestamp.t) : bytes :=
  let seconds := Z.quot x Timestamp.kMicroSecondsPerSecond in
  let microseconds := Z.rem x Timestamp.kMicroSecondsPerSecond in
  (snprintf (32 - 1) [d seconds; chars "."; d0 6 microseconds]).1.

(** The format shared with the logger: ["%4d%02d%02d %02d:%02d:%02d"]. *)
Definition date_time (u : tm) : list spec :=
  [dw 4 (tm_year u + 1900); d0 2 (tm_mon u + 1); d0 2 (tm_mday u); chars " ";
   d0 2 (tm_hour u); chars ":"; d0 2 (tm_min u); chars ":"; d0 2 (tm_sec u)].

Definition toFormattedString (x : Timestamp.t) (showMicroseconds : bool) : bytes :=
  let seconds := Z.quot x Timestamp.kMicroSecondsPerSecond in
  let tm_time := gmtime_r seconds in
  if showMicroseconds then
    let microseconds := i32 (Z.rem x Timestamp.kMicroSecondsPerSecond) in
    (snprintf 64 (date_time tm_time ++ [chars "."; d0 6 microseconds])).1
  else (snprintf 64 (date_time tm_time)).1.
End text.
End TimestampText.

Module DateText.
Import Printf.
Definition toIsoString (x : Date.t) : outcome bytes :=
  ymd ← Date.yearMonthDay x;
  mret (snprintf 32 [dw 4 (Date.year ymd); chars "-"; d0 2 (Date.month ymd); chars "-"; d0 2 (Date.day ymd)]).1.
End DateText.

Module Fmt.
Import Printf.
Record t : Type := mk { _buf : bytes; _length : Z }.
Definition make (fmt : list spec) : outcome t :=
  let '(buf, n) := snprintf 32 fmt in
  assert_ (bool_decide (n < 32));;
  mret (mk buf n).
Definition data (f : t) : bytes := _buf f.
Definition length (f : t) : Z := _length f.
End Fmt.

(** ** Facts *)
Module FormatFacts.
Import Printf DecimalSpec.

(** [w] digits of [n], most significant first. *)
Fixpoint fixed (w : nat) (n : Z) : bytes :=
  match w with
  | O => []
  | S w => fixed w (n / 10) ++ [char_of_Z (48 + n mod 10)]
  end.

Lemma length_fixed w n : length (fixed w n) = w.
Proof. revert n. induction w as [|w IH]; intros n; [done|]. simpl. rewrite length_app, IH. simpl. lia. Qed.

Lemma fixed_zero w : fixed w 0 = replicate w "0"%char.
Proof. induction w as [|w IH]; [done|]. cbn [fixed]. change (0 / 10) with 0. rewrite IH. by rewrite <-replicate_cons_app. Qed.

(** Leading zeros. *)
Lemma fixed_pad w k n : 0 <= n < 10 ^ Z.of_nat k -> (k <= w)%nat ->
  fixed w n = replicate (w - k) "0"%char ++ fixed k n.
Proof.
  revert w n. induction k as [|k IH]; intros w n Hn Hk.
  - assert (n = 0) as -> by (change (10 ^ Z.of_nat 0) with 1 in Hn; lia).
    rewrite fixed_zero, Nat.sub_0_r. simpl. by rewrite app_nil_r.
  - destruct w as [|w]; [lia|]. simpl. rewrite app_assoc, <-IH; [done| |lia].
    rewrite Nat2Z.inj_succ, Z.pow_succ_r in Hn by lia.
    split; [apply Z.div_pos; lia|]. apply Z.div_lt_upper_bound; lia.
Qed.

(** The digits [dec] writes: as many as the number needs. *)
Lemma dec_loop_fixed fuel n acc : 0 <= n < 10 ^ (Z.of_nat fuel + 1) ->
  exists k, (1 <= k <= fuel + 1)%nat /\ n < 10 ^ Z.of_nat k /\ (k = 1%nat \/ 10 ^ (Z.of_nat k - 1) <= n) /\
    dec_loop fuel n acc = fixed k n ++ acc.
Proof.
  revert n acc. induction fuel as [|fuel IH]; intros n acc Hn.
  - exists 1%nat. simpl. change (10 ^ (Z.of_nat 0 + 1)) with 10 in Hn. change (10 ^ Z.of_nat 1) with 10.
    split_and!; [lia..|by left|done].
  - cbn [dec_loop]. destruct (Z.ltb_spec n 10).
    + exists 1%nat. change (10 ^ Z.of_nat 1) with 10. split_and!; [lia..|by left|done].
    + destruct (IH (n / 10) (char_of_Z (48 + n mod 10) :: acc)) as (k & Hk & Hlt & Hge & He).
      { rewrite Nat2Z.inj_succ, Z.add_succ_l, Z.pow_succ_r in Hn by lia.
        split; [apply Z.div_pos; lia|]. apply Z.div_lt_upper_bound; lia. }
      exists (S k). rewrite Nat2Z.inj_succ, Z.pow_succ_r by lia. split_and!; [lia..| | |].
      * pose proof (Z.div_mod n 10). pose proof (Z.mod_pos_bound n 10). lia.
      * right. replace (Z.succ (Z.of_nat k) - 1) with (Z.of_nat k) by lia. destruct Hge as [->|Hge].
        -- change (10 ^ Z.of_nat 1) with 10. lia.
        -- replace (Z.of_nat k) with (Z.succ (Z.of_nat k - 1)) by lia. rewrite Z.pow_succ_r by lia.
           pose proof (Z.div_mod n 10). pose proof (Z.mod_pos_bound n 10). lia.
      * rewrite He. simpl. by rewrite <-app_assoc.
Qed.

Lemma dec_fixed n : 0 <= n < 10 ^ 20 -> exists k, (1 <= k <= 20)%nat /\ n < 10 ^ Z.of_nat k /\
  (k = 1%nat \/ 10 ^ (Z.of_nat k - 1) <= n) /\ dec n = fixed k n.
Proof.
  intros Hn. destruct (dec_loop_fixed 19 n [] Hn) as (k & ?). exists k. by rewrite app_nil_r in *.
Qed.

(** [%0wd] of a number that fits its width has exactly [w] digits. *)
Lemma show_zero w n : (1 <= w <= 20)%nat -> 0 <= n < 10 ^ Z.of_nat w -> show (d0 w n) = fixed w n.
Proof.
  intros Hw Hn. assert (H20 : n < 10 ^ 20) by (pose proof (Z.pow_le_mono_r 10 (Z.of_nat w) 20); lia).
  destruct (dec_fixed n) as (k & Hk & Hlt & Hge & He); [lia|].
  assert (Hkw : (k <= w)%nat).
  { destruct Hge as [->|Hge]; [lia|]. assert (Hp : 10 ^ (Z.of_nat k - 1) < 10 ^ Z.of_nat w) by lia.
    apply Z.pow_lt_mono_r_iff in Hp; lia. }
  unfold show, d0, sign. rewrite Z.abs_eq by lia. destruct (Z.ltb_spec n 0); [lia|]. simpl.
  rewrite He, length_fixed. symmetry. by apply fixed_pad.
Qed.

(** A number that needs exactly [w] digits. *)
Lemma dec_exact w n : (1 <= w <= 20)%nat -> 10 ^ (Z.of_nat w - 1) <= n < 10 ^ Z.of_nat w -> 0 <= n /\ dec n = fixed w n.
Proof.
  intros Hw Hn. assert (Hn0 : 0 <= n) by (pose proof (Z.pow_nonneg 10 (Z.of_nat w - 1)); lia). split; [done|].
  assert (H20 : n < 10 ^ 20) by (pose proof (Z.pow_le_mono_r 10 (Z.of_nat w) 20); lia).
  destruct (dec_fixed n) as (k & Hk & Hlt & Hge & He); [lia|]. rewrite He. f_equal.
  assert (Hp : 10 ^ (Z.of_nat w - 1) < 10 ^ Z.of_nat k) by lia. apply Z.pow_lt_mono_r_iff in Hp; [|lia..].
  destruct Hge as [->|Hge]; [lia|].
  assert (Hp' : 10 ^ (Z.of_nat k - 1) < 10 ^ Z.of_nat w) by lia. apply Z.pow_lt_mono_r_iff in Hp'; lia.
Qed.

(** [%wd], or [%vd] for a smaller [v], of a number that needs exactly [w] digits. *)
Lemma show_fitting v w n : (v <= w)%nat -> (1 <= w <= 20)%nat -> 10 ^ (Z.of_nat w - 1) <= n < 10 ^ Z.of_nat w ->
  show (dw v n) = fixed w n.
Proof.
  intros Hv Hw Hn. destruct (dec_exact w n Hw Hn) as [Hn0 He].
  unfold show, dw, sign. rewrite Z.abs_eq by lia. destruct (Z.ltb_spec n 0); [lia|]. simpl.
  rewrite He, length_fixed. by replace (v - w)%nat with 0%nat by lia.
Qed.

Lemma show_wide w n : (1 <= w <= 20)%nat -> 10 ^ (Z.of_nat w - 1) <= n < 10 ^ Z.of_nat w -> show (dw w n) = fixed w n.
Proof. by apply show_fitting. Qed.
End FormatFacts.

(** ** Reading a formatted time back *)
Module TimeTextSpec.
Import DecimalSpec.
Definition field (s : bytes) (i w : nat) : option Z := digits_value 0 (take w (drop i s)).

(** The fields of ["YYYYMMDD hh:mm:ss.uuuuuu"], through [fromUtcTime]. *)
Definition read_back (s : bytes) : option Z :=
  y ← field s 0 4; mo ← field s 4 2; d ← field s 6 2;
  h ← field s 9 2; mi ← field s 12 2; se ← field s 15 2; us ← field s 18 6;
  match UtcTime.fromUtcTime y mo d h mi se with
  | Done t => Some (t * 1000000 + us)
  | Fault _ => None
  end.

(** Microseconds of the years 1970 to 9999. *)
Definition printable (x : Z) : Prop := 0 <= x < 253402300800 * 1000000.
End TimeTextSpec.

Module TimeTextFacts.
Import Date Calendar DateFacts Printf DecimalSpec FormatFacts TimeTextSpec CivilTime UtcTimeFacts TimestampText.

Lemma digits_value_fixed w : forall n acc, 0 <= n < 10 ^ Z.of_nat w ->
  digits_value acc (fixed w n) = Some (acc * 10 ^ Z.of_nat w + n).
Proof.
  induction w as [|w IH]; intros n acc Hn.
  - change (10 ^ Z.of_nat 0) with 1 in *. simpl. f_equal. lia.
  - rewrite Nat2Z.inj_succ, Z.pow_succ_r in * by lia.
    assert (Hq : 0 <= n / 10 < 10 ^ Z.of_nat w) by (split; [apply Z.div_pos; lia|apply Z.div_lt_upper_bound; lia]).
    cbn [fixed]. rewrite LogStreamFacts.digits_value_app, IH by done. simpl.
    assert (Hd : digit_value (char_of_Z (48 + n mod 10)) = Some (n mod 10)).
    { pose proof (Z.mod_pos_bound n 10 ltac:(lia)) as Hb. unfold digit_value.
      change (Z.of_N (N_of_ascii (char_of_Z (48 + n mod 10)))) with (Z_of_char (char_of_Z (48 + n mod 10))).
      rewrite Z_of_char_of_Z, (Z.mod_small (48 + _)) by lia. rewrite bool_decide_true by lia. f_equal. lia. }
    rewrite Hd. simpl. f_equal. pose proof (Z.div_mod n 10). lia.
Qed.

(** The fields of a calendar second with a four-digit year. *)
Definition text (u : tm) : bytes :=
  fixed 4 (tm_year u + 1900) ++ fixed 2 (tm_mon u + 1) ++ fixed 2 (tm_mday u) ++ lit " " ++
  fixed 2 (tm_hour u) ++ lit ":" ++ fixed 2 (tm_min u) ++ lit ":" ++ fixed 2 (tm_sec u).

Definition four_digits (u : tm) : Prop := 1000 <= tm_year u + 1900 <= 9999.

Lemma mday_bound u : valid_tm u -> 1 <= tm_mday u <= 31.
Proof.
  intros ([_ [H1 H2]] & _). cbn [date_of day year month] in H1, H2. split; [done|]. etransitivity; [exact H2|].
  unfold days_in. repeat case_match; lia.
Qed.

Lemma format_date_time u : valid_tm u -> four_digits u -> format (date_time u) = text u.
Proof.
  intros Hv Hy. pose proof (mday_bound u Hv) as Hd. destruct Hv as ([Hm _] & _ & Hh & Hmi & Hs).
  cbn [date_of month] in Hm. unfold four_digits in Hy. unfold format, date_time.
  assert (H2 : forall n, 0 <= n < 100 -> show (d0 2 n) = fixed 2 n) by (intros; apply show_zero; [lia|done]).
  cbn [map concat]. rewrite (show_wide 4) by (split; [|]; [lia|]; change (10 ^ Z.of_nat 4) with 10000; change (10 ^ (Z.of_nat 4 - 1)) with 1000; lia).
  rewrite !H2 by lia. rewrite app_nil_r. done.
Qed.

Lemma length_text u : length (text u) = 17%nat.
Proof. unfold text. rewrite !length_app, !length_fixed. done. Qed.

(** Seconds up to the end of the year 9999 have years of four digits. *)
Lemma second_year u : valid_tm u -> 0 <= civil u < 253402300800 -> four_digits u.
Proof.
  intros Hv Hc. destruct (civil_parts u Hv) as (Hd & _). destruct Hv as (Hx & _).
  assert (Hj : jdn (mk_ymd 1970 1 1) <= jdn (date_of u) < jdn (mk_ymd 10000 1 1)).
  { rewrite <-Hd. change (jdn (mk_ymd 1970 1 1)) with 2440588. change (jdn (mk_ymd 10000 1 1)) with 5373485.
    unfold epoch_day. clear -Hc. Z.to_euclidean_division_equations; lia. }
  pose proof (year_between _ _ _ Hx Hj) as Hy. cbn [date_of year] in Hy. unfold four_digits. lia.
Qed.

(** What [printf] sees of a printable time. *)
Lemma printable_tm `{CTime} x : printable x -> let u := gmtime_r (Z.quot x 1000000) in
  valid_tm u /\ four_digits u /\ civil u = Z.quot x 1000000 /\ 0 <= Z.rem x 1000000 < 1000000.
Proof.
  intros Hx. unfold printable in Hx.
  assert (Hs : 0 <= Z.quot x 1000000 < 253402300800 /\ 0 <= Z.rem x 1000000 < 1000000)
    by (clear -Hx; Z.to_euclidean_division_equations; lia).
  assert (Hr : representable (Z.quot x 1000000))
    by (unfold representable, epoch_day; clear -Hs; Z.to_euclidean_division_equations; lia).
  pose proof (gmtime_r_valid _ Hr) as Hv. pose proof (gmtime_r_civil _ Hr) as Hc. cbv zeta.
  split_and!; [done| |done|apply Hs..]. apply second_year; [done|]. rewrite Hc. apply Hs.
Qed.

Lemma formatted_text `{CTime} x : printable x -> let u := gmtime_r (Z.quot x 1000000) in
  toFormattedString x false = text u /\ toFormattedString x true = text u ++ lit "." ++ fixed 6 (Z.rem x 1000000).
Proof.
  intros Hx. destruct (printable_tm x Hx) as (Hv & Hy & _ & Hus). cbv zeta.
  assert (Hf : format (date_time (gmtime_r (Z.quot x 1000000))) = text (gmtime_r (Z.quot x 1000000))) by (by apply format_date_time).
  unfold toFormattedString, snprintf, Timestamp.kMicroSecondsPerSecond. cbn [fst]. split.
  - rewrite Hf. apply take_ge. rewrite length_text. lia.
  - rewrite i32_small by int_range. unfold format in *. rewrite map_app, concat_app, Hf.
    cbn [map concat]. rewrite show_zero by (try lia; change (10 ^ Z.of_nat 6) with 1000000; lia).
    rewrite app_nil_r. apply take_ge. rewrite !length_app, length_text, length_fixed. simpl. lia.
Qed.

(** Reading a field in its place. *)
Lemma field_at pre w n post s i : s = pre ++ fixed w n ++ post -> length pre = i -> 0 <= n < 10 ^ Z.of_nat w ->
  field s i w = Some n.
Proof.
  intros -> <- Hn. unfold field. rewrite drop_app_length, take_app_le by (rewrite length_fixed; lia).
  rewrite take_ge by (rewrite length_fixed; lia). rewrite digits_value_fixed by done. f_equal.
Qed.

Lemma read_back_text u us : valid_tm u -> four_digits u -> 0 <= us < 1000000 ->
  read_back (text u ++ lit "." ++ fixed 6 us) = Some (civil u * 1000000 + us).
Proof.
  intros Hv Hy Hus. pose proof (mday_bound u Hv) as Hd. pose proof (fromUtcTime_ok u Hv) as Hfrom.
  pose proof Hv as ([Hm _] & _ & Hh & Hmi & Hs). cbn [date_of month] in Hm. unfold four_digits in Hy.
  unfold UtcTime.fromUtcTime_tm in Hfrom. rewrite (checked32_ok (tm_year u + 1900)), (checked32_ok (tm_mon u + 1)) in Hfrom by int_range.
  cbn [mbind outcome_bind] in Hfrom.
  set (Y := fixed 4 (tm_year u + 1900)). set (M := fixed 2 (tm_mon u + 1)). set (D := fixed 2 (tm_mday u)).
  set (h := fixed 2 (tm_hour u)). set (mi := fixed 2 (tm_min u)). set (se := fixed 2 (tm_sec u)).
  assert (Ht : text u ++ lit "." ++ fixed 6 us =
    Y ++ M ++ D ++ lit " " ++ h ++ lit ":" ++ mi ++ lit ":" ++ se ++ lit "." ++ fixed 6 us ++ [])
    by (unfold text; rewrite <-!app_assoc, app_nil_r; done).
  assert (HY : length Y = 4%nat) by apply length_fixed.
  assert (Hlen : length M = 2%nat /\ length D = 2%nat /\ length h = 2%nat /\ length mi = 2%nat /\ length se = 2%nat)
    by (split_and!; apply length_fixed).
  destruct Hlen as (HM & HD & Hlh & Hlm & Hls). rewrite Ht. unfold read_back.
  assert (Hb : forall n, 0 <= n < 100 -> 0 <= n < 10 ^ Z.of_nat 2) by done.
  erewrite (field_at [] 4 _ _ _ 0) by (try done; change (10 ^ Z.of_nat 4) with 10000; lia).
  erewrite (field_at Y 2 (tm_mon u + 1) _ _ 4) by (try done; apply Hb; lia).
  erewrite (field_at (Y ++ M) 2 (tm_mday u) _ _ 6) by (try apply Hb; rewrite <-?app_assoc, ?length_app; try done; lia).
  erewrite (field_at (Y ++ M ++ D ++ lit " ") 2 (tm_hour u) _ _ 9)
    by (try apply Hb; rewrite <-?app_assoc, ?length_app, ?HY, ?HM, ?HD; try done; lia).
  erewrite (field_at (Y ++ M ++ D ++ lit " " ++ h ++ lit ":") 2 (tm_min u) _ _ 12)
    by (try apply Hb; rewrite <-?app_assoc, ?length_app, ?HY, ?HM, ?HD, ?Hlh; try done; lia).
  erewrite (field_at (Y ++ M ++ D ++ lit " " ++ h ++ lit ":" ++ mi ++ lit ":") 2 (tm_sec u) _ _ 15)
    by (try apply Hb; rewrite <-?app_assoc, ?length_app, ?HY, ?HM, ?HD, ?Hlh, ?Hlm; try done; lia).
  erewrite (field_at (Y ++ M ++ D ++ lit " " ++ h ++ lit ":" ++ mi ++ lit ":" ++ se ++ lit ".") 6 us _ _ 18)
    by (try (change (10 ^ Z.of_nat 6) with 1000000; lia); rewrite <-?app_assoc, ?length_app, ?HY, ?HM, ?HD, ?Hlh, ?Hlm, ?Hls; done).
  simpl. rewrite Hfrom. done.
Qed.
End TimeTextFacts.

(** ** Properties *)
Module FormatTheorems.
Import TimeTextSpec TimeTextFacts TimestampText UtcTimeFacts CivilTime FormatFacts Printf.

(** Formatted times are faithful: for every microsecond of the years 1970
    to 9999 [toFormattedString] is not cut, has 24 characters (17 without the
    microseconds, which is then its prefix), and its fields, read as decimal
    numbers and given to [TimeZone::fromUtcTime], yield the timestamp. *)
Theorem timestamp_text_round_trip `{CTime} x : printable x ->
  length (toFormattedString x true) = 24%nat /\
  toFormattedString x false = take 17 (toFormattedString x true) /\
  read_back (toFormattedString x true) = Some x.
Proof.
  intros Hx. destruct (formatted_text x Hx) as [-> ->]. destruct (printable_tm x Hx) as (Hv & Hy & Hc & Hus).
  set (u := gmtime_r (Z.quot x 1000000)) in *. split_and!.
  - rewrite !length_app, length_text, length_fixed. done.
  - rewrite take_app_le by (by rewrite length_text). by rewrite take_ge by (by rewrite length_text).
  - rewrite (read_back_text u (Z.rem x 1000000) Hv Hy Hus), Hc. f_equal. pose proof (Z.quot_rem x 1000000). lia.
Qed.

Lemma timestamp_text_round_trip_witness :
  toFormattedString (H := OwnTime.own_time) 951826554123456 true = lit "20000229 12:15:54.123456" /\
  read_back (lit "20000229 12:15:54.123456") = Some 951826554123456.
Proof.
  assert (Ht : toFormattedString (H := OwnTime.own_time) 951826554123456 true = lit "20000229 12:15:54.123456")
    by (vm_compute; reflexivity).
  split; [exact Ht|]. rewrite <-Ht. apply (timestamp_text_round_trip (H := OwnTime.own_time) 951826554123456). unfold printable. lia.
Defined.
End FormatTheorems.
