(* ===== verification/TimeZones.v ===== *)
(** * TimeZones: zone files and local time

    Models [TimeZone] ([src/muduo/base/TimeZone.h], [TimeZone.cc]): reading a
    compiled zone file, the search for the local time type of an instant and
    the conversions between UTC seconds and local time.  The reader is a
    monad over the rest of the file and the [Data] it fills, because what was
    filled before an exception stays.  [std::lower_bound] is the binary search
    of the standard library, by well-founded recursion. *)
From Equations Require Import Equations.
From Stdlib Require Import Sorted.
From S2P Require Import Prelude Endian Dates UtcTimes.

Local Open Scope Z_scope.
Local Open Scope muduo_scope.

(** ** Zone data *)
Record Transition : Type := mk_transition { gmttime : Z; localtime : Z; localtimeIdx : Z }.
Record Localtime : Type := mk_localtime { gmtOffset : Z; isDst : bool; arrbIdx : Z }.
Global Instance Transition_eq_dec : EqDecision Transition.
Proof. solve_decision. Defined.
Global Instance Localtime_eq_dec : EqDecision Localtime.
Proof. solve_decision. Defined.

(** [Comp] is its flag [compareGmt]. *)
Module Comp.
Definition key (compareGmt : bool) (x : Transition) : Z := if compareGmt then gmttime x else localtime x.
Definition call (compareGmt : bool) (lhs rhs : Transition) : bool :=
  if compareGmt then bool_decide (gmttime lhs < gmttime rhs) else bool_decide (localtime lhs < localtime rhs).
Definition equal (compareGmt : bool) (lhs rhs : Transition) : bool :=
  if compareGmt then bool_decide (gmttime lhs = gmttime rhs) else bool_decide (localtime lhs = localtime rhs).
End Comp.

(** [TimeZone::Data]. *)
Record Data : Type := mk_data {
  transitions : list Transition;
  localtimes : list Localtime;
  names : list bytes;
  abbreviation : bytes }.
Definition no_data : Data := mk_data [] [] [] [].
Global Instance Data_eq_dec : EqDecision Data.
Proof. solve_decision. Defined.

(** ** Reading a zone file *)

(** [std::logic_error], by its [what()]; [length_error] is one of them. *)
Definition logic_error : Type := string.

(** A reader works on the unread part of the file and the data it fills: it
    returns a value or throws, and leaves both behind either way. *)
Definition state : Type := bytes * Data.
Definition reader (A : Type) : Type := state -> outcome ((logic_error + A) * state).
Global Instance reader_ret : MRet reader := fun A a s => Done (inr a, s).
Global Instance reader_bind : MBind reader := fun A B k m s =>
  '(r, s') ← m s;
  match r with inl e => mret (inl e, s') | inr a => k a s' end.

Definition throw {A} (e : logic_error) : reader A := fun s => Done (inl e, s).
Definition undefined {A} : reader A := fun _ => Fault Undefined.
Definition lift {A} (m : outcome A) : reader A := fun s => a ← m; mret (inr a, s).
Definition get_data : reader Data := fun s => Done (inr s.2, s).
Definition put_data (d : Data) : reader unit := fun s => Done (inr (), (s.1, d)).

(** [for (int i = 0; i < n; ++i) v.push_back(m)] *)
Fixpoint repeat_read {A} (n : nat) (m : reader A) : reader (list A) :=
  match n with
  | O => mret []
  | S n => x ← m; l ← repeat_read n m; mret (x :: l)
  end.

Module File.
(** [fread] of [n] bytes: what the file still has, at most [n]. *)
Definition fread (n : Z) : reader bytes := fun s =>
  Done (inr (take (Z.to_nat n) s.1), (drop (Z.to_nat n) s.1, s.2)).

(** A variable-length array of negative size is undefined. *)
Definition readBytes (n : Z) : reader bytes :=
  if bool_decide (n < 0) then undefined
  else buf ← fread n;
       if bool_decide (len buf = n) then mret buf else throw "no enough data".

Definition readInt32 `{Host} : reader Z :=
  buf ← fread 4;
  if bool_decide (len buf = 4) then mret (i32 (betoh 4 (mem_value buf))) else throw "bad int32_t data".

Definition readUInt8 `{Host} : reader Z :=
  buf ← fread 1;
  if bool_decide (len buf = 1) then mret (mem_value buf) else throw "bad uint8_t data".
End File.

Section reading.
Import File.
Context `{Host}.

(** [vector<int32_t>::reserve(timecnt)]: a negative count is a huge size. *)
Definition reserve (n : Z) : reader unit :=
  if bool_decide (two_63 / 4 <= u64 n) then throw "vector::reserve" else mret ().

Definition readLocaltime : reader unit :=
  gmtoff ← readInt32;
  isdst ← readUInt8;
  abbrind ← readUInt8;
  d ← get_data;
  put_data (mk_data (transitions d) (localtimes d ++ [mk_localtime gmtoff (bool_decide (isdst <> 0)) abbrind])
                    (names d) (abbreviation d)).

(** The loop that fills [data->transitions], over the two vectors read. *)
Fixpoint pushTransitions (trans idx : list Z) : reader unit :=
  match trans, idx with
  | t :: trans, localIdx :: idx =>
      d ← get_data;
      l ← lift (at_ (localtimes d) localIdx);
      let localtime := t + gmtOffset l in
      put_data (mk_data (transitions d ++ [mk_transition t localtime localIdx]) (localtimes d) (names d) (abbreviation d));;
      pushTransitions trans idx
  | _, _ => mret ()
  end.

(** The body of the [try] block. *)
Definition readZone : reader unit :=
  head ← readBytes 4;
  (if bool_decide (head = lit "TZif") then mret () else throw "bad head");;
  version ← readBytes 1;
  readBytes 15;;
  isgmtcnt ← readInt32;
  isstdcnt ← readInt32;
  leapcnt ← readInt32;
  timecnt ← readInt32;
  typecnt ← readInt32;
  charcnt ← readInt32;
  reserve timecnt;;
  trans ← repeat_read (Z.to_nat timecnt) readInt32;
  localtimes_ ← repeat_read (Z.to_nat timecnt) readUInt8;
  repeat_read (Z.to_nat typecnt) readLocaltime;;
  pushTransitions trans localtimes_;;
  abbr ← readBytes charcnt;
  d ← get_data;
  put_data (mk_data (transitions d) (localtimes d) (names d) abbr).

(** [file] is the content of [zonefile], or nothing when it cannot be opened.
    A [logic_error] is caught and printed; the result is always [true]. *)
Definition readTimeZoneFile (file : option bytes) (data : Data) : outcome (bool * Data) :=
  match file with
  | None => mret (true, data)
  | Some content =>
      '(_, (_, data')) ← readZone (content, data);
      mret (true, data')
  end.
End reading.

(** ** Searching the transitions *)

(** [std::lower_bound] on [[first, first + n)]: halve, and go right while the
    middle element is smaller. *)
Equations? lower_bound {A} (smaller : A -> bool) (l : list A) (first n : nat) : outcome nat by wf n lt :=
lower_bound smaller l first O := Done first;
lower_bound smaller l first (S n) with l !! (first + Nat.div2 (S n))%nat := {
  | None => Fault OutOfBounds
  | Some x with smaller x := {
      | true => lower_bound smaller l (first + Nat.div2 (S n) + 1) (S n - Nat.div2 (S n) - 1)
      | false => lower_bound smaller l first (Nat.div2 (S n)) } }.
Proof.
  - clear; generalize (Nat.div2 (S n)); lia.
  - apply Nat.lt_div2. lia.
Defined.

Definition findLocaltime (data : Data) (sentry : Transition) (comp : bool) : outcome Localtime :=
  match transitions data with
  | [] => at_ (localtimes data) 0
  | front :: _ =>
      if Comp.call comp sentry front then at_ (localtimes data) 0
      else
        transI ← lower_bound (fun x => Comp.call comp x sentry) (transitions data) 0 (length (transitions data));
        match transitions data !! transI with
        | Some x =>
            if Comp.equal comp sentry x then at_ (localtimes data) (localtimeIdx x)
            else assert_ (bool_decide (transI <> 0%nat));;
                 y ← at_ (transitions data) (Z.of_nat transI - 1);
                 at_ (localtimes data) (localtimeIdx y)
        | None =>
            back ← at_ (transitions data) (len (transitions data) - 1);
            at_ (localtimes data) (localtimeIdx back)
        end
  end.

(** The NUL-terminated string at index [i]; [s[s.size()]] is the NUL. *)
Fixpoint until_nul (s : bytes) : bytes :=
  match s with
  | [] => []
  | c :: s => if bool_decide (c = "000"%char) then [] else c :: until_nul s
  end.
Definition c_str_at (s : bytes) (i : Z) : outcome bytes :=
  if bool_decide (0 <= i <= len s) then mret (until_nul (drop (Z.to_nat i) s)) else Fault OutOfBounds.

Module TimeZone.
(** [data_]: the shared, never modified zone data; none when invalid. *)
Definition t : Type := option Data.
Definition invalid : t := None.
Definition valid (z : t) : bool := bool_decide (z <> None).

Definition of_file `{Host} (file : option bytes) : outcome t :=
  r ← readTimeZoneFile file no_data;
  mret (match r with (true, data) => Some data | (false, _) => None end).

Definition fixed (eastOfUtc : Z) (name : bytes) : t :=
  Some (mk_data [] [mk_localtime eastOfUtc false 0] [] name).

Definition with_local (l : Localtime) (zone : bytes) (u : tm) : tm :=
  mk_tm (tm_sec u) (tm_min u) (tm_hour u) (tm_mday u) (tm_mon u) (tm_year u) (tm_wday u) (tm_yday u)
        (if isDst l then 1 else 0) (gmtOffset l) (Some zone).

Section local.
Context `{CTime}.

Definition toLocalTime (z : t) (seconds : Z) : outcome tm :=
  match z with
  | None => Fault AssertFailure
  | Some data =>
      local ← findLocaltime data (mk_transition seconds 0 0) true;
      localSeconds ← checked64 (seconds + gmtOffset local);
      zone ← c_str_at (abbreviation data) (arrbIdx local);
      mret (with_local local zone (gmtime_r localSeconds))
  end.

Definition fromLocalTime (z : t) (localTm : tm) : outcome Z :=
  match z with
  | None => Fault AssertFailure
  | Some data =>
      let seconds := timegm localTm in
      local ← findLocaltime data (mk_transition 0 seconds 0) false;
      seconds ← (if bool_decide (tm_isdst localTm <> 0)
                 then u ← checked64 (seconds - gmtOffset local);
                      tryTm ← toLocalTime z u;
                      if bool_decide (tm_isdst tryTm = 0) && bool_decide (tm_hour tryTm = tm_hour localTm)
                         && bool_decide (tm_min tryTm = tm_min localTm)
                      then checked64 (seconds - 3600)
                      else mret seconds
                 else mret seconds);
      checked64 (seconds - gmtOffset local)
  end.
End local.
End TimeZone.

(** ** Specification *)
Module ZoneSpec.

(** The local time type in force at [x]: that of the last transition not
    later than [x], or the first type when there is none. *)
Definition in_force (comp : bool) (data : Data) (x : Z) : option Localtime :=
  match last (filter (fun tr => Comp.key comp tr <= x) (transitions data)) with
  | Some tr => localtimes data !! Z.to_nat (localtimeIdx tr)
  | None => localtimes data !! 0%nat
  end.

(** The search walks sorted transitions that name existing types. *)
Record searchable (comp : bool) (data : Data) : Prop := {
  some_type : localtimes data <> [];
  known_types : Forall (fun tr => 0 <= localtimeIdx tr < len (localtimes data)) (transitions data);
  increasing : StronglySorted (fun x y => Comp.key comp x < Comp.key comp y) (transitions data) }.

Definition sentry (comp : bool) (x : Z) : Transition := if comp then mk_transition x 0 0 else mk_transition 0 x 0.

(** Transitions with the types they switch to. *)
Definition resolve (data : Data) (l : list Transition) : list (Transition * Localtime) :=
  omap (fun tr => pair tr <$> localtimes data !! Z.to_nat (localtimeIdx tr)) l.

(** A zone whose local times can be told apart: each transition records its
    own local time, clocks go back only at the end of daylight saving time
    and then by the one hour the code assumes, and an hour or more passes
    between transitions on either clock. *)
Fixpoint regular_from (prev : Localtime) (l : list (Transition * Localtime)) : bool :=
  match l with
  | [] => true
  | (tr, lt) :: l =>
      (localtime tr =? gmttime tr + gmtOffset lt)
      && ((gmtOffset prev <=? gmtOffset lt) ||
          (isDst prev && negb (isDst lt) && (gmtOffset prev =? gmtOffset lt + 3600)))
      && match l with
         | [] => true
         | (tr', _) :: _ => (gmttime tr + 3600 <=? gmttime tr') && (localtime tr + 3600 <=? localtime tr')
         end
      && regular_from lt l
  end.

Definition regular (data : Data) : Prop :=
  match localtimes data with
  | [] => False
  | first :: _ =>
      Forall (fun tr => 0 <= localtimeIdx tr < len (localtimes data)) (transitions data) /\
      Forall (fun l => 0 <= arrbIdx l <= len (abbreviation data)) (localtimes data) /\
      regular_from first (resolve data (transitions data)) = true
  end.
Global Instance regular_dec data : Decision (regular data).
Proof. unfold regular. destruct (localtimes data); apply _. Defined.

(** The type in force, by a walk along the transitions. *)
Fixpoint walk (c : bool) (prev : Localtime) (l : list (Transition * Localtime)) (x : Z) : Localtime :=
  match l with
  | [] => prev
  | (tr, lt) :: l => if Comp.key c tr <=? x then walk c lt l x else prev
  end.
End ZoneSpec.

(** The compiled zone file, version 1 of the format of tzfile(5). *)
Module TzFile.
Record zone_type : Type := mk_type { ty_off : Z; ty_dst : Z; ty_abbr : Z }.
Record zone : Type := mk_zone {
  z_version : char; z_reserved : bytes;
  z_isgmtcnt : Z; z_isstdcnt : Z; z_leapcnt : Z;
  z_times : list (Z * Z); z_types : list zone_type; z_chars : bytes }.

Definition int32_be (z : Z) : bytes := be_bytes 4 z.
Definition uint8 (z : Z) : bytes := [char_of_Z z].
Definition encode_type (t : zone_type) : bytes := int32_be (ty_off t) ++ uint8 (ty_dst t) ++ uint8 (ty_abbr t).

Definition encode (z : zone) (tail : bytes) : bytes :=
  lit "TZif" ++ [z_version z] ++ z_reserved z ++
  int32_be (z_isgmtcnt z) ++ int32_be (z_isstdcnt z) ++ int32_be (z_leapcnt z) ++
  int32_be (len (z_times z)) ++ int32_be (len (z_types z)) ++ int32_be (len (z_chars z)) ++
  concat (map int32_be (z_times z).*1) ++ concat (map uint8 (z_times z).*2) ++
  concat (map encode_type (z_types z)) ++ z_chars z ++ tail.

Definition byte (x : Z) : Prop := 0 <= x < 256.
Record wf (z : zone) : Prop := {
  wf_reserved : len (z_reserved z) = 15;
  wf_counts : int32_range (z_isgmtcnt z) /\ int32_range (z_isstdcnt z) /\ int32_range (z_leapcnt z);
  wf_lengths : int32_range (len (z_times z)) /\ int32_range (len (z_types z)) /\ int32_range (len (z_chars z));
  wf_times : Forall (fun x => int32_range x.1 /\ byte x.2 /\ x.2 < len (z_types z)) (z_times z);
  wf_types : Forall (fun t => int32_range (ty_off t) /\ byte (ty_dst t) /\ byte (ty_abbr t)) (z_types z) }.

Definition local_of (t : zone_type) : Localtime := mk_localtime (ty_off t) (bool_decide (ty_dst t <> 0)) (ty_abbr t).
Definition offset_of (z : zone) (i : Z) : Z := default 0 (ty_off <$> z_types z !! Z.to_nat i).
Definition data_of (z : zone) : Data :=
  mk_data (map (fun '(t, i) => mk_transition t (t + offset_of z i) i) (z_times z)) (map local_of (z_types z)) [] (z_chars z).
End TzFile.

Module TzFileFacts.
Import File TzFile.
Section facts.
Context `{Host}.

Lemma reader_bind_ok {A B} (m : reader A) (k : A -> reader B) s a s' r :
  m s ⇓ (inr a, s') -> k a s' ⇓ r -> (m ≫= k) s ⇓ r.
Proof. intros Hm Hk. unfold mbind, reader_bind. rewrite Hm. exact Hk. Qed.

Lemma fread_ok (l rest : bytes) d : fread (len l) (l ++ rest, d) ⇓ (inr l, (rest, d)).
Proof.
  unfold fread, len. simpl. rewrite Nat2Z.id, take_app_length, drop_app_length. done.
Qed.

Lemma readBytes_ok (l rest : bytes) d n : len l = n -> readBytes n (l ++ rest, d) ⇓ (inr l, (rest, d)).
Proof.
  intros <-. unfold readBytes. rewrite bool_decide_false by (pose proof (len_nonneg l); lia).
  eapply reader_bind_ok; [apply fread_ok|]. by rewrite bool_decide_true.
Qed.

Lemma readInt32_ok z rest d : int32_range z -> readInt32 (int32_be z ++ rest, d) ⇓ (inr z, (rest, d)).
Proof.
  intros Hz. assert (Hl : length (int32_be z) = 4%nat) by apply length_be_bytes. unfold readInt32.
  assert (Hl' : len (int32_be z) = 4) by (unfold len; by rewrite Hl).
  eapply reader_bind_ok; [rewrite <-Hl' at 1; apply fread_ok|]. rewrite bool_decide_true by done. rewrite betoh_mem_value by done.
  unfold int32_be. rewrite be_value_be_bytes. change (256 ^ Z.of_nat 4) with two_32.
  assert (Hi : i32 (z mod two_32) = z); [|by rewrite Hi].
  unfold i32, int32_range, two_31, two_32 in *. Z.to_euclidean_division_equations; lia.
Qed.

Lemma readUInt8_ok z rest d : byte z -> readUInt8 (uint8 z ++ rest, d) ⇓ (inr z, (rest, d)).
Proof.
  intros Hz. unfold readUInt8. eapply reader_bind_ok; [apply (fread_ok (uint8 z))|].
  rewrite bool_decide_true by done. unfold byte in Hz.
  assert (Hv : mem_value (uint8 z) = z); [|by rewrite Hv].
  unfold mem_value, be_value, uint8. destruct host_order; simpl;
    rewrite Z_of_char_of_Z, Z.mod_small by lia; lia.
Qed.

Lemma repeat_read_ok {A} (m : reader A) (enc : A -> bytes) (P : A -> Prop) :
  (forall x rest d, P x -> m (enc x ++ rest, d) ⇓ (inr x, (rest, d))) ->
  forall l rest d, Forall P l -> repeat_read (length l) m (concat (map enc l) ++ rest, d) ⇓ (inr l, (rest, d)).
Proof.
  intros Hm l. induction l as [|x l IH]; intros rest d Hl; [done|]. inversion Hl; subst. simpl.
  rewrite <-app_assoc. eapply reader_bind_ok; [by apply Hm|]. eapply reader_bind_ok; [by apply IH|]. done.
Qed.

Lemma readLocaltimes_ok l rest d :
  Forall (fun t => int32_range (ty_off t) /\ byte (ty_dst t) /\ byte (ty_abbr t)) l ->
  repeat_read (length l) readLocaltime (concat (map encode_type l) ++ rest, d) ⇓
    (inr (replicate (length l) ()), (rest, mk_data (transitions d) (localtimes d ++ map local_of l) (names d) (abbreviation d))).
Proof.
  revert d. induction l as [|x l IH]; intros d Hl.
  - simpl. rewrite app_nil_r. by destruct d.
  - inversion Hl as [|? ? (H1 & H2 & H3) Hl']; subst. cbn [length repeat_read concat map].
    unfold encode_type at 1. rewrite <-!app_assoc. eapply reader_bind_ok.
    { unfold readLocaltime. eapply reader_bind_ok; [by apply readInt32_ok|].
      eapply reader_bind_ok; [by apply readUInt8_ok|].
      eapply reader_bind_ok; [by apply readUInt8_ok|].
      eapply reader_bind_ok; [done|]. done. }
    eapply reader_bind_ok; [by apply IH|]. simpl. by rewrite <-app_assoc.
Qed.

Lemma pushTransitions_ok types l rest d :
  localtimes d = map local_of types -> Forall (fun x => byte x.2 /\ x.2 < len types) l ->
  pushTransitions l.*1 l.*2 (rest, d) ⇓ (inr (), (rest,
    mk_data (transitions d ++ map (fun '(t, i) => mk_transition t (t + default 0 (ty_off <$> types !! Z.to_nat i)) i) l)
            (localtimes d) (names d) (abbreviation d))).
Proof.
  revert d. induction l as [|[t i] l IH]; intros d Hd Hl.
  - simpl. rewrite app_nil_r. by destruct d.
  - inversion Hl as [|? ? [Hb Hi] Hl']; subst. unfold byte in Hb. simpl in Hb, Hi. simpl.
    destruct (at_ok types i) as [ty Hty]; [unfold len in Hi; lia|]. apply at_Done in Hty as [_ Hty].
    eapply reader_bind_ok; [done|]. eapply reader_bind_ok.
    { unfold lift. eapply bind_ok; [|done]. apply at_Done. simpl. rewrite Hd, list_lookup_fmap, Hty. split; [lia|done]. }
    eapply reader_bind_ok; [done|]. rewrite IH by done. simpl. rewrite Hty, <-app_assoc. done.
Qed.

Lemma reserve_ok n s : 0 <= n < two_31 -> reserve n s ⇓ (inr (), s).
Proof.
  unfold two_31. intros Hn. unfold reserve. rewrite u64_small by (unfold two_64; lia).
  rewrite bool_decide_false; [done|]. change (two_63 / 4) with 2305843009213693952. lia.
Qed.

Lemma readZone_ok z tail : wf z -> readZone (encode z tail, no_data) ⇓ (inr (), (tail, data_of z)).
Proof.
  intros [Hres (Hc1 & Hc2 & Hc3) (Hl1 & Hl2 & Hl3) Htimes Htypes]. unfold readZone, encode.
  pose proof (len_nonneg (z_times z)). unfold int32_range in Hl1.
  eapply reader_bind_ok; [by apply readBytes_ok|]. rewrite bool_decide_true by done. eapply reader_bind_ok; [done|].
  do 2 (eapply reader_bind_ok; [by apply readBytes_ok|]).
  do 6 (eapply reader_bind_ok; [by apply readInt32_ok|]).
  eapply reader_bind_ok; [apply reserve_ok; lia|].
  assert (Hn : forall A (l : list A), Z.to_nat (len l) = length l) by (intros; unfold len; lia). rewrite !Hn.
  rewrite <-(length_fmap fst (z_times z)) at 1.
  eapply reader_bind_ok; [apply (repeat_read_ok _ _ int32_range); [intros; by apply readInt32_ok|]|].
  { apply Forall_fmap. eapply Forall_impl; [exact Htimes|]. simpl. tauto. }
  rewrite <-(length_fmap snd (z_times z)).
  eapply reader_bind_ok; [apply (repeat_read_ok _ _ byte); [intros; by apply readUInt8_ok|]|].
  { apply Forall_fmap. eapply Forall_impl; [exact Htimes|]. simpl. tauto. }
  eapply reader_bind_ok; [by apply readLocaltimes_ok|].
  eapply reader_bind_ok; [apply (pushTransitions_ok (z_types z)); [done|]|].
  { eapply Forall_impl; [exact Htimes|]. simpl. tauto. }
  eapply reader_bind_ok; [by apply readBytes_ok|]. done.
Qed.
End facts.
End TzFileFacts.

Module ZoneFacts.
Import ZoneSpec CivilTime.

Lemma lower_bound_ok {A} (smaller : A -> bool) (l : list A) (k : nat) :
  (forall i x, l !! i = Some x -> (smaller x = true <-> (i < k)%nat)) ->
  forall first n, (first <= k <= first + n)%nat -> (first + n <= length l)%nat -> lower_bound smaller l first n ⇓ k.
Proof.
  intros Hk first n. funelim (lower_bound smaller l first n); intros Hb Hl; [f_equal; lia|..];
    pose proof (Nat.lt_div2 (S n)) as Hh; set (h := Nat.div2 (S n)) in *; clearbody h.
  - exfalso. apply lookup_ge_None in Heq. lia.
  - pose proof (Hk _ _ Heq0) as Hx. rewrite Heq in Hx. apply H; [done|naive_solver lia|lia].
  - pose proof (Hk _ _ Heq0) as Hx. rewrite Heq in Hx. apply H; [done| |lia].
    destruct (decide (first + h < k)%nat); [naive_solver|lia].
Qed.

Lemma call_key c x y : Comp.call c x y = bool_decide (Comp.key c x < Comp.key c y).
Proof. by destruct c. Qed.
Lemma equal_key c x y : Comp.equal c x y = bool_decide (Comp.key c x = Comp.key c y).
Proof. by destruct c. Qed.
Lemma sentry_key c x : Comp.key c (sentry c x) = x.
Proof. by destruct c. Qed.

(** Sorted transitions split into those not later than [x] and the later. *)
Lemma split_at c x l : StronglySorted (fun a b => Comp.key c a < Comp.key c b) l ->
  exists l1 l2, l = l1 ++ l2 /\ Forall (fun a => Comp.key c a <= x) l1 /\ Forall (fun a => x < Comp.key c a) l2.
Proof.
  induction 1 as [|a l Hs (l1 & l2 & -> & H1 & H2) Ha]; [by exists [], []|].
  destruct (decide (Comp.key c a <= x)).
  - exists (a :: l1), l2. split_and!; [done|by constructor|done].
  - exists [], (a :: l1 ++ l2). split_and!; [done|constructor|]. constructor; [lia|].
    eapply Forall_impl; [exact Ha|]. simpl. intros. lia.
Qed.

Lemma filter_split c x l1 l2 :
  Forall (fun a => Comp.key c a <= x) l1 -> Forall (fun a => x < Comp.key c a) l2 ->
  filter (fun a => Comp.key c a <= x) (l1 ++ l2) = l1.
Proof.
  intros H1 H2. rewrite filter_app. replace (filter _ l2) with (@nil Transition).
  - rewrite app_nil_r. induction H1; [done|]. rewrite filter_cons_True by done. by f_equal.
  - induction H2; [done|]. rewrite filter_cons_False by lia. done.
Qed.

Lemma sorted_before c l1 y l2 : StronglySorted (fun a b => Comp.key c a < Comp.key c b) (l1 ++ y :: l2) ->
  Forall (fun a => Comp.key c a < Comp.key c y) l1.
Proof.
  induction l1 as [|a l1 IH]; intros Hs; [done|]. inversion Hs as [|? ? Hs' Ha]; subst. constructor; [|by apply IH].
  rewrite Forall_forall in Ha. apply Ha. set_solver.
Qed.

(** The position [lower_bound] finds. *)
Lemma lower_bound_split c x l1 l2 :
  Forall (fun a => Comp.key c a < x) l1 -> Forall (fun a => x <= Comp.key c a) l2 ->
  lower_bound (fun a => Comp.call c a (sentry c x)) (l1 ++ l2) 0 (length (l1 ++ l2)) ⇓ length l1.
Proof.
  intros H1 H2. apply lower_bound_ok; [|rewrite length_app; lia|lia].
  intros i a Hi. rewrite call_key, sentry_key, bool_decide_eq_true.
  destruct (decide (i < length l1)%nat) as [Hl|Hl].
  - rewrite lookup_app_l in Hi by done. rewrite Forall_lookup in H1. naive_solver.
  - rewrite lookup_app_r in Hi by lia. rewrite Forall_lookup in H2. pose proof (H2 _ _ Hi). simpl in *. lia.
Qed.

Lemma type_at data i : 0 <= i < len (localtimes data) ->
  exists l, localtimes data !! Z.to_nat i = Some l /\ at_ (localtimes data) i ⇓ l.
Proof. intros Hi. destruct (at_ok (localtimes data) i Hi) as [l Hl]. exists l. split; [|done]. apply at_Done in Hl. apply Hl. Qed.

(** What [findLocaltime] returns around a split of the transitions. *)
Lemma find_before c data x tr l2 : transitions data = tr :: l2 -> x < Comp.key c tr ->
  findLocaltime data (sentry c x) c = at_ (localtimes data) 0.
Proof.
  intros Hd Hx. unfold findLocaltime. rewrite Hd, call_key, sentry_key. by rewrite bool_decide_true.
Qed.

Lemma find_after c data x l1 y l2 : transitions data = l1 ++ y :: l2 ->
  Forall (fun a => Comp.key c a < Comp.key c y) l1 -> Comp.key c y <= x -> Forall (fun a => x < Comp.key c a) l2 ->
  findLocaltime data (sentry c x) c = at_ (localtimes data) (localtimeIdx y).
Proof.
  intros Hd H1 Hy H2. unfold findLocaltime.
  assert (Hfront : exists a l', transitions data = a :: l' /\ Comp.key c a <= x).
  { rewrite Hd. destruct H1 as [|a l1 Ha H1]; simpl; eexists _, _; (split; [done|lia]). }
  destruct Hfront as (a & l' & Hf & Ha). rewrite Hf at 1.
  rewrite call_key, sentry_key, bool_decide_false by lia. rewrite Hd.
  destruct (decide (Comp.key c y = x)) as [He|Hne].
  - rewrite lower_bound_split; [bind_step|by rewrite <-He|]; cycle 1.
    { constructor; [lia|]. eapply Forall_impl; [exact H2|]. simpl. lia. }
    rewrite list_lookup_middle by done. rewrite equal_key, sentry_key. by rewrite bool_decide_true.
  - rewrite cons_middle, app_assoc.
    rewrite lower_bound_split; [bind_step|..]; cycle 1.
    { apply Forall_app. split; [|constructor; [lia|done]]. eapply Forall_impl; [exact H1|]. simpl. lia. }
    { eapply Forall_impl; [exact H2|]. simpl. lia. }
    destruct l2 as [|b l2].
    + rewrite app_nil_r, lookup_ge_None_2 by done.
      assert (Hl : at_ (l1 ++ [y]) (len (l1 ++ [y]) - 1) ⇓ y); [|by rewrite Hl].
      apply at_Done. rewrite len_app. split; [pose proof (len_nonneg l1); unfold len; simpl; lia|].
      apply list_lookup_middle. unfold len. simpl. lia.
    + rewrite list_lookup_middle by done. inversion H2; subst.
      rewrite equal_key, sentry_key, bool_decide_false by lia.
      rewrite assert_true by (apply bool_decide_true; rewrite length_app; simpl; lia). bind_step.
      assert (Hl : at_ ((l1 ++ [y]) ++ b :: l2) (Z.of_nat (length (l1 ++ [y])) - 1) ⇓ y); [|by rewrite Hl].
      apply at_Done. rewrite length_app. simpl. split; [lia|].
      rewrite <-app_assoc. apply list_lookup_middle. lia.
Qed.

Lemma find_in_force c data x : searchable c data ->
  exists l, findLocaltime data (sentry c x) c ⇓ l /\ in_force c data x = Some l.
Proof.
  intros [Hne Hidx Hs]. destruct (split_at c x (transitions data) Hs) as (l1 & l2 & Hd & H1 & H2).
  unfold in_force. rewrite Hd, filter_split by done.
  assert (H0 : 0 <= 0 < len (localtimes data)) by (destruct (localtimes data); [done|unfold len; simpl; lia]).
  destruct l1 as [|y l1 _] using rev_ind.
  - destruct (type_at data 0 H0) as (l & Hl & He). exists l. split; [|done]. rewrite <-He.
    destruct l2 as [|tr l2]; [unfold findLocaltime; by rewrite Hd|].
    inversion H2; subst. by eapply find_before.
  - rewrite last_snoc. rewrite <-app_assoc in Hd. simpl in Hd. rewrite Hd in Hidx, Hs.
    apply Forall_app in Hidx as [_ Hidx]. inversion Hidx; subst.
    destruct (type_at data (localtimeIdx y)) as (l & Hl & He); [done|]. exists l. split; [|done]. rewrite <-He.
    apply Forall_app in H1 as [_ H1]. inversion H1; subst.
    eapply find_after; [done|by eapply sorted_before|done|done].
Qed.

(** One transition of a regular zone. *)
Lemma regular_cons prev tr lt l : regular_from prev ((tr, lt) :: l) = true ->
  localtime tr = gmttime tr + gmtOffset lt /\
  (gmtOffset prev <= gmtOffset lt \/ (isDst prev = true /\ isDst lt = false /\ gmtOffset prev = gmtOffset lt + 3600)) /\
  (forall tr' lt' l', l = (tr', lt') :: l' -> gmttime tr + 3600 <= gmttime tr' /\ localtime tr + 3600 <= localtime tr') /\
  regular_from lt l = true.
Proof.
  simpl. rewrite !andb_true_iff, orb_true_iff, !andb_true_iff, negb_true_iff, !Z.eqb_eq, Z.leb_le.
  intros (((H1 & H2) & H3) & H4). split_and!; [done|naive_solver| |done].
  intros tr' lt' l' ->. rewrite andb_true_iff, !Z.leb_le in H3. done.
Qed.

(** After a transition, local time has passed that transition's local time. *)
Lemma walk_passed prev tr lt l t : regular_from prev ((tr, lt) :: l) = true -> gmttime tr <= t ->
  localtime tr <= t + gmtOffset (walk true lt l t).
Proof.
  revert prev tr lt. induction l as [|[tr' lt'] l IH]; intros prev tr lt Hr Ht;
    destruct (regular_cons _ _ _ _ Hr) as (Hl & _ & Hgap & Hr'); simpl; [lia|].
  destruct (Z.leb_spec (gmttime tr') t); [|lia].
  pose proof (IH lt tr' lt' Hr' ltac:(done)). destruct (Hgap _ _ _ eq_refl). lia.
Qed.

Lemma walk_next c prev l x :
  (forall tr lt l', l = (tr, lt) :: l' -> x < Comp.key c tr) -> walk c prev l x = prev.
Proof. destruct l as [|[tr lt] l]; [done|]. intros Hx. simpl. destruct (Z.leb_spec (Comp.key c tr) x); [|done]. specialize (Hx _ _ _ eq_refl). lia. Qed.

(** Searching by local time finds the type in force by UTC, except in the
    last hour of daylight saving time, when it finds the type after it. *)
Lemma walk_local prev l t : regular_from prev l = true ->
  let cur := walk true prev l t in
  let s := t + gmtOffset cur in
  let found := walk false prev l s in
  found = cur \/
  (isDst cur = true /\ isDst found = false /\ gmtOffset cur = gmtOffset found + 3600 /\
   walk true prev l (s - gmtOffset found) = found).
Proof.
  revert prev. induction l as [|[tr lt] l IH]; intros prev Hr; [by left|].
  destruct (regular_cons _ _ _ _ Hr) as (Hl & Hshift & Hgap & Hr'). simpl.
  destruct (Z.leb_spec (gmttime tr) t) as [Ht|Ht].
  - pose proof (walk_passed prev tr lt l t Hr Ht) as Hp. rewrite (proj2 (Z.leb_le _ _) Hp).
    destruct (IH lt Hr') as [->|(H1 & H2 & H3 & H4)]; [by left|]. right. split_and!; [done..|].
    destruct (Z.leb_spec (gmttime tr) (t + gmtOffset (walk true lt l t) -
      gmtOffset (walk false lt l (t + gmtOffset (walk true lt l t))))); [done|lia].
  - destruct (Z.leb_spec (localtime tr) (t + gmtOffset prev)) as [Hs|Hs]; [|by left].
    destruct Hshift as [|(Hd & Hd' & Hoff)]; [lia|]. right.
    rewrite (walk_next false lt l) by (intros tr' lt' l' ->; destruct (Hgap _ _ _ eq_refl); simpl; lia).
    split_and!; [done..|]. destruct (Z.leb_spec (gmttime tr) (t + gmtOffset prev - gmtOffset lt)); [|lia].
    apply walk_next. intros tr' lt' l' ->. destruct (Hgap _ _ _ eq_refl). simpl. lia.
Qed.

Section regular_zone.
Context (data : Data) (first : Localtime) (others : list Localtime).
Context (Htypes : localtimes data = first :: others).

Lemma resolve_cons tr l : 0 <= localtimeIdx tr < len (localtimes data) -> exists lt,
  localtimes data !! Z.to_nat (localtimeIdx tr) = Some lt /\ resolve data (tr :: l) = (tr, lt) :: resolve data l.
Proof. intros Hi. destruct (type_at data (localtimeIdx tr) Hi) as (lt & Hlt & _). exists lt. split; [done|]. simpl. by rewrite Hlt. Qed.

Lemma regular_sorted c prev l :
  Forall (fun tr => 0 <= localtimeIdx tr < len (localtimes data)) l -> regular_from prev (resolve data l) = true ->
  StronglySorted (fun x y => Comp.key c x < Comp.key c y) l.
Proof.
  intros Hidx Hr. apply Sorted_StronglySorted; [intros x y z; lia|].
  revert prev Hr. induction Hidx as [|tr l Htr Hidx IH]; intros prev Hr; [constructor|].
  destruct (resolve_cons tr l Htr) as (lt & _ & Hres). rewrite Hres in Hr.
  destruct (regular_cons _ _ _ _ Hr) as (_ & _ & Hgap & Hr'). constructor; [by eapply IH|].
  destruct Hidx as [|tr' l Htr' _]; [constructor|]. constructor.
  destruct (resolve_cons tr' l Htr') as (lt' & _ & Hres'). destruct (Hgap _ _ _ Hres'). destruct c; simpl; lia.
Qed.

Lemma walk_in_force c prev l x :
  Forall (fun tr => 0 <= localtimeIdx tr < len (localtimes data)) l ->
  StronglySorted (fun x y => Comp.key c x < Comp.key c y) l ->
  match last (filter (fun tr => Comp.key c tr <= x) l) with
  | Some tr => localtimes data !! Z.to_nat (localtimeIdx tr)
  | None => Some prev
  end = Some (walk c prev (resolve data l) x).
Proof.
  intros Hidx Hs. revert prev. induction Hs as [|tr l Hs IH Hlt]; intros prev; [done|].
  inversion Hidx as [|? ? Htr Hidx']; subst. destruct (resolve_cons tr l Htr) as (lt & Hty & ->). simpl.
  destruct (Z.leb_spec (Comp.key c tr) x).
  - rewrite filter_cons_True by done. rewrite last_cons. rewrite <-(IH Hidx' lt). destruct (last _); [done|by rewrite Hty].
  - change (tr :: l) with ([] ++ tr :: l). rewrite filter_split; [done|constructor|]. constructor; [lia|].
    eapply Forall_impl; [exact Hlt|]. simpl. lia.
Qed.

Context (Hidx : Forall (fun tr => 0 <= localtimeIdx tr < len (localtimes data)) (transitions data)).
Context (Hreg : regular_from first (resolve data (transitions data)) = true).

Lemma regular_find c x : findLocaltime data (sentry c x) c ⇓ walk c first (resolve data (transitions data)) x.
Proof.
  assert (Hs : searchable c data).
  { split; [by rewrite Htypes|done|by eapply regular_sorted]. }
  destruct (find_in_force c data x Hs) as (l & Hf & Hl). rewrite Hf. f_equal.
  unfold in_force in Hl. assert (H0 : localtimes data !! 0%nat = Some first) by (by rewrite Htypes). rewrite H0 in Hl.
  pose proof (walk_in_force c first (transitions data) x Hidx (increasing _ _ Hs)) as Hw. congruence.
Qed.
End regular_zone.

(** [timegm] ignores what [toLocalTime] adds. *)
Lemma with_local_date l zone u : date_of (TimeZone.with_local l zone u) = date_of u.
Proof. done. Qed.

Lemma with_local_valid `{CTime} l zone s : representable s -> valid_tm (TimeZone.with_local l zone (gmtime_r s)).
Proof.
  intros Hs. pose proof (gmtime_r_valid s Hs) as Hv. unfold valid_tm in *. rewrite with_local_date.
  cbn [TimeZone.with_local tm_hour tm_min tm_sec]. exact Hv.
Qed.

Lemma with_local_civil `{CTime} l zone s : representable s -> civil (TimeZone.with_local l zone (gmtime_r s)) = s.
Proof.
  intros Hs. rewrite <-(gmtime_r_civil s Hs) at 2. unfold civil. rewrite with_local_date.
  cbn [TimeZone.with_local tm_hour tm_min tm_sec]. done.
Qed.

Lemma timegm_local `{CTime} l zone s : representable s -> timegm (TimeZone.with_local l zone (gmtime_r s)) = s.
Proof. intros Hs. rewrite timegm_civil by (by apply with_local_valid). by apply with_local_civil. Qed.

Lemma representable_int64 t : representable t -> int64_range t.
Proof. unfold representable, epoch_day, int64_range, two_63. Z.to_euclidean_division_equations; lia. Qed.

Lemma regular_in_force data first others t l : localtimes data = first :: others -> regular data ->
  in_force true data t = Some l -> l = walk true first (resolve data (transitions data)) t.
Proof.
  intros Hty Hr Hl. unfold regular in Hr. rewrite Hty in Hr. rewrite <-Hty in Hr. destruct Hr as (Hidx & _ & Hreg).
  unfold in_force in Hl. assert (H0 : localtimes data !! 0%nat = Some first) by (by rewrite Hty). rewrite H0 in Hl.
  rewrite (walk_in_force data true first (transitions data) t Hidx) in Hl; [congruence|].
  by eapply regular_sorted.
Qed.

Lemma walk_elem c P data prev l x : P prev -> Forall P (localtimes data) -> P (walk c prev (resolve data l) x).
Proof.
  intros Hp Hall. revert prev Hp. induction l as [|tr l IH]; intros prev Hp; simpl; [done|].
  destruct (localtimes data !! _) as [lt|] eqn:Hlt; simpl; [|by apply IH].
  destruct (_ <=? x); [|done]. apply IH. rewrite Forall_lookup in Hall. by eapply Hall.
Qed.

(** [toLocalTime] in a regular zone. *)
Lemma toLocalTime_ok `{CTime} data first others t l :
  localtimes data = first :: others -> regular data ->
  l = walk true first (resolve data (transitions data)) t -> int64_range (t + gmtOffset l) ->
  exists zone, TimeZone.toLocalTime (Some data) t ⇓ TimeZone.with_local l zone (gmtime_r (t + gmtOffset l)).
Proof.
  intros Hty Hr Hl Ht. unfold regular in Hr. rewrite Hty in Hr. rewrite <-Hty in Hr. destruct Hr as (Hidx & Habbr & Hreg).
  assert (Hz : 0 <= arrbIdx l <= len (abbreviation data)).
  { subst l. apply walk_elem; [|done]. rewrite Hty in Habbr. by inversion Habbr. }
  eexists. unfold TimeZone.toLocalTime.
  run_with (regular_find data first others Hty Hidx Hreg true t). rewrite <-Hl.
  run_with (checked64_ok _ Ht). unfold c_str_at. rewrite bool_decide_true by done. done.
Qed.

(** [fromLocalTime] of what [toLocalTime] returned. *)
Lemma fromLocalTime_ok `{CTime} data first others t l zone :
  localtimes data = first :: others -> regular data ->
  l = walk true first (resolve data (transitions data)) t ->
  representable t -> representable (t + gmtOffset l) ->
  TimeZone.fromLocalTime (Some data) (TimeZone.with_local l zone (gmtime_r (t + gmtOffset l))) ⇓ t.
Proof.
  intros Hty Hr Hl Ht Hs. pose proof Hr as Hr'. unfold regular in Hr'. rewrite Hty in Hr'. rewrite <-Hty in Hr'.
  destruct Hr' as (Hidx & _ & Hreg).
  assert (Hrange : forall x, representable x -> -300000000000 <= x <= 40000000000000)
    by (clear; intros x; unfold representable, epoch_day; Z.to_euclidean_division_equations; lia).
  pose proof (Hrange _ Ht). pose proof (Hrange _ Hs).
  unfold TimeZone.fromLocalTime. rewrite timegm_local by done.
  change (mk_transition 0 (t + gmtOffset l) 0) with (sentry false (t + gmtOffset l)).
  rewrite (regular_find data first others Hty Hidx Hreg). bind_step.
  set (s := t + gmtOffset l) in *. set (found := walk false first (resolve data (transitions data)) s).
  assert (Hcase : found = l \/ (isDst l = true /\ isDst found = false /\ gmtOffset l = gmtOffset found + 3600 /\
    walk true first (resolve data (transitions data)) (s - gmtOffset found) = found)).
  { subst found s. rewrite Hl. by apply walk_local. }
  clearbody found. cbn [TimeZone.with_local tm_isdst tm_hour tm_min]. destruct (isDst l) eqn:Hdst.
  - assert (Hu : s - gmtOffset found = if isDst found then t else t + 3600)
      by (destruct Hcase as [->|(? & -> & ? & ?)]; [rewrite Hdst|]; subst s; lia).
    assert (Hw : found = walk true first (resolve data (transitions data)) (s - gmtOffset found)).
    { destruct Hcase as [->|(? & ? & ? & ?)]; [|done]. by rewrite Hu, Hdst. }
    destruct (toLocalTime_ok data first others (s - gmtOffset found) found Hty Hr Hw) as [zone' Htry].
    { replace (s - _ + _) with s by lia. int_range. }
    replace (s - gmtOffset found + gmtOffset found) with s in Htry by lia.
    rewrite bool_decide_true by done.
    rewrite (checked64_ok (s - gmtOffset found)) by (rewrite Hu; destruct (isDst found); int_range). bind_step.
    rewrite Htry. bind_step. cbn [TimeZone.with_local tm_isdst tm_hour tm_min]. rewrite !(bool_decide_true (_ (gmtime_r s) = _)) by done.
    destruct (isDst found); cbn [bool_decide andb].
    + rewrite bool_decide_false by done. cbn [andb]. change (mret s) with (Done s). bind_step. rewrite Hu. apply checked64_ok. int_range.
    + rewrite bool_decide_true by done. cbn [andb]. run_int.
      rewrite checked64_ok by int_range. f_equal. lia.
  - destruct Hcase as [->|(? & _)]; [|done]. rewrite bool_decide_false by lia. change (mret s) with (Done s). bind_step.
    rewrite checked64_ok by (subst s; int_range). f_equal. subst s. lia.
Qed.
End ZoneFacts.

(** ** Properties *)
Module TimeZoneTheorems.
Import ZoneSpec ZoneFacts TzFile TzFileFacts CivilTime.

(** C32.  Binary search finds the time type in force: on transitions sorted by
    the clock that is searched and naming existing types, [findLocaltime]
    completes and returns the type of the last transition not later than the
    instant, or the first type when there is none. *)
Theorem findLocaltime_in_force comp data x : searchable comp data -> exists l,
  findLocaltime data (sentry comp x) comp ⇓ l /\ in_force comp data x = Some l.
Proof. apply find_in_force. Qed.

Definition example_data : Data :=
  mk_data [mk_transition 1000000 1003600 1; mk_transition 9000000 9000000 0; mk_transition 18000000 18003600 1]
          [mk_localtime 0 false 0; mk_localtime 3600 true 4] [] (lit "GMT" ++ ["000"%char] ++ lit "BST").

Lemma findLocaltime_in_force_witness : searchable true example_data /\ exists l,
  findLocaltime example_data (sentry true 9000001) true ⇓ l /\ in_force true example_data 9000001 = Some l.
Proof.
  assert (H : searchable true example_data)
    by (split; [done|repeat constructor; by vm_compute|repeat constructor; by vm_compute]).
  split; [exact H|]. apply (findLocaltime_in_force true example_data 9000001 H).
Defined.

(** C37.  Zone files: a well-formed version 1 file, whatever follows it, is
    read into exactly the data it encodes: every transition with its local
    time, every type, the abbreviations. *)
Theorem zone_file_read `{Host} z tail : wf z ->
  readTimeZoneFile (Some (encode z tail)) no_data ⇓ (true, data_of z).
Proof. intros Hz. unfold readTimeZoneFile. by rewrite (readZone_ok z tail Hz). Qed.

Definition example_zone : zone :=
  mk_zone "2" (replicate 15 "000"%char) 2 2 0 [(1000000, 1); (9000000, 0); (18000000, 1)]
          [mk_type 0 0 0; mk_type 3600 1 4] (lit "GMT" ++ ["000"%char] ++ lit "BST").

Lemma zone_file_read_witness : data_of example_zone = example_data /\
  readTimeZoneFile (H := x86_64) (Some (encode example_zone (lit "TZif2"))) no_data ⇓ (true, data_of example_zone).
Proof.
  split; [reflexivity|]. apply (zone_file_read (H := x86_64) example_zone (lit "TZif2")).
  split; [done|by vm_compute|by vm_compute|repeat constructor; by vm_compute|repeat constructor; by vm_compute].
Defined.

(** C29.  Local time round trip: in a zone where clocks go back only at the end
    of daylight saving time, by one hour, and an hour or more passes between
    transitions, [toLocalTime] and [fromLocalTime] complete and give every
    second back, the doubled hour included, whose two passes are told apart by
    [tm_isdst].  The [gmtime_r] and [timegm] of the C library are any that
    meet their contract. *)
Theorem local_round_trip `{CTime} data t l : regular data -> in_force true data t = Some l ->
  representable t -> representable (t + gmtOffset l) -> exists u,
  TimeZone.toLocalTime (Some data) t ⇓ u /\ tm_isdst u = (if isDst l then 1 else 0) /\ tm_gmtoff u = gmtOffset l /\
  valid_tm u /\ civil u = t + gmtOffset l /\ TimeZone.fromLocalTime (Some data) u ⇓ t.
Proof.
  intros Hr Hl Ht Hs. destruct (localtimes data) as [|first others] eqn:Hty; [unfold regular in Hr; by rewrite Hty in Hr|].
  assert (Hw : l = walk true first (resolve data (transitions data)) t) by (by eapply regular_in_force).
  destruct (toLocalTime_ok data first others t l Hty Hr Hw) as [zone Hu]; [by apply representable_int64|].
  eexists. split; [exact Hu|]. split_and!; [done|done|by apply with_local_valid|by apply with_local_civil|].
  by eapply fromLocalTime_ok.
Qed.

(** The doubled hour of [example_data]: 8998200 and 9001800 are both 11:30 on
    their local clock. *)
Lemma local_round_trip_witness : regular example_data /\ exists u,
  TimeZone.toLocalTime (H := OwnTime.own_time) (Some example_data) 8998200 ⇓ u /\ tm_isdst u = 1 /\ tm_gmtoff u = 3600 /\
  valid_tm u /\ civil u = 9001800 /\ TimeZone.fromLocalTime (H := OwnTime.own_time) (Some example_data) u ⇓ 8998200.
Proof.
  split; [by_computation|].
  apply (local_round_trip (H := OwnTime.own_time) example_data 8998200 (mk_localtime 3600 true 4));
    [by_computation|reflexivity|by_computation|by_computation].
Defined.

(** A zone file that cannot be opened, or is no zone file, yields a zone that
    calls itself valid and has no time type: converting with it is
    undefined. *)
Theorem missing_zone_file `{Host} `{CTime} file t : file = None \/ file = Some (lit "not a zone file") ->
  exists z, TimeZone.of_file file ⇓ z /\ TimeZone.valid z = true /\ TimeZone.toLocalTime z t ↯ OutOfBounds.
Proof. intros [-> | ->]; eexists; (split; [reflexivity|by split]). Qed.
End TimeZoneTheorems.
