(* ===== verification/Loggers.v ===== *)
(** * Loggers: log statements

    Models [Logger] ([src/muduo/base/Logging.h], [Logging.cc]) and the thread
    identity it prints ([src/muduo/base/CurrentThread.h], [Thread.cc]).  A log
    statement builds a line in a [LogStream], with a per-thread cache of the
    formatted second, hands it to the output function and, at level [FATAL],
    flushes and aborts.  The clock, [gettid], [errno], [strerror] and the
    environment are parameters; what the output and flush functions do is the
    program's business, so calls of them are recorded as events. *)
From S2P Require Import Prelude Endian Timestamps LogStreams Dates UtcTimes Formats TimeZones.

Local Open Scope Z_scope.
Local Open Scope muduo_scope.

(** ** Thread identity *)
Module CurrentThread.
Import Printf.
Record t : Type := mk {
  t_cached_tid : Z;
  t_tid_string : bytes;          (* up to its NUL *)
  t_tid_string_len : Z;
  t_thread_name : bytes }.
Definition init : t := mk 0 [] 6 (lit "unknow").

Definition cacheTid (gettid : Z) (c : t) : t :=
  if bool_decide (t_cached_tid c = 0) then
    let '(s, n) := snprintf 32 [dw 5 gettid; chars " "] in
    mk gettid s n (t_thread_name c)
  else c.
Definition tid (gettid : Z) (c : t) : Z * t :=
  let c := if bool_decide (t_cached_tid c = 0) then cacheTid gettid c else c in
  (t_cached_tid c, c).
Definition tidString (c : t) : bytes := t_tid_string c.
Definition tidStringLength (c : t) : Z := t_tid_string_len c.
Definition name (c : t) : bytes := t_thread_name c.
Definition isMainThread (gettid getpid : Z) (c : t) : bool * t :=
  let '(id, c) := tid gettid c in (bool_decide (id = getpid), c).
Definition set_name (s : bytes) (c : t) : t := mk (t_cached_tid c) (t_tid_string c) (t_tid_string_len c) s.

(** In the child of a [fork]. *)
Definition afterFork (gettid : Z) (c : t) : t :=
  (tid gettid (mk 0 (t_tid_string c) (t_tid_string_len c) (lit "main"))).2.

Definition sleepUsec (usec : Z) : timespec :=
  mk_timespec (Z.quot usec Timestamp.kMicroSecondsPerSecond) (Z.rem usec Timestamp.kMicroSecondsPerSecond * 1000).
End CurrentThread.

(** ** Source file names *)

(** Index of the first and of the last occurrence. *)
Fixpoint strchr (s : bytes) (c : char) : option nat :=
  match s with
  | [] => None
  | x :: s => if bool_decide (x = c) then Some O else S <$> strchr s c
  end.
Fixpoint strrchr (s : bytes) (c : char) : option nat :=
  match s with
  | [] => None
  | x :: s => match strrchr s c with
              | Some i => Some (S i)
              | None => if bool_decide (x = c) then Some O else None
              end
  end.

Module SourceFile.
(** [_data]: from the pointer to the end of the array, its NUL included. *)
Record t : Type := mk { _data : bytes; _size : Z }.
Definition NUL : char := "000".

(** From a literal: [N] counts the NUL. *)
Definition of_array (s : bytes) : t :=
  let arr := s ++ [NUL] in
  let N := len arr in
  match strrchr s "/" with
  | Some slash => mk (drop (slash + 1) arr) (N - (Z.of_nat slash + 1))
  | None => mk arr N
  end.

Definition of_pointer (filename : bytes) : t :=
  let data := match strchr filename "/" with Some slash => drop (slash + 1) filename | None => filename end in
  mk (data ++ [NUL]) (len data).
End SourceFile.

(** ** The logger *)
Inductive LogLevel : Type := TRACE | DEBUG | INFO | WARN | ERROR | FATAL.
Global Instance LogLevel_eq_dec : EqDecision LogLevel.
Proof. solve_decision. Defined.
Definition level_index (l : LogLevel) : Z :=
  match l with TRACE => 0 | DEBUG => 1 | INFO => 2 | WARN => 3 | ERROR => 4 | FATAL => 5 end.
Definition LogLevelName : list bytes :=
  [lit "TRACE "; lit "DEBUG "; lit "INFO  "; lit "WARN  "; lit "ERROR "; lit "FATAL "].

Inductive event : Type := Output (f : nat) (msg : bytes) | Flush (f : nat).

(** The globals; function pointers are identified by numbers. *)
Record globals : Type := mk_globals {
  global_log_level : LogLevel;
  global_output : nat;
  global_flush : nat;
  global_log_timezone : TimeZone.t;
  events : list event }.

(** The thread-locals of the logging thread. *)
Record thread : Type := mk_thread {
  current : CurrentThread.t;
  t_time : bytes;                (* up to its NUL *)
  t_last_second : Z }.
Definition new_thread : thread := mk_thread CurrentThread.init [] 0.

Module Logger.
Import Printf.

Definition initLogLevel (getenv : string -> bool) : LogLevel :=
  if getenv "MUDUO_LOG_TRACE" then TRACE else if getenv "MUDUO_LOG_DEBUG" then DEBUG else INFO.
Definition logLevel (g : globals) : LogLevel := global_log_level g.
Definition setLogLevel (l : LogLevel) (g : globals) : globals :=
  mk_globals l (global_output g) (global_flush g) (global_log_timezone g) (events g).
Definition setOutput (f : nat) (g : globals) : globals :=
  mk_globals (global_log_level g) f (global_flush g) (global_log_timezone g) (events g).
Definition setFlush (f : nat) (g : globals) : globals :=
  mk_globals (global_log_level g) (global_output g) f (global_log_timezone g) (events g).
Definition setTimeZone (tz : TimeZone.t) (g : globals) : globals :=
  mk_globals (global_log_level g) (global_output g) (global_flush g) tz (events g).
Definition record (l : list event) (g : globals) : globals :=
  mk_globals (global_log_level g) (global_output g) (global_flush g) (global_log_timezone g) (events g ++ l).

(** [_stream << T(str, len)]: the length is asserted. *)
Definition put_T (b : FixedBuffer.t) (str : bytes) (n : Z) : outcome FixedBuffer.t :=
  assert_ (bool_decide (len str = n));;
  FixedBuffer.append b str.

Definition put_file (b : FixedBuffer.t) (f : SourceFile.t) : outcome FixedBuffer.t :=
  FixedBuffer.append b (take (Z.to_nat (SourceFile._size f)) (SourceFile._data f)).

Record Impl : Type := mk_impl {
  _stream : FixedBuffer.t;
  _level : LogLevel;
  _line : Z;
  _basename : SourceFile.t }.

Section logger.
Context `{CTime}.

Definition formatTime (g : globals) (th : thread) (time : Timestamp.t) (b : FixedBuffer.t)
  : outcome (thread * FixedBuffer.t) :=
  let seconds := Z.quot time Timestamp.kMicroSecondsPerSecond in
  let microseconds := i32 (Z.rem time Timestamp.kMicroSecondsPerSecond) in
  th ← (if bool_decide (seconds <> t_last_second th) then
          tm_time ← (if TimeZone.valid (global_log_timezone g)
                     then TimeZone.toLocalTime (global_log_timezone g) seconds
                     else mret (gmtime_r seconds));
          let '(s, n) := snprintf 64 (TimestampText.date_time tm_time) in
          assert_ (bool_decide (n = 17));;
          mret (mk_thread (current th) s seconds)
        else mret th);
  if TimeZone.valid (global_log_timezone g) then
    us ← Fmt.make [chars "."; d0 6 microseconds; chars " "];
    assert_ (bool_decide (Fmt.length us = 8));;
    b ← put_T b (t_time th) 17;
    b ← put_T b (Fmt.data us) 8;
    mret (th, b)
  else
    us ← Fmt.make [chars "."; d0 6 microseconds; chars "Z "];
    assert_ (bool_decide (Fmt.length us = 9));;
    b ← put_T b (t_time th) 17;
    b ← put_T b (Fmt.data us) 9;
    mret (th, b).

(** [time] is the clock, [gettid] the thread's id, [strerror] the text of an
    error number. *)
Definition make_Impl (strerror : Z -> bytes) (time : Timestamp.t) (gettid : Z) (level : LogLevel) (saved_errno : Z)
    (file : SourceFile.t) (line : Z) (g : globals) (th : thread) : outcome (thread * Impl) :=
  p ← formatTime g th time (FixedBuffer.init k_small_buffer);
  let '(th, b) := p in
  let '(_, c) := CurrentThread.tid gettid (current th) in
  let th := mk_thread c (t_time th) (t_last_second th) in
  b ← put_T b (CurrentThread.tidString c) (CurrentThread.tidStringLength c);
  nm ← at_ LogLevelName (level_index level);
  b ← put_T b nm 6;
  b ← (if bool_decide (saved_errno <> 0) then
         run_all LogStream.put b
           [LogStream.CString (Some (strerror saved_errno)); LogStream.CString (Some (lit " (errno="));
            LogStream.Integer saved_errno; LogStream.CString (Some (lit ") "))]
       else mret b);
  mret (th, mk_impl b level line file).

Definition finish (i : Impl) : outcome Impl :=
  b ← LogStream.put (_stream i) (LogStream.CString (Some (lit " - ")));
  b ← put_file b (_basename i);
  b ← LogStream.put b (LogStream.Char ":");
  b ← LogStream.put b (LogStream.Integer (_line i));
  b ← LogStream.put b (LogStream.Char "010");
  mret (mk_impl b (_level i) (_line i) (_basename i)).

(** [~Logger]: the result tells whether the process was aborted. *)
Definition destroy (i : Impl) (g : globals) : outcome (globals * bool) :=
  i ← finish i;
  let g := record [Output (global_output g) (FixedBuffer.toString (_stream i))] g in
  if bool_decide (_level i = FATAL) then mret (record [Flush (global_flush g)] g, true) else mret (g, false).

(** The macros.  A statement names its place and streams operands. *)
Inductive macro : Type :=
  | LOG_TRACE | LOG_DEBUG | LOG_INFO | LOG_WARN | LOG_ERROR | LOG_FATAL | LOG_SYSERR | LOG_SYSFATAL.
Record site : Type := mk_site { FILE : bytes; LINE : Z; func : bytes }.

(** [logLevel() <= ...] *)
Definition enabled (m : macro) (g : globals) : bool :=
  match m with
  | LOG_TRACE => bool_decide (level_index (logLevel g) <= level_index TRACE)
  | LOG_DEBUG => bool_decide (level_index (logLevel g) <= level_index DEBUG)
  | LOG_INFO => bool_decide (level_index (logLevel g) <= level_index INFO)
  | _ => true
  end.
Definition level_of (m : macro) : LogLevel :=
  match m with
  | LOG_TRACE => TRACE | LOG_DEBUG => DEBUG | LOG_INFO => INFO | LOG_WARN => WARN
  | LOG_ERROR | LOG_SYSERR => ERROR | LOG_FATAL | LOG_SYSFATAL => FATAL
  end.
(** Which constructor the macro calls: with [errno], with the function name. *)
Definition errno_of (m : macro) (errno : Z) : Z := match m with LOG_SYSERR | LOG_SYSFATAL => errno | _ => 0 end.
Definition prefix_of (m : macro) (s : site) : list LogStream.operand :=
  match m with
  | LOG_TRACE | LOG_DEBUG => [LogStream.CString (Some (func s)); LogStream.Char " "]
  | _ => []
  end.

(** [LOG_X << o1 << o2 << ...;] *)
Definition statement (strerror : Z -> bytes) (time : Timestamp.t) (gettid errno : Z) (m : macro) (s : site)
    (ops : list LogStream.operand) (g : globals) (th : thread) : outcome (globals * thread * bool) :=
  if enabled m g then
    p ← make_Impl strerror time gettid (level_of m) (errno_of m errno) (SourceFile.of_array (FILE s)) (LINE s) g th;
    let '(th, i) := p in
    b ← run_all LogStream.put (_stream i) (prefix_of m s ++ ops);
    r ← destroy (mk_impl b (_level i) (_line i) (_basename i)) g;
    let '(g, aborted) := r in
    mret (g, th, aborted)
  else mret (g, th, false).

(** [CHECK_NOTNULL] *)
Definition CheckNotNull (strerror : Z -> bytes) (time : Timestamp.t) (gettid : Z) (s : site) (names : bytes) (ptr : Z)
    (g : globals) (th : thread) : outcome (globals * thread * bool) :=
  if bool_decide (ptr = 0)
  then statement strerror time gettid 0 LOG_FATAL s [LogStream.CString (Some names)] g th
  else mret (g, th, false).
End logger.
End Logger.

(** ** Specification: the text of a log line *)
Module LogSpec.
Import Printf LogStream CivilTime FormatFacts TimeTextFacts Logger.

(** The text an operand streams. *)
Definition renders (o : operand) (s : bytes) : Prop :=
  match o with
  | Integer v => convert v ⇓ s
  | _ => LogStreamFacts.text_of o s
  end.

Section spec.
Context `{CTime}.

(** The wall clock at second [s]: [u] is what the logger prints. *)
Definition shows (g : globals) (s : Z) (u : tm) : Prop :=
  (if TimeZone.valid (global_log_timezone g) then TimeZone.toLocalTime (global_log_timezone g) s else mret (gmtime_r s)) ⇓ u /\
  valid_tm u /\ four_digits u.

Definition tid_text (gettid : Z) : bytes := format [dw 5 gettid; chars " "].

(** Invariant of the thread's caches. *)
Record cached (g : globals) (gettid : Z) (th : thread) : Prop := {
  cached_time : t_last_second th <> 0 -> exists u, shows g (t_last_second th) u /\ t_time th = text u;
  cached_tid : CurrentThread.t_cached_tid (current th) <> 0 ->
    CurrentThread.t_cached_tid (current th) = gettid /\
    CurrentThread.tidString (current th) = tid_text gettid /\
    CurrentThread.tidStringLength (current th) = len (tid_text gettid) }.

(** The operands the logger itself puts before those of the statement. *)
Definition errno_ops (strerror : Z -> bytes) (e : Z) : list operand :=
  if bool_decide (e <> 0) then
    [CString (Some (strerror e)); CString (Some (lit " (errno=")); Integer e; CString (Some (lit ") "))]
  else [].
Definition operands (strerror : Z -> bytes) (m : macro) (errno : Z) (s : site) (ops : list operand) : list operand :=
  errno_ops strerror (errno_of m errno) ++ prefix_of m s ++ ops.

Definition stamp (g : globals) (time : Z) (u : tm) : bytes :=
  text u ++ lit "." ++ fixed 6 (Z.rem time 1000000) ++
  (if TimeZone.valid (global_log_timezone g) then lit " " else lit "Z ").

Definition level_text (l : LogLevel) : bytes := default [] (LogLevelName !! Z.to_nat (level_index l)).

(** The part of a path after its last slash. *)
Definition basename (path : bytes) : bytes :=
  match strrchr path "/" with Some i => drop (i + 1) path | None => path end.

(** The stream has 4000 bytes, and a piece goes into it whole or not at all: a
    number needs 32 bytes, a string one more than its length. *)
Definition fits (b : bytes) (o : operand) (x : bytes) : bool :=
  match o with
  | Integer _ | Pointer _ | Double _ => bool_decide (len b + 32 <= 4000)
  | _ => bool_decide (len b + len x < 4000)
  end.
Definition squeeze (b : bytes) (p : operand * bytes) : bytes := if fits b p.1 p.2 then b ++ p.2 else b.

(** What the destructor puts after the operands. *)
Definition ending (s : site) (number : bytes) : list (operand * bytes) :=
  [(CString (Some (lit " - ")), lit " - "); (Str (basename (FILE s) ++ [SourceFile.NUL]), basename (FILE s) ++ [SourceFile.NUL]);
   (Char ":", lit ":"); (Integer (LINE s), number); (Char "010", ["010"%char])].

(** The text of a statement. *)
Definition output_text (g : globals) (time gettid : Z) (u : tm) (m : macro) (s : site) (ops : list operand) (texts : list bytes) (number : bytes) : bytes :=
  foldl squeeze (stamp g time u ++ tid_text gettid ++ level_text (level_of m)) (zip ops texts ++ ending s number).

(** The whole line; the NUL after the file name is in the output. *)
Definition line (g : globals) (time gettid : Z) (u : tm) (m : macro) (s : site) (texts : list bytes) (number : bytes) : bytes :=
  stamp g time u ++ tid_text gettid ++ level_text (level_of m) ++ concat texts ++
  lit " - " ++ basename (FILE s) ++ [SourceFile.NUL] ++ lit ":" ++ number ++ ["010"%char].
End spec.
End LogSpec.

Module LogFacts.
Import Printf LogStream CivilTime FormatFacts TimeTextFacts Logger LogSpec.

(** The stream holds a text and has its full size. *)
Definition holds (b : FixedBuffer.t) (s : bytes) : Prop :=
  LogStreamFacts.wf b /\ len (FixedBuffer._data b) = 4000 /\ FixedBuffer.toString b = s.

Lemma holds_cur b s : holds b s -> FixedBuffer._cur b = len s.
Proof.
  intros (Hwf & Hl & <-). rewrite LogStreamFacts.toString_wf by done. destruct Hwf as [Hc _].
  rewrite len_slice by lia. done.
Qed.

Lemma holds_init : holds (FixedBuffer.init k_small_buffer) [].
Proof. split; [|split]; [|reflexivity|reflexivity]. split; [|by vm_compute]. split; by vm_compute. Qed.

Lemma append_squeezes b s x : holds b s ->
  exists b', FixedBuffer.append b x ⇓ b' /\ holds b' (if bool_decide (len s + len x < 4000) then s ++ x else s).
Proof.
  intros Hb. pose proof (holds_cur b s Hb) as Hc. destruct Hb as (Hwf & Hl & Hs).
  destruct (LogStreamFacts.append_ok b x Hwf) as (b' & He & Hwf' & Hl' & Ht). exists b'. split; [done|].
  rewrite Hs, Hl, Hc in Ht. split_and!; [done|lia|]. rewrite Ht. repeat case_bool_decide; (done || lia || apply app_nil_r).
Qed.

Lemma append_holds b s x : holds b s -> len s + len x < 4000 ->
  exists b', FixedBuffer.append b x ⇓ b' /\ holds b' (s ++ x).
Proof. intros Hb Hx. destruct (append_squeezes b s x Hb) as (b' & He & Hb'). rewrite bool_decide_true in Hb' by done. by exists b'. Qed.

Lemma put_T_holds b s x n : holds b s -> len x = n -> len s + len x < 4000 ->
  exists b', put_T b x n ⇓ b' /\ holds b' (s ++ x).
Proof. intros Hb <- Hx. unfold put_T. rewrite bool_decide_true by done. by apply append_holds. Qed.

(** The text of a number, written if there is room for any. *)
Lemma number_squeezes b s x : holds b s -> len x < 32 -> len s + 32 <= 4000 ->
  exists d, overwrite (FixedBuffer._data b) (FixedBuffer._cur b) (x ++ ["000"%char]) = Done d /\
    holds (FixedBuffer.mk d (FixedBuffer._cur b + len x)) (s ++ x).
Proof.
  intros Hb Hx Hroom. pose proof (holds_cur b s Hb) as Hc. destruct Hb as (Hwf & Hl & Hs).
  destruct (LogStreamFacts.avail_wf b Hwf) as [Ha _].
  destruct (LogStreamFacts.put_number b x Hwf) as (d & Hd & Hwf' & Hl' & Ht); [unfold k_max_number_size; lia|done|].
  exists d. split; [done|]. split_and!; [done|cbn; lia|by rewrite Ht, Hs].
Qed.

Lemma put_squeezes b s o x : holds b s -> LogStreamFacts.operand_ok o -> renders o x ->
  exists b', put b o ⇓ b' /\ holds b' (squeeze s (o, x)).
Proof.
  intros Hb Ho Hr. unfold squeeze. cbn [fst snd].
  assert (FixedBuffer.avail b = 4000 - len s) as Ha.
  { pose proof (holds_cur b s Hb) as Hc. destruct Hb as (Hwf & Hl & _). destruct (LogStreamFacts.avail_wf b Hwf) as [-> _]. lia. }
  destruct o as [v|v|v|text|c|[s'|]|s']; cbn [renders LogStreamFacts.text_of LogStreamFacts.operand_ok put fits] in *; subst;
    try (by apply append_squeezes); unfold formatInteger, formatPointer, formatDouble; rewrite Ha; unfold k_max_number_size.
  - destruct (LogStreamFacts.convert_ok v Ho) as (x2 & Hc2 & _ & Hl2). rewrite Hr in Hc2. injection Hc2 as <-.
    repeat case_bool_decide; try lia; [|by exists b]. rewrite Hr. cbn [mbind outcome_bind].
    destruct (number_squeezes b s x Hb) as (d & -> & Hd); [lia..|]. by eexists.
  - destruct Hr as (h & Hh & ->). destruct (LogStreamFacts.convertHex_ok v Ho) as (h2 & Hc2 & Hl2). rewrite Hh in Hc2. injection Hc2 as <-.
    repeat case_bool_decide; try lia; [|by exists b]. rewrite Hh. cbn [mbind outcome_bind]. rewrite app_assoc.
    destruct (number_squeezes b s (lit "0x" ++ h) Hb) as (d & -> & Hd); [rewrite len_app; change (len (lit "0x")) with 2; lia|lia|].
    cbn [mbind outcome_bind]. eexists. split; [done|]. unfold FixedBuffer.add. cbn. rewrite len_app in Hd. change (len (lit "0x")) with 2 in Hd.
    by rewrite (Z.add_comm (len h) 2).
  - repeat case_bool_decide; try lia; [|by exists b]. rewrite take_ge by (unfold len in Ho; lia).
    destruct (number_squeezes b s text Hb) as (d & -> & Hd); [lia..|]. by eexists.
Qed.

Lemma puts_squeeze ops texts : Forall2 renders ops texts -> forall b s, holds b s -> Forall LogStreamFacts.operand_ok ops ->
  exists b', run_all put b ops ⇓ b' /\ holds b' (foldl squeeze s (zip ops texts)).
Proof.
  induction 1 as [|o x ops texts Hr _ IH]; intros b s Hb Hok; [by exists b|]. inversion Hok; subst.
  destruct (put_squeezes b s o x) as (b1 & He & Hb1); [done..|].
  destruct (IH b1 _ Hb1) as (b2 & He2 & Hb2); [done|]. exists b2. cbn [run_all]. rewrite He. cbn [mbind outcome_bind]. by rewrite He2.
Qed.

(** Everything goes in if there is room. *)
Lemma squeeze_all l : forall s, len s + len (concat l.*2) + 32 <= 4000 -> foldl squeeze s l = s ++ concat l.*2.
Proof.
  induction l as [|[o x] l IH]; intros s Hs; [cbn; by rewrite app_nil_r|]. cbn [fmap list_fmap concat foldl snd] in *.
  rewrite len_app in Hs. pose proof (len_nonneg (concat l.*2)). pose proof (len_nonneg x).
  assert (squeeze s (o, x) = s ++ x) as ->.
  { unfold squeeze, fits. cbn [fst snd]. destruct o; rewrite bool_decide_true by lia; done. }
  rewrite IH by (rewrite len_app; lia). by rewrite <-app_assoc.
Qed.

Section statements.
Context `{CTime}.

(** The microseconds, with their padding. *)
Lemma micros_fmt us tl : 0 <= us < 1000000 -> (length tl <= 2)%nat ->
  Fmt.make [Text (lit "."); d0 6 us; Text tl] ⇓ Fmt.mk (lit "." ++ fixed 6 us ++ tl) (7 + len tl).
Proof.
  intros Hu Ht. unfold Fmt.make, snprintf, format. cbn [map concat].
  rewrite show_zero by (try lia; change (10 ^ Z.of_nat 6) with 1000000; lia).
  cbn [show chars]. rewrite app_nil_r.
  assert (Hl : len (lit "." ++ fixed 6 us ++ tl) = 7 + len tl).
  { rewrite !len_app. unfold len at 2. rewrite length_fixed. change (len (lit ".")) with 1. lia. }
  rewrite Hl, bool_decide_true by (unfold len; lia). cbn [assert_ mbind outcome_bind].
  rewrite take_ge; [done|]. unfold len in Hl. lia.
Qed.

(** The cached second is the wanted one after [formatTime]. *)
Lemma format_second g th gettid s u : cached g gettid th -> s <> 0 -> shows g s u -> exists th',
  (if bool_decide (s <> t_last_second th) then
     tm_time ← (if TimeZone.valid (global_log_timezone g)
                then TimeZone.toLocalTime (global_log_timezone g) s else mret (gmtime_r s));
     let '(txt, n) := snprintf 64 (TimestampText.date_time tm_time) in
     assert_ (bool_decide (n = 17));;
     mret (mk_thread (current th) txt s)
   else mret th) ⇓ th' /\ t_time th' = text u /\ t_last_second th' = s /\ current th' = current th.
Proof.
  intros [Hc _] Hs Hu. case_bool_decide as Heq.
  - destruct Hu as (Hclock & Hv & Hy). rewrite Hclock. cbn [mbind outcome_bind]. unfold snprintf.
    rewrite (format_date_time u Hv Hy). rewrite bool_decide_true by (unfold len; by rewrite length_text).
    eexists. split; [reflexivity|]. split_and!; [|done..]. cbn [t_time]. apply take_ge. rewrite length_text. lia.
  - assert (He : s = t_last_second th) by lia. rewrite <-He in Hc.
    destruct (Hc Hs) as (u' & (Hclock' & _) & Ht). destruct Hu as (Hclock & _).
    rewrite Hclock in Hclock'. injection Hclock' as <-. by exists th.
Qed.

Lemma formatTime_ok g th gettid time u b : cached g gettid th -> 1000000 <= time -> shows g (Z.quot time 1000000) u ->
  holds b [] -> exists th' b', formatTime g th time b ⇓ (th', b') /\ holds b' (stamp g time u) /\
    t_time th' = text u /\ t_last_second th' = Z.quot time 1000000 /\ current th' = current th.
Proof.
  intros Hc Ht Hu Hb.
  assert (Hus : 0 <= Z.rem time 1000000 < 1000000) by (clear -Ht; Z.to_euclidean_division_equations; lia).
  assert (Hs : Z.quot time 1000000 <> 0) by (clear -Ht; Z.to_euclidean_division_equations; lia).
  destruct (format_second g th gettid _ u Hc Hs Hu) as (th' & Hth & H1 & H2 & H3).
  exists th'. unfold formatTime, Timestamp.kMicroSecondsPerSecond. rewrite Hth. cbn [mbind outcome_bind].
  rewrite i32_small by int_range.
  assert (Hl : len (text u) = 17) by (unfold len; by rewrite length_text).
  destruct (put_T_holds b [] (text u) 17 Hb Hl) as (b1 & Hp1 & Hb1); [rewrite Hl; by vm_compute|].
  assert (Htail : forall tl, (length tl <= 2)%nat -> exists b2,
    put_T b1 (lit "." ++ fixed 6 (Z.rem time 1000000) ++ tl) (7 + len tl) ⇓ b2 /\
    holds b2 (text u ++ lit "." ++ fixed 6 (Z.rem time 1000000) ++ tl)).
  { intros tl Htl. apply put_T_holds; [done| |].
    all: rewrite ?len_app, ?Hl; unfold len; rewrite ?length_fixed; simpl; lia. }
  rewrite H1. unfold stamp, chars. destruct (TimeZone.valid _).
  - rewrite (micros_fmt _ (lit " ") Hus) by (simpl; lia). cbn [mbind outcome_bind Fmt.length Fmt._length Fmt.data Fmt._buf].
    rewrite bool_decide_true by done. cbn [assert_ mbind outcome_bind]. rewrite Hp1. cbn [mbind outcome_bind].
    destruct (Htail (lit " ")) as (b2 & Hp2 & Hb2); [simpl; lia|]. change 8 with (7 + len (lit " ")). rewrite Hp2. by exists b2.
  - rewrite (micros_fmt _ (lit "Z ") Hus) by (simpl; lia). cbn [mbind outcome_bind Fmt.length Fmt._length Fmt.data Fmt._buf].
    rewrite bool_decide_true by done. cbn [assert_ mbind outcome_bind]. rewrite Hp1. cbn [mbind outcome_bind].
    destruct (Htail (lit "Z ")) as (b2 & Hp2 & Hb2); [simpl; lia|]. change 9 with (7 + len (lit "Z ")). rewrite Hp2. by exists b2.
Qed.

Lemma len_stamp g time u : 24 <= len (stamp g time u) <= 26.
Proof.
  unfold stamp. rewrite !len_app.
  assert (len (text u) = 17) by (unfold len; by rewrite length_text).
  assert (len (fixed 6 (Z.rem time 1000000)) = 6) by (unfold len; by rewrite length_fixed).
  change (len (lit ".")) with 1. destruct (TimeZone.valid _); [change (len (lit " ")) with 1|change (len (lit "Z ")) with 2]; lia.
Qed.

Lemma len_tid_text gettid : 0 < gettid < two_31 -> 6 <= len (tid_text gettid) <= 11.
Proof.
  unfold two_31. intros Hg. destruct (dec_fixed gettid) as (k & Hk & _ & Hge & He); [lia|].
  assert (Hk10 : (k <= 10)%nat).
  { destruct Hge as [->|Hge]; [lia|]. assert (Hp : 10 ^ (Z.of_nat k - 1) < 10 ^ 10) by lia.
    apply Z.pow_lt_mono_r_iff in Hp; lia. }
  unfold tid_text, format, dw, show, sign. cbn [map concat]. rewrite Z.abs_eq by lia.
  destruct (Z.ltb_spec gettid 0); [lia|]. cbn [app]. rewrite He. unfold len.
  rewrite !length_app, length_replicate, length_fixed. simpl. lia.
Qed.

(** The thread id is printed from its cache, which is filled at need. *)
Lemma tid_cached g gettid th : cached g gettid th -> 0 < gettid < two_31 -> exists c,
  CurrentThread.tid gettid (current th) = (gettid, c) /\ CurrentThread.t_cached_tid c = gettid /\
  CurrentThread.tidString c = tid_text gettid /\ CurrentThread.tidStringLength c = len (tid_text gettid).
Proof.
  intros [_ Hc] Hg. unfold CurrentThread.tid, CurrentThread.cacheTid. pose proof (len_tid_text gettid Hg) as Hl.
  case_bool_decide as H0.
  - eexists. split; [reflexivity|]. split_and!; [done| |done]. change (take 31 (tid_text gettid) = tid_text gettid). apply take_ge. unfold len in Hl. lia.
  - destruct (Hc H0) as (He & Hs & Hn). exists (current th). by rewrite He.
Qed.

Lemma level_name l : at_ LogLevelName (level_index l) ⇓ level_text l /\ len (level_text l) = 6.
Proof. by destruct l. Qed.

Lemma make_Impl_ok strerror time gettid level e file ln g th u texts :
  cached g gettid th -> 0 < gettid < two_31 -> 1000000 <= time -> shows g (Z.quot time 1000000) u ->
  Forall2 renders (errno_ops strerror e) texts -> Forall LogStreamFacts.operand_ok (errno_ops strerror e) ->
  exists th' b, make_Impl strerror time gettid level e file ln g th ⇓ (th', mk_impl b level ln file) /\
    holds b (foldl squeeze (stamp g time u ++ tid_text gettid ++ level_text level) (zip (errno_ops strerror e) texts)) /\ cached g gettid th'.
Proof.
  intros Hc Hg Ht Hu Hr Hok. pose proof (len_stamp g time u). pose proof (len_tid_text gettid Hg).
  destruct (formatTime_ok g th gettid time u _ Hc Ht Hu holds_init) as (th1 & b1 & Hf & Hb1 & Htime & Hsec & Hcur).
  destruct (tid_cached g gettid th Hc Hg) as (c & Htid & Hid & Hstr & Hslen).
  destruct (put_T_holds b1 _ (tid_text gettid) _ Hb1 eq_refl) as (b2 & Hp2 & Hb2); [lia|].
  destruct (level_name level) as [Hnm Hnl].
  destruct (put_T_holds b2 _ (level_text level) 6 Hb2 Hnl) as (b3 & Hp3 & Hb3); [rewrite len_app; lia|].
  rewrite <-app_assoc in Hb3. destruct (puts_squeeze _ _ Hr b3 _ Hb3 Hok) as (b4 & Hp4 & Hb4). eexists _, b4. split; [|split; [exact Hb4|]].
  - unfold make_Impl. rewrite Hf. cbn [mbind outcome_bind]. rewrite Hcur, Htid, Hstr, Hslen, Hp2. cbn [mbind outcome_bind].
    rewrite Hnm. cbn [mbind outcome_bind]. rewrite Hp3. cbn [mbind outcome_bind].
    unfold errno_ops in Hp4. case_bool_decide; [rewrite Hp4; done|]. cbn [run_all] in Hp4. injection Hp4 as ->. done.
  - split; cbn [t_last_second t_time current].
    + intros _. exists u. by rewrite Hsec.
    + done.
Qed.

Lemma strrchr_bound s c i : strrchr s c = Some i -> (i < length s)%nat.
Proof.
  revert i. induction s as [|x s IH]; intros i; [done|]. cbn [strrchr length].
  destruct (strrchr s c) as [j|]; [intros [= <-]; specialize (IH j eq_refl); lia|].
  case_bool_decide; intros [= <-]; lia.
Qed.

(** What [put_file] streams of a literal: the base name and its NUL. *)
Lemma file_text path : let f := SourceFile.of_array path in
  take (Z.to_nat (SourceFile._size f)) (SourceFile._data f) = basename path ++ [SourceFile.NUL].
Proof.
  unfold SourceFile.of_array, basename. cbv zeta.
  destruct (strrchr path "/") as [i|] eqn:Hi; cbn [SourceFile._size SourceFile._data].
  - apply strrchr_bound in Hi. rewrite drop_app_le by lia. apply take_ge.
    rewrite length_app, length_drop, len_app. unfold len. simpl. lia.
  - apply take_ge. unfold len. lia.
Qed.

Lemma finish_ok i st s number : holds (_stream i) s -> _basename i = SourceFile.of_array (FILE st) -> _line i = LINE st ->
  convert (LINE st) ⇓ number -> LogStreamFacts.operand_ok (Integer (LINE st)) ->
  exists b, finish i ⇓ mk_impl b (_level i) (_line i) (_basename i) /\ holds b (foldl squeeze s (ending st number)).
Proof.
  intros Hb Hf Hln Hn Hok. unfold ending. cbn [foldl].
  destruct (put_squeezes _ _ (CString (Some (lit " - "))) (lit " - ") Hb I eq_refl) as (b1 & Hp1 & Hb1).
  destruct (put_squeezes b1 _ (Str (basename (FILE st) ++ [SourceFile.NUL])) _ Hb1 I eq_refl) as (b2 & Hp2 & Hb2).
  destruct (put_squeezes b2 _ (Char ":") (lit ":") Hb2 I eq_refl) as (b3 & Hp3 & Hb3).
  destruct (put_squeezes b3 _ (Integer (LINE st)) number Hb3 Hok Hn) as (b4 & Hp4 & Hb4).
  destruct (put_squeezes b4 _ (Char "010") ["010"%char] Hb4 I eq_refl) as (b5 & Hp5 & Hb5).
  exists b5. split; [|exact Hb5].
  unfold finish, put_file. rewrite Hp1, Hf, Hln, file_text. cbn [mbind outcome_bind]. cbn [put] in Hp2.
  rewrite Hp2. cbn [mbind outcome_bind]. rewrite Hp3. cbn [mbind outcome_bind]. rewrite Hp4. cbn [mbind outcome_bind].
  rewrite Hp5. done.
Qed.

Lemma events_record l g : events (record l g) = events g ++ l.
Proof. done. Qed.

(** A statement that is enabled. *)
Lemma statement_ok strerror time gettid errno m s ops g th u texts number :
  cached g gettid th -> 0 < gettid < two_31 -> 1000000 <= time -> shows g (Z.quot time 1000000) u ->
  Forall2 renders (operands strerror m errno s ops) texts ->
  Forall LogStreamFacts.operand_ok (operands strerror m errno s ops) ->
  convert (LINE s) ⇓ number -> LogStreamFacts.operand_ok (Integer (LINE s)) -> enabled m g = true ->
  exists th', statement strerror time gettid errno m s ops g th ⇓
    (record (Output (global_output g) (output_text g time gettid u m s (operands strerror m errno s ops) texts number) ::
       (if bool_decide (level_of m = FATAL) then [Flush (global_flush g)] else [])) g, th', bool_decide (level_of m = FATAL)) /\
    cached g gettid th'.
Proof.
  intros Hc Hg Ht Hu Hr Hok Hnum Hnok. intros He. unfold statement. rewrite He. unfold output_text, operands in *.
  apply Forall2_app_inv_l in Hr as (t1 & t2 & Hr1 & Hr2 & ->). apply Forall_app in Hok as [Hok1 Hok2].
  destruct (make_Impl_ok strerror time gettid (level_of m) (errno_of m errno) (SourceFile.of_array (FILE s)) (LINE s)
    g th u t1 Hc Hg Ht Hu Hr1 Hok1) as (th' & b & Hmk & Hb & Hc').
  rewrite Hmk. cbn [mbind outcome_bind _stream].
  destruct (puts_squeeze _ _ Hr2 b _ Hb Hok2) as (b2 & Hp & Hb2).
  rewrite Hp. cbn [mbind outcome_bind _level _line _basename].
  destruct (finish_ok (mk_impl b2 (level_of m) (LINE s) (SourceFile.of_array (FILE s))) s _ number Hb2 eq_refl eq_refl Hnum Hnok)
    as (b3 & Hf & _ & _ & Hs3).
  unfold destroy. rewrite Hf. cbn [mbind outcome_bind _stream _level]. rewrite Hs3, <-!foldl_app, app_assoc.
  rewrite (zip_with_app pair _ _ t1 t2) by (by apply Forall2_length in Hr1). rewrite <-!app_assoc. exists th'. split; [|done]. case_bool_decide; [|done].
  unfold record. cbn [events global_log_level global_output global_flush global_log_timezone mret outcome_ret]. by rewrite <-app_assoc.
Qed.

(** A statement with room for all of its text. *)
Lemma output_whole g time gettid u m s ops texts number : 0 < gettid < two_31 -> Forall2 renders ops texts ->
  len (concat texts) + len (basename (FILE s)) + len number <= 3850 ->
  output_text g time gettid u m s ops texts number = line g time gettid u m s texts number.
Proof.
  intros Hg Hr Hlen. pose proof (len_stamp g time u). pose proof (len_tid_text gettid Hg). destruct (level_name (level_of m)) as [_ Hll].
  assert ((zip ops texts ++ ending s number).*2 =
    texts ++ [lit " - "; basename (FILE s) ++ [SourceFile.NUL]; lit ":"; number; ["010"%char]]) as Hz.
  { rewrite fmap_app, snd_zip by (apply Forall2_length in Hr; lia). done. }
  unfold output_text. rewrite squeeze_all; rewrite Hz, concat_app; cbn [concat].
  - unfold line. rewrite app_nil_r, <-!app_assoc. done.
  - rewrite !len_app. change (len (lit " - ")) with 3.
    change (len (lit ":")) with 1. change (len [SourceFile.NUL]) with 1. change (len ["010"%char]) with 1. change (len []) with 0. lia.
Qed.
End statements.
End LogFacts.

(** ** Properties *)
Module LoggerTheorems.
Import Printf LogStream CivilTime FormatFacts TimeTextFacts TimeTextSpec Logger LogSpec LogFacts.

(** C25.  A log statement that is enabled makes exactly one call of the output
    function, with the time of the statement in the logger's zone, the thread
    id and the level, followed by those of these pieces, in order, for which
    the 4000-byte stream still has room, each whole (32 bytes for a number, its
    length and one more for a string): the error text for the [SYS] macros, the function name for [TRACE]
    and [DEBUG], the operands, the file, the line and a newline.  That is the
    whole line when the operands, the file name and the line number have at
    most 3850 bytes.  At level [FATAL], and only there, it then flushes
    and aborts.  The thread's caches of second and id keep their meaning, so
    the next statement's line is right too; a statement that is not enabled
    changes nothing. *)
Theorem log_statement_line `{CTime} strerror time gettid errno m s ops g th u texts number :
  cached g gettid th -> 0 < gettid < two_31 -> 1000000 <= time -> shows g (Z.quot time 1000000) u ->
  Forall2 renders (operands strerror m errno s ops) texts ->
  Forall LogStreamFacts.operand_ok (operands strerror m errno s ops) ->
  convert (LINE s) ⇓ number -> LogStreamFacts.operand_ok (Integer (LINE s)) ->
  exists g' th', statement strerror time gettid errno m s ops g th ⇓
      (g', th', enabled m g && bool_decide (level_of m = FATAL)) /\
    cached g' gettid th' /\
    events g' = events g ++
      (if enabled m g then
         Output (global_output g) (output_text g time gettid u m s (operands strerror m errno s ops) texts number) ::
         (if bool_decide (level_of m = FATAL) then [Flush (global_flush g)] else [])
       else []) /\
    (len (concat texts) + len (basename (FILE s)) + len number <= 3850 ->
     output_text g time gettid u m s (operands strerror m errno s ops) texts number = line g time gettid u m s texts number).
Proof.
  intros Hc Hg Ht Hu Hr Hok Hnum Hnok. pose proof (output_whole g time gettid u m s _ texts number Hg Hr) as Hline.
  destruct (enabled m g) eqn:He.
  - destruct (statement_ok strerror time gettid errno m s ops g th u texts number) as (th' & Hs & Hc'); [done..|].
    eexists _, th'. split; [exact Hs|]. split_and!; [by destruct Hc'|by rewrite events_record|done].
  - exists g, th. unfold statement. rewrite He, app_nil_r. done.
Qed.

Definition example_globals : globals := mk_globals INFO 0 0 TimeZone.invalid [].
Definition example_site : site := mk_site (lit "muduo/net/poll.cc") 42 (lit "poll").
Definition example_tm : tm := mk_tm 54 15 12 29 1 100 2 59 0 0 (Some (lit "GMT")).
Definition example_ops : list operand := [CString (Some (lit "fd ")); Integer 7].

Lemma log_statement_line_witness : exists g' th',
  statement (H := OwnTime.own_time) (fun _ => lit "Bad file descriptor") 951826554123456 1234 9 LOG_SYSFATAL example_site
    example_ops example_globals new_thread ⇓ (g', th', true) /\
  events g' = [Output 0 (lit "20000229 12:15:54.123456Z  1234 FATAL Bad file descriptor (errno=9) fd 7 - poll.cc" ++
    ["000"%char] ++ lit ":42" ++ ["010"%char]); Flush 0].
Proof.
  destruct (log_statement_line (H := OwnTime.own_time) (fun _ => lit "Bad file descriptor") 951826554123456 1234 9
    LOG_SYSFATAL example_site example_ops example_globals new_thread example_tm
    [lit "Bad file descriptor"; lit " (errno="; lit "9"; lit ") "; lit "fd "; lit "7"] (lit "42")) as (g' & th' & Hs & _ & He & _).
  - split; by intros [].
  - by vm_compute.
  - lia.
  - split; [vm_compute; reflexivity|]. split; [|by vm_compute]. split; [by vm_compute|]. split; [by vm_compute|]. by vm_compute.
  - repeat constructor; vm_compute; reflexivity.
  - repeat constructor; by vm_compute.
  - vm_compute. reflexivity.
  - by vm_compute.
  - exists g', th'. split; [exact Hs|]. rewrite He. vm_compute. reflexivity.
Defined.

(** The file name of a literal is streamed with its terminating NUL: every
    log line contains one. *)
Theorem log_line_contains_nul `{CTime} g time gettid u m s texts number :
  SourceFile.NUL ∈ line g time gettid u m s texts number.
Proof. unfold line. set_solver. Qed.

(** A name given as a pointer is cut at its first slash, not at its last. *)
Theorem pointer_keeps_directories :
  SourceFile.of_pointer (lit "muduo/net/poll.cc") = SourceFile.mk (lit "net/poll.cc" ++ [SourceFile.NUL]) 11 /\
  SourceFile.of_array (lit "muduo/net/poll.cc") = SourceFile.mk (lit "poll.cc" ++ [SourceFile.NUL]) 8.
Proof. done. Qed.

(** The cached second is not reset by [setTimeZone]: a second statement within
    the same second prints the old zone's time. *)
Theorem zone_change_is_late : exists g1 th1 g2 th2,
  let tz := TimeZone.fixed 3600 (lit "CET") in
  statement (H := OwnTime.own_time) (fun _ => []) 951826554000001 1234 0 LOG_WARN example_site [] example_globals new_thread
    ⇓ (g1, th1, false) /\
  statement (H := OwnTime.own_time) (fun _ => []) 951826554000002 1234 0 LOG_WARN example_site [] (setTimeZone tz g1) th1
    ⇓ (g2, th2, false) /\
  TimeZone.toLocalTime (H := OwnTime.own_time) tz 951826554 ⇓
    mk_tm 54 15 13 29 1 100 2 59 0 3600 (Some (lit "CET")) /\
  exists rest1 rest2, events g2 = [Output 0 (lit "20000229 12:15:54.000001Z " ++ rest1);
                                   Output 0 (lit "20000229 12:15:54.000002 " ++ rest2)].
Proof.
  eexists _, _, _, _. cbv zeta. split; [vm_compute; reflexivity|]. split; [vm_compute; reflexivity|].
  split; [vm_compute; reflexivity|]. eexists _, _. vm_compute. reflexivity.
Qed.
End LoggerTheorems.
