(* ===== verification/Monitors.v ===== *)
(** * Monitors: the blocking queues, the latch and the thread pool

    Models [BoundedBlockingQueue] ([src/muduo/base/BoundedBlockingQueue.h]),
    [BlockingQueue], [CountDownLatch] and [ThreadPool].  A thread that holds the
    mutex runs one critical section at a time: from acquiring the mutex to
    releasing it or to a [wait] on a condition variable.  Threads interleave
    in any order, [notify] wakes any one waiter, and a waiter may also wake
    for no reason, as POSIX allows. *)
From S2P Require Import Prelude.

Local Open Scope muduo_scope.

Inductive cond : Type := NotEmpty | NotFull.
Global Instance cond_eq_dec : EqDecision cond.
Proof. solve_decision. Defined.
Inductive signal : Type := NoSignal | Notify (c : cond) | NotifyAll (c : cond).

(** What a critical section does: it blocks, or it finishes with a new shared
    state, a signal and a result. *)
Inductive section (S R : Type) : Type :=
  | Blocked (c : cond)
  | Finished (s : S) (sg : signal) (r : R).
Arguments Blocked {S R} c.
Arguments Finished {S R} s sg r.

(** ** Threads around one mutex *)
Module Monitor.
Section monitor.
Context {S C R : Type}.
Context (body : C -> S -> outcome (section S R)).

Inductive thread : Type :=
  | Idle
  | Ready (call : C)                 (* wants the mutex *)
  | Waiting (c : cond) (call : C).   (* inside [wait] *)

Record state : Type := mk_state { shared : S; threads : list thread; log : list (C * R) }.

Definition wakes (c : cond) (t : thread) : bool :=
  match t with Waiting c' _ => bool_decide (c' = c) | _ => false end.
Definition wake (t : thread) : thread := match t with Waiting _ call => Ready call | _ => t end.

(** [notify] wakes the waiter [j]; if nobody waits, nothing happens. *)
Definition deliver (sg : signal) (j : nat) (ts : list thread) : list thread :=
  match sg with
  | NoSignal => ts
  | Notify c => match ts !! j with
                | Some t => if wakes c t then <[j := wake t]> ts else ts
                | None => ts
                end
  | NotifyAll c => (fun t => if wakes c t then wake t else t) <$> ts
  end.

Inductive op : Type :=
  | Call (i : nat) (call : C)
  | Run (i j : nat)              (* thread [i] runs; its [notify] wakes [j] *)
  | Spurious (i : nat).

Definition step (st : state) (o : op) : outcome state :=
  match o with
  | Call i call => mret (mk_state (shared st) (<[i := Ready call]> (threads st)) (log st))
  | Run i j =>
      match threads st !! i with
      | Some (Ready call) =>
          b ← body call (shared st);
          match b with
          | Blocked c => mret (mk_state (shared st) (<[i := Waiting c call]> (threads st)) (log st))
          | Finished s sg r => mret (mk_state s (deliver sg j (<[i := Idle]> (threads st))) (log st ++ [(call, r)]))
          end
      | _ => mret st
      end
  | Spurious i =>
      match threads st !! i with
      | Some t => mret (mk_state (shared st) (<[i := wake t]> (threads st)) (log st))
      | None => mret st
      end
  end.

(** The scheduler: idle threads call, threads that want the mutex get it, and a
    [notify] wakes a waiter if there is one. *)
Definition allowed (st : state) (o : op) : Prop :=
  match o with
  | Call i _ => threads st !! i = Some Idle
  | Run i j =>
      (exists call, threads st !! i = Some (Ready call) /\
       forall s c r, body call (shared st) ⇓ (Finished s (Notify c) r) ->
         (exists k t, threads st !! k = Some t /\ wakes c t = true) ->
         exists t, threads st !! j = Some t /\ wakes c t = true)
  | Spurious i => exists t, threads st !! i = Some t
  end.

Inductive reachable (init : state) : state -> Prop :=
  | reach_refl : reachable init init
  | reach_step st o st' : reachable init st -> allowed st o -> step st o ⇓ st' -> reachable init st'.
End monitor.
Arguments thread : clear implicits.
Arguments state : clear implicits.
Arguments op : clear implicits.
End Monitor.

Module BoundedBlockingQueue.
Section queue.
Context {T : Type} (capacity : nat).
Inductive call : Type := Put (x : T) | Take.

Definition put (x : T) (q : list T) : outcome (section (list T) (option T)) :=
  if bool_decide (length q = capacity) then mret (Blocked NotFull)
  else
    assert_ (bool_decide (length q < capacity)%nat);;
    mret (Finished (q ++ [x]) (Notify NotEmpty) None).

Definition take (q : list T) : outcome (section (list T) (option T)) :=
  match q with
  | [] => mret (Blocked NotEmpty)
  | x :: q' =>
      assert_ (bool_decide (q ≠ []));;
      mret (Finished q' (Notify NotFull) (Some x))
  end.

Definition full (q : list T) : bool := bool_decide (length q = capacity).
Definition empty (q : list T) : bool := bool_decide (length q = 0)%nat.
Definition size (q : list T) : nat := length q.
Definition get_capacity (q : list T) : nat := capacity.

Definition body (c : call) (q : list T) : outcome (section (list T) (option T)) :=
  match c with Put x => put x q | Take => take q end.
End queue.
Arguments call : clear implicits.
End BoundedBlockingQueue.

Module BlockingQueue.
Section queue.
Context {T : Type}.
Inductive call : Type := Put (x : T) | Take.

Definition put (x : T) (q : list T) : outcome (section (list T) (option T)) :=
  mret (Finished (q ++ [x]) (Notify NotEmpty) None).
Definition take (q : list T) : outcome (section (list T) (option T)) :=
  match q with
  | [] => mret (Blocked NotEmpty)
  | x :: q' =>
      assert_ (bool_decide (q ≠ []));;
      mret (Finished q' NoSignal (Some x))
  end.
Definition size (q : list T) : nat := length q.

Definition body (c : call) (q : list T) : outcome (section (list T) (option T)) :=
  match c with Put x => put x q | Take => take q end.
End queue.
Arguments call : clear implicits.
End BlockingQueue.

Module ThreadPool.
Definition task : Type := nat.
Record t : Type := mk { _queue : list task; _queue_capacity : nat; _running : bool }.

(** [Run]: [ThreadPool::run] with at least one thread; [Take]: the worker's
    [take]; [Stop]: the critical section of [stop]. *)
Inductive call : Type := Run (x : task) | Take | Stop.

Definition isFull (p : t) : bool := bool_decide (0 < _queue_capacity p <= length (_queue p))%nat.

Definition run (x : task) (p : t) : outcome (section t (option task)) :=
  if isFull p then mret (Blocked NotFull)
  else
    assert_ (negb (isFull p));;
    mret (Finished (mk (_queue p ++ [x]) (_queue_capacity p) (_running p)) (Notify NotEmpty) None).

Definition take (p : t) : outcome (section t (option task)) :=
  match _queue p with
  | [] => if _running p then mret (Blocked NotEmpty) else mret (Finished p NoSignal None)
  | x :: q =>
      mret (Finished (mk q (_queue_capacity p) (_running p))
                     (if bool_decide (0 < _queue_capacity p)%nat then Notify NotFull else NoSignal) (Some x))
  end.

Definition stop (p : t) : outcome (section t (option task)) :=
  mret (Finished (mk (_queue p) (_queue_capacity p) false) (NotifyAll NotEmpty) None).

Definition body (c : call) (p : t) : outcome (section t (option task)) :=
  match c with Run x => run x p | Take => take p | Stop => stop p end.
Definition queueSize (p : t) : nat := length (_queue p).
End ThreadPool.

Module CountDownLatch.
Local Open Scope Z_scope.
Inductive call : Type := Wait | CountDown.
Definition wait (count : Z) : outcome (section Z unit) :=
  if bool_decide (0 < count) then mret (Blocked NotEmpty) else mret (Finished count NoSignal tt).
Definition countDown (count : Z) : outcome (section Z unit) :=
  count ← checked32 (count - 1);
  mret (Finished count (if bool_decide (count = 0) then NotifyAll NotEmpty else NoSignal) tt).
Definition body (c : call) (count : Z) : outcome (section Z unit) :=
  match c with Wait => wait count | CountDown => countDown count end.
Definition getCount (count : Z) : Z := count.
End CountDownLatch.

(** ** Lemmas *)
Module MonitorFacts.
Import Monitor.

Definition count {A} (p : A -> bool) (l : list A) : nat := length (List.filter p l).
Definition one (b : bool) : nat := if b then 1 else 0.

Lemma count_insert {A} (p : A -> bool) l i a b :
  l !! i = Some a -> count p (<[i := b]> l) + one (p a) = count p l + one (p b).
Proof.
  revert i. induction l as [|x l IH]; intros [|i] Hi; simpl in Hi; simplify_eq; unfold count in *; simpl.
  - destruct (p a), (p b); simpl; lia.
  - specialize (IH i Hi). destruct (p x); simpl; lia.
Qed.

Lemma count_pos {A} (p : A -> bool) l : 0 < count p l <-> exists i a, l !! i = Some a /\ p a = true.
Proof.
  induction l as [|x l IH]; unfold count in *; simpl.
  - split; [lia|]. by intros (? & ? & ? & _).
  - destruct (p x) eqn:Hx; simpl.
    + split; [|lia]. intros _. by exists 0, x.
    + rewrite IH. split.
      * intros (i & a & Hi & Ha). by exists (S i), a.
      * intros ([|i] & a & Hi & Ha); simpl in Hi; simplify_eq; [congruence|]. by exists i, a.
Qed.

(** A thread that wants the mutex can run: there is a waiter to choose, or none. *)
Lemma section_enabled {S C R} (body : C -> S -> outcome (section S R)) st i call :
  threads st !! i = Some (Ready call) -> exists j, allowed body st (Monitor.Run i j).
Proof.
  intros Hi. destruct (body call (shared st)) as [[c|s [|c|c] r]|f] eqn:Hb;
    try (exists 0, call; split; [done|]; rewrite Hb; by intros ? ? ? [=]).
  destruct (count (wakes c) (threads st)) as [|n] eqn:Hc.
  - exists 0, call. split; [done|]. rewrite Hb. intros ? ? ? [= <- <- <-] (k & t & Hk & Ht).
    assert (0 < count (wakes c) (threads st)) by (apply count_pos; eauto). lia.
  - assert (0 < count (wakes c) (threads st)) as (k & t & Hk & Ht)%count_pos by lia.
    exists k, call. split; [done|]. rewrite Hb. intros ? ? ? [= <- <- <-] _. eauto.
Qed.

Section wake_up.
Context {S C R : Type} (body : C -> S -> outcome (section S R)).

(** What an allowed [notify] does once the running thread [i] is idle. *)
Lemma deliver_allowed st i j call s c r :
  allowed body st (Monitor.Run i j) -> threads st !! i = Some (Ready call) ->
  body call (shared st) ⇓ (Finished s (Notify c) r) ->
  let ts := <[i := Idle]> (threads st) in
  (deliver (Notify c) j ts = ts /\ count (wakes c) ts = 0) \/
  (exists call', ts !! j = Some (Waiting c call') /\ deliver (Notify c) j ts = <[j := Ready call']> ts).
Proof.
  intros (call' & Hi' & Hj) Hi Hb. rewrite Hi in Hi'. injection Hi' as <-. specialize (Hj s c r Hb). simpl.
  pose proof (lookup_lt_Some _ _ _ Hi) as Hlt.
  assert (forall k t, <[i := Idle]> (threads st) !! k = Some t -> wakes c t = true -> threads st !! k = Some t) as Hsame.
  { intros k t Hk Ht. destruct (decide (k = i)) as [->|]; [|by rewrite list_lookup_insert_ne in Hk].
    rewrite list_lookup_insert_eq in Hk by done. by injection Hk as <-. }
  destruct (count (wakes c) (<[i := Idle]> (threads st))) as [|n] eqn:Hc.
  - left. split; [|done]. case_match eqn:Hk; [|done]. case_match eqn:Hw; [|done].
    exfalso. assert (0 < count (wakes c) (<[i := Idle]> (threads st))) by (apply count_pos; eauto). lia.
  - right. assert (0 < count (wakes c) (<[i := Idle]> (threads st))) as (k & t & Hk & Ht)%count_pos by lia.
    destruct Hj as (tj & Hjt & Hjw); [by exists k, t; split; [apply Hsame|]|].
    assert (j <> i) as Hne by (intros ->; rewrite Hi in Hjt; by injection Hjt as <-).
    destruct tj as [|?|c' call']; simpl in Hjw; [done..|]. apply bool_decide_eq_true in Hjw as ->. exists call'.
    rewrite !list_lookup_insert_ne by done. split; [done|]. rewrite Hjt. simpl. by rewrite bool_decide_eq_true_2.
Qed.
End wake_up.
End MonitorFacts.

(** ** Properties *)
Module MonitorTheorems.
Import Monitor MonitorFacts.

Definition not_call {C} (o : op C) : Prop := match o with Call _ _ => False | _ => True end.

(** A pool of capacity [1] with one worker (thread [0]), a producer ([1]) and a
    thread that stops the pool ([2]). *)
Definition pool_start : state ThreadPool.t ThreadPool.call (option ThreadPool.task) :=
  mk_state (ThreadPool.mk [] 1 true) [Idle; Idle; Idle] [].
Definition pool_stopped : state ThreadPool.t ThreadPool.call (option ThreadPool.task) :=
  mk_state (ThreadPool.mk [2] 1 false) [Idle; Waiting NotFull (ThreadPool.Run 3); Idle]
    [(ThreadPool.Run 1, None); (ThreadPool.Take, Some 1); (ThreadPool.Run 2, None); (ThreadPool.Stop, None)].

Definition pool_state q run t0 t1 t2 l : state ThreadPool.t ThreadPool.call (option ThreadPool.task) :=
  mk_state (ThreadPool.mk q 1 run) [t0; t1; t2] l.

Lemma pool_call q run t0 t1 t2 l i c :
  [t0; t1; t2] !! i = Some Idle -> reachable ThreadPool.body pool_start (pool_state q run t0 t1 t2 l) ->
  reachable ThreadPool.body pool_start (mk_state (ThreadPool.mk q 1 run) (<[i := Ready c]> [t0; t1; t2]) l).
Proof. intros Hi Hr. by eapply (reach_step _ _ _ (Call i c)). Qed.

(** A run when nobody waits. *)
Lemma pool_run q run t0 t1 t2 l i c s' :
  [t0; t1; t2] !! i = Some (Ready c) -> reachable ThreadPool.body pool_start (pool_state q run t0 t1 t2 l) ->
  Forall (fun t : thread ThreadPool.call => match t with Waiting _ _ => False | _ => True end) [t0; t1; t2] ->
  step ThreadPool.body (pool_state q run t0 t1 t2 l) (Monitor.Run i 0) ⇓ s' ->
  reachable ThreadPool.body pool_start s'.
Proof.
  intros Hi Hr Hw Hs. eapply (reach_step _ _ _ (Monitor.Run i 0)); [exact Hr| |exact Hs].
  exists c. split; [done|]. intros s k r _ (j & t & Hj & Ht). exfalso.
  rewrite Forall_lookup in Hw. specialize (Hw j t Hj). by destruct t.
Qed.

Lemma pool_stopped_reachable : reachable ThreadPool.body pool_start pool_stopped.
Proof.
  assert (reachable ThreadPool.body pool_start (pool_state [1] true Idle Idle Idle [(ThreadPool.Run 1, None)])) as H1.
  { eapply (pool_run [] true Idle (Ready (ThreadPool.Run 1)) Idle [] 1); [done|apply (pool_call [] true Idle Idle Idle [] 1); [done|apply reach_refl]|by repeat constructor|done]. }
  assert (reachable ThreadPool.body pool_start (pool_state [] true Idle Idle Idle [(ThreadPool.Run 1, None); (ThreadPool.Take, Some 1)])) as H2.
  { eapply (pool_run [1] true (Ready ThreadPool.Take) Idle Idle _ 0); [done|apply (pool_call [1] true Idle Idle Idle _ 0); [done|exact H1]|by repeat constructor|done]. }
  assert (reachable ThreadPool.body pool_start (pool_state [2] true Idle Idle Idle
    [(ThreadPool.Run 1, None); (ThreadPool.Take, Some 1); (ThreadPool.Run 2, None)])) as H3.
  { eapply (pool_run [] true Idle (Ready (ThreadPool.Run 2)) Idle _ 1); [done|apply (pool_call [] true Idle Idle Idle _ 1); [done|exact H2]|by repeat constructor|done]. }
  assert (reachable ThreadPool.body pool_start (pool_state [2] true Idle (Waiting NotFull (ThreadPool.Run 3)) Idle
    [(ThreadPool.Run 1, None); (ThreadPool.Take, Some 1); (ThreadPool.Run 2, None)])) as H4.
  { eapply (pool_run [2] true Idle (Ready (ThreadPool.Run 3)) Idle _ 1); [done|apply (pool_call [2] true Idle Idle Idle _ 1); [done|exact H3]|by repeat constructor|done]. }
  eapply (reach_step _ _ _ (Monitor.Run 2 0)); 
    [eapply (pool_call [2] true Idle (Waiting NotFull (ThreadPool.Run 3)) Idle _ 2 ThreadPool.Stop); [done|exact H4]| |done].
  exists ThreadPool.Stop. split; [done|]. by intros s c r [=].
Qed.

(** [ThreadPool::stop] can strand a producer: a pool reaches a state in
    which [stop] has finished its critical section and every worker is out of
    [take], a queued task will never run, and the thread blocked in [run] on
    the full queue never returns, however the threads are scheduled and even
    if it wakes spuriously. *)
Theorem stop_strands_producer :
  reachable ThreadPool.body pool_start pool_stopped /\
  forall ops s, Forall not_call ops -> run_all (step ThreadPool.body) pool_stopped ops ⇓ s ->
    shared s = ThreadPool.mk [2] 1 false /\ log s = log pool_stopped /\
    (threads s !! 1 = Some (Waiting NotFull (ThreadPool.Run 3)) \/ threads s !! 1 = Some (Ready (ThreadPool.Run 3))).
Proof.
  split; [apply pool_stopped_reachable|]. intros ops s Hn Hrun.
  assert (forall ops t1 s, Forall not_call ops -> t1 = Waiting NotFull (ThreadPool.Run 3) \/ t1 = Ready (ThreadPool.Run 3) ->
    run_all (step ThreadPool.body) (mk_state (shared pool_stopped) [Idle; t1; Idle] (log pool_stopped)) ops ⇓ s ->
    exists t1', s = mk_state (shared pool_stopped) [Idle; t1'; Idle] (log pool_stopped) /\
      (t1' = Waiting NotFull (ThreadPool.Run 3) \/ t1' = Ready (ThreadPool.Run 3))) as Hstuck.
  { clear. intros ops. induction ops as [|o ops IH]; intros t1 s Hn Ht Hrun; [injection Hrun as <-; by exists t1|].
    inversion Hn as [|? ? Ho Hn']; subst. cbn [run_all] in Hrun.
    destruct o as [i c|[|[|[|i]]] j|[|[|[|i]]]]; [done|..]; simpl in Hrun;
      try (by apply (IH t1)); destruct Ht as [-> | ->]; simpl in Hrun; apply IH in Hrun; eauto. }
  destruct (Hstuck ops (Waiting NotFull (ThreadPool.Run 3)) s Hn) as (t1' & -> & Ht); [by left|done|].
  split_and!; [done..|]. simpl. destruct Ht as [-> | ->]; [by left|by right].
Qed.
End MonitorTheorems.
