(* ===== verification/Locks.v ===== *)
(** * Locks: the mutex and the condition variable

    Models [MutexLock], [MutexLockGuard] ([src/muduo/base/Mutex.h]) and
    [Condition] ([Condition.h], [Condition.cc]) around a POSIX mutex and
    condition variable, one call at a time, and proves that code which takes
    the mutex by a guard and waits in a loop runs as the atomic critical
    sections of [Monitors] say.  The ids of the threads are the kernel's. *)
From S2P Require Import Prelude Monitors.

Local Open Scope muduo_scope.

(** [CurrentThread::tid]: positive, and different for different threads. *)
Class ThreadIds : Type := {
  tid : nat -> Z;
  tid_pos i : (0 < tid i)%Z;
  tid_inj i j : tid i = tid j -> i = j }.

Module MutexLock.
Section lock.
Context `{ThreadIds}.
(** The thread that owns [_mutex], and [_holder]. *)
Record t : Type := mk { _mutex : option nat; _holder : Z }.
Definition init : t := mk None 0.

Definition unassignHolder (m : t) : t := mk (_mutex m) 0.
Definition assignHolder (i : nat) (m : t) : t := mk (_mutex m) (tid i).
Definition isLockedByThisThread (i : nat) (m : t) : bool := bool_decide (_holder m = tid i).
Definition assertLocked (i : nat) (m : t) : outcome unit := assert_ (isLockedByThisThread i m).

(** [pthread_mutex_lock] returns when the mutex is free; [pthread_mutex_unlock]
    by another thread than the owner is undefined. *)
Definition pthread_mutex_lock (i : nat) (m : t) : option t :=
  match _mutex m with None => Some (mk (Some i) (_holder m)) | Some _ => None end.
Definition pthread_mutex_unlock (i : nat) (m : t) : outcome t :=
  if bool_decide (_mutex m = Some i) then mret (mk None (_holder m)) else Fault Undefined.

(** The destructor: [pthread_mutex_destroy] of a locked mutex is an error, which
    [MCHECK] asserts away. *)
Definition destroy (m : t) : outcome unit :=
  assert_ (bool_decide (_holder m = 0)%Z);;
  assert_ (bool_decide (_mutex m = None)).
End lock.
End MutexLock.

(** ** Waiting with a time limit *)
Module Condition.
Local Open Scope Z_scope.
Definition k_nano_second_per_second : Z := 1000000000.

(** The time limit, from the clock's [tv_sec] and [tv_nsec] and from
    [static_cast<int64_t>(seconds * 1e9)]. *)
Definition abstime (now : Z * Z) (nano_seconds : Z) : outcome (Z * Z) :=
  n ← checked64 (now.2 + nano_seconds);
  sec ← checked64 (now.1 + Z.quot n k_nano_second_per_second);
  mret (sec, Z.rem n k_nano_second_per_second).

(** [pthread_cond_timedwait] on a condition variable made with the default
    attributes measures [CLOCK_REALTIME]: it refuses a malformed limit, is
    timed out at once by one that has passed, and sleeps otherwise. *)
Inductive timedwait : Type := Invalid | TimedOut | Sleeps.
Definition pthread_cond_timedwait (realtime limit : Z * Z) : timedwait :=
  if bool_decide (limit.2 < 0 \/ k_nano_second_per_second <= limit.2) then Invalid
  else if bool_decide (limit.1 < realtime.1 \/ (limit.1 = realtime.1 /\ limit.2 <= realtime.2)) then TimedOut
  else Sleeps.

(** The result, if the call does not sleep. *)
Definition waitForSeconds (monotonic realtime : Z * Z) (nano_seconds : Z) : outcome (option bool) :=
  limit ← abstime monotonic nano_seconds;
  mret (match pthread_cond_timedwait realtime limit with
        | Invalid => Some false
        | TimedOut => Some true
        | Sleeps => None
        end).

(** Nanoseconds since the clock's origin. *)
Definition nanos (t : Z * Z) : Z := t.1 * k_nano_second_per_second + t.2.
End Condition.

(** ** Threads that use one mutex

    Where a thread is inside [lock], [unlock] and [wait]: each is a system call
    and a change of [_holder], and other threads run in between. *)
Module LockedMonitor.
Section machine.
Context `{ThreadIds} {S C R : Type} (body : C -> S -> outcome (section S R)).

Inductive pc : Type :=
  | PIdle
  | PLock (c : C)                  (* [lock]: in [pthread_mutex_lock] *)
  | PAssign (c : C)                (* [lock]: before [assignHolder] *)
  | PInside (c : C)                (* holds the lock *)
  | PReturn                        (* holds the lock, before [~MutexLockGuard] *)
  | PUnlock                        (* [unlock]: before [pthread_mutex_unlock] *)
  | PWait (cd : cond) (c : C)      (* [wait]: before [pthread_cond_wait] *)
  | PSleep (cd : cond) (c : C)     (* [wait]: asleep *)
  | PWoken (c : C)                 (* [wait]: wants the mutex back *)
  | PReassign (c : C).             (* [wait]: before [~UnassignGuard] *)

Record state : Type := mk_state { lock : MutexLock.t; shared : S; pcs : list pc; log : list (C * R) }.

Definition sleeps (cd : cond) (p : pc) : bool := match p with PSleep cd' _ => bool_decide (cd' = cd) | _ => false end.
Definition woken (p : pc) : pc := match p with PSleep _ c => PWoken c | _ => p end.

(** [Condition::notify] and [notifyAll]. *)
Definition signal_pcs (sg : signal) (j : nat) (ps : list pc) : list pc :=
  match sg with
  | NoSignal => ps
  | Notify cd => match ps !! j with
                 | Some p => if sleeps cd p then <[j := woken p]> ps else ps
                 | None => ps
                 end
  | NotifyAll cd => (fun p => if sleeps cd p then woken p else p) <$> ps
  end.

Definition goto (s : state) (i : nat) (l : MutexLock.t) (p : pc) : state := mk_state l (shared s) (<[i := p]> (pcs s)) (log s).

(** The next step of the thread [i]; a step that blocks changes nothing. *)
Definition advance (i j : nat) (s : state) : outcome state :=
  match pcs s !! i with
  | Some (PLock c) => mret (match MutexLock.pthread_mutex_lock i (lock s) with Some l => goto s i l (PAssign c) | None => s end)
  | Some (PAssign c) => mret (goto s i (MutexLock.assignHolder i (lock s)) (PInside c))
  | Some (PInside c) =>
      MutexLock.assertLocked i (lock s);;
      b ← body c (shared s);
      match b with
      | Blocked cd => mret (goto s i (MutexLock.unassignHolder (lock s)) (PWait cd c))
      | Finished s' sg r => mret (mk_state (lock s) s' (signal_pcs sg j (<[i := PReturn]> (pcs s))) (log s ++ [(c, r)]))
      end
  | Some PReturn => mret (goto s i (MutexLock.unassignHolder (lock s)) PUnlock)
  | Some PUnlock => l ← MutexLock.pthread_mutex_unlock i (lock s); mret (goto s i l PIdle)
  | Some (PWait cd c) => l ← MutexLock.pthread_mutex_unlock i (lock s); mret (goto s i l (PSleep cd c))
  | Some (PWoken c) => mret (match MutexLock.pthread_mutex_lock i (lock s) with Some l => goto s i l (PReassign c) | None => s end)
  | Some (PReassign c) => mret (goto s i (MutexLock.assignHolder i (lock s)) (PInside c))
  | _ => mret s
  end.

Inductive move : Type := Call (i : nat) (c : C) | Advance (i j : nat) | Spurious (i : nat).
Definition step (s : state) (m : move) : outcome state :=
  match m with
  | Call i c => mret (goto s i (lock s) (PLock c))
  | Advance i j => advance i j s
  | Spurious i => mret (match pcs s !! i with Some p => goto s i (lock s) (woken p) | None => s end)
  end.

(** Threads call when they are idle, and [notify] wakes a sleeper if there is
    one. *)
Definition allowed (s : state) (m : move) : Prop :=
  match m with
  | Call i _ => pcs s !! i = Some PIdle
  | Advance i j =>
      is_Some (pcs s !! i) /\
      forall c s' cd r, pcs s !! i = Some (PInside c) -> body c (shared s) ⇓ Finished s' (Notify cd) r ->
        (exists k p, pcs s !! k = Some p /\ sleeps cd p = true) -> exists p, pcs s !! j = Some p /\ sleeps cd p = true
  | Spurious i => is_Some (pcs s !! i)
  end.

Inductive reachable (s0 : state) : state -> Prop :=
  | reach_refl : reachable s0 s0
  | reach_step s m s' : reachable s0 s -> allowed s m -> step s m ⇓ s' -> reachable s0 s'.

Definition init (s : S) (n : nat) : state := mk_state MutexLock.init s (replicate n PIdle) [].
End machine.
Arguments pc : clear implicits.
Arguments state : clear implicits.
Arguments move : clear implicits.
End LockedMonitor.

(** ** Specification *)
Module LockSpec.
Import LockedMonitor.
Section spec.
Context `{ThreadIds} {S C R : Type}.

(** The thread of [Monitors] that a program counter stands for. *)
Definition thread_of (p : pc C) : Monitor.thread C :=
  match p with
  | PIdle | PReturn | PUnlock => Monitor.Idle
  | PLock c | PAssign c | PInside c | PWoken c | PReassign c => Monitor.Ready c
  | PWait cd c | PSleep cd c => Monitor.Waiting cd c
  end.
Definition monitor_of (s : state S C R) : Monitor.state S C R := Monitor.mk_state (shared s) (thread_of <$> pcs s) (log s).

(** Owns the POSIX mutex; is between [assignHolder] and [unassignHolder]. *)
Definition owns (p : pc C) : bool :=
  match p with PAssign _ | PInside _ | PReturn | PUnlock | PWait _ _ | PReassign _ => true | _ => false end.
Definition holds (p : pc C) : bool := match p with PInside _ | PReturn => true | _ => false end.
End spec.
End LockSpec.

Module LockFacts.
Import LockedMonitor LockSpec.
Section facts.
Context `{ThreadIds} {S C R : Type} (body : C -> S -> outcome (section S R)).
Abbreviation st := (LockedMonitor.state S C R).

Definition flags (ps : list (pc C)) : list (bool * bool) := (fun p => (owns p, holds p)) <$> ps.

(** The mutex and [_holder] say who owns and who holds. *)
Record lock_ok (l : MutexLock.t) (fs : list (bool * bool)) : Prop := {
  ok_owner i f : fs !! i = Some f -> f.1 = true -> MutexLock._mutex l = Some i;
  ok_mutex i : MutexLock._mutex l = Some i -> exists f, fs !! i = Some f /\ f.1 = true;
  ok_holder i f : fs !! i = Some f -> f.2 = true -> MutexLock._holder l = tid i /\ f.1 = true;
  ok_zero : MutexLock._holder l = 0%Z \/ exists i f, fs !! i = Some f /\ f.2 = true }.
Definition inv (s : st) : Prop := lock_ok (lock s) (flags (pcs s)).

Lemma flags_lookup ps i p : ps !! i = Some p -> flags ps !! i = Some (owns p, holds p).
Proof. intros Hi. unfold flags. by rewrite list_lookup_fmap, Hi. Qed.

Lemma flags_insert ps (i : nat) p : flags (<[i := p]> ps) = <[i := (owns p, holds p)]> (flags ps).
Proof. unfold flags. by rewrite list_fmap_insert. Qed.

(** A signal wakes sleepers, who neither own nor hold before or after. *)
Lemma flags_signal sg j ps : flags (signal_pcs sg j ps) = flags ps.
Proof.
  destruct sg as [|cd|cd]; simpl; [done| |].
  - destruct (ps !! j) as [p|] eqn:Hj; [|done]. destruct (sleeps cd p) eqn:Hs; [|done]. rewrite flags_insert.
    apply list_insert_id. rewrite (flags_lookup _ _ _ Hj). by destruct p.
  - unfold flags. rewrite <-list_fmap_compose. apply list_fmap_ext. intros k p _. simpl. destruct (sleeps cd p) eqn:Hs; [|done]. by destruct p.
Qed.

(** The thread [i] owns the mutex or it is free; then it owns or frees it. *)
Lemma lock_ok_owner l l' fs i (f f' : bool * bool) : lock_ok l fs -> fs !! i = Some f -> f.1 = true \/ MutexLock._mutex l = None ->
  MutexLock._mutex l' = (if f'.1 then Some i else None) -> MutexLock._holder l' = (if f'.2 then tid i else 0%Z) ->
  (f'.2 = true -> f'.1 = true) -> lock_ok l' (<[i := f']> fs).
Proof.
  intros [Ho Hm Hh Hz] Hi Hown Hm' Hh' Hff.
  assert (forall k g, <[i := f']> fs !! k = Some g -> g.1 = true -> k = i /\ g = f') as Honly.
  { intros k g [(<- & <- & _)|[Hne Hk]]%list_lookup_insert_Some Hg; [done|]. pose proof (Ho k g Hk Hg).
    destruct Hown as [Hf|Hn]; [|congruence]. pose proof (Ho i f Hi Hf). congruence. }
  assert (<[i := f']> fs !! i = Some f') as Hii by (apply list_lookup_insert_eq; by eapply lookup_lt_Some).
  split.
  - intros k g Hk Hg. destruct (Honly k g Hk Hg) as [-> ->]. by rewrite Hm', Hg.
  - intros k Hk. rewrite Hm' in Hk. destruct (f'.1) eqn:Hf'; simplify_eq. eauto.
  - intros k g Hk Hg. assert (g.1 = true) as Hg1.
    { pose proof Hk as [(<- & <- & _)|[_ Hk']]%list_lookup_insert_Some; [by apply Hff|]. by apply (Hh k g). }
    destruct (Honly k g Hk Hg1) as [-> ->]. by rewrite Hh', Hg.
  - destruct (f'.2) eqn:Hf2; [right; eauto|by left].
Qed.

Lemma inv_goto s i p p' l : inv s -> pcs s !! i = Some p -> owns p = true \/ MutexLock._mutex (lock s) = None ->
  MutexLock._mutex l = (if owns p' then Some i else None) -> MutexLock._holder l = (if holds p' then tid i else 0%Z) -> inv (goto s i l p').
Proof.
  intros Hinv Hi Hown Hm Hh. unfold inv, goto. cbn [lock pcs]. rewrite flags_insert.
  eapply lock_ok_owner; [exact Hinv|by apply flags_lookup|done|done|done|by destruct p'].
Qed.

Lemma inv_stay s i p p' : inv s -> pcs s !! i = Some p -> owns p' = owns p -> holds p' = holds p -> inv (goto s i (lock s) p').
Proof.
  intros Hinv Hi Ho Hh. unfold inv, goto. cbn [lock pcs]. rewrite flags_insert, Ho, Hh. rewrite list_insert_id; [done|by apply flags_lookup].
Qed.

Lemma owner_mutex s i p : inv s -> pcs s !! i = Some p -> owns p = true -> MutexLock._mutex (lock s) = Some i.
Proof. intros Hinv Hi Ho. apply (ok_owner _ _ Hinv i (owns p, holds p)); [by apply flags_lookup|done]. Qed.

Lemma holder_tid s i p : inv s -> pcs s !! i = Some p -> holds p = true -> MutexLock._holder (lock s) = tid i.
Proof. intros Hinv Hi Ho. destruct (ok_holder _ _ Hinv i (owns p, holds p)); [by apply flags_lookup|done|done]. Qed.

(** A thread that owns the mutex and does not hold: nobody holds. *)
Lemma holder_zero s i p : inv s -> pcs s !! i = Some p -> owns p = true -> holds p = false -> MutexLock._holder (lock s) = 0%Z.
Proof.
  intros Hinv Hi Ho Hh. destruct (ok_zero _ _ Hinv) as [|(k & f & Hk & Hf)]; [done|].
  destruct (ok_holder _ _ Hinv k f Hk Hf) as [_ Hf1]. pose proof (ok_owner _ _ Hinv k f Hk Hf1) as Hm.
  rewrite (owner_mutex _ _ _ Hinv Hi Ho) in Hm. injection Hm as <-. rewrite (flags_lookup _ _ _ Hi) in Hk. injection Hk as <-. simpl in Hf. congruence.
Qed.

Lemma free_zero s : inv s -> MutexLock._mutex (lock s) = None -> MutexLock._holder (lock s) = 0%Z.
Proof.
  intros Hinv Hn. destruct (ok_zero _ _ Hinv) as [|(k & f & Hk & Hf)]; [done|].
  destruct (ok_holder _ _ Hinv k f Hk Hf) as [_ Hf1]. pose proof (ok_owner _ _ Hinv k f Hk Hf1). congruence.
Qed.

(** ** The simulation *)
Lemma monitor_goto (s : st) i l p : monitor_of (goto s i l p) =
  Monitor.mk_state (shared s) (<[i := thread_of p]> (Monitor.threads (monitor_of s))) (log s).
Proof. unfold monitor_of, goto. cbn [shared pcs log Monitor.threads]. by rewrite list_fmap_insert. Qed.

Lemma monitor_same (s : st) i l p p' : pcs s !! i = Some p -> thread_of p' = thread_of p -> monitor_of (goto s i l p') = monitor_of s.
Proof.
  intros Hi Ht. rewrite monitor_goto, Ht. unfold monitor_of. cbn [Monitor.threads]. rewrite list_insert_id; [done|].
  by rewrite list_lookup_fmap, Hi.
Qed.

Lemma monitor_lookup (s : st) i p : pcs s !! i = Some p -> Monitor.threads (monitor_of s) !! i = Some (thread_of p).
Proof. intros Hi. unfold monitor_of. cbn [Monitor.threads]. by rewrite list_lookup_fmap, Hi. Qed.

(** With nobody between [unassignHolder] and [pthread_cond_wait], a signal finds
    the waiters asleep. *)
Lemma signal_deliver sg j (ps : list (pc C)) : (forall k cd c, ps !! k <> Some (PWait cd c)) ->
  thread_of <$> signal_pcs sg j ps = Monitor.deliver sg j (thread_of <$> ps).
Proof.
  intros Hn. assert (forall k cd p, ps !! k = Some p -> Monitor.wakes cd (thread_of p) = sleeps cd p /\
    (sleeps cd p = true -> thread_of (woken p) = Monitor.wake (thread_of p))) as Hsame.
  { intros k cd p Hk. destruct p; try done. by apply Hn in Hk. }
  destruct sg as [|cd|cd]; simpl; [done| |].
  - rewrite list_lookup_fmap. destruct (ps !! j) as [p|] eqn:Hj; [|done]. simpl. destruct (Hsame j cd p Hj) as [-> Hw].
    destruct (sleeps cd p) eqn:Hs; [|done]. by rewrite list_fmap_insert, Hw.
  - rewrite <-!list_fmap_compose. apply list_fmap_ext. intros k p Hk. simpl. destruct (Hsame k cd p Hk) as [-> Hw].
    destruct (sleeps cd p) eqn:Hs; [by apply Hw|done].
Qed.

(** While a thread is inside, no other is before [pthread_cond_wait]. *)
Lemma inside_no_wait s i p k cd c : inv s -> pcs s !! i = Some p -> holds p = true -> pcs s !! k <> Some (PWait cd c).
Proof.
  intros Hinv Hi Hh Hk. pose proof (owner_mutex _ _ _ Hinv Hk eq_refl) as Hm.
  rewrite (owner_mutex s i p Hinv Hi) in Hm by (by destruct p). injection Hm as ->. rewrite Hk in Hi. by injection Hi as <-.
Qed.

(** What a step does to the monitor: nothing, or an allowed step of it. *)
Definition simulates (s s' : st) : Prop :=
  monitor_of s' = monitor_of s \/
  exists o, Monitor.allowed body (monitor_of s) o /\ Monitor.step body (monitor_of s) o ⇓ monitor_of s'.

(** The critical section itself. *)
Lemma inside_step s i j c : inv s -> pcs s !! i = Some (PInside c) -> allowed body s (Advance i j) ->
  (exists b, body c (shared s) ⇓ b) -> exists s', advance body i j s ⇓ s' /\ inv s' /\ simulates s s'.
Proof.
  intros Hinv Hi [_ Ha] [b Hb]. unfold advance. rewrite Hi. unfold MutexLock.assertLocked, MutexLock.isLockedByThisThread.
  rewrite bool_decide_true by (by eapply holder_tid). cbn [assert_ mbind outcome_bind]. rewrite Hb. cbn [mbind outcome_bind].
  pose proof (owner_mutex _ _ _ Hinv Hi eq_refl) as Hm. pose proof (holder_tid _ _ _ Hinv Hi eq_refl) as Hh.
  assert (forall k cd c, pcs s !! k <> Some (PWait cd c)) as Hnw by (intros; by eapply inside_no_wait).
  assert (Monitor.allowed body (monitor_of s) (Monitor.Run i j)) as Hal.
  { exists c. split; [by rewrite (monitor_lookup _ _ _ Hi)|]. intros s' cd r Hf (k & t & Hk & Ht).
    unfold monitor_of in Hk. cbn [Monitor.threads] in Hk. rewrite list_lookup_fmap in Hk. destruct (pcs s !! k) as [p|] eqn:Hkp; simplify_eq/=.
    destruct (Ha c s' cd r Hi Hf) as (q & Hq & Hs); [exists k, p; split; [done|]; destruct p; try done; by apply Hnw in Hkp|].
    exists (thread_of q). split; [by apply monitor_lookup|]. by destruct q. }
  destruct b as [cd|s' sg r]; (eexists; split; [done|]); (split; [|right; exists (Monitor.Run i j); split; [done|];
    cbn [Monitor.step]; rewrite (monitor_lookup _ _ _ Hi); cbn [thread_of]; cbn [monitor_of Monitor.shared]; rewrite Hb; cbn [mbind outcome_bind]]).
  - eapply inv_goto; [done|done|by left|done|done].
  - by rewrite monitor_goto.
  - unfold inv. cbn [lock pcs]. rewrite flags_signal, flags_insert.
    eapply lock_ok_owner; [exact Hinv|by apply flags_lookup|by left|done|done|done].
  - unfold monitor_of. cbn [shared pcs log Monitor.threads Monitor.log]. rewrite signal_deliver, list_fmap_insert; [done|].
    intros k cd c' [(_ & [=] & _)|[_ Hk]]%list_lookup_insert_Some. by apply Hnw in Hk.
Qed.

(** Taking the mutex, to enter or after a [wait]. *)
Lemma lock_step s i p p' : inv s -> pcs s !! i = Some p -> owns p' = true -> holds p' = false -> thread_of p' = thread_of p ->
  let s' := match MutexLock.pthread_mutex_lock i (lock s) with Some l => goto s i l p' | None => s end in
  inv s' /\ simulates s s'.
Proof.
  intros Hinv Hi Ho Hh Ht. unfold MutexLock.pthread_mutex_lock. destruct (MutexLock._mutex (lock s)) eqn:Hm; [split; [done|by left]|].
  split; [|left; by eapply monitor_same]. eapply inv_goto; [done|done|by right|by rewrite Ho|]. rewrite Hh. cbn [MutexLock._holder]. by apply free_zero.
Qed.

(** A change of [_holder] by the owner. *)
Lemma holder_step s i p p' l : inv s -> pcs s !! i = Some p -> owns p = true -> owns p' = true -> thread_of p' = thread_of p ->
  l = (if holds p' then MutexLock.assignHolder i (lock s) else MutexLock.unassignHolder (lock s)) ->
  inv (goto s i l p') /\ simulates s (goto s i l p').
Proof.
  intros Hinv Hi Ho Ho' Ht ->. pose proof (owner_mutex _ _ _ Hinv Hi Ho) as Hm. split; [|left; by eapply monitor_same].
  eapply inv_goto; [done|done|by left| |]; rewrite ?Ho'; by destruct (holds p').
Qed.

(** Giving the mutex back, to leave or to sleep. *)
Lemma unlock_step s i p p' : inv s -> pcs s !! i = Some p -> owns p = true -> holds p = false -> owns p' = false -> holds p' = false ->
  thread_of p' = thread_of p -> exists l, MutexLock.pthread_mutex_unlock i (lock s) ⇓ l /\ inv (goto s i l p') /\ simulates s (goto s i l p').
Proof.
  intros Hinv Hi Ho Hh Ho' Hh' Ht. pose proof (owner_mutex _ _ _ Hinv Hi Ho) as Hm. unfold MutexLock.pthread_mutex_unlock.
  rewrite bool_decide_true by done. eexists. split; [done|]. split; [|left; by eapply monitor_same].
  eapply inv_goto; [done|done|by left|by rewrite Ho'|]. rewrite Hh'. cbn [MutexLock._holder]. by eapply holder_zero.
Qed.

Lemma locked_step s m : inv s -> allowed body s m -> (forall i j c, m = Advance i j -> pcs s !! i = Some (PInside c) -> exists b, body c (shared s) ⇓ b) ->
  exists s', step body s m ⇓ s' /\ inv s' /\ simulates s s'.
Proof.
  intros Hinv Ha Hbody. destruct m as [i c|i j|i]; cbn [step].
  - simpl in Ha. eexists. split; [done|]. split; [by eapply inv_stay|]. right. exists (Monitor.Call i c).
    split; [cbn [Monitor.allowed]; by rewrite (monitor_lookup _ _ _ Ha)|]. cbn [Monitor.step]. by rewrite monitor_goto.
  - pose proof Ha as [[p Hi] _]. destruct p as [|c|c|c| | |cd c|cd c|c|c].
    4: by eapply inside_step; eauto.
    all: unfold advance; rewrite Hi.
    + eexists. split; [done|]. split; [done|by left].
    + eexists. split; [done|]. by eapply lock_step.
    + eexists. split; [done|]. by eapply holder_step.
    + eexists. split; [done|]. by eapply holder_step.
    + destruct (unlock_step s i PUnlock PIdle) as (l & -> & Hl); [done..|]. eexists. split; [done|exact Hl].
    + destruct (unlock_step s i (PWait cd c) (PSleep cd c)) as (l & -> & Hl); [done..|]. eexists. split; [done|exact Hl].
    + eexists. split; [done|]. split; [done|by left].
    + eexists. split; [done|]. by eapply lock_step.
    + eexists. split; [done|]. by eapply holder_step.
  - destruct Ha as [p Hi]. rewrite Hi. eexists. split; [done|]. split; [by eapply inv_stay; [..|destruct p|destruct p]|].
    destruct p as [|c|c|c| | |cd c|cd c|c|c]; try (left; by eapply monitor_same).
    right. exists (Monitor.Spurious i). split; [eexists; by rewrite (monitor_lookup _ _ _ Hi)|].
    cbn [Monitor.step]. by rewrite (monitor_lookup _ _ _ Hi), monitor_goto.
Qed.

(** A step that completed ran a section that completed. *)
Lemma step_body s m s' : step body s m ⇓ s' -> forall i j c, m = Advance i j -> pcs s !! i = Some (PInside c) -> exists b, body c (shared s) ⇓ b.
Proof.
  intros Hs i j c -> Hi. cbn [step] in Hs. unfold advance in Hs. rewrite Hi in Hs.
  destruct (MutexLock.assertLocked i (lock s)); [|done]. destruct (body c (shared s)) as [b|]; [by exists b|done].
Qed.

Lemma locked_init s n : inv (init s n).
Proof.
  assert (forall i f, flags (replicate n PIdle) !! i = Some f -> f = (false, false)) as Hf.
  { intros i f. unfold flags. rewrite list_lookup_fmap. destruct (replicate n PIdle !! i) as [p|] eqn:Hp; [|done].
    apply lookup_replicate in Hp as [-> _]. by intros [= <-]. }
  split; cbn [lock init pcs MutexLock.init MutexLock._mutex MutexLock._holder]; [..|by left].
  - intros i f Hi Ht. by rewrite (Hf i f Hi) in Ht.
  - done.
  - intros i f Hi Ht. by rewrite (Hf i f Hi) in Ht.
Qed.

Lemma locked_reachable s0 n s : reachable body (init s0 n) s ->
  inv s /\ Monitor.reachable body (Monitor.mk_state s0 (replicate n Monitor.Idle) []) (monitor_of s).
Proof.
  induction 1 as [|s m s' _ [IH IHm] Ha Hs].
  - split; [apply locked_init|]. replace (monitor_of (init s0 n)) with (Monitor.mk_state s0 (replicate n (@Monitor.Idle C)) (@nil (C * R))); [apply Monitor.reach_refl|].
    unfold monitor_of, init. cbn [shared pcs log]. by rewrite fmap_replicate.
  - destruct (locked_step s m IH Ha (step_body _ _ _ Hs)) as (s2 & Hs2 & Hinv & Hsim). rewrite Hs in Hs2. injection Hs2 as <-.
    split; [done|]. destruct Hsim as [->|(o & Hal & Hst)]; [done|]. by eapply Monitor.reach_step.
Qed.
End facts.
End LockFacts.

(** ** Properties *)
Module LockTheorems.
Import LockedMonitor LockSpec LockFacts.

(** C27.  [MutexLock], [MutexLockGuard] and [Condition] implement the monitor: the
    threads that use them, one system call or assignment at a time, only reach
    states that the atomic critical sections of [Monitors] reach.  At most one
    thread owns the mutex; [isLockedByThisThread] is true of a thread exactly
    while it is inside, also for the threads that read [_holder] without the
    lock; no unlock and no [assertLocked] fails, and the mutex can be
    destroyed when all threads are out. *)
Theorem locks_implement_monitors `{ThreadIds} {S C R} (body : C -> S -> outcome (section S R)) s0 n s :
  reachable body (init s0 n) s ->
  Monitor.reachable body (Monitor.mk_state s0 (replicate n Monitor.Idle) []) (monitor_of s) /\
  (forall i j p q, pcs s !! i = Some p -> pcs s !! j = Some q -> owns p = true -> owns q = true -> i = j) /\
  (forall i p, pcs s !! i = Some p -> MutexLock.isLockedByThisThread i (lock s) = holds p) /\
  (forall m, allowed body s m -> (forall c, exists b, body c (shared s) ⇓ b) -> exists s', step body s m ⇓ s') /\
  (Forall (eq PIdle) (pcs s) -> MutexLock.destroy (lock s) ⇓ tt).
Proof.
  intros Hr. destruct (locked_reachable body s0 n s Hr) as [Hinv Hm]. split_and!; [done| | | |].
  - intros i j p q Hi Hj Hp Hq. pose proof (owner_mutex _ _ _ Hinv Hi Hp). pose proof (owner_mutex _ _ _ Hinv Hj Hq). congruence.
  - intros i p Hi. unfold MutexLock.isLockedByThisThread. destruct (holds p) eqn:Hh; [by rewrite bool_decide_true by (by eapply holder_tid)|].
    apply bool_decide_false. intros Ht. destruct (ok_zero _ _ Hinv) as [Hz|(k & f & Hk & Hf)]; [pose proof (tid_pos i); lia|].
    destruct (ok_holder _ _ Hinv k f Hk Hf) as [Htk _]. rewrite Ht in Htk. apply tid_inj in Htk as <-.
    rewrite (flags_lookup _ _ _ Hi) in Hk. injection Hk as <-. simpl in Hf. congruence.
  - intros m Ha Hb. destruct (locked_step body s m Hinv Ha) as (s' & Hs & _); eauto.
  - intros Hall. rewrite Forall_lookup in Hall. assert (MutexLock._mutex (lock s) = None) as Hn.
    { destruct (MutexLock._mutex (lock s)) as [i|] eqn:Hi; [|done]. destruct (ok_mutex _ _ Hinv i Hi) as (f & Hf & Hf1).
      unfold flags in Hf. rewrite list_lookup_fmap in Hf. destruct (pcs s !! i) as [p|] eqn:Hp; [|done]. by rewrite <-(Hall i p Hp) in *; simplify_eq/=. }
    unfold MutexLock.destroy. rewrite (free_zero _ Hinv Hn), Hn. done.
Qed.

(** Thread ids as a fresh process gives them out. *)
Definition small_ids : ThreadIds.
Proof. refine {| tid i := (Z.of_nat i + 1)%Z |}; intros; lia. Defined.

Lemma locks_implement_monitors_witness :
  let s := mk_state (MutexLock.mk (Some 0) 1) 0%Z [PInside CountDownLatch.Wait; PIdle] [] in
  Monitor.reachable CountDownLatch.body (Monitor.mk_state 0%Z (replicate 2 Monitor.Idle) []) (monitor_of s) /\
  (forall i j p q, pcs s !! i = Some p -> pcs s !! j = Some q -> owns p = true -> owns q = true -> i = j) /\
  (forall i p, pcs s !! i = Some p -> MutexLock.isLockedByThisThread (H := small_ids) i (lock s) = holds p) /\
  (forall m, allowed CountDownLatch.body s m -> (forall c, exists b, CountDownLatch.body c (shared s) ⇓ b) ->
     exists s', step (H := small_ids) CountDownLatch.body s m ⇓ s') /\
  (Forall (eq PIdle) (pcs s) -> MutexLock.destroy (lock s) ⇓ tt).
Proof.
  apply (locks_implement_monitors (H := small_ids) CountDownLatch.body 0%Z 2).
  eapply (reach_step (H := small_ids) _ _ (mk_state (MutexLock.mk (Some 0) 0) 0%Z [PAssign CountDownLatch.Wait; PIdle] []) (Advance 0 0));
    [|split; [by eexists|by intros c s' cd r [=]]|done].
  eapply (reach_step (H := small_ids) _ _ (mk_state MutexLock.init 0%Z [PLock CountDownLatch.Wait; PIdle] []) (Advance 0 0));
    [|split; [by eexists|by intros c s' cd r [=]]|done].
  by eapply (reach_step (H := small_ids) _ _ (init 0%Z 2) (Call 0 CountDownLatch.Wait)); [apply reach_refl|..].
Defined.

Section timed.
Import Condition.
Local Open Scope Z_scope.

(** The limit is the clock's time and the seconds asked for. *)
Lemma abstime_exact now nano_seconds : 0 <= now.1 < two_31 -> 0 <= now.2 < k_nano_second_per_second -> 0 <= nano_seconds < two_63 - two_31 ->
  exists limit, abstime now nano_seconds ⇓ limit /\ nanos limit = nanos now + nano_seconds /\ 0 <= limit.2 < k_nano_second_per_second.
Proof.
  unfold abstime, nanos, k_nano_second_per_second. intros Hs Hn Hd. pose proof (Z.quot_rem' (now.2 + nano_seconds) 1000000000) as Hqr.
  pose proof (Z.rem_bound_pos (now.2 + nano_seconds) 1000000000 ltac:(lia) ltac:(lia)) as Hr.
  pose proof (Z.quot_pos (now.2 + nano_seconds) 1000000000 ltac:(lia) ltac:(lia)) as Hq.
  rewrite checked64_ok by (unfold int64_range, two_63, two_31 in *; lia). cbn [mbind outcome_bind].
  rewrite checked64_ok by (unfold int64_range, two_63, two_31 in *; lia). cbn [mbind outcome_bind].
  eexists. split; [done|]. cbn [fst snd]. lia.
Qed.

(** [waitForSeconds] takes the time from [CLOCK_MONOTONIC], which starts when the
    machine does, and waits on [CLOCK_REALTIME], which started in 1970: a limit
    that is not decades away has always passed, and the call reports a time-out
    without waiting. *)
Theorem waitForSeconds_never_waits monotonic realtime nano_seconds :
  0 <= monotonic.1 < two_31 -> 0 <= monotonic.2 < k_nano_second_per_second -> 0 <= realtime.2 < k_nano_second_per_second ->
  0 <= nano_seconds < two_63 - two_31 -> nanos monotonic + nano_seconds <= nanos realtime ->
  waitForSeconds monotonic realtime nano_seconds ⇓ Some true.
Proof.
  intros Hs Hn Hr Hd Hle. destruct (abstime_exact monotonic nano_seconds Hs Hn Hd) as (limit & Hl & He & Hb).
  unfold waitForSeconds. rewrite Hl. cbn [mbind outcome_bind]. unfold pthread_cond_timedwait.
  rewrite bool_decide_false by lia. rewrite bool_decide_true; [done|]. unfold nanos, k_nano_second_per_second in *. lia.
Qed.

(** A day after boot, in 2020, asked to wait for an hour. *)
Lemma waitForSeconds_never_waits_witness : waitForSeconds (86400, 0) (1577836800, 0) 3600000000000 ⇓ Some true.
Proof. apply waitForSeconds_never_waits; by vm_compute. Defined.
End timed.
End LockTheorems.
