(* ===== verification/Singletons.v ===== *)
(** * Singletons: one object per process, one object per thread

    Models [Singleton] ([src/muduo/base/Singleton.h]), [ThreadLocal]
    ([ThreadLocal.h]) and [ThreadLocalSingleton] ([ThreadLocalSingleton.h]).
    Objects are numbers in order of construction; threads are numbers.
    [pthread_once] runs its function once; a pthread key maps threads to
    values, and when a thread ends its value is taken out and passed to the
    key's destructor. *)
From stdpp Require Import gmap.
From S2P Require Import Prelude.

Local Open Scope muduo_scope.

(** What was constructed and what was deleted. *)
Record heap : Type := mk_heap { created : nat; deleted : list nat }.
Definition empty_heap : heap := mk_heap 0 [].
Definition new_object (h : heap) : nat * heap := (created h, mk_heap (S (created h)) (deleted h)).
Definition delete_object (x : nat) (h : heap) : heap := mk_heap (created h) (deleted h ++ [x]).

Module Singleton.
Section singleton.
(** [detial::has_no_destroy<T>::value]. *)
Context (has_no_destroy : bool).
Record t : Type := mk { _ponce : bool; _value : option nat; at_exit : bool; objects : heap }.
Definition make : t := mk false None false empty_heap.

Definition init (s : t) : t :=
  let '(x, h) := new_object (objects s) in
  mk (_ponce s) (Some x) (at_exit s || negb has_no_destroy) h.
Definition pthread_once (s : t) : t := if _ponce s then s else let s := init s in mk true (_value s) (at_exit s) (objects s).

Definition instance (s : t) : outcome (nat * t) :=
  let s := pthread_once s in
  match _value s with Some x => mret (x, s) | None => Fault AssertFailure end.

Definition destroy (s : t) : t :=
  mk (_ponce s) None (at_exit s) (match _value s with Some x => delete_object x (objects s) | None => objects s end).
(** [exit(3)] runs what [atexit] registered. *)
Definition exit (s : t) : t := if at_exit s then destroy s else s.
End singleton.
End Singleton.

Module ThreadLocal.
(** The values of [_pkey], and whether it still exists. *)
Record t : Type := mk { _pkey : option (gmap nat nat); objects : heap }.
Definition make (h : heap) : t := mk (Some ∅) h.

Definition value (i : nat) (s : t) : outcome (nat * t) :=
  match _pkey s with
  | None => Fault Undefined
  | Some m =>
      match m !! i with
      | Some ans => mret (ans, s)
      | None => let '(new_obj, h) := new_object (objects s) in mret (new_obj, mk (Some (<[i := new_obj]> m)) h)
      end
  end.

Definition destructor (x : nat) (h : heap) : heap := delete_object x h.
(** The thread [i] ends. *)
Definition thread_exit (i : nat) (s : t) : t :=
  match _pkey s ≫= (fun m => m !! i) with
  | Some x => mk (delete i <$> _pkey s) (destructor x (objects s))
  | None => s
  end.
(** [~ThreadLocal]: [pthread_key_delete] calls no destructors. *)
Definition destroy (s : t) : t := mk None (objects s).
End ThreadLocal.

Module ThreadLocalSingleton.
(** [_t_value] of every thread, and the values of [_deleter]'s key. *)
Record t : Type := mk { _t_value : gmap nat nat; _pkey : gmap nat nat; objects : heap }.
Definition make : t := mk ∅ ∅ empty_heap.

(** [Deleter::set]. *)
Definition set (i new_obj : nat) (s : t) : outcome t :=
  assert_ (bool_decide (_pkey s !! i = None));;
  mret (mk (_t_value s) (<[i := new_obj]> (_pkey s)) (objects s)).

Definition instance (i : nat) (s : t) : outcome (nat * t) :=
  match _t_value s !! i with
  | Some x => mret (x, s)
  | None =>
      let '(x, h) := new_object (objects s) in
      s ← set i x (mk (<[i := x]> (_t_value s)) (_pkey s) h);
      mret (x, s)
  end.

Definition destructor (i obj : nat) (s : t) : outcome t :=
  assert_ (bool_decide (_t_value s !! i = Some obj));;
  mret (mk (delete i (_t_value s)) (_pkey s) (delete_object obj (objects s))).

Definition thread_exit (i : nat) (s : t) : outcome t :=
  match _pkey s !! i with
  | Some x => destructor i x (mk (_t_value s) (delete i (_pkey s)) (objects s))
  | None => mret s
  end.
End ThreadLocalSingleton.

(** ** Specification

    Both thread-local classes keep a map from threads to live objects. *)
Module PerThread.
Inductive op : Type := Get (i : nat) | Leave (i : nat).

(** The map and the heap after an operation, and what [Get] returns. *)
Record spec : Type := mk_spec { own : gmap nat nat; store : heap }.
Definition spec_step (o : op) (s : spec) : option nat * spec :=
  match o with
  | Get i => match own s !! i with
             | Some x => (Some x, s)
             | None => let '(x, h) := new_object (store s) in (Some x, mk_spec (<[i := x]> (own s)) h)
             end
  | Leave i => match own s !! i with
               | Some x => (None, mk_spec (delete i (own s)) (delete_object x (store s)))
               | None => (None, s)
               end
  end.

(** Every constructed object is owned by one thread or was deleted, once. *)
Record wf (s : spec) : Prop := {
  wf_old i x : own s !! i = Some x -> x < created (store s) /\ x ∉ deleted (store s);
  wf_inj i j x : own s !! i = Some x -> own s !! j = Some x -> i = j;
  wf_deleted x : x ∈ deleted (store s) -> x < created (store s);
  wf_once : NoDup (deleted (store s));
  wf_all x : x < created (store s) -> x ∈ deleted (store s) \/ exists i, own s !! i = Some x }.

(** An implementation: the operations, the abstraction and the simulation. *)
Class Implements (S : Type) : Type := {
  run : op -> S -> outcome (option nat * S);
  good : S -> Prop;
  view : S -> spec;
  simulates o s : good s -> exists s', run o s ⇓ ((spec_step o (view s)).1, s') /\ good s' /\ view s' = (spec_step o (view s)).2 }.
End PerThread.

Module SingletonFacts.
Import PerThread.

Lemma spec_wf o s : wf s -> wf (spec_step o s).2.
Proof.
  intros [Ho Hi Hd Hn Ha]. destruct o as [i|i]; cbn [spec_step]; destruct (own s !! i) as [x|] eqn:Hx; [done| | |done].
  - split; cbn [own store snd new_object created deleted].
    + intros j y [[<- <-]|[_ Hy]]%lookup_insert_Some; [|destruct (Ho _ _ Hy); split; [lia|done]].
      split; [lia|]. intros Hin%Hd. lia.
    + intros j k y Hj Hk. apply lookup_insert_Some in Hj as [[<- <-]|[_ Hj]], Hk as [[<- Hk]|[_ Hk]]; [done|destruct (Ho _ _ Hk); lia| |by eapply Hi].
      subst. destruct (Ho _ _ Hj); lia.
    + intros y Hy%Hd. lia.
    + done.
    + intros y Hy. destruct (decide (y = created (store s))) as [->|]; [right; exists i; by rewrite lookup_insert_eq|].
      destruct (Ha y) as [|[j Hj]]; [lia|by left|right]. exists j. rewrite lookup_insert_ne; [done|]. intros ->. congruence.
  - destruct (Ho _ _ Hx) as [Hlt Hnd]. split; cbn [own store snd delete_object created deleted].
    + intros j y [Hne Hy]%lookup_delete_Some. destruct (Ho _ _ Hy). split; [done|]. rewrite elem_of_app, list_elem_of_singleton.
      intros [| ->]; [done|]. by apply Hne, (Hi i j x).
    + intros j k y [_ Hj]%lookup_delete_Some [_ Hk]%lookup_delete_Some. by eapply Hi.
    + intros y. rewrite elem_of_app, list_elem_of_singleton. intros [Hy| ->]; [by apply Hd|done].
    + apply NoDup_app. split; [done|split; [|by apply NoDup_singleton]]. intros y Hy ->%list_elem_of_singleton. done.
    + intros y Hy. rewrite elem_of_app, list_elem_of_singleton. destruct (Ha y Hy) as [|[j Hj]]; [by left; left|].
      destruct (decide (j = i)) as [->|]; [left; right; congruence|]. right. exists j. by rewrite lookup_delete_ne.
Qed.

#[export] Instance thread_local : Implements ThreadLocal.t.
Proof.
  refine {| run o s := match o with
                       | Get i => p ← ThreadLocal.value i s; mret (Some p.1, p.2)
                       | Leave i => mret (None, ThreadLocal.thread_exit i s)
                       end;
            good s := is_Some (ThreadLocal._pkey s);
            view s := mk_spec (default ∅ (ThreadLocal._pkey s)) (ThreadLocal.objects s) |}.
  intros o [k h] [m Hm]. simpl in Hm. subst k. destruct o as [i|i]; unfold ThreadLocal.value, ThreadLocal.thread_exit; simpl;
    destruct (m !! i) eqn:Hi; simpl; (eexists; split_and!; [done|by eexists|done]).
Defined.

#[export] Instance thread_local_singleton : Implements ThreadLocalSingleton.t.
Proof.
  refine {| run o s := match o with
                       | Get i => p ← ThreadLocalSingleton.instance i s; mret (Some p.1, p.2)
                       | Leave i => s ← ThreadLocalSingleton.thread_exit i s; mret (None, s)
                       end;
            good s := ThreadLocalSingleton._pkey s = ThreadLocalSingleton._t_value s;
            view s := mk_spec (ThreadLocalSingleton._t_value s) (ThreadLocalSingleton.objects s) |}.
  intros o [v k h] Hk. simpl in Hk. subst k. destruct o as [i|i];
    unfold ThreadLocalSingleton.instance, ThreadLocalSingleton.thread_exit, ThreadLocalSingleton.destructor, ThreadLocalSingleton.set; simpl;
    destruct (v !! i) eqn:Hi; simpl; rewrite ?bool_decide_true by done; simpl; (eexists; split_and!; done).
Defined.

(** Any implementation, after any operations. *)
Fixpoint run_ops {S} `{Implements S} (ops : list op) (s : S) : outcome (list (option nat) * S) :=
  match ops with
  | [] => mret ([], s)
  | o :: ops => p ← run o s; q ← run_ops ops p.2; mret (p.1 :: q.1, q.2)
  end.
Fixpoint spec_ops (ops : list op) (s : spec) : list (option nat) * spec :=
  match ops with
  | [] => ([], s)
  | o :: ops => let p := spec_step o s in let q := spec_ops ops p.2 in (p.1 :: q.1, q.2)
  end.

Lemma run_ops_spec {S} `{Implements S} ops : forall s : S, good s ->
  exists s', run_ops ops s ⇓ ((spec_ops ops (view s)).1, s') /\ good s' /\ view s' = (spec_ops ops (view s)).2.
Proof.
  induction ops as [|o ops IH]; intros s Hg; [by exists s|]. cbn [run_ops spec_ops].
  destruct (simulates o s Hg) as (s1 & -> & Hg1 & Hv1). cbn [mbind outcome_bind fst snd].
  destruct (IH s1 Hg1) as (s2 & -> & Hg2 & Hv2). cbn [mbind outcome_bind fst snd]. rewrite Hv1 in *. by exists s2.
Qed.

Lemma spec_ops_wf ops : forall s, wf s -> wf (spec_ops ops s).2.
Proof. induction ops as [|o ops IH]; intros s Hw; [done|]. cbn [spec_ops snd]. by apply IH, spec_wf. Qed.
End SingletonFacts.

(** ** Properties *)
Module SingletonTheorems.
Import PerThread SingletonFacts.

(** [ThreadLocal] and [ThreadLocalSingleton] keep one object per thread: they
    implement the same map, no assertion fails, threads share no object, and
    each object is deleted at most once, when its thread ends. *)
Theorem thread_objects_refine {S} `{Implements S} ops (s : S) : good s -> wf (view s) -> exists s',
  run_ops ops s ⇓ ((spec_ops ops (view s)).1, s') /\ view s' = (spec_ops ops (view s)).2 /\ wf (view s').
Proof.
  intros Hg Hw. destruct (run_ops_spec ops s Hg) as (s' & Hr & _ & Hv). exists s'. split_and!; [done|done|]. rewrite Hv. by apply spec_ops_wf.
Qed.

Lemma fresh_wf : wf (mk_spec ∅ empty_heap).
Proof.
  split; cbn [own store empty_heap created deleted].
  - by intros i x ?%lookup_empty_Some.
  - by intros i j x ?%lookup_empty_Some.
  - by intros x ?%elem_of_nil.
  - apply NoDup_nil_2.
  - lia.
Qed.

Lemma thread_objects_refine_witness : exists s',
  run_ops [Get 0; Get 1; Get 0; Leave 0; Get 0] ThreadLocalSingleton.make ⇓ ([Some 0; Some 1; Some 0; None; Some 2], s') /\
  view s' = mk_spec {[0 := 2; 1 := 1]} (mk_heap 3 [0]) /\ wf (view s').
Proof. exact (thread_objects_refine [Get 0; Get 1; Get 0; Leave 0; Get 0] ThreadLocalSingleton.make eq_refl fresh_wf). Defined.

(** [~ThreadLocal] leaks the objects of the threads that still run: no later
    thread exit deletes them. *)
Theorem thread_local_leaks i s : ThreadLocal.thread_exit i (ThreadLocal.destroy s) = ThreadLocal.destroy s.
Proof. done. Qed.

(** [Singleton::instance] constructs one object, returns it to every caller, and
    [exit] deletes it unless [T] has [no_destroy]; a call after that fails the
    assertion, since [pthread_once] does not run again. *)
Theorem singleton_once no_destroy (n : nat) : exists s,
  Nat.iter (S n) (fun r => p ← r; q ← Singleton.instance no_destroy p.2; mret (p.1 ++ [q.1], q.2)) (mret ([], Singleton.make))
    ⇓ (replicate (S n) 0, s) /\
  created (Singleton.objects s) = 1 /\
  deleted (Singleton.objects (Singleton.exit s)) = (if no_destroy then [] else [0]) /\
  Singleton.instance no_destroy (Singleton.exit s) = (if no_destroy then Done (0, Singleton.exit s) else Fault AssertFailure).
Proof.
  exists (Singleton.mk true (Some 0) (negb no_destroy) (mk_heap 1 [])). split; [|by destruct no_destroy].
  induction n as [|n IH]; [by destruct no_destroy|]. rewrite Nat.iter_succ, IH.
  change (replicate (S (S n)) 0) with (0 :: replicate (S n) 0). by rewrite replicate_cons_app.
Qed.
End SingletonTheorems.
