(* ===== verification/Queues.v ===== *)
(** * Queues: what the blocking queues, the latch and the pool promise

    The queues of [src/muduo/base] are different code for one idea: producers
    append, consumers remove, and each side signals the other.  The class
    [Buffer] says what a critical section of such a queue may do; the
    properties that make a queue correct (no assertion fails, first in first
    out, no lost wake-up) are proved once against it, and [BlockingQueue],
    [BoundedBlockingQueue], [BoundedBlockingQueue_std] and [ThreadPool] are
    its instances.  [BoundedBlockingQueue_std]
    ([src/muduo/base/BoundedBlockingQueue_std.h]) is modelled here, and the
    latch is proved on its own. *)
From S2P Require Import Prelude Monitors Locks.

Local Open Scope muduo_scope.

(** [std::condition_variable] promises what POSIX condition variables do. *)
Module BoundedBlockingQueue_std.
Section queue.
Context {T : Type} (_capacity : nat).
Definition put (x : T) (_queue : list T) : outcome (section (list T) (option T)) :=
  if bool_decide (length _queue = _capacity) then mret (Blocked NotFull)
  else
    assert_ (bool_decide (length _queue < _capacity)%nat);;
    mret (Finished (_queue ++ [x]) (Notify NotEmpty) None).

Definition take (_queue : list T) : outcome (section (list T) (option T)) :=
  match _queue with
  | [] => mret (Blocked NotEmpty)
  | ans :: rest =>
      assert_ (bool_decide (_queue ≠ []));;
      mret (Finished rest (Notify NotFull) (Some ans))
  end.

Definition full (_queue : list T) : bool := bool_decide (length _queue = _capacity).
Definition empty (_queue : list T) : bool := bool_decide (length _queue = 0)%nat.
Definition size (_queue : list T) : nat := length _queue.
Definition capacity (_queue : list T) : nat := _capacity.

Definition body (c : BoundedBlockingQueue.call T) (q : list T) : outcome (section (list T) (option T)) :=
  match c with BoundedBlockingQueue.Put x => put x q | BoundedBlockingQueue.Take => take q end.
End queue.
End BoundedBlockingQueue_std.

(** ** The interface *)
Inductive role (T : Type) : Type := Producer (x : T) | Consumer | Other.
Arguments Producer {T} x.
Arguments Consumer {T}.
Arguments Other {T}.

Definition is_producer {T} (r : role T) : bool := match r with Producer _ => true | _ => false end.
Definition is_consumer {T} (r : role T) : bool := match r with Consumer => true | _ => false end.

Section effects.
Context {S C R T : Type} (content : S -> list T) (room : S -> option nat) (result : R -> option T).

(** A producer appends its value and signals; a consumer removes the oldest
    value, and signals if producers can block; or the queue is closed and it
    returns with nothing. *)
Inductive effect : role T -> S -> section S R -> Prop :=
  | full_blocks x s : room s = Some 0 -> effect (Producer x) s (Blocked NotFull)
  | empty_blocks s : content s = [] -> effect Consumer s (Blocked NotEmpty)
  | produces x s s' r : content s' = content s ++ [x] -> room s = Datatypes.S <$> room s' ->
      effect (Producer x) s (Finished s' (Notify NotEmpty) r)
  | consumes x s s' r sg : content s = x :: content s' -> room s' = Datatypes.S <$> room s -> result r = Some x ->
      sg = Notify NotFull \/ (sg = NoSignal /\ room s = None) -> effect Consumer s (Finished s' sg r)
  | closed s r : content s = [] -> result r = None -> effect Consumer s (Finished s NoSignal r)
  | leaves s s' sg r : content s' = content s -> room s' = room s -> sg = NoSignal \/ sg = NotifyAll NotEmpty ->
      effect Other s (Finished s' sg r).
End effects.

(** A queue: its values, the room left ([None] when it is unbounded), the part
    each call plays, and that every critical section completes with an
    effect of its part. *)
Class Buffer {S C R T : Type} (body : C -> S -> outcome (section S R)) : Type := {
  content : S -> list T;
  room : S -> option nat;
  part : C -> role T;
  result : R -> option T;
  sound : S -> Prop;
  buffer_step c s : sound s -> exists b, body c s ⇓ b /\ effect content room result (part c) s b /\
    (forall s' sg r, b = Finished s' sg r -> sound s') }.

Module BufferSpec.
Import Monitor.
Section spec.
Context {S C R T : Type} (body : C -> S -> outcome (section S R)) `{!Buffer (T := T) body}.

(** The values put and taken, in the order of the critical sections. *)
Definition puts (l : list (C * R)) : list T := omap (fun e => match part e.1 with Producer x => Some x | _ => None end) l.
Definition takes (l : list (C * R)) : list T := omap (fun e => match part e.1 with Consumer => result e.2 | _ => None end) l.

(** No wake-up is lost: some thread can run, or every blocked consumer is blocked
    because there is nothing to take and every blocked producer because there
    is no room. *)
Definition no_lost_wakeup (s : state S C R) : Prop :=
  (exists i c, threads s !! i = Some (Ready c)) \/
  ((forall i c, threads s !! i = Some (Waiting NotEmpty c) -> content (shared s) = []) /\
   (forall i c, threads s !! i = Some (Waiting NotFull c) -> room (shared s) = Some 0)).
End spec.
End BufferSpec.

Module BufferFacts.
Import Monitor MonitorFacts BufferSpec.

Lemma count_fmap {A} (p : A -> bool) (f : A -> A) l : (forall a, a ∈ l -> p (f a) = p a) -> count p (f <$> l) = count p l.
Proof.
  unfold count. induction l as [|a l IH]; intros Hp; [done|]. rewrite fmap_cons. cbn [List.filter]. rewrite (Hp a) by left.
  assert (length (List.filter p (f <$> l)) = length (List.filter p l)) as He by (apply IH; intros b Hb; apply Hp; by right).
  destruct (p a); cbn [length]; by rewrite He.
Qed.

Lemma count_zero {A} (p : A -> bool) l : (forall a, a ∈ l -> p a = false) -> count p l = 0.
Proof.
  unfold count. induction l as [|a l IH]; intros Hp; [done|]. simpl. rewrite (Hp a) by left. apply IH. intros b Hb. apply Hp. by right.
Qed.

(** A step only adds to the log. *)
Lemma log_grows {S C R} (body : C -> S -> outcome (section S R)) s o s' : step body s o ⇓ s' -> length (log s) <= length (log s').
Proof.
  destruct o as [i c|i j|i]; cbn [step]; [by intros [= <-]| |].
  - destruct (threads s !! i) as [[|c|]|]; try (by intros [= <-]).
    destruct (body c (shared s)) as [[cd|s1 sg r]|]; [intros [= <-]; simpl; lia| |done].
    intros [= <-]. cbn [log]. rewrite length_app. lia.
  - destruct (threads s !! i); by intros [= <-].
Qed.

Section facts.
Context {S C R T : Type} (body : C -> S -> outcome (section S R)) `{!Buffer (T := T) body}.
Abbreviation st := (Monitor.state S C R).

Definition ready_producer (t : thread C) : bool := match t with Ready c => is_producer (part c) | _ => false end.
Definition ready_consumer (t : thread C) : bool := match t with Ready c => is_consumer (part c) | _ => false end.
Definition in_place (t : thread C) : Prop :=
  match t with
  | Waiting NotEmpty c => is_consumer (part c) = true
  | Waiting NotFull c => is_producer (part c) = true
  | _ => True
  end.

(** While a consumer waits, every value has a consumer on its way; while a
    producer waits, so has every free place a producer. *)
Record inv (s : st) : Prop := {
  inv_sound : sound (shared s);
  inv_consumers : 0 < count (wakes NotEmpty) (threads s) -> length (content (shared s)) <= count ready_consumer (threads s);
  inv_producers : 0 < count (wakes NotFull) (threads s) ->
    exists k, room (shared s) = Some k /\ k <= count ready_producer (threads s);
  inv_place : Forall in_place (threads s);
  inv_fifo : puts body (log s) = takes body (log s) ++ content (shared s);
}.

Lemma place_lookup ts i t : Forall in_place ts -> ts !! i = Some t -> in_place t.
Proof. rewrite Forall_lookup. eauto. Qed.

Lemma place_insert ts (i : nat) t : Forall in_place ts -> in_place t -> Forall in_place (<[i := t]> ts).
Proof. intros. by apply Forall_insert. Qed.

(** The four counts, when the thread [i] moves to [t']. *)
Lemma counts_insert ts i t t' : ts !! i = Some t ->
  count (wakes NotEmpty) (<[i := t']> ts) + one (wakes NotEmpty t) = count (wakes NotEmpty) ts + one (wakes NotEmpty t') /\
  count (wakes NotFull) (<[i := t']> ts) + one (wakes NotFull t) = count (wakes NotFull) ts + one (wakes NotFull t') /\
  count ready_consumer (<[i := t']> ts) + one (ready_consumer t) = count ready_consumer ts + one (ready_consumer t') /\
  count ready_producer (<[i := t']> ts) + one (ready_producer t) = count ready_producer ts + one (ready_producer t').
Proof. intros Hi. split_and!; by apply count_insert. Qed.

Ltac counts Hi t' :=
  let H := fresh "Hc" in pose proof (counts_insert _ _ _ t' Hi) as H; simpl in H;
  destruct H as (? & ? & ? & ?).

(** The log after one more entry. *)
Lemma puts_snoc l c r : puts body (l ++ [(c, r)]) = puts body l ++ match part c with Producer x => [x] | _ => [] end.
Proof. unfold puts. rewrite omap_app. simpl. by destruct (part c). Qed.
Lemma takes_snoc l c r : takes body (l ++ [(c, r)]) = takes body l ++ match part c with Consumer => option_list (result r) | _ => [] end.
Proof. unfold takes. rewrite omap_app. simpl. by destruct (part c). Qed.

(** [notifyAll] leaves nobody waiting for values. *)
Lemma deliver_all ts j : Forall in_place ts -> let ts' := deliver (NotifyAll NotEmpty) j ts in
  count (wakes NotEmpty) ts' = 0 /\ count (wakes NotFull) ts' = count (wakes NotFull) ts /\
  count ready_producer ts' = count ready_producer ts /\ Forall in_place ts'.
Proof.
  intros Hp. simpl. rewrite Forall_forall in Hp. split_and!.
  - apply count_zero. intros t (u & -> & _)%list_elem_of_fmap. destruct u as [|c|[] c]; done.
  - apply count_fmap. intros t _. destruct t as [|c|[] c]; done.
  - apply count_fmap. intros t Ht. specialize (Hp t Ht). destruct t as [|c|[] c]; try done. simpl in *. by destruct (part c).
  - rewrite Forall_fmap. rewrite Forall_forall. intros t Ht. specialize (Hp t Ht). destruct t as [|c|[] c]; done.
Qed.

(** A thread that changes its state without touching the queue. *)
Lemma inv_move s i t t' : inv s -> threads s !! i = Some t -> in_place t' ->
  (wakes NotEmpty t' = true -> wakes NotEmpty t = true \/ length (content (shared s)) = 0) ->
  (wakes NotFull t' = true -> wakes NotFull t = true \/ room (shared s) = Some 0) ->
  (ready_consumer t = true -> ready_consumer t' = true \/ length (content (shared s)) = 0) ->
  (ready_producer t = true -> ready_producer t' = true \/ room (shared s) = Some 0) ->
  inv (mk_state (shared s) (<[i := t']> (threads s)) (log s)).
Proof.
  intros [Hs Hc Hp Hpl Hf] Hi Ht' H1 H2 H3 H4. counts Hi t'. split; cbn [shared threads log]; [done| | |by apply place_insert|done].
  - intros Hpos. destruct (wakes NotEmpty t'), (wakes NotEmpty t), (ready_consumer t'), (ready_consumer t); simpl in *; naive_solver lia.
  - intros Hpos. assert (room (shared s) = Some 0 \/ (0 < count (wakes NotFull) (threads s) /\
      count ready_producer (threads s) <= count ready_producer (<[i := t']> (threads s)))) as [Hr0|[Hw Hle]].
    { destruct (wakes NotFull t'), (wakes NotFull t), (ready_producer t'), (ready_producer t); simpl in *; naive_solver lia. }
    + exists 0. split; [done|lia].
    + destruct (Hp Hw) as (k & Hk & Hkle). exists k. split; [done|lia].
Qed.

(** The thread [i] finishes a call, and its [notify], if any, wakes [j]. *)
Lemma finish_produces s i j c x s' r : inv s -> allowed body s (Monitor.Run i j) -> threads s !! i = Some (Ready c) ->
  part c = Producer x -> body c (shared s) ⇓ Finished s' (Notify NotEmpty) r -> sound s' ->
  content s' = content (shared s) ++ [x] -> room (shared s) = Datatypes.S <$> room s' ->
  inv (mk_state s' (deliver (Notify NotEmpty) j (<[i := Idle]> (threads s))) (log s ++ [(c, r)])).
Proof.
  intros [Hs Hc Hp Hpl Hf] Ha Hi Hpart Hb Hs' Hcont Hroom. counts Hi (@Idle C). rewrite Hpart in *. cbn [is_producer is_consumer one] in *.
  assert (Forall in_place (<[i := Idle]> (threads s))) as Hpl1 by (by apply place_insert).
  assert (puts body (log s ++ [(c, r)]) = takes body (log s ++ [(c, r)]) ++ content s') as Hf'.
  { rewrite puts_snoc, takes_snoc, Hpart, Hcont, Hf. by rewrite app_nil_r, app_assoc. }
  assert (length (content s') = Datatypes.S (length (content (shared s)))) as Hlen by (rewrite Hcont, length_app; simpl; lia).
  destruct (deliver_allowed body s i j _ _ _ _ Ha Hi Hb) as [[-> Hnone]|(c' & Hj & ->)].
  - split; cbn [shared threads log]; [done|lia| |done|done].
    intros Hw. destruct Hp as (k & Hk & Hle); [lia|]. rewrite Hroom in Hk. destruct (room s') as [k'|]; simplify_eq/=. exists k'. split; [done|lia].
  - pose proof (place_lookup _ _ _ Hpl1 Hj) as Hc'. simpl in Hc'. counts Hj (Ready c').
    rewrite Hc' in *. destruct (part c') eqn:Hpc'; [done| |done]. cbn [is_producer is_consumer one] in *.
    split; cbn [shared threads log]; [done|lia| |by apply place_insert|done].
    intros Hw. destruct Hp as (k & Hk & Hle); [lia|]. rewrite Hroom in Hk. destruct (room s') as [k'|]; simplify_eq/=. exists k'. split; [done|lia].
Qed.

Lemma finish_consumes s i j c x s' r sg : inv s -> allowed body s (Monitor.Run i j) -> threads s !! i = Some (Ready c) ->
  part c = Consumer -> body c (shared s) ⇓ Finished s' sg r -> sound s' ->
  content (shared s) = x :: content s' -> room s' = Datatypes.S <$> room (shared s) -> result r = Some x ->
  sg = Notify NotFull \/ (sg = NoSignal /\ room (shared s) = None) ->
  inv (mk_state s' (deliver sg j (<[i := Idle]> (threads s))) (log s ++ [(c, r)])).
Proof.
  intros [Hs Hc Hp Hpl Hf] Ha Hi Hpart Hb Hs' Hcont Hroom Hres Hsg. counts Hi (@Idle C). rewrite Hpart in *. cbn [is_producer is_consumer one] in *.
  assert (Forall in_place (<[i := Idle]> (threads s))) as Hpl1 by (by apply place_insert).
  assert (puts body (log s ++ [(c, r)]) = takes body (log s ++ [(c, r)]) ++ content s') as Hf'.
  { rewrite puts_snoc, takes_snoc, Hpart, Hres, Hf, Hcont, app_nil_r, <-app_assoc. done. }
  rewrite Hcont in Hc. cbn [length] in Hc. destruct Hsg as [-> |[-> Hnone]].
  - destruct (deliver_allowed body s i j _ _ _ _ Ha Hi Hb) as [[-> Hnone]|(c' & Hj & ->)].
    + split; cbn [shared threads log]; [done|lia|lia|done|done].
    + pose proof (place_lookup _ _ _ Hpl1 Hj) as Hc'. simpl in Hc'. counts Hj (Ready c').
      rewrite Hc' in *. destruct (part c') eqn:Hpc'; [|done..]. cbn [is_producer is_consumer one] in *.
      split; cbn [shared threads log]; [done|lia| |by apply place_insert|done].
      intros Hw. destruct Hp as (k & Hk & Hle); [lia|]. rewrite Hroom, Hk. simpl. eexists. split; [done|lia].
  - split; cbn [shared threads log deliver]; [done|lia| |done|done].
    intros Hw. destruct Hp as (k & Hk & _); [lia|]. congruence.
Qed.

(** A call that leaves the values as they are. *)
Lemma finish_leaves s i j c s' r sg : inv s -> threads s !! i = Some (Ready c) ->
  sound s' -> content s' = content (shared s) -> room s' = room (shared s) -> part c = Other ->
  sg = NoSignal \/ sg = NotifyAll NotEmpty ->
  inv (mk_state s' (deliver sg j (<[i := Idle]> (threads s))) (log s ++ [(c, r)])).
Proof.
  intros [Hs Hc Hp Hpl Hf] Hi Hs' Hcont Hroom Hpart Hsg. counts Hi (@Idle C). rewrite Hpart in *. cbn [is_producer is_consumer one] in *.
  assert (Forall in_place (<[i := Idle]> (threads s))) as Hpl1 by (by apply place_insert).
  assert (puts body (log s ++ [(c, r)]) = takes body (log s ++ [(c, r)]) ++ content s') as Hf'.
  { by rewrite puts_snoc, takes_snoc, Hpart, Hcont, Hf, !app_nil_r. }
  assert (0 < count (wakes NotFull) (<[i := Idle]> (threads s)) -> exists k, room s' = Some k /\ k <= count ready_producer (<[i := Idle]> (threads s))) as Hp'.
  { intros Hw. destruct Hp as (k & Hk & Hle); [lia|]. exists k. split; [congruence|lia]. }
  destruct Hsg as [-> | ->].
  - split; cbn [shared threads log deliver]; [done|rewrite Hcont; lia|done..].
  - destruct (deliver_all _ j Hpl1) as (He & Hfu & Hr & Hpl2). split; cbn [shared threads log]; [done|lia| |done|done]. by rewrite Hfu, Hr.
Qed.

Lemma finish_closed s i j c r : inv s -> threads s !! i = Some (Ready c) -> part c = Consumer ->
  content (shared s) = [] -> result r = None ->
  inv (mk_state (shared s) (deliver NoSignal j (<[i := Idle]> (threads s))) (log s ++ [(c, r)])).
Proof.
  intros Hinv Hi Hpart Hnil Hres.
  assert (inv (mk_state (shared s) (<[i := Idle]> (threads s)) (log s))) as [Hs Hc Hp Hpl Hf].
  { eapply inv_move; [done|done|done|..]; simpl; rewrite ?Hnil, ?Hpart; auto. }
  split; cbn [shared threads log deliver] in *; [done..|]. by rewrite puts_snoc, takes_snoc, Hpart, Hres, Hf, !app_nil_r.
Qed.

Lemma effect_blocked rl s cd : effect content room result rl s (@Blocked S R cd) ->
  (cd = NotFull /\ (exists x, rl = Producer x) /\ room s = Some 0) \/ (cd = NotEmpty /\ rl = Consumer /\ content s = []).
Proof. inversion 1; subst; eauto 6. Qed.

Lemma buffer_step_inv s o : inv s -> allowed body s o -> exists s', step body s o ⇓ s' /\ inv s'.
Proof.
  intros Hinv Ha. destruct o as [i c|i j|i]; cbn [step].
  - eexists. split; [done|]. simpl in Ha. by eapply inv_move; [done|exact Ha|done|..].
  - pose proof Ha as (c & Hi & _). rewrite Hi.
    destruct (buffer_step c (shared s) (inv_sound _ Hinv)) as (b & Hb & He & Hs'). rewrite Hb. cbn [mbind outcome_bind].
    destruct b as [cd|s' sg r]; eexists; (split; [done|]).
    + destruct (effect_blocked _ _ _ He) as [(-> & [x Hx] & H0)|(-> & Hx & H0)];
        (eapply inv_move; [done|exact Hi|..]; simpl; rewrite ?Hx, ?H0; auto).
    + specialize (Hs' s' sg r eq_refl). inversion He; subst; eauto using finish_produces, finish_consumes, finish_closed, finish_leaves.
  - destruct Ha as [t Hi]. rewrite Hi. eexists. split; [done|].
    pose proof (place_lookup _ _ _ (inv_place _ Hinv) Hi) as Hpl. eapply inv_move; [done|exact Hi|..]; destruct t as [|c|[] c]; simpl in *; auto; done.
Qed.

(** Any number of idle threads around a queue without values. *)
Definition start (s : S) (n : nat) : st := mk_state s (replicate n Idle) [].

Lemma start_inv s n : sound s -> content s = [] -> inv (start s n).
Proof.
  intros Hs Hc. assert (forall p : thread C -> bool, p Idle = false -> count p (replicate n Idle) = 0) as Hz.
  { intros p Hp. apply count_zero. by intros t [-> _]%elem_of_replicate. }
  split; cbn [shared threads log start]; rewrite ?Hz by done; [done|lia|lia| |by rewrite Hc]. apply Forall_replicate. done.
Qed.

Lemma buffer_reachable_inv s n s' : sound s -> content s = [] -> reachable body (start s n) s' -> inv s'.
Proof.
  intros Hs Hc. induction 1 as [|s1 o s2 _ IH Ha Hst]; [by apply start_inv|].
  destruct (buffer_step_inv s1 o IH Ha) as (s3 & Hs3 & Hi). rewrite Hst in Hs3. by injection Hs3 as ->.
Qed.

Lemma inv_no_lost_wakeup s : inv s -> no_lost_wakeup body s.
Proof.
  intros [_ Hc Hp _ _]. set (ready := fun t : thread C => match t with Ready _ => true | _ => false end).
  destruct (count ready (threads s)) as [|k] eqn:Hr.
  - assert (forall q : thread C -> bool, (forall t, q t = true -> ready t = true) -> count q (threads s) = 0) as Hz.
    { intros q Hq. destruct (count q (threads s)) eqn:Hcq; [done|]. exfalso.
      assert (0 < count q (threads s)) as (i & t & Hi & Hqt)%count_pos by lia.
      assert (0 < count ready (threads s)) by (apply count_pos; eauto). lia. }
    assert (forall c i call, threads s !! i = Some (Waiting c call) -> 0 < count (wakes c) (threads s)) as Hw.
    { intros c i call Hi. apply count_pos. exists i, (Waiting c call). split; [done|]. simpl. by rewrite bool_decide_true. }
    right. split; intros i c Hi; specialize (Hw _ _ _ Hi).
    + rewrite (Hz ready_consumer) in Hc by (by intros [|?|]). apply nil_length_inv. lia.
    + rewrite (Hz ready_producer) in Hp by (by intros [|?|]). destruct (Hp Hw) as (k & -> & Hk). f_equal. lia.
  - left. assert (0 < count ready (threads s)) as (i & [|c|] & Hi & Hrt)%count_pos by lia; [done| |done]. by exists i, c.
Qed.

(** What holds of every queue in every schedule. *)
Lemma buffer_correct s n s' o : sound s -> content s = [] -> reachable body (start s n) s' -> allowed body s' o ->
  (exists s'', step body s' o ⇓ s'') /\ sound (shared s') /\
  puts body (log s') = takes body (log s') ++ content (shared s') /\ no_lost_wakeup body s'.
Proof.
  intros Hs Hc Hr Ha. pose proof (buffer_reachable_inv _ _ _ Hs Hc Hr) as Hinv.
  destruct (buffer_step_inv s' o Hinv Ha) as (s'' & Hst & _). split_and!; [eauto|apply Hinv|apply Hinv|by apply inv_no_lost_wakeup].
Qed.
End facts.
End BufferFacts.

(** ** The queues implement the interface *)
Module Instances.
Section bounded.
Context {T : Type} (capacity : nat).

(** The body of both bounded queues. *)
Lemma bounded_step (c : BoundedBlockingQueue.call T) q : length q <= capacity ->
  exists b, BoundedBlockingQueue.body capacity c q ⇓ b /\
    effect (S := list T) (R := option T) id (fun q => Some (capacity - length q)) id
      (match c with BoundedBlockingQueue.Put x => Producer x | BoundedBlockingQueue.Take => Consumer end) q b /\
    (forall q' sg r, b = Finished q' sg r -> length q' <= capacity).
Proof.
  intros Hq. destruct c as [x|]; simpl.
  - unfold BoundedBlockingQueue.put. case_bool_decide as Hfull.
    + eexists. split_and!; [done| |done]. apply full_blocks. f_equal. lia.
    + rewrite bool_decide_true by lia. eexists. split_and!; [done| |].
      * apply produces; [done|]. rewrite length_app. simpl. f_equal. lia.
      * intros q' sg r [= <- _ _]. rewrite length_app. simpl. lia.
  - destruct q as [|x q]; eexists.
    + split_and!; [done|by apply empty_blocks|done].
    + split_and!; [done| |by intros q' sg r [= <- _ _]; simpl in *; lia].
      apply (consumes id _ id x); [done| |done|by left]. simpl in *. f_equal. lia.
Qed.

#[export] Instance bounded_buffer : Buffer (T := T) (@BoundedBlockingQueue.body T capacity).
Proof. refine {| buffer_step := bounded_step |}. Defined.

(** The two bounded queues are the same machine. *)
Lemma std_body_agrees c q : @BoundedBlockingQueue_std.body T capacity c q = BoundedBlockingQueue.body capacity c q.
Proof. by destruct c. Qed.

#[export] Instance std_buffer : Buffer (T := T) (@BoundedBlockingQueue_std.body T capacity).
Proof. refine {| buffer_step c q Hq := _ |}. rewrite std_body_agrees. exact (bounded_step c q Hq). Defined.
End bounded.

Section unbounded.
Context {T : Type}.
Lemma unbounded_step (c : BlockingQueue.call T) q : True ->
  exists b, BlockingQueue.body c q ⇓ b /\
    effect (S := list T) (R := option T) id (fun _ => None) id
      (match c with BlockingQueue.Put x => Producer x | BlockingQueue.Take => Consumer end) q b /\
    (forall q' sg r, b = Finished q' sg r -> True).
Proof.
  intros _. destruct c as [x|]; simpl.
  - eexists. split_and!; [done| |done]. by apply produces.
  - destruct q as [|x q]; eexists; (split_and!; [done| |done]); [by apply empty_blocks|].
    apply (consumes id _ id x); [done|done|done|by right].
Qed.
#[export] Instance unbounded_buffer : Buffer (T := T) (@BlockingQueue.body T).
Proof. refine {| buffer_step := unbounded_step |}. Defined.
End unbounded.

(** The pool: [Run] produces, the workers' [Take] consumes and [Stop] closes. *)
Definition pool_room (p : ThreadPool.t) : option nat :=
  if bool_decide (0 < ThreadPool._queue_capacity p) then Some (ThreadPool._queue_capacity p - length (ThreadPool._queue p)) else None.
Definition pool_sound (p : ThreadPool.t) : Prop :=
  0 < ThreadPool._queue_capacity p -> length (ThreadPool._queue p) <= ThreadPool._queue_capacity p.

Lemma pool_section (c : ThreadPool.call) p : pool_sound p ->
  exists b, ThreadPool.body c p ⇓ b /\
    effect (R := option ThreadPool.task) ThreadPool._queue pool_room id
      (match c with ThreadPool.Run x => Producer x | ThreadPool.Take => Consumer | ThreadPool.Stop => Other end) p b /\
    (forall p' sg r, b = Finished p' sg r -> pool_sound p').
Proof.
  destruct p as [q cap running]. unfold pool_sound, pool_room. simpl. intros Hp. destruct c as [x| |]; simpl.
  - unfold ThreadPool.run, ThreadPool.isFull. simpl. case_bool_decide as Hfull; simpl.
    + eexists. split_and!; [done| |done]. apply full_blocks. unfold pool_room. simpl. rewrite bool_decide_true by lia. f_equal. lia.
    + eexists. split_and!; [done| |].
      * apply produces; [done|]. unfold pool_room. simpl. rewrite length_app. simpl. case_bool_decide; [|done]. simpl. f_equal. lia.
      * intros p' sg r [= <- _ _]. simpl. rewrite length_app. simpl. lia.
  - unfold ThreadPool.take. simpl. destruct q as [|x q].
    + destruct running; eexists; (split_and!; [done| |]); [by apply empty_blocks|done|by apply closed|].
      intros p' sg r [= <- _ _]. simpl. lia.
    + eexists. split_and!; [done| |by intros p' sg r [= <- _ _]; simpl in *; lia].
      apply (consumes _ _ id x); [done| |done|]; unfold pool_room; simpl in *; case_bool_decide; simpl; [|by auto..]. f_equal. lia.
  - eexists. split_and!; [done| |by intros p' sg r [= <- _ _]]. apply leaves; [done|done|by right].
Qed.
#[export] Instance pool_buffer : Buffer (T := ThreadPool.task) ThreadPool.body.
Proof. refine {| buffer_step := pool_section |}. Defined.
End Instances.

(** ** The latch *)
Module LatchFacts.
Import Monitor MonitorFacts BufferFacts CountDownLatch.
Local Open Scope Z_scope.
Abbreviation st := (Monitor.state Z call unit).

(** The number of times [countDown] was called. *)
Definition is_down (e : call * unit) : bool := match e.1 with CountDown => true | Wait => false end.
Definition downs (l : list (call * unit)) : Z := Z.of_nat (count is_down l).
Definition waits (t : thread call) : bool := match t with Waiting _ _ => true | _ => false end.
Definition only_wait (t : thread call) : Prop := match t with Waiting NotEmpty Wait => True | Waiting _ _ => False | _ => True end.

(** Nobody waits at a latch that is open. *)
Record inv (c0 : Z) (s : st) : Prop := {
  inv_count : shared s = c0 - downs (log s);
  inv_closed : (0 < count waits (threads s))%nat -> 0 < shared s;
  inv_open : (Wait, tt) ∈ log s -> shared s <= 0;
  inv_only : Forall only_wait (threads s) }.

Definition start (c0 : Z) (n : nat) : st := mk_state c0 (replicate n Idle) [].

Lemma downs_snoc l e : downs (l ++ [e]) = downs l + (if is_down e then 1 else 0).
Proof. unfold downs, count. rewrite List.filter_app, length_app. simpl. destruct (is_down e); simpl; lia. Qed.

Lemma latch_start c0 n : inv c0 (start c0 n).
Proof.
  split; cbn [shared threads log start]; [unfold downs, count; simpl; lia| |by intros ?%elem_of_nil|by apply Forall_replicate].
  rewrite count_zero; [lia|]. by intros t [-> _]%elem_of_replicate.
Qed.

Lemma latch_move c0 s i t t' : inv c0 s -> threads s !! i = Some t -> only_wait t' -> (waits t' = true -> waits t = true \/ 0 < shared s) ->
  inv c0 (mk_state (shared s) (<[i := t']> (threads s)) (log s)).
Proof.
  intros [Hc Hw Ho Hp] Hi Ht' Hwt. pose proof (count_insert waits _ _ _ t' Hi) as Hcount.
  split; cbn [shared threads log]; [done| |done|by apply Forall_insert].
  intros Hpos. destruct (waits t'), (waits t); simpl in *; naive_solver lia.
Qed.

(** [notifyAll] wakes everybody. *)
Lemma latch_all ts j : Forall only_wait ts ->
  count waits (deliver (NotifyAll NotEmpty) j ts) = 0%nat /\ Forall only_wait (deliver (NotifyAll NotEmpty) j ts).
Proof.
  intros Hp. rewrite Forall_forall in Hp. simpl. split.
  - apply count_zero. intros t (u & -> & Hu)%list_elem_of_fmap. specialize (Hp u Hu). by destruct u as [|c|[] c].
  - rewrite Forall_fmap, Forall_forall. intros u Hu. specialize (Hp u Hu). by destruct u as [|c|[] c].
Qed.

(** The hypothesis: the counter does not run below [INT_MIN]. *)
Lemma latch_step_inv c0 s o : inv c0 s -> int32_range (shared s) -> int32_range (shared s - 1) -> allowed body s o ->
  exists s', step body s o ⇓ s' /\ inv c0 s'.
Proof.
  intros Hinv Hr Hr1 Ha. pose proof Hinv as [Hc Hw Ho Hp]. destruct o as [i c|i j|i]; cbn [step].
  - eexists. split; [done|]. simpl in Ha. by eapply latch_move.
  - destruct Ha as (c & Hi & _). rewrite Hi. destruct c; cbn [body].
    + unfold wait. case_bool_decide as Hpos; eexists; (split; [done|]); [by eapply latch_move; eauto|].
      assert (inv c0 (mk_state (shared s) (<[i := Idle]> (threads s)) (log s))) as [Hc' Hw' Ho' Hp'] by (by eapply latch_move).
      split; cbn [shared threads log deliver] in *; [|done|lia|done]. by rewrite downs_snoc, Z.add_0_r.
    + unfold countDown. rewrite checked32_ok by done. cbn [mbind outcome_bind]. eexists. split; [done|].
      assert (inv c0 (mk_state (shared s) (<[i := Idle]> (threads s)) (log s))) as [Hc' Hw' Ho' Hp'] by (by eapply latch_move).
      cbn [shared threads log] in *. assert (shared s - 1 = c0 - downs (log s ++ [(CountDown, tt)])) as Hcnt by (rewrite downs_snoc; simpl; lia).
      assert ((Wait, tt) ∈ log s ++ [(CountDown, tt)] -> shared s - 1 <= 0) as Hopen.
      { rewrite elem_of_app, list_elem_of_singleton. intros [Hin|[=]]. specialize (Ho Hin). lia. }
      case_bool_decide as Hz.
      * destruct (latch_all (<[i := Idle]> (threads s)) j Hp') as [H0 Hall]. split; cbn [shared threads log]; [done|lia|done|done].
      * split; cbn [shared threads log deliver]; [done| |done|done]. intros Hpos. specialize (Hw' Hpos). lia.
  - destruct Ha as [t Hi]. rewrite Hi. eexists. split; [done|].
    rewrite Forall_lookup in Hp. specialize (Hp _ _ Hi). eapply latch_move; [done|exact Hi|by destruct t as [|c|[] []]|by destruct t as [|c|[] []]].
Qed.
End LatchFacts.

(** ** Properties *)
Module QueueTheorems.
Import Monitor MonitorFacts BufferSpec BufferFacts Instances.

(** C33.  [BoundedBlockingQueue] under any interleaving of any number of
    threads: no assertion fails, the queue never exceeds its capacity, values
    are taken in the order in which they were put, none lost or duplicated,
    and no wake-up is lost: when no thread can run, a blocked [take] means
    that the queue is empty and a blocked [put] that it is full. *)
Theorem bounded_queue_correct {T} (capacity n : nat) (s : state (list T) (BoundedBlockingQueue.call T) (option T)) o :
  reachable (BoundedBlockingQueue.body capacity) (start [] n) s ->
  allowed (BoundedBlockingQueue.body capacity) s o ->
  (exists s', step (BoundedBlockingQueue.body capacity) s o ⇓ s') /\
  length (shared s) <= capacity /\
  puts (BoundedBlockingQueue.body capacity) (log s) = takes (BoundedBlockingQueue.body capacity) (log s) ++ shared s /\
  ((exists i c, threads s !! i = Some (Ready c)) \/
   ((forall i c, threads s !! i = Some (Waiting NotEmpty c) -> shared s = []) /\
    (forall i c, threads s !! i = Some (Waiting NotFull c) -> length (shared s) = capacity))).
Proof.
  intros Hr Ha. destruct (buffer_correct (BoundedBlockingQueue.body capacity) [] n s o) as (Hs & Hb & Hf & Hw); [simpl; lia|done..|].
  split_and!; [done..|]. destruct Hw as [Hw|[He Hfull]]; [by left|right]. split; [exact He|].
  intros i c Hi. specialize (Hfull i c Hi). simpl in Hb, Hfull. injection Hfull as Hfull. lia.
Qed.

Lemma bounded_queue_correct_witness :
  (exists s', step (@BoundedBlockingQueue.body nat 1) (mk_state [] [Ready (BoundedBlockingQueue.Put 7); Idle] []) (Monitor.Run 0 1) ⇓ s') /\
  0 <= 1 /\ puts (@BoundedBlockingQueue.body nat 1) [] = takes (@BoundedBlockingQueue.body nat 1) [] ++ [] /\
  ((exists i c, [Ready (BoundedBlockingQueue.Put 7); Idle] !! i = Some (Ready c)) \/
   ((forall i c, [Ready (BoundedBlockingQueue.Put 7); Idle] !! i = Some (Waiting NotEmpty c) -> @nil nat = []) /\
    (forall i c, [Ready (BoundedBlockingQueue.Put 7); Idle] !! i = Some (Waiting NotFull c) -> 0 = 1))).
Proof.
  apply (bounded_queue_correct 1 2 (mk_state [] [Ready (BoundedBlockingQueue.Put 7); Idle] []) (Monitor.Run 0 1)).
  - apply (reach_step _ _ (start [] 2) (Call 0 (BoundedBlockingQueue.Put 7))); [apply reach_refl|done|done].
  - exists (BoundedBlockingQueue.Put 7). split; [done|]. intros s c r _ (k & t & Hk & Ht). exfalso.
    destruct k as [|[|k]]; simpl in Hk; simplify_eq; done.
Defined.

(** The other two queues: first in first out, no assertion fails, and no wake-up
    is lost. *)
Theorem blocking_queue_correct {T} (n : nat) (s : state (list T) (BlockingQueue.call T) (option T)) o :
  reachable BlockingQueue.body (start [] n) s -> allowed BlockingQueue.body s o ->
  (exists s', step BlockingQueue.body s o ⇓ s') /\
  puts BlockingQueue.body (log s) = takes BlockingQueue.body (log s) ++ shared s /\
  ((exists i c, threads s !! i = Some (Ready c)) \/ forall i cd c, threads s !! i = Some (Waiting cd c) -> cd = NotEmpty /\ shared s = []).
Proof.
  intros Hr Ha. destruct (buffer_correct BlockingQueue.body [] n s o) as (Hs & _ & Hf & Hw); [done..|].
  split_and!; [done..|]. destruct Hw as [Hw|[He Hfull]]; [by left|right].
  intros i [] c Hi; [eauto|]. by specialize (Hfull i c Hi).
Qed.

(** The bounded queue on [MutexLock] and [Condition], one system call at a time:
    it never exceeds its capacity, is first in first out, and no step of it
    fails. *)
Theorem bounded_queue_on_locks `{ThreadIds} {T} (capacity n : nat) (s : LockedMonitor.state (list T) (BoundedBlockingQueue.call T) (option T)) :
  LockedMonitor.reachable (BoundedBlockingQueue.body capacity) (LockedMonitor.init [] n) s ->
  length (LockedMonitor.shared s) <= capacity /\
  puts (BoundedBlockingQueue.body capacity) (LockedMonitor.log s) =
    takes (BoundedBlockingQueue.body capacity) (LockedMonitor.log s) ++ LockedMonitor.shared s /\
  (forall m, LockedMonitor.allowed (BoundedBlockingQueue.body capacity) s m -> exists s', LockedMonitor.step (BoundedBlockingQueue.body capacity) s m ⇓ s').
Proof.
  intros Hr. destruct (LockFacts.locked_reachable _ _ _ _ Hr) as [Hl Hm].
  pose proof (buffer_reachable_inv (BoundedBlockingQueue.body capacity) [] n _ (Nat.le_0_l _) eq_refl Hm) as Hinv.
  pose proof (inv_sound _ _ Hinv) as Hs. split_and!; [exact Hs|exact (inv_fifo _ _ Hinv)|].
  intros m Ha. destruct (LockFacts.locked_step _ s m Hl Ha) as (s' & Hs' & _); [|eauto].
  intros _ _ c _ _. destruct (bounded_step capacity c _ Hs) as (b & Hb & _). eauto.
Qed.

(** Both bounded queues run the same schedules. *)
Theorem std_queue_agrees {T} (capacity : nat) s0 (s : state (list T) (BoundedBlockingQueue.call T) (option T)) :
  reachable (BoundedBlockingQueue_std.body capacity) s0 s <-> reachable (BoundedBlockingQueue.body capacity) s0 s.
Proof.
  assert (forall s o, step (BoundedBlockingQueue_std.body capacity) s o = step (@BoundedBlockingQueue.body T capacity) s o) as Hs.
  { intros s1 [i c|i j|i]; cbn [step]; [done| |done]. destruct (threads s1 !! i) as [[|c|]|]; try done. }
  assert (forall s o, allowed (BoundedBlockingQueue_std.body capacity) s o <-> allowed (@BoundedBlockingQueue.body T capacity) s o) as Ha.
  { intros s1 [i c|i j|i]; cbn [allowed]; [done| |done]. split; intros ([] & Hi & Hj); eexists; (split; [exact Hi|exact Hj]). }
  split; induction 1 as [|s1 o s2 _ IH Hal Hst]; try apply reach_refl.
  - eapply reach_step; [exact IH|by apply Ha|]. by rewrite <-Hs.
  - eapply reach_step; [exact IH|by apply Ha|]. by rewrite Hs.
Qed.

(** [CountDownLatch] made with a count of [c0 >= 0] and used fewer than
    [2^31] times, under any interleaving: the counter is [c0] less the calls
    of [countDown], [wait] returns only after [c0] of them, and once they are
    made nobody is left waiting. *)
Theorem latch_correct (c0 : Z) (n : nat) (s : state Z CountDownLatch.call unit) o :
  (0 <= c0 < two_31)%Z -> (Z.of_nat (length (log s)) < two_31)%Z ->
  reachable CountDownLatch.body (LatchFacts.start c0 n) s -> allowed CountDownLatch.body s o ->
  (exists s', step CountDownLatch.body s o ⇓ s') /\
  CountDownLatch.getCount (shared s) = (c0 - LatchFacts.downs (log s))%Z /\
  ((CountDownLatch.Wait, tt) ∈ log s -> (c0 <= LatchFacts.downs (log s))%Z) /\
  ((c0 <= LatchFacts.downs (log s))%Z -> forall i cd c, threads s !! i <> Some (Waiting cd c)).
Proof.
  intros Hc0 Hlen Hr Ha.
  assert (forall l, (0 <= LatchFacts.downs l <= Z.of_nat (length l))%Z) as Hdowns.
  { intros l. unfold LatchFacts.downs, count. pose proof (List.filter_length_le LatchFacts.is_down l). lia. }
  assert (forall s, LatchFacts.inv c0 s -> (Z.of_nat (length (log s)) < two_31)%Z -> int32_range (shared s) /\ int32_range (shared s - 1)) as Hrange.
  { intros s1 [Hc _ _ _] Hl. rewrite Hc. pose proof (Hdowns (log s1)). unfold int32_range, two_31 in *. lia. }
  assert (LatchFacts.inv c0 s) as Hinv.
  { clear o Ha. induction Hr as [|s1 o1 s2 Hr1 IH Ha1 Hs]; [apply LatchFacts.latch_start|].
    pose proof (log_grows _ _ _ _ Hs) as Hmono.
    destruct (Hrange s1) as [Hr0 Hr2]; [apply IH; lia|lia|].
    destruct (LatchFacts.latch_step_inv c0 s1 o1) as (s3 & Hs3 & Hi); [apply IH; lia|done..|].
    rewrite Hs in Hs3. by injection Hs3 as ->. }
  destruct (Hrange s Hinv Hlen) as [Hr0 Hr1]. destruct (LatchFacts.latch_step_inv c0 s o Hinv Hr0 Hr1 Ha) as (s' & Hs & _).
  destruct Hinv as [Hc Hw Ho _]. split_and!; [eauto|done|intros Hin; specialize (Ho Hin); lia|].
  intros Hd i cd c Hi. assert (0 < count LatchFacts.waits (threads s)) as Hpos by (apply count_pos; eexists _, _; split; [exact Hi|done]). specialize (Hw Hpos). lia.
Qed.

Lemma latch_correct_witness :
  (exists s', step CountDownLatch.body (mk_state 0%Z [Ready CountDownLatch.Wait; Idle] [(CountDownLatch.CountDown, tt)]) (Monitor.Run 0 0) ⇓ s') /\
  CountDownLatch.getCount 0 = (1 - LatchFacts.downs [(CountDownLatch.CountDown, tt)])%Z /\
  ((CountDownLatch.Wait, tt) ∈ [(CountDownLatch.CountDown, tt)] -> (1 <= LatchFacts.downs [(CountDownLatch.CountDown, tt)])%Z) /\
  ((1 <= LatchFacts.downs [(CountDownLatch.CountDown, tt)])%Z -> forall i cd c, [Ready CountDownLatch.Wait; Idle] !! i <> Some (Waiting cd c)).
Proof.
  apply (latch_correct 1 2 (mk_state 0%Z [Ready CountDownLatch.Wait; Idle] [(CountDownLatch.CountDown, tt)]) (Monitor.Run 0 0)); [done|done| |].
  - apply (reach_step _ _ (mk_state 1%Z [Waiting NotEmpty CountDownLatch.Wait; Ready CountDownLatch.CountDown] []) (Monitor.Run 1 0)); [| |done].
    + apply (reach_step _ _ (mk_state 1%Z [Waiting NotEmpty CountDownLatch.Wait; Idle] []) (Call 1 CountDownLatch.CountDown)); [|done|done].
      apply (reach_step _ _ (mk_state 1%Z [Ready CountDownLatch.Wait; Idle] []) (Monitor.Run 0 0)); [| |done].
      * apply (reach_step _ _ (LatchFacts.start 1 2) (Call 0 CountDownLatch.Wait)); [apply reach_refl|done|done].
      * exists CountDownLatch.Wait. split; [done|]. by intros s c r [=].
    + exists CountDownLatch.CountDown. split; [done|]. by intros s c r [=].
  - exists CountDownLatch.Wait. split; [done|]. by intros s c r [=].
Defined.
End QueueTheorems.
