(* ===== verification/ThreadPools.v ===== *)
(** * ThreadPools: the whole thread pool

    Models the rest of [ThreadPool] ([src/muduo/base/ThreadPool.h],
    [ThreadPool.cc]) around the critical sections of [Monitors]: the
    constructor, [start], [run] with and without threads, the loop of
    [runInThread] and the second half of [stop].  The state is the monitor,
    the program counter of every worker and what was executed; the threads
    with an index below the number of workers are the workers.  [start]
    creates the workers in one step: each may be slow to begin, so that this
    only adds interleavings. *)
From S2P Require Import Prelude Monitors Queues.

Local Open Scope muduo_scope.

Module Pool.
Import Monitor.
Section pool.
(** The tasks that throw, and whether [_thread_init_callback] is set. *)
Context (throws : ThreadPool.task -> bool) (init_callback : bool).

(** [runInThread]: the callback, the test of [_running], inside [take], about
    to run a task, returned. *)
Inductive worker : Type := WInit | WCheck | WTake | WTask (x : ThreadPool.task) | WExit.

Record t : Type := mk {
  mon : state ThreadPool.t ThreadPool.call (option ThreadPool.task);
  _threads : list worker;
  executed : list ThreadPool.task;
  inits : nat;                        (* calls of [_thread_init_callback] *)
  aborted : bool }.                   (* a task threw: the process ends *)

Definition set_mon (s : t) m : t := mk m (_threads s) (executed s) (inits s) (aborted s).
Definition set_worker (s : t) (i : nat) w : t := mk (mon s) (<[i := w]> (_threads s)) (executed s) (inits s) (aborted s).
Definition call_init (s : t) : t := if init_callback then mk (mon s) (_threads s) (executed s) (S (inits s)) (aborted s) else s.

(** The constructor, with [clients] threads that will use the pool, and
    [setMaxQueueSize]. *)
Definition make (clients : nat) : t := mk (mk_state (ThreadPool.mk [] 0 false) (replicate clients Idle) []) [] [] 0 false.
Definition setMaxQueueSize (capacity : nat) (s : t) : t :=
  set_mon s (mk_state (ThreadPool.mk (ThreadPool._queue (shared (mon s))) capacity (ThreadPool._running (shared (mon s))))
                      (threads (mon s)) (log (mon s))).

Definition start (threads_num : nat) (s : t) : outcome t :=
  assert_ (bool_decide (_threads s = []));;
  let s := mk (mk_state (ThreadPool.mk (ThreadPool._queue (shared (mon s))) (ThreadPool._queue_capacity (shared (mon s))) true)
                        (replicate threads_num Idle ++ threads (mon s)) (log (mon s)))
              (replicate threads_num WInit) (executed s) (inits s) (aborted s) in
  mret (if bool_decide (threads_num = 0) then call_init s else s).

(** Running a task, in a worker or in the caller: an exception that leaves
    [runInThread] ends the process, by [abort] or by [std::terminate]. *)
Definition exec (x : ThreadPool.task) (s : t) : t :=
  mk (mon s) (_threads s) (executed s ++ [x]) (inits s) (aborted s || throws x).

(** The next step of [runInThread] outside the mutex. *)
Definition runInThread (i : nat) (s : t) : outcome t :=
  match _threads s !! i with
  | Some WInit => mret (set_worker (call_init s) i WCheck)
  | Some WCheck =>
      if ThreadPool._running (shared (mon s)) then
        m ← step ThreadPool.body (mon s) (Call i ThreadPool.Take);
        mret (set_worker (set_mon s m) i WTake)
      else mret (set_worker s i WExit)
  | Some (WTask x) => mret (set_worker (exec x s) i WCheck)
  | _ => mret s
  end.

(** [Task task(take()); if (task)]: what the worker does once [take] returned. *)
Definition after_take (m : state ThreadPool.t ThreadPool.call (option ThreadPool.task)) : worker :=
  match last (log m) with Some (_, Some x) => WTask x | _ => WCheck end.

(** One critical section of the thread [i]. *)
Definition section (i j : nat) (s : t) : outcome t :=
  m ← step ThreadPool.body (mon s) (Monitor.Run i j);
  mret (match _threads s !! i, threads m !! i with
        | Some WTake, Some Idle => set_worker (set_mon s m) i (after_take m)
        | _, _ => set_mon s m
        end).

(** [run]: in the calling thread [k] if the pool has no threads. *)
Definition run (k : nat) (x : ThreadPool.task) (s : t) : outcome t :=
  if bool_decide (_threads s = []) then mret (exec x s)
  else m ← step ThreadPool.body (mon s) (Call k (ThreadPool.Run x)); mret (set_mon s m).
Definition stop (k : nat) (s : t) : outcome t :=
  m ← step ThreadPool.body (mon s) (Call k ThreadPool.Stop); mret (set_mon s m).

(** The destructor reads [_running] and calls [stop]. *)
Definition destroy (k : nat) (s : t) : outcome t :=
  if ThreadPool._running (shared (mon s)) then stop k s else mret s.

(** The loop of [join]s in [stop] returns when every worker has. *)
Definition joined (s : t) : bool := forallb (fun w => match w with WExit => true | _ => false end) (_threads s).

Inductive move : Type :=
  | Worker (i : nat) | Section_ (i j : nat) | Spurious (i : nat) | Run (k : nat) (x : ThreadPool.task) | Stop (k : nat).

Definition pool_step (s : t) (mv : move) : outcome t :=
  match mv with
  | Worker i => runInThread i s
  | Section_ i j => section i j s
  | Spurious i => m ← step ThreadPool.body (mon s) (Monitor.Spurious i); mret (set_mon s m)
  | Run k x => run k x s
  | Stop k => stop k s
  end.

(** Clients are not workers and make one call at a time. *)
Definition allowed (s : t) (mv : move) : Prop :=
  aborted s = false /\
  match mv with
  | Worker i => is_Some (_threads s !! i)
  | Section_ i j => Monitor.allowed ThreadPool.body (mon s) (Monitor.Run i j)
  | Spurious i => Monitor.allowed ThreadPool.body (mon s) (Monitor.Spurious i)
  | Run k _ | Stop k => length (_threads s) <= k /\ threads (mon s) !! k = Some Idle
  end.

Inductive reachable (s0 : t) : t -> Prop :=
  | reach_refl : reachable s0 s0
  | reach_step s mv s' : reachable s0 s -> allowed s mv -> pool_step s mv ⇓ s' -> reachable s0 s'.
End pool.
End Pool.

(** ** Specification *)
Module PoolSpec.
Import Monitor Pool Instances.
(** The tasks given to a pool with threads, in the order in which [run] queued
    them, and the tasks that workers took and have not run. *)
Definition submitted (s : t) : list ThreadPool.task := BufferSpec.puts ThreadPool.body (log (mon s)).
Definition pending (w : worker) : list ThreadPool.task := match w with WTask x => [x] | _ => [] end.
Definition in_flight (s : t) : list ThreadPool.task := concat (pending <$> _threads s).
Definition queue (s : t) : list ThreadPool.task := ThreadPool._queue (shared (mon s)).
Definition running (s : t) : bool := ThreadPool._running (shared (mon s)).
Definition capacity (s : t) : nat := ThreadPool._queue_capacity (shared (mon s)).

(** Nothing moves unless a client calls: every worker has returned or is inside
    [take], and no thread wants the mutex. *)
Definition at_rest (s : t) : Prop :=
  Forall (fun w => w = WTake \/ w = WExit) (_threads s) /\ forall i c, threads (mon s) !! i <> Some (Ready c).
End PoolSpec.

Module PoolFacts.
Import Monitor Pool PoolSpec Instances.

Definition ok_thread (w : option worker) (th : thread ThreadPool.call) : Prop :=
  match w with
  | Some WTake => th = Ready ThreadPool.Take \/ th = Waiting NotEmpty ThreadPool.Take
  | Some _ => th = Idle
  | None => match th with
            | Idle | Ready (ThreadPool.Run _) | Ready ThreadPool.Stop | Waiting NotFull (ThreadPool.Run _) => True
            | _ => False
            end
  end.

Lemma ok_wake w th : ok_thread w th -> ok_thread w (wake th).
Proof. destruct w as [[]|]; simpl; try (by intros ->); [by intros [-> | ->]; left|]. by destruct th as [|?|[] []]. Qed.

(** A signal moves threads only by waking them. *)
Lemma deliver_lookup {C} sg j (ts : list (thread C)) k th' :
  deliver sg j ts !! k = Some th' -> exists th, ts !! k = Some th /\ (th' = th \/ th' = wake th).
Proof.
  destruct sg as [|c|c]; simpl; [eauto| |].
  - destruct (ts !! j) as [tj|] eqn:Hj; [|eauto]. destruct (wakes c tj); [|eauto].
    intros [(-> & <- & _)|[_ Hk]]%list_lookup_insert_Some; eauto.
  - rewrite list_lookup_fmap. destruct (ts !! k) as [th|]; [|done]. intros [= <-]. exists th. split; [done|]. destruct (wakes c th); auto.
Qed.

Lemma deliver_idle {C} sg j (ts : list (thread C)) i : ts !! i = Some Idle -> deliver sg j ts !! i = Some Idle.
Proof.
  intros Hi. destruct sg as [|c|c]; simpl; [done| |by rewrite list_lookup_fmap, Hi].
  destruct (ts !! j) as [tj|] eqn:Hj; [|done]. destruct (wakes c tj) eqn:Hw; [|done].
  destruct (decide (i = j)) as [->|]; [|by rewrite list_lookup_insert_ne]. rewrite Hi in Hj. injection Hj as <-. done.
Qed.

Lemma length_deliver {C} sg j (ts : list (thread C)) : length (deliver sg j ts) = length ts.
Proof.
  destruct sg as [|c|c]; simpl; [done| |by rewrite length_fmap]. destruct (ts !! j) as [tj|]; [|done].
  destruct (wakes c tj); by rewrite ?length_insert.
Qed.

(** What is in flight when one worker moves. *)
Lemma flight_insert ws i a b : ws !! i = Some a ->
  concat (pending <$> <[i := b]> ws) ++ pending a ≡ₚ concat (pending <$> ws) ++ pending b.
Proof.
  revert i. induction ws as [|w ws IH]; intros [|i] Hi; simpl in Hi; simplify_eq; simpl.
  - set (l := concat (list_fmap _ _ pending ws)). solve_Permutation.
  - specialize (IH i Hi). rewrite <-!app_assoc. by apply Permutation_app_head.
Qed.

Lemma flight_single ws i a b : length ws = 1 -> ws !! i = Some a ->
  concat (pending <$> <[i := b]> ws) = pending b /\ concat (pending <$> ws) = pending a.
Proof. destruct ws as [|w [|]]; [done| |done]. intros _. destruct i as [|i]; [|done]. intros [= ->]. simpl. by rewrite !app_nil_r. Qed.

(** The same tasks; with one worker, in the same order. *)
Definition same (n : nat) (l1 l2 : list ThreadPool.task) : Prop := l1 ≡ₚ l2 /\ (n = 1 -> l1 = l2).

(** A worker that moves from [a] to [b], taking [dt] and executing [de]. *)
Lemma same_move ws i a b (l e dt de : list ThreadPool.task) : ws !! i = Some a -> pending a ++ dt = de ++ pending b ->
  same (length ws) l (e ++ concat (pending <$> ws)) ->
  same (length ws) (l ++ dt) ((e ++ de) ++ concat (pending <$> <[i := b]> ws)).
Proof.
  intros Hi Hab [Hp Ho]. split.
  - pose proof (flight_insert ws i a b Hi) as Hf. rewrite Hp, <-!app_assoc. apply Permutation_app_head.
    apply (Permutation_app_inv_r (pending a)). rewrite <-!app_assoc.
    rewrite (Permutation_app_comm dt), Hab, Hf. solve_Permutation.
  - intros H1. rewrite (Ho H1). destruct (flight_single ws i a b H1 Hi) as [-> ->]. rewrite <-!app_assoc. by rewrite Hab.
Qed.

Section facts.
Context (throws : ThreadPool.task -> bool) (init_callback : bool) (p0 : ThreadPool.t) (total : nat).
Abbreviation step_ := (pool_step throws init_callback).
Abbreviation taken m := (BufferSpec.takes ThreadPool.body (log m)).

Definition linked (ws : list worker) (ts : list (thread ThreadPool.call)) : Prop :=
  forall k th, ts !! k = Some th -> ok_thread (ws !! k) th.
Definition nobody_waits (ts : list (thread ThreadPool.call)) : Prop := forall k c, ts !! k <> Some (Waiting NotEmpty c).

Record inv (s : t) : Prop := {
  i_mon : Monitor.reachable ThreadPool.body (BufferFacts.start p0 total) (mon s);
  i_len : length (_threads s) <= length (threads (mon s));
  i_link : linked (_threads s) (threads (mon s));
  i_exec : same (length (_threads s)) (taken (mon s)) (executed s ++ in_flight s);
  i_exit : WExit ∈ _threads s -> running s = false;
  i_stopped : running s = false -> nobody_waits (threads (mon s)) }.

Lemma linked_deliver ws sg j ts : linked ws ts -> linked ws (deliver sg j ts).
Proof. intros Hl k th' Hk. destruct (deliver_lookup _ _ _ _ _ Hk) as (th & Hth & [-> | ->]); [by apply Hl|by apply ok_wake, Hl]. Qed.

Lemma linked_insert ws ts (i : nat) th : linked ws ts -> ok_thread (ws !! i) th -> linked ws (<[i := th]> ts).
Proof. intros Hl Ht k th' [(-> & <- & _)|[_ Hk]]%list_lookup_insert_Some; [done|by apply Hl]. Qed.

Lemma linked_both ws ts (i : nat) w th : linked ws ts -> i < length ws -> ok_thread (Some w) th -> linked (<[i := w]> ws) (<[i := th]> ts).
Proof.
  intros Hl Hi Ht k th' [(-> & <- & _)|[Hne Hk]]%list_lookup_insert_Some; [by rewrite list_lookup_insert_eq|].
  rewrite list_lookup_insert_ne by done. by apply Hl.
Qed.

(** A worker that stays away from the mutex. *)
Lemma linked_worker ws ts (i : nat) a b : linked ws ts -> ws !! i = Some a -> (forall th, ok_thread (Some a) th -> ok_thread (Some b) th) ->
  linked (<[i := b]> ws) ts.
Proof.
  intros Hl Hi Hab k th Hk. specialize (Hl k th Hk). destruct (decide (k = i)) as [->|]; [|by rewrite list_lookup_insert_ne].
  rewrite list_lookup_insert_eq by (by eapply lookup_lt_Some). rewrite Hi in Hl. by apply Hab.
Qed.

Lemma waits_deliver sg j ts : nobody_waits ts -> nobody_waits (deliver sg j ts).
Proof.
  intros Hn k c Hk. destruct (deliver_lookup _ _ _ _ _ Hk) as (th & Hth & [<- |Hw]); [by eapply Hn|]. by destruct th.
Qed.

Lemma waits_insert ts (i : nat) th : nobody_waits ts -> (forall c, th <> Waiting NotEmpty c) -> nobody_waits (<[i := th]> ts).
Proof. intros Hn Ht k c [(-> & -> & _)|[_ Hk]]%list_lookup_insert_Some; [by eapply Ht|by eapply Hn]. Qed.

Lemma waits_notify_all (ts : list (thread ThreadPool.call)) j : nobody_waits (deliver (NotifyAll NotEmpty) j ts).
Proof. intros k c. simpl. rewrite list_lookup_fmap. destruct (ts !! k) as [[|?|[] ?]|]; done. Qed.

Lemma exit_insert (ws : list worker) (i : nat) w : WExit ∈ <[i := w]> ws -> w = WExit \/ WExit ∈ ws.
Proof. intros [k [(-> & <- & _)|[_ Hk]]%list_lookup_insert_Some]%list_elem_of_lookup; [by left|right]. by eapply list_elem_of_lookup_2. Qed.

(** A worker that moves outside the mutex and executes [de]. *)
Lemma inv_worker s i w b e de ab : inv s -> _threads s !! i = Some w -> pending w = de ++ pending b ->
  (forall th, ok_thread (Some w) th -> ok_thread (Some b) th) -> (b = WExit -> running s = false) ->
  inv (mk (mon s) (<[i := b]> (_threads s)) (executed s ++ de) e ab).
Proof.
  intros [Hm Hlen Hl He Hx Hs] Hw Hp Hok Hb. split; cbn [mon _threads executed]; [done|by rewrite length_insert| | | |done].
  - by eapply linked_worker.
  - unfold in_flight. cbn [mon _threads executed]. rewrite length_insert. rewrite <-(app_nil_r (taken (mon s))).
    apply (same_move _ _ w); [done|by rewrite app_nil_r|done].
  - intros [->|Hin]%exit_insert; [by apply Hb|by apply Hx].
Qed.

Lemma idle_thread s i w : inv s -> _threads s !! i = Some w -> (forall th, ok_thread (Some w) th -> th = Idle) -> threads (mon s) !! i = Some Idle.
Proof.
  intros [_ Hlen Hl _ _ _] Hw Hok. pose proof (lookup_lt_Some _ _ _ Hw) as Hi.
  destruct (lookup_lt_is_Some_2 (threads (mon s)) i) as [th Hth]; [lia|].
  pose proof (Hl i th Hth) as Ht. rewrite Hw in Ht. by rewrite Hth, (Hok _ Ht).
Qed.

Lemma runInThread_inv s i : inv s -> is_Some (_threads s !! i) -> exists s', runInThread throws init_callback i s ⇓ s' /\ inv s'.
Proof.
  intros Hinv [w Hw]. unfold runInThread. rewrite Hw. destruct w as [| | |x|]; try (by eexists; split; [done|]).
  - eexists. split; [done|]. unfold call_init, set_worker.
    destruct init_callback; cbn [mon _threads executed inits aborted]; rewrite <-(app_nil_r (executed s)); by apply (inv_worker _ _ WInit).
  - destruct (ThreadPool._running _) eqn:Hr; eexists; (split; [done|]).
    + pose proof (idle_thread _ _ _ Hinv Hw (fun _ H => H)) as Hidle. destruct Hinv as [Hm Hlen Hl He Hx Hs]. pose proof (lookup_lt_Some _ _ _ Hw).
      unfold set_worker, set_mon. split; cbn [mon _threads executed shared threads log].
      * by eapply (Monitor.reach_step _ _ _ (Call i ThreadPool.Take)).
      * by rewrite !length_insert.
      * apply linked_both; [done|done|by left].
      * unfold in_flight. cbn [mon _threads]. rewrite length_insert. rewrite <-(app_nil_r (BufferSpec.takes _ _)), <-(app_nil_r (executed s)).
        by apply (same_move _ _ WCheck).
      * intros [[=]|Hin]%exit_insert. by apply Hx.
      * unfold running. cbn [mon shared]. congruence.
    + unfold set_worker. rewrite <-(app_nil_r (executed s)). by apply (inv_worker _ _ WCheck).
  - eexists. split; [done|]. unfold exec, set_worker. cbn [mon _threads executed inits aborted]. by apply (inv_worker _ _ (WTask x)).
Qed.

(** A critical section that changes neither the workers nor what was taken. *)
Lemma inv_mon s m : inv s -> Monitor.reachable ThreadPool.body (BufferFacts.start p0 total) m ->
  length (threads m) = length (threads (mon s)) -> linked (_threads s) (threads m) -> taken m = taken (mon s) ->
  ThreadPool._running (shared m) = false \/ ThreadPool._running (shared m) = running s ->
  (ThreadPool._running (shared m) = false -> nobody_waits (threads m)) -> inv (set_mon s m).
Proof.
  intros [Hm Hlen Hl He Hx Hs] Hm' Hlen' Hl' Ht Hr Hs'. split; cbn [mon _threads executed set_mon]; [done|by rewrite Hlen'|done| | |done].
  - by rewrite Ht.
  - intros Hin. specialize (Hx Hin). unfold running in *. cbn [mon set_mon]. naive_solver congruence.
Qed.

(** The worker [i] inside [take]. *)
Lemma take_inv s i j : inv s -> Monitor.allowed ThreadPool.body (mon s) (Monitor.Run i j) -> _threads s !! i = Some WTake ->
  exists s', section i j s ⇓ s' /\ inv s'.
Proof.
  intros Hinv Ha Hw. pose proof Hinv as [Hm Hlen Hl He Hx Hs]. pose proof (lookup_lt_Some _ _ _ Hw) as Hi. unfold section.
  pose proof Ha as (c & Hc & _). pose proof (Hl _ _ Hc) as Hok. rewrite Hw in Hok. destruct Hok as [[= ->]|[=]].
  destruct (step ThreadPool.body (mon s) (Monitor.Run i j)) as [m|] eqn:Hst.
  2: { cbn [step] in Hst. rewrite Hc in Hst. unfold ThreadPool.body, ThreadPool.take in Hst.
       destruct (ThreadPool._queue _); [destruct (ThreadPool._running _)|]; done. }
  assert (Monitor.reachable ThreadPool.body (BufferFacts.start p0 total) m) as Hm' by (by eapply Monitor.reach_step).
  eexists. split; [done|]. cbn [step] in Hst. rewrite Hc in Hst. unfold ThreadPool.body, ThreadPool.take in Hst.
  assert (i < length (threads (mon s))) as Hit by lia.
  destruct (ThreadPool._queue (shared (mon s))) as [|x q] eqn:Hq; [destruct (ThreadPool._running (shared (mon s))) eqn:Hr|];
    cbn [mbind outcome_bind mret outcome_ret] in Hst; injection Hst as <-; cbn [threads].
  - rewrite Hw, list_lookup_insert_eq by done. apply inv_mon; cbn [threads shared log]; [done|done|by rewrite length_insert| |done|by right|congruence].
    apply linked_insert; [done|]. rewrite Hw. by right.
  - rewrite Hw. cbn [deliver]. rewrite list_lookup_insert_eq by done. unfold set_worker, set_mon, after_take. cbn [log]. rewrite last_snoc.
    split; cbn [mon _threads executed shared threads log deliver]; [done|by rewrite !length_insert|by apply linked_both| | |].
    + unfold in_flight. cbn [mon _threads]. rewrite length_insert, BufferFacts.takes_snoc. cbn [option_list result part pool_buffer id].
      rewrite <-(app_nil_r (executed s)). by apply (same_move _ _ WTake).
    + done.
    + intros _. apply waits_insert; [by apply Hs|done].
  - rewrite Hw. rewrite deliver_idle by (by apply list_lookup_insert_eq). unfold set_worker, set_mon, after_take. cbn [log]. rewrite last_snoc.
    split; cbn [mon _threads executed shared threads log]; [done| | | | |].
    + by rewrite length_deliver, !length_insert.
    + by apply linked_deliver, linked_both.
    + unfold in_flight. cbn [mon _threads]. rewrite length_insert, BufferFacts.takes_snoc. cbn [option_list result part pool_buffer id].
      rewrite <-(app_nil_r (executed s)). by apply (same_move _ _ WTake).
    + intros [[=]|Hin]%exit_insert. by apply Hx.
    + intros Hr. apply waits_deliver, waits_insert; [by apply Hs|done].
Qed.

(** A client inside [run] or [stop]. *)
Lemma client_inv s i j : inv s -> Monitor.allowed ThreadPool.body (mon s) (Monitor.Run i j) -> _threads s !! i = None ->
  exists s', section i j s ⇓ s' /\ inv s'.
Proof.
  intros Hinv Ha Hw. pose proof Hinv as [Hm Hlen Hl He Hx Hs]. unfold section.
  pose proof Ha as (c & Hc & _). pose proof (Hl _ _ Hc) as Hok. rewrite Hw in Hok.
  assert (forall m, step ThreadPool.body (mon s) (Monitor.Run i j) ⇓ m -> Monitor.reachable ThreadPool.body (BufferFacts.start p0 total) m) as Hm'
    by (intros; by eapply Monitor.reach_step).
  cbn [step] in *. rewrite Hc in *. destruct c as [x| |]; [|done|]; unfold ThreadPool.body in *.
  - unfold ThreadPool.run in *. destruct (ThreadPool.isFull _); cbn [negb assert_ mbind outcome_bind mret outcome_ret] in *;
      (eexists; split; [done|]); rewrite Hw; apply inv_mon; cbn [threads shared log ThreadPool._running]; auto.
    + by rewrite length_insert.
    + apply linked_insert; [done|by rewrite Hw].
    + intros Hr. apply waits_insert; [by apply Hs|done].
    + by rewrite length_deliver, length_insert.
    + apply linked_deliver, linked_insert; [done|by rewrite Hw].
    + rewrite BufferFacts.takes_snoc. simpl. by rewrite app_nil_r.
    + intros Hr. apply waits_deliver, waits_insert; [by apply Hs|done].
  - unfold ThreadPool.stop in *. cbn [mbind outcome_bind mret outcome_ret] in *. eexists. split; [done|]. rewrite Hw. apply inv_mon; cbn [threads shared log ThreadPool._running]; auto.
    + by rewrite length_deliver, length_insert.
    + apply linked_deliver, linked_insert; [done|by rewrite Hw].
    + rewrite BufferFacts.takes_snoc. simpl. by rewrite app_nil_r.
    + intros _. apply waits_notify_all.
Qed.

(** A call of a client, and a spurious wake-up. *)
Lemma call_inv s k c : inv s -> _threads s !! k = None -> threads (mon s) !! k = Some Idle -> c <> ThreadPool.Take ->
  exists m, step ThreadPool.body (mon s) (Call k c) ⇓ m /\ inv (set_mon s m).
Proof.
  intros Hinv Hw Hk Hc. pose proof Hinv as [Hm Hlen Hl He Hx Hs]. eexists. split; [done|].
  apply inv_mon; cbn [threads shared log]; [done| |by rewrite length_insert| |done|by right|].
  - by eapply (Monitor.reach_step _ _ _ (Call k c)).
  - apply linked_insert; [done|]. rewrite Hw. by destruct c.
  - intros Hr. apply waits_insert; [by apply Hs|done].
Qed.

Lemma pool_step_inv s mv : inv s -> _threads s <> [] -> allowed s mv -> exists s', step_ s mv ⇓ s' /\ inv s'.
Proof.
  intros Hinv Hne [_ Ha]. destruct mv as [i|i j|i|k x|k]; cbn [pool_step].
  - by apply runInThread_inv.
  - pose proof Ha as (c & Hc & _). pose proof (i_link _ Hinv _ _ Hc) as Hok.
    destruct (_threads s !! i) as [[]|] eqn:Hw; try done; [by apply take_inv|by apply client_inv].
  - pose proof Ha as [th Hth]. pose proof Hinv as [Hm Hlen Hl He Hx Hs]. cbn [step]. rewrite Hth. eexists. split; [done|].
    apply inv_mon; cbn [threads shared log]; [done| |by rewrite length_insert| |done|by right|].
    + eapply (Monitor.reach_step _ _ _ (Monitor.Spurious i)); [done|done|]. cbn [step]. by rewrite Hth.
    + apply linked_insert; [done|]. by apply ok_wake, Hl.
    + intros Hr. apply waits_insert; [by apply Hs|]. by destruct th.
  - destruct Ha as [Hk Hidle]. unfold run. rewrite bool_decide_false by done.
    destruct (call_inv s k (ThreadPool.Run x)) as (m & -> & Hi); [done|by apply lookup_ge_None|done..|]. by eexists.
  - destruct Ha as [Hk Hidle]. unfold stop.
    destruct (call_inv s k ThreadPool.Stop) as (m & -> & Hi); [done|by apply lookup_ge_None|done..|]. by eexists.
Qed.

Lemma step_length s mv s' : step_ s mv ⇓ s' -> length (_threads s') = length (_threads s).
Proof.
  destruct mv as [i|i j|i|k x|k]; cbn [pool_step].
  - unfold runInThread, call_init. destruct (_threads s !! i) as [[]|]; [..|by intros [= <-]].
    + destruct init_callback; intros [= <-]; simpl; by rewrite length_insert.
    + destruct (ThreadPool._running _); intros [= <-]; simpl; by rewrite length_insert.
    + by intros [= <-].
    + intros [= <-]. simpl. by rewrite length_insert.
    + by intros [= <-].
  - unfold section. destruct (step _ _ _) as [m|]; [|done]. intros [= <-].
    destruct (_threads s !! i) as [[]|], (threads m !! i) as [[]|]; try done. simpl. by rewrite length_insert.
  - destruct (step _ _ _); [|done]. by intros [= <-].
  - unfold run. case_bool_decide; [by intros [= <-]|]. destruct (step _ _ _); [|done]. by intros [= <-].
  - unfold stop. destruct (step _ _ _); [|done]. by intros [= <-].
Qed.
End facts.

(** The capacity is never changed by the critical sections. *)
Lemma capacity_kept p0 total m : Monitor.reachable ThreadPool.body (BufferFacts.start p0 total) m ->
  ThreadPool._queue_capacity (shared m) = ThreadPool._queue_capacity p0.
Proof.
  induction 1 as [|m o m' _ IH _ Hs]; [done|]. rewrite <-IH. clear -Hs. destruct o as [i c|i j|i]; cbn [step] in Hs.
  - by injection Hs as <-.
  - destruct (threads m !! i) as [[|c|]|]; try (by injection Hs as <-).
    destruct c; cbn [ThreadPool.body] in Hs.
    + unfold ThreadPool.run in Hs. destruct (ThreadPool.isFull _); by injection Hs as <-.
    + unfold ThreadPool.take in Hs. destruct (ThreadPool._queue _); [destruct (ThreadPool._running _)|]; by injection Hs as <-.
    + by injection Hs as <-.
  - destruct (threads m !! i); by injection Hs as <-.
Qed.

Lemma start_ok cb clients capacity n s0 : 0 < n -> Pool.start cb n (setMaxQueueSize capacity (make clients)) ⇓ s0 ->
  inv (ThreadPool.mk [] capacity true) (n + clients) s0 /\ length (_threads s0) = n.
Proof.
  intros Hn. unfold Pool.start. cbn [setMaxQueueSize make set_mon _threads mon]. rewrite (bool_decide_false (n = 0)) by lia.
  cbn [assert_ mbind outcome_bind mret outcome_ret shared threads log ThreadPool._queue ThreadPool._queue_capacity]. intros [= <-].
  assert (concat (pending <$> replicate n WInit) = []) as Hf by (clear; induction n as [|n IH]; [done|exact IH]).
  split; [|by apply length_replicate]. split; cbn [mon _threads executed threads shared log].
  - unfold BufferFacts.start. rewrite replicate_add. apply Monitor.reach_refl.
  - rewrite length_app, !length_replicate. lia.
  - intros k th Hk. rewrite <-replicate_add in Hk. apply lookup_replicate in Hk as [-> Hk].
    destruct (decide (k < n)); [by rewrite lookup_replicate_2|]. by rewrite lookup_ge_None_2 by (rewrite length_replicate; lia).
  - unfold in_flight. cbn [_threads]. rewrite Hf. split; done.
  - by intros [[=] _]%elem_of_replicate.
  - done.
Qed.

Lemma pool_reachable_inv throws cb p0 total s0 s : inv p0 total s0 -> 0 < length (_threads s0) -> Pool.reachable throws cb s0 s ->
  inv p0 total s /\ length (_threads s) = length (_threads s0).
Proof.
  intros H0 Hn. induction 1 as [|s1 mv s2 _ [IH Hlen] Ha Hst]; [done|].
  destruct (pool_step_inv throws cb p0 total s1 mv IH) as (s3 & Hs3 & Hinv); [intros He; rewrite He in Hlen; simpl in Hlen; lia|done|].
  rewrite Hst in Hs3. injection Hs3 as <-. split; [done|]. rewrite <-Hlen. by eapply step_length.
Qed.

(** At rest, a worker inside [take] waits for a task. *)
Lemma rest_take p0 total s i : inv p0 total s -> at_rest s -> _threads s !! i = Some WTake ->
  threads (mon s) !! i = Some (Waiting NotEmpty ThreadPool.Take).
Proof.
  intros [_ Hlen Hl _ _ _] [_ Hr] Hw. pose proof (lookup_lt_Some _ _ _ Hw).
  destruct (lookup_lt_is_Some_2 (threads (mon s)) i) as [th Hth]; [lia|].
  specialize (Hl _ _ Hth). rewrite Hw in Hl. destruct Hl as [-> | ->]; [by apply Hr in Hth|done].
Qed.

Lemma rest_flight s : at_rest s -> in_flight s = [].
Proof.
  intros [Hws _]. unfold in_flight. induction Hws as [|w ws Hw _ IH]; [done|]. rewrite fmap_cons. cbn [concat]. rewrite IH. by destruct Hw as [-> | ->].
Qed.

(** A stopped pool at rest has no workers left. *)
Lemma rest_stopped p0 total s : inv p0 total s -> at_rest s -> running s = false -> joined s = true.
Proof.
  intros Hinv Hrest Hr. unfold joined. apply forallb_forall. intros w Hw. apply list_elem_of_In, list_elem_of_lookup in Hw as [i Hi].
  pose proof Hrest as [Hws _]. rewrite Forall_lookup in Hws. destruct (Hws i w Hi) as [-> | ->]; [|done].
  pose proof (rest_take _ _ _ _ Hinv Hrest Hi) as Hth. by destruct (i_stopped _ _ _ Hinv Hr i ThreadPool.Take).
Qed.

(** A running pool at rest has nothing queued and room for everybody. *)
Lemma rest_running p0 total s : inv p0 total s -> BufferFacts.inv ThreadPool.body (mon s) -> 0 < length (_threads s) ->
  at_rest s -> running s = true -> queue s = [] /\ forall i c, threads (mon s) !! i <> Some (Waiting NotFull c).
Proof.
  intros Hinv Hb Hn Hrest Hr. destruct (lookup_lt_is_Some_2 (_threads s) 0 Hn) as [w Hw].
  pose proof Hrest as [Hws Hready]. rewrite Forall_lookup in Hws.
  assert (w = WTake) as ->.
  { destruct (Hws 0 w Hw) as [| ->]; [done|]. rewrite (i_exit _ _ _ Hinv) in Hr; [done|]. by eapply list_elem_of_lookup_2. }
  pose proof (rest_take _ _ _ _ Hinv Hrest Hw) as Hth.
  destruct (BufferFacts.inv_no_lost_wakeup _ _ Hb) as [(i & c & Hi)|[He Hf]]; [by apply Hready in Hi|].
  assert (queue s = []) as Hq by apply (He _ _ Hth). split; [done|]. intros i c Hi. specialize (Hf i c Hi).
  unfold room, pool_buffer, pool_room in Hf. unfold queue in Hq. rewrite Hq in Hf. case_bool_decide; [|done]. injection Hf. simpl. lia.
Qed.

(** The steps that a worker of a stopped pool still has to make. *)
Definition left (w : worker) : nat := match w with WExit => 0 | WCheck => 1 | WInit | WTask _ => 2 | WTake => 3 end.
Definition steps_left (s : t) : nat := sum_list (left <$> _threads s).

(** The moves in which a worker gets somewhere. *)
Definition progress (s : t) (mv : move) : Prop :=
  match mv with
  | Worker i => exists w, _threads s !! i = Some w /\ w <> WTake /\ w <> WExit
  | Section_ i _ => is_Some (_threads s !! i)
  | _ => False
  end.

Lemma left_insert ws i a b : ws !! i = Some a -> sum_list (left <$> <[i := b]> ws) + left a = sum_list (left <$> ws) + left b.
Proof.
  revert i. induction ws as [|w ws IH]; intros [|i] Hi; cbn in Hi; simplify_eq.
  - cbn. lia.
  - specialize (IH _ Hi). change (<[S i := b]> (w :: ws)) with (w :: <[i := b]> ws). rewrite !fmap_cons. cbn [sum_list]. lia.
Qed.

(** [stop] cannot be undone, and a worker only gets nearer to its end. *)
Lemma stopped_step throws cb p0 total s mv s' : inv p0 total s -> _threads s <> [] -> running s = false -> allowed s mv ->
  pool_step throws cb s mv ⇓ s' -> running s' = false /\ steps_left s' <= steps_left s /\ (progress s mv -> steps_left s' < steps_left s).
Proof.
  intros Hinv Hne Hr [_ Ha] Hst. unfold running, steps_left in *. destruct mv as [i|i j|i|k x|k]; cbn [pool_step] in Hst.
  - unfold runInThread in Hst. destruct Ha as [w Hw]. rewrite Hw in Hst.
    destruct w as [| | |x|]; rewrite ?Hr in Hst; unfold call_init in Hst; try destruct cb; injection Hst as <-; cbn [mon _threads set_worker exec] in *;
      (split; [done|]); try (pose proof (left_insert _ _ _ WCheck Hw) as Hl; pose proof (left_insert _ _ _ WExit Hw) as Hl'; simpl in Hl, Hl'; split; lia);
      (split; [lia|]); simpl; intros (w & Hw' & ? & ?); congruence.
  - destruct Ha as (c & Hc & _). pose proof (i_link _ _ _ Hinv _ _ Hc) as Hok. unfold section in Hst. cbn [step] in Hst. rewrite Hc in Hst.
    destruct (_threads s !! i) as [w|] eqn:Hw.
    + destruct w; try done. destruct Hok as [[= ->]|[=]]. cbn [ThreadPool.body] in Hst. unfold ThreadPool.take in Hst. rewrite Hr in Hst.
      assert (i < length (threads (mon s))) as Hi by (by eapply lookup_lt_Some).
      pose proof (fun b => left_insert _ _ _ b Hw) as Hl.
      destruct (ThreadPool._queue (shared (mon s))) as [|x q]; cbn [mbind outcome_bind mret outcome_ret threads] in Hst;
        rewrite (deliver_idle _ _ _ i) in Hst by (by apply list_lookup_insert_eq); injection Hst as <-;
        unfold after_take; cbn [set_worker set_mon mon _threads shared log ThreadPool._running]; rewrite last_snoc;
        [specialize (Hl WCheck)|specialize (Hl (WTask x))]; simpl in Hl; (split; [done|split; lia]).
    + destruct c as [x| |]; [|done|]; cbn [ThreadPool.body] in Hst; [unfold ThreadPool.run in Hst; destruct (ThreadPool.isFull _)|];
        injection Hst as <-; cbn [set_mon mon _threads shared ThreadPool._running] in *; (split_and!; [done|lia|]); simpl; rewrite Hw; by intros [? [=]].
  - cbn [step] in Hst. destruct Ha as [th Hth]. rewrite Hth in Hst. injection Hst as <-. split_and!; [done|done|by intros []].
  - unfold run in Hst. rewrite bool_decide_false in Hst by done. injection Hst as <-. split_and!; [done|done|by intros []].
  - injection Hst as <-. split_and!; [done|done|by intros []].
Qed.

Lemma forallb_false {A} (p : A -> bool) l : forallb p l = false -> exists i a, l !! i = Some a /\ p a = false.
Proof.
  induction l as [|a l IH]; [done|]. simpl. destruct (p a) eqn:Ha; simpl.
  - intros (i & b & Hi & Hb)%IH. by exists (S i), b.
  - intros _. by exists 0, a.
Qed.

(** A worker of a stopped pool that has not returned can get on. *)
Lemma stopped_progress p0 total s : inv p0 total s -> running s = false -> aborted s = false -> joined s = false ->
  exists mv, allowed s mv /\ progress s mv.
Proof.
  intros Hinv Hr Hab (i & w & Hw & Hne)%forallb_false.
  assert (w = WTake \/ (w <> WTake /\ w <> WExit)) as [-> |Hother] by (destruct w; auto; done).
  - destruct (lookup_lt_is_Some_2 (threads (mon s)) i) as [th Hth]; [pose proof (lookup_lt_Some _ _ _ Hw); pose proof (i_len _ _ _ Hinv); lia|].
    pose proof (i_link _ _ _ Hinv _ _ Hth) as Hok. rewrite Hw in Hok. destruct Hok as [-> | ->].
    + destruct (MonitorFacts.section_enabled ThreadPool.body _ _ _ Hth) as [j Hj]. exists (Section_ i j). split; [done|by exists WTake].
    + by destruct (i_stopped _ _ _ Hinv Hr i ThreadPool.Take).
  - exists (Worker i). split; [split; [done|by eexists]|by exists w].
Qed.
End PoolFacts.

(** ** Properties *)
Module PoolTheorems.
Import Monitor Pool PoolSpec PoolFacts Instances.

(** C30.  A [ThreadPool] with [n > 0] threads, under any interleaving of its
    workers and of any number of clients: no assertion fails; the queue keeps
    to its capacity; every task that [run] accepted was executed once, is held
    by a worker, or is queued, and with one worker they are executed in the
    order of acceptance.  When nothing moves: a pool that was not stopped has
    executed every accepted task and blocks no client, and every worker of a
    stopped pool has returned, so that [stop] returns. *)
Theorem thread_pool_correct throws init_callback capacity clients n s0 s :
  0 < n -> start init_callback n (setMaxQueueSize capacity (make clients)) ⇓ s0 -> Pool.reachable throws init_callback s0 s ->
  (forall mv, allowed s mv -> exists s', pool_step throws init_callback s mv ⇓ s') /\
  (0 < capacity -> length (queue s) <= capacity) /\
  submitted s ≡ₚ executed s ++ in_flight s ++ queue s /\
  (n = 1 -> submitted s = executed s ++ in_flight s ++ queue s) /\
  (at_rest s -> if running s then submitted s ≡ₚ executed s /\ forall i c, threads (mon s) !! i <> Some (Waiting NotFull c)
                else joined s = true).
Proof.
  intros Hn H0 Hr. destruct (start_ok _ _ _ _ _ Hn H0) as [Hi0 Hlen0].
  destruct (pool_reachable_inv _ _ _ _ _ _ Hi0 ltac:(lia) Hr) as [Hinv Hlen]. rewrite Hlen0 in Hlen.
  assert (BufferFacts.inv ThreadPool.body (mon s)) as Hb by (eapply BufferFacts.buffer_reachable_inv, Hinv; simpl; [intros _; simpl; lia|done]).
  pose proof (capacity_kept _ _ _ (i_mon _ _ _ Hinv)) as Hcap. cbn [ThreadPool._queue_capacity] in Hcap.
  pose proof (BufferFacts.inv_fifo _ _ Hb) as Hfifo. pose proof (i_exec _ _ _ Hinv) as [Hp Ho]. rewrite Hlen in Ho.
  assert (submitted s ≡ₚ executed s ++ in_flight s ++ queue s) as Hsub.
  { unfold submitted. rewrite Hfifo, Hp. by rewrite <-app_assoc. }
  split_and!; [| |done| |].
  - intros mv Ha. destruct (pool_step_inv throws init_callback _ _ s mv Hinv) as (s' & Hs & _); [intros He; rewrite He in Hlen; simpl in Hlen; lia|done|eauto].
  - intros Hc. pose proof (BufferFacts.inv_sound _ _ Hb) as Hs. unfold sound, pool_buffer, pool_sound in Hs. rewrite Hcap in Hs. by apply Hs.
  - intros H1. unfold submitted. rewrite Hfifo, (Ho H1). by rewrite <-app_assoc.
  - intros Hrest. destruct (running s) eqn:Hrun; [|by eapply rest_stopped].
    destruct (rest_running _ _ _ Hinv Hb ltac:(lia) Hrest Hrun) as [Hq Hnf]. split; [|done].
    rewrite Hsub, Hq, (rest_flight _ Hrest). by rewrite !app_nil_r.
Qed.

(** Schedules from [s], counting the moves in which a worker gets somewhere. *)
Inductive runs throws cb (s : t) : nat -> t -> Prop :=
  | runs_refl : runs throws cb s 0 s
  | runs_other k s1 mv s2 : runs throws cb s k s1 -> allowed s1 mv -> pool_step throws cb s1 mv ⇓ s2 -> runs throws cb s k s2
  | runs_progress k s1 mv s2 : runs throws cb s k s1 -> allowed s1 mv -> progress s1 mv -> pool_step throws cb s1 mv ⇓ s2 -> runs throws cb s (S k) s2.

(** [stop] returns: once its critical section has run, the workers make at
    most three moves each, whatever the clients do, and as long as one of them
    has not returned (and no task threw) a worker can move. *)
Theorem stop_returns throws init_callback capacity clients n s0 s k s' :
  0 < n -> start init_callback n (setMaxQueueSize capacity (make clients)) ⇓ s0 -> Pool.reachable throws init_callback s0 s ->
  running s = false -> runs throws init_callback s k s' ->
  k <= 3 * n /\ running s' = false /\ (aborted s' = false -> joined s' = false -> exists mv, allowed s' mv /\ progress s' mv).
Proof.
  intros Hn H0 Hr Hstop Hruns. destruct (start_ok _ _ _ _ _ Hn H0) as [Hi0 Hlen0].
  destruct (pool_reachable_inv _ _ _ _ _ _ Hi0 ltac:(lia) Hr) as [Hinv Hlen]. rewrite Hlen0 in Hlen.
  assert (steps_left s <= 3 * n) as Hmax.
  { unfold steps_left. rewrite <-Hlen. clear. induction (_threads s) as [|w ws IH]; [done|]. rewrite fmap_cons. cbn [sum_list length]. destruct w; simpl in *; lia. }
  assert (inv (ThreadPool.mk [] capacity true) (n + clients) s' /\ length (_threads s') = n /\ running s' = false /\ k + steps_left s' <= steps_left s) as (Hinv' & _ & Hs' & Hk).
  { induction Hruns as [|k s1 mv s2 _ (IHi & IHl & IHr & IHk) Ha Hst|k s1 mv s2 _ (IHi & IHl & IHr & IHk) Ha Hp Hst]; [split_and!; [done..|lia]| |].
    all: assert (_threads s1 <> []) as Hne by (intros He; rewrite He in IHl; simpl in IHl; lia).
    all: destruct (pool_step_inv throws init_callback _ _ s1 mv IHi Hne Ha) as (s3 & Hs3 & Hi3); rewrite Hst in Hs3; injection Hs3 as <-.
    all: destruct (stopped_step _ _ _ _ _ _ _ IHi Hne IHr Ha Hst) as (Hr2 & Hle & Hlt).
    all: split_and!; [done|by rewrite (step_length _ _ _ _ _ Hst)|done|].
    - lia.
    - specialize (Hlt Hp). lia. }
  split_and!; [lia|done|]. intros. by eapply stopped_progress.
Qed.

(** Two workers, one client that queued the task [5]; the first worker took it. *)
Definition witness_start : t := mk (mk_state (ThreadPool.mk [] 1 true) [Idle; Idle; Idle] []) [WInit; WInit] [] 0 false.
Definition witness_state : t :=
  mk (mk_state (ThreadPool.mk [] 1 true) [Idle; Idle; Idle] [(ThreadPool.Run 5, None); (ThreadPool.Take, Some 5)]) [WTask 5; WInit] [] 0 false.

Lemma thread_pool_correct_witness :
  (forall mv, allowed witness_state mv -> exists s', pool_step (fun _ => false) false witness_state mv ⇓ s') /\
  (0 < 1 -> length (queue witness_state) <= 1) /\
  submitted witness_state ≡ₚ executed witness_state ++ in_flight witness_state ++ queue witness_state /\
  (2 = 1 -> submitted witness_state = executed witness_state ++ in_flight witness_state ++ queue witness_state) /\
  (at_rest witness_state -> if running witness_state
     then submitted witness_state ≡ₚ executed witness_state /\ forall i c, threads (mon witness_state) !! i <> Some (Waiting NotFull c)
     else joined witness_state = true).
Proof.
  apply (thread_pool_correct (fun _ => false) false 1 1 2 witness_start witness_state); [lia|done|].
  assert (forall (m : state _ _ _) i j c, Forall (fun th : thread ThreadPool.call => wakes NotEmpty th = false /\ wakes NotFull th = false) (threads m) ->
    threads m !! i = Some (Ready c) -> Monitor.allowed ThreadPool.body m (Monitor.Run i j)) as Hsec.
  { intros m i j c Hw Hc. exists c. split; [done|]. intros s k r _ (k' & th & Hk & Hth). rewrite Forall_lookup in Hw.
    destruct (Hw _ _ Hk). destruct k; congruence. }
  assert (forall s mv, Pool.reachable (fun _ => false) false witness_start s -> allowed s mv ->
    forall s', pool_step (fun _ => false) false s mv = Done s' -> Pool.reachable (fun _ => false) false witness_start s') as Hone by (intros; by eapply reach_step).
  pose proof (reach_refl (fun _ => false) false witness_start) as H0.
  pose proof (Hone _ (Run 2 5) H0 (conj eq_refl (conj (le_n 2) eq_refl)) _ eq_refl) as H1.
  unshelve epose proof (Hone _ (Section_ 2 0) H1 _ _ eq_refl) as H2; [split; [done|]; eapply Hsec; [by repeat constructor|done]|].
  pose proof (Hone _ (Worker 0) H2 (conj eq_refl (mk_is_Some _ _ eq_refl)) _ eq_refl) as H3.
  pose proof (Hone _ (Worker 0) H3 (conj eq_refl (mk_is_Some _ _ eq_refl)) _ eq_refl) as H4.
  unshelve epose proof (Hone _ (Section_ 0 0) H4 _ _ eq_refl) as H5; [split; [done|]; eapply Hsec; [by repeat constructor|done]|].
  exact H5.
Defined.

(** A stopped pool of one worker that was still about to test [_running]. *)
Definition stopped_start : t := mk (mk_state (ThreadPool.mk [] 0 true) [Idle; Idle] []) [WInit] [] 0 false.
Definition stopped_state : t := mk (mk_state (ThreadPool.mk [] 0 false) [Idle; Idle] [(ThreadPool.Stop, None)]) [WInit] [] 0 false.
Definition stopped_end : t := mk (mk_state (ThreadPool.mk [] 0 false) [Idle; Idle] [(ThreadPool.Stop, None)]) [WCheck] [] 0 false.

Lemma stop_returns_witness :
  1 <= 3 * 1 /\ running stopped_end = false /\
  (aborted stopped_end = false -> joined stopped_end = false -> exists mv, allowed stopped_end mv /\ progress stopped_end mv).
Proof.
  apply (stop_returns (fun _ => false) false 0 1 1 stopped_start stopped_state 1 stopped_end); [lia|done| |done|].
  - eapply (reach_step _ _ _ _ (Section_ 1 0)); [eapply (reach_step _ _ _ _ (Stop 1)); [apply reach_refl|done|done]| |done].
    split; [done|]. exists ThreadPool.Stop. split; [done|]. by intros s c r [=].
  - eapply (runs_progress _ _ _ _ _ (Worker 0)); [apply runs_refl|split; [done|by eexists]| |done]. by exists WInit.
Defined.

(** Without threads, [run] executes the task in the caller, before it returns. *)
Theorem run_without_threads throws k x s : _threads s = [] -> exists s', run throws k x s ⇓ s' /\ executed s' = executed s ++ [x] /\ mon s' = mon s.
Proof. intros Hn. unfold run. rewrite Hn. by eexists. Qed.
End PoolTheorems.
