(* ===== verification/LogFiles.v ===== *)
(** * LogFiles: append-only files and their roll-over

    Models [FileUtil::AppendFile] ([src/muduo/base/FileUtil.cc]) and [LogFile]
    ([src/muduo/base/LogFile.h], [LogFile.cc]).  A file is what [fwrite] has
    accepted; the clock and [fwrite] are arguments, and [fwrite] may fail.  The
    theorem: lines are neither split between files nor reordered, of a line a
    prefix is in the file, all of it unless a write fails, and no file is
    opened twice. *)
From stdpp Require Import sorting.
From S2P Require Import Prelude.

Local Open Scope Z_scope.
Local Open Scope muduo_scope.

(** [fwrite_unlocked] in one call of [append]: how many of the bytes that remain
    its [k]-th call accepts. *)
Abbreviation fwrite_t := (nat -> bytes -> Z).

Module AppendFile.
Record t : Type := mk { data_ : bytes; writtenBytes_ : Z }.
Definition init : t := mk [] 0.
Definition writtenBytes (f : t) : Z := writtenBytes_ f.

(** The [while (remain > 0)] loop, one write per round; what has been written. *)
Fixpoint write_loop (fuel : nat) (fwrite : fwrite_t) (k : nat) (rest : bytes) : bytes :=
  match fuel with
  | O => []
  | S fuel =>
      match rest with
      | [] => []
      | _ =>
          let x := fwrite k rest in
          if bool_decide (x = 0) then []
          else take (Z.to_nat x) rest ++ write_loop fuel fwrite (S k) (drop (Z.to_nat x) rest)
      end
  end.

(** The first write is made before the loop, whatever the length; every round
    of the loop accepts a byte or ends it, so that the length is fuel enough. *)
Definition written (fwrite : fwrite_t) (logline : bytes) : bytes :=
  let n := fwrite 0%nat logline in
  let rest := drop (Z.to_nat n) logline in
  take (Z.to_nat n) logline ++ write_loop (length rest) fwrite 1 rest.
Definition append (fwrite : fwrite_t) (logline : bytes) (f : t) : t :=
  mk (data_ f ++ written fwrite logline) (writtenBytes_ f + len logline).
End AppendFile.

Module LogFile.
Definition _k_roll_per_seconds : Z := 60 * 60 * 24.

(** [_file] with the second in its name; [closed]: the earlier files, oldest first. *)
Record t : Type := mk {
  _roll_size : Z;
  _flush_interval : Z;
  _check_every_n : Z;
  _count : Z;
  _start_of_period : Z;
  _last_roll : Z;
  _last_flush : Z;
  _file : option (Z * AppendFile.t);
  closed : list (Z * AppendFile.t);
  flushes : nat;
}.

Definition rollFile (now : Z) (l : t) : t * bool :=
  let start := Z.quot now _k_roll_per_seconds * _k_roll_per_seconds in
  if bool_decide (_last_roll l < now) then
    (mk (_roll_size l) (_flush_interval l) (_check_every_n l) (_count l) start now now
        (Some (now, AppendFile.init)) (closed l ++ option_list (_file l)) (flushes l), true)
  else (l, false).

(** [is_path]: the name contains a slash. *)
Definition init (is_path : bool) (roll_size flush_interval check_interval now : Z) : outcome t :=
  assert_ (negb is_path);;
  mret (rollFile now (mk roll_size flush_interval check_interval 0 0 0 0 None [] 0)).1.

Definition with_file (f : Z * AppendFile.t) (l : t) : t :=
  mk (_roll_size l) (_flush_interval l) (_check_every_n l) (_count l) (_start_of_period l) (_last_roll l)
     (_last_flush l) (Some f) (closed l) (flushes l).
Definition with_count (n : Z) (l : t) : t :=
  mk (_roll_size l) (_flush_interval l) (_check_every_n l) n (_start_of_period l) (_last_roll l)
     (_last_flush l) (_file l) (closed l) (flushes l).
Definition flush (l : t) : t :=
  mk (_roll_size l) (_flush_interval l) (_check_every_n l) (_count l) (_start_of_period l) (_last_roll l)
     (_last_flush l) (_file l) (closed l) (S (flushes l)).
Definition set_last_flush (now : Z) (l : t) : t :=
  mk (_roll_size l) (_flush_interval l) (_check_every_n l) (_count l) (_start_of_period l) (_last_roll l)
     now (_file l) (closed l) (flushes l).

(** The clock is read once here and once more by [rollFile]. *)
Definition append_unlocked (fwrite : fwrite_t) (now now' : Z) (logline : bytes) (l : t) : outcome t :=
  match _file l with
  | None => Fault Undefined
  | Some (name, f) =>
      let f := AppendFile.append fwrite logline f in
      let l := with_file (name, f) l in
      if bool_decide (_roll_size l < AppendFile.writtenBytes f) then mret (rollFile now' l).1
      else
        count ← checked32 (_count l + 1);
        let l := with_count count l in
        if bool_decide (_check_every_n l < _count l) then
          let l := with_count 0 l in
          let this_period := Z.quot now _k_roll_per_seconds * _k_roll_per_seconds in
          if negb (bool_decide (this_period = _start_of_period l)) then mret (rollFile now' l).1
          else if bool_decide (_flush_interval l < now - _last_flush l) then mret (flush (set_last_flush now l))
          else mret l
        else mret l
  end.
End LogFile.

(** ** Specification *)
Module LogFileSpec.
Import LogFile.
(** One call of [append]: what the clock and [fwrite] answer, and the line. *)
Record call : Type := mk_call { c_now : Z; c_now' : Z; c_fwrite : fwrite_t; c_line : bytes }.
Definition step (l : t) (c : call) : outcome t :=
  append_unlocked (c_fwrite c) (c_now c) (c_now' c) (c_line c) l.
Definition kept (c : call) : bytes := AppendFile.written (c_fwrite c) (c_line c).
Definition files (l : t) : list (Z * AppendFile.t) := closed l ++ option_list (_file l).

(** [fwrite] accepts no more than it is given; it makes progress if after the
    first call it also accepts at least one byte. *)
Definition bounded (fwrite : fwrite_t) : Prop := forall k s, 0 <= fwrite k s <= len s.
Definition progresses (fwrite : fwrite_t) : Prop := forall k s, s <> [] -> 1 <= fwrite (S k) s.
End LogFileSpec.

Module LogFileFacts.
Import LogFile LogFileSpec.

Lemma prefix_take n (s l : bytes) : l `prefix_of` drop n s -> take n s ++ l `prefix_of` s.
Proof. intros [k Hk]. exists k. by rewrite <-app_assoc, <-Hk, take_drop. Qed.

Lemma write_loop_prefix fwrite fuel : forall k rest, AppendFile.write_loop fuel fwrite k rest `prefix_of` rest.
Proof.
  induction fuel as [|fuel IH]; intros k rest; [by apply prefix_nil|].
  destruct rest as [|c rest']; [done|]. cbn [AppendFile.write_loop]. set (rest := c :: rest').
  case_bool_decide; [by apply prefix_nil|]. by apply prefix_take.
Qed.

Lemma write_loop_all fwrite : bounded fwrite -> progresses fwrite -> forall fuel k rest, (length rest <= fuel)%nat ->
  AppendFile.write_loop fuel fwrite (S k) rest = rest.
Proof.
  intros Hb Hw fuel. induction fuel as [|fuel IH]; intros k rest Hf; [by destruct rest; [|simpl in Hf; lia]|].
  destruct rest as [|c rest']; [done|]. cbn [AppendFile.write_loop]. set (rest := c :: rest') in *.
  assert (1 <= fwrite (S k) rest) as Hx by (by apply Hw). pose proof (Hb (S k) rest) as Hl. rewrite bool_decide_eq_false_2 by lia.
  rewrite IH; [apply take_drop|]. rewrite length_drop. unfold len in Hl. lia.
Qed.

(** A prefix of the line is written, all of it if no write fails. *)
Lemma written_prefix fwrite s : AppendFile.written fwrite s `prefix_of` s.
Proof. apply prefix_take, write_loop_prefix. Qed.
Lemma written_all fwrite s : bounded fwrite -> progresses fwrite -> AppendFile.written fwrite s = s.
Proof. intros Hb Hw. unfold AppendFile.written. cbv zeta. rewrite write_loop_all by done. apply take_drop. Qed.

(** The lines that each file holds. *)
Record inv (pieces : list bytes) (l : t) : Prop := {
  inv_file : exists f, _file l = Some (_last_roll l, f);
  inv_sorted : StronglySorted Z.lt (files l).*1;
  inv_lines : exists groups : list (list bytes), pieces = concat groups /\
    (fun f => AppendFile.data_ f.2) <$> files l = @concat char <$> groups;
  inv_written : forall f, f ∈ files l -> len (AppendFile.data_ f.2) <= AppendFile.writtenBytes_ f.2;
  inv_count : 0 <= _count l <= _check_every_n l;
  inv_check : 0 <= _check_every_n l < two_31 - 1;
}.

Lemma sorted_snoc (l : list Z) x : StronglySorted Z.lt l -> Forall (fun y => y < x) l -> StronglySorted Z.lt (l ++ [x]).
Proof.
  induction 1 as [|y l Hs IH Hy]; intros Hx; [repeat constructor|]. inversion Hx; subst. simpl. constructor; [by apply IH|].
  apply Forall_app. split; [done|by constructor].
Qed.

Lemma sorted_last l x : StronglySorted Z.lt (l ++ [x]) -> Forall (fun y => y < x) l.
Proof.
  induction l as [|y l IH]; intros Hs; [constructor|]. inversion Hs as [|? ? Hs' Hy]; subst. constructor; [|by apply IH].
  apply Forall_app in Hy as [_ Hy]. by inversion Hy.
Qed.

(** Rolling keeps everything and adds an empty file, if the second is new. *)
Lemma roll_inv lines l now : inv lines l -> inv lines (rollFile now l).1.
Proof.
  intros Hi. unfold rollFile. case_bool_decide as Hnow; [|done].
  destruct Hi as [[f Hf] Hs (groups & Hl & Hg) Hw Hc Hn]. unfold files in *. rewrite Hf in *. simpl in *.
  rewrite fmap_app in Hs. simpl in Hs.
  split; simpl; [by eexists| |exists (groups ++ [[]])|intros f' [Hf'| ->%list_elem_of_singleton]%elem_of_app|done|done].
  - unfold files. simpl. rewrite !fmap_app. simpl. apply sorted_snoc; [done|].
    apply Forall_app. split; [|by constructor]. apply sorted_last in Hs. eapply Forall_impl; [exact Hs|]. simpl. lia.
  - rewrite concat_app. simpl. rewrite app_nil_r. split; [done|]. unfold files. simpl.
    by rewrite (fmap_app _ (closed l ++ [(_last_roll l, f)])), Hg, fmap_app.
  - by apply Hw.
  - done.
Qed.

(** What is written of a line goes into the current file. *)
Lemma line_inv fwrite lines l line name f :
  inv lines l -> _file l = Some (name, f) ->
  inv (lines ++ [AppendFile.written fwrite line]) (with_file (name, AppendFile.append fwrite line f) l).
Proof.
  intros [[f' Hf'] Hs (groups & Hl & Hg) Hw Hc Hn] Hf. rewrite Hf in Hf'. injection Hf' as -> <-.
  pose proof (written_prefix fwrite line) as Hpre%prefix_length. unfold AppendFile.append. set (piece := AppendFile.written fwrite line) in *.
  unfold files in *. rewrite Hf in *. simpl in *.
  rewrite !fmap_app in *. simpl in *.
  destruct groups as [|g groups _] using rev_ind; [by apply (f_equal length) in Hg; rewrite length_app in Hg; simpl in Hg; lia|].
  rewrite fmap_app in Hg. simpl in Hg. apply app_inj_tail in Hg as [Hg1 Hg2].
  split; simpl; [by eexists|unfold files; simpl; by rewrite fmap_app| | |done|done].
  - exists (groups ++ [g ++ [piece]]). unfold files. simpl. split.
    + rewrite Hl, !concat_app. simpl. by rewrite !app_nil_r, app_assoc.
    + rewrite !fmap_app. simpl. rewrite Hg1, Hg2. by rewrite concat_app; simpl; rewrite app_nil_r.
  - unfold files. simpl. intros f' [Hf'| ->%list_elem_of_singleton]%elem_of_app; [apply Hw, elem_of_app; by left|].
    simpl. rewrite len_app. assert (len (AppendFile.data_ f) <= AppendFile.writtenBytes_ f) by
      (apply (Hw (_last_roll l, f)); apply elem_of_app; right; by apply list_elem_of_singleton).
    unfold len in *. lia.
Qed.

(** Counting and flushing touch no file. *)
Lemma inv_fields lines l l' :
  inv lines l -> _file l' = _file l -> closed l' = closed l -> _last_roll l' = _last_roll l ->
  _check_every_n l' = _check_every_n l -> 0 <= _count l' <= _check_every_n l' -> inv lines l'.
Proof.
  intros [Hf Hs Hl Hw Hc Hn] E1 E2 E3 E4 Hc'. unfold files in *.
  split; unfold files; rewrite ?E1, ?E2, ?E3, ?E4; try done. by rewrite E4 in Hc'.
Qed.

Lemma append_inv lines l c :
  inv lines l -> exists l', step l c ⇓ l' /\ inv (lines ++ [kept c]) l'.
Proof.
  intros Hi. unfold step, append_unlocked. destruct (inv_file _ _ Hi) as [f Hf]. rewrite Hf.
  pose proof (line_inv (c_fwrite c) lines l (c_line c) _ f Hi Hf) as Hi1. set (l1 := with_file _ l) in *.
  pose proof (inv_count _ _ Hi1) as Hc. pose proof (inv_check _ _ Hi1) as Hn.
  case_bool_decide; [eexists; split; [done|by apply roll_inv]|].
  rewrite checked32_ok by (unfold int32_range, two_31 in *; lia). bind_step.
  case_bool_decide; [|eexists; split; [done|]; eapply inv_fields; [exact Hi1|done..|simpl in *; lia]].
  assert (inv (lines ++ [kept c]) (with_count 0 (with_count (_count l1 + 1) l1))) as Hi2
    by (eapply inv_fields; [exact Hi1|done..|simpl in *; lia]).
  destruct (negb _); [eexists; split; [done|by apply roll_inv]|].
  case_bool_decide; (eexists; split; [done|]); [|done]. eapply inv_fields; [exact Hi2|done..|simpl in *; lia].
Qed.

Lemma logfile_init_inv roll fl check now : 0 < now -> 0 <= check < two_31 - 1 ->
  exists l, init false roll fl check now ⇓ l /\ inv [] l.
Proof.
  intros Hnow Hcheck. eexists. split; [done|]. unfold rollFile. cbn [_last_roll]. rewrite bool_decide_eq_true_2 by done.
  split; simpl; [by eexists|unfold files; simpl; repeat constructor|by exists [[]]| |lia|lia].
  unfold files. simpl. by intros f ->%list_elem_of_singleton.
Qed.
End LogFileFacts.

(** ** Properties *)
Module LogFileTheorems.
Import LogFile LogFileSpec LogFileFacts.

(** The log keeps every line: whatever the clock says, the files in the order
    of their creation hold the lines in the order of the calls, what is written
    of a line in one file, and that is a prefix of it, all of it if no write
    fails; the seconds in the names of the files increase, so that no file is
    opened twice; and the size that decides about rolling is at least the size
    of the file. *)
Theorem logfile_lines roll_size flush_interval check_interval now calls :
  0 < now -> 0 <= check_interval < two_31 - 1 ->
  exists l0 l groups,
    init false roll_size flush_interval check_interval now ⇓ l0 /\ run_all step l0 calls ⇓ l /\
    kept <$> calls = concat groups /\ (fun f => AppendFile.data_ f.2) <$> files l = @concat char <$> groups /\
    (forall c, kept c `prefix_of` c_line c /\ (bounded (c_fwrite c) -> progresses (c_fwrite c) -> kept c = c_line c)) /\
    StronglySorted Z.lt (files l).*1 /\
    (forall f, f ∈ files l -> len (AppendFile.data_ f.2) <= AppendFile.writtenBytes_ f.2).
Proof.
  intros Hnow Hcheck. destruct (logfile_init_inv roll_size flush_interval check_interval now Hnow Hcheck) as (l0 & Hl0 & Hi0).
  assert (forall calls lines l, inv lines l ->
    exists l', run_all step l calls ⇓ l' /\ inv (lines ++ (kept <$> calls)) l') as Hrun.
  { clear. intros calls. induction calls as [|c calls IH]; intros lines l Hi.
    - exists l. simpl. by rewrite app_nil_r.
    - destruct (append_inv lines l c Hi) as (l1 & Hs & Hi1). destruct (IH _ _ Hi1) as (l' & Hr & Hi').
      exists l'. simpl. rewrite Hs. split; [done|]. by rewrite <-app_assoc in Hi'. }
  destruct (Hrun calls [] l0 Hi0) as (l & Hr & [_ Hs (groups & Hg1 & Hg2) Hw _ _]).
  exists l0, l, groups. split_and!; try done. intros c. split; [apply written_prefix|apply written_all].
Qed.

(** Half of the bytes at a time. *)
Definition halves (_ : nat) (s : bytes) : Z := (len s + 1) / 2.
(** The disk is full: nothing more than the first half of the line. *)
Definition full_disk (k : nat) (s : bytes) : Z := if k is O then len s / 2 else 0.
Definition example_calls : list call :=
  [mk_call 100 100 halves (lit "first line"); mk_call 100 101 full_disk (lit "second"); mk_call 102 102 halves (lit "third")].

Lemma logfile_lines_witness :
  exists l0 l groups,
    init false 12 3 2 100 ⇓ l0 /\ run_all step l0 example_calls ⇓ l /\
    [lit "first line"; lit "sec"; lit "third"] = concat groups /\ (fun f => AppendFile.data_ f.2) <$> files l = @concat char <$> groups.
Proof.
  destruct (logfile_lines 12 3 2 100 example_calls) as (l0 & l & groups & H1 & H2 & H3 & H4 & _); [lia|unfold two_31; lia|].
  exists l0, l, groups. split_and!; [exact H1|exact H2| |exact H4]. rewrite <-H3. vm_compute. reflexivity.
Defined.
End LogFileTheorems.
