(* ===== verification/SharedLogs.v ===== *)
(** * SharedLogs: the log statements of many threads in one log file

    Composes the logger ([Loggers]) with a log file ([LogFiles]) that its output
    function appends to, as [src/muduo/base/tests/LogFile_test.cc] sets it up,
    when any number of threads log at the same time: each thread formats its
    line in a buffer of its own and then calls [LogFile::append], which takes
    the file's [MutexLock] ([Locks]) one system call at a time. *)
From stdpp Require Import sorting.
From S2P Require Import Prelude Timestamps LogStreams Dates UtcTimes Formats TimeZones Loggers Monitors Locks LogFiles.

Local Open Scope Z_scope.
Local Open Scope muduo_scope.

Module SharedLog.
Import Logger LogSpec.

(** A log statement: the clock and [errno] at it, the macro, its place and its
    operands. *)
Record stmt : Type := mk_stmt { time : Z; errno : Z; mac : macro; place : site; ops : list LogStream.operand }.
(** A call of [LogFile::append], and what [time(NULL)] and [fwrite] answer inside. *)
Record call : Type := mk_call { who : nat; what : stmt; now : Z; now' : Z; writes : fwrite_t; msg : bytes }.

Section machine.
Context `{CTime} `{ThreadIds} (strerror : Z -> bytes) (g : globals).

(** The critical section of [LogFile::append]. *)
Definition append (c : call) (l : LogFile.t) : outcome (section LogFile.t unit) :=
  l ← LogFile.append_unlocked (writes c) (now c) (now' c) (msg c) l;
  mret (Finished l NoSignal tt).

(** The thread-locals of every thread, the file under its mutex, and the calls
    made so far. *)
Record t : Type := mk {
  caches : list thread;
  locked : LockedMonitor.state LogFile.t call unit;
  issued : list call }.

Inductive move : Type :=
  | Log (i : nat) (st : stmt) (now now' : Z) (writes : fwrite_t)
  | Advance (i : nat).

(** A thread runs a statement up to the call of the output function, or moves
    on inside that call. *)
Definition step (s : t) (m : move) : outcome t :=
  match m with
  | Log i st now now' writes =>
      match caches s !! i with
      | None => mret s
      | Some th =>
          r ← statement strerror (time st) (tid i) (errno st) (mac st) (place st) (ops st) g th;
          let '(g', th', _) := r in
          match drop (length (events g)) (events g') with
          | Output _ msg :: _ =>
              let c := mk_call i st now now' writes msg in
              k ← LockedMonitor.step append (locked s) (LockedMonitor.Call i c);
              mret (mk (<[i := th']> (caches s)) k (issued s ++ [c]))
          | _ => mret (mk (<[i := th']> (caches s)) (locked s) (issued s))
          end
      end
  | Advance i =>
      k ← LockedMonitor.step append (locked s) (LockedMonitor.Advance i 0);
      mret (mk (caches s) k (issued s))
  end.

Definition init (l : LogFile.t) (n : nat) : t := mk (replicate n new_thread) (LockedMonitor.init l n) [].

(** ** Specification *)

(** The text of a statement of thread [i]: its line, as far as it fits the
    4000 bytes of the stream. *)
Definition shown (i : nat) (st : stmt) (l : bytes) : Prop :=
  exists u texts number, shows g (Z.quot (time st) 1000000) u /\
    Forall2 renders (operands strerror (mac st) (errno st) (place st) (ops st)) texts /\
    convert (LINE (place st)) ⇓ number /\ l = output_text g (time st) (tid i) u (mac st) (place st)
      (operands strerror (mac st) (errno st) (place st) (ops st)) texts number.

(** A statement that does not end the process, and whose operands have a text. *)
Definition sayable (st : stmt) : Prop :=
  level_of (mac st) <> FATAL /\ 1000000 <= time st /\
  exists u texts number, shows g (Z.quot (time st) 1000000) u /\
    Forall2 renders (operands strerror (mac st) (errno st) (place st) (ops st)) texts /\
    Forall LogStreamFacts.operand_ok (operands strerror (mac st) (errno st) (place st) (ops st)) /\
    convert (LINE (place st)) ⇓ number /\ LogStreamFacts.operand_ok (LogStream.Integer (LINE (place st))).

Definition allowed (s : t) (m : move) : Prop :=
  match m with
  | Log i st _ _ _ => LockedMonitor.pcs (locked s) !! i = Some LockedMonitor.PIdle /\ sayable st
  | Advance i => is_Some (LockedMonitor.pcs (locked s) !! i)
  end.

Inductive reachable (s0 : t) : t -> Prop :=
  | reach_refl : reachable s0 s0
  | reach_step s m s' : reachable s0 s -> allowed s m -> step s m ⇓ s' -> reachable s0 s'.

(** The calls that have returned from the critical section, in its order, and
    those of one thread. *)
Definition appended (s : t) : list call := (LockedMonitor.log (locked s)).*1.
(** What is in the file of a call. *)
Definition kept (c : call) : bytes := AppendFile.written (writes c) (msg c).
Definition by_thread (i : nat) (l : list call) : list call := filter (fun c => who c = i) l.
End machine.
End SharedLog.

(** ** Lemmas *)
Module SharedLogFacts.
Import Logger LogSpec LogFacts LockedMonitor SharedLog.

(** The call that a thread has not yet done. *)
Definition inflight (p : pc call) : option call :=
  match p with PLock c | PAssign c | PInside c => Some c | _ => None end.
(** [append] does not wait on a condition. *)
Definition simple (p : pc call) : bool :=
  match p with PIdle | PLock _ | PAssign _ | PInside _ | PReturn | PUnlock => true | _ => false end.

Section facts.
Context `{CTime} `{ThreadIds} (strerror : Z -> bytes) (g : globals).
Context (n : nat) (Htid : forall i, (i < n)%nat -> tid i < two_31).
Abbreviation append := SharedLog.append.

Record inv (s : SharedLog.t) : Prop := {
  i_lock : LockFacts.inv (locked s);
  i_threads : length (caches s) = n;
  i_length : length (pcs (locked s)) = n;
  i_caches : forall i th, caches s !! i = Some th -> cached g (tid i) th;
  i_file : LogFileFacts.inv (kept <$> appended s) (shared (locked s));
  i_simple : forall i p, pcs (locked s) !! i = Some p -> simple p = true;
  i_who : forall i p c, pcs (locked s) !! i = Some p -> inflight p = Some c -> who c = i;
  i_order : forall i, by_thread i (issued s) =
    by_thread i (appended s) ++ match pcs (locked s) !! i with Some p => option_list (inflight p) | None => [] end;
  i_shown : Forall (fun c => shown strerror g (who c) (what c) (msg c)) (issued s) }.

(** The critical section of a consistent file completes. *)
Lemma shared_append_ok lines l c : LogFileFacts.inv lines l ->
  exists l', append c l ⇓ Finished l' NoSignal tt /\ LogFileFacts.inv (lines ++ [kept c]) l'.
Proof.
  intros Hi. destruct (LogFileFacts.append_inv lines l (LogFileSpec.mk_call (now c) (now' c) (writes c) (msg c)) Hi) as (l' & Hs & Hi').
  exists l'. split; [|done]. unfold SharedLog.append. unfold LogFileSpec.step in Hs. cbn [LogFileSpec.c_now LogFileSpec.c_now' LogFileSpec.c_fwrite LogFileSpec.c_line] in Hs.
  by rewrite Hs.
Qed.

Lemma by_thread_app i l1 l2 : by_thread i (l1 ++ l2) = by_thread i l1 ++ by_thread i l2.
Proof. apply filter_app. Qed.

Lemma by_thread_one i c : by_thread i [c] = if bool_decide (who c = i) then [c] else [].
Proof. unfold by_thread. rewrite filter_cons, filter_nil. by case_decide as Hc; [rewrite bool_decide_true|rewrite bool_decide_false]. Qed.

(** One thread changes its place: what is to be shown of it. *)
Lemma shared_move s s' i p p' : inv s -> pcs (locked s) !! i = Some p -> LockFacts.inv (locked s') ->
  caches s' = caches s -> issued s' = issued s -> shared (locked s') = shared (locked s) -> log (locked s') = log (locked s) ->
  pcs (locked s') = <[i := p']> (pcs (locked s)) -> simple p' = true -> inflight p' = inflight p -> inv s'.
Proof.
  intros [Hl Hnc Hn Hc Hf Hsim Hw Ho Hsh] Hi Hl' Ec Ei Es Elog Ep Hs' Hin. unfold appended in *.
  assert (forall k, match pcs (locked s') !! k with Some q => option_list (inflight q) | None => [] end =
    match pcs (locked s) !! k with Some q => option_list (inflight q) | None => [] end) as Hsame.
  { intros k. rewrite Ep. destruct (decide (k = i)) as [->|Hne]; [|by rewrite list_lookup_insert_ne by done].
    rewrite list_lookup_insert_eq by (by eapply lookup_lt_Some). by rewrite Hi, Hin. }
  split; unfold appended; rewrite ?Ec, ?Ei, ?Es, ?Elog; try done.
  - by rewrite Ep, length_insert.
  - rewrite Ep. intros k q [(<- & <- & _)|[_ Hk]]%list_lookup_insert_Some; [done|by eapply Hsim].
  - rewrite Ep. intros k q c [(<- & <- & _)|[_ Hk]]%list_lookup_insert_Some Hq; [|by eapply Hw].
    rewrite Hin in Hq. by eapply Hw.
  - intros k. by rewrite Hsame.
Qed.

(** The critical section: the call leaves the thread and enters the log. *)
Lemma inv_append s i c l' : inv s -> pcs (locked s) !! i = Some (PInside c) ->
  let k := mk_state (lock (locked s)) l' (<[i := PReturn]> (pcs (locked s))) (log (locked s) ++ [(c, tt)]) in
  LockFacts.inv k -> LogFileFacts.inv ((kept <$> appended s) ++ [kept c]) l' -> inv (SharedLog.mk (caches s) k (issued s)).
Proof.
  intros [Hl Hnc Hn Hc Hf Hsim Hw Ho Hsh] Hi k Hl' Hf'. unfold appended in *.
  split; unfold appended, k; cbn [locked caches issued pcs log shared]; try done.
  - by rewrite length_insert.
  - by rewrite !fmap_app.
  - intros j q [(<- & <- & _)|[_ Hj]]%list_lookup_insert_Some; [done|by eapply Hsim].
  - intros j q d [(<- & <- & _)|[_ Hj]]%list_lookup_insert_Some Hq; [done|by eapply Hw].
  - intros j. rewrite fmap_app, by_thread_app. cbn [fmap list_fmap fst]. rewrite by_thread_one, (Hw i _ c Hi eq_refl).
    rewrite Ho. destruct (decide (j = i)) as [->|Hne].
    + rewrite Hi, list_lookup_insert_eq by (by eapply lookup_lt_Some). rewrite bool_decide_true by done. cbn [inflight option_list].
      by rewrite app_nil_r.
    + rewrite list_lookup_insert_ne by done. by rewrite bool_decide_false, app_nil_r by done.
Qed.

Lemma advance_ok s i : inv s -> is_Some (pcs (locked s) !! i) -> exists s', step strerror g s (SharedLog.Advance i) ⇓ s' /\ inv s'.
Proof.
  intros Hi [p Hp]. pose proof (i_simple _ Hi i p Hp) as Hsim.
  assert (LockedMonitor.allowed append (locked s) (LockedMonitor.Advance i 0)) as Ha.
  { split; [by eexists|]. intros c l' cd r _ Hb. unfold SharedLog.append in Hb. by destruct (LogFile.append_unlocked _ _ _ _ _). }
  destruct (LockFacts.locked_step append (locked s) (LockedMonitor.Advance i 0)) as (k & Hk & Hlk & _); [apply Hi|done| |].
  { intros _ _ c _ _. destruct (shared_append_ok _ _ c (i_file _ Hi)) as (l' & Hl' & _). by eexists. }
  cbn [step]. rewrite Hk. eexists. split; [done|]. cbn [LockedMonitor.step] in Hk. unfold advance in Hk. rewrite Hp in Hk.
  assert (forall (s' : SharedLog.t) p', LockFacts.inv (locked s') -> caches s' = caches s -> issued s' = issued s -> shared (locked s') = shared (locked s) ->
    log (locked s') = log (locked s) -> pcs (locked s') = <[i := p']> (pcs (locked s)) -> simple p' = true -> inflight p' = inflight p -> inv s') as Hmv
    by (intros; by eapply shared_move).
  destruct p as [|c|c|c| | |cd c|cd c|c|c]; try done.
  - injection Hk as <-. by destruct s.
  - destruct (MutexLock.pthread_mutex_lock _ _); injection Hk as <-; [|by destruct s]. by apply (Hmv _ (PAssign c)).
  - injection Hk as <-. by apply (Hmv _ (PInside c)).
  - destruct (shared_append_ok _ _ c (i_file _ Hi)) as (l' & Hl' & Hf'). rewrite Hl' in Hk.
    destruct (MutexLock.assertLocked i (lock (locked s))) as [[]|]; [|done]. injection Hk as <-. by apply inv_append.
  - injection Hk as <-. by apply (Hmv _ PUnlock).
  - destruct (MutexLock.pthread_mutex_unlock _ _) as [l|]; [|done]. injection Hk as <-. by apply (Hmv _ PIdle).
Qed.

(** A statement: the line is formatted and the thread asks for the mutex. *)
Lemma inv_issue s i st u u' fw l th : inv s -> pcs (locked s) !! i = Some PIdle -> cached g (tid i) th -> shown strerror g i st l ->
  let c := mk_call i st u u' fw l in
  inv (SharedLog.mk (<[i := th]> (caches s)) (goto (locked s) i (lock (locked s)) (PLock c)) (issued s ++ [c])).
Proof.
  intros [Hl Hnc Hn Hc Hf Hsim Hw Ho Hsh] Hi Hth Hs c. unfold appended in *.
  split; unfold appended, goto; cbn [locked caches issued pcs log shared]; try done.
  - by apply (LockFacts.inv_stay (locked s) i PIdle).
  - by rewrite length_insert.
  - by rewrite length_insert.
  - intros j th' [(<- & <- & _)|[_ Hj]]%list_lookup_insert_Some; [done|by apply Hc].
  - intros j q [(<- & <- & _)|[_ Hj]]%list_lookup_insert_Some; [done|by eapply Hsim].
  - intros j q d [(<- & <- & _)|[_ Hj]]%list_lookup_insert_Some Hq; [by injection Hq as <-|by eapply Hw].
  - intros j. rewrite by_thread_app, by_thread_one, Ho. cbn [who c]. destruct (decide (j = i)) as [->|Hne].
    + rewrite Hi, list_lookup_insert_eq by (by eapply lookup_lt_Some). rewrite bool_decide_true by done. cbn [inflight option_list].
      by rewrite app_nil_r.
    + rewrite list_lookup_insert_ne by done. by rewrite bool_decide_false, app_nil_r by done.
  - apply Forall_app. split; [done|]. by apply Forall_singleton.
Qed.

Lemma log_ok s i st u u' fw : inv s -> pcs (locked s) !! i = Some PIdle -> sayable strerror g st ->
  exists s', step strerror g s (Log i st u u' fw) ⇓ s' /\ inv s'.
Proof.
  intros Hi Hp (Hlv & Ht & v & texts & number & Hv & Hr & Hok & Hnum & Hnok).
  assert (i < n)%nat as Hin by (rewrite <-(i_length _ Hi); by eapply lookup_lt_Some).
  assert (is_Some (caches s !! i)) as [th Hth] by (apply lookup_lt_is_Some; by rewrite (i_threads _ Hi)).
  pose proof (i_caches _ Hi i th Hth) as Hc. pose proof (tid_pos i) as Hpos. pose proof (Htid i Hin).
  cbn [step]. rewrite Hth. destruct (enabled (mac st) g) eqn:He.
  - destruct (statement_ok strerror (time st) (tid i) (errno st) (mac st) (place st) (ops st) g th v texts number) as (th' & Hs & Hc'); [done..|].
    rewrite (bool_decide_eq_false_2 (level_of (mac st) = FATAL)) in Hs by done. rewrite Hs. cbn [mbind outcome_bind].
    rewrite events_record, drop_app_length. eexists. split; [done|]. apply inv_issue; [done..|]. by exists v, texts, number.
  - unfold statement. rewrite He. cbn [mbind outcome_bind mret outcome_ret]. rewrite drop_all, list_insert_id by done.
    eexists. split; [done|]. by destruct s.
Qed.

Lemma shared_step_ok s m : inv s -> allowed strerror g s m -> exists s', step strerror g s m ⇓ s' /\ inv s'.
Proof. intros Hi. destruct m as [i st u u' fw|i]; [intros [Hp Hs]; by apply log_ok|by apply advance_ok]. Qed.

Lemma shared_init l : LogFileFacts.inv [] l -> inv (SharedLog.init l n).
Proof.
  intros Hl. assert (forall i p, replicate n (@PIdle call) !! i = Some p -> p = PIdle) as Hidle by (by intros i p [-> _]%lookup_replicate).
  split; unfold appended; cbn [locked caches issued SharedLog.init LockedMonitor.init pcs log shared]; try done.
  - apply LockFacts.locked_init.
  - by rewrite length_replicate.
  - by rewrite length_replicate.
  - intros i th [-> _]%lookup_replicate. split; by intros [].
  - by intros i p ->%Hidle.
  - by intros i p c ->%Hidle.
  - intros i. destruct (replicate n PIdle !! i) as [p|] eqn:Hp; [|done]. by rewrite (Hidle _ _ Hp).
Qed.

Lemma shared_reachable_inv s0 s : inv s0 -> reachable strerror g s0 s -> inv s.
Proof.
  intros H1. induction 1 as [|s m s' _ IH Ha Hs]; [done|]. destruct (shared_step_ok s m IH Ha) as (s2 & Hs2 & Hi2).
  rewrite Hs in Hs2. by injection Hs2 as <-.
Qed.

(** What has been appended was issued. *)
Lemma appended_issued s c : inv s -> c ∈ appended s -> c ∈ issued s.
Proof.
  intros Hi Hc. assert (c ∈ by_thread (who c) (issued s)) as Hin.
  { rewrite (i_order _ Hi). apply elem_of_app. left. by apply list_elem_of_filter. }
  by apply list_elem_of_filter in Hin as [_ ?].
Qed.
End facts.
End SharedLogFacts.

(** ** Properties *)
Module SharedLogTheorems.
Import Logger LogSpec LockedMonitor SharedLog SharedLogFacts.

(** C26.  Many threads log into one file: for every interleaving of the
    statements (below [FATAL], which ends the process) of any number of threads,
    one system call of the mutex at a time, and any answers of [fwrite], no
    step fails, and the log files in the order of their creation hold exactly
    what was written of the texts whose [append] has run its critical section,
    each in one file; that is a prefix of the text, and all of it unless
    [fwrite] accepts nothing; the text is that of the statement (time, thread, level,
    operands, place, as far as the 4000 bytes of the stream hold them); the texts of
    one thread are in the order of its statements, and none of its statements
    is missing but one whose [append] it is still waiting in. *)
Theorem logged_lines_whole `{CTime} `{ThreadIds} strerror g roll_size flush_interval check_interval start l0 n s :
  (forall i, (i < n)%nat -> tid i < two_31) -> 0 < start -> 0 <= check_interval < two_31 - 1 ->
  LogFile.init false roll_size flush_interval check_interval start ⇓ l0 ->
  reachable strerror g (init l0 n) s ->
  (exists groups, kept <$> appended s = concat groups /\
     (fun f => AppendFile.data_ f.2) <$> LogFileSpec.files (shared (locked s)) = @concat char <$> groups) /\
  StronglySorted Z.lt (LogFileSpec.files (shared (locked s))).*1 /\
  (forall c, c ∈ appended s -> shown strerror g (who c) (what c) (msg c) /\ kept c `prefix_of` msg c /\
     (LogFileSpec.bounded (writes c) -> LogFileSpec.progresses (writes c) -> kept c = msg c)) /\
  (forall i, exists waiting, by_thread i (issued s) = by_thread i (appended s) ++ waiting /\ (length waiting <= 1)%nat /\
     (pcs (locked s) !! i = Some PIdle -> waiting = [])) /\
  (forall m, allowed strerror g s m -> exists s', step strerror g s m ⇓ s').
Proof.
  intros Htid Hst Hck Hl0 Hr.
  destruct (LogFileFacts.logfile_init_inv roll_size flush_interval check_interval start Hst Hck) as (l & Hl & Hli).
  rewrite Hl0 in Hl. injection Hl as <-.
  pose proof (shared_reachable_inv strerror g n Htid _ s (shared_init strerror g n l0 Hli) Hr) as Hi.
  split_and!.
  - destruct (LogFileFacts.inv_lines _ _ (i_file _ _ _ _ Hi)) as (groups & ? & ?). by exists groups.
  - apply (LogFileFacts.inv_sorted _ _ (i_file _ _ _ _ Hi)).
  - intros c Hc%(appended_issued _ _ _ _ _ Hi). pose proof (i_shown _ _ _ _ Hi) as Hs. rewrite Forall_forall in Hs.
    split_and!; [by apply Hs|apply LogFileFacts.written_prefix|apply LogFileFacts.written_all].
  - intros i. eexists. split; [apply (i_order _ _ _ _ Hi)|]. split; [|by intros ->].
    destruct (pcs (locked s) !! i) as [p|]; [|cbn; lia]. destruct (inflight p); cbn; lia.
  - intros m Hm. destruct (shared_step_ok strerror g n Htid s m Hi Hm) as (s' & Hs & _). by exists s'.
Qed.

(** Two threads; the first has written its line, the second waits for the
    mutex. *)
Definition warning (fd : Z) : stmt :=
  mk_stmt 951826554123456 0 LOG_WARN LoggerTheorems.example_site [LogStream.CString (Some (lit "fd ")); LogStream.Integer fd].
Definition small_ids : ThreadIds := LockTheorems.small_ids.
Definition example_step (s : t) (m : move) : outcome t :=
  step (H := OwnTime.own_time) (H0 := small_ids) (fun _ => []) LoggerTheorems.example_globals s m.
Definition first_file : LogFile.t := match LogFile.init false 4096 3 1024 100 with Done l => l | Fault _ => LogFile.mk 0 0 0 0 0 0 0 None [] 0 end.
Definition example_run : list move := [Log 0 (warning 7) 100 100 LogFileTheorems.halves; Advance 0; Log 1 (warning 8) 100 101 LogFileTheorems.full_disk; Advance 0; Advance 0; Advance 1].
Definition after (l : list move) : t := match run_all example_step (init first_file 2) l with Done s => s | Fault _ => init first_file 2 end.

Lemma warning_sayable fd : fd = 7 \/ fd = 8 -> sayable (H := OwnTime.own_time) (fun _ => []) LoggerTheorems.example_globals (warning fd).
Proof.
  intros Hfd. split; [done|]. split; [cbn; lia|]. exists LoggerTheorems.example_tm, [lit "fd "; Printf.dec fd], (lit "42"). split_and!.
  - split; [vm_compute; reflexivity|]. split; [|by vm_compute]. split; [by vm_compute|]. split; by vm_compute.
  - destruct Hfd as [-> | ->]; repeat constructor; vm_compute; reflexivity.
  - destruct Hfd as [-> | ->]; repeat constructor; by vm_compute.
  - vm_compute. reflexivity.
  - by vm_compute.
Qed.

Abbreviation example_reachable :=
  (reachable (H := OwnTime.own_time) (H0 := small_ids) (fun _ => []) LoggerTheorems.example_globals (init first_file 2)).
Abbreviation example_allowed := (allowed (H := OwnTime.own_time) (fun _ => []) LoggerTheorems.example_globals).

Lemma run_reachable l : (forall k m, l !! k = Some m -> example_allowed (after (take k l)) m) ->
  (exists s, run_all example_step (init first_file 2) l ⇓ s) -> example_reachable (after l).
Proof.
  induction l as [|m l IH] using rev_ind; intros Ha [s' Hs']; [apply reach_refl|].
  unfold after. rewrite Hs'. rewrite run_all_app in Hs'. destruct (run_all example_step (init first_file 2) l) as [s|] eqn:Hs; [|done].
  assert (after l = s) as Hl by (unfold after; by rewrite Hs).
  assert (example_reachable s) as Hr.
  { rewrite <-Hl. apply IH; [|by exists s]. intros k m' Hk. rewrite <-(take_app_le l [m]) by (apply lookup_lt_Some in Hk; lia).
    apply Ha. by apply lookup_app_l_Some. }
  cbn [mbind outcome_bind run_all] in Hs'. destruct (example_step s m) as [s2|] eqn:E; [|done]. injection Hs' as <-.
  eapply reach_step; [exact Hr| |exact E]. rewrite <-Hl, <-(take_app_length l [m]). apply Ha.
  rewrite lookup_app_r, Nat.sub_diag by lia. done.
Qed.

Lemma example_run_reachable : example_reachable (after example_run).
Proof.
  apply run_reachable; [|by eexists; vm_compute].
  assert (forall i fd u u' fw s, pcs (locked s) !! i = Some PIdle -> fd = 7 \/ fd = 8 -> example_allowed s (Log i (warning fd) u u' fw)) as Hlog
    by (intros; split; [done|by apply warning_sayable]).
  intros k m Hk. do 6 (destruct k as [|k]; [injection Hk as <-; first [apply Hlog; [vm_compute; reflexivity|tauto]|eexists; vm_compute; reflexivity]|]).
  done.
Qed.

Lemma logged_lines_whole_witness :
  (fun f => AppendFile.data_ f.2) <$> LogFileSpec.files (shared (locked (after example_run))) =
    [lit "20000229 12:15:54.123456Z     1 WARN  fd 7 - poll.cc" ++ ["000"%char] ++ lit ":42" ++ ["010"%char]] /\
  (exists waiting, by_thread 1 (issued (after example_run)) = by_thread 1 (appended (after example_run)) ++ waiting /\ (length waiting <= 1)%nat /\
     (pcs (locked (after example_run)) !! 1%nat = Some PIdle -> waiting = [])).
Proof.
  split; [vm_compute; reflexivity|].
  apply (logged_lines_whole (H := OwnTime.own_time) (H0 := small_ids) (fun _ => []) LoggerTheorems.example_globals
    4096 3 1024 100 first_file 2 (after example_run)).
  - intros i Hi. cbn. unfold two_31. lia.
  - lia.
  - unfold two_31. lia.
  - vm_compute. reflexivity.
  - exact example_run_reachable.
Defined.
End SharedLogTheorems.
