(* ===== verification/Threads.v ===== *)
(** * Threads: thread objects and loop threads

    Models [AtomicIntegerT] ([src/muduo/base/Atomic.h]), [Thread]
    ([src/muduo/base/Thread.h], [Thread.cc]) and [EventLoopThread]
    ([src/muduo/net/EventLoopThread.h], [EventLoopThread.cc]): a thread that
    owns an [EventLoop] on its stack and publishes its address.  Two threads
    interleave, the owner of the object and the new thread, each one atomic
    action at a time; the loop itself is the model of EventLoops.v. *)
From S2P Require Import Prelude Timestamps LogStreams Dates UtcTimes Formats TimeZones Loggers Monitors StdSet TimerQueues Channels Pollers EventLoops.

Local Open Scope Z_scope.
Local Open Scope muduo_scope.

(** ** Atomic integers

    Every operation is one step; overflow wraps, as the builtins do. *)
Module AtomicInteger.
Section atomic.
Context (wrap : Z -> Z).
Definition init : Z := 0.
Definition get (v : Z) : Z := v.
(** Result and new value. *)
Definition getAndAdd (x v : Z) : Z * Z := (v, wrap (v + x)).
Definition addAndGet (x v : Z) : Z * Z := let v := wrap (v + x) in (v, v).
Definition incrementAndGet (v : Z) : Z * Z := addAndGet 1 v.
Definition getAndIncrement (v : Z) : Z * Z := getAndAdd 1 v.
Definition decrementAndGet (v : Z) : Z * Z := addAndGet (-1) v.
Definition getAndDecrement (v : Z) : Z * Z := getAndAdd (-1) v.
Definition add (x v : Z) : Z := (getAndAdd x v).2.
Definition increment (v : Z) : Z := (incrementAndGet v).2.
Definition decrement (v : Z) : Z := (decrementAndGet v).2.
Definition getAndSet (new_value v : Z) : Z * Z := (v, new_value).
End atomic.
End AtomicInteger.

(** ** Thread objects *)
Module Thread.
Import Printf.
Record t : Type := mk {
  _started : bool;
  _joined : bool;
  _pthread_id : Z;
  _tid : Z;
  _name : bytes;
  _latch : Z }.                  (* the count of the latch *)

(** [_num_created] is an [AtomicInt32]. *)
Definition setDefaultName (num_created : Z) (name : bytes) : Z * bytes :=
  let '(num, num_created) := AtomicInteger.incrementAndGet i32 num_created in
  (num_created, if bool_decide (name = []) then (snprintf 32 [chars "Thread"; d num]).1 else name).
Definition make (num_created : Z) (name : bytes) : Z * t :=
  let '(num_created, name) := setDefaultName num_created name in
  (num_created, mk false false 0 0 name 1).

(** [start], up to [pthread_create], which may fail. *)
Definition start_create (created : option Z) (th : t) : outcome t :=
  assert_ (negb (_started th));;
  match created with
  | Some id => mret (mk true (_joined th) id (_tid th) (_name th) (_latch th))
  | None => Fault LogFatal
  end.

(** The rest of [start]: nothing while the latch blocks. *)
Definition start_wait (th : t) : outcome (option t) :=
  s ← CountDownLatch.wait (_latch th);
  match s with
  | Blocked _ => mret None
  | Finished count _ _ =>
      assert_ (bool_decide (0 < _tid th));;
      mret (Some (mk (_started th) (_joined th) (_pthread_id th) (_tid th) (_name th) count))
  end.

(** [join], up to [pthread_join]. *)
Definition join (th : t) : outcome t :=
  assert_ (_started th);;
  assert_ (negb (_joined th));;
  mret (mk (_started th) true (_pthread_id th) (_tid th) (_name th) (_latch th)).

(** [~Thread]: whether the thread is detached. *)
Definition destroy (th : t) : bool := _started th && negb (_joined th).

Definition started (th : t) : bool := _started th.
Definition tid (th : t) : Z := _tid th.
Definition name (th : t) : bytes := _name th.

(** *** [ThreadData::runInThread], in the new thread *)
Definition run_tid (gettid : Z) (c : CurrentThread.t) (th : t) : t * CurrentThread.t :=
  let '(id, c) := CurrentThread.tid gettid c in
  (mk (_started th) (_joined th) (_pthread_id th) id (_name th) (_latch th), c).
Definition run_count (th : t) : outcome t :=
  s ← CountDownLatch.countDown (_latch th);
  match s with
  | Finished count _ _ => mret (mk (_started th) (_joined th) (_pthread_id th) (_tid th) (_name th) count)
  | Blocked _ => mret th
  end.
Definition run_name (name : bytes) (c : CurrentThread.t) : CurrentThread.t :=
  CurrentThread.set_name (if bool_decide (name = []) then lit "muduoThread" else name) c.

(** How the thread function ended, and what becomes of the process. *)
Inductive func_result : Type := Returned | ThrewException | ThrewStd | ThrewOther.
Inductive thread_end : Type := ThreadEnds | Aborted | Terminated.
Definition run_end (r : func_result) (c : CurrentThread.t) : CurrentThread.t * thread_end :=
  match r with
  | Returned => (CurrentThread.set_name (lit "finished") c, ThreadEnds)
  | ThrewException | ThrewStd => (CurrentThread.set_name (lit "crashed") c, Aborted)
  | ThrewOther => (CurrentThread.set_name (lit "crashed") c, Terminated)
  end.
End Thread.

(** ** Loop threads *)
Module EventLoopThread.
Import EventLoop.

(** Where the owner is. *)
Inductive owner_pc : Type :=
  | OIdle
  | OLatch                 (* startLoop: in Thread::start *)
  | OCond (waiting : bool) (* startLoop: wants the mutex, or in _cond.wait() *)
  | OQuit                  (* destructor: _loop was not NULL *)
  | OWake                  (* destructor: in quit(), after the store *)
  | OJoin                  (* destructor: in pthread_join *)
  | OGone.                 (* the object is destroyed *)

(** Where the new thread is. *)
Inductive child_pc : Type :=
  | CNone | CTid | CCount
  | CInit                  (* threadFunc: before [EventLoop loop] *)
  | CCallback              (* in the init callback *)
  | CPublish               (* before [_loop = &loop] *)
  | CStart                 (* before [loop.loop()] *)
  | CLoop
  | CClear                 (* before [_loop = NULL] *)
  | CDestroy               (* before the destructor of [loop] *)
  | CEnd.

Record t : Type := mk {
  _loop : bool;                          (* is not NULL *)
  _exiting : bool;
  _thread : Thread.t;
  loop : option EventLoop.t;             (* the object on the new thread's stack *)
  owner : owner_pc;
  child : child_pc;
  returned : bool }.                     (* startLoop has returned *)

Definition make (num_created : Z) (name : bytes) : t :=
  mk false false (Thread.make num_created name).2 None OIdle CNone false.

Definition set_owner (s : t) o := mk (_loop s) (_exiting s) (_thread s) (loop s) o (child s) (returned s).
Definition set_child (s : t) c := mk (_loop s) (_exiting s) (_thread s) (loop s) (owner s) c (returned s).
Definition set_loop (s : t) l := mk (_loop s) (_exiting s) (_thread s) l (owner s) (child s) (returned s).
Definition set_thread (s : t) th := mk (_loop s) (_exiting s) th (loop s) (owner s) (child s) (returned s).
Definition set_ptr (s : t) b := mk b (_exiting s) (_thread s) (loop s) (owner s) (child s) (returned s).

Section machine.
(** The functors' code, the init callback and the kernel's ids. *)
Context (body : Z -> list action) (callback : list action) (pthread_id gettid : Z).

(** A call on the loop from another thread: undefined when it is gone. *)
Definition on_loop (s : t) (l : label) (o : owner_pc) : outcome (option t) :=
  match loop s with
  | None => Fault Undefined
  | Some lp => mret ((fun lp' => set_owner (set_loop s (Some lp')) o) <$> EventLoop.step body lp l)
  end.

(** [startLoop()] *)
Definition startLoop (s : t) : outcome (option t) :=
  match owner s with
  | OIdle =>
      assert_ (negb (Thread.started (_thread s)));;
      th ← Thread.start_create (Some pthread_id) (_thread s);
      mret (Some (set_child (set_owner (set_thread s th) OLatch) CTid))
  | _ => mret None
  end.

(** [~EventLoopThread()]: the test of [_loop]. *)
Definition destroy (s : t) : outcome (option t) :=
  match owner s with
  | OIdle =>
      let s := mk (_loop s) true (_thread s) (loop s) (owner s) (child s) (returned s) in
      mret (Some (set_owner s (if _loop s then OQuit else OGone)))
  | _ => mret None
  end.

Definition owner_step (s : t) : outcome (option t) :=
  match owner s with
  | OIdle | OGone | OCond true => mret None
  | OLatch =>
      r ← Thread.start_wait (_thread s);
      mret (option_map (fun th => set_owner (set_thread s th) (OCond false)) r)
  | OCond false =>
      if _loop s
      then mret (Some (mk (_loop s) (_exiting s) (_thread s) (loop s) OIdle (child s) true))
      else mret (Some (set_owner s (OCond true)))
  | OQuit => if _loop s then on_loop s OtherQuits OWake else Fault Undefined
  | OWake =>
      r ← on_loop s OtherWakes OJoin;
      match r with
      | Some s => th ← Thread.join (_thread s); mret (Some (set_thread s th))
      | None => mret None
      end
  | OJoin => match child s with CEnd => mret (Some (set_owner s OGone)) | _ => mret None end
  end.

(** [_cond.notify()] *)
Definition notify (s : t) : t := match owner s with OCond true => set_owner s (OCond false) | _ => s end.

(** A step of the loop by its own thread. *)
Definition loop_label (s : t) (l : label) : outcome (option t) :=
  match loop s with
  | Some lp => mret ((fun lp' => set_loop s (Some lp')) <$> EventLoop.step body lp l)
  | None => Fault Undefined
  end.

Definition child_step (s : t) : outcome (option t) :=
  match child s with
  | CNone | CEnd => mret None
  | CTid => mret (Some (set_child (set_thread s (Thread.run_tid gettid CurrentThread.init (_thread s)).1) CCount))
  | CCount => th ← Thread.run_count (_thread s); mret (Some (set_child (set_thread s th) CInit))
  | CInit =>
      mret ((fun lp => set_child (set_loop s (Some lp)) CCallback) <$> EventLoop.step body EventLoop.init (UserCode callback))
  | CCallback =>
      match loop s with
      | Some lp => match todo lp with [] => mret (Some (set_child s CPublish)) | _ => loop_label s LoopThread end
      | None => Fault Undefined
      end
  | CPublish => mret (Some (set_child (notify (set_ptr s true)) CStart))
  | CStart => r ← loop_label s CallLoop; mret (option_map (fun s => set_child s CLoop) r)
  | CLoop =>
      match loop s with
      | Some lp => match at_pc lp, todo lp with
                   | Outside, [] => mret (Some (set_child s CClear))
                   | _, _ => loop_label s LoopThread
                   end
      | None => Fault Undefined
      end
  | CClear => mret (Some (set_child (set_ptr s false) CDestroy))
  | CDestroy => mret (Some (set_child (set_loop s None) CEnd))
  end.

Inductive move : Type :=
  | StartLoop | Destroy | Owner | Child
  | Poll (active : list event)          (* poll(2) returns in the new thread *)
  | Spurious                            (* _cond.wait() returns for no reason *)
  | Other (l : label).                  (* a third thread uses the loop *)

Definition step (s : t) (m : move) : outcome (option t) :=
  match m with
  | StartLoop => startLoop s
  | Destroy => destroy s
  | Owner => owner_step s
  | Child => child_step s
  | Poll active => match child s with CLoop => loop_label s (PollReturns active) | _ => mret None end
  | Spurious => mret match owner s with OCond true => Some (set_owner s (OCond false)) | _ => None end
  | Other l => match l with
               | OtherQueues _ | OtherQuits | OtherWakes => loop_label s l
               | _ => mret None
               end
  end.

Fixpoint run (s : t) (ms : list move) : outcome (option t) :=
  match ms with
  | [] => mret (Some s)
  | m :: ms => r ← step s m; match r with Some s' => run s' ms | None => mret None end
  end.
End machine.
End EventLoopThread.

(** ** Specification *)
Module LoopThreadSpec.
Import EventLoop EventLoopThread.

Definition no_quit (a : action) : Prop := match a with Quit => False | _ => True end.
Definition calm_event (e : event) : Prop := match e with ChannelEvent cb => Forall no_quit cb | WakeupEvent => True end.

(** Nobody has asked the loop to stop, nor will its own code. *)
Definition calm (lp : EventLoop.t) : Prop :=
  _quit lp = false /\ Forall no_quit (todo lp) /\
  match at_pc lp with Handling active => Forall calm_event active | _ => True end.

(** In [startLoop()]. *)
Definition starting (o : owner_pc) : Prop := match o with OLatch | OCond _ => True | _ => False end.
Definition destroying (o : owner_pc) : Prop := match o with OQuit | OWake => True | _ => False end.

(** How the program uses the object: [startLoop] is called once; until it has
    returned nobody stops the loop; other threads use a live loop only. *)
Definition allowed (s : EventLoopThread.t) (m : move) : Prop :=
  match m with
  | StartLoop => Thread.started (_thread s) = false
  | Poll active => returned s = false -> Forall calm_event active
  | Other OtherQuits => loop s <> None /\ returned s = true
  | Other _ => loop s <> None
  | _ => True
  end.

Section reach.
Context (body : Z -> list action) (callback : list action) (pthread_id gettid num : Z) (name : bytes).
Inductive reachable : EventLoopThread.t -> Prop :=
  | reach_make : reachable (EventLoopThread.make num name)
  | reach_move s m s' : reachable s -> allowed s m ->
      EventLoopThread.step body callback pthread_id gettid s m ⇓ (Some s') -> reachable s'.
End reach.
End LoopThreadSpec.

Module LoopThreadFacts.
Import EventLoop EventLoopThread LoopThreadSpec.

Section facts.
Context (body : Z -> list action) (callback : list action) (pthread_id gettid : Z).
Context (Hbody : forall f, Forall no_quit (body f)) (Hcallback : Forall no_quit callback).
Context (Hgettid : 0 < gettid < two_31).
Abbreviation step := (EventLoopThread.step body callback pthread_id gettid).
Abbreviation run := (EventLoopThread.run body callback pthread_id gettid).

(** *** Loops that nobody stops *)
Lemma wakeup_calm lp : calm lp -> calm (wakeup lp).
Proof. unfold wakeup. case_bool_decide; [|done]. by destruct lp. Qed.

Ltac solve_calm := split_and!; solve [done | assumption | constructor | cbn; auto].

Lemma perform_calm lp a rest : calm lp -> todo lp = a :: rest -> calm (perform body lp a rest).
Proof.
  intros (Hq & Ht & Hh) Htodo. rewrite Htodo in Ht. inversion Ht; subst.
  destruct a as [f|f| |]; cbn [perform].
  - split_and!; [done| |done]. by apply Forall_app.
  - split_and!; [done|by constructor|done].
  - done.
  - cbn [_calling_pending_functors set_todo].
    destruct (_calling_pending_functors lp); [apply wakeup_calm|]; solve_calm.
Qed.

Lemma loop_step_calm lp lp' : calm lp -> todo lp = [] -> EventLoop.loop_step body lp = Some lp' ->
  calm lp' /\ (at_pc lp <> Outside -> at_pc lp' <> Outside).
Proof.
  intros (Hq & Ht & Hh) Htodo. unfold loop_step. destruct (at_pc lp) as [| | |active| |fs] eqn:Hpc; try done.
  - rewrite Hq. intros [= <-]. split; [|done]. solve_calm.
  - destruct active as [|[|cb] active]; intros [= <-]; (split; [|done]); inversion Hh; subst; solve_calm.
  - intros [= <-]. split; [|done]. solve_calm.
  - destruct fs as [|f fs]; intros [= <-]; (split; [|done]); solve_calm.
Qed.

Lemma perform_pc lp a rest : at_pc (perform body lp a rest) = at_pc lp.
Proof. destruct a; simpl; try done. unfold wakeup. repeat case_match; done. Qed.

Lemma step_calm lp l lp' : calm lp -> EventLoop.step body lp l = Some lp' ->
  match l with OtherQuits => False | PollReturns a => Forall calm_event a | UserCode acts => Forall no_quit acts | _ => True end ->
  calm lp' /\ (at_pc lp <> Outside -> at_pc lp' <> Outside).
Proof.
  intros Hc Hs Hl. destruct l as [| |acts|active|f| |]; simpl in Hs.
  - destruct (todo lp) as [|a rest] eqn:Ht; [by apply loop_step_calm|]. injection Hs as <-.
    split; [by apply perform_calm|by rewrite perform_pc].
  - repeat case_match; simplify_eq. solve_calm.
  - destruct Hc as (Hq & _ & Hh). repeat case_match; simplify_eq. split; [|done]. split_and!; simpl; [done|done|].
    by rewrite H.
  - destruct Hc as (Hq & _ & Hh). repeat case_match; simplify_eq. solve_calm.
  - injection Hs as <-. destruct Hc as (Hq & Ht & Hh). solve_calm.
  - done.
  - destruct (wakers lp); [done|]. injection Hs as <-. split; [by apply wakeup_calm; destruct Hc as (?&?&?); split_and!|].
    unfold wakeup. case_bool_decide; done.
Qed.

(** *** The invariant of the two threads *)
Record inv (s : EventLoopThread.t) : Prop := {
  i_thread : match child s with
    | CNone => Thread._started (_thread s) = false /\ Thread._latch (_thread s) = 1
    | CTid | CCount => Thread._started (_thread s) = true /\ Thread._latch (_thread s) = 1
    | _ => Thread._started (_thread s) = true /\ Thread._latch (_thread s) = 0
    end;
  i_tid : match child s with CNone | CTid => True | _ => Thread._tid (_thread s) = gettid end;
  i_joined : match owner s with OJoin | OGone => True | _ => Thread._joined (_thread s) = false end;
  i_loop : match child s with
    | CNone | CTid | CCount | CInit | CEnd => loop s = None
    | CCallback => exists lp, loop s = Some lp /\ at_pc lp = Outside
    | CPublish | CStart => exists lp, loop s = Some lp /\ at_pc lp = Outside /\ todo lp = []
    | _ => loop s <> None
    end;
  i_ptr : _loop s = match child s with CStart | CLoop | CClear => true | _ => false end;
  i_calm : returned s = false -> forall lp, loop s = Some lp -> calm lp /\ (child s = CLoop -> at_pc lp <> Outside);
  i_owner : match child s with
    | CNone => (owner s = OIdle \/ owner s = OGone) /\ returned s = false
    | CTid | CCount => owner s = OLatch /\ returned s = false
    | CInit | CCallback | CPublish => starting (owner s) /\ returned s = false
    | CStart | CLoop =>
        if returned s then match owner s with OIdle | OQuit | OWake | OJoin => True | _ => False end
        else owner s = OLatch \/ owner s = OCond false
    | CClear | CDestroy | CEnd => returned s = true /\ ~ starting (owner s)
    end }.

Lemma make_inv num name : inv (EventLoopThread.make num name).
Proof.
  unfold EventLoopThread.make, Thread.make. destruct (Thread.setDefaultName num name) as [n nm].
  split; simpl; try done. auto.
Qed.

(** A step of the loop that leaves the two threads where they are. *)
Lemma inv_loop s lp l lp' : inv s -> loop s = Some lp -> EventLoop.step body lp l = Some lp' ->
  (returned s = false -> match l with OtherQuits => False | PollReturns a => Forall calm_event a | UserCode acts => Forall no_quit acts | _ => True end) ->
  match child s with
  | CCallback => at_pc lp' = Outside
  | CPublish | CStart => at_pc lp' = Outside /\ todo lp' = []
  | _ => True
  end -> inv (set_loop s (Some lp')).
Proof.
  intros [H1 H2 H3 H4 H5 H6 H7] Hlp Hs Hl Hpc. split; try done; simpl.
  - destruct (child s); try done; rewrite ?Hlp in H4; try done; [by exists lp'|by exists lp'|by exists lp'].
  - intros Hr lp0 [= <-]. destruct (H6 Hr lp Hlp) as [Hc Hin].
    destruct (step_calm lp l lp' Hc Hs (Hl Hr)) as [Hc' Hin']. split; [done|]. intros Hchild. apply Hin', Hin, Hchild.
Qed.

(** Other threads do not move the loop thread. *)
Lemma other_frame lp l lp' : EventLoop.step body lp l = Some lp' ->
  match l with OtherQueues _ | OtherQuits | OtherWakes => True | _ => False end ->
  at_pc lp' = at_pc lp /\ todo lp' = todo lp.
Proof.
  intros Hs Hl. destruct l; try done; simpl in Hs; [by injection Hs as <-|by injection Hs as <-|].
  destruct (wakers lp); [done|]. injection Hs as <-. unfold wakeup. by case_bool_decide.
Qed.

Lemma inv_other s lp l lp' : inv s -> loop s = Some lp -> EventLoop.step body lp l = Some lp' ->
  match l with OtherQueues _ | OtherQuits | OtherWakes => True | _ => False end ->
  (l = OtherQuits -> returned s = true) -> inv (set_loop s (Some lp')).
Proof.
  intros Hi Hlp Hs Hl Hq. destruct (other_frame _ _ _ Hs Hl) as [Hpc Ht]. eapply inv_loop; [done..| |].
  - intros Hr. destruct l; try done. specialize (Hq eq_refl). congruence.
  - pose proof (i_loop _ Hi) as H4. destruct (child s); try done; rewrite Hlp in H4;
      destruct H4 as (lp0 & [= <-] & H4); rewrite Hpc; [done|rewrite Ht; done|rewrite Ht; done].
Qed.

Lemma countDown_1 : CountDownLatch.countDown 1 ⇓ Finished 0 (NotifyAll NotEmpty) tt.
Proof. reflexivity. Qed.

(** A move that returns, and keeps the invariant. *)
Definition safe (r : outcome (option EventLoopThread.t)) : Prop :=
  exists o, r ⇓ o /\ forall s', o = Some s' -> inv s'.

Lemma safe_none : safe (mret None).
Proof. by exists None. Qed.
Lemma safe_some s : inv s -> safe (mret (Some s)).
Proof. intros Hs. exists (Some s). split; [done|]. by intros s' [= <-]. Qed.

Lemma loop_label_safe s l : inv s -> loop s <> None ->
  (forall lp lp', loop s = Some lp -> EventLoop.step body lp l = Some lp' -> inv (set_loop s (Some lp'))) ->
  safe (loop_label body s l).
Proof.
  intros Hi Hne Hs. unfold loop_label. destruct (loop s) as [lp|]; [|done].
  destruct (EventLoop.step body lp l) as [lp'|] eqn:He; simpl; [apply safe_some; by eapply Hs|apply safe_none].
Qed.

(** The parts of the invariant that a move does not touch. *)
Ltac keep_inv H6 :=
  split; simpl; try done; try congruence;
  try (let Hr := fresh in let lp := fresh in let Hlp := fresh in
       intros Hr lp Hlp; first [congruence | split; [apply (H6 Hr lp Hlp)|done]]).

Lemma child_safe s : inv s -> safe (child_step body callback gettid s).
Proof.
  intros Hi. pose proof Hi as [H1 H2 H3 H4 H5 H6 H7]. unfold child_step.
  destruct (child s) eqn:Hc; try apply safe_none.
  - apply safe_some. destruct H7 as [Ho Hr]. keep_inv H6.
  - destruct H1 as [Hst Hla]. destruct H7 as [Ho Hr]. unfold Thread.run_count. rewrite Hla, countDown_1. cbn [mbind outcome_bind].
    apply safe_some. keep_inv H6. by rewrite Ho.
  - apply safe_some. destruct H7 as [Ho Hr]. split; simpl; try done; [by eexists|].
    intros _ lp [= <-]. split; [|done]. by split_and!.
  - destruct H4 as (lp & Hlp & Hpc). rewrite Hlp. destruct H7 as [Ho Hr]. destruct (todo lp) as [|a rest] eqn:Ht.
    + apply safe_some. keep_inv H6. by exists lp.
    + apply loop_label_safe; [done|congruence|]. intros lp0 lp' Hlp0 Hs. eapply inv_loop; [done..|].
      rewrite Hc. rewrite Hlp in Hlp0. injection Hlp0 as <-. simpl in Hs. rewrite Ht in Hs. injection Hs as <-.
      by rewrite perform_pc.
  - apply safe_some. destruct H7 as [Ho Hr]. destruct H4 as (lp & Hlp & Hpc & Ht). unfold notify. cbn [owner set_ptr].
    destruct (owner s) as [| |[]| | | |] eqn:How; try done; keep_inv H6; rewrite ?How, ?Hr; auto; by exists lp.
  - destruct H4 as (lp & Hlp & Hpc & Ht). unfold loop_label. rewrite Hlp. simpl. rewrite Hpc, Ht. simpl. apply safe_some.
    split; simpl; try done. intros Hr lp0 [= <-]. split; [|done]. by split_and!.
  - destruct (loop s) as [lp|] eqn:Hlp; [|done].
    assert (Hstep : safe (loop_label body s LoopThread)).
    { apply loop_label_safe; [done|congruence|]. intros lp0 lp' Hlp0 Hs. eapply inv_loop; [done..|]. by rewrite Hc. }
    destruct (at_pc lp) eqn:Hpc; try exact Hstep. destruct (todo lp); [|exact Hstep].
    apply safe_some. destruct (returned s) eqn:Hr; [|by destruct (H6 eq_refl lp eq_refl) as [_ []]].
    keep_inv H6. split; [done|]. destruct (owner s); simpl; tauto.
  - apply safe_some. destruct H7 as [Hr Ho]. keep_inv H6.
  - apply safe_some. destruct H7 as [Hr Ho]. keep_inv H6.
Qed.

Lemma owner_safe s : inv s -> ~ destroying (owner s) -> safe (owner_step body s).
Proof.
  intros Hi Hd. pose proof Hi as [H1 H2 H3 H4 H5 H6 H7]. unfold owner_step.
  destruct (owner s) as [| |[]| | | |] eqn:Ho; try apply safe_none; try (by destruct Hd).
  - destruct (child s) eqn:Hc; try (by destruct H7 as [[]]); try (by destruct H7 as [_ []]);
      unfold Thread.start_wait, CountDownLatch.wait; destruct H1 as [Hst Hla]; rewrite Hla.
    1,2: apply safe_none.
    all: rewrite (bool_decide_false (0 < 0)) by lia; cbn [mbind outcome_bind mret outcome_ret];
      rewrite (bool_decide_true (0 < Thread._tid _)) by lia; cbn [assert_ mbind outcome_bind option_map]; apply safe_some.
    all: keep_inv H6; simpl; rewrite ?Hc, ?Hla; try done.
    all: destruct (returned s); [done|]; by right.
  - destruct (_loop s) eqn:Hl; apply safe_some; (split; simpl; try done; try congruence).
    all: destruct (child s); try done; try (by destruct H7 as [_ []]); try (by destruct H7 as [[]]).
    all: by destruct H7 as [[=] _].
  - destruct (child s) eqn:Hc; try apply safe_none. apply safe_some. destruct H7 as [Hr _]. keep_inv H6; by rewrite ?Hc.
Qed.

(** The destructor's use of the loop: it may fail, but keeps the invariant. *)
Lemma destroying_inv s s' : inv s -> destroying (owner s) -> owner_step body s ⇓ (Some s') -> inv s'.
Proof.
  intros Hi Hd. pose proof Hi as [H1 H2 H3 H4 H5 H6 H7]. unfold owner_step, on_loop.
  assert (Hr : returned s = true).
  { destruct (owner s); try done; destruct (child s); try (by destruct H7 as [[=] _]); try (by destruct H7 as [[[=]|[=]] _]);
      try (by destruct H7 as [[] _]); try (by destruct H7); destruct (returned s); try done; by destruct H7. }
  destruct (owner s) eqn:Ho; try done.
  - destruct (_loop s) eqn:Hl; [|done]. destruct (loop s) as [lp|] eqn:Hlp; [|done]. intros [= <-].
    assert (Hi' : inv (set_loop s (Some (set_wakers (set_quit lp true) (S (wakers lp)))))) by (by eapply (inv_other s lp OtherQuits)).
    destruct Hi' as [G1 G2 G3 G4 G5 G6 G7]. split; simpl in *; rewrite ?Ho in G3; try done.
    rewrite Hr in *. by destruct (child s).
  - destruct (loop s) as [lp|] eqn:Hlp; [|done]. destruct (EventLoop.step body lp OtherWakes) as [lp'|] eqn:Hs; [|done].
    cbn [mbind outcome_bind mret outcome_ret fmap option_fmap option_map]. unfold Thread.join. cbn [_thread set_owner set_loop].
    rewrite H3. destruct (Thread._started (_thread s)) eqn:Hst; [|done]. intros [= <-].
    assert (Hi' : inv (set_loop s (Some lp'))) by (by eapply (inv_other s lp OtherWakes)).
    destruct Hi' as [G1 G2 G3 G4 G5 G6 G7]. split; simpl in *; rewrite ?Hst in *; try done.
    rewrite Hr in *. by destruct (child s).
Qed.

Lemma move_safe s m : inv s -> allowed s m -> ~ (m = Owner /\ destroying (owner s)) -> safe (step s m).
Proof.
  intros Hi Ha Hd. pose proof Hi as [H1 H2 H3 H4 H5 H6 H7]. destruct m as [| | | |active| |l]; cbn [EventLoopThread.step].
  - simpl in Ha. unfold startLoop. destruct (owner s) eqn:Ho; try apply safe_none. rewrite Ha. unfold Thread.start_create.
    unfold Thread.started in Ha. rewrite Ha. apply safe_some.
    destruct (child s) eqn:Hc; try (by destruct H1; congruence). keep_inv H6; (split; [done|]); [apply H1|apply H7].
  - unfold destroy. destruct (owner s) eqn:Ho; try apply safe_none. apply safe_some.
    destruct (_loop s) eqn:Hl; (split; simpl; try done; try congruence);
      destruct (child s); try done; destruct (returned s); simpl in *; try done; intuition congruence.
  - apply owner_safe; [done|]. intros Hd'. by apply Hd.
  - by apply child_safe.
  - destruct (child s) eqn:Hc; try apply safe_none. apply loop_label_safe; [done|done|].
    intros lp lp' Hlp Hs. eapply inv_loop; [done..|]. by rewrite Hc.
  - destruct (owner s) as [| |[]| | | |] eqn:Ho; try apply safe_none. apply safe_some. keep_inv H6.
    destruct (child s); try done; destruct (returned s); simpl in *; try done; intuition congruence.
  - destruct l; try apply safe_none; simpl in Ha; (apply loop_label_safe; [done|by try apply Ha|]);
      intros lp lp' Hlp Hs; (eapply inv_other; [done..|]); try done. intros _. apply Ha.
Qed.

Lemma reachable_inv num name s : reachable body callback pthread_id gettid num name s -> inv s.
Proof.
  induction 1 as [|s m s' _ IH Ha Hs]; [apply make_inv|].
  assert (Hcase : {m = Owner /\ destroying (owner s)} + {~ (m = Owner /\ destroying (owner s))}).
  { destruct m; try (right; by intros [[=] _]). destruct (owner s); (left; by split) || (right; by intros [_ []]). }
  destruct Hcase as [[-> Hd]|Hd]; [by eapply destroying_inv|].
  destruct (move_safe s m IH Ha Hd) as (o & Ho & Hinv). rewrite Hs in Ho. injection Ho as <-. by apply Hinv.
Qed.

(** *** Progress *)
Lemma run_trans s s1 ms1 r ms2 : run s ms1 ⇓ Some s1 -> run s1 ms2 ⇓ r -> run s (ms1 ++ ms2) ⇓ r.
Proof.
  revert s. induction ms1 as [|m ms1 IH]; intros s H1 H2; [by injection H1 as <-|].
  simpl in *. destruct (step s m) as [[s0|]|]; simpl in *; try done. by apply IH.
Qed.

(** The new thread takes [n] steps. *)
Definition works (n : nat) (s s' : EventLoopThread.t) : Prop := run s (replicate n Child) ⇓ Some s'.

Lemma works_step s s1 n s' : child_step body callback gettid s ⇓ Some s1 -> works n s1 s' -> works (S n) s s'.
Proof. intros H1 H2. unfold works. simpl. rewrite H1. exact H2. Qed.

Lemma callback_works n : forall s lp lp', child s = CCallback -> loop s = Some lp -> at_pc lp = Outside ->
  EventLoop.run body lp (EventLoopFacts.loops n) = Some lp' -> works n s (set_loop s (Some lp')).
Proof.
  induction n as [|n IH]; intros s lp lp' Hc Hlp Hpc Hrun.
  - injection Hrun as <-. unfold works. simpl. destruct s; simpl in *; by subst.
  - cbn [EventLoopFacts.loops replicate EventLoop.run] in Hrun.
    destruct (EventLoop.step body lp LoopThread) as [lp1|] eqn:Hs; [|done]. simpl in Hrun.
    assert (Hne : exists a rest, todo lp = a :: rest /\ lp1 = perform body lp a rest).
    { simpl in Hs. destruct (todo lp) as [|a rest]; [unfold loop_step in Hs; by rewrite Hpc in Hs|].
      injection Hs as <-. by eexists _, _. }
    destruct Hne as (a & rest & Ht & ->).
    eapply (works_step s (set_loop s (Some (perform body lp a rest)))).
    + unfold child_step. rewrite Hc, Hlp, Ht. unfold loop_label. rewrite Hlp, Hs. done.
    + change (set_loop s (Some lp')) with (set_loop (set_loop s (Some (perform body lp a rest))) (Some lp')).
      eapply IH; [done|done|by rewrite perform_pc|exact Hrun].
Qed.

Context (rank : Z -> nat) (Hrank : EventLoopFacts.well_nested body rank).

(** The new thread comes to publish the loop. *)
Definition publishes (s : EventLoopThread.t) : Prop :=
  exists n s', works n s s' /\ inv s' /\ child s' = CStart /\ starting (owner s').

Lemma child_inv s s1 : inv s -> child_step body callback gettid s ⇓ Some s1 -> inv s1.
Proof. intros Hi H1. destruct (child_safe s Hi) as (o & Ho & Hinv). rewrite H1 in Ho. injection Ho as <-. by apply Hinv. Qed.

Lemma works_inv n : forall s s', inv s -> works n s s' -> inv s'.
Proof.
  unfold works. induction n as [|n IH]; intros s s' Hi Hw; [by injection Hw as <-|]. simpl in Hw.
  destruct (child_step body callback gettid s) as [[s1|]|] eqn:H1; simpl in Hw; try done. eapply IH; [|done]. by eapply child_inv.
Qed.

Lemma works_trans n1 n2 s s1 s' : works n1 s s1 -> works n2 s1 s' -> works (n1 + n2) s s'.
Proof. intros H1 H2. unfold works. rewrite replicate_add. by eapply run_trans. Qed.

Lemma publishes_step s s1 : inv s -> child_step body callback gettid s ⇓ Some s1 -> (inv s1 -> publishes s1) -> publishes s.
Proof.
  intros Hi H1 Hp. destruct (Hp (child_inv s s1 Hi H1)) as (n & s' & Hw & Hrest). exists (S n), s'.
  split; [by eapply works_step|done].
Qed.

Lemma publishes_CPublish s : inv s -> starting (owner s) -> child s = CPublish -> publishes s.
Proof.
  intros Hi Ho Hc. eapply publishes_step; [done|by unfold child_step; rewrite Hc|]. intros Hi1. eexists 0%nat, _.
  split; [done|]. split_and!; [done|done|]. unfold notify. simpl.
  destruct (owner s) as [| |[]| | | |] eqn:E; simpl; by rewrite ?E.
Qed.

Lemma publishes_CCallback s : inv s -> starting (owner s) -> child s = CCallback -> publishes s.
Proof.
  intros Hi Ho Hc. pose proof (i_loop _ Hi) as Hl. rewrite Hc in Hl. destruct Hl as (lp & Hlp & Hpc).
  destruct (EventLoopFacts.todo_completes body rank lp Hrank) as (n & lp' & Hrun & Ht & _).
  pose proof (callback_works n s lp lp' Hc Hlp Hpc Hrun) as Hw.
  pose proof (works_inv n _ _ Hi Hw) as Hi'.
  destruct (publishes_step (set_loop s (Some lp')) (set_child (set_loop s (Some lp')) CPublish)) as (n2 & s' & Hw2 & Hrest);
    [done|by unfold child_step; simpl; rewrite Hc, Ht|by intros; apply publishes_CPublish|].
  exists (n + n2)%nat, s'. split; [by eapply works_trans|done].
Qed.

(** From anywhere in its start. *)
Lemma publishes_from s : inv s -> starting (owner s) ->
  match child s with CTid | CCount | CInit | CCallback | CPublish => True | _ => False end -> publishes s.
Proof.
  assert (Hinit : forall s, inv s -> starting (owner s) -> child s = CInit -> publishes s).
  { intros s0 Hi Ho Hc. eapply publishes_step; [done|by unfold child_step; rewrite Hc|]. intros. by apply publishes_CCallback. }
  assert (Hcount : forall s, inv s -> starting (owner s) -> child s = CCount -> publishes s).
  { intros s0 Hi Ho Hc. pose proof (i_thread _ Hi) as Ht. rewrite Hc in Ht. destruct Ht as [_ Hla].
    eapply publishes_step; [done|unfold child_step, Thread.run_count; rewrite Hc, Hla, countDown_1; reflexivity|].
    intros. by apply Hinit. }
  intros Hi Ho Hc. destruct (child s) eqn:E; try done.
  - eapply publishes_step; [done|by unfold child_step; rewrite E|]. intros. by apply Hcount.
  - by apply Hcount.
  - by apply Hinit.
  - by apply publishes_CCallback.
  - by apply publishes_CPublish.
Qed.

(** With the loop published, [startLoop] returns. *)
Lemma returns s : inv s -> starting (owner s) -> _loop s = true -> exists n s',
  run s (replicate n Owner) ⇓ Some s' /\ owner s' = OIdle /\ returned s' = true /\ _loop s' = true /\ loop s' = loop s.
Proof.
  intros Hi Ho Hp. pose proof Hi as [H1 H2 H3 H4 H5 H6 H7]. rewrite Hp in H5.
  destruct (owner s) as [| |[]| | | |] eqn:E; try done.
  - exists 2%nat. assert (Hla : Thread._latch (_thread s) = 0 /\ Thread._tid (_thread s) = gettid) by (destruct (child s); naive_solver).
    destruct Hla as [Hla Htid].
    assert (Hs : exists th, owner_step body s ⇓ Some (set_owner (set_thread s th) (OCond false))).
    { unfold owner_step. rewrite E. unfold Thread.start_wait, CountDownLatch.wait.
      rewrite Hla, Htid, (bool_decide_false (0 < 0)) by lia. cbn [mbind outcome_bind mret outcome_ret].
      rewrite (bool_decide_true (0 < gettid)) by lia. by eexists. }
    destruct Hs as [th Hs]. eexists. cbn [replicate EventLoopThread.run EventLoopThread.step].
    rewrite Hs. cbn [mbind outcome_bind]. unfold owner_step. cbn [owner set_owner set_thread _loop]. rewrite Hp. by split_and!.
  - exfalso. destruct (child s); try done; destruct (returned s); intuition congruence.
  - assert (Hs : owner_step body s ⇓ Some (mk (_loop s) (_exiting s) (_thread s) (loop s) OIdle (child s) true))
      by (unfold owner_step; by rewrite E, Hp).
    exists 1%nat. eexists. cbn [replicate EventLoopThread.run EventLoopThread.step]. rewrite Hs. by split_and!.
Qed.
End facts.
End LoopThreadFacts.

(** ** Properties *)
Module ThreadTheorems.
Import EventLoop EventLoopThread LoopThreadSpec LoopThreadFacts.

(** C18.  [startLoop()] hands over a running loop: however the two threads (and
    others) interleave, with spurious wake-ups, no assertion of the start
    fails and nothing touches a loop that is gone, outside of the destructor;
    and from any moment inside [startLoop()] the two threads alone can always
    make it return, with the new thread's live loop: the notification cannot
    be lost.  This is for user code that does not call itself for ever and
    whose functors and callbacks do not call [quit()], and as long as nobody
    else stops the loop before [startLoop()] has returned: a loop that has been
    quit by then has left [_loop] at [NULL], and [startLoop()] waits for ever. *)
Theorem startLoop_handshake body callback pthread_id gettid rank num name s :
  (forall f, Forall no_quit (body f)) -> Forall no_quit callback -> EventLoopFacts.well_nested body rank ->
  0 < gettid < two_31 -> reachable body callback pthread_id gettid num name s ->
  (forall m, allowed s m -> ~ (m = Owner /\ destroying (owner s)) ->
    exists r, EventLoopThread.step body callback pthread_id gettid s m ⇓ r) /\
  (starting (owner s) -> exists n k s' lp,
    EventLoopThread.run body callback pthread_id gettid s (replicate n Child ++ replicate k Owner) ⇓ Some s' /\
    owner s' = OIdle /\ returned s' = true /\ _loop s' = true /\ loop s' = Some lp).
Proof.
  intros Hbody Hcb Hrank Hg Hr.
  assert (Hi : inv gettid s) by (by eapply reachable_inv). split.
  - intros m Ha Hd. destruct (move_safe body callback pthread_id gettid Hbody Hcb Hg s m Hi Ha Hd) as (o & Ho & _). by exists o.
  - intros Ho.
    assert (Hp : publishes body callback pthread_id gettid s \/ _loop s = true).
    { destruct (child s) eqn:Hc; try (left; eapply publishes_from; [done..|by rewrite Hc]); right;
        pose proof (i_ptr _ _ Hi) as Hp; pose proof (i_owner _ _ Hi) as Hw; rewrite Hc in Hp, Hw; try done.
      - destruct Hw as [[Hw|Hw] _]; rewrite Hw in Ho; by destruct Ho.
      - by destruct Hw as [_ []].
      - by destruct Hw as [_ []]. }
    assert (Hlive : forall s0, inv gettid s0 -> _loop s0 = true -> exists lp, loop s0 = Some lp).
    { intros s0 [_ _ _ H4 H5 _ _] Hl. rewrite Hl in H5. destruct (child s0); try done; [destruct H4 as (lp & ? & _); by exists lp|..];
        destruct (loop s0) as [lp|]; try done; by exists lp. }
    destruct Hp as [(n & s1 & Hw & Hi1 & Hc1 & Ho1)|Hl].
    + assert (Hl1 : _loop s1 = true) by (pose proof (i_ptr _ _ Hi1) as Hp; by rewrite Hc1 in Hp).
      destruct (returns body callback pthread_id gettid Hg s1 Hi1 Ho1 Hl1) as (k & s' & Hrun & H1 & H2 & H3 & H4).
      destruct (Hlive s1 Hi1 Hl1) as [lp Hlp]. exists n, k, s', lp. rewrite H4. split; [by eapply run_trans|done].
    + destruct (returns body callback pthread_id gettid Hg s Hi Ho Hl) as (k & s' & Hrun & H1 & H2 & H3 & H4).
      destruct (Hlive s Hi Hl) as [lp Hlp]. exists 0%nat, k, s', lp. by rewrite H4.
Qed.

(** *** Concrete runs: thread 7, no functors, no callback *)
Definition no_body (f : Z) : list action := [].
Definition go (ms : list move) : outcome (option EventLoopThread.t) :=
  EventLoopThread.run no_body [] 1 7 (EventLoopThread.make 0 []) ms.
Definition at_end (ms : list move) : EventLoopThread.t :=
  match go ms with Done (Some s) => s | _ => EventLoopThread.make 0 [] end.

Lemma go_reachable ms : forall s s', LoopThreadSpec.reachable no_body [] 1 7 0 [] s ->
  Forall (fun m => match m with Owner | Child | Destroy => True | _ => False end) ms ->
  EventLoopThread.run no_body [] 1 7 s ms ⇓ Some s' -> LoopThreadSpec.reachable no_body [] 1 7 0 [] s'.
Proof.
  induction ms as [|m ms IH]; intros s s' Hr Hm Hrun; [by injection Hrun as <-|]. inversion Hm; subst. simpl in Hrun.
  destruct (EventLoopThread.step no_body [] 1 7 s m) as [[s1|]|] eqn:Hs; simpl in Hrun; try done.
  eapply IH; [|done|exact Hrun]. eapply reach_move; [exact Hr| |exact Hs]. by destruct m.
Qed.

Lemma started_reachable ms : Forall (fun m => match m with Owner | Child | Destroy => True | _ => False end) ms ->
  (exists s', go (StartLoop :: ms) ⇓ Some s') -> LoopThreadSpec.reachable no_body [] 1 7 0 [] (at_end (StartLoop :: ms)).
Proof.
  intros Hm [s' Hs]. unfold at_end. rewrite Hs. unfold go in Hs. simpl in Hs.
  eapply (go_reachable ms _ s' _ Hm Hs). Unshelve. eapply (reach_move _ _ _ _ _ _ _ StartLoop); [apply reach_make|done|reflexivity].
Qed.

(** The owner waits on the condition variable; the callback has just ended. *)
Definition waiting_run : list move := [StartLoop; Child; Child; Owner; Owner; Child; Child].

Lemma startLoop_handshake_witness : owner (at_end waiting_run) = OCond true /\
  (forall m, allowed (at_end waiting_run) m -> ~ (m = Owner /\ destroying (owner (at_end waiting_run))) ->
    exists r, EventLoopThread.step no_body [] 1 7 (at_end waiting_run) m ⇓ r) /\
  (starting (owner (at_end waiting_run)) -> exists n k s' lp,
    EventLoopThread.run no_body [] 1 7 (at_end waiting_run) (replicate n Child ++ replicate k Owner) ⇓ Some s' /\
    owner s' = OIdle /\ returned s' = true /\ _loop s' = true /\ loop s' = Some lp).
Proof.
  split; [reflexivity|]. apply (startLoop_handshake no_body [] 1 7 (fun _ => 0%nat) 0 []).
  - intros f. constructor.
  - constructor.
  - intros f g Hg. apply list_elem_of_In in Hg. destruct Hg.
  - by vm_compute.
  - apply started_reachable; [repeat constructor|eexists; vm_compute; reflexivity].
Defined.

(** The object is destroyed right after [startLoop()] returned, before the new
    thread enters [loop()]. *)
Definition early_destroy : list move :=
  [StartLoop; Child; Child; Owner; Child; Child; Child; Owner; Destroy; Owner; Owner; Child].

(** What the two threads and [poll] do by themselves: no channel but the
    wakeup channel is ready. *)
Definition by_itself (m : move) : Prop :=
  match m with
  | Owner | Child | Spurious => True
  | Poll active => Forall (fun e => e = WakeupEvent) active
  | _ => False
  end.

(** Nothing asks the loop to stop any more. *)
Definition hung (s : EventLoopThread.t) : Prop :=
  owner s = OJoin /\ child s = CLoop /\ exists lp, loop s = Some lp /\ _quit lp = false /\ todo lp = [] /\
  _pending_functors lp = [] /\
  match at_pc lp with
  | AtWhile | Polling | Swapping | Running [] => True
  | Handling active => Forall (fun e => e = WakeupEvent) active
  | _ => False
  end.

Lemma hung_step s m s' : hung s -> by_itself m ->
  EventLoopThread.step no_body [] 1 7 s m ⇓ Some s' -> hung s'.
Proof.
  intros (Ho & Hc & lp & Hlp & Hq & Ht & Hp & Hpc) Hm Hs.
  destruct m as [| | | |active| |l]; try done; cbn [EventLoopThread.step] in Hs.
  - unfold owner_step in Hs. by rewrite Ho, Hc in Hs.
  - unfold child_step, loop_label in Hs. rewrite Hc, Hlp in Hs. simpl in Hs. rewrite Ht in Hs. unfold loop_step in Hs.
    rewrite Hq, Hp in Hs. destruct (at_pc lp) as [| | |[|[|cb] active]| |[|f fs]] eqn:E; try done;
      try (injection Hs as <-; split_and!; [done|done|]; eexists; split_and!; [done..|]; by inversion Hpc).
    all: inversion Hpc; done.
  - unfold loop_label in Hs. rewrite Hc, Hlp in Hs. simpl in Hs. destruct (at_pc lp); try done.
    destruct (poll_allows lp active); [|done]. injection Hs as <-. split_and!; [done|done|]. eexists. by split_and!.
  - by rewrite Ho in Hs.
Qed.

(** The destructor of [EventLoopThread] can hang: when the object is
    destroyed before the new thread has entered [loop()], [loop()] clears the
    [_quit] that the destructor has set, and [pthread_join] never returns,
    whatever the two threads and [poll] go on to do. *)
Theorem destructor_hangs ms s' :
  Forall by_itself ms -> EventLoopThread.run no_body [] 1 7 (at_end early_destroy) ms ⇓ Some s' ->
  LoopThreadSpec.reachable no_body [] 1 7 0 [] (at_end early_destroy) /\ owner s' = OJoin /\ child s' = CLoop.
Proof.
  intros Hms Hrun. split; [apply started_reachable; [repeat constructor|eexists; vm_compute; reflexivity]|].
  assert (Hh : hung (at_end early_destroy)) by (vm_compute; split_and!; [done|done|]; eexists; by split_and!).
  revert Hh Hrun. generalize (at_end early_destroy). induction Hms as [|m ms Hm Hms IH]; intros s Hh Hrun.
  - injection Hrun as <-. by destruct Hh as (? & ? & _).
  - simpl in Hrun. destruct (EventLoopThread.step no_body [] 1 7 s m) as [[s1|]|] eqn:Hs; simpl in Hrun; try done.
    apply (IH s1); [by eapply hung_step|exact Hrun].
Qed.

(** The wakeup is read, the loop goes back to [poll]. *)
Definition after_hang : list move := [Child; Poll [WakeupEvent]; Child; Child; Child; Child; Child].

Lemma destructor_hangs_witness : exists s',
  EventLoopThread.run no_body [] 1 7 (at_end early_destroy) after_hang ⇓ Some s' /\
  LoopThreadSpec.reachable no_body [] 1 7 0 [] (at_end early_destroy) /\ owner s' = OJoin /\ child s' = CLoop.
Proof.
  eexists. split; [vm_compute; reflexivity|]. apply (destructor_hangs after_hang); [repeat constructor|].
  vm_compute. reflexivity.
Defined.

(** The destructor can also use a loop that is gone: [poll] times out after
    the store to [_quit], the new thread leaves [loop()] and destroys the loop,
    and the destructor then calls [wakeup()] on it. *)
Theorem destructor_races :
  go ([StartLoop; Child; Child; Owner; Child; Child; Child; Owner; Child; Child; Destroy; Owner;
       Poll []; Child; Child; Child; Child; Child; Child; Child] ++ [Owner]) ↯ Undefined.
Proof. vm_compute. reflexivity. Qed.
End ThreadTheorems.
