(* ===== verification/Addresses.v ===== *)
(** * Addresses: socket addresses and their text

    Models [InetAddress] ([src/muduo/net/InetAddress.h], [InetAddress.cc]) and
    the address functions of [src/muduo/net/SocketsOps.cc].  An [InetAddress]
    is a union of [sockaddr_in] and [sockaddr_in6]; its state is the 28 bytes
    cut at the fields of either: family, port, the word that is the IPv4
    address or the flow information, the 16 bytes of the IPv6 address (the
    first 8 of which are [sin_zero]) and the scope.  [inet_ntop] and
    [inet_pton] are a class with their contract. *)
From S2P Require Import Prelude Endian Timestamps LogStreams Dates UtcTimes Formats Clients.

Local Open Scope Z_scope.
Local Open Scope muduo_scope.

(** [inet_ntop(3)] and [inet_pton(3)]: text of 4 and of 16 bytes, of at most
    15 and 45 characters, that reads back as those bytes. *)
Class InetText := {
  ntop4 : bytes -> bytes;
  ntop6 : bytes -> bytes;
  pton4 : bytes -> option bytes;
  pton6 : bytes -> option bytes;
  ntop4_len : forall a, length a = 4%nat -> len (ntop4 a) <= 15;
  ntop6_len : forall a, length a = 16%nat -> len (ntop6 a) <= 45;
  pton4_ntop4 : forall a, length a = 4%nat -> pton4 (ntop4 a) = Some a;
  pton6_ntop6 : forall a, length a = 16%nat -> pton6 (ntop6 a) = Some a;
  pton4_len : forall s a, pton4 s = Some a -> length a = 4%nat;
  pton6_len : forall s a, pton6 s = Some a -> length a = 16%nat }.

Definition AF_INET : Z := sockets.AF_INET.
Definition AF_INET6 : Z := sockets.AF_INET6.

(** The union; [sin_port] and [s_addr] are the integers stored, in network
    order. *)
Record sockaddr : Type := mk_sockaddr {
  sin_family : Z;
  sin_port : Z;
  s_addr : Z;                    (* or [sin6_flowinfo] *)
  sin6_addr : bytes;             (* begins with [sin_zero] *)
  sin6_scope_id : Z }.

Definition zeros (n : nat) : bytes := replicate n "000"%char.

Module SocketsOps.
Section addresses.
Context `{Host} `{InetText}.

(** [memZero(&addr_, sizeof addr_)]: 16 of the 28 bytes. *)
Definition zero_in (a : sockaddr) : sockaddr := mk_sockaddr 0 0 0 (zeros 8 ++ drop 8 (sin6_addr a)) (sin6_scope_id a).
Definition zero_in6 (a : sockaddr) : sockaddr := mk_sockaddr 0 0 0 (zeros 16) 0.

(** [sockets::fromIpPort]: a text that is no address leaves the bytes alone
    (and logs). *)
Definition fromIpPort4 (ip : bytes) (port : Z) (a : sockaddr) : sockaddr :=
  mk_sockaddr AF_INET (hostToNetwork16 port)
    (match pton4 ip with Some x => mem_value x | None => s_addr a end) (sin6_addr a) (sin6_scope_id a).
Definition fromIpPort6 (ip : bytes) (port : Z) (a : sockaddr) : sockaddr :=
  mk_sockaddr AF_INET6 (hostToNetwork16 port) (s_addr a)
    (match pton6 ip with Some x => x | None => sin6_addr a end) (sin6_scope_id a).

(** [sockets::toIp] into a buffer of [size] bytes that holds [buf]. *)
Definition toIp (buf : bytes) (size : Z) (a : sockaddr) : outcome bytes :=
  if bool_decide (sin_family a = AF_INET) then
    assert_ (bool_decide (16 <= size));; mret (ntop4 (mem_bytes 4 (s_addr a)))
  else if bool_decide (sin_family a = AF_INET6) then
    assert_ (bool_decide (46 <= size));; mret (ntop6 (sin6_addr a))
  else mret buf.

Definition toIpPort (buf : bytes) (size : Z) (a : sockaddr) : outcome bytes :=
  buf ← toIp buf size a;
  let port := networkToHost16 (sin_port a) in
  assert_ (bool_decide (len buf < size));;
  mret (buf ++ (Printf.snprintf (Z.to_nat (size - len buf)) [Printf.chars ":"; Printf.d port]).1).

(** What [getsockname] and [getpeername] leave in a zeroed [sockaddr_in6]:
    nothing when they fail, 16 bytes of an IPv4 address. *)
Definition stored (answer : option sockaddr) : sockaddr :=
  match answer with
  | None => mk_sockaddr 0 0 0 (zeros 16) 0
  | Some a =>
      if bool_decide (sin_family a = AF_INET)
      then mk_sockaddr AF_INET (sin_port a) (s_addr a) (take 8 (sin6_addr a) ++ zeros 8) 0 else a
  end.
Definition getLocalAddr (getsockname : Z -> option sockaddr) (sockfd : Z) : sockaddr := stored (getsockname sockfd).
Definition getPeerAddr (getpeername : Z -> option sockaddr) (sockfd : Z) : sockaddr := stored (getpeername sockfd).

Definition isSelfConnect (getsockname getpeername : Z -> option sockaddr) (sockfd : Z) : bool :=
  let localaddr := getLocalAddr getsockname sockfd in
  let peeraddr := getPeerAddr getpeername sockfd in
  if bool_decide (sin_family localaddr = AF_INET) then
    bool_decide (sin_port localaddr = sin_port peeraddr) && bool_decide (s_addr localaddr = s_addr peeraddr)
  else if bool_decide (sin_family localaddr = AF_INET6) then
    bool_decide (sin_port localaddr = sin_port peeraddr) && bool_decide (sin6_addr localaddr = sin6_addr peeraddr)
  else false.
End addresses.
End SocketsOps.

Module InetAddress.
Import SocketsOps.
Definition t : Type := sockaddr.
Definition kInaddrAny : Z := 0.
Definition kInaddrLoopback : Z := 2130706433.       (* 127.0.0.1 *)
Definition in6addr_any : bytes := zeros 16.
Definition in6addr_loopback : bytes := zeros 15 ++ [char_of_Z 1].

Section addresses.
Context `{Host} `{InetText}.

(** [memory] is what the object's bytes held before. *)
Definition of_port (memory : sockaddr) (port : Z) (loopbackOnly ipv6 : bool) : t :=
  if ipv6 then
    let a := zero_in6 memory in
    let ip := if loopbackOnly then in6addr_loopback else in6addr_any in
    mk_sockaddr AF_INET6 (hostToNetwork16 port) (s_addr a) ip (sin6_scope_id a)
  else
    let a := zero_in memory in
    let ip := if loopbackOnly then kInaddrLoopback else kInaddrAny in
    mk_sockaddr AF_INET (hostToNetwork16 port) (hostToNetwork32 ip) (sin6_addr a) (sin6_scope_id a).

Definition of_ip_port (memory : sockaddr) (ip : bytes) (port : Z) (ipv6 : bool) : t :=
  if ipv6 then fromIpPort6 ip port (zero_in6 memory) else fromIpPort4 ip port (zero_in memory).

Definition family (a : t) : Z := sin_family a.
Definition toIpPort_ (a : t) : outcome bytes := toIpPort [] 64 a.
Definition toIp_ (a : t) : outcome bytes := toIp [] 64 a.
Definition ipNetEndian (a : t) : outcome Z :=
  assert_ (bool_decide (family a = AF_INET));; mret (s_addr a).
Definition portNetEndian (a : t) : Z := sin_port a.
Definition toPort (a : t) : Z := networkToHost16 (portNetEndian a).
Definition setSockAddrInet6 (addr6 : sockaddr) (a : t) : t := addr6.

(** [answer]: the address family, the bytes and the number of them that
    [gethostbyname_r] found. *)
Definition resolve (answer : option (Z * bytes)) (out : t) : outcome (bool * t) :=
  match answer with
  | Some (h_addrtype, h_addr) =>
      assert_ (bool_decide (h_addrtype = AF_INET) && bool_decide (len h_addr = 4));;
      mret (true, mk_sockaddr (sin_family out) (sin_port out) (mem_value h_addr) (sin6_addr out) (sin6_scope_id out))
  | None => mret (false, out)
  end.
End addresses.
End InetAddress.

Module Socket.
(** [Socket::accept]: [connfd] and [addr] are what the kernel returned. *)
Definition accept (connfd : Z) (addr peeraddr : sockaddr) : Z * sockaddr :=
  (connfd, if bool_decide (0 <= connfd) then InetAddress.setSockAddrInet6 addr peeraddr else peeraddr).

(** The options that the setters change; [ret] is what [setsockopt] returns,
    which takes effect unless it is negative. *)
Record options : Type := mk_options { tcp_nodelay : bool; so_reuseaddr : bool; so_reuseport : bool; so_keepalive : bool }.
Definition setTcpNoDelay (ret : Z) (on : bool) (o : options) : options :=
  if bool_decide (ret < 0) then o else mk_options on (so_reuseaddr o) (so_reuseport o) (so_keepalive o).
Definition setReuseAddr (ret : Z) (on : bool) (o : options) : options :=
  if bool_decide (ret < 0) then o else mk_options (tcp_nodelay o) on (so_reuseport o) (so_keepalive o).
(** Also whether it logs an error. *)
Definition setReusePort (ret : Z) (on : bool) (o : options) : options * bool :=
  (if bool_decide (ret < 0) then o else mk_options (tcp_nodelay o) (so_reuseaddr o) on (so_keepalive o),
   bool_decide (ret < 0) && on).
Definition setKeepAlive (ret : Z) (on : bool) (o : options) : options :=
  if bool_decide (ret < 0) then o else mk_options (tcp_nodelay o) (so_reuseaddr o) (so_reuseport o) on.

(** [bindOrDie] and [listenOrDie]. *)
Definition bindAddress (ret : Z) : outcome unit := if bool_decide (ret < 0) then Fault LogFatal else mret tt.
Definition listen (ret : Z) : outcome unit := if bool_decide (ret < 0) then Fault LogFatal else mret tt.

(** The fields of [struct tcp_info] that are printed; all unsigned. *)
Record tcp_info : Type := mk_tcp_info {
  tcpi_retransmits : Z; tcpi_rto : Z; tcpi_ato : Z; tcpi_snd_mss : Z; tcpi_rcv_mss : Z; tcpi_lost : Z;
  tcpi_retrans : Z; tcpi_rtt : Z; tcpi_rttvar : Z; tcpi_snd_ssthresh : Z; tcpi_snd_cwnd : Z; tcpi_total_retrans : Z }.
Definition tcp_info_specs (i : tcp_info) : list Printf.spec :=
  [Printf.chars "unrecovered="; Printf.d (tcpi_retransmits i); Printf.chars " rto="; Printf.d (tcpi_rto i);
   Printf.chars " ato="; Printf.d (tcpi_ato i); Printf.chars " snd_mss="; Printf.d (tcpi_snd_mss i);
   Printf.chars " rcv_mss="; Printf.d (tcpi_rcv_mss i); Printf.chars " lost="; Printf.d (tcpi_lost i);
   Printf.chars " retrans="; Printf.d (tcpi_retrans i); Printf.chars " rtt="; Printf.d (tcpi_rtt i);
   Printf.chars " rttvar="; Printf.d (tcpi_rttvar i); Printf.chars " sshthresh="; Printf.d (tcpi_snd_ssthresh i);
   Printf.chars " cwnd="; Printf.d (tcpi_snd_cwnd i); Printf.chars " total_retrans="; Printf.d (tcpi_total_retrans i)].

(** [answer]: what [getsockopt] found, if it succeeded; [buf]: what the buffer
    of [size] bytes held. *)
Definition getTcpInfoString (answer : option tcp_info) (buf : bytes) (size : nat) : bool * bytes :=
  match answer with
  | Some i => (true, (Printf.snprintf size (tcp_info_specs i)).1)
  | None => (false, buf)
  end.
(** [TcpConnection::getTcpInfoString]. *)
Definition connection_getTcpInfoString (answer : option tcp_info) : bytes := (getTcpInfoString answer [] 1024).2.
End Socket.

(** ** A concrete text form: dotted decimal, and hexadecimal for IPv6 *)
Module PlainText.
Import Printf DecimalSpec FormatFacts TimeTextFacts.

Fixpoint split_dot (s cur : bytes) : list bytes :=
  match s with
  | [] => [rev cur]
  | c :: s => if bool_decide (c = "."%char) then rev cur :: split_dot s [] else split_dot s (c :: cur)
  end.
Definition octet (s : bytes) : option char :=
  n ← digits_value 0 s;
  if bool_decide (n < 256) && bool_decide (1 <= len s <= 3) then Some (char_of_Z n) else None.
Definition plain_ntop4 (a : bytes) : bytes :=
  match a with
  | [w; x; y; z] =>
      dec (Z_of_char w) ++ lit "." ++ dec (Z_of_char x) ++ lit "." ++ dec (Z_of_char y) ++ lit "." ++ dec (Z_of_char z)
  | _ => []
  end.
Definition plain_pton4 (s : bytes) : option bytes :=
  match split_dot s [] with
  | [w; x; y; z] => w ← octet w; x ← octet x; y ← octet y; z ← octet z; Some [w; x; y; z]
  | _ => None
  end.

(** Two letters from ["A"] to ["P"] for each byte. *)
Definition plain_ntop6 (a : bytes) : bytes :=
  concat (map (fun c => [char_of_Z (65 + Z_of_char c / 16); char_of_Z (65 + Z_of_char c mod 16)]) a).
Fixpoint letters (s : bytes) : bytes :=
  match s with
  | h :: l :: s => char_of_Z ((Z_of_char h - 65) * 16 + (Z_of_char l - 65)) :: letters s
  | _ => []
  end.
Definition plain_pton6 (s : bytes) : option bytes := if bool_decide (length s = 32%nat) then Some (letters s) else None.

Lemma dec_octet c : exists k, (1 <= k <= 3)%nat /\ Z_of_char c < 10 ^ Z.of_nat k /\ dec (Z_of_char c) = fixed k (Z_of_char c).
Proof.
  pose proof (Z_of_char_range c). destruct (dec_fixed (Z_of_char c)) as (k & Hk & Hlt & Hge & He); [lia|].
  exists k. split_and!; [lia| |done|done]. destruct Hge as [->|Hge]; [lia|].
  assert (Hp : 10 ^ (Z.of_nat k - 1) < 10 ^ 3) by lia. apply Z.pow_lt_mono_r_iff in Hp; lia.
Qed.

Lemma octet_dec c : octet (dec (Z_of_char c)) = Some c.
Proof.
  pose proof (Z_of_char_range c). destruct (dec_octet c) as (k & Hk & Hlt & ->). unfold octet.
  rewrite digits_value_fixed by lia. cbn [mbind option_bind]. rewrite Z.mul_0_l, Z.add_0_l.
  rewrite bool_decide_true by lia. rewrite bool_decide_true by (unfold len; rewrite length_fixed; lia). cbn [andb]. f_equal. apply char_of_Z_of_char.
Qed.

Lemma fixed_no_dot k n : Forall (fun c => c <> "."%char) (fixed k n).
Proof.
  revert n. induction k as [|k IH]; intros n; simpl; [done|]. apply Forall_app. split; [done|]. constructor; [|done].
  intros He. apply (f_equal Z_of_char) in He. rewrite Z_of_char_of_Z in He. change (Z_of_char ".") with 46 in He.
  pose proof (Z.mod_pos_bound n 10). rewrite Z.mod_small in He; lia.
Qed.

Lemma split_dot_app s : forall cur tl, Forall (fun c => c <> "."%char) s ->
  split_dot (s ++ tl) cur = split_dot tl (rev s ++ cur).
Proof.
  induction s as [|c s IH]; intros cur tl Hs; [done|]. inversion Hs; subst. simpl.
  rewrite bool_decide_false by done. rewrite IH by done. by rewrite <-app_assoc.
Qed.

Lemma dec_no_dot c : Forall (fun x => x <> "."%char) (dec (Z_of_char c)).
Proof. destruct (dec_octet c) as (k & _ & _ & ->). apply fixed_no_dot. Qed.

Lemma split_dot_field c tl : split_dot (dec (Z_of_char c) ++ lit "." ++ tl) [] = dec (Z_of_char c) :: split_dot tl [].
Proof. rewrite split_dot_app by apply dec_no_dot. rewrite app_nil_r. simpl. by rewrite rev_involutive. Qed.

Lemma split_dot_last c : split_dot (dec (Z_of_char c)) [] = [dec (Z_of_char c)].
Proof.
  rewrite <-(app_nil_r (dec (Z_of_char c))) at 1. rewrite split_dot_app by apply dec_no_dot.
  rewrite app_nil_r. simpl. by rewrite rev_involutive.
Qed.

Lemma plain_round_trip4 a : length a = 4%nat -> plain_pton4 (plain_ntop4 a) = Some a.
Proof.
  destruct a as [|w [|x [|y [|z [|]]]]]; try done. intros _. unfold plain_pton4, plain_ntop4.
  rewrite !split_dot_field, split_dot_last. by rewrite !octet_dec.
Qed.

Lemma plain_ntop6_letters a : letters (plain_ntop6 a) = a.
Proof.
  induction a as [|c a IH]; [done|]. unfold plain_ntop6 in *. cbn [map concat app letters]. rewrite IH. f_equal.
  pose proof (Z_of_char_range c). rewrite !Z_of_char_of_Z, !Z.mod_small by (Z.to_euclidean_division_equations; lia).
  etransitivity; [|apply char_of_Z_of_char]. f_equal. pose proof (Z.div_mod (Z_of_char c) 16). lia.
Qed.

Lemma plain_ntop6_length a : length (plain_ntop6 a) = (2 * length a)%nat.
Proof. induction a as [|c a IH]; [done|]. unfold plain_ntop6 in *. cbn [map concat length app]. rewrite IH. lia. Qed.

Lemma plain_ntop4_len a : length a = 4%nat -> len (plain_ntop4 a) <= 15.
Proof.
  destruct a as [|w [|x [|y [|z [|]]]]]; try done. intros _. unfold plain_ntop4. rewrite !len_app.
  assert (Hd : forall c, len (dec (Z_of_char c)) <= 3).
  { intros c. destruct (dec_octet c) as (k & Hk & _ & ->). unfold len. rewrite length_fixed. lia. }
  pose proof (Hd w). pose proof (Hd x). pose proof (Hd y). pose proof (Hd z). change (len (lit ".")) with 1. lia.
Qed.

Lemma letters_length n : forall s, length s = (2 * n)%nat -> length (letters s) = n.
Proof.
  induction n as [|n IH]; intros s Hs; [by destruct s|]. destruct s as [|h [|l s]]; simpl in *; try lia. f_equal. apply IH. lia.
Qed.

#[export] Instance plain_text : InetText.
Proof.
  refine {| ntop4 := plain_ntop4; ntop6 := plain_ntop6; pton4 := plain_pton4; pton6 := plain_pton6 |}.
  - apply plain_ntop4_len.
  - intros a Ha. unfold len. rewrite plain_ntop6_length, Ha. lia.
  - apply plain_round_trip4.
  - intros a Ha. unfold plain_pton6. rewrite plain_ntop6_length, Ha, bool_decide_true by done. by rewrite plain_ntop6_letters.
  - intros s a. unfold plain_pton4. destruct (split_dot s []) as [|w [|x [|y [|z [|]]]]]; try done.
    destruct (octet w), (octet x), (octet y), (octet z); simpl; try done. by intros [= <-].
  - intros s a. unfold plain_pton6. case_bool_decide; [|done]. intros [= <-]. by apply letters_length.
Defined.
End PlainText.

(** ** Specification *)
Module AddressSpec.
Import InetAddress.
Section spec.
Context `{Host} `{InetText}.

(** The fields have their widths, and the family is one of the two. *)
Record wf (a : sockaddr) : Prop := {
  wf_family : sin_family a = AF_INET \/ sin_family a = AF_INET6;
  wf_port : 0 <= sin_port a < two_16;
  wf_word : 0 <= s_addr a < two_32;
  wf_addr6 : length (sin6_addr a) = 16%nat;
  wf_scope : 0 <= sin6_scope_id a < two_32 }.

(** Memory an [InetAddress] may be built in: any bytes. *)
Definition raw (a : sockaddr) : Prop := length (sin6_addr a) = 16%nat /\ 0 <= sin6_scope_id a < two_32.

(** What the kernel writes for the address [ip] of family [fam] and the port
    [port]: both in network order, the other fields anything of their width. *)
Definition kernel_writes (fam : Z) (ip : bytes) (port : Z) (a : sockaddr) : Prop :=
  sin_family a = fam /\ 0 <= port < two_16 /\ mem_bytes 2 (sin_port a) = be_bytes 2 port /\ 0 <= sin_port a < two_16 /\
  0 <= s_addr a < two_32 /\ length (sin6_addr a) = 16%nat /\ 0 <= sin6_scope_id a < two_32 /\
  (fam = AF_INET /\ length ip = 4%nat /\ mem_bytes 4 (s_addr a) = ip \/ fam = AF_INET6 /\ sin6_addr a = ip).
(** The answer to [getsockname] and [getpeername]; [AF_UNSPEC] if they fail. *)
Definition kernel_answers (fam : Z) (ip : bytes) (port : Z) (answer : option sockaddr) : Prop :=
  match answer with
  | Some a => kernel_writes fam ip port a
  | None => fam = 0 /\ ip = [] /\ port = 0
  end.

(** How the program comes by an address, and the family, the bytes of the
    address and the port that it is to have. *)
Definition local_ip (loopbackOnly ipv6 : bool) : bytes :=
  match ipv6, loopbackOnly with
  | true, true => zeros 15 ++ [char_of_Z 1]
  | true, false => zeros 16
  | false, true => char_of_Z <$> [127; 0; 0; 1]
  | false, false => zeros 4
  end.
Definition parsed_ip (ip : bytes) (ipv6 : bool) : bytes :=
  if ipv6 then default (zeros 16) (pton6 ip) else default (zeros 4) (pton4 ip).
Definition family_of (ipv6 : bool) : Z := if ipv6 then AF_INET6 else AF_INET.
Inductive made : sockaddr -> Z -> bytes -> Z -> Prop :=
  | made_port memory port loopbackOnly ipv6 : raw memory -> 0 <= port < two_16 ->
      made (of_port memory port loopbackOnly ipv6) (family_of ipv6) (local_ip loopbackOnly ipv6) port
  | made_text memory ip port ipv6 : raw memory -> 0 <= port < two_16 ->
      made (of_ip_port memory ip port ipv6) (family_of ipv6) (parsed_ip ip ipv6) port
  | made_local getsockname sockfd fam ip port : kernel_answers fam ip port (getsockname sockfd) ->
      made (SocketsOps.getLocalAddr getsockname sockfd) fam ip port
  | made_peer getpeername sockfd fam ip port : kernel_answers fam ip port (getpeername sockfd) ->
      made (SocketsOps.getPeerAddr getpeername sockfd) fam ip port
  | made_accept connfd addr a fam ip port fam' ip' port' : kernel_writes fam ip port addr -> made a fam' ip' port' ->
      made (Socket.accept connfd (SocketsOps.stored (Some addr)) a).2
        (if bool_decide (0 <= connfd) then fam else fam') (if bool_decide (0 <= connfd) then ip else ip')
        (if bool_decide (0 <= connfd) then port else port')
  | made_resolve a answer ok a' fam ip port : made a fam ip port -> resolve answer a ⇓ (ok, a') ->
      made a' fam (match answer with Some (_, h_addr) => if bool_decide (fam = AF_INET) then h_addr else ip | None => ip end) port.

(** Its text. *)
Definition ip_text (fam : Z) (ip : bytes) : bytes :=
  if bool_decide (fam = AF_INET) then ntop4 ip else if bool_decide (fam = AF_INET6) then ntop6 ip else [].

(** The text of an address. *)
Definition text (ipv6 : bool) (a : bytes) : bytes := if ipv6 then ntop6 a else ntop4 a.
Definition width (ipv6 : bool) : nat := if ipv6 then 16 else 4.
End spec.
End AddressSpec.

Module AddressFacts.
Import SocketsOps InetAddress AddressSpec.
Section facts.
Context `{Host} `{InetText}.

Lemma mem_bytes_mem_value l n : length l = n -> mem_bytes n (mem_value l) = l.
Proof.
  intros <-. unfold mem_bytes, mem_value. destruct host_order; [apply le_bytes_le_value|].
  unfold be_bytes, be_value. rewrite <-length_reverse, le_bytes_le_value. apply reverse_involutive.
Qed.

Lemma mem_bytes_inj n x y : 0 <= x < 256 ^ Z.of_nat n -> 0 <= y < 256 ^ Z.of_nat n ->
  mem_bytes n x = mem_bytes n y -> x = y.
Proof.
  intros Hx Hy Heq. apply (f_equal mem_value) in Heq. rewrite !mem_value_mem_bytes, !Z.mod_small in Heq by done. done.
Qed.

Lemma port_round_trip port : 0 <= port < two_16 -> networkToHost16 (hostToNetwork16 port) = port.
Proof. intros Hp. unfold networkToHost16, hostToNetwork16. rewrite betoh_htobe. by apply Z.mod_small. Qed.

Lemma hton16_range port : 0 <= hostToNetwork16 port < two_16.
Proof. apply htobe_range. Qed.

Lemma ntoh16_range port : 0 <= networkToHost16 port < two_16.
Proof. apply htobe_range. Qed.

Lemma port_text port : 0 <= port < two_16 -> Printf.format [Printf.chars ":"; Printf.d port] = lit ":" ++ Printf.dec port /\
  1 <= len (Printf.dec port) <= 5.
Proof.
  unfold two_16. intros Hp. destruct (FormatFacts.dec_fixed port) as (k & Hk & _ & Hge & He); [lia|]. split.
  - unfold Printf.format, Printf.d, Printf.show, Printf.sign. cbn [map concat]. rewrite Z.abs_eq by lia.
    destruct (Z.ltb_spec port 0); [lia|]. rewrite app_nil_r. done.
  - rewrite He. unfold len. rewrite FormatFacts.length_fixed. destruct Hge as [->|Hge]; [lia|].
    assert (Hpw : 10 ^ (Z.of_nat k - 1) < 10 ^ 5) by lia. apply Z.pow_lt_mono_r_iff in Hpw; lia.
Qed.

Lemma print_address a ip : toIp_ a ⇓ ip -> len ip <= 45 -> toIpPort_ a ⇓ (ip ++ lit ":" ++ Printf.dec (toPort a)).
Proof.
  intros Hip Hl. unfold toIpPort_, toIpPort. unfold toIp_ in Hip. rewrite Hip. cbn [mbind outcome_bind].
  rewrite bool_decide_true by lia. cbn [assert_ mbind outcome_bind]. unfold Printf.snprintf.
  destruct (port_text (networkToHost16 (sin_port a)) (ntoh16_range _)) as [Ht Hd]. rewrite Ht. cbn [fst].
  rewrite take_ge; [done|]. rewrite length_app. unfold len in *. simpl. lia.
Qed.

Lemma raw_zero_in memory : raw memory -> length (sin6_addr (zero_in memory)) = 16%nat.
Proof. intros [Hl _]. simpl. rewrite length_drop, Hl. done. Qed.

(** The fields of an address that stands for a family, an address and a port. *)
Record means (a : sockaddr) (fam : Z) (ip : bytes) (port : Z) : Prop := {
  mn_port : 0 <= sin_port a < two_16;
  mn_word : 0 <= s_addr a < two_32;
  mn_addr6 : length (sin6_addr a) = 16%nat;
  mn_scope : 0 <= sin6_scope_id a < two_32;
  mn_family : sin_family a = fam;
  mn_toPort : toPort a = port;
  mn_ip : fam = AF_INET /\ length ip = 4%nat /\ mem_bytes 4 (s_addr a) = ip \/ fam = AF_INET6 /\ sin6_addr a = ip \/ fam = 0 /\ ip = [] }.

Lemma means_port memory port lo ipv6 : raw memory -> 0 <= port < two_16 ->
  means (of_port memory port lo ipv6) (family_of ipv6) (local_ip lo ipv6) port.
Proof.
  intros Hm Hp. pose proof (raw_zero_in memory Hm) as Hz. destruct Hm as [Hl Hsc]. pose proof (hton16_range port) as Hh.
  pose proof (port_round_trip port Hp) as Hr. assert (forall v, 0 <= hostToNetwork32 v < two_32) as Hw by (intros v; apply (htobe_range 4)).
  destruct ipv6; (split; [exact Hh| | | |done|exact Hr|]); try done.
  - by destruct lo.
  - right. left. split; [done|]. by destruct lo.
  - destruct lo; apply Hw.
  - left. split_and!; [done|by destruct lo|]. cbn [of_port s_addr]. unfold hostToNetwork32. rewrite mem_bytes_htobe. by destruct lo.
Qed.

Lemma means_text memory ip port ipv6 : raw memory -> 0 <= port < two_16 ->
  means (of_ip_port memory ip port ipv6) (family_of ipv6) (parsed_ip ip ipv6) port.
Proof.
  intros Hm Hp. pose proof (raw_zero_in memory Hm) as Hz. destruct Hm as [Hl Hsc]. pose proof (hton16_range port) as Hh.
  pose proof (port_round_trip port Hp) as Hr. unfold of_ip_port, parsed_ip.
  destruct ipv6; (split; [exact Hh| | | |done|exact Hr|]); try done; simpl.
  - destruct (pton6 ip) eqn:E; [by eapply pton6_len|done].
  - right. left. by destruct (pton6 ip).
  - destruct (pton4 ip) as [x|] eqn:E; [|done]. pose proof (mem_value_range x) as Hx. by rewrite (pton4_len _ _ E) in Hx.
  - left. destruct (pton4 ip) as [x|] eqn:E; simpl.
    + pose proof (pton4_len _ _ E). split_and!; [done|done|by apply mem_bytes_mem_value].
    + split_and!; [done|done|]. unfold mem_bytes. by destruct host_order.
Qed.

Lemma means_stored fam ip port answer : kernel_answers fam ip port answer -> means (stored answer) fam ip port.
Proof.
  destruct answer as [a|]; simpl.
  - intros (Hf & Hp & Hport & Hpr & Hw & Ha & Hs & Hip).
    assert (toPort a = port) as Htp.
    { unfold toPort, portNetEndian, networkToHost16, betoh. apply (mem_bytes_inj 2); [apply htobe_range|done|].
      apply (f_equal mem_value) in Hport. rewrite mem_value_mem_bytes, Z.mod_small in Hport by done.
      rewrite Hport. fold (betoh 2 (mem_value (be_bytes 2 port))). rewrite betoh_mem_value, be_value_be_bytes by apply length_be_bytes.
      apply mem_bytes_mod. }
    case_bool_decide as Hi; (split; simpl; try done); [by rewrite length_app, length_take, Ha|congruence|..].
    + destruct Hip as [?|[Hf6 _]]; [by left|]. assert (AF_INET = AF_INET6) by congruence. done.
    + destruct Hip as [?|?]; [by left|by right; left].
  - intros (-> & -> & ->). split; try done; [|by right; right].
    unfold toPort, portNetEndian, networkToHost16, betoh, htobe. by destruct host_order.
Qed.

Lemma made_means a fam ip port : made a fam ip port -> means a fam ip port.
Proof.
  induction 1 as [memory port lo ipv6 Hm Hp|memory ip port ipv6 Hm Hp|gs fd fam ip port Ha|gp fd fam ip port Ha
    |connfd addr a fam ip port fam' ip' port' Haddr _ IH|a answer ok a' fam ip port _ IH Hr].
  - by apply means_port.
  - by apply means_text.
  - by apply means_stored.
  - by apply means_stored.
  - unfold Socket.accept. simpl. case_bool_decide; [|done]. by apply (means_stored _ _ _ (Some addr)).
  - unfold resolve in Hr. destruct answer as [[ty h]|]; [|by injection Hr as _ <-].
    destruct (bool_decide (ty = AF_INET)); [|done]. case_bool_decide as Hl; [|done]. injection Hr as _ <-.
    assert (length h = 4%nat) as Hh by (unfold len in Hl; lia). pose proof (mem_value_range h) as Hx. rewrite Hh in Hx.
    destruct IH as [H1 H2 H3 H4 H5 H6 H7]. split; try done. simpl. case_bool_decide as Hf.
    + left. split_and!; [done|done|by apply mem_bytes_mem_value].
    + destruct H7 as [[? _]|?]; [done|by right].
Qed.

Lemma means_ip_text a fam ip port : means a fam ip port -> toIp_ a ⇓ ip_text fam ip /\ len (ip_text fam ip) <= 45.
Proof.
  intros [_ _ Ha _ Hf _ Hip]. unfold toIp_, toIp, ip_text. rewrite Hf.
  destruct Hip as [(-> & Hl & Hip)|[[-> Hip]|[-> ->]]]; simpl; [rewrite Hip|rewrite Hip|done].
  - split; [done|]. pose proof (ntop4_len ip Hl). lia.
  - split; [done|]. apply ntop6_len. by rewrite <-Hip.
Qed.

(** The address a client compares, as [Clients] has it: the bytes at the place
    that the family of the local address selects. *)
Definition view (ipv6 : bool) (a : sockaddr) : sockets.sockaddr :=
  sockets.mk_sockaddr (sin_family a) (sin_port a) (if ipv6 then sin6_addr a else mem_bytes 4 (s_addr a)).

Lemma stored_range answer : (forall a, answer = Some a -> wf a) -> 0 <= s_addr (stored answer) < two_32.
Proof.
  intros Hwf. destruct answer as [a|]; [|done]. destruct (Hwf a eq_refl) as [_ _ Hs _ _]. simpl.
  by case_bool_decide.
Qed.

(** The test of [Clients] is that of the code on whatever the kernel answers,
    well formed or an error. *)
Lemma isSelfConnect_view getsockname getpeername sockfd :
  (forall a, getsockname sockfd = Some a -> wf a) -> (forall a, getpeername sockfd = Some a -> wf a) ->
  let l := getLocalAddr getsockname sockfd in
  let p := getPeerAddr getpeername sockfd in
  let ipv6 := bool_decide (sin_family l = AF_INET6) in
  isSelfConnect getsockname getpeername sockfd = sockets.isSelfConnect (view ipv6 l) (view ipv6 p).
Proof.
  intros Hl Hp. apply stored_range in Hl, Hp. unfold isSelfConnect, sockets.isSelfConnect.
  fold (getLocalAddr getsockname sockfd) in Hl. fold (getPeerAddr getpeername sockfd) in Hp.
  set (l := getLocalAddr _ _) in *. set (p := getPeerAddr _ _) in *.
  cbn [view sockets.family sockets.port sockets.addr]. unfold AF_INET, AF_INET6.
  destruct (bool_decide_reflect (sin_family l = sockets.AF_INET)) as [E|_]; [|by case_bool_decide].
  rewrite E. f_equal. apply bool_decide_ext. change (bool_decide (sockets.AF_INET = sockets.AF_INET6)) with false. cbv iota.
  rewrite !take_ge by (by rewrite length_mem_bytes).
  split; [by intros ->|by apply mem_bytes_inj].
Qed.

(** An error of [getsockname] is never taken for a connection to itself. *)
Lemma isSelfConnect_error getsockname getpeername sockfd :
  getsockname sockfd = None -> isSelfConnect getsockname getpeername sockfd = false.
Proof. intros E. unfold isSelfConnect, getLocalAddr. by rewrite E. Qed.
End facts.
End AddressFacts.

(** ** Properties *)
Module SocketFacts.
Import Printf.
Lemma dec_loop_length fuel n acc : (length (dec_loop fuel n acc) <= fuel + 1 + length acc)%nat.
Proof.
  revert n acc. induction fuel as [|fuel IH]; intros n acc; cbn [dec_loop]; [simpl; lia|].
  destruct (n <? 10); [simpl; lia|]. etransitivity; [apply IH|]. simpl. lia.
Qed.

(** No conversion of an integer takes more than 21 characters. *)
Lemma show_d_length v : (length (show (d v)) <= 21)%nat.
Proof.
  assert (length (dec (Z.abs v)) <= 20)%nat as Hl by apply (dec_loop_length 19 (Z.abs v) []).
  assert (length (sign v) <= 1)%nat by (unfold sign; destruct (v <? 0); simpl; lia).
  unfold show, d. rewrite !length_app, length_replicate. lia.
Qed.
End SocketFacts.

Module AddressTheorems.
Import SocketsOps InetAddress AddressSpec AddressFacts.

(** C39.  Addresses mean what they were built from, on hosts of either byte
    order: an address built from a port (in memory that held anything), from a
    text, from the kernel's answer to [getsockname], [getpeername] or [accept], or by
    name resolution has the family, the address and the port given (the
    wildcard address for a text that is none; family 0, no address and port 0
    when the kernel's call failed; resolution replaces the address of an IPv4 one only), every field
    in its width; printing it fails no assertion and gives exactly the text of
    the address and the decimal port, at most 51 characters, uncut by the 64-byte buffer. *)
Theorem inet_address_typed `{Host} `{InetText} a fam ip port : made a fam ip port ->
  family a = fam /\ (fam = AF_INET \/ fam = AF_INET6 \/ fam = 0) /\ toPort a = port /\
  0 <= sin_port a < two_16 /\ 0 <= s_addr a < two_32 /\ length (sin6_addr a) = 16%nat /\ 0 <= sin6_scope_id a < two_32 /\
  toIp_ a ⇓ ip_text fam ip /\ toIpPort_ a ⇓ (ip_text fam ip ++ lit ":" ++ Printf.dec port) /\
  len (ip_text fam ip ++ lit ":" ++ Printf.dec port) <= 51.
Proof.
  intros Ha%made_means. destruct (means_ip_text _ _ _ _ Ha) as [Hip Hl]. destruct Ha as [H1 H2 H3 H4 H5 H6 H7].
  pose proof (print_address a _ Hip Hl) as Hpr. rewrite H6 in Hpr.
  assert (fam = AF_INET \/ fam = AF_INET6 \/ fam = 0) as Hfam by naive_solver.
  do 9 (split; [done|]).
  destruct (port_text (toPort a) (ntoh16_range _)) as [_ Hd]. rewrite H6 in Hd. rewrite !len_app. change (len (lit ":")) with 1. lia.
Qed.

Definition junk : sockaddr := mk_sockaddr 7 7 7 (replicate 16 "x"%char) 7.

Lemma inet_address_typed_witness :
  toIpPort_ (H := x86_64) (H0 := PlainText.plain_text) (of_port (H := x86_64) junk 8000 true false) ⇓ lit "127.0.0.1:8000" /\
  toPort (H := x86_64) (of_port (H := x86_64) junk 8000 true false) = 8000.
Proof.
  destruct (inet_address_typed (H := x86_64) (H0 := PlainText.plain_text) (of_port (H := x86_64) junk 8000 true false)
    AF_INET (char_of_Z <$> [127; 0; 0; 1]) 8000) as (_ & _ & Hp & _ & _ & _ & _ & _ & Ht & _).
  - apply (made_port (H := x86_64) (H0 := PlainText.plain_text) junk 8000 true false); [|unfold two_16; lia]. split; [reflexivity|]. vm_compute. split; [discriminate|reflexivity].
  - split; [rewrite Ht; vm_compute; reflexivity|exact Hp].
Defined.

(** The text given to the constructor is the text printed, the port the port
    given, on hosts of either byte order. *)
Theorem inet_address_text `{Host} `{InetText} memory x port ipv6 :
  raw memory -> length x = width ipv6 -> 0 <= port < two_16 ->
  let a := of_ip_port memory (text ipv6 x) port ipv6 in
  family a = (if ipv6 then AF_INET6 else AF_INET) /\ toPort a = port /\ toIp_ a ⇓ text ipv6 x /\
  toIpPort_ a ⇓ (text ipv6 x ++ lit ":" ++ Printf.dec port).
Proof.
  intros Hm Hx Hp a. pose proof (means_text memory (text ipv6 x) port ipv6 Hm Hp) as Ha. fold a in Ha.
  destruct (means_ip_text _ _ _ _ Ha) as [Hip Hl]. pose proof (mn_family _ _ _ _ Ha) as Hf. pose proof (mn_toPort _ _ _ _ Ha) as Hport.
  assert (ip_text (family_of ipv6) (parsed_ip (text ipv6 x) ipv6) = text ipv6 x) as Htext.
  { unfold ip_text, parsed_ip. destruct ipv6; simpl; [by rewrite pton6_ntop6|by rewrite pton4_ntop4]. }
  rewrite Htext in *. pose proof (print_address a _ Hip Hl) as Hpr. rewrite Hport in Hpr. by split_and!.
Qed.

(** A text that is no address makes the wildcard address. *)
Theorem bad_text_is_any `{Host} `{InetText} memory ip port :
  pton4 ip = None -> toIp_ (of_ip_port memory ip port false) ⇓ ntop4 (mem_bytes 4 0).
Proof. intros Hip. unfold of_ip_port, toIp_, toIp. simpl. by rewrite Hip. Qed.

(** The kernel's numbers about a connection are never cut in the 1024 bytes that
    [TcpConnection::getTcpInfoString] has for them. *)
Theorem tcp_info_whole i : Socket.connection_getTcpInfoString (Some i) = Printf.format (Socket.tcp_info_specs i).
Proof.
  unfold Socket.connection_getTcpInfoString, Socket.getTcpInfoString, Printf.snprintf. cbn [fst snd]. apply take_ge.
  unfold Printf.format, Socket.tcp_info_specs. cbn [map concat]. rewrite !length_app. cbn [length].
  pose proof (fun v => SocketFacts.show_d_length v) as Hd.
  repeat match goal with |- context [length (Printf.show (Printf.d ?v))] => pose proof (Hd v); generalize dependent (length (Printf.show (Printf.d v))); intros end.
  cbn [Printf.show Printf.chars]. unfold lit. simpl length. lia.
Qed.
End AddressTheorems.
