(* ===== verification/SmallFiles.v ===== *)
(** * SmallFiles: reading whole files, and what /proc says

    Models [FileUtil::ReadSmallFile] and [readFile]
    ([src/muduo/base/FileUtil.h], [FileUtil.cc]) and the parts of
    [ProcessInfo] ([src/muduo/base/ProcessInfo.cc]) that read text.  The
    kernel is a parameter: for each offset and count, [read(2)] answers with a
    number of bytes or an error, so that any pattern of short reads is
    covered. *)
From stdpp Require Import sorting.
From Stdlib Require Import SpecFloat.
From S2P Require Import Prelude Endian Timestamps LogStreams Dates UtcTimes Formats TimeZones Loggers.

Local Open Scope Z_scope.
Local Open Scope muduo_scope.

(** The fields of [struct stat] that are used; [st_mode] is the file type, which
    [S_ISREG] and [S_ISDIR] test. *)
Record stat : Type := mk_stat { st_mode : Z; st_size : Z; st_mtime : Z; st_ctime : Z }.

(** A file as [open(2)] finds it: an error, or its content and its kernel. *)
Record opened : Type := mk_opened {
  f_content : bytes;
  f_read : Z -> Z -> Z + Z;      (* offset, count: errno or number of bytes *)
  f_stat : Z + stat }.           (* [fstat(2)]: errno, or what it found *)
Definition S_IFREG : Z := 32768.
Definition S_IFDIR : Z := 16384.
Definition EISDIR : Z := 21.

Module ReadSmallFile.
Definition kBufferSize : Z := 64 * 1024.

(** [fd_] and [err_]. *)
Definition t : Type := Z + opened.
Definition err (f : t) : Z := match f with inl e => e | inr _ => 0 end.

(** The loop of [readToString]: [off] is the file offset, which is also the
    size of the content. *)
Fixpoint read_loop (fuel : nat) (o : opened) (maxSize : Z) (content : bytes) (err : Z) : option (Z * bytes) :=
  match fuel with
  | O => None
  | S fuel =>
      if bool_decide (len content < u64 maxSize) then
        let toRead := Z.min (u64 maxSize - len content) kBufferSize in
        match f_read o (len content) toRead with
        | inl e => Some (e, content)
        | inr n =>
            if bool_decide (0 < n)
            then read_loop fuel o maxSize (content ++ slice (f_content o) (len content) n) err
            else Some (err, content)
        end
      else Some (err, content)
  end.

(** The objects that [fileSize], [modifyTime] and [createTime] point to; [None]
    is a null pointer. *)
Record outs : Type := mk_outs { fileSize : option Z; modifyTime : option Z; createTime : option Z }.
Definition store (p : option Z) (v : Z) : option Z := match p with Some _ => Some v | None => None end.

(** [content->reserve(static_cast<int>(std::min(maxSize, *fileSize)))]: the
    capacity is not visible, but a negative [int] is a huge [size_t]. *)
Definition reserve (maxSize size : Z) : outcome unit :=
  if bool_decide (two_63 <= u64 (i32 (Z.min maxSize size))) then Fault LengthError else mret tt.

(** The first half of [readToString]: [fstat] if [fileSize] is not null. *)
Definition read_stat (o : opened) (maxSize : Z) (p : outs) : outcome (Z * outs) :=
  match fileSize p with
  | None => mret (0, p)
  | Some _ =>
      match f_stat o with
      | inl e => mret (e, p)
      | inr st =>
          e ← (if bool_decide (st_mode st = S_IFREG) then reserve maxSize (st_size st);; mret 0
               else if bool_decide (st_mode st = S_IFDIR) then mret EISDIR else mret 0);
          mret (e, mk_outs (if bool_decide (st_mode st = S_IFREG) then Some (st_size st) else fileSize p)
                           (store (modifyTime p) (st_mtime st)) (store (createTime p) (st_ctime st)))
      end
  end.

(** The error returned, the content and the caller's objects. *)
Definition readToString (fuel : nat) (f : t) (maxSize : Z) (content : bytes) (p : outs)
    : outcome (option (Z * bytes * outs)) :=
  match f with
  | inl e => mret (Some (e, content, p))
  | inr o =>
      q ← read_stat o maxSize p;
      mret ((fun r => (r.1, r.2, q.2)) <$> read_loop fuel o maxSize [] q.1)
  end.

(** [readToBuffer]: at most [kBufferSize - 1] bytes from the start, and a NUL;
    the error, the number of bytes and the C string in the buffer. *)
Definition readToBuffer (f : t) : Z * option Z * bytes :=
  match f with
  | inl e => (e, None, [])
  | inr o => match f_read o 0 (kBufferSize - 1) with
             | inl e => (e, None, [])
             | inr n => (0, Some n, slice (f_content o) 0 n)
             end
  end.

Definition readFile (fuel : nat) (f : t) (maxSize : Z) (content : bytes) (p : outs) : outcome (option (Z * bytes * outs)) :=
  readToString fuel f maxSize content p.
End ReadSmallFile.

(** [std::string::find] of a text. *)
Fixpoint prefix_eqb (pat s : bytes) : bool :=
  match pat, s with
  | [], _ => true
  | p :: pat, c :: s => bool_decide (p = c) && prefix_eqb pat s
  | _, [] => false
  end.
Fixpoint find_text (pat s : bytes) : option nat :=
  if prefix_eqb pat s then Some O
  else match s with [] => None | _ :: s => S <$> find_text pat s end.

(** [atoi(3)]: white space, a sign, digits; overflow is undefined. *)
Definition is_space (c : char) : bool := bool_decide (c = " "%char) || bool_decide (9 <= Z_of_char c <= 13).
Fixpoint skip_space (s : bytes) : bytes :=
  match s with c :: s' => if is_space c then skip_space s' else s | [] => [] end.
Fixpoint atoi_digits (s : bytes) (acc : Z) : Z :=
  match s with
  | c :: s => match DecimalSpec.digit_value c with Some d => atoi_digits s (10 * acc + d) | None => acc end
  | [] => acc
  end.
Definition atoi (s : bytes) : outcome Z :=
  match skip_space s with
  | c :: s' => if bool_decide (c = "-"%char) then checked32 (- atoi_digits s' 0)
               else if bool_decide (c = "+"%char) then checked32 (atoi_digits s' 0)
               else checked32 (atoi_digits (c :: s') 0)
  | [] => mret 0
  end.

Module ProcessInfo.
(** The name between the first ["("] and the last [")"]. *)
Definition procname (stat : bytes) : bytes :=
  match strchr stat "(", strrchr stat ")" with
  | Some lp, Some rp => if bool_decide (lp < rp)%nat then slice stat (Z.of_nat lp + 1) (Z.of_nat rp - Z.of_nat lp - 1) else []
  | _, _ => []
  end.

(** The body that [procStatus], [procStat] and [threadStat] share: what
    [readFile] left in an empty string, the error ignored. *)
Definition read_proc (fuel : nat) (f : ReadSmallFile.t) : outcome (option bytes) :=
  r ← ReadSmallFile.readFile fuel f 65536 [] (ReadSmallFile.mk_outs None None None);
  mret (option_map (fun x => x.1.2) r).

(** The file system, a parameter of the functions that open a file. *)
Definition procStatus (fuel : nat) (fs : bytes -> ReadSmallFile.t) : outcome (option bytes) :=
  read_proc fuel (fs (lit "/proc/self/status")).
Definition procStat (fuel : nat) (fs : bytes -> ReadSmallFile.t) : outcome (option bytes) :=
  read_proc fuel (fs (lit "/proc/self/stat")).
Definition threadStat (fuel : nat) (fs : bytes -> ReadSmallFile.t) (tid : Z) : outcome (option bytes) :=
  read_proc fuel (fs (Printf.snprintf 64 [Printf.chars "/proc/self/task/"; Printf.d tid; Printf.chars "/stat"]).1).

Definition self_procname (fuel : nat) (fs : bytes -> ReadSmallFile.t) : outcome (option bytes) :=
  r ← procStat fuel fs; mret (option_map procname r).

Definition pidString (pid : Z) : bytes := (Printf.snprintf 32 [Printf.d pid]).1.

(** [getpwuid_r] found a name, or not. *)
Definition username (pw_name : option bytes) : bytes := from_option id (lit "unknownuser") pw_name.

(** [readlink(2)]: an error, or the link, cut to the buffer. *)
Definition exePath (readlink : option bytes) : bytes :=
  match readlink with Some link => take 1024 link | None => [] end.

Definition numThreads (fuel : nat) (fs : bytes -> ReadSmallFile.t) : outcome (option Z) :=
  r ← procStatus fuel fs;
  match r with
  | None => mret None
  | Some status =>
      match find_text (lit "Threads:") status with
      | Some pos => n ← atoi (drop (pos + 8) status); mret (Some n)
      | None => mret (Some 0)
      end
  end.

(** [scandir(3)] calls the filter on every entry; it keeps none. *)
Definition starts_with_digit (name : bytes) : bool :=
  match name with c :: _ => bool_decide (48 <= Z_of_char c <= 57) | [] => false end.
Definition fdDirFilter (name : bytes) (numOpenedFiles : Z) : Z :=
  if starts_with_digit name then numOpenedFiles + 1 else numOpenedFiles.
Definition taskDirFilter (name : bytes) (pids : list Z) : outcome (list Z) :=
  if starts_with_digit name then n ← atoi name; mret (pids ++ [n]) else mret pids.
Definition openedFiles (entries : list bytes) : Z := foldl (fun n d => fdDirFilter d n) 0 entries.
Definition threads (entries : list bytes) : outcome (list Z) :=
  pids ← foldl (fun r d => l ← r; taskDirFilter d l) (mret []) entries;
  mret (merge_sort Z.le pids).
Definition maxOpenFiles (rlimit : option Z) (entries : list bytes) : Z :=
  match rlimit with None => openedFiles entries | Some cur => i32 cur end.
Definition hostname (answer : option bytes) : bytes :=
  match answer with Some name => take 255 name | None => lit "unknownhost" end.

(** [CpuTime]: zero seconds when [times(2)] fails ([None]). *)
Definition ddiv : double -> double -> double := SFdiv 53 1024.
Definition cpuTime (times : option (Z * Z)) (clockTicksPerSecond : Z) : double * double :=
  match times with
  | Some (tms_utime, tms_stime) =>
      let hz := double_of_int clockTicksPerSecond in
      (ddiv (double_of_int tms_utime) hz, ddiv (double_of_int tms_stime) hz)
  | None => (double_of_int 0, double_of_int 0)
  end.
End ProcessInfo.

(** ** Specification *)
Module FileSpec.
(** [read(2)] on a file that does not change: some of the bytes asked for, all
    of them only if it likes, none only at the end; or an error. *)
Definition kernel_ok (o : opened) : Prop := forall off n, 0 <= off <= len (f_content o) -> 0 < n ->
  match f_read o off n with
  | inl e => 0 < e
  | inr k => 0 <= k <= Z.min n (len (f_content o) - off) /\ (k = 0 -> off = len (f_content o))
  end.
Definition no_errors (o : opened) : Prop := forall off n e, f_read o off n <> inl e.

(** The first [n] bytes. *)
Definition prefix (n : Z) (s : bytes) : bytes := take (Z.to_nat n) s.
End FileSpec.

Module FileFacts.
Import ReadSmallFile FileSpec.

Lemma prefix_slice (s : bytes) k n : 0 <= k -> 0 <= n -> prefix k s ++ slice s k n = prefix (k + n) s.
Proof.
  intros Hk Hn. unfold prefix, slice. rewrite Z2Nat.inj_add by lia. by rewrite take_take_drop.
Qed.

Lemma len_prefix (s : bytes) k : 0 <= k <= len s -> len (prefix k s) = k.
Proof. intros Hk. unfold prefix, len in *. rewrite length_take. lia. Qed.

(** The loop ends, with a prefix; a complete one unless [read] failed. *)
Lemma read_loop_ok o maxSize e fuel : forall k, kernel_ok o -> 0 <= maxSize < two_31 ->
  0 <= k <= len (f_content o) -> k <= maxSize -> len (f_content o) - k < Z.of_nat fuel ->
  exists e' k', read_loop fuel o maxSize (prefix k (f_content o)) e = Some (e', prefix k' (f_content o)) /\
    0 <= k' <= len (f_content o) /\
    ((e' = e /\ k' = Z.min maxSize (len (f_content o))) \/ (0 < e' /\ ~ no_errors o)).
Proof.
  induction fuel as [|fuel IH]; intros k Hker Hmax Hk Hkm Hf; [lia|]. cbn [read_loop].
  rewrite len_prefix by done. rewrite u64_small by (unfold two_31, two_64 in *; lia).
  case_bool_decide as Hlt; [|exists e, k; split_and!; [done|lia|lia|left; lia]].
  pose proof (Hker k (Z.min (maxSize - k) kBufferSize) Hk ltac:(unfold kBufferSize; lia)) as Ha.
  destruct (f_read o k _) as [e'|n] eqn:Hr.
  - exists e', k. split_and!; [done|lia|lia|]. right. split; [done|]. intros Hno. by eapply Hno.
  - destruct Ha as [Hn H0]. case_bool_decide as Hpos.
    + rewrite prefix_slice by lia. apply IH; [done|done|lia|lia|lia].
    + exists e, k. split_and!; [done|lia|lia|]. left. specialize (H0 ltac:(lia)). lia.
Qed.

Lemma strchr_first l c r : c ∉ l -> strchr (l ++ c :: r) c = Some (length l).
Proof.
  induction l as [|x l IH]; intros Hn; simpl; [by rewrite bool_decide_true|].
  rewrite bool_decide_false by set_solver. rewrite IH by set_solver. done.
Qed.

Lemma strrchr_none l c : c ∉ l -> strrchr l c = None.
Proof.
  induction l as [|x l IH]; intros Hn; [done|]. simpl. rewrite IH by set_solver. rewrite bool_decide_false by set_solver. done.
Qed.

Lemma strrchr_last l c r : c ∉ r -> strrchr (l ++ c :: r) c = Some (length l).
Proof.
  intros Hr. induction l as [|x l IH]; simpl; [|by rewrite IH]. rewrite strrchr_none by done. by rewrite bool_decide_true.
Qed.

Lemma prefix_eqb_app pat s : prefix_eqb pat (pat ++ s) = true.
Proof. induction pat as [|p pat IH]; [done|]. simpl. by rewrite bool_decide_true. Qed.

(** The first occurrence: the text does not begin anywhere before. *)
Lemma find_text_first pat : forall pre s, (forall i, (i < length pre)%nat -> prefix_eqb pat (drop i (pre ++ pat ++ s)) = false) ->
  find_text pat (pre ++ pat ++ s) = Some (length pre).
Proof.
  induction pre as [|c pre IH]; intros s Hn.
  - simpl. pose proof (prefix_eqb_app pat s) as He. destruct (pat ++ s); simpl in *; by rewrite He.
  - pose proof (Hn 0%nat ltac:(simpl; lia)) as H0. rewrite drop_0 in H0. cbn [app find_text] in *. rewrite H0.
    rewrite IH; [done|]. intros i Hi. apply (Hn (S i)). simpl. lia.
Qed.
End FileFacts.

(** ** Properties *)
Module FileTheorems.
Import ReadSmallFile FileSpec FileFacts.

(** Whatever pattern of short reads the kernel chooses, [readFile] ends and
    returns the first [maxSize] bytes of the file; if a [read] fails it
    returns that error and what was read before. *)
Theorem small_file_content o maxSize content fuel p :
  fileSize p = None -> kernel_ok o -> 0 <= maxSize < two_31 -> len (f_content o) < Z.of_nat fuel -> exists e k,
  readFile fuel (inr o) maxSize content p ⇓ Some (e, prefix k (f_content o), p) /\
  (e = 0 -> prefix k (f_content o) = prefix maxSize (f_content o)) /\ (no_errors o -> e = 0).
Proof.
  intros Hp Hk Hm Hf. destruct (read_loop_ok o maxSize 0 fuel 0 Hk Hm) as (e & k & Hr & Hkb & Hcase); [pose proof (len_nonneg (f_content o)); lia..|].
  change (prefix 0 (f_content o)) with (@nil ascii) in Hr. exists e, k. unfold readFile, readToString, read_stat. rewrite Hp. cbn [mbind outcome_bind mret outcome_ret fst snd]. rewrite Hr.
  split_and!; [done| |intros Hno; by destruct Hcase as [[-> _]|[_ []]]].
  intros He. destruct Hcase as [[_ ->]|[? _]]; [|lia]. unfold prefix. destruct (Z.min_spec maxSize (len (f_content o))) as [[? ->]|[? ->]]; [done|].
  rewrite !take_ge by (unfold len in *; lia). done.
Qed.

(** A file that cannot be opened leaves the caller's string as it was. *)
Theorem unopened_file_keeps_content fuel e maxSize content p :
  readFile fuel (inl e) maxSize content p ⇓ Some (e, content, p).
Proof. done. Qed.

(** A directory can be opened but not read: the answer is [EISDIR] when the
    caller asked for the size or when [read] says so, and the size that the
    caller passed in is left as it was. *)
Theorem directory_is_an_error o maxSize content fuel v st :
  f_stat o = inr st -> st_mode st = S_IFDIR -> (forall off n, f_read o off n = inl EISDIR) -> 0 < maxSize < two_31 -> exists q,
  readFile (S fuel) (inr o) maxSize content (mk_outs (Some v) None None) ⇓ Some (EISDIR, [], q) /\ fileSize q = Some v.
Proof.
  intros Hst Hm Hr Hb. exists (mk_outs (Some v) None None). split; [|done]. unfold readFile, readToString, read_stat. cbn [fileSize].
  rewrite Hst, Hm. rewrite !bool_decide_false by done. rewrite bool_decide_true by done. cbn [mbind outcome_bind mret outcome_ret fst snd read_loop].
  rewrite bool_decide_true by (rewrite u64_small by (unfold two_31, two_64 in *; lia); unfold len; simpl; lia). by rewrite Hr.
Qed.

(** [numThreads] finds the number after the first ["Threads:"]; a status file
    that cannot be opened gives [0]. *)
Theorem num_threads_parsed fuel fs o pre n post :
  fs (lit "/proc/self/status") = inr o -> kernel_ok o -> no_errors o -> len (f_content o) < Z.of_nat fuel -> len (f_content o) <= 65536 ->
  f_content o = pre ++ lit "Threads:" ++ post -> atoi post ⇓ n ->
  (forall i, (i < length pre)%nat -> prefix_eqb (lit "Threads:") (drop i (f_content o)) = false) ->
  ProcessInfo.numThreads fuel fs ⇓ Some n.
Proof.
  intros Hfs Hk Hno Hf Hlen Hc Ha Hfirst.
  destruct (small_file_content o 65536 [] fuel (mk_outs None None None) eq_refl Hk ltac:(unfold two_31; lia) Hf) as (e & k & Hr & He & H0).
  rewrite (He (H0 Hno)) in Hr. unfold ProcessInfo.numThreads, ProcessInfo.procStatus, ProcessInfo.read_proc. rewrite Hfs, Hr.
  cbn [mbind outcome_bind mret outcome_ret option_map fst snd]. unfold prefix. rewrite take_ge by (unfold len in *; lia).
  rewrite Hc in *. rewrite find_text_first by done. rewrite <-drop_drop.
  replace (drop 8 (drop (length pre) (pre ++ lit "Threads:" ++ post))) with post by (by rewrite drop_app_length). by rewrite Ha.
Qed.

(** The process name is found even if it contains parentheses. *)
Theorem procname_correct pid name rest :
  "("%char ∉ pid -> ")"%char ∉ rest -> ProcessInfo.procname (pid ++ "("%char :: name ++ ")"%char :: rest) = name.
Proof.
  intros Hp Hr. unfold ProcessInfo.procname. rewrite strchr_first by done.
  assert (Hs : pid ++ "("%char :: name ++ ")"%char :: rest = (pid ++ "("%char :: name) ++ ")"%char :: rest) by (by rewrite <-app_assoc).
  rewrite Hs at 1. rewrite strrchr_last by done. rewrite length_app. cbn [length]. rewrite bool_decide_true by lia.
  unfold slice. replace (Z.to_nat (Z.of_nat (length pid) + 1)) with (length pid + 1)%nat by lia.
  rewrite <-drop_drop, drop_app_length. cbn [drop].
  rewrite drop_0. replace (Z.to_nat _) with (length name) by lia. by rewrite take_app_length.
Qed.

(** The kernel lists every thread once: [threads] returns the ids sorted. *)
Theorem threads_sorted entries pids : ProcessInfo.threads entries ⇓ pids -> Sorted Z.le pids.
Proof.
  unfold ProcessInfo.threads. destruct (foldl _ _ entries) as [l|]; simpl; [|done]. intros [= <-]. apply Sorted_merge_sort. apply _.
Qed.

(** 250 and 25 ticks of 1/100 s are 2.5 and 0.25 seconds, exactly. *)
Example cpu_time_ticks :
  ProcessInfo.cpuTime (Some (250, 25)) 100 =
    (S754_finite false 5629499534213120 (-51), S754_finite false 4503599627370496 (-54)).
Proof. vm_compute. reflexivity. Qed.
End FileTheorems.
