(* ===== verification/ThreadedServers.v ===== *)
(** * ThreadedServers: the web server with I/O threads, and its program

    [WebServers] runs every handler of [Server] ([src/web_server/Server.cc]) in
    one loop.  Here the server has I/O threads ([setThreadNum]): the handlers of
    a connection run in the thread of its loop, the timing wheel belongs to the
    base loop, and [TimerWheel::insertEntry] only queues a functor there.  The
    threads interleave between the operations on the shared pointer to the
    entry: the two calls of [lock] in [onRequest], the functor of [insertEntry]
    and the end of the variables that hold it.  The entry is destroyed by
    whichever thread drops the last reference: a slot of the wheel, a queued
    functor or a local variable.  A null pointer is [null].

    Connections of the same loop interleave as if each had a thread of its own,
    which allows more executions than the code has.

    [Run] is the program ([src/web_server/Run.cc]). *)
From S2P Require Import Prelude Endian NetBuffer Timestamps HttpServer TimeWheels WebServers LogStreams Clients Servers Addresses SmallFiles.

Local Open Scope Z_scope.
Local Open Scope muduo_scope.

Module IoServer.
Section server.
Context (use_timer_ : bool) (http_callback_ : Request.t -> Response.t -> Response.t)
        (order : headers -> list (bytes * bytes)) (fresh : Buffer.t).

Definition null : entry := -1.

(** Where the thread of a connection is in its handlers. *)
Inductive pc : Type :=
  | Idle                      (* in no handler *)
  | Connecting (e : entry)    (* onConnection: [context] is made *)
  | Leaving (e : entry)       (* [insertEntry] has returned, its argument is still alive *)
  | AtTest                    (* onRequest: before [if (context->lock())] *)
  | Tested (e : entry)        (* the temporary of that condition *)
  | AtLock                    (* the condition held, before the second [lock] *)
  | AtInsert (e : entry).     (* the argument of [insertEntry] *)

(** The shared pointers among its local variables. *)
Definition local (p : pc) : list entry :=
  match p with Connecting e | Leaving e | Tested e | AtInsert e => [e] | Idle | AtTest | AtLock => [] end.

Record conn : Type := mk_conn {
  context_ : ContextParse.t;
  entry_ : entry;                  (* the weak pointer of the context *)
  input_ : Buffer.t;
  effects_ : list Server.effect;
  timed_out_ : bool;
  pc_ : pc }.

Record t : Type := mk {
  timer_ : TimerWheel.t;
  pending_ : list entry;           (* the functors of [insertEntry] in the base loop's queue *)
  next_entry_ : entry;
  connections_ : gmap Z conn }.

Definition make : outcome t :=
  s ← WebServer.make use_timer_;
  mret (mk (WebServer.timer_ s) [] 0 ∅).

Definition locals (s : t) : list entry := mjoin ((fun p => local (pc_ p.2)) <$> map_to_list (connections_ s)).
Definition refs (s : t) : list entry := TimerWheel.held (timer_ s) ++ pending_ s ++ locals s.

(** [weak_ptr::lock] *)
Definition lock (s : t) (e : entry) : entry := if bool_decide (e ∈ refs s) then e else null.

(** [~TimeWheelEntry], for the entries that [before] referred to and [after]
    does not. *)
Definition expire (gone : entry -> bool) (c : conn) : conn :=
  if gone (entry_ c) then mk_conn (context_ c) (entry_ c) (input_ c) (effects_ c ++ [Server.Shutdown]) true (pc_ c) else c.
Definition settle (before after : t) : t :=
  mk (timer_ after) (pending_ after) (next_entry_ after)
     (expire (fun e => bool_decide (e ∈ refs before) && negb (bool_decide (e ∈ refs after))) <$> connections_ after).

(** [TimerWheel::insertEntry] in an I/O thread: [runInLoop] queues. *)
Definition insertEntry (e : entry) (s : t) : t :=
  match TimerWheel.insertEntry (timer_ s) e with
  | Some _ => mk (timer_ s) (pending_ s ++ [e]) (next_entry_ s) (connections_ s)
  | None => s
  end.

Definition set_conn (fd : Z) (c : conn) (s : t) : t :=
  mk (timer_ s) (pending_ s) (next_entry_ s) (<[fd := c]> (connections_ s)).
Definition set_pc (p : pc) (c : conn) : conn :=
  mk_conn (context_ c) (entry_ c) (input_ c) (effects_ c) (timed_out_ c) p.

(** [onConnection] up to [make_shared], or all of it without the timer. *)
Definition onConnection (fd : Z) (input : Buffer.t) (s : t) : t :=
  if use_timer_ then
    let e := next_entry_ s in
    mk (timer_ s) (pending_ s) (e + 1)
       (<[fd := mk_conn ContextParse.init e input [] false (Connecting e)]> (connections_ s))
  else set_conn fd (mk_conn ContextParse.init null input [] false Idle) s.

(** [onMessage] up to the condition of [onRequest] on the entry, if it gets there. *)
Definition is_touch (f : Server.effect) : bool := match f with Server.TouchTimer => true | _ => false end.
Definition onMessage (fd : Z) (time : Timestamp.t) (data : bytes) (s : t) : outcome t :=
  match connections_ s !! fd with
  | None => mret s
  | Some c =>
      buf ← Buffer.append (input_ c) data;
      r ← Server.onMessage (HttpSpec.enough (Buffer.content buf)) http_callback_ order fresh use_timer_ true time (context_ c) buf;
      match r with
      | None => Fault Undefined
      | Some (context, buf, fx) =>
          mret (set_conn fd (mk_conn context (entry_ c) buf (effects_ c ++ List.filter (fun f => negb (is_touch f)) fx) (timed_out_ c)
                                     (if existsb is_touch fx then AtTest else Idle)) s)
      end
  end.

(** The next operation of the handler that runs for [fd]. *)
Definition advance (fd : Z) (s : t) : t :=
  match connections_ s !! fd with
  | None => s
  | Some c =>
      match pc_ c with
      | Idle => s
      | Connecting e | AtInsert e => set_conn fd (set_pc (Leaving e) c) (insertEntry e s)
      | Leaving _ => set_conn fd (set_pc Idle c) s
      | AtTest => set_conn fd (set_pc (Tested (lock s (entry_ c))) c) s
      | Tested e => set_conn fd (set_pc (if bool_decide (e = null) then Idle else AtLock) c) s
      | AtLock => set_conn fd (set_pc (AtInsert (lock s (entry_ c))) c) s
      end
  end.

(** The base loop runs the first queued functor. *)
Definition run_functor (s : t) : outcome (t * list WheelSpec.op) :=
  match pending_ s with
  | [] => mret (s, [])
  | e :: rest =>
      w ← TimerWheel.insertEntryInLoop (timer_ s) e;
      mret (mk w rest (next_entry_ s) (connections_ s), [WheelSpec.Insert e])
  end.

Definition onTimer (s : t) : outcome (t * list WheelSpec.op) :=
  p ← TimerWheel.onTimer (timer_ s);
  mret (mk p.1 (pending_ s) (next_entry_ s) (connections_ s), [WheelSpec.Tick]).

Definition onClose (fd : Z) (s : t) : t := mk (timer_ s) (pending_ s) (next_entry_ s) (delete fd (connections_ s)).

Inductive event : Type :=
  | Connected (fd : Z) (input : Buffer.t)
  | Message (fd : Z) (time : Timestamp.t) (data : bytes)
  | Advance (fd : Z)
  | RunFunctor
  | Tick
  | Closed (fd : Z).

Definition execute (s : t) (ev : event) : outcome (t * list WheelSpec.op) :=
  match ev with
  | Connected fd input => mret (onConnection fd input s, [])
  | Message fd time data => s ← onMessage fd time data s; mret (s, [])
  | Advance fd => mret (advance fd s, [])
  | RunFunctor => run_functor s
  | Tick => onTimer s
  | Closed fd => mret (onClose fd s, [])
  end.
Definition step (s : t) (ev : event) : outcome (t * list WheelSpec.op) :=
  p ← execute s ev; mret (settle s p.1, p.2).

(** A loop runs one handler of a connection at a time, and the connection lives
    as long as a handler of it runs. *)
Definition idle (s : t) (fd : Z) : bool :=
  match connections_ s !! fd with Some c => match pc_ c with Idle => true | _ => false end | None => false end.
Definition allowed (s : t) (ev : event) : bool :=
  match ev with
  | Connected fd _ => bool_decide (connections_ s !! fd = None)
  | Message fd _ _ | Closed fd => idle s fd
  | Advance _ | RunFunctor => true
  | Tick => use_timer_
  end.

Inductive runs (s0 : t) : list event -> t -> list WheelSpec.op -> Prop :=
  | runs_nil : runs s0 [] s0 []
  | runs_snoc evs s ops ev s' more :
      runs s0 evs s ops -> allowed s ev = true -> step s ev ⇓ (s', more) -> runs s0 (evs ++ [ev]) s' (ops ++ more).

(** The same, computed. *)
Definition play (p : t * list WheelSpec.op) (ev : event) : outcome (t * list WheelSpec.op) :=
  if allowed p.1 ev then q ← step p.1 ev; mret (q.1, p.2 ++ q.2) else Fault AssertFailure.
End server.
End IoServer.

(** ** Lemmas *)
Module IoFacts.
Import TimerWheel WheelSpec WheelFacts IoServer.

Lemma elem_locals s e : e ∈ locals s <-> exists fd c, connections_ s !! fd = Some c /\ e ∈ local (pc_ c).
Proof.
  unfold locals. rewrite list_elem_of_join. split.
  - intros (l & He & ([fd c] & -> & Hc)%list_elem_of_fmap). apply elem_of_map_to_list in Hc. by exists fd, c.
  - intros (fd & c & Hc & He). exists (local (pc_ c)). split; [done|]. apply list_elem_of_fmap. exists (fd, c). by rewrite elem_of_map_to_list.
Qed.

Lemma elem_refs s e : e ∈ refs s <-> e ∈ held (timer_ s) \/ e ∈ pending_ s \/
  exists fd c, connections_ s !! fd = Some c /\ e ∈ local (pc_ c).
Proof. unfold refs. by rewrite !elem_of_app, elem_locals. Qed.

Lemma refs_local s fd c e : connections_ s !! fd = Some c -> e ∈ local (pc_ c) -> e ∈ refs s.
Proof. intros Hc He. apply elem_refs. right; right. by exists fd, c. Qed.
Lemma refs_pending s e : e ∈ pending_ s -> e ∈ refs s.
Proof. intros He. apply elem_refs. by right; left. Qed.

(** The destructor changes no reference. *)
Lemma expire_same gone c : entry_ (expire gone c) = entry_ c /\ pc_ (expire gone c) = pc_ c /\
  timed_out_ (expire gone c) = timed_out_ c || gone (entry_ c).
Proof. unfold expire. destruct (gone (entry_ c)) eqn:Hg; rewrite ?orb_true_r, ?orb_false_r; done. Qed.

Lemma settle_refs s0 s e : e ∈ refs (settle s0 s) <-> e ∈ refs s.
Proof.
  rewrite !elem_refs. unfold settle; cbn [timer_ pending_ connections_]. setoid_rewrite lookup_fmap_Some. split.
  - intros [?|[?|(fd & ? & (c & <- & Hc) & He)]]; [tauto..|]. right; right. exists fd, c. by rewrite (proj1 (proj2 (expire_same _ c))) in He.
  - intros [?|[?|(fd & c & Hc & He)]]; [tauto..|]. right; right. eexists fd, _. split; [by exists c|]. by rewrite (proj1 (proj2 (expire_same _ c))).
Qed.

(** Every connection has an entry of its own and is shut down by the timer
    exactly when nothing refers to it; its handlers hold no other. *)
Record inv (s : t) (ops : list op) : Prop := {
  inv_wf : wf (timer_ s) /\ run_ (timer_ s) = true;
  inv_ops : run_all exec (started 10) ops ⇓ timer_ s;
  inv_conn fd c : connections_ s !! fd = Some c ->
    (0 <= entry_ c < next_entry_ s /\ (timed_out_ c = true <-> entry_ c ∉ refs s)) /\ (forall e, e ∈ local (pc_ c) -> e = entry_ c \/ e = null);
  inv_inj fd fd' c c' : connections_ s !! fd = Some c -> connections_ s !! fd' = Some c' -> entry_ c = entry_ c' -> fd = fd';
  inv_refs e : e ∈ refs s -> e < next_entry_ s;
  inv_next : 0 <= next_entry_ s }.

Lemma settle_inv s ops s' more : inv s ops -> wf (timer_ s') -> run_ (timer_ s') = true ->
  run_all exec (started 10) (ops ++ more) ⇓ timer_ s' ->
  (forall fd c, connections_ s' !! fd = Some c ->
     (0 <= entry_ c < next_entry_ s' /\
      ((entry_ c ∈ refs s' -> entry_ c ∈ refs s) /\ (timed_out_ c = true <-> entry_ c ∉ refs s) \/ (timed_out_ c = false /\ entry_ c ∈ refs s'))) /\
     (forall e, e ∈ local (pc_ c) -> e = entry_ c \/ e = null)) ->
  (forall fd fd' c c', connections_ s' !! fd = Some c -> connections_ s' !! fd' = Some c' -> entry_ c = entry_ c' -> fd = fd') ->
  (forall e, e ∈ refs s' -> e < next_entry_ s') -> 0 <= next_entry_ s' ->
  inv (settle s s') (ops ++ more).
Proof.
  intros Hinv Hwf Hr Hops Hc Hi Href Hn. split; [done|done| | | |done].
  - intros fd c. cbn [connections_ settle]. rewrite lookup_fmap_Some. intros (c0 & <- & Hc0).
    destruct (expire_same (fun e => bool_decide (e ∈ refs s) && negb (bool_decide (e ∈ refs s'))) c0) as (-> & -> & ->).
    destruct (Hc _ _ Hc0) as [[Hb Ht] Hl]. split; [|done]. split; [done|]. rewrite settle_refs, orb_true_iff, andb_true_iff, negb_true_iff,
      bool_decide_eq_true, bool_decide_eq_false. destruct (decide (entry_ c0 ∈ refs s)), (decide (entry_ c0 ∈ refs s')), (timed_out_ c0); naive_solver.
  - intros fd fd' c c'. cbn [connections_ settle]. rewrite !lookup_fmap_Some. intros (c0 & <- & Hc0) (c1 & <- & Hc1).
    rewrite !(proj1 (expire_same _ _)). by apply Hi.
  - intros e He%settle_refs. by apply Href.
Qed.

Lemma lock_null s e : lock s e = null \/ (lock s e = e /\ e ∈ refs s).
Proof. unfold lock. case_bool_decide; auto. Qed.

(** A step of one connection: its record keeps its entry, and what it refers to
    (or queues) was referred to before. *)
Lemma update_inv s ops fd c c' p : inv s ops -> connections_ s !! fd = Some c ->
  entry_ c' = entry_ c -> timed_out_ c' = timed_out_ c -> (forall e, e ∈ local (pc_ c') -> e = null \/ (e = entry_ c /\ e ∈ refs s)) ->
  (forall e, e ∈ p -> e ∈ refs s) ->
  inv (settle s (mk (timer_ s) p (next_entry_ s) (<[fd := c']> (connections_ s)))) (ops ++ []).
Proof.
  intros Hinv Hc He Ht Hl Hp. pose proof Hinv as [[Hwf Hr] Hops Hcs Hi Href Hn]. set (s' := mk _ _ _ _).
  assert (forall e, 0 <= e -> e ∈ refs s' -> e ∈ refs s) as Hback.
  { intros e H0 Hin. apply elem_refs in Hin as [?|[?|(fd1 & c1 & Hc1 & He1)]]; [apply elem_refs; tauto|by apply Hp|].
    cbn [s' connections_] in Hc1. apply lookup_insert_Some in Hc1 as [[<- <-]|[_ Hc1]]; [|by eapply refs_local]. destruct (Hl e He1) as [Hnull|[_ ?]]; [unfold null in Hnull; lia|done]. }
  assert (forall fd1 c1, connections_ s' !! fd1 = Some c1 -> exists c0, connections_ s !! fd1 = Some c0 /\ entry_ c1 = entry_ c0 /\
     timed_out_ c1 = timed_out_ c0 /\ forall e, e ∈ local (pc_ c1) -> e = entry_ c0 \/ e = null) as Hold.
  { intros fd1 c1 Hc1. cbn [s' connections_] in Hc1. apply lookup_insert_Some in Hc1 as [[<- <-]|[_ Hc1]]; [exists c; split_and!; [done..|]; intros e [?|[? _]]%Hl; tauto|].
    exists c1. split_and!; [done..|]. by destruct (Hcs _ _ Hc1) as [_ ?]. }
  apply settle_inv; [done|done|done|by rewrite app_nil_r| | | |done].
  - intros fd1 c1 (c0 & H0 & Heq & Hto & Hloc)%Hold. rewrite Heq, Hto. destruct (Hcs _ _ H0) as [[Hb ?] _]. split; [|done]. split; [done|].
    left. split; [|done]. apply Hback. lia.
  - intros fd1 fd2 c1 c2 (c3 & H3 & -> & _)%Hold (c4 & H4 & -> & _)%Hold. by apply Hi.
  - intros e Hin. destruct (decide (0 <= e)); [by apply Href, Hback|]. cbn [s' next_entry_]. lia.
Qed.

(** A computed run is a run. *)
Definition played (callback : Request.t -> Response.t -> Response.t) order fresh (s0 : t) (evs : list event) : outcome (t * list op) :=
  run_all (play true callback order fresh) (s0, []) evs.

Lemma played_runs callback order fresh s0 evs s ops : played callback order fresh s0 evs ⇓ (s, ops) -> runs true callback order fresh s0 evs s ops.
Proof.
  revert s ops. induction evs as [|ev evs IH] using rev_ind; intros s ops; [intros [= <- <-]; constructor|].
  unfold played. rewrite run_all_app. fold (played callback order fresh s0 evs). destruct (played callback order fresh s0 evs) as [[s1 ops1]|]; [|done].
  cbn [mbind outcome_bind run_all]. unfold play; cbn [fst snd]. destruct (allowed true s1 ev) eqn:Ha; [|done].
  destruct (step true callback order fresh s1 ev) as [[s2 more]|] eqn:Hs; [|done]. intros [= <- <-]. eapply runs_snoc; [by apply IH|done|done].
Qed.

Section steps.
Context (http_callback_ : Request.t -> Response.t -> Response.t) (order : headers -> list (bytes * bytes)) (fresh : Buffer.t).

Lemma io_connection_inv s ops fd input : inv s ops -> connections_ s !! fd = None ->
  inv (settle s (onConnection true fd input s)) (ops ++ []).
Proof.
  intros Hinv Hfd. pose proof Hinv as [[Hwf Hr] Hops Hcs Hi Href Hn]. unfold onConnection. set (s' := mk _ _ _ _).
  assert (forall e, e ∈ refs s' <-> e ∈ refs s \/ e = next_entry_ s) as Hrefs.
  { intros e. rewrite !elem_refs. cbn [s' timer_ pending_ connections_]. split.
    - intros [?|[?|(fd1 & c1 & [[<- <-]|[_ Hc1]]%lookup_insert_Some & He)]]; [tauto..| |left; right; right; by exists fd1, c1].
      right. cbn in He. by apply list_elem_of_singleton in He.
    - intros [[?|[?|(fd1 & c1 & Hc1 & He)]]| ->]; [tauto..| |].
      + right; right. exists fd1, c1. rewrite lookup_insert_ne by congruence. done.
      + right; right. eexists fd, _. rewrite lookup_insert_eq. split; [done|]. by apply list_elem_of_singleton. }
  apply settle_inv; [done|done|done|by rewrite app_nil_r| | | |cbn; lia].
  - intros fd1 c1 Hc1. cbn [s' connections_] in Hc1. apply lookup_insert_Some in Hc1 as [[<- <-]|[_ Hc1]]; cbn [s' entry_ timed_out_ pc_ local next_entry_].
    + split; [|intros e ->%list_elem_of_singleton; by left]. split; [lia|]. right. split; [done|]. apply Hrefs. by right.
    + destruct (Hcs _ _ Hc1) as [[Hb Ht] Hl]. split; [|done]. split; [lia|]. left. split; [|done]. intros [?|?]%Hrefs; [done|lia].
  - intros fd1 fd2 c1 c2 H1 H2. cbn [s' connections_] in H1, H2.
    apply lookup_insert_Some in H1 as [[<- <-]|[_ H1]], H2 as [[<- <-]|[_ H2]]; [done|..|by apply Hi]; cbn [entry_]; intros Heq.
    + destruct (Hcs _ _ H2) as [[? _] _]. lia.
    + destruct (Hcs _ _ H1) as [[? _] _]. lia.
  - intros e [He%Href| ->]%Hrefs; cbn; lia.
Qed.

Lemma settle_same s : settle s s = s.
Proof.
  destruct s as [w p n m]. unfold settle; cbn [timer_ pending_ next_entry_ connections_]. f_equal. apply map_eq. intros fd. rewrite lookup_fmap.
  destruct (m !! fd) as [c|]; [|done]. cbn. unfold expire. by rewrite andb_negb_r.
Qed.

Lemma advance_inv s ops fd : inv s ops -> inv (settle s (advance fd s)) (ops ++ []).
Proof.
  intros Hinv. pose proof Hinv as [[_ Hr] _ Hcs _ _ _]. unfold advance. destruct (connections_ s !! fd) as [c|] eqn:Hc; [|by rewrite settle_same, app_nil_r].
  assert (forall e, e ∈ local (pc_ c) -> e ∈ refs s) as Hloc by (intros e; by eapply refs_local).
  assert (forall e, e ∈ pending_ s -> e ∈ refs s) as Hpend by apply refs_pending.
  destruct (Hcs _ _ Hc) as [_ Hown]. unfold insertEntry, TimerWheel.insertEntry. rewrite Hr.
  destruct (pc_ c) as [|e|e| |e| |e] eqn:Hpc; cbn [local] in *; [by rewrite settle_same, app_nil_r|..];
    (apply (update_inv s ops fd c); [done|done|done|done| |]); cbn [set_pc pc_ local];
    try done; try (intros e' [?|He']%elem_of_app; [by apply Hpend|by apply Hloc]);
    try (intros e' He'; pose proof (Hloc e' He'); apply Hown in He'; tauto).
  - by intros e' ?%elem_of_nil.
  - intros e' ->%list_elem_of_singleton. destruct (lock_null s (entry_ c)) as [|[-> ?]]; auto.
  - case_bool_decide; by intros e' ?%elem_of_nil.
  - intros e' ->%list_elem_of_singleton. destruct (lock_null s (entry_ c)) as [|[-> ?]]; auto.
Qed.

Lemma io_message_inv s ops fd time data s' : inv s ops -> onMessage true http_callback_ order fresh fd time data s ⇓ s' -> idle s fd = true ->
  inv (settle s s') (ops ++ []).
Proof.
  intros Hinv Hm Hidle. unfold onMessage in Hm. unfold idle in Hidle. destruct (connections_ s !! fd) as [c|] eqn:Hc; [|done].
  destruct (Buffer.append (input_ c) data) as [buf|]; [|done]. cbn [mbind outcome_bind] in Hm.
  destruct (Server.onMessage _ _ _ _ _ _ _ _ _) as [[[[context buf'] fx]|]|]; [|done..]. cbn [mbind outcome_bind] in Hm. injection Hm as <-.
  apply (update_inv s ops fd c); [done..| |apply refs_pending]. cbn [pc_]. destruct (existsb is_touch fx); by intros e ?%elem_of_nil.
Qed.

Lemma close_inv s ops fd : inv s ops -> idle s fd = true -> inv (settle s (onClose fd s)) (ops ++ []).
Proof.
  intros Hinv Hidle. pose proof Hinv as [[Hwf Hr] Hops Hcs Hi Href Hn].
  assert (forall e, e ∈ refs (onClose fd s) <-> e ∈ refs s) as Hrefs.
  { intros e. rewrite !elem_refs. cbn [onClose timer_ pending_ connections_]. setoid_rewrite lookup_delete_Some. split; [naive_solver|].
    intros [?|[?|(fd1 & c1 & Hc1 & He)]]; [tauto..|]. right; right. exists fd1, c1. split_and!; [|done..]. intros <-.
    unfold idle in Hidle. rewrite Hc1 in Hidle. destruct (pc_ c1); [by apply elem_of_nil in He|done..]. }
  apply settle_inv; [done|done|done|by rewrite app_nil_r| | | |done]; cbn [onClose connections_ next_entry_].
  - intros fd1 c1 [_ Hc1]%lookup_delete_Some. destruct (Hcs _ _ Hc1) as [[Hb Ht] Hl]. split; [|done]. split; [done|]. left. split; [by rewrite Hrefs|done].
  - intros fd1 fd2 c1 c2 [_ H1]%lookup_delete_Some [_ H2]%lookup_delete_Some. by apply Hi.
  - intros e He%Hrefs. by apply Href.
Qed.

(** The base loop: functors and ticks only drop references to old entries. *)
Lemma base_inv s ops w p o : inv s ops -> exec (timer_ s) o ⇓ w -> wf w -> run_ w = true ->
  (forall e, e ∈ held w \/ e ∈ p -> e ∈ refs s) ->
  inv (settle s (mk w p (next_entry_ s) (connections_ s))) (ops ++ [o]).
Proof.
  intros Hinv Hx Hwf' Hr' Hsub. pose proof Hinv as [[Hwf Hr] Hops Hcs Hi Href Hn].
  assert (forall e, e ∈ refs (mk w p (next_entry_ s) (connections_ s)) -> e ∈ refs s) as Hback.
  { intros e [?|[?|?]]%elem_refs; [by apply Hsub; left|by apply Hsub; right|by apply elem_refs; right; right]. }
  apply settle_inv; [done|done|done|by eapply WebServerFacts.run_snoc| |done|by intros e ?%Hback%Href|done].
  intros fd c Hc. destruct (Hcs _ _ Hc) as [[Hb Ht] Hl]. split; [|done]. split; [done|]. left. split; [by apply Hback|done].
Qed.

Lemma functor_inv s ops s' more : inv s ops -> run_functor s ⇓ (s', more) -> inv (settle s s') (ops ++ more).
Proof.
  intros Hinv Hf. pose proof Hinv as [[Hwf Hr] _ _ _ _ _]. unfold run_functor in Hf. destruct (pending_ s) as [|e rest] eqn:Hp;
    [injection Hf as <- <-; by rewrite settle_same, app_nil_r|].
  destruct (insert_spec (timer_ s) e Hwf) as (w & Hw & Hwf' & _ & _ & Hr' & _). rewrite Hw in Hf. injection Hf as <- <-.
  apply base_inv; [done| |done|congruence|].
  - cbn [exec]. unfold TimerWheel.insertEntry. by rewrite Hr.
  - intros e' [He|He]; apply elem_refs; rewrite Hp.
    + apply (held_insert _ _ _ Hwf Hw) in He as [?| ->]; [by left|]. right; left. by apply elem_of_cons; left.
    + right; left. by apply elem_of_cons; right.
Qed.

Lemma timer_inv s ops s' more : inv s ops -> onTimer s ⇓ (s', more) -> inv (settle s s') (ops ++ more).
Proof.
  intros Hinv Hf. pose proof Hinv as [[Hwf Hr] _ _ _ _ _]. unfold onTimer in Hf.
  destruct (onTimer_spec (timer_ s) Hwf) as (dead & Hd & _ & _). rewrite Hd in Hf. injection Hf as <- <-. cbn [fst].
  apply base_inv; [done|cbn [exec]; by rewrite Hd|by apply ticked_wf|done|].
  intros e [He|He]; apply elem_refs; [left; by eapply held_tick|by right; left].
Qed.

Lemma io_make_inv s0 : make true ⇓ s0 -> inv s0 [].
Proof.
  intros [= <-]. split; cbn [connections_]; [split; [by apply init_wf|done]|done|by intros ? ? ?%lookup_empty_Some|by intros ? ? ? ? ?%lookup_empty_Some| |done].
  intros e He. exfalso. vm_compute in He. by apply elem_of_nil in He.
Qed.

Lemma step_inv s ops ev s' more : inv s ops -> allowed true s ev = true ->
  step true http_callback_ order fresh s ev ⇓ (s', more) -> inv s' (ops ++ more).
Proof.
  intros Hinv Ha Hs. unfold step in Hs. destruct (execute _ _ _ _ s ev) as [[s1 more1]|] eqn:Hx; [|done]. injection Hs as <- <-. cbn [fst snd].
  destruct ev as [fd input|fd time data|fd| | |fd]; cbn [execute allowed] in *.
  - injection Hx as <- <-. apply bool_decide_eq_true in Ha. by apply io_connection_inv.
  - destruct (onMessage _ _ _ _ fd time data s) as [s2|] eqn:Hm; [|done]. injection Hx as <- <-. by eapply io_message_inv.
  - injection Hx as <- <-. by apply advance_inv.
  - by apply functor_inv.
  - by apply timer_inv.
  - injection Hx as <- <-. by apply close_inv.
Qed.

Lemma runs_inv s0 ops0 evs s ops : inv s0 ops0 -> runs true http_callback_ order fresh s0 evs s ops -> inv s (ops0 ++ ops).
Proof.
  intros H0. induction 1 as [|evs s ops ev s' more _ IH Ha Hs]; [by rewrite app_nil_r|]. rewrite app_assoc. by eapply step_inv.
Qed.

Lemma life_le n : life 10 n <= 10.
Proof. unfold life. case_bool_decide; lia. Qed.

(** Nothing happens to [fd]: no message, no step of a handler, no close. *)
Definition quiet (fd : Z) (ev : event) : Prop :=
  match ev with Connected fd' _ | Message fd' _ _ | Advance fd' | Closed fd' => fd' <> fd | RunFunctor | Tick => True end.
Definition functors (evs : list event) : nat := length (List.filter (fun ev => match ev with RunFunctor => true | _ => false end) evs).

(** A quiet step leaves the record of [fd], apart from the destructor, and
    queues other entries only; functors leave the queue from the front. *)
Definition queue_moves (e : entry) (s s' : t) (ev : event) (more : list op) : Prop :=
  match ev with
  | RunFunctor => pending_ s' = tail (pending_ s) /\ more = Insert <$> take 1 (pending_ s)
  | Tick => pending_ s' = pending_ s /\ more = [WheelSpec.Tick]
  | _ => more = [] /\ (pending_ s' = pending_ s \/ exists e', e' <> e /\ pending_ s' = pending_ s ++ [e'])
  end.

Lemma quiet_advance s ops fd c fd' : inv s ops -> connections_ s !! fd = Some c -> fd' <> fd ->
  connections_ (advance fd' s) !! fd = Some c /\
  (pending_ (advance fd' s) = pending_ s \/ exists e', e' <> entry_ c /\ pending_ (advance fd' s) = pending_ s ++ [e']).
Proof.
  intros [[_ Hr] _ Hcs Hi _ _] Hc Hne. unfold advance. destruct (connections_ s !! fd') as [c'|] eqn:Hc'; [|by auto].
  assert (forall e, e ∈ local (pc_ c') -> e <> entry_ c) as Hother.
  { intros e He ->. destruct (Hcs _ _ Hc') as [_ Hown], (Hcs _ _ Hc) as [[Hb _] _]. destruct (Hown _ He) as [Heq|Heq]; [|unfold null in Heq; lia].
    by destruct Hne, (Hi fd' fd c' c Hc' Hc (eq_sym Heq)). }
  unfold insertEntry, TimerWheel.insertEntry. rewrite Hr.
  destruct (pc_ c') as [|e|e| |e| |e] eqn:Hpc; cbn [set_conn connections_ pending_]; rewrite ?lookup_insert_ne by done; split; auto;
    right; exists e; (split; [apply Hother; by apply list_elem_of_singleton|done]).
Qed.

Lemma quiet_execute s ops fd c ev s' more : inv s ops -> connections_ s !! fd = Some c -> quiet fd ev ->
  execute true http_callback_ order fresh s ev ⇓ (s', more) -> connections_ s' !! fd = Some c /\ queue_moves (entry_ c) s s' ev more.
Proof.
  intros Hinv Hc Hq Hx. destruct ev as [fd' input|fd' time data|fd'| | |fd']; cbn [execute quiet queue_moves] in *.
  - injection Hx as <- <-. cbn. rewrite lookup_insert_ne by done. auto.
  - destruct (onMessage _ _ _ _ fd' time data s) as [s2|] eqn:Hm; [|done]. injection Hx as <- <-. unfold onMessage in Hm.
    destruct (connections_ s !! fd') as [c'|]; [|injection Hm as <-; auto]. destruct (Buffer.append _ _) as [buf|]; [|done]. cbn [mbind outcome_bind] in Hm.
    destruct (Server.onMessage _ _ _ _ _ _ _ _ _) as [[[[context buf'] fx]|]|]; [|done..]. injection Hm as <-. cbn. rewrite lookup_insert_ne by done. auto.
  - injection Hx as <- <-. destruct (quiet_advance s ops fd c fd' Hinv Hc Hq). auto.
  - unfold run_functor in Hx. destruct (pending_ s) as [|e rest] eqn:Hp; [injection Hx as <- <-; by rewrite Hp|].
    destruct (insertEntryInLoop (timer_ s) e) as [w|]; [|done]. injection Hx as <- <-. done.
  - unfold onTimer in Hx. destruct (TimerWheel.onTimer (timer_ s)) as [p|]; [|done]. injection Hx as <- <-. done.
  - injection Hx as <- <-. cbn. rewrite lookup_delete_ne by done. auto.
Qed.

Lemma quiet_step s ops fd c ev s' more : inv s ops -> connections_ s !! fd = Some c -> pc_ c = Idle -> quiet fd ev ->
  step true http_callback_ order fresh s ev ⇓ (s', more) ->
  (exists c', connections_ s' !! fd = Some c' /\ pc_ c' = Idle /\ entry_ c' = entry_ c) /\ queue_moves (entry_ c) s s' ev more.
Proof.
  intros Hinv Hc Hpc Hq Hs. unfold step in Hs. destruct (execute _ _ _ _ s ev) as [[s1 more1]|] eqn:Hx; [|done]. injection Hs as <- <-.
  destruct (quiet_execute _ _ _ _ _ _ _ Hinv Hc Hq Hx) as [Hc1 Hm]. split; [|by destruct ev]. cbn [settle connections_ fst]. rewrite lookup_fmap, Hc1.
  eexists. split; [done|]. destruct (expire_same (fun e => bool_decide (e ∈ refs s) && negb (bool_decide (e ∈ refs s1))) c) as (-> & -> & _). done.
Qed.

(** The entry leaves the front part of the queue, and never comes back. *)
Lemma queue_front e s s' ev more k : queue_moves e s s' ev more -> (e ∉ drop k (pending_ s)) ->
  e ∉ drop (k - functors [ev]) (pending_ s').
Proof.
  intros Hm Hn. destruct ev; cbn [functors List.filter length queue_moves] in *; rewrite ?Nat.sub_0_r;
    try (destruct Hm as [_ [-> |(e' & Hne & ->)]]; [done|]; rewrite drop_app, not_elem_of_app; split; [done|];
         intros Hin%subseteq_drop%list_elem_of_singleton; done).
  - destruct Hm as [-> _]. destruct (pending_ s) as [|e' rest]; [cbn [tail]; rewrite drop_nil; apply not_elem_of_nil|]. cbn [tail]. destruct k as [|k]; cbn [drop Nat.sub] in *.
    + apply not_elem_of_cons in Hn as [_ Hn]. done.
    + by rewrite Nat.sub_0_r.
  - by destruct Hm as [-> _].
Qed.

Lemma queue_insert e s s' ev more : queue_moves e s s' ev more -> (e ∉ pending_ s) -> Insert e ∉ more.
Proof.
  intros Hm Hn. destruct ev; cbn [queue_moves] in Hm; try (destruct Hm as [-> _]; apply not_elem_of_nil).
  - destruct Hm as [_ ->]. destruct (pending_ s) as [|e' rest]; [apply not_elem_of_nil|]. intros [= ->]%list_elem_of_singleton. apply Hn. by apply elem_of_cons; left.
  - destruct Hm as [_ ->]. by intros ?%list_elem_of_singleton.
Qed.

Lemma functors_app evs1 evs2 : functors (evs1 ++ evs2) = (functors evs1 + functors evs2)%nat.
Proof. unfold functors. by rewrite List.filter_app, length_app. Qed.

Lemma quiet_runs s0 ops0 fd c evs s ops : inv s0 ops0 -> connections_ s0 !! fd = Some c -> pc_ c = Idle -> Forall (quiet fd) evs ->
  runs true http_callback_ order fresh s0 evs s ops ->
  (exists c', connections_ s !! fd = Some c' /\ pc_ c' = Idle /\ entry_ c' = entry_ c) /\
  (forall k, (entry_ c ∉ drop k (pending_ s0)) -> entry_ c ∉ drop (k - functors evs) (pending_ s)) /\
  ((entry_ c ∉ pending_ s0) -> Insert (entry_ c) ∉ ops).
Proof.
  intros Hinv Hc Hpc Hq Hruns. revert Hq. induction Hruns as [|evs s ops ev s' more Hr IH Ha Hs]; intros Hq.
  - split_and!; [eauto| |by intros _ ?%elem_of_nil]. intros k. by rewrite Nat.sub_0_r.
  - apply Forall_app in Hq as [Hq Hq1]. rewrite Forall_singleton in Hq1. destruct (IH Hq) as ((c1 & Hc1 & Hpc1 & He1) & Hdrop & Hins).
    destruct (quiet_step s (ops0 ++ ops) fd c1 ev s' more) as [(c2 & Hc2 & Hpc2 & He2) Hm]; [by eapply runs_inv|done..|]. rewrite He1 in *.
    split_and!; [exists c2; by rewrite He2| |].
    + intros k Hk. rewrite functors_app, Nat.sub_add_distr. eapply queue_front; [done|]. by apply Hdrop.
    + intros Hn. rewrite not_elem_of_app. split; [by apply Hins|]. eapply queue_insert; [done|]. by apply (Hdrop 0%nat).
Qed.

(** What keeps a connection from being timed out. *)
Lemma timed_out_iff s ops fd c : inv s ops -> connections_ s !! fd = Some c ->
  timed_out_ c = false <->
    (exists ops1 ops2, ops = ops1 ++ Insert (entry_ c) :: ops2 /\ ticks ops2 < life 10 (ticks ops1)) \/
    entry_ c ∈ pending_ s \/ entry_ c ∈ local (pc_ c).
Proof.
  intros [[Hwf _] Hops Hcs Hi _ _] Hc. destruct (Hcs _ _ Hc) as [[Hb Ht] _].
  destruct (run_lasts 10 ops) as (w & Hw & _ & Hlast); [unfold two_31; lia|]. rewrite Hops in Hw. injection Hw as <-.
  rewrite <-(held_lasts 10 ops (timer_ s) (entry_ c) Hwf Hlast). transitivity (entry_ c ∈ refs s).
  { rewrite <-not_true_iff_false, Ht. destruct (decide (entry_ c ∈ refs s)); tauto. }
  rewrite elem_refs. split; [|intros [?|[?|?]]; [tauto..|right; right; by exists fd, c]]. intros [?|[?|(fd' & c' & Hc' & He)]]; [tauto..|].
  destruct (Hcs _ _ Hc') as [_ Hown]. destruct (Hown _ He) as [Heq|Heq]; [|unfold null in Heq; lia].
  rewrite (Hi fd fd' c c' Hc Hc' Heq) in Hc. rewrite Hc in Hc'. injection Hc' as <-. tauto.
Qed.

Lemma insertEntry_connections e s : connections_ (insertEntry e s) = connections_ s.
Proof. unfold insertEntry. by destruct (TimerWheel.insertEntry _ _). Qed.

(** Only the destructor times a connection out, and nothing takes it back. *)
Lemma execute_keeps s ev s' more fd c c' : allowed true s ev = true -> execute true http_callback_ order fresh s ev ⇓ (s', more) ->
  connections_ s !! fd = Some c -> connections_ s' !! fd = Some c' -> timed_out_ c' = timed_out_ c.
Proof.
  intros Ha Hx Hc Hc'. assert (forall fd1 c1 c2, connections_ s !! fd1 = Some c1 -> timed_out_ c2 = timed_out_ c1 ->
    <[fd1 := c2]> (connections_ s) !! fd = Some c' -> timed_out_ c' = timed_out_ c) as Hset.
  { intros fd1 c1 c2 H1 H2 [[<- <-]|[_ H3]]%lookup_insert_Some; congruence. }
  destruct ev as [fd' input|fd' time data|fd'| | |fd']; cbn [execute allowed] in *.
  - injection Hx as <- <-. apply bool_decide_eq_true in Ha. cbn in Hc'. rewrite lookup_insert_ne in Hc'; congruence.
  - destruct (onMessage _ _ _ _ fd' time data s) as [s2|] eqn:Hm; [|done]. injection Hx as <- <-. unfold onMessage in Hm.
    destruct (connections_ s !! fd') as [c1|] eqn:Hc1; [|injection Hm as <-; congruence]. destruct (Buffer.append _ _) as [buf|]; [|done]. cbn [mbind outcome_bind] in Hm.
    destruct (Server.onMessage _ _ _ _ _ _ _ _ _) as [[[[context buf'] fx]|]|]; [|done..]. injection Hm as <-. eapply Hset; [exact Hc1| |exact Hc']. done.
  - injection Hx as <- <-. unfold advance in Hc'. destruct (connections_ s !! fd') as [c1|] eqn:Hc1; [|congruence].
    destruct (pc_ c1); cbn [set_conn connections_] in Hc'; rewrite ?insertEntry_connections in Hc'; try congruence;
      (eapply Hset; [exact Hc1| |exact Hc']; done).
  - unfold run_functor in Hx. destruct (pending_ s) as [|e rest]; [injection Hx as <- <-; congruence|]. destruct (insertEntryInLoop (timer_ s) e) as [w|]; [|done].
    injection Hx as <- <-. cbn in Hc'. congruence.
  - unfold onTimer in Hx. destruct (TimerWheel.onTimer (timer_ s)) as [p|]; [|done]. injection Hx as <- <-. cbn in Hc'. congruence.
  - injection Hx as <- <-. cbn in Hc'. apply lookup_delete_Some in Hc' as [_ ?]. congruence.
Qed.

Lemma step_keeps s ev s' more fd c c' : allowed true s ev = true -> step true http_callback_ order fresh s ev ⇓ (s', more) ->
  connections_ s !! fd = Some c -> connections_ s' !! fd = Some c' -> timed_out_ c = true -> timed_out_ c' = true.
Proof.
  intros Ha Hs Hc Hc' Ht. unfold step in Hs. destruct (execute _ _ _ _ s ev) as [[s1 more1]|] eqn:Hx; [|done]. injection Hs as <- <-.
  cbn [settle connections_ fst] in Hc'. apply lookup_fmap_Some in Hc' as (c1 & <- & Hc1).
  rewrite (proj2 (proj2 (expire_same _ c1))), (execute_keeps _ _ _ _ _ _ _ Ha Hx Hc Hc1), Ht. done.
Qed.

Lemma step_inserts s ev s' more e : step true http_callback_ order fresh s ev ⇓ (s', more) -> Insert e ∈ more -> e ∈ pending_ s.
Proof.
  intros Hs. unfold step in Hs. destruct (execute _ _ _ _ s ev) as [[s1 more1]|] eqn:Hx; [|done]. injection Hs as <- <-.
  destruct ev as [fd' input|fd' time data|fd'| | |fd']; cbn [execute snd] in *; try (injection Hx as <- <-; by intros ?%elem_of_nil).
  - destruct (onMessage _ _ _ _ fd' time data s) as [s2|]; [|done]. injection Hx as <- <-. by intros ?%elem_of_nil.
  - unfold run_functor in Hx. destruct (pending_ s) as [|e1 rest]; [injection Hx as <- <-; by intros ?%elem_of_nil|].
    destruct (insertEntryInLoop (timer_ s) e1) as [w|]; [|done]. injection Hx as <- <-. intros [= ->]%list_elem_of_singleton. by apply elem_of_cons; left.
  - unfold onTimer in Hx. destruct (TimerWheel.onTimer (timer_ s)) as [p|]; [|done]. injection Hx as <- <-. by intros ?%list_elem_of_singleton.
Qed.
End steps.
End IoFacts.

(** ** Properties *)
Module IoTheorems.
Import TimerWheel WheelSpec WheelFacts IoServer IoFacts.

(** C20.  The idle timer with I/O threads, for every interleaving of handlers,
    queued functors, ticks and closings: a connection has not been shut down by
    the timer exactly while an insertion of its entry is younger than its life,
    or an insertion is still queued, or a handler of it holds the entry.  Once
    shut down it stays so, and nothing inserts its entry again. *)
Theorem threaded_idle_timeout callback order fresh s0 evs s ops fd c :
  make true ⇓ s0 -> runs true callback order fresh s0 evs s ops -> connections_ s !! fd = Some c ->
  (timed_out_ c = false <->
     (exists ops1 ops2, ops = ops1 ++ Insert (entry_ c) :: ops2 /\ ticks ops2 < life 10 (ticks ops1)) \/
     entry_ c ∈ pending_ s \/ entry_ c ∈ local (pc_ c)) /\
  (timed_out_ c = true -> forall ev s' more, allowed true s ev = true -> step true callback order fresh s ev ⇓ (s', more) ->
     (Insert (entry_ c) ∉ more) /\ forall c', connections_ s' !! fd = Some c' -> timed_out_ c' = true).
Proof.
  intros H0 Hr Hc. pose proof (runs_inv _ _ _ _ _ _ _ _ (io_make_inv _ H0) Hr) as Hinv. split; [by eapply timed_out_iff|].
  intros Ht ev s' more Ha Hs. split; [|intros c' Hc'; by eapply step_keeps].
  intros Hin%(step_inserts _ _ _ _ _ _ _ _ Hs). destruct (inv_conn _ _ Hinv _ _ Hc) as [[_ Hiff] _]. apply Hiff in Ht. by apply Ht, refs_pending.
Qed.

(** C34.  An idle connection is closed: if its handlers do not run again, once the
    base loop has run the functors that were queued, ten more ticks shut it
    down, whatever the other connections do. *)
Theorem idle_connection_closed callback order fresh s0 evs s ops fd c evs1 s1 ops1 evs2 s2 ops2 :
  make true ⇓ s0 -> runs true callback order fresh s0 evs s ops -> connections_ s !! fd = Some c -> pc_ c = Idle ->
  runs true callback order fresh s evs1 s1 ops1 -> runs true callback order fresh s1 evs2 s2 ops2 ->
  Forall (quiet fd) (evs1 ++ evs2) -> (length (pending_ s) <= functors evs1)%nat -> 10 <= ticks ops2 ->
  exists c2, connections_ s2 !! fd = Some c2 /\ timed_out_ c2 = true.
Proof.
  intros H0 Hr Hc Hpc H1 H2 [Hq1 Hq2]%Forall_app Hlen Hticks. pose proof (runs_inv _ _ _ _ _ _ _ _ (io_make_inv _ H0) Hr) as Hinv.
  pose proof (runs_inv _ _ _ _ _ _ _ _ Hinv H1) as Hinv1. pose proof (runs_inv _ _ _ _ _ _ _ _ Hinv1 H2) as Hinv2.
  destruct (quiet_runs _ _ _ _ _ _ _ _ _ _ Hinv Hc Hpc Hq1 H1) as ((c1 & Hc1 & Hpc1 & He1) & Hd1 & _).
  destruct (quiet_runs _ _ _ _ _ _ _ _ _ _ Hinv1 Hc1 Hpc1 Hq2 H2) as ((c2 & Hc2 & Hpc2 & He2) & Hd2 & Hi2). rewrite He1 in *.
  assert (entry_ c ∉ pending_ s1) as Hp1.
  { specialize (Hd1 (length (pending_ s))). rewrite drop_all in Hd1. replace (length (pending_ s) - functors evs1)%nat with 0%nat in Hd1 by lia.
    by apply Hd1, not_elem_of_nil. }
  exists c2. split; [done|]. apply not_false_iff_true. rewrite (timed_out_iff _ _ _ _ Hinv2 Hc2), He2, Hpc2.
  intros [(l1 & l2 & Heq & Hlt)|[Hin|Hin]]; [|by apply (Hd2 0%nat Hp1)|by apply elem_of_nil in Hin].
  apply app_eq_inv in Heq as [(k & Hk1 & Hk2)|(k & Hk1 & Hk2)].
  - destruct k as [|o k]; [cbn in Hk2|injection Hk2 as <- ->].
    + apply (Hi2 Hp1). rewrite <-Hk2. by apply elem_of_cons; left.
    + rewrite ticks_app in Hlt. pose proof (ticks_nonneg k). pose proof (life_le (ticks l1)). lia.
  - apply (Hi2 Hp1). rewrite Hk2. apply elem_of_app. right. by apply elem_of_cons; left.
Qed.

(** A connection accepted after one tick: its entry is queued, inserted, and the
    connection idles. *)
Import WebServerTheorems (play_callback, play_order, play_buffer, request_text).
Definition server0 : t := mk (started 10) [] 0 ∅.
Definition accepted : list event := [IoServer.Tick; Connected 5 play_buffer; Advance 5; Advance 5].
Definition reach (s : t) (evs : list event) : t * list op :=
  match played play_callback play_order play_buffer s evs with Done p => p | Fault _ => (s, []) end.
Definition server1 : t := (reach server0 accepted).1.
Definition server2 : t := (reach server1 [RunFunctor]).1.
Definition no_conn : conn := mk_conn ContextParse.init null play_buffer [] false Idle.
Definition conn_of (s : t) (fd : Z) : conn := default no_conn (connections_ s !! fd).

Lemma threaded_idle_timeout_witness :
  (timed_out_ (conn_of server1 5) = false <->
     (exists ops1 ops2, (reach server0 accepted).2 = ops1 ++ Insert (entry_ (conn_of server1 5)) :: ops2 /\ ticks ops2 < life 10 (ticks ops1)) \/
     entry_ (conn_of server1 5) ∈ pending_ server1 \/ entry_ (conn_of server1 5) ∈ local (pc_ (conn_of server1 5))) /\
  (timed_out_ (conn_of server1 5) = true -> forall ev s' more, allowed true server1 ev = true ->
     step true play_callback play_order play_buffer server1 ev ⇓ (s', more) ->
     (Insert (entry_ (conn_of server1 5)) ∉ more) /\ forall c', connections_ s' !! 5 = Some c' -> timed_out_ c' = true).
Proof.
  apply (threaded_idle_timeout play_callback play_order play_buffer server0 accepted); [done| |by vm_compute].
  apply played_runs. by vm_compute.
Defined.

Lemma idle_connection_closed_witness :
  exists c2, connections_ (reach server2 (replicate 10 IoServer.Tick)).1 !! 5 = Some c2 /\ timed_out_ c2 = true.
Proof.
  apply (idle_connection_closed play_callback play_order play_buffer server0 accepted server1 (reach server0 accepted).2 5 (conn_of server1 5)
    [RunFunctor] server2 (reach server1 [RunFunctor]).2 (replicate 10 IoServer.Tick) _ (reach server2 (replicate 10 IoServer.Tick)).2);
    try (apply played_runs; by vm_compute); try by vm_compute.
  by repeat constructor.
Defined.

(** The two calls of [lock] in [onRequest] are not one: after the first has
    succeeded the base loop may drop the last reference, so that the second
    gives a null pointer, which goes into the wheel; the connection is shut
    down although its keep-alive request has just been answered. *)
Definition race : list event :=
  accepted ++ RunFunctor :: replicate 9 IoServer.Tick ++
  [Message 5 0 request_text; Advance 5; Advance 5; IoServer.Tick; Advance 5; Advance 5; Advance 5; RunFunctor].
Theorem second_lock_can_fail : exists s ops answer,
  runs true play_callback play_order play_buffer server0 race s ops /\ last ops = Some (Insert null) /\
  (effects_ <$> connections_ s !! 5) = Some [Server.Send answer; Server.Shutdown].
Proof.
  exists (reach server0 race).1, (reach server0 race).2.
  exists (match effects_ <$> connections_ (reach server0 race).1 !! 5 with Some [Server.Send a; _] => a | _ => [] end).
  split; [apply played_runs; by vm_compute|]. split; by vm_compute.
Qed.
End IoTheorems.

(** ** The program *)
Module Run.
Section run.
Context `{Host} `{InetText}.

(** What the kernel answers: the descriptors of [socket] and of [open], the
    results of the three [setsockopt]/[bind]/[listen] calls that matter, and
    the image. *)
Record system : Type := mk_system {
  listen_fd : Z; null_fd : Z; bind_ret : Z; listen_ret : Z; image_file : option (Z * bytes) }.

Record t : Type := mk {
  server_ : TcpServer.t;
  acceptor_ : Acceptor.t;
  web_ : WebServer.t;
  image_ : bytes;
  use_timer_ : bool }.

(** [num_threads] and [use_timer] *)
Definition arguments (argv : list bytes) : outcome (Z * bool) :=
  match argv with
  | _ :: arg :: more => n ← atoi arg; mret (n, negb (bool_decide (more = [])))
  | _ => mret (0, false)
  end.

(** The constructor of [Server]; [memory] is where the address is built. *)
Definition make (sys : system) (memory : sockaddr) (port : Z) (name : bytes) (use_timer : bool) (image_path : bytes) (e : env)
    : outcome (t * env) :=
  ip_port ← InetAddress.toIpPort_ (InetAddress.of_port memory port false false);
  '(acceptor, e) ← Acceptor.init (listen_fd sys) (null_fd sys) e;
  Socket.bindAddress (bind_ret sys);;
  web ← WebServer.make use_timer;
  image ← WebServer.load_image image_path (image_file sys);
  mret (mk (TcpServer.init 0 ip_port name) (Acceptor.setNewConnectionCallback acceptor) web image use_timer, e).

Definition setThreadNum (n : Z) (s : t) : outcome t :=
  server ← TcpServer.setThreadNum n (server_ s);
  mret (mk server (acceptor_ s) (web_ s) (image_ s) (use_timer_ s)).

(** [Server::start], and the [Acceptor::listen] that [TcpServer::start] runs. *)
Definition start (sys : system) (loops : nat -> loop) (s : t) : outcome t :=
  server ← TcpServer.start loops (server_ s);
  acceptor ← (if bool_decide (TcpServer._started (server_ s) = 0) then Acceptor.listen (listen_ret sys) (acceptor_ s)
              else mret (acceptor_ s));
  mret (mk server acceptor (web_ s) (image_ s) (use_timer_ s)).

(** [main], up to [loop.loop()]. *)
Definition main (sys : system) (memory : sockaddr) (loops : nat -> loop) (argv : list bytes) (e : env) : outcome (t * env) :=
  '(num_threads, use_timer) ← arguments argv;
  '(server, e) ← make sys memory 8000 (lit "Naive Server") use_timer (lit "./image.jpg") e;
  server ← setThreadNum num_threads server;
  server ← start sys loops server;
  mret (server, e).
End run.
End Run.

Module RunTheorems.
Import Run.

(** The kernel gives descriptors and accepts the address; the image can be read. *)
Definition system_ok (sys : system) (image : bytes) : Prop :=
  0 <= listen_fd sys /\ 0 <= null_fd sys /\ 0 <= bind_ret sys /\ 0 <= listen_ret sys /\
  exists file_len, image_file sys = Some (file_len, image) /\ len image = u64 file_len.

Lemma wildcard_text `{Host} `{InetText} memory : AddressSpec.raw memory ->
  InetAddress.toIpPort_ (InetAddress.of_port memory 8000 false false) ⇓ (ntop4 (zeros 4) ++ lit ":8000").
Proof.
  intros Hm. set (a := InetAddress.of_port memory 8000 false false).
  assert (InetAddress.toIp_ a ⇓ ntop4 (zeros 4)) as Hip.
  { assert (mem_bytes 4 (hostToNetwork32 0) = zeros 4) as Hz by (destruct H; by vm_compute).
    change (InetAddress.toIp_ a) with (Done (ntop4 (mem_bytes 4 (hostToNetwork32 0)))). by rewrite Hz. }
  assert (InetAddress.toPort a = 8000) as Hp by (apply AddressFacts.port_round_trip; unfold two_16; lia).
  rewrite (AddressFacts.print_address a _ Hip); [by rewrite Hp|]. pose proof (ntop4_len (zeros 4) eq_refl). lia.
Qed.

Lemma make_ok `{Host} `{InetText} sys memory use_timer e image : AddressSpec.raw memory -> system_ok sys image ->
  exists e' w, make sys memory 8000 (lit "Naive Server") use_timer (lit "./image.jpg") e ⇓
    (mk (TcpServer.init 0 (ntop4 (zeros 4) ++ lit ":8000") (lit "Naive Server")) (Acceptor.mk (listen_fd sys) false false (null_fd sys) true)
        w image use_timer, e') /\ TimerWheel.run_ (WebServer.timer_ w) = use_timer /\ TimerWheel.max_second (WebServer.timer_ w) = 10.
Proof.
  intros Hm (Hl & Hn & Hb & _ & file_len & Hf & Hlen). unfold make. rewrite wildcard_text by done. cbn [mbind outcome_bind].
  unfold Acceptor.init, sockets.createNonblockingOrDie. cbn [a_socket]. rewrite (bool_decide_false (listen_fd sys < 0)) by lia. cbn [mbind outcome_bind mret outcome_ret].
  rewrite (bool_decide_true (0 <= null_fd sys)) by done. cbn [assert_ mbind outcome_bind mret outcome_ret]. unfold Socket.bindAddress. rewrite (bool_decide_false (bind_ret sys < 0)) by lia.
  cbn [mbind outcome_bind mret outcome_ret]. unfold WebServer.load_image. rewrite Hf, (bool_decide_true (len image = _)) by done.
  destruct use_timer; eexists _, _; (split; [reflexivity|done]).
Qed.

Lemma arguments_fault argv f : arguments argv = Fault f -> f = Undefined.
Proof.
  assert (forall x g, checked32 x = Fault g -> g = Undefined) as Hc by (intros x g; unfold checked32; case_bool_decide; congruence).
  unfold arguments. destruct argv as [|_ [|arg more]]; [done..|]. unfold atoi. destruct (skip_space arg) as [|c s]; [done|].
  destruct (bool_decide (c = "-"%char)); [|destruct (bool_decide (c = "+"%char))];
    (match goal with |- context [checked32 ?x] => destruct (checked32 x) eqn:Hx end); cbn; try done; intros [= <-]; by eapply Hc.
Qed.

(** What the program starts, for every command line: with a number of
    threads that is not negative it listens on port 8000 of every interface,
    with exactly that many I/O loops, the image loaded whole, and the idle
    timer running if there is a second argument; a negative number fails an
    assertion, and one that is not an [int] is undefined behaviour. *)
Theorem main_starts `{Host} `{InetText} sys memory loops argv e image :
  AddressSpec.raw memory -> system_ok sys image ->
  match arguments argv with
  | Done (n, use_timer) =>
      if bool_decide (0 <= n) then exists s e', main sys memory loops argv e ⇓ (s, e') /\
        TcpServer._ip_port (server_ s) = ntop4 (zeros 4) ++ lit ":8000" /\
        TcpServer._listening (server_ s) = true /\ Acceptor.listenning_ (acceptor_ s) = true /\ Acceptor.reading_ (acceptor_ s) = true /\
        Acceptor.newConnectionCallback_ (acceptor_ s) = true /\
        EventLoopThreadPool._loops (TcpServer._thread_pool (server_ s)) = loops <$> seq 0 (Z.to_nat n) /\
        image_ s = image /\ TimerWheel.run_ (WebServer.timer_ (web_ s)) = use_timer /\ TimerWheel.max_second (WebServer.timer_ (web_ s)) = 10
      else main sys memory loops argv e = Fault AssertFailure
  | Fault f => f = Undefined /\ main sys memory loops argv e = Fault Undefined
  end.
Proof.
  intros Hm Hsys. unfold main. destruct (arguments argv) as [[n use_timer]|f] eqn:Hargs; cbn [mbind outcome_bind].
  - destruct (make_ok sys memory use_timer e image Hm Hsys) as (e' & w & Hmake & Hrun & Hmax). destruct Hsys as (_ & _ & _ & Hl & _).
    rewrite Hmake. cbn [mbind outcome_bind mret outcome_ret]. unfold setThreadNum, TcpServer.setThreadNum.
    case_bool_decide as Hn; cbn [assert_ mbind outcome_bind mret outcome_ret]; [|done].
    unfold start. cbn. unfold Acceptor.listen. rewrite (bool_decide_false (listen_ret sys < 0)) by lia. cbn. eexists _, _. split; [done|]. done.
  - by rewrite (arguments_fault _ _ Hargs).
Qed.

Definition play_system : system := mk_system 3 4 0 0 (Some (5, lit "image")).
Lemma main_starts_witness : exists s e', main (H := x86_64) (H0 := PlainText.plain_text) play_system AddressTheorems.junk Z.of_nat
    [lit "Run"; lit "4"; lit "t"] (mk_env [] [] ∅ false) ⇓ (s, e') /\
  TcpServer._ip_port (server_ s) = lit "0.0.0.0:8000" /\
  TcpServer._listening (server_ s) = true /\ Acceptor.listenning_ (acceptor_ s) = true /\ Acceptor.reading_ (acceptor_ s) = true /\
  Acceptor.newConnectionCallback_ (acceptor_ s) = true /\
  EventLoopThreadPool._loops (TcpServer._thread_pool (server_ s)) = [0; 1; 2; 3] /\
  image_ s = lit "image" /\ TimerWheel.run_ (WebServer.timer_ (web_ s)) = true /\ TimerWheel.max_second (WebServer.timer_ (web_ s)) = 10.
Proof.
  apply (main_starts (H := x86_64) (H0 := PlainText.plain_text) play_system AddressTheorems.junk Z.of_nat
    [lit "Run"; lit "4"; lit "t"] (mk_env [] [] ∅ false) (lit "image")); [by vm_compute|].
  split_and!; [by vm_compute..|]. by exists 5.
Defined.
End RunTheorems.
