(* ===== verification/EchoPrograms.v ===== *)
(** * EchoPrograms: the echo server and the echo client

    Models the two programs of [src/muduo/net/tests/EchoServer_unittest.cc] and
    [EchoClient_unittest.cc]: user code that answers in the callbacks of a
    connection ([TcpConnections]), over any buffer that implements [ByteQueue].
    [kernel] is how the socket answers a [write(2)], which may depend on the
    whole history of the connection.  The theorems say which bytes such a
    program sends for the messages it gets. *)
From S2P Require Import Prelude NetBuffer Channels TcpConnections Endian LogStreams Clients Servers Addresses SmallFiles.

Local Open Scope Z_scope.
Local Open Scope muduo_scope.

Definition line (s : string) : bytes := lit s ++ ["010"%char].

Module EchoServer.
Import TcpConnection.
Section server.
Context {Q : Type} `{ByteQueue Q} (kernel : t Q -> write_t).

Definition onConnection (conn : t Q) : outcome (t Q) := send true (kernel conn) conn (line "hello").

(** Also whether it calls [loop_->quit()]. *)
Definition onMessage (conn : t Q) : outcome (t Q * bool) :=
  let msg := bq_content (inputBuffer_ conn) in
  let conn := set_buffers (bq_retrieveAll (inputBuffer_ conn)) (outputBuffer_ conn) conn in
  conn ← (if bool_decide (msg = line "exit") then
            conn ← send true (kernel conn) conn (line "bye"); mret (shutdown true conn)
          else mret conn);
  let quit := bool_decide (msg = line "quit") in
  conn ← send true (kernel conn) conn msg;
  mret (conn, quit).

Definition user (k : call) (conn : t Q) : outcome (t Q) :=
  match k with
  | ConnectionCallback _ => onConnection conn
  | MessageCallback => fst <$> onMessage conn
  | _ => mret conn
  end.
End server.

(** The constructor, given the text of the listening address, and [main] up to
    [loop()]: the address and the server. *)
Definition make (ip_port : bytes) (numThreads : Z) : outcome TcpServer.t :=
  TcpServer.setThreadNum numThreads (TcpServer.init 0 ip_port (lit "EchoServer")).
Definition start (loops : nat -> loop) (s : TcpServer.t) : outcome TcpServer.t := TcpServer.start loops s.

Definition main `{Host} `{InetText} (memory : sockaddr) (loops : nat -> loop) (argv : list bytes) : outcome TcpServer.t :=
  numThreads ← (match argv with _ :: arg :: _ => atoi arg | _ => mret 0 end);
  let ipv6 := bool_decide (2 < len argv) in
  ip_port ← InetAddress.toIpPort_ (InetAddress.of_port memory 2000 false ipv6);
  server ← make ip_port numThreads;
  start loops server.
End EchoServer.

Module EchoClient.
Import TcpConnection.
Section client.
Context {Q : Type} `{ByteQueue Q} (kernel : t Q -> write_t).

(** The global [current] and the client it asks to connect, of [n] clients. *)
Definition next_client (up : bool) (n current : Z) : outcome (Z * option Z) :=
  if up then
    current ← checked32 (current + 1);
    mret (current, if bool_decide (u64 current < n) then Some current else None)
  else mret (current, None).

Definition onConnection (conn : t Q) : outcome (t Q) := send true (kernel conn) conn (line "world").

Definition onMessage (conn : t Q) : outcome (t Q * bool) :=
  let msg := bq_content (inputBuffer_ conn) in
  let conn := set_buffers (bq_retrieveAll (inputBuffer_ conn)) (outputBuffer_ conn) conn in
  if bool_decide (msg = line "quit") then
    conn ← send true (kernel conn) conn (line "bye");
    mret (shutdown true conn, false)
  else if bool_decide (msg = line "shutdown") then mret (conn, true)
  else conn ← send true (kernel conn) conn msg; mret (conn, false).

Definition user (k : call) (conn : t Q) : outcome (t Q) :=
  match k with
  | ConnectionCallback _ => onConnection conn
  | MessageCallback => fst <$> onMessage conn
  | _ => mret conn
  end.
End client.

(** [main]: [clients] are made from the arguments; [clients[0]->connect()] reads
    past the end of an empty vector, and [reserve] of a negative number throws. *)
Definition main_clients (argv : list bytes) : outcome (option Z) :=
  match argv with
  | _ :: _ :: more =>
      n ← (match more with arg :: _ => atoi arg | [] => mret 1 end);
      (if bool_decide (n < 0) then Fault LengthError else mret tt);;
      (if bool_decide (n = 0) then Fault OutOfBounds else mret tt);;
      mret (Some n)
  | _ => mret None
  end.
End EchoClient.

(** ** Specification: programs that answer messages *)
Module Responder.
Import TcpConnection TcpConnectionSpec.

(** What a program does with a message. *)
Inductive act : Type := Say (d : bytes) | HangUp.
Definition server_acts (msg : bytes) : list act :=
  (if bool_decide (msg = line "exit") then [Say (line "bye"); HangUp] else []) ++ [Say msg].
Definition client_acts (msg : bytes) : list act :=
  if bool_decide (msg = line "quit") then [Say (line "bye"); HangUp]
  else if bool_decide (msg = line "shutdown") then [] else [Say msg].

(** What is said, and whether more may be. *)
Definition say (p : list bytes * bool) (a : act) : list bytes * bool :=
  match a with Say d => (p.1 ++ if (p.2 : bool) then [d] else [], p.2) | HangUp => (p.1, false) end.
Definition utter (connected : bool) (l : list act) : list bytes * bool := foldl say ([], connected) l.
Definition answer (acts : bytes -> list act) (msgs : list bytes) : list bytes * bool :=
  utter true (mjoin (acts <$> msgs)).
Definition said (a : act) : Z := match a with Say d => len d | HangUp => 0 end.
Definition total (l : list act) : Z := foldr Z.add 0 (said <$> l).

Section responder.
Context {Q : Type} `{ByteQueue Q} (kernel : t Q -> write_t) (greeting : bytes) (acts : bytes -> list act).

Fixpoint perform (l : list act) (c : t Q) : outcome (t Q) :=
  match l with
  | [] => mret c
  | Say d :: l => c ← send true (kernel c) c d; perform l c
  | HangUp :: l => perform l (shutdown true c)
  end.
Definition respond (k : call) (c : t Q) : outcome (t Q) :=
  match k with
  | ConnectionCallback _ => send true (kernel c) c greeting
  | MessageCallback => perform (acts (bq_content (inputBuffer_ c))) (set_buffers (bq_retrieveAll (inputBuffer_ c)) (outputBuffer_ c) c)
  | _ => mret c
  end.

Definition kernel_ok : Prop := forall c, write_ok (kernel c).
(** No write finds the connection broken or reset. *)
Definition no_reset (w : write_t) : Prop := forall d e, w d = inl e -> e <> EPIPE /\ e <> ECONNRESET.
Definition steady : Prop := forall c, no_reset (kernel c).
(** Of the messages [full], [out] has whole ones in order, and all of them if no
    write is reset: [sendInLoop] drops a message whose first write is. *)
Definition heard (full : list bytes) (out : bytes) : Prop :=
  exists spoken, spoken `sublist_of` full /\ out = mjoin spoken /\ (steady -> spoken = full).

(** What happens to a connection whose loop runs nothing else. *)
Inductive event : Type := Established | Readable (readv : Buffer.readv_t) | Writable | HungUp | Destroyed.
Context (user : call -> t Q -> outcome (t Q)).
Definition react (c : t Q) (ev : event) : outcome (t Q) :=
  match ev with
  | Established => connectEstablished user c
  | Readable readv => handleRead user readv c
  | Writable => handleWrite (kernel c) c
  | HungUp => handleClose user c
  | Destroyed => connectDestroyed user c
  end.
Definition enabled (c : t Q) (ev : event) : Prop :=
  match ev with
  | Established => state_ c = kConnecting
  | Readable readv => Channel.isReading (channel_ c) = true /\ read_ok readv c /\
      forall iov data, readv iov = inr data -> 2 * len (received c ++ data) + len greeting <= Buffer.cap
  | Writable => True
  | HungUp => Channel.isNoneEvent (channel_ c) = false
  | Destroyed => state_ c = kDisconnected \/ state_ c = kConnected
  end.

(** The message that a step has delivered, if any. *)
Definition delivered (c c' : t Q) : list bytes :=
  match drop (length (received c)) (received c') with [] => [] | data => [data] end.

Inductive runs : list bytes -> t Q -> Prop :=
  | runs_init fd hwm inb outb : 0 <= hwm -> bq_wf inb -> bq_content inb = [] -> bq_wf outb -> bq_content outb = [] ->
      len greeting <= Buffer.cap -> runs [] (init fd false false hwm inb outb)
  | runs_step msgs c ev c' : runs msgs c -> enabled c ev -> react c ev ⇓ c' -> runs (msgs ++ delivered c c') c'.
End responder.
End Responder.

(** ** Lemmas *)
Module EchoFacts.
Import TcpConnection TcpConnectionSpec TcpConnectionFacts Responder.
Section facts.
Context {Q : Type} `{ByteQueue Q}.
Implicit Types c : t Q.

(** What sending leaves alone. *)
Definition same_input c c' : Prop := inputBuffer_ c' = inputBuffer_ c /\ received c' = received c.
Definition same_reading c c' : Prop := Channel.isReading (channel_ c') = Channel.isReading (channel_ c).

Lemma reading_writing ch : 0 <= Channel.events_ ch < 8 ->
  Channel.isReading (Channel.enableWriting ch) = Channel.isReading ch /\
  Channel.isReading (Channel.disableWriting ch) = Channel.isReading ch.
Proof. intros. mask_cases ch; done. Qed.

Lemma buffer_rest_input c data n r c' : 0 <= Channel.events_ (channel_ c) < 8 -> buffer_rest c data n r ⇓ c' ->
  same_input c c' /\ same_reading c c' /\ accepted c' = accepted c.
Proof.
  intros He%reading_writing. unfold buffer_rest. set (c1 := if _ && _ then _ else _).
  assert (same_input c c1 /\ channel_ c1 = channel_ c /\ accepted c1 = accepted c) as ([H1 H2] & H3 & H4) by (unfold c1; by case_match).
  destruct (bq_append (outputBuffer_ c1) _) as [out|]; [|done]. intros [= <-]. unfold same_reading. rewrite <-H3 in *.
  destruct (Channel.isWriting _); [done|]. split_and!; [done..|apply He|done].
Qed.

Lemma sendInLoop_input w c data c' : 0 <= Channel.events_ (channel_ c) < 8 -> sendInLoop w c data ⇓ c' ->
  same_input c c' /\ same_reading c c' /\
  (accepted c' = accepted c ++ (if bool_decide (state_ c = kDisconnected) then [] else data) \/ accepted c' = accepted c /\ ~ no_reset w).
Proof.
  intros Hev. unfold sendInLoop. case_bool_decide; [intros [= <-]; rewrite app_nil_r; split_and!; auto; done|].
  destruct (try_write w c data) as [[[nwrote remaining] fault] c1] eqn:Ht.
  assert ((fault = true -> ~ no_reset w) /\ same_input c c1 /\ channel_ c1 = channel_ c /\ accepted c1 = accepted c) as (Hf & [H1 H2] & Hch & H3).
  { unfold try_write in Ht. destruct (_ && _); [|by injection Ht as <- <- <- <-]. destruct (w data) as [e|n] eqn:He.
    - injection Ht as <- <- <- <-. split; [|done]. intros Hf Hw. apply Hw in He as [He1 He2].
      rewrite (proj2 (Z.eqb_neq _ _) He1), (proj2 (Z.eqb_neq _ _) He2), andb_false_r in Hf. done.
    - injection Ht as <- <- <- <-. split; [done|]. by destruct (_ && _). }
  destruct (bool_decide (remaining <= len data)); [|done]. cbn [assert_ mbind outcome_bind].
  destruct fault; cbn [negb andb].
  { intros [= <-]. unfold same_input, same_reading. rewrite Hch, H1, H2, H3. split_and!; auto. }
  destruct (bool_decide (0 < remaining)).
  - intros ([H4 H5] & H6 & H7)%buffer_rest_input; [|by cbn; rewrite Hch]. cbn in H4, H5, H7. unfold same_input, same_reading in *. cbn in H6.
    rewrite H4, H5, H6, H7, Hch, H1, H2, H3. auto.
  - intros [= <-]. unfold same_input, same_reading. cbn. rewrite Hch, H1, H2, H3. auto.
Qed.

(** [send] in the loop thread. *)
Lemma send_ok w c d : inv c -> state_ c <> kConnecting -> write_ok w -> room c d ->
  exists c', send true w c d ⇓ c' /\ inv c' /\ state_ c' = state_ c /\ same_input c c' /\ same_reading c c' /\
    (accepted c' = accepted c ++ (if connected c then d else []) \/ accepted c' = accepted c /\ connected c = true /\ ~ no_reset w).
Proof.
  intros Hi Hn Hw Hroom. unfold send, connected. case_bool_decide as Hc; [|exists c; rewrite app_nil_r; split_and!; auto; done].
  destruct (sendInLoop_ok w c d) as (c' & Hs & Hi' & Hst & _); [done..|]. exists c'.
  destruct (sendInLoop_input w c d c' (i_events _ Hi) Hs) as (Hin & Hrd & Ha).
  rewrite bool_decide_false in Ha by congruence. split_and!; try done. naive_solver.
Qed.

Lemma shutdown_ok c : inv c -> state_ c <> kConnecting ->
  inv (shutdown true c) /\ same_input c (shutdown true c) /\ same_reading c (shutdown true c) /\ accepted (shutdown true c) = accepted c /\
  connected (shutdown true c) = false /\ (open c -> open (shutdown true c)) /\ state_ (shutdown true c) <> kConnecting /\
  (state_ c = kDisconnected -> state_ (shutdown true c) = kDisconnected).
Proof.
  intros Hi Hn. unfold shutdown. case_bool_decide as Hs.
  - assert (inv (setState kDisconnecting c)) as Hi' by (apply inv_disconnecting; [done|by left]). split; [by apply inv_shutdownInLoop|].
    destruct (shutdownInLoop_keeps (setState kDisconnecting c)) as [Hst _]. unfold connected, open. rewrite Hst. cbn [setState state_].
    rewrite bool_decide_false by done. split_and!; try done; [..|by right|congruence]; unfold same_input, same_reading, shutdownInLoop; by destruct (Channel.isWriting _).
  - unfold connected. rewrite bool_decide_false by done. done.
Qed.

Lemma handleWrite_keeps w c c' : 0 <= Channel.events_ (channel_ c) < 8 -> handleWrite w c ⇓ c' ->
  same_input c c' /\ same_reading c c' /\ accepted c' = accepted c.
Proof.
  intros [_ Hd]%reading_writing. unfold handleWrite. destruct (Channel.isWriting (channel_ c)); [|by intros [= <-]].
  destruct (w (bq_content (outputBuffer_ c))) as [e|n]; [by intros [= <-]|].
  destruct (bool_decide (0 < n)); [|by intros [= <-]]. destruct (bq_retrieve (outputBuffer_ c) n) as [out|]; [|done]. cbn [mbind outcome_bind]. intros Hw.
  destruct (_ =? 0); injection Hw as <-; [|done]. unfold shutdownInLoop, same_reading. repeat (case_match; try done).
Qed.

(** Closing a connection whose user code does nothing about it. *)
Lemma handleClose_keeps user c : inv c -> open c -> (forall c0, state_ c0 = kDisconnected -> user (ConnectionCallback false) c0 ⇓ c0) ->
  exists c', handleClose user c ⇓ c' /\ inv c' /\ state_ c' = kDisconnected /\ same_input c c' /\ accepted c' = accepted c.
Proof.
  intros Hi Ho Hu. destruct (handleClose_ok (fun _ c => mret c) ltac:(by intros k c0 _; exists c0) c Hi Ho) as (c' & Hc' & Hi' & Hs' & _).
  assert (handleClose user c = handleClose (fun _ c => mret c) c) as -> by (unfold handleClose, invoke; by rewrite Hu).
  exists c'. split; [done|]. unfold handleClose in Hc'. rewrite (proj2 (closable_open c) Ho) in Hc'. injection Hc' as <-. done.
Qed.

Lemma connectDestroyed_keeps user c : inv c -> state_ c = kDisconnected \/ state_ c = kConnected ->
  (forall c0, state_ c0 = kDisconnected -> user (ConnectionCallback false) c0 ⇓ c0) ->
  exists c', connectDestroyed user c ⇓ c' /\ inv c' /\ state_ c' = kDisconnected /\ same_input c c' /\ accepted c' = accepted c.
Proof.
  intros Hi Hs Hu. destruct (connectDestroyed_ok (fun _ c => mret c) ltac:(by intros k c0 _; exists c0) c Hi Hs) as (c' & Hc' & Hi' & Hs' & _).
  assert (connectDestroyed user c = connectDestroyed (fun _ c => mret c) c) as -> by (unfold connectDestroyed, invoke; by rewrite Hu).
  exists c'. split_and!; try done; unfold connectDestroyed in Hc'; destruct (bool_decide (state_ c = kConnected));
    cbn [invoke mbind outcome_bind mret outcome_ret] in Hc'; destruct (Channel.isNoneEvent _) in Hc'; try done; by injection Hc' as <-.
Qed.

Context (kernel : t Q -> write_t) (Hkernel : kernel_ok kernel).

Lemma output_len c : inv c -> len (bq_content (outputBuffer_ c)) <= len (accepted c).
Proof. intros Hi. rewrite (i_stream _ Hi), len_app. pose proof (len_nonneg (wire c)). lia. Qed.

Lemma total_cons a l : total (a :: l) = said a + total l.
Proof. done. Qed.
Lemma total_nonneg l : 0 <= total l.
Proof. induction l as [|a l IH]; [done|]. rewrite total_cons. destruct a; cbn [said]; [pose proof (len_nonneg d)|]; lia. Qed.

Lemma say_prefix l a p : foldl say (a ++ p.1, p.2) l = (a ++ (foldl say p l).1, (foldl say p l).2).
Proof.
  revert p. induction l as [|x l IH]; intros p; [done|]. cbn [foldl]. destruct x as [d|]; cbn [say fst snd].
  - rewrite <-app_assoc. exact (IH (p.1 ++ _, p.2)).
  - exact (IH (p.1, false)).
Qed.

Lemma utter_say b d l : utter b (Say d :: l) = ((if b then [d] else []) ++ (utter b l).1, (utter b l).2).
Proof. unfold utter. cbn [foldl say fst snd app]. rewrite <-(app_nil_r (if b then [d] else [])) at 1. exact (say_prefix l _ ([], b)). Qed.

(** A program's actions say what [utter] says, and end where it ends. *)
Lemma perform_ok l : forall c, inv c -> state_ c <> kConnecting -> len (accepted c) + total l <= Buffer.cap ->
  exists c' out, perform kernel l c ⇓ c' /\ inv c' /\ same_input c c' /\ same_reading c c' /\ (open c -> open c') /\ state_ c' <> kConnecting /\
    connected c' = (utter (connected c) l).2 /\ accepted c' = accepted c ++ out /\ heard kernel (utter (connected c) l).1 out.
Proof.
  induction l as [|a l IH]; intros c Hi Hn Hroom.
  { exists c, []. rewrite app_nil_r. split_and!; try done. by exists []. }
  rewrite total_cons in Hroom. pose proof (total_nonneg l) as Htl.
  pose proof (output_len c Hi) as Hout. destruct a as [d|]; cbn [perform said] in *.
  - destruct (send_ok (kernel c) c d) as (c1 & -> & Hi1 & Hs1 & [Hin1 Hrc1] & Hrd1 & Ha1); [done|done|apply Hkernel|unfold room; lia|]. cbn [mbind outcome_bind].
    assert (exists out, accepted c1 = accepted c ++ out /\ heard kernel (if connected c then [d] else []) out /\ len out <= len d) as (o1 & Ho1 & Hh1 & Hl1).
    { pose proof (len_nonneg d). destruct Ha1 as [Ha1|(Ha1 & Hc & Hr)]; [eexists; split; [exact Ha1|]|exists []; split; [by rewrite app_nil_r|]].
      - destruct (connected c); (split; [|done || lia]); [exists [d]|exists []]; split_and!; try done. cbn. by rewrite app_nil_r.
      - rewrite Hc. split; [|done]. exists []. split_and!; [apply sublist_nil_l|done|]. intros Hst. by destruct (Hr (Hst c)). }
    destruct (IH c1) as (c' & out & Hp & Hi' & [Hin' Hrc'] & Hrd' & Ho' & Hn' & Hc' & Ha' & Hh'); [done|congruence|rewrite Ho1, len_app; lia|].
    assert (connected c1 = connected c) as Hcc by (unfold connected; by rewrite Hs1). rewrite Hcc in *.
    exists c', (o1 ++ out). rewrite utter_say. split_and!; try done; [split; congruence|unfold same_reading in *; congruence| |by rewrite Ha', Ho1, app_assoc|].
    + unfold open in *. by rewrite Hs1 in Ho'.
    + destruct Hh1 as (s1 & Hs & -> & He1), Hh' as (s2 & Hs2 & -> & He2). exists (s1 ++ s2). cbn [fst]. rewrite join_app. split_and!; [by apply sublist_app|done|].
      intros Hst. by rewrite He1, He2.
  - destruct (shutdown_ok c Hi Hn) as (Hi1 & [Hin1 Hrc1] & Hrd1 & Ha1 & Hc1 & Ho1 & Hn1 & _).
    destruct (IH (shutdown true c)) as (c' & out & Hp & Hi' & [Hin' Hrc'] & Hrd' & Ho' & Hn' & Hc' & Ha' & Hh');
      [done|done|rewrite Ha1; lia|]. rewrite Hc1 in *. exists c', out.
    split_and!; try done; [split; congruence|unfold same_reading in *; congruence|by auto|congruence].
Qed.

Lemma say_len l p : len (mjoin (foldl say p l).1) <= len (mjoin p.1) + total l.
Proof.
  revert p. induction l as [|x l IH]; intros p; [cbn; lia|]. cbn [foldl]. rewrite total_cons. pose proof (IH (say p x)) as Hl.
  destruct x as [d|]; cbn [say fst snd said] in *; [|lia]. rewrite join_app, len_app in Hl. pose proof (len_nonneg d).
  destruct p.2; [change (mjoin [d]) with (d ++ []) in Hl; rewrite app_nil_r in Hl; lia|].
  change (len (mjoin [])) with 0 in Hl. lia.
Qed.

Lemma heard_len full out : heard kernel full out -> len out <= len (mjoin full).
Proof.
  intros (spoken & Hs & -> & _). induction Hs as [|x l1 l2 _ IH|x l1 l2 _ IH]; [done|..];
    change (mjoin (x :: l2)) with (x ++ mjoin l2); rewrite len_app; pose proof (len_nonneg x); [|lia].
  change (mjoin (x :: l1)) with (x ++ mjoin l1). rewrite len_app. lia.
Qed.

Lemma total_app l1 l2 : total (l1 ++ l2) = total l1 + total l2.
Proof. induction l1 as [|a l1 IH]; [done|]. cbn [app]. rewrite !total_cons, IH. lia. Qed.

Lemma answer_snoc acts msgs msg : answer acts (msgs ++ [msg]) = foldl say (answer acts msgs) (acts msg).
Proof. unfold answer, utter. rewrite fmap_app, join_app, foldl_app. cbn. by rewrite app_nil_r. Qed.

Lemma answer_app acts msgs msg : answer acts (msgs ++ [msg]) =
  ((answer acts msgs).1 ++ (utter (answer acts msgs).2 (acts msg)).1, (utter (answer acts msgs).2 (acts msg)).2).
Proof.
  rewrite answer_snoc. destruct (answer acts msgs) as [l b]. cbn [fst snd]. unfold utter.
  rewrite <-(app_nil_r l) at 1. exact (say_prefix (acts msg) l ([], b)).
Qed.

(** *** A program that answers *)
Context (greeting : bytes) (acts : bytes -> list act) (Hcost : forall msg, total (acts msg) <= 2 * len msg).
Context (user : call -> t Q -> outcome (t Q)) (Huser : forall k c, user k c = respond kernel greeting acts k c).

Lemma answer_len msgs : len (mjoin (answer acts msgs).1) <= 2 * len (mjoin msgs).
Proof.
  etransitivity; [apply say_len|]. cbn [fst]. change (len (mjoin [])) with 0. induction msgs as [|m msgs IH]; [done|].
  change (mjoin (m :: msgs)) with (m ++ mjoin msgs). change (mjoin (acts <$> m :: msgs)) with (acts m ++ mjoin (acts <$> msgs)).
  rewrite total_app, len_app. pose proof (Hcost m). lia.
Qed.

(** All that should have been said. *)
Definition spoken (msgs : list bytes) (c : t Q) : list bytes :=
  if bool_decide (state_ c = kConnecting) then [] else greeting :: (answer acts msgs).1.

Record talks (msgs : list bytes) (c : t Q) : Prop := {
  tk_inv : inv c;
  tk_input : bq_content (inputBuffer_ c) = [];
  tk_received : received c = mjoin msgs;
  tk_cap : 2 * len (received c) + len greeting <= Buffer.cap;
  tk_said : heard kernel (spoken msgs c) (accepted c);
  tk_new : state_ c = kConnecting -> msgs = [];
  tk_open : open c -> connected c = (answer acts msgs).2 /\ Channel.isReading (channel_ c) = true }.

Lemma spoken_up msgs c : state_ c <> kConnecting -> spoken msgs c = greeting :: (answer acts msgs).1.
Proof. intros Hs. unfold spoken. by rewrite bool_decide_false. Qed.
Lemma spoken_state msgs c c' : (state_ c = kConnecting <-> state_ c' = kConnecting) -> spoken msgs c = spoken msgs c'.
Proof. intros E. unfold spoken. by rewrite (bool_decide_ext _ _ E). Qed.

(** A callback in a state that is down says nothing. *)
Lemma respond_down up c : state_ c = kDisconnected -> respond kernel greeting acts (ConnectionCallback up) c ⇓ c.
Proof. intros Hs. cbn [respond]. unfold send. by rewrite bool_decide_false by congruence. Qed.

Lemma close_talks msgs c : talks msgs c -> open c -> exists c', handleClose user c ⇓ c' /\ talks msgs c' /\ received c' = received c.
Proof.
  intros [Hi Hin Hrc Hcap Hsaid _ _] Ho. destruct (handleClose_keeps user c Hi Ho) as (c' & Hc' & Hi' & Hs' & [H1 H2] & H3).
  { intros c0 Hc0. by rewrite Huser, respond_down. }
  exists c'. split; [done|]. split; [|done]. apply not_connecting in Ho. split; rewrite ?H1, ?H2, ?H3, ?Hs'; try done.
  - rewrite spoken_up in * by congruence. done.
  - intros [?|?]; congruence.
Qed.

Lemma write_talks msgs c : talks msgs c -> exists c', handleWrite (kernel c) c ⇓ c' /\ talks msgs c' /\ received c' = received c.
Proof.
  intros [Hi Hin Hrc Hcap Hsaid Hnew Hopen]. destruct (decide (state_ c = kConnecting)) as [Hs|Hs]; [exists c; by rewrite handleWrite_connecting|].
  destruct (handleWrite_ok (kernel c) c Hi Hs (Hkernel c)) as (c' & Hw & Hi' & Hs' & _). exists c'. split; [done|].
  destruct (handleWrite_keeps _ _ _ (i_events _ Hi) Hw) as ([H1 H2] & H4 & H3).
  split; [|done]. split; rewrite ?H1, ?H2, ?H3, ?Hs'; try done; [by rewrite (spoken_state msgs c' c) by (by rewrite Hs')|].
  unfold open, connected in *. by rewrite Hs', H4.
Qed.

Lemma establish_talks msgs c : talks msgs c -> state_ c = kConnecting ->
  exists c', connectEstablished user c ⇓ c' /\ talks msgs c' /\ received c' = received c.
Proof.
  intros [Hi Hin Hrc Hcap Hsaid Hnew _] Hs. specialize (Hnew Hs). subst msgs.
  assert (accepted c = []) as Hacc.
  { destruct Hsaid as (sp & Hsp & -> & _). unfold spoken in Hsp. rewrite bool_decide_true in Hsp by done. by apply sublist_nil_r in Hsp as ->. }
  pose proof (i_state _ Hi) as Hz. rewrite Hs in Hz. destruct Hz as [Hz _].
  unfold connectEstablished. rewrite bool_decide_true by done. cbn [assert_ mbind outcome_bind].
  unfold invoke. rewrite Huser. cbn [respond]. set (c1 := log_call _ _). pose proof (inv_established c Hi Hs) as Hi1. fold c1 in Hi1.
  destruct (send_ok (kernel c1) c1 greeting) as (c' & Hc' & Hi' & Hs' & [H1 H2] & Hrd & Ha); [done|done|apply Hkernel| |].
  { unfold room. pose proof (output_len c1 Hi1) as Ho. change (accepted c1) with (accepted c) in Ho. rewrite Hacc in Ho. change (len []) with 0 in Ho.
    pose proof (len_nonneg (received c)). lia. }
  exists c'. split; [done|]. split; [|by rewrite H2]. split; rewrite ?H1, ?H2, ?Hs'; try done.
  - rewrite spoken_up by (by rewrite Hs'). change (accepted c1) with (accepted c) in Ha. rewrite Hacc in Ha. destruct Ha as [-> |(-> & _ & Hr)].
    + exists [greeting]. split_and!; [done|cbn; by rewrite app_nil_r|done].
    + exists []. split_and!; [apply sublist_nil_l|done|]. intros Hst. by destruct (Hr (Hst c1)).
  - intros _. unfold connected. rewrite Hs', Hrd. split; [done|]. cbn. unfold Channel.isReading. cbn. by rewrite Hz.
Qed.

Lemma destroy_talks msgs c : talks msgs c -> state_ c = kDisconnected \/ state_ c = kConnected ->
  exists c', connectDestroyed user c ⇓ c' /\ talks msgs c' /\ received c' = received c.
Proof.
  intros [Hi Hin Hrc Hcap Hsaid _ _] Hs. destruct (connectDestroyed_keeps user c Hi Hs) as (c' & Hc' & Hi' & Hs' & [H1 H2] & H3).
  { intros c0 Hc0. by rewrite Huser, respond_down. }
  exists c'. split; [done|]. split; [|done]. split; rewrite ?H1, ?H2, ?H3, ?Hs'; try done.
  - rewrite spoken_up in * by (destruct Hs; congruence). done.
  - intros [?|?]; congruence.
Qed.

(** The program never stops reading, so [Channel::remove] fails. *)
Lemma destroy_aborts msgs c : talks msgs c -> state_ c = kDisconnecting -> connectDestroyed user c = Fault AssertFailure.
Proof.
  intros Ht Hs. rewrite connectDestroyed_disconnecting by done. destruct (tk_open _ _ Ht (or_intror Hs)) as [_ Hr].
  by rewrite (reading_some _ Hr).
Qed.

(** All of the input is taken from the buffer. *)
Lemma inv_taken c : inv c -> inv (set_buffers (bq_retrieveAll (inputBuffer_ c)) (outputBuffer_ c) c).
Proof.
  intros [Hin ? ? [consumed Hr] ? ? ? ? ?]. destruct (bq_retrieveAll_ok (inputBuffer_ c) Hin) as [Hwf He]. constructor; cbn; try done.
  exists (received c). by rewrite He, app_nil_r.
Qed.

(** The message is answered. *)
Lemma message_talks msgs c data inb : talks msgs c -> open c -> data <> [] -> 2 * len (received c ++ data) + len greeting <= Buffer.cap ->
  bq_wf inb -> bq_content inb = data ->
  exists c', invoke user MessageCallback (set_history (accepted c) (wire c) (received c ++ data) (fin c) (set_buffers inb (outputBuffer_ c) c)) ⇓ c' /\
    talks (msgs ++ [data]) c' /\ received c' = received c ++ data.
Proof.
  intros [Hi Hin Hrc Hcap Hsaid Hnew Hopen] Ho Hd Hroom Hwf Hc. pose proof (not_connecting _ Ho) as Hn.
  assert (inv (set_history (accepted c) (wire c) (received c ++ data) (fin c) (set_buffers inb (outputBuffer_ c) c))) as Hi1 by (apply inv_read; [done..|by rewrite Hin]).
  unfold invoke. rewrite Huser. cbn [respond]. set (c1 := set_history _ _ _ _ _) in *.
  set (c2 := set_buffers _ _ _). assert (inv c2) as Hi2 by (apply (inv_taken (log_call MessageCallback c1)), inv_log_other; done).
  rewrite spoken_up in Hsaid by done.
  change (bq_content (inputBuffer_ (log_call MessageCallback c1))) with (bq_content inb). rewrite Hc.
  destruct (perform_ok (acts data) c2) as (c' & out & Hp & Hi' & [H1 H2] & Hrd' & Ho' & Hn' & Hc' & Ha' & Hh'); [done|done| |].
  { apply heard_len in Hsaid. change (mjoin (greeting :: (answer acts msgs).1)) with (greeting ++ mjoin (answer acts msgs).1) in Hsaid.
    pose proof (answer_len msgs) as Hl. rewrite <-Hrc in Hl. rewrite len_app in Hroom, Hsaid. pose proof (Hcost data).
    change (accepted c2) with (accepted c). lia. }
  exists c'. split; [done|]. split; [|done]. destruct (Hopen Ho) as [Hop Hrd]. change (connected c2) with (connected c) in *. rewrite Hop in *.
  split; rewrite ?H1, ?H2; try done.
  - cbn. by apply bq_retrieveAll_ok.
  - cbn. rewrite Hrc, join_app. f_equal. symmetry. apply app_nil_r.
  - rewrite spoken_up, answer_app by done. destruct Hsaid as (s1 & Hs1 & He1 & Hst1), Hh' as (s2 & Hs2 & -> & Hst2).
    exists (s1 ++ s2). cbn [fst]. rewrite join_app. split_and!.
    + by apply (sublist_app _ (greeting :: _)).
    + rewrite Ha', <-He1. done.
    + intros Hst. by rewrite Hst1, Hst2.
  - intros Hop'. rewrite Hc', answer_app, Hrd'. split; [done|]. exact Hrd.
Qed.

Lemma read_talks msgs c readv : talks msgs c -> enabled greeting c (Readable readv) ->
  exists c', handleRead user readv c ⇓ c' /\ talks (msgs ++ delivered c c') c'.
Proof.
  intros Ht (Hrd & [Hok Hroom] & Hcap). pose proof Ht as [Hi Hin Hrc _ Hsaid Hnew Hopen]. pose proof (reading_open _ Hi Hrd) as Ho. unfold handleRead.
  destruct (bq_readFd_ok readv (inputBuffer_ c)) as (iov & _ & Hr); [apply Hi|done|].
  assert (forall c', received c' = received c -> delivered c c' = []) as Hnone by (intros c' E; unfold delivered; by rewrite E, drop_all).
  destruct (readv iov) as [errno|data] eqn:Hd.
  - rewrite Hr. cbn. rewrite drop_all. eexists. split; [done|]. rewrite Hnone by (cbn; by rewrite app_nil_r). rewrite app_nil_r.
    destruct Ht as [? ? ? ? ? ? ?]. assert (forall b, set_history (accepted c) (wire c) (received c ++ []) (fin c) (set_buffers (inputBuffer_ c) b c) = set_buffers (inputBuffer_ c) b c) as -> by (intros b; unfold set_history; cbn; by rewrite app_nil_r).
    by destruct c.
  - destruct Hr as (inb & -> & Hwf & Hc); [by eapply Hroom|]. cbn [mbind outcome_bind]. rewrite Hc, drop_app_length. rewrite Hin in Hc. cbn in Hc.
    destruct (decide (data = [])) as [->|Hne].
    + change (bool_decide (0 < len [])) with false. cbn [len]. cbv iota. change (bool_decide (len [] = 0)) with true. cbv iota.
      destruct (close_talks msgs (set_history (accepted c) (wire c) (received c ++ []) (fin c) (set_buffers inb (outputBuffer_ c) c))) as (c' & Hc' & Ht' & Hrc').
      * split; cbn; rewrite ?app_nil_r; try done; [|apply Ht]. rewrite <-(app_nil_r (received c)). apply inv_read; [done..|]. by rewrite Hin.
      * done.
      * exists c'. split; [done|]. rewrite Hnone by (rewrite Hrc'; cbn; apply app_nil_r). by rewrite app_nil_r.
    + assert (0 < len data) as Hpos by (destruct data; [done|unfold len; cbn; lia]). rewrite bool_decide_true by done.
      destruct (message_talks msgs c data inb) as (c' & Hc' & Ht' & Hrc'); [done|done|done|by eapply Hcap|done|done|]. exists c'. split; [done|].
      unfold delivered. rewrite Hrc', drop_app_length. by destruct data.
Qed.

Lemma react_talks msgs c ev : talks msgs c -> enabled greeting c ev ->
  exists c', react kernel user c ev ⇓ c' /\ talks (msgs ++ delivered c c') c'.
Proof.
  intros Ht He. assert (forall c', received c' = received c -> msgs ++ delivered c c' = msgs) as Hnone.
  { intros c' E. unfold delivered. by rewrite E, drop_all, app_nil_r. }
  destruct ev as [|readv| | |]; cbn [react enabled] in *; [..|by apply read_talks| | |].
  - destruct (establish_talks msgs c Ht He) as (c' & Hc' & Ht' & Hr'). exists c'. by rewrite Hnone.
  - destruct (write_talks msgs c Ht) as (c' & Hc' & Ht' & Hr'). exists c'. by rewrite Hnone.
  - destruct (close_talks msgs c Ht) as (c' & Hc' & Ht' & Hr'); [by apply events_open; [apply Ht|]|]. exists c'. by rewrite Hnone.
  - destruct (destroy_talks msgs c Ht He) as (c' & Hc' & Ht' & Hr'). exists c'. by rewrite Hnone.
Qed.

Lemma runs_talks msgs c : runs kernel greeting user msgs c -> talks msgs c.
Proof.
  induction 1 as [fd hwm inb outb Hh Hwf Hin Hwf' Hout Hcap|msgs c ev c' _ IH He Hr].
  - split; try done; [|by exists []|by intros [?|?]]. apply inv_initial. by exists fd, false, false, hwm, inb, outb.
  - destruct (react_talks msgs c ev IH He) as (c2 & Hc2 & Ht). rewrite Hr in Hc2. by injection Hc2 as <-.
Qed.
End facts.
End EchoFacts.

(** ** Properties *)
Module EchoTheorems.
Import TcpConnection TcpConnectionSpec TcpConnectionFacts Responder EchoFacts.

Lemma server_user {Q} `{ByteQueue Q} kernel k (c : t Q) :
  EchoServer.user kernel k c = respond kernel (line "hello") server_acts k c.
Proof.
  destruct k; try done. cbn [EchoServer.user respond]. unfold EchoServer.onMessage, server_acts. set (msg := bq_content _). set (c1 := set_buffers _ _ _).
  destruct (bool_decide (msg = line "exit")); cbn [app perform].
  - destruct (send true (kernel c1) c1 (line "bye")) as [c2|]; [|done]. cbn [mbind outcome_bind mret outcome_ret]. by destruct (send true _ _ msg).
  - cbn [mbind outcome_bind mret outcome_ret]. by destruct (send true _ _ msg).
Qed.

Lemma client_user {Q} `{ByteQueue Q} kernel k (c : t Q) :
  EchoClient.user kernel k c = respond kernel (line "world") client_acts k c.
Proof.
  destruct k; try done. cbn [EchoClient.user respond]. unfold EchoClient.onMessage, client_acts. set (msg := bq_content _). set (c1 := set_buffers _ _ _).
  destruct (bool_decide (msg = line "quit")); [|destruct (bool_decide (msg = line "shutdown"))]; cbn [perform].
  - by destruct (send true (kernel c1) c1 (line "bye")).
  - done.
  - by destruct (send true _ _ msg).
Qed.

Lemma server_cost msg : total (server_acts msg) <= 2 * len msg.
Proof.
  unfold server_acts, total. pose proof (len_nonneg msg). case_bool_decide as Hm; cbn [app fmap list_fmap foldr said]; [rewrite Hm; by vm_compute|lia].
Qed.
Lemma client_cost msg : total (client_acts msg) <= 2 * len msg.
Proof.
  unfold client_acts, total. pose proof (len_nonneg msg). case_bool_decide as Hm; [rewrite Hm; by vm_compute|]. case_bool_decide; cbn [fmap list_fmap foldr said]; lia.
Qed.

(** What a program may say of its connection after the messages [msgs]. *)
Definition says {Q} `{ByteQueue Q} (kernel : t Q -> write_t) (greeting : bytes) (acts : bytes -> list act) (msgs : list bytes) (c : t Q) : Prop :=
  received c = mjoin msgs /\ bq_content (inputBuffer_ c) = [] /\
  heard kernel (if bool_decide (state_ c = kConnecting) then [] else greeting :: (answer acts msgs).1)
    (wire c ++ bq_content (outputBuffer_ c)) /\
  (state_ c = kConnected -> (answer acts msgs).2 = true) /\ (state_ c = kDisconnecting -> (answer acts msgs).2 = false).

Lemma talks_says {Q} `{ByteQueue Q} kernel greeting acts msgs (c : t Q) : talks kernel greeting acts msgs c -> says kernel greeting acts msgs c.
Proof.
  intros [Hi Hin Hrc _ Hsaid _ Hopen]. split_and!; [done|done|by rewrite <-(i_stream _ Hi)| |].
  - intros Hs. rewrite <-(proj1 (Hopen (or_introl Hs))). unfold connected. by rewrite bool_decide_true.
  - intros Hs. rewrite <-(proj1 (Hopen (or_intror Hs))). unfold connected. rewrite bool_decide_false; congruence.
Qed.


(** A socket that takes one byte at a time, a client that sends a line and then
    [exit]. *)
Definition slow : t Buffer.t -> write_t := fun _ d => inr (Z.min 1 (len d)).
Definition gives (data : bytes) : Buffer.readv_t := fun iov => inr (take (Z.to_nat (foldr Z.add 0 iov)) data).
Definition after (c : t Buffer.t) (ev : event) : t Buffer.t :=
  match react slow (EchoServer.user slow) c ev with Done c' => c' | Fault _ => c end.
Definition conn0 : t Buffer.t := init 7 false false 67108864 TcpConnectionTheorems.empty_buffer TcpConnectionTheorems.empty_buffer.
Definition conn1 : t Buffer.t := after conn0 Established.
Definition conn2 : t Buffer.t := after conn1 (Readable (gives (line "ping"))).
Definition conn3 : t Buffer.t := after conn2 Writable.
Definition conn4 : t Buffer.t := after conn3 (Readable (gives (line "exit"))).

Lemma slow_ok : kernel_ok slow.
Proof. intros c d n [= <-]. pose proof (len_nonneg d). lia. Qed.

Lemma gives_enabled c data : Channel.isReading (channel_ c) = true -> 2 * (len (received c) + len data) + 6 <= Buffer.cap ->
  len (bq_content (inputBuffer_ c)) + len data <= Buffer.cap -> enabled (line "hello") c (Readable (gives data)).
Proof.
  intros Hr H1 H2. assert (forall iov d, gives data iov = inr d -> len d <= len data) as Hlen.
  { intros iov d [= <-]. unfold len. rewrite length_take. lia. }
  split; [done|]. split; [split|].
  - intros iov d Hn [= <-]. unfold len. rewrite length_take. assert (0 <= foldr Z.add 0 iov) by (induction Hn; cbn; lia). lia.
  - intros iov d Hd%Hlen. lia.
  - intros iov d Hd%Hlen. rewrite len_app. change (len (line "hello")) with 6. lia.
Qed.


(** The echo client says [world] first, echoes, stops at [quit] and does not
    echo [shutdown]. *)
Theorem echo_client_echoes {Q} `{ByteQueue Q} kernel msgs (c : t Q) : kernel_ok kernel ->
  runs kernel (line "world") (EchoClient.user kernel) msgs c ->
  says kernel (line "world") client_acts msgs c /\
  forall ev, enabled (line "world") c ev -> exists c', react kernel (EchoClient.user kernel) c ev ⇓ c'.
Proof.
  intros Hk Hr. pose proof (runs_talks kernel Hk _ _ client_cost _ (client_user kernel) _ _ Hr) as Ht. split; [by apply talks_says|].
  intros ev He. destruct (react_talks kernel Hk _ _ client_cost _ (client_user kernel) _ _ ev Ht He) as (c' & Hc' & _). by exists c'.
Qed.

(** The clients connect one after the other: when [k] connections have come up,
    the clients asked to connect since [main] asked the first are those from
    number [1] on, one for each, as many as there are. *)
Definition asked (n : Z) (p : Z * list Z) (_ : unit) : outcome (Z * list Z) :=
  '(current, next) ← EchoClient.next_client true n p.1;
  mret (current, p.2 ++ option_list next).
Theorem clients_connect_in_turn n k : 0 < n < two_31 -> Z.of_nat k < two_31 ->
  run_all (asked n) (0, []) (replicate k tt) ⇓ (Z.of_nat k, seqZ 1 (Z.min (Z.of_nat k) (n - 1))).
Proof.
  intros Hn. induction k as [|k IH]; intros Hk; [by rewrite Z.min_l by lia|].
  rewrite replicate_S_end, run_all_app, IH by lia. cbn [mbind outcome_bind run_all]. unfold asked, EchoClient.next_client. cbn [fst snd].
  rewrite checked32_ok by (unfold int32_range, two_31 in *; lia). cbn [mbind outcome_bind mret outcome_ret]. rewrite u64_small by (unfold two_31, two_64 in *; lia).
  replace (Z.of_nat k + 1) with (Z.of_nat (S k)) by lia. case_bool_decide; cbn [option_list]; unfold mret, outcome_ret; do 2 f_equal.
  - rewrite !Z.min_l by lia. rewrite seqZ_S. by replace (1 + Z.of_nat k) with (Z.of_nat (S k)) by lia.
  - cbn [option_list]. rewrite app_nil_r. f_equal. lia.
Qed.
End EchoTheorems.
