(* ===== verification/HttpSessions.v ===== *)
(** * HttpSessions: requests and their responses on one connection

    Composes the handlers of the web server ([HttpServer], from
    [src/web_server/Server.cc]) with a connection ([TcpConnections]) on its
    buffers ([NetBuffer]).  The parse context, which the server keeps in the
    [std::any] of the connection, is carried with the input buffer; the idle
    timer ([TimeWheels], [ThreadedServers] say when it runs out) may shut the
    connection down between any two events.  The theorem follows a sequence of
    requests from the socket to the bytes of their responses. *)
From S2P Require Import Prelude NetBuffer Channels TcpConnections Conversations Timestamps LogStreams HttpServer Clients Servers Addresses SmallFiles EchoPrograms.

Local Open Scope Z_scope.
Local Open Scope muduo_scope.

(** ** The input buffer with the context *)
Module ContextQueue.
Abbreviation t := (Buffer.t * ContextParse.t)%type.

Global Program Instance context_queue : ByteQueue t := {
  bq_wf q := Buffer.wf q.1;
  bq_content q := Buffer.content q.1;
  bq_readable q := Buffer.readableBytes q.1;
  bq_append q d := b ← Buffer.append q.1 d; mret (b, q.2);
  bq_retrieve q n := b ← Buffer.retrieve q.1 n; mret (b, q.2);
  bq_retrieveAll q := (Buffer.retrieveAll q.1, q.2);
  bq_readFd readv q := r ← Buffer.readFd readv q.1; mret (r.1, (r.2, q.2))
}.
Next Obligation. intros q. exact (BufferFacts.readable_content q.1). Qed.
Next Obligation.
  intros [b x] d Hwf Hcap. destruct (BufferFacts.append_spec b d Hwf Hcap) as (b' & Hb & Hwf' & Hc). cbn in *. rewrite Hb. by exists (b', x).
Qed.
Next Obligation.
  intros [b x] n Hwf Hn. destruct (BufferFacts.retrieve_spec b n Hwf Hn) as (b' & Hb & Hwf' & Hc). cbn in *. rewrite Hb. by exists (b', x).
Qed.
Next Obligation. intros [b x] Hwf. exact (BufferFacts.retrieveAll_spec b Hwf). Qed.
Next Obligation.
  intros readv [b x] Hwf Hok. destruct (@bq_readFd_ok Buffer.t BufferTheorems.Buffer_ByteQueue readv b Hwf Hok) as (iov & Hiov & Hr). exists iov. split; [done|]. cbn in *.
  destruct (readv iov) as [e|data]; [by rewrite Hr|]. intros Hcap. destruct (Hr Hcap) as (b' & -> & Hwf' & Hc). by exists (b', x).
Qed.
End ContextQueue.

(** ** The server's handlers on a connection *)
Module HttpSession.
Import TcpConnection.
Abbreviation conn := (TcpConnection.t ContextQueue.t).

Section session.
Context (kernel : conn -> write_t) (http_callback_ : Request.t -> Response.t -> Response.t).
Context (order : headers -> list (bytes * bytes)) (fresh : Buffer.t) (use_timer_ : bool) (alive : conn -> bool) (clock : conn -> Timestamp.t).

(** What a handler does to its connection.  Touching the timer wheel changes
    nothing of it: it only puts off [idle_shutdown]. *)
Definition asks (fx : list Server.effect) : list Responder.act :=
  omap (fun f => match f with
                 | Server.Send d => Some (Responder.Say d)
                 | Server.Shutdown => Some Responder.HangUp
                 | Server.TouchTimer => None
                 end) fx.

(** [~TimeWheelEntry], of a connection that is served in the loop of the wheel. *)
Definition idle_shutdown (c : conn) : conn := shutdown true c.

Definition setContext (x : ContextParse.t) (c : conn) : conn := set_buffers ((inputBuffer_ c).1, x) (outputBuffer_ c) c.

Definition onConnection (c : conn) : outcome conn := mret (if connected c then setContext ContextParse.init c else c).

Definition onMessage (c : conn) : outcome conn :=
  let '(buf, context) := inputBuffer_ c in
  r ← Server.onMessage (HttpSpec.enough (Buffer.content buf)) http_callback_ order fresh use_timer_ (alive c) (clock c) context buf;
  match r with
  | None => Fault Undefined
  | Some (context, buf, fx) => Responder.perform kernel (asks fx) (set_buffers (buf, context) (outputBuffer_ c) c)
  end.

Definition user (k : call) (c : conn) : outcome conn :=
  match k with
  | ConnectionCallback _ => onConnection c
  | MessageCallback => onMessage c
  | _ => mret c
  end.
End session.
End HttpSession.

(** ** Specification: a connection on which requests arrive *)
Module SessionSpec.
Import TcpConnection TcpConnectionSpec Responder HttpSession HttpSpec.

Record request : Type := mk_request {
  rq_m : Request.Method; rq_path_ : bytes; rq_query_ : bytes; rq_v : Request.Version; rq_hs : list (bytes * bytes) }.
Definition well_formed (q : request) : Prop := request_ok (rq_m q) (rq_path_ q) (rq_query_ q) (rq_v q) (rq_hs q).
Definition text_of (q : request) : bytes := print_request (rq_m q) (rq_path_ q) (rq_query_ q) (rq_v q) (rq_hs q).
Definition texts (l : list request) : bytes := concat (text_of <$> l).

Section responses.
Context (http_callback : Request.t -> Response.t -> Response.t) (order : headers -> list (bytes * bytes)).

Definition request_at (q : request) (time : Timestamp.t) : Request.t :=
  Request.mk (rq_m q) (rq_v q) (rq_path_ q) (rq_query_ q) time (header_map (rq_hs q)).
Definition response_at (q : request) (time : Timestamp.t) : Response.t :=
  http_callback (request_at q time) (Response.init (Server.is_short_link (request_at q time))).
Definition headers_at (q : request) (time : Timestamp.t) : list (bytes * bytes) := order (Response.headers_ (response_at q time)).

(** The text of the response to the request, received at [time]. *)
Definition answer_at (q : request) (time : Timestamp.t) (text : bytes) : Prop :=
  exists code size, text = response_text code size (headers_at q time) (response_at q time) /\
    DecimalSpec.read code = Some (Response.status_code_ (response_at q time)) /\
    DecimalSpec.read size = Some (len (Response.body_ (response_at q time))).
(** What goes out of a response: all of it, or, when the write may find the
    connection reset, perhaps nothing. *)
Definition sent (kernel : conn -> write_t) (text out : bytes) : Prop := out = text \/ out = [] /\ ~ steady kernel.
(** The response keeps the connection open, or not. *)
Definition answers (kernel : conn -> write_t) (open_after : bool) (q : request) (out : bytes) : Prop :=
  exists time text, answer_at q time text /\ sent kernel text out /\
    open_after = negb (Response.close_connection_ (response_at q time)).

(** The callback's responses can be printed, in at most [size] bytes. *)
Definition printable (size : Z) (q : request) : Prop := forall time,
  0 <= Response.status_code_ (response_at q time) < 10 ^ 9 /\ len (Response.body_ (response_at q time)) < 10 ^ 12 /\
  len (Response.status_message_ (response_at q time)) + len (concat (print_header <$> headers_at q time)) +
    len (Response.body_ (response_at q time)) + 100 <= size.
End responses.

Section spec.
Context (kernel : conn -> write_t) (user : call -> conn -> outcome conn).

(** What can happen: an event of the socket or the owner, or the idle timer. *)
Inductive happening : Type := Conn (ev : event) | IdleShutdown.
Definition undergo (c : conn) (h : happening) : outcome conn :=
  match h with Conn ev => react kernel user c ev | IdleShutdown => mret (idle_shutdown c) end.

(** [input]: all that the client has sent, and is about to. *)
Definition enabled (use_timer : bool) (input : bytes) (c : conn) (h : happening) : Prop :=
  match h with
  | Conn Established => state_ c = kConnecting
  | Conn (Readable readv) => Channel.isReading (channel_ c) = true /\ read_ok readv c /\
      forall iov data, readv iov = inr data -> received c ++ data `prefix_of` input
  | Conn Writable => True
  | Conn HungUp => Channel.isNoneEvent (channel_ c) = false
  | Conn Destroyed => state_ c = kDisconnected \/ state_ c = kConnected
  | IdleShutdown => use_timer = true /\ state_ c <> kConnecting
  end.

(** Has the idle timer run out, and if so, before the last request was complete? *)
Inductive idleness : Type := Active | ExpiredBefore | ExpiredAfter.
Global Instance idleness_eq_dec : EqDecision idleness.
Proof. solve_decision. Defined.
Definition expires (input : bytes) (c : conn) (h : happening) (i : idleness) : idleness :=
  match h, i with
  | IdleShutdown, Active => if decide (received c = input) then ExpiredAfter else ExpiredBefore
  | _, _ => i
  end.

(** A client that sends [q] after the requests [before], which the server has
    read. *)
Inductive runs (use_timer : bool) : list request -> request -> idleness -> conn -> Prop :=
  | runs_init q fd hwm inb outb : 0 <= hwm -> bq_wf inb -> bq_content inb = [] -> bq_wf outb -> bq_content outb = [] ->
      runs use_timer [] q Active (init fd false false hwm inb outb)
  | runs_step before q i c h c' : runs use_timer before q i c -> enabled use_timer (texts (before ++ [q])) c h -> undergo c h ⇓ c' ->
      runs use_timer before q (expires (texts (before ++ [q])) c h i) c'
  | runs_next before q i c q' : runs use_timer before q i c -> received c = texts (before ++ [q]) -> connected c = true ->
      runs use_timer (before ++ [q]) q' Active c.
End spec.
End SessionSpec.

(** ** Lemmas *)
Module SessionFacts.
Import TcpConnection TcpConnectionSpec TcpConnectionFacts Responder EchoFacts HttpSession SessionSpec.
Import HttpSpec HttpFacts.

(** The next piece of a request that parses as a whole. *)
Lemma parse_piece time (x : ContextParse.t) s d rem (full : ContextParse.t) : settled x s -> ContextParse.gotAll full = true ->
  parse_all 0 (forget x) (s ++ d ++ rem) ⇓ Some (full, [], true) ->
  exists x1 s1, parse_all time x (s ++ d) ⇓ Some (x1, s1, true) /\
    if ContextParse.gotAll x1 then rem = [] /\ s1 = [] /\ forget x1 = full
    else rem <> [] /\ settled x1 s1 /\ parse_all 0 (forget x1) (s1 ++ rem) ⇓ Some (full, [], true).
Proof.
  intros (Hg & Hb & Hs) Hfull Hp. rewrite app_assoc in Hp. pose proof (parse_all_forget time x (s ++ d)) as Hf.
  destruct (parse_all time x (s ++ d)) as [[[[x1 s1] ok]|]|e] eqn:Ht; cbn in Hf.
  - rewrite (parse_all_app 0 _ rem (forget x) _ _ _ Hg Hb Hf) in Hp. destruct ok; [|done]. exists x1, s1. split; [done|].
    change (ContextParse.gotAll (forget x1)) with (ContextParse.gotAll x1) in Hp. destruct (ContextParse.gotAll x1) eqn:Hall.
    + injection Hp as -> [-> ->]%app_eq_nil. done.
    + assert (settled x1 s1) as Hset by (by eapply settled_result). split_and!; [|done|done]. intros ->.
      rewrite app_nil_r, parse_all_round in Hp by apply Hset. destruct Hset as (_ & _ & Hr). rewrite Hr in Hp. cbn in Hp.
      injection Hp as <- _. change (ContextParse.gotAll (forget x1)) with (ContextParse.gotAll x1) in Hfull. congruence.
  - exfalso. revert Ht. apply parse_terminates; [done|unfold enough; lia].
  - by rewrite (parse_all_app_fault 0 _ _ _ (forget x) Hg Hb Hf) in Hp.
Qed.

(** The parser only takes bytes from the front. *)
Lemma round_suffix time x s x' s' ok more : round time x s ⇓ (x', s', ok, more) -> s' `suffix_of` s.
Proof.
  unfold round, mret, outcome_ret. intros Hr. repeat (case_match; simplify_eq/=; try done; try apply suffix_drop).
  - destruct (ContextParse.processRequestLine _ _) as [[r []]|]; simplify_eq/=; [apply suffix_drop|done].
Qed.

Lemma parse_suffix fuel time x s x' s' ok : parse fuel time x s ⇓ Some (x', s', ok) -> s' `suffix_of` s.
Proof.
  revert x s. induction fuel as [|fuel IH]; intros x s; [done|]. cbn [parse].
  destruct (round time x s) as [[[[x1 s1] ok1] []]|] eqn:Hr; [| |done]; apply round_suffix in Hr; cbn [mbind outcome_bind mret outcome_ret].
  - intros Hp%IH. by etrans.
  - by intros [= _ <- _].
Qed.

(** User code has taken some of the input. *)
Lemma inv_input (c : conn) q : inv c -> bq_wf q -> (exists consumed, received c = consumed ++ bq_content q) ->
  inv (set_buffers q (outputBuffer_ c) c).
Proof. intros [? ? ? _ ? ? ? ? ?] Hwf Hq. by constructor. Qed.

Lemma readFd_context readv (q : ContextQueue.t) n e q' : bq_readFd readv q ⇓ (n, e, q') -> q'.2 = q.2.
Proof. cbn. destruct (Buffer.readFd readv q.1) as [r|]; [|done]. by intros [= _ <-]. Qed.

Section serving.
Context (kernel : conn -> write_t) (Hkernel : kernel_ok kernel) (http_callback_ : Request.t -> Response.t -> Response.t).
Context (order : headers -> list (bytes * bytes)) (fresh : Buffer.t) (use_timer_ : bool) (alive : conn -> bool) (clock : conn -> Timestamp.t).
Context (q : request) (Hok : well_formed q) (before said : bytes).
Abbreviation user := (HttpSession.user kernel http_callback_ order fresh use_timer_ alive clock).

Context (size : Z) (Hprint : printable http_callback_ order size q) (Hfit : len said + size <= Buffer.cap).
Context (Hfw : Buffer.wf fresh) (Hfc : Buffer.content fresh = []).
Definition target : bytes := before ++ text_of q.

Definition full : ContextParse.t := ContextParse.mk ContextParse.GotAll (request_at q 0).
Definition rest (c : conn) : bytes := drop (length (received c)) target.

Record serves (i : idleness) (c : conn) : Prop := {
  sv_inv : inv c;
  sv_received : received c `prefix_of` target;
  sv_new : state_ c = kConnecting -> received c = [] /\ before = [] /\ bq_content (inputBuffer_ c) = [] /\ i = Active;
  sv_reading : open c -> Channel.isReading (channel_ c) = true;
  sv_waiting : received c <> target -> accepted c = said /\ i <> ExpiredAfter /\
    (open c -> connected c = bool_decide (i = Active) /\ settled (inputBuffer_ c).2 (bq_content (inputBuffer_ c)) /\
       parse_all 0 (forget (inputBuffer_ c).2) (bq_content (inputBuffer_ c) ++ rest c) ⇓ Some (full, [], true));
  sv_answered : received c = target -> exists time text out, accepted c = said ++ out /\ answer_at http_callback_ order q time text /\
    (if decide (i = ExpiredBefore) then out = [] else sent kernel text out) /\
    len out <= size /\ (open c -> connected c = bool_decide (i = Active) && negb (Response.close_connection_ (response_at http_callback_ q time))) /\
    bq_content (inputBuffer_ c) = [] /\ (inputBuffer_ c).2 = ContextParse.init }.

Lemma text_nonempty : text_of q <> [].
Proof. unfold text_of, print_request. intros He%(f_equal length). rewrite !length_app in He. cbn in He. lia. Qed.

Lemma before_not_target : before <> target.
Proof. unfold target. intros He. rewrite <-(app_nil_r before) in He at 1. apply app_inv_head in He. by destruct text_nonempty. Qed.

Lemma full_parse : parse_all 0 ContextParse.init (text_of q) ⇓ Some (full, [], true).
Proof. rewrite <-(app_nil_r (text_of q)). by apply parse_request_text. Qed.

(** Only the connection's state, its input and what it accepted matter. *)
Lemma serves_same i c c' : serves i c -> inv c' -> same_input c c' -> accepted c' = accepted c ->
  (state_ c' = state_ c /\ same_reading c c' \/ state_ c' = kDisconnected) -> serves i c'.
Proof.
  intros [Hi Hrc Hnew Hrd Hw Ha] Hi' [H1 H2] H3 Hs.
  assert (open c' -> open c /\ connected c' = connected c /\ same_reading c c') as Hop.
  { unfold open, connected. destruct Hs as [[-> ?]| ->]; [done|]. by intros []. }
  unfold rest in *. split; unfold rest; rewrite ?H1, ?H2, ?H3; try done.
  - intros Hc. apply Hnew. destruct Hs as [[]|]; congruence.
  - intros (Ho & _ & ->)%Hop. by apply Hrd.
  - intros Hne. destruct (Hw Hne) as (Hacc & Hnd & Hcon). split_and!; [done..|]. intros (Ho & -> & _)%Hop. by apply Hcon.
  - intros He. destruct (Ha He) as (time & text & out & Hacc & Htext & Hsent & Hl & Ho & Hc & Hx). exists time, text, out.
    split_and!; try done. intros (Hoc & -> & _)%Hop. by apply Ho.
Qed.

(** The idle timer runs out. *)
Lemma idle_serves i c : serves i c -> state_ c <> kConnecting -> serves (expires target c IdleShutdown i) (idle_shutdown c).
Proof.
  intros [Hi Hrc Hnew Hrd Hw Ha] Hn. unfold idle_shutdown.
  destruct (shutdown_ok c Hi Hn) as (Hi1 & [H1 H2] & Hr1 & Ha1 & Hc1 & Ho1 & Hn1 & Hd1). unfold same_reading in Hr1.
  assert (open (shutdown true c) -> open c) as Hop.
  { intros Ho. unfold shutdown in Ho. case_bool_decide as Hs; [by left|done]. }
  unfold rest in *. split; unfold rest; rewrite ?H1, ?H2, ?Ha1, ?Hr1, ?Hc1; try done; [by auto|..].
  - intros Hne. destruct (Hw Hne) as (Hacc & Hnd & Hcon). cbn [expires]. rewrite decide_False by done.
    split_and!; [done|by destruct i|]. intros Ho%Hop. destruct (Hcon Ho) as (_ & Hset & Hp). split_and!; [by destruct i|done..].
  - intros He. destruct (Ha He) as (time & text & out & Hacc & Htext & Hsent & Hl & Ho & Hc & Hx). exists time, text, out.
    assert (expires target c IdleShutdown i = match i with Active => ExpiredAfter | _ => i end) as -> by (destruct i; cbn; by rewrite ?decide_True).
    split_and!; try done; by destruct i.
Qed.

(** What [Server::onMessage] does with the parse of the buffer. *)
Lemma onMessage_parsed c x1 s1 : Buffer.wf (inputBuffer_ c).1 -> ContextParse.state_ (inputBuffer_ c).2 <> ContextParse.GotAll ->
  parse_all (clock c) (inputBuffer_ c).2 (bq_content (inputBuffer_ c)) ⇓ Some (x1, s1, true) ->
  exists b1, Buffer.wf b1 /\ Buffer.content b1 = s1 /\
    HttpSession.onMessage kernel http_callback_ order fresh use_timer_ alive clock c =
      (if ContextParse.gotAll x1 then
         fx ← Server.onRequest http_callback_ order fresh use_timer_ (alive c) (ContextParse.request_ x1);
         perform kernel (asks fx) (set_buffers (b1, ContextParse.init) (outputBuffer_ c) c)
       else mret (set_buffers (b1, x1) (outputBuffer_ c) c)).
Proof.
  intros Hwf Hng Hp.
  unfold HttpSession.onMessage. destruct (inputBuffer_ c) as [b x]. cbn [fst snd] in *. change (bq_content (b, x)) with (Buffer.content b) in Hp.
  pose proof (HttpTheorems.parseRequest_all (clock c) (enough (Buffer.content b)) x b Hwf Hng ltac:(unfold enough; lia)) as Hr.
  rewrite Hp in Hr. destruct Hr as (b1 & Hr & Hwf1 & Hc1). exists b1. split_and!; [done..|].
  unfold Server.onMessage. rewrite Hr. cbn [mbind outcome_bind]. destruct (ContextParse.gotAll x1); [|done].
  by destruct (Server.onRequest _ _ _ _ _ _).
Qed.

(** [Server::onRequest]: the response is sent as one block. *)
Lemma onRequest_says b time : exists text, answer_at http_callback_ order q time text /\ len text <= size /\
  asks <$> Server.onRequest http_callback_ order fresh use_timer_ b (request_at q time) ⇓
    (Say text :: if Response.close_connection_ (response_at http_callback_ q time) then [HangUp] else []).
Proof.
  destruct (Hprint time) as (Hcode & Hbody & Hcap). pose proof (len_nonneg said).
  destruct (appendToBuffer_text (headers_at http_callback_ order q time) (response_at http_callback_ q time) fresh Hfw Hcode Hbody)
    as (code & sz & out & Hout & _ & Hr1 & Hr2 & Hc & Hl); [rewrite Hfc; change (len (@nil char)) with 0; lia|].
  exists (response_text code sz (headers_at http_callback_ order q time) (response_at http_callback_ q time)). split_and!; [by exists code, sz|lia|].
  unfold Server.onRequest. fold (response_at http_callback_ q time). fold (headers_at http_callback_ order q time).
  rewrite Hout. cbn [mbind outcome_bind]. rewrite Hc, Hfc.
  destruct (Response.close_connection_ (response_at http_callback_ q time)); [done|]. by destruct (use_timer_ && b).
Qed.

(** A complete request: its response is sent, unless the connection is already
    shutting down. *)
Lemma respond_serves b i c time : inv c -> open c -> received c = target -> Channel.isReading (channel_ c) = true -> accepted c = said ->
  connected c = bool_decide (i = Active) -> i <> ExpiredAfter -> bq_content (inputBuffer_ c) = [] -> (inputBuffer_ c).2 = ContextParse.init ->
  exists c', (fx ← Server.onRequest http_callback_ order fresh use_timer_ b (request_at q time); perform kernel (asks fx) c) ⇓ c' /\ serves i c'.
Proof.
  intros Hi Ho Hrc Hrd Hacc Hcon Hie Hin Hx. destruct (onRequest_says b time) as (text & Htext & Hl & Hfx).
  destruct (Server.onRequest _ _ _ _ _ _) as [fx|]; [|done]. cbn [mbind outcome_bind]. injection Hfx as ->.
  set (acts := Say text :: _). assert (total acts = len text) as Ht by (unfold acts, total; destruct (Response.close_connection_ _); cbn; lia).
  pose proof (not_connecting _ Ho) as Hnc.
  destruct (perform_ok kernel Hkernel acts c) as (c' & out & Hpf & Hi' & [H1 H2] & Hrd' & Ho' & Hn' & Hc' & Ha' & Hh); [done|done|rewrite Ht, Hacc; lia|].
  exists c'. split; [done|]. assert (received c' = target) as Hreq by (by rewrite H2). split; rewrite ?Hreq; try done; [unfold same_reading in Hrd'; congruence|].
  assert (utter (connected c) acts = (if connected c then [text] else [], connected c && negb (Response.close_connection_ (response_at http_callback_ q time)))) as Hu.
  { unfold acts. destruct (connected c), (Response.close_connection_ _); done. }
  intros _. exists time, text, out. rewrite H1, Hacc, Hc', Hu, Hcon in *. cbn [fst snd] in Hh.
  split_and!; try done; [|etransitivity; [by eapply heard_len|]; destruct (bool_decide _); cbn; rewrite ?app_nil_r; pose proof (len_nonneg text); [done|change (len []) with 0; lia]].
  destruct Hh as (sp & Hsp & -> & Hst). destruct (decide (i = ExpiredBefore)) as [Hd|Hd]; [subst i; by apply sublist_nil_r in Hsp as ->|].
  assert (i = Active) as -> by (by destruct i). change (bool_decide (Active = Active)) with true in *. apply sublist_cons_r in Hsp as [Hsp|(sp' & -> & Hsp)]; apply sublist_nil_r in Hsp as ->.
  - right. split; [done|]. intros Hk. by specialize (Hst Hk).
  - left. cbn. apply app_nil_r.
Qed.

(** A piece of the request arrives. *)
Lemma message_serves i c data inb : serves i c -> open c -> data <> [] -> received c ++ data `prefix_of` target ->
  bq_wf inb -> bq_content inb = bq_content (inputBuffer_ c) ++ data -> inb.2 = (inputBuffer_ c).2 ->
  exists c', invoke user MessageCallback (set_history (accepted c) (wire c) (received c ++ data) (fin c) (set_buffers inb (outputBuffer_ c) c)) ⇓ c' /\
    serves i c'.
Proof.
  intros [Hi Hrc Hnew Hrd Hw Ha] Ho Hd [rem Hrem] Hwf Hc Hx. pose proof (inv_read c inb data Hi Hwf Hc) as Hi1. specialize (Hrd Ho).
  assert (received c <> target) as Hne.
  { intros He. rewrite <-He, <-(app_nil_r (received c)), <-app_assoc in Hrem at 1. apply app_inv_head in Hrem. by destruct data. }
  destruct (Hw Hne) as (Hacc & Hie & Hcon). pose proof (not_connecting _ Ho) as Hs.
  destruct (Hcon Ho) as (Hcc & Hset & Hp). unfold rest in Hp. rewrite Hrem, <-app_assoc, drop_app_length in Hp.
  set (c1 := set_history _ _ _ _ _) in *. assert (inv (log_call MessageCallback c1)) as Hi2 by (apply inv_log_other; done).
  set (c2 := log_call MessageCallback c1) in *.
  destruct (parse_piece (clock c2) _ _ data rem full Hset eq_refl Hp) as (x1 & s1 & Hp1 & Hgot). rewrite <-Hc, <-Hx in Hp1.
  assert (exists consumed, received c2 = consumed ++ s1) as [consumed Hcons].
  { destruct (i_input _ Hi2) as [k Hk]. destruct (parse_suffix _ _ _ _ _ _ _ Hp1) as [k' Hk']. exists (k ++ k').
    change (inputBuffer_ c2) with inb in Hk. by rewrite Hk, Hk', app_assoc. }
  destruct (onMessage_parsed c2 x1 s1) as (b1 & Hwf1 & Hc1 & Hm); [done|change (inputBuffer_ c2) with inb; rewrite Hx; apply Hset|done|].
  unfold invoke. cbn [HttpSession.user]. fold c2. rewrite Hm. destruct (ContextParse.gotAll x1) eqn:Hall.
  - destruct Hgot as (-> & -> & Hf). rewrite app_nil_r in Hrem. destruct x1 as [st [m1 v1 p1 q1 time h1]]. injection Hf as -> -> -> -> -> ->.
    cbn [ContextParse.request_]. fold (request_at q time). set (c3 := set_buffers _ _ _).
    assert (inv c3) as Hi3 by (apply inv_input; [done|done|]; exists consumed; cbn; by rewrite Hc1).
    apply (respond_serves (alive c2) i c3 time); done || (by rewrite Hrem).
  - destruct Hgot as (Hrn & Hset1 & Hp2). eexists. split; [done|]. split.
    + apply inv_input; [done|done|]. exists consumed. cbn. by rewrite Hc1.
    + exists rem. exact Hrem.
    + intros Hk. done.
    + intros _. exact Hrd.
    + intros _. split_and!; [done..|]. intros _. cbn. rewrite Hc1. split_and!; [done..|].
      unfold rest. cbn. by rewrite Hrem, drop_app_length.
    + intros He. cbn in He. destruct Hrn. rewrite <-He in Hrem. by rewrite <-(app_nil_r (received c ++ data)) in Hrem at 1; apply app_inv_head in Hrem.
Qed.

Lemma user_down up c : state_ c = kDisconnected -> user (ConnectionCallback up) c ⇓ c.
Proof. intros Hs. cbn [HttpSession.user]. unfold onConnection, connected. by rewrite bool_decide_false by congruence. Qed.

Lemma establish_serves i c : serves i c -> state_ c = kConnecting -> exists c', connectEstablished user c ⇓ c' /\ serves i c'.
Proof.
  intros [Hi Hrc Hnew _ Hw _] Hs. destruct (Hnew Hs) as (Hr0 & Hb0 & Hin & ->). unfold connectEstablished. rewrite bool_decide_true by done. cbn [assert_ mbind outcome_bind].
  unfold invoke. cbn [HttpSession.user]. unfold onConnection. pose proof (inv_established c Hi Hs) as Hi1. set (c1 := log_call _ _) in *.
  assert (connected c1 = true) as -> by done. eexists. split; [done|].
  assert (received c <> target) as Hne by (rewrite Hr0, <-Hb0; apply before_not_target). destruct (Hw Hne) as (Hacc & _ & _).
  pose proof (i_state _ Hi) as Hz. rewrite Hs in Hz. destruct Hz as [Hz _].
  unfold setContext. split; [|done|done| | |done].
  - apply inv_input; [done|apply Hi1|]. exists []. change (received c = bq_content (inputBuffer_ c)). by rewrite Hr0, Hin.
  - intros _. cbn. unfold Channel.isReading. cbn. by rewrite Hz.
  - intros _. split_and!; [done|done|]. intros _. change (bq_content _) with (bq_content (inputBuffer_ c)). rewrite Hin. unfold rest, target. cbn. rewrite Hr0, Hb0.
    split; [done|]. split; [by split_and!|]. apply full_parse.
Qed.

Lemma close_serves i c : serves i c -> open c -> exists c', handleClose user c ⇓ c' /\ serves i c'.
Proof.
  intros Hsv Ho. destruct (handleClose_keeps user c (sv_inv _ _ Hsv) Ho) as (c' & Hc' & Hi' & Hs' & Hin & Ha); [intros; by apply user_down|].
  exists c'. split; [done|]. apply (serves_same i c); [done..|by right].
Qed.

Lemma read_serves i c readv : serves i c -> enabled use_timer_ target c (Conn (Readable readv)) -> exists c', handleRead user readv c ⇓ c' /\ serves i c'.
Proof.
  intros Hsv (Hrd & [Hro Hroom] & Hpre). pose proof (sv_inv _ _ Hsv) as Hi. pose proof (reading_open _ Hi Hrd) as Ho. unfold handleRead.
  destruct (bq_readFd_ok readv (inputBuffer_ c)) as (iov & _ & Hr); [apply Hi|done|].
  destruct (readv iov) as [errno|data] eqn:Hd.
  - rewrite Hr. cbn [mbind outcome_bind]. rewrite drop_all. eexists. split; [done|]. unfold handleError.
    apply (serves_same i c); [done|apply (inv_read c (inputBuffer_ c) []); [done|apply Hi|by rewrite app_nil_r]|by split; cbn; rewrite ?app_nil_r|done|by left].
  - destruct Hr as (inb & Hfd & Hwf & Hc); [by eapply Hroom|]. pose proof (readFd_context _ _ _ _ _ Hfd) as Hx. rewrite Hfd. cbn [mbind outcome_bind].
    rewrite Hc, drop_app_length. destruct (decide (data = [])) as [->|Hne].
    + change (bool_decide (0 < len [])) with false. cbv iota. change (bool_decide (len [] = 0)) with true. cbv iota. rewrite app_nil_r in Hc.
      apply close_serves; [|done]. destruct Hsv as [_ Hrc Hnew Hrd' Hw Ha]. unfold rest in *.
      split; unfold rest; cbn [received inputBuffer_ accepted state_ set_history set_buffers]; rewrite ?app_nil_r, ?Hc, ?Hx; try done.
      rewrite <-(app_nil_r (received c)). apply (inv_read c inb []); [done..|by rewrite app_nil_r].
    + assert (0 < len data) as Hpos by (destruct data; [done|unfold len; cbn; lia]). rewrite bool_decide_true by done.
      apply (message_serves i c data inb); try done. by apply (Hpre iov).
Qed.

Lemma undergo_serves i c h : serves i c -> enabled use_timer_ target c h ->
  exists c', undergo kernel user c h ⇓ c' /\ serves (expires target c h i) c'.
Proof.
  intros Hsv He. destruct h as [[|readv| | |]|]; cbn [undergo react enabled expires] in *.
  - by apply establish_serves.
  - by apply read_serves.
  - destruct (decide (state_ c = kConnecting)) as [Hs|Hs]; [exists c; split; [apply handleWrite_connecting; [apply Hsv|done]|done]|].
    destruct (handleWrite_ok (kernel c) c (sv_inv _ _ Hsv) Hs (Hkernel c)) as (c' & Hw & Hi' & Hs' & _). exists c'. split; [done|].
    destruct (handleWrite_keeps _ _ _ (i_events _ (sv_inv _ _ Hsv)) Hw) as (Hin & Hrd & Ha). apply (serves_same i c); [done..|by left].
  - apply close_serves; [done|]. apply events_open; [apply Hsv|done].
  - destruct (connectDestroyed_keeps user c (sv_inv _ _ Hsv) He) as (c' & Hc' & Hi' & Hs' & Hin & Ha); [intros; by apply user_down|].
    exists c'. split; [done|]. apply (serves_same i c); [done..|by right].
  - eexists. split; [done|]. apply idle_serves; [done|apply He].
Qed.

(** The server never stops reading, so [Channel::remove] fails. *)
Lemma session_destroy_aborts i c : serves i c -> state_ c = kDisconnecting -> connectDestroyed user c = Fault AssertFailure.
Proof.
  intros Hsv Hs. rewrite connectDestroyed_disconnecting by done. by rewrite (reading_some _ (sv_reading _ _ Hsv (or_intror Hs))).
Qed.
End serving.

Lemma texts_snoc l q : texts (l ++ [q]) = texts l ++ text_of q.
Proof. unfold texts. rewrite fmap_app, concat_app. cbn. by rewrite app_nil_r. Qed.

Lemma Forall_last {A} (P : A -> Prop) l x : Forall P (l ++ [x]) -> Forall P l /\ P x.
Proof. intros [Hl Hx]%Forall_app. split; [done|by inversion Hx]. Qed.

Section sessions.
Context (kernel : conn -> write_t) (Hkernel : kernel_ok kernel) (http_callback : Request.t -> Response.t -> Response.t).
Context (order : headers -> list (bytes * bytes)) (fresh : Buffer.t) (use_timer : bool) (alive : conn -> bool) (clock : conn -> Timestamp.t).
Context (size : Z) (Hfw : Buffer.wf fresh) (Hfc : Buffer.content fresh = []).
Abbreviation user := (HttpSession.user kernel http_callback order fresh use_timer alive clock).

(** The next request on a connection that stayed open. *)
Lemma serves_next i q before said q' out c : well_formed q' -> serves kernel http_callback order q before said size i c ->
  received c = before ++ text_of q -> connected c = true -> accepted c = said ++ out ->
  serves kernel http_callback order q' (before ++ text_of q) (said ++ out) size Active c.
Proof.
  intros Hok' [Hi Hrc Hnew Hrd Hw Ha] He Hc Hacc. unfold connected in Hc. apply bool_decide_eq_true_1 in Hc.
  destruct (Ha He) as (time & text' & out' & _ & _ & _ & _ & _ & Hin & Hx). split; [done| | |done| |].
  - rewrite He. by eexists.
  - congruence.
  - intros _. split_and!; [done..|]. intros _. rewrite Hin, Hx. split; [unfold connected; by rewrite Hc|]. split; [by split_and!|].
    unfold rest, target. rewrite He, drop_app_length. by apply full_parse.
  - intros Ht. rewrite He in Ht. by apply before_not_target in Ht.
Qed.

Lemma printable_size q : printable http_callback order size q -> 0 <= size.
Proof.
  intros Hp. destruct (Hp 0) as (_ & _ & H1). pose proof (len_nonneg (Response.status_message_ (response_at http_callback q 0))).
  pose proof (len_nonneg (concat (print_header <$> headers_at http_callback order q 0))). pose proof (len_nonneg (Response.body_ (response_at http_callback q 0))). lia.
Qed.

Lemma runs_serves before q i c : runs kernel user use_timer before q i c -> Forall well_formed (before ++ [q]) ->
  Forall (printable http_callback order size) (before ++ [q]) -> Z.of_nat (length (before ++ [q])) * size <= Buffer.cap ->
  exists said, Forall2 (answers http_callback order kernel true) before said /\ len (concat said) + size <= Buffer.cap /\
    len (concat said) <= Z.of_nat (length before) * size /\ serves kernel http_callback order q (texts before) (concat said) size i c.
Proof.
  induction 1 as [q fd hwm inb outb Hh Hwf Hin Hwf' Hout|before q i c h c' _ IH He Hr|before q i c q' _ IH He Hc]; intros Hok Hpr Hcap.
  - exists []. change (1 * size <= Buffer.cap) in Hcap. split_and!; [done|change (0 + size <= Buffer.cap); lia|done|]. split; try done.
    + apply inv_initial. by exists fd, false, false, hwm, inb, outb.
    + by apply prefix_nil.
    + by intros [].
    + intros _. split_and!; [done..|]. by intros [].
    + intros E. by destruct (before_not_target q []).
  - destruct (IH Hok Hpr Hcap) as (said & Hsaid & Hfit & Hlen & Hsv). exists said. split_and!; [done..|].
    apply Forall_last in Hok as [_ Hok]. apply Forall_last in Hpr as [_ Hpr]. rewrite texts_snoc in *.
    destruct (undergo_serves kernel Hkernel http_callback order fresh use_timer alive clock q Hok (texts before) (concat said) size Hpr Hfit Hfw Hfc i c h Hsv He) as (c2 & Hc2 & Ht).
    rewrite Hr in Hc2. by injection Hc2 as <-.
  - apply Forall_last in Hok as [Hok Hok']. apply Forall_last in Hpr as [Hpr Hpr']. pose proof (printable_size _ Hpr') as Hpos.
    rewrite length_app in Hcap. cbn [length] in Hcap. destruct (IH Hok Hpr) as (said & Hsaid & Hfit & Hlen & Hsv); [nia|].
    rewrite texts_snoc in He |- *. destruct (sv_answered _ _ _ _ _ _ _ _ _ Hsv He) as (time & text & out & Hacc & Hans & Hsent & Htl & Ho & _).
    assert (open c) as Hop by (left; by apply bool_decide_eq_true_1 in Hc). specialize (Ho Hop). rewrite Hc in Ho. symmetry in Ho.
    apply andb_true_iff in Ho as [Hact Hopen]. apply bool_decide_eq_true_1 in Hact. subst i.
    exists (said ++ [out]). assert (concat (said ++ [out]) = concat said ++ out) as -> by (rewrite concat_app; cbn; by rewrite app_nil_r).
    rewrite !length_app, len_app in *. cbn [length] in *. split_and!; [|nia|nia|].
    + apply Forall2_app; [done|]. constructor; [|done]. by exists time, text.
    + by eapply serves_next.
Qed.
End sessions.
End SessionFacts.

(** ** Properties *)
Module SessionTheorems.
Import TcpConnection TcpConnectionSpec TcpConnectionFacts Responder HttpSession SessionSpec SessionFacts HttpSpec.


(** *** A client that asks twice, over a socket that takes a byte at a time *)
Definition slow : conn -> write_t := fun _ d => inr (Z.min 1 (len d)).
Definition example_user : call -> conn -> outcome conn :=
  HttpSession.user slow (Server.HttpRequest [] []) map_to_list HttpTheorems.example_buffer false (fun _ => false) (fun _ => 7).
Definition hello : request := mk_request Request.Get (lit "/hello") [] Request.Http11 [(lit "Host", lit "a")].
Definition after (c : conn) (ev : event) : conn := match react slow example_user c ev with Done c' => c' | Fault _ => c end.
Definition gives (data : bytes) : event := Readable (fun iov => inr (take (Z.to_nat (foldr Z.add 0 iov)) data)).
Definition conn0 : conn := init 7 false false 67108864 (HttpTheorems.example_buffer, ContextParse.init) (HttpTheorems.example_buffer, ContextParse.init).
Definition conn1 : conn := after conn0 Established.
Definition conn2 : conn := after conn1 (gives (take 9 (text_of hello))).
Definition conn3 : conn := after conn2 (gives (drop 9 (text_of hello))).
Definition conn4 : conn := after conn3 (gives (take 30 (text_of hello))).

Lemma session_slow_ok : kernel_ok slow.
Proof. intros c d n [= <-]. pose proof (len_nonneg d). lia. Qed.

Lemma session_gives input c data : Channel.isReading (channel_ c) = true -> (exists l, input = (received c ++ data) ++ l) ->
  len (bq_content (inputBuffer_ c)) + len data <= Buffer.cap -> enabled false input c (Conn (gives data)).
Proof.
  intros Hr [l Hl] Hcap. split; [done|]. split; [split|].
  - intros iov d Hn [= <-]. unfold len. rewrite length_take. assert (0 <= foldr Z.add 0 iov) by (induction Hn; cbn; lia). lia.
  - intros iov d [= <-]. unfold len in *. rewrite length_take. lia.
  - intros iov d [= <-]. exists (drop (Z.to_nat (foldr Z.add 0 iov)) data ++ l). by rewrite Hl, <-!app_assoc, (app_assoc (take _ _)), take_drop.
Qed.

Lemma hello_printable : printable (Server.HttpRequest [] []) map_to_list 400 hello.
Proof. intros time. split_and!; vm_compute; discriminate || reflexivity. Qed.

Lemma hello_ok : well_formed hello.
Proof.
  assert (forall (x : char) (l : bytes), bool_decide (x ∈ l) = false -> x ∉ l) as Hno by (intros x l; apply bool_decide_eq_false_1).
  split; cbn; [done|split_and!; by apply Hno|by left|done|]. constructor; [|done]. split_and!; cbn; try (by apply Hno). reflexivity.
Qed.

Lemma conn4_runs : runs slow example_user false [hello] hello Active conn4.
Proof.
  assert (runs slow example_user false [] hello Active conn0) as H0 by (apply runs_init; by vm_compute).
  assert (runs slow example_user false [] hello Active conn1) as H1 by (apply (runs_step _ _ _ _ _ _ _ (Conn Established) _ H0); vm_compute; reflexivity).
  assert (runs slow example_user false [] hello Active conn2) as H2.
  { apply (runs_step _ _ _ _ _ _ _ (Conn (gives (take 9 (text_of hello)))) _ H1); [apply session_gives|]; [vm_compute; reflexivity| |vm_compute; discriminate|vm_compute; reflexivity].
    exists (drop 9 (text_of hello)). vm_compute. reflexivity. }
  assert (runs slow example_user false [] hello Active conn3) as H3.
  { apply (runs_step _ _ _ _ _ _ _ (Conn (gives (drop 9 (text_of hello)))) _ H2); [apply session_gives|]; [vm_compute; reflexivity| |vm_compute; discriminate|vm_compute; reflexivity].
    exists []. vm_compute. reflexivity. }
  assert (runs slow example_user false [hello] hello Active conn3) as H4 by (apply (runs_next _ _ _ [] hello _ _ _ H3); vm_compute; reflexivity).
  apply (runs_step _ _ _ _ _ _ _ (Conn (gives (take 30 (text_of hello)))) _ H4); [apply session_gives|]; [vm_compute; reflexivity| |vm_compute; discriminate|vm_compute; reflexivity].
  exists (drop 30 (text_of hello)). vm_compute. reflexivity.
Qed.

End SessionTheorems.
