(* ===== verification/Diagnostics.v ===== *)
(** * Diagnostics: names and texts for people

    The text that the library makes for logs and error reports: the names of
    log files ([LogFile::getLogFileName], [src/muduo/base/LogFile.cc]), stack
    traces ([CurrentThread::stackTrace], [src/muduo/base/CurrentThread.cc]) and
    the exceptions that carry them ([src/muduo/base/Exception.cc]), the text of
    event masks ([Channel::eventsToString], [src/muduo/net/Channel.cc]) and of
    epoll operations and connection states. *)
From S2P Require Import Prelude Endian Timestamps LogStreams Dates UtcTimes Formats Channels Pollers TcpConnections LogFiles SmallFiles.

Local Open Scope Z_scope.
Local Open Scope muduo_scope.

(** ** Names of log files *)
Module LogFileName.
Import Printf.
Section name.
Context `{CTime}.

(** [strftime(timebuf, sizeof(timebuf), ".%Y%m%d-%H%M%S.", &tm)]: empty when the
    text does not fit. *)
Definition stamp (u : tm) : list spec :=
  [chars "."; d (tm_year u + 1900); d0 2 (tm_mon u + 1); d0 2 (tm_mday u); chars "-";
   d0 2 (tm_hour u); d0 2 (tm_min u); d0 2 (tm_sec u); chars "."].
Definition strftime (size : nat) (l : list spec) : bytes :=
  if bool_decide (length (format l) < size)%nat then format l else [].

(** [now] is the answer of [time(NULL)], which is also returned. *)
Definition getLogFileName (basename hostname : bytes) (pid now : Z) : bytes * Z :=
  let timebuf := strftime 32 (stamp (gmtime_r now)) in
  let pidbuf := (snprintf 32 [chars "."; d pid]).1 in
  (basename ++ timebuf ++ hostname ++ pidbuf ++ lit ".log", now).
End name.
End LogFileName.

(** ** Stack traces *)
Module StackTrace.
Section trace.
(** [abi::__cxa_demangle]: the name, if the text is a mangled one (status 0). *)
Context (cxa_demangle : bytes -> option bytes).

Definition newline : char := "010"%char.

(** The scan for the last ['('] and the last ['+']. *)
Fixpoint scan (s : bytes) (p : nat) (left_par plus : option nat) : option nat * option nat :=
  match s with
  | [] => (left_par, plus)
  | c :: s =>
      if bool_decide (c = "("%char) then scan s (S p) (Some p) plus
      else if bool_decide (c = "+"%char) then scan s (S p) left_par (Some p)
      else scan s (S p) left_par plus
  end.

(** The C string at [i] while [s[plus]] is overwritten by NUL. *)
Definition cut_at (s : bytes) (plus i : nat) : bytes :=
  if bool_decide (i <= plus)%nat then take (plus - i) (drop i s) else drop i s.

(** One frame, without the newline. *)
Definition line (demangle : bool) (s : bytes) : bytes :=
  if demangle then
    match scan s 0 None None with
    | (Some left_par, Some plus) =>
        match cxa_demangle (cut_at s plus (S left_par)) with
        | Some demangled => take (S left_par) s ++ demangled ++ drop plus s
        | None => s
        end
    | _ => s
    end
  else s.

(** [strings]: what [backtrace_symbols] returns for at most 200 frames, NULL when
    it is out of memory; the frame of [stackTrace] itself is left out. *)
Definition stackTrace (strings : option (list bytes)) (demangle : bool) : bytes :=
  match strings with
  | None => []
  | Some strings => concat ((fun s => line demangle s ++ [newline]) <$> drop 1 strings)
  end.
End trace.
End StackTrace.

Module Exception.
Record t : Type := mk { _message : bytes; _stack : bytes }.
Definition make (strings : option (list bytes)) (msg : bytes) : t :=
  mk msg (StackTrace.stackTrace (fun _ => None) strings false).
Definition what (e : t) : bytes := _message e.
Definition stackTrace (e : t) : bytes := _stack e.
End Exception.

(** ** Event masks *)
Module EventsText.
Definition flag (ev mask : Z) (name : string) : bytes := if any_bit ev mask then lit name else [].
Definition eventsToString (fd ev : Z) : bytes :=
  Printf.show (Printf.d fd) ++ lit ": " ++ flag ev POLLIN "IN " ++ flag ev POLLPRI "PRI " ++ flag ev POLLOUT "OUT " ++
  flag ev POLLHUP "HUP " ++ flag ev POLLRDHUP "RDHUP " ++ flag ev POLLERR "ERR " ++ flag ev POLLNVAL "NVAL ".
Definition channel_eventsToString (c : Channel.t) : bytes := eventsToString (Channel.fd_ c) (Channel.events_ c).
Definition reventsToString (c : Channel.t) : bytes := eventsToString (Channel.fd_ c) (Channel.revents_ c).

(** The lines that [printActiveChannels] logs. *)
Definition printActiveChannels (σ : channels) (active : list Z) : outcome (list bytes) :=
  mapM (fun a => c ← deref σ a; mret (lit "{" ++ reventsToString c ++ lit "}")) active.
End EventsText.

(** ** Names of states and operations *)
Definition operationToString (op : epoll_op) : bytes :=
  match op with EPOLL_CTL_ADD => lit "ADD" | EPOLL_CTL_DEL => lit "DEL" | EPOLL_CTL_MOD => lit "MOD" end.
Definition stateToString (s : TcpConnection.StateE) : bytes :=
  match s with
  | TcpConnection.kDisconnected => lit "kDisconnected"
  | TcpConnection.kConnecting => lit "kConnecting"
  | TcpConnection.kConnected => lit "kConnected"
  | TcpConnection.kDisconnecting => lit "kDisconnecting"
  end.

(** ** Specification *)
Module DiagnosticsSpec.
(** A text as its lines, each ended by a newline. *)
Fixpoint lines_of (current s : bytes) : list bytes :=
  match s with
  | [] => []
  | c :: s => if bool_decide (c = StackTrace.newline) then current :: lines_of [] s else lines_of (current ++ [c]) s
  end.
(** The events that a mask asks for, of the seven that have a name. *)
Definition named_events : Z := 8255.
End DiagnosticsSpec.

Module DiagnosticsFacts.
Import Printf FormatFacts TimeTextFacts CivilTime UtcTimeFacts DiagnosticsSpec.

(** *** Log file names *)
Definition stamp_text (u : tm) : bytes :=
  lit "." ++ fixed 4 (tm_year u + 1900) ++ fixed 2 (tm_mon u + 1) ++ fixed 2 (tm_mday u) ++ lit "-" ++
  fixed 2 (tm_hour u) ++ fixed 2 (tm_min u) ++ fixed 2 (tm_sec u) ++ lit ".".

Lemma format_stamp u : valid_tm u -> four_digits u -> format (LogFileName.stamp u) = stamp_text u.
Proof.
  intros Hv Hy. pose proof (mday_bound u Hv) as Hd. destruct Hv as ([Hm _] & _ & Hh & Hmi & Hs).
  cbn [date_of Date.month] in Hm. unfold four_digits in Hy. unfold format, LogFileName.stamp.
  assert (H2 : forall n, 0 <= n < 100 -> show (d0 2 n) = fixed 2 n) by (intros; apply show_zero; [lia|done]).
  cbn [map concat]. change (d (tm_year u + 1900)) with (dw 0 (tm_year u + 1900)).
  rewrite (show_fitting 0 4) by (try lia; change (10 ^ Z.of_nat 4) with 10000; change (10 ^ (Z.of_nat 4 - 1)) with 1000; lia).
  rewrite !H2 by lia. rewrite app_nil_r. done.
Qed.

Lemma length_stamp u : length (stamp_text u) = 17%nat.
Proof. unfold stamp_text. rewrite !length_app, !length_fixed. done. Qed.

Lemma fixed_inj w n m : 0 <= n < 10 ^ Z.of_nat w -> 0 <= m < 10 ^ Z.of_nat w -> fixed w n = fixed w m -> n = m.
Proof.
  intros Hn Hm He. pose proof (digits_value_fixed w n 0 Hn) as H1. rewrite He, digits_value_fixed in H1 by done.
  injection H1. lia.
Qed.

Lemma fixed_app_inj w n m s s' : 0 <= n < 10 ^ Z.of_nat w -> 0 <= m < 10 ^ Z.of_nat w ->
  fixed w n ++ s = fixed w m ++ s' -> n = m /\ s = s'.
Proof.
  intros Hn Hm [He Hs]%app_inj_1; [|by rewrite !length_fixed]. split; [|done]. by eapply fixed_inj.
Qed.

(** The stamp tells the second. *)
Lemma stamp_inj u u' : valid_tm u -> valid_tm u' -> four_digits u -> four_digits u' ->
  stamp_text u = stamp_text u' -> civil u = civil u'.
Proof.
  intros Hv Hv' Hy Hy' He. pose proof (mday_bound u Hv). pose proof (mday_bound u' Hv').
  destruct Hv as ([Hm _] & _ & Hh & Hmi & Hs), Hv' as ([Hm' _] & _ & Hh' & Hmi' & Hs').
  cbn [date_of Date.month] in Hm, Hm'. unfold four_digits in *. unfold stamp_text in He. apply app_inv_head in He.
  change (10 ^ Z.of_nat 4) with 10000 in *. change (10 ^ Z.of_nat 2) with 100 in *.
  apply fixed_app_inj in He as [E1 He]; [|change (10 ^ Z.of_nat 4) with 10000; lia..].
  apply fixed_app_inj in He as [E2 He]; [|change (10 ^ Z.of_nat 2) with 100; lia..].
  apply fixed_app_inj in He as [E3 He]; [|change (10 ^ Z.of_nat 2) with 100; lia..]. apply app_inv_head in He.
  apply fixed_app_inj in He as [E4 He]; [|change (10 ^ Z.of_nat 2) with 100; lia..].
  apply fixed_app_inj in He as [E5 He]; [|change (10 ^ Z.of_nat 2) with 100; lia..].
  apply fixed_app_inj in He as [E6 He]; [|change (10 ^ Z.of_nat 2) with 100; lia..].
  unfold civil, date_of. by rewrite E1, E2, E3, E4, E5, E6.
Qed.

(** Seconds of the years 1970 to 9999. *)
Definition nameable (t : Z) : Prop := 0 <= t < 253402300800.

Lemma nameable_tm `{CTime} t : nameable t -> valid_tm (gmtime_r t) /\ civil (gmtime_r t) = t /\ four_digits (gmtime_r t).
Proof.
  intros Ht. unfold nameable in Ht.
  assert (Hr : representable t) by (unfold representable, epoch_day; clear -Ht; Z.to_euclidean_division_equations; lia).
  pose proof (gmtime_r_valid _ Hr) as Hv. pose proof (gmtime_r_civil _ Hr) as Hc. split_and!; [done..|].
  apply second_year; [done|]. by rewrite Hc.
Qed.

Lemma log_file_name `{CTime} basename hostname pid t : nameable t ->
  (LogFileName.getLogFileName basename hostname pid t).1 =
  basename ++ stamp_text (gmtime_r t) ++ hostname ++ (snprintf 32 [chars "."; d pid]).1 ++ lit ".log".
Proof.
  intros Ht. destruct (nameable_tm t Ht) as (Hv & _ & Hy). unfold LogFileName.getLogFileName, LogFileName.strftime. cbn [fst].
  rewrite (format_stamp _ Hv Hy), length_stamp. by rewrite bool_decide_eq_true_2 by lia.
Qed.

(** *** Stack traces *)
Lemma lines_of_line l : forall current rest, StackTrace.newline ∉ l ->
  lines_of current (l ++ StackTrace.newline :: rest) = (current ++ l) :: lines_of [] rest.
Proof.
  induction l as [|c l IH]; intros current rest Hn.
  - by rewrite app_nil_r.
  - apply not_elem_of_cons in Hn as [Hc Hn]. cbn [app lines_of]. rewrite bool_decide_eq_false_2 by congruence.
    rewrite IH by done. by rewrite <-app_assoc.
Qed.

Lemma lines_of_concat ls : Forall (fun l => StackTrace.newline ∉ l) ls ->
  lines_of [] (concat ((fun l => l ++ [StackTrace.newline]) <$> ls)) = ls.
Proof.
  induction 1 as [|l ls Hl _ IH]; [done|]. rewrite fmap_cons. cbn [concat]. rewrite <-app_assoc.
  cbn [app]. rewrite lines_of_line by done. by rewrite IH.
Qed.

(** [i] is the position of the last [c] in [s], counted from [p], or [i0] when there is none. *)
Definition last_at (c : char) (s : bytes) (p : nat) (i0 i : option nat) : Prop :=
  (i = i0 /\ c ∉ s) \/ exists k, i = Some (p + k)%nat /\ s !! k = Some c /\ c ∉ drop (S k) s.

Lemma last_at_other c x s p i0 i : x <> c -> last_at c s (S p) i0 i -> last_at c (x :: s) p i0 i.
Proof.
  intros Hx [[-> Hn]|(k & -> & Hk & Hn)]; [left; set_solver|right]. exists (S k). split; [f_equal; lia|done].
Qed.

Lemma last_at_here c s p i0 i : last_at c s (S p) (Some p) i -> last_at c (c :: s) p i0 i.
Proof.
  intros [[-> Hn]|(k & -> & Hk & Hn)]; right; [exists 0%nat|exists (S k)]; (split; [f_equal; lia|done]).
Qed.

Lemma scan_spec s : forall p lp pl i j, StackTrace.scan s p lp pl = (i, j) ->
  last_at "("%char s p lp i /\ last_at "+"%char s p pl j.
Proof.
  induction s as [|c s IH]; intros p lp pl i j; cbn [StackTrace.scan].
  - intros [= <- <-]. split; left; (split; [done|apply not_elem_of_nil]).
  - case_bool_decide as H1; [|case_bool_decide as H2]; intros [Hi Hj]%IH.
    + subst c. split; [by apply last_at_here|by apply last_at_other].
    + subst c. split; [by apply last_at_other|by apply last_at_here].
    + split; by apply last_at_other.
Qed.

(** A frame that was rewritten: only the symbol between the last parenthesis and
    the offset has changed. *)
Lemma line_demangled cxa_demangle s :
  (forall x, ")"%char ∈ x -> cxa_demangle x = None) ->
  (exists a b, s = a ++ ("("%char :: b) /\ ("("%char ∉ b) /\ (")"%char ∈ b)) ->
  StackTrace.line cxa_demangle true s = s \/
  exists pre sym name post, s = pre ++ ("("%char :: sym ++ ("+"%char :: post)) /\ cxa_demangle sym = Some name /\
    StackTrace.line cxa_demangle true s = pre ++ ("("%char :: name ++ ("+"%char :: post)).
Proof.
  intros Hdem (a & b & Hs & Hb & Hp). unfold StackTrace.line.
  destruct (StackTrace.scan s 0 None None) as [i j] eqn:Hscan.
  apply scan_spec in Hscan as [Hi Hj]. destruct i as [i|]; [|by left]. destruct j as [j|]; [|by left].
  destruct (cxa_demangle _) as [name|] eqn:Hd; [right|by left].
  destruct Hi as [[? _]|(k & [= ->] & Hk & Hnk)]; [done|]. destruct Hj as [[? _]|(m & [= ->] & Hm & Hnm)]; [done|].
  cbn [Nat.add] in *. destruct (decide (S k <= m)%nat) as [Hle|Hgt].
  - unfold StackTrace.cut_at in Hd. rewrite bool_decide_eq_true_2 in Hd by done.
    set (sym := take (m - S k) (drop (S k) s)) in *. exists (take k s), sym, name, (drop (S m) s).
    rewrite (take_S_r s k _ Hk), (drop_S s _ m Hm), <-app_assoc. split_and!; [|done|done].
    rewrite <-(take_drop_middle s k _ Hk) at 1. f_equal. f_equal.
    rewrite <-(take_drop (m - S k) (drop (S k) s)) at 1. fold sym. f_equal. rewrite drop_drop.
    replace (S k + (m - S k))%nat with m by lia. by apply drop_S.
  - exfalso. unfold StackTrace.cut_at in Hd. rewrite bool_decide_eq_false_2 in Hd by done.
    rewrite Hdem in Hd; [done|]. subst s. assert (k = length a) as ->.
    { destruct (decide (k < length a)%nat) as [Hlt|Hge].
      - exfalso. apply Hnk. rewrite drop_app_le by lia. apply elem_of_app. right. by left.
      - destruct (decide (k = length a)) as [|Hne]; [done|]. rewrite lookup_app_r in Hk by lia.
        destruct (k - length a)%nat as [|x] eqn:Hx; [lia|]. simpl in Hk. destruct Hb. by eapply list_elem_of_lookup_2. }
    rewrite drop_app_ge by lia. by replace (S (length a) - length a)%nat with 1%nat by lia.
Qed.

(** *** Event masks *)
Definition flags (f : list bool) : bytes :=
  concat (zip_with (fun (b : bool) name => if b then lit name else [])
    f ["IN "; "PRI "; "OUT "; "HUP "; "RDHUP "; "ERR "; "NVAL "]%string).

Definition bits (ev : Z) : list bool :=
  (any_bit ev) <$> [POLLIN; POLLPRI; POLLOUT; POLLHUP; POLLRDHUP; POLLERR; POLLNVAL].

Lemma events_text fd ev : EventsText.eventsToString fd ev = show (d fd) ++ ":"%char :: " "%char :: flags (bits ev).
Proof. unfold EventsText.eventsToString, EventsText.flag, flags, bits. cbn [fmap list_fmap zip_with concat]. by rewrite app_nil_r. Qed.

(** Seven flags as a list, and all lists of seven flags. *)
Fixpoint flag_lists (n : nat) : list (list bool) :=
  match n with O => [[]] | S n => l ← flag_lists n; [true :: l; false :: l] end.

Lemma flag_lists_all n f : length f = n -> f ∈ flag_lists n.
Proof.
  revert n. induction f as [|b f IH]; intros [|n] Hl; try done; [by left|]. injection Hl as Hl. cbn [flag_lists].
  apply list_elem_of_bind. exists f. split; [|by apply IH]. destruct b; set_solver.
Qed.

Lemma flags_inj f g : length f = 7%nat -> length g = 7%nat -> flags f = flags g -> f = g.
Proof.
  intros Hf%flag_lists_all Hg%flag_lists_all.
  assert (Forall (fun f => Forall (fun g => flags f = flags g -> f = g) (flag_lists 7)) (flag_lists 7)) as Hall by by_computation.
  rewrite Forall_forall in Hall. specialize (Hall f Hf). simpl in Hall. rewrite Forall_forall in Hall. by apply Hall.
Qed.

Lemma any_bit_testbit ev k : 0 <= k -> any_bit ev (2 ^ k) = Z.testbit ev k.
Proof.
  intros Hk. unfold any_bit. destruct (Z.testbit ev k) eqn:Hb.
  - destruct (Z.eqb_spec (Z.land ev (2 ^ k)) 0) as [H0|]; [|done].
    apply (f_equal (fun x => Z.testbit x k)) in H0. rewrite Z.land_spec, Z.pow2_bits_true, Z.bits_0, Hb in H0 by done. done.
  - apply negb_false_iff, Z.eqb_eq, Z.bits_inj'. intros n Hn. rewrite Z.land_spec, Z.bits_0, Z.pow2_bits_eqb by lia.
    destruct (Z.eqb_spec k n) as [<-|]; [by rewrite Hb|by rewrite andb_false_r].
Qed.

Lemma named_bits n : 0 <= n -> Z.testbit named_events n = true -> n ∈ [0; 1; 2; 3; 4; 5; 13].
Proof.
  intros Hn Hb. assert (n ∈ seqZ 0 14) as Hin.
  { apply elem_of_seqZ. destruct (decide (n < 14)) as [|Hge]; [lia|].
    rewrite Z.bits_above_log2 in Hb; [done|done|]. change (Z.log2 named_events) with 13. lia. }
  assert (Forall (fun k => Z.testbit named_events k = true -> k ∈ [0; 1; 2; 3; 4; 5; 13]) (seqZ 0 14)) as Hall by compute_done.
  rewrite Forall_forall in Hall. by apply Hall.
Qed.

(** The seven named bits, and only they, are in the text. *)
Lemma bits_land ev ev' : bits ev = bits ev' <-> Z.land ev named_events = Z.land ev' named_events.
Proof.
  unfold bits. cbn [fmap list_fmap].
  change POLLIN with (2 ^ 0). change POLLPRI with (2 ^ 1). change POLLOUT with (2 ^ 2). change POLLHUP with (2 ^ 4).
  change POLLRDHUP with (2 ^ 13). change POLLERR with (2 ^ 3). change POLLNVAL with (2 ^ 5).
  rewrite !any_bit_testbit by lia. split.
  - intros [= B0 B1 B2 B4 B13 B3 B5]. apply Z.bits_inj'. intros n Hn. rewrite !Z.land_spec.
    destruct (Z.testbit named_events n) eqn:Hb; [|by rewrite !andb_false_r].
    apply named_bits in Hb; [|done]. repeat (apply elem_of_cons in Hb as [->|Hb]; [by f_equal|]). by apply not_elem_of_nil in Hb.
  - intros He.
    assert (forall n, Z.testbit named_events n = true -> Z.testbit ev n = Z.testbit ev' n) as Hn.
    { intros n Hb. apply (f_equal (fun x => Z.testbit x n)) in He. by rewrite !Z.land_spec, Hb, !andb_true_r in He. }
    by rewrite !(Hn 0), !(Hn 1), !(Hn 2), !(Hn 4), !(Hn 13), !(Hn 3), !(Hn 5).
Qed.

Lemma fixed_digits w n c : c ∈ fixed w n -> 48 <= Z_of_char c <= 57.
Proof.
  revert n. induction w as [|w IH]; intros n; [by intros ?%not_elem_of_nil|]. cbn [fixed].
  intros [?%IH| ->%list_elem_of_singleton]%elem_of_app; [done|]. rewrite Z_of_char_of_Z.
  pose proof (Z.mod_pos_bound n 10 ltac:(lia)). rewrite Z.mod_small; lia.
Qed.

Lemma show_fd fd : 0 <= fd < two_31 -> show (d fd) = dec fd /\ ":"%char ∉ dec fd.
Proof.
  intros Hfd. unfold show, d, sign. rewrite Z.abs_eq by lia. destruct (Z.ltb_spec fd 0); [lia|]. split; [done|].
  destruct (dec_fixed fd) as (k & _ & _ & _ & ->); [unfold two_31 in Hfd; lia|]. intros Hin%fixed_digits. change (Z_of_char ":"%char) with 58 in Hin. lia.
Qed.

Lemma dec_inj n m : 0 <= n < two_31 -> 0 <= m < two_31 -> dec n = dec m -> n = m.
Proof.
  intros Hn Hm He. unfold two_31 in *. destruct (dec_fixed n) as (k & _ & Hk & _ & En); [lia|].
  destruct (dec_fixed m) as (k' & _ & Hk' & _ & Em); [lia|]. rewrite En, Em in He.
  pose proof (f_equal length He) as Hl. rewrite !length_fixed in Hl. subst k'. apply fixed_inj in He; [done|lia..].
Qed.

(** Two texts that agree up to the first mark. *)
Lemma first_mark (c : char) s1 : forall s2 t1 t2, c ∉ s1 -> c ∉ s2 -> s1 ++ c :: t1 = s2 ++ c :: t2 -> s1 = s2 /\ t1 = t2.
Proof.
  induction s1 as [|x s1 IH]; intros [|y s2] t1 t2 H1 H2 He; cbn [app] in He; simplify_eq; [done|set_solver|set_solver|].
  destruct (IH s2 t1 t2) as [-> ->]; [set_solver..|done|done].
Qed.
End DiagnosticsFacts.

(** ** Properties *)
Module DiagnosticsTheorems.
Import DiagnosticsSpec DiagnosticsFacts.

(** Different seconds make different names for the files of one log, so that the
    files that [LogFileTheorems.logfile_lines] tells apart by their seconds are
    different files. *)
Theorem log_file_names_differ `{CTime} basename hostname pid t t' :
  nameable t -> nameable t' ->
  (LogFileName.getLogFileName basename hostname pid t).1 = (LogFileName.getLogFileName basename hostname pid t').1 -> t = t'.
Proof.
  intros Ht Ht'. rewrite !log_file_name by done. intros He%app_inv_head.
  apply app_inj_1 in He as [He _]; [|by rewrite !length_stamp].
  destruct (nameable_tm t Ht) as (Hv & Hc & Hy), (nameable_tm t' Ht') as (Hv' & Hc' & Hy').
  rewrite <-Hc, <-Hc'. by apply stamp_inj.
Qed.

(** A stack trace has one line per frame, in order, without that of [stackTrace]
    itself, and the lines can be read back. *)
Theorem stack_trace_lines cxa_demangle frames demangle :
  Forall (fun s => StackTrace.newline ∉ StackTrace.line cxa_demangle demangle s) frames ->
  lines_of [] (StackTrace.stackTrace cxa_demangle (Some frames) demangle) = StackTrace.line cxa_demangle demangle <$> drop 1 frames.
Proof.
  intros Hn. unfold StackTrace.stackTrace.
  rewrite <-(lines_of_concat (StackTrace.line cxa_demangle demangle <$> drop 1 frames)).
  - f_equal. f_equal. by rewrite <-list_fmap_compose.
  - apply Forall_fmap. by apply Forall_drop.
Qed.

(** Demangling replaces the symbol of a frame and nothing else. *)
Theorem demangled_frames cxa_demangle s :
  (forall x, ")"%char ∈ x -> cxa_demangle x = None) ->
  (exists a b, s = a ++ ("("%char :: b) /\ ("("%char ∉ b) /\ (")"%char ∈ b)) ->
  StackTrace.line cxa_demangle true s = s \/
  exists pre sym name post, s = pre ++ ("("%char :: sym ++ ("+"%char :: post)) /\ cxa_demangle sym = Some name /\
    StackTrace.line cxa_demangle true s = pre ++ ("("%char :: name ++ ("+"%char :: post)).
Proof. apply line_demangled. Qed.

(** The text of a mask tells the descriptor and the named events. *)
Theorem events_text_faithful fd fd' ev ev' :
  0 <= fd < two_31 -> 0 <= fd' < two_31 ->
  EventsText.eventsToString fd ev = EventsText.eventsToString fd' ev' <->
  fd = fd' /\ Z.land ev named_events = Z.land ev' named_events.
Proof.
  intros Hfd Hfd'. rewrite <-bits_land, !events_text.
  destruct (show_fd fd Hfd) as [-> Hn], (show_fd fd' Hfd') as [-> Hn']. split.
  - intros [He [= Hf]]%first_mark; [|done..]. split; [by apply dec_inj|]. by apply flags_inj.
  - by intros [-> ->].
Qed.

Example frame_demangled :
  let cxa x := if bool_decide (x = lit "_ZN3Bar4testEv") then Some (lit "Bar::test()") else None in
  StackTrace.line cxa true (lit "bin/exception_test(_ZN3Bar4testEv+0x79) [0x401909]") =
    lit "bin/exception_test(Bar::test()+0x79) [0x401909]".
Proof. vm_compute. reflexivity. Qed.

Example events_example : EventsText.eventsToString 7 (Z.lor POLLIN POLLHUP) = lit "7: IN HUP ".
Proof. vm_compute. reflexivity. Qed.
End DiagnosticsTheorems.
