(* ===== verification/ConnectionLifetimes.v ===== *)
(** * ConnectionLifetimes: who keeps a connection alive

    The life of one [TcpConnection] of a [TcpServer]
    ([src/muduo/net/TcpConnection.cc], [TcpServer.cc]) under any interleaving of
    its I/O loop, the base loop of the server and other threads that hold a
    [TcpConnectionPtr].  The object is reference counted: the map of the server,
    the functors bound to [shared_from_this()] and the user's pointers count,
    functors bound to [this] and delayed closings ([WeakCallback],
    [src/muduo/base/WeakCallback.h]) do not; it is destroyed when the count
    drops to zero.  The public functions test [state_] and act on it in two
    steps; what another thread does in between is visible. *)
From S2P Require Import Prelude Endian NetBuffer Timestamps Channels TcpConnections.

Local Open Scope Z_scope.
Local Open Scope muduo_scope.

(** [WeakCallback]: the function is called if the object can still be locked,
    and the pointer that [lock()] returns keeps it alive during the call. *)
Module WeakCallback.
Definition call {W} (lock : W -> bool) (function_ : W -> W) (w : W) : W := if lock w then function_ w else w.
End WeakCallback.

Module Lifetime.
Import TcpConnection (StateE, kDisconnected, kConnecting, kConnected, kDisconnecting).

(** The public functions that other threads may call. *)
Inductive op : Type := Send | Shutdown | ForceClose | ForceCloseWithDelay | StartRead | StopRead.

(** What is queued in the I/O loop for this connection. *)
Inductive functor : Type :=
  | ConnectEstablished
  | SendInLoop
  | ShutdownInLoop
  | ForceCloseInLoop
  | StartReadInLoop
  | StopReadInLoop
  | UserCallback             (* write complete or high-water mark *)
  | ConnectDestroyed.

Global Instance op_eq_dec : EqDecision op.
Proof. solve_decision. Defined.
Global Instance functor_eq_dec : EqDecision functor.
Proof. solve_decision. Defined.

(** Bound to a [TcpConnectionPtr], or to [this]. *)
Definition strong (f : functor) : bool :=
  match f with SendInLoop | ShutdownInLoop | StartReadInLoop | StopReadInLoop => false | _ => true end.

(** A thread that holds a [TcpConnectionPtr]: idle, or inside a function whose
    test of [state_] has succeeded. *)
Inductive user : Type := Idle | Checked (o : op).

Record t : Type := mk {
  state_ : StateE;
  reading_ : bool;
  reads : bool;              (* [channel_->isReading()] *)
  writes : bool;             (* [channel_->isWriting()] *)
  added : bool;              (* the channel is on the loop *)
  in_map : bool;             (* the server's map holds the connection *)
  io : list functor;         (* queued in the I/O loop *)
  in_functors : bool;        (* the I/O loop is inside [doPendingFunctors] *)
  running : list functor;    (* its local vector: still to be run *)
  spent : list functor;      (* run; the vector keeps them until its end *)
  base : nat;                (* [removeConnectionInLoop]s queued in the base loop *)
  base_spent : nat;          (* run there; the vector of the base loop keeps them *)
  timers : nat;              (* delayed closings, weak *)
  users : gmap Z user;       (* other holders of a [TcpConnectionPtr] *)
  alive : bool;
}.

(** [TcpServer::newConnection]: the map holds the connection, [connectEstablished] is on its way. *)
Definition init : t := mk kConnecting true false false false true [ConnectEstablished] false [] [] 0 0 0 ∅ true.

Definition count (q : list functor) : nat := length (List.filter strong q).
Definition refs (s : t) : nat :=
  ((if in_map s then 1 else 0) + count (io s) + count (running s) + count (spent s) + base s + base_spent s + size (users s))%nat.

Definition set_state st (s : t) : t := mk st (reading_ s) (reads s) (writes s) (added s) (in_map s) (io s) (in_functors s) (running s) (spent s) (base s) (base_spent s) (timers s) (users s) (alive s).
Definition set_channel r rd wr ad (s : t) : t := mk (state_ s) r rd wr ad (in_map s) (io s) (in_functors s) (running s) (spent s) (base s) (base_spent s) (timers s) (users s) (alive s).
Definition set_map m (s : t) : t := mk (state_ s) (reading_ s) (reads s) (writes s) (added s) m (io s) (in_functors s) (running s) (spent s) (base s) (base_spent s) (timers s) (users s) (alive s).
Definition set_io q (s : t) : t := mk (state_ s) (reading_ s) (reads s) (writes s) (added s) (in_map s) q (in_functors s) (running s) (spent s) (base s) (base_spent s) (timers s) (users s) (alive s).
Definition set_vector b r sp (s : t) : t := mk (state_ s) (reading_ s) (reads s) (writes s) (added s) (in_map s) (io s) b r sp (base s) (base_spent s) (timers s) (users s) (alive s).
Definition set_base n m (s : t) : t := mk (state_ s) (reading_ s) (reads s) (writes s) (added s) (in_map s) (io s) (in_functors s) (running s) (spent s) n m (timers s) (users s) (alive s).
Definition set_timers n (s : t) : t := mk (state_ s) (reading_ s) (reads s) (writes s) (added s) (in_map s) (io s) (in_functors s) (running s) (spent s) (base s) (base_spent s) n (users s) (alive s).
Definition set_users u (s : t) : t := mk (state_ s) (reading_ s) (reads s) (writes s) (added s) (in_map s) (io s) (in_functors s) (running s) (spent s) (base s) (base_spent s) (timers s) u (alive s).
Definition set_alive b (s : t) : t := mk (state_ s) (reading_ s) (reads s) (writes s) (added s) (in_map s) (io s) (in_functors s) (running s) (spent s) (base s) (base_spent s) (timers s) (users s) b.
Definition queue f (s : t) := set_io (io s ++ [f]) s.

Definition closable (s : t) : bool := bool_decide (state_ s = kConnected \/ state_ s = kDisconnecting).

(** The destructor, with that of its channel. *)
Definition settle (s : t) : outcome t :=
  if alive s && bool_decide (refs s = 0%nat) then
    assert_ (bool_decide (state_ s = kDisconnected));;
    assert_ (negb (added s));;
    mret (set_alive false s)
  else mret s.

(** Does the base loop run in the thread of the I/O loop? *)
Section step.
Context (same_loop : bool).

(** [removeConnectionInLoop]: one more reference, bound to [connectDestroyed]. *)
Definition removeConnectionInLoop (s : t) : outcome t :=
  assert_ (in_map s);;
  mret (queue ConnectDestroyed (set_map false s)).
Definition removeConnection (s : t) : outcome t :=
  if same_loop then removeConnectionInLoop s else mret (set_base (S (base s)) (base_spent s) s).

Definition handleClose (s : t) : outcome t :=
  assert_ (closable s);;
  removeConnection (set_channel (reading_ s) false false true (set_state kDisconnected s)).

(** [callback]: a callback was queued; [writes'] : output is left in the buffer. *)
Definition sendInLoop (callback writes' : bool) (s : t) : t :=
  if bool_decide (state_ s = kDisconnected) then s
  else
    let s := if callback then queue UserCallback s else s in
    if writes' then set_channel (reading_ s) (reads s) true true s else s.

Definition startReadInLoop (s : t) : t :=
  if negb (reading_ s) || negb (reads s) then set_channel true true (writes s) true s else s.
Definition stopReadInLoop (s : t) : t :=
  if reading_ s || reads s then set_channel false false (writes s) true s else s.

Definition forceCloseInLoop (s : t) : outcome t := if closable s then handleClose s else mret s.

Definition connectEstablished (s : t) : outcome t :=
  assert_ (bool_decide (state_ s = kConnecting));;
  mret (set_channel (reading_ s) true (writes s) true (set_state kConnected s)).

Definition connectDestroyed (s : t) : outcome t :=
  let s := if bool_decide (state_ s = kConnected)
           then set_channel (reading_ s) false false true (set_state kDisconnected s) else s in
  assert_ (negb (reads s) && negb (writes s));;
  assert_ (added s);;
  mret (set_channel (reading_ s) (reads s) (writes s) false s).

(** The I/O loop runs a functor that it has taken out of its queue. *)
Definition run_functor (callback writes' : bool) (f : functor) (s : t) : outcome t :=
  if alive s then
    match f with
    | ConnectEstablished => connectEstablished s
    | SendInLoop => mret (sendInLoop callback writes' s)
    | ShutdownInLoop => mret s
    | ForceCloseInLoop => forceCloseInLoop s
    | StartReadInLoop => mret (startReadInLoop s)
    | StopReadInLoop => mret (stopReadInLoop s)
    | UserCallback => mret s
    | ConnectDestroyed => connectDestroyed s
    end
  else Fault Undefined.      (* a function of a destroyed object *)

(** The test of [state_] at the start of a function. *)
Definition check (o : op) (s : t) : bool :=
  match o with
  | Send | Shutdown => bool_decide (state_ s = kConnected)
  | ForceClose | ForceCloseWithDelay => closable s
  | StartRead | StopRead => true
  end.

(** The rest of the function in another thread. *)
Definition act (o : op) (s : t) : t :=
  match o with
  | Send => queue SendInLoop s
  | Shutdown => queue ShutdownInLoop (set_state kDisconnecting s)
  | ForceClose => queue ForceCloseInLoop (set_state kDisconnecting s)
  | ForceCloseWithDelay => set_timers (S (timers s)) (set_state kDisconnecting s)
  | StartRead => queue StartReadInLoop s
  | StopRead => queue StopReadInLoop s
  end.

(** [forceClose] queues its functor in any thread. *)
Definition forceClose (s : t) : t := if check ForceClose s then act ForceClose s else s.

(** The same function in the thread of the I/O loop, called from a callback. *)
Definition act_in_loop (callback writes' : bool) (o : op) (s : t) : t :=
  match o with
  | Send => sendInLoop callback writes' s
  | Shutdown => set_state kDisconnecting s
  | StartRead => startReadInLoop s
  | StopRead => stopReadInLoop s
  | o => act o s
  end.

Inductive label : Type :=
  | SwapFunctors                              (* the I/O loop enters [doPendingFunctors] *)
  | RunFunctor (callback writes' : bool)      (* runs the next functor *)
  | EndFunctors                               (* and leaves: the vector is destroyed *)
  | PeerCloses                                (* the I/O loop: an event that closes *)
  | Drained (callback : bool)                 (* the I/O loop: the last of the output is written *)
  | Call (callback writes' : bool) (o : op)   (* the I/O loop: a callback of the user calls [o] *)
  | TimerFires                                (* the I/O loop: a delayed closing *)
  | RunBase                                   (* the base loop: the next removal *)
  | EndBase                                   (* its vector is destroyed *)
  | Share (i : Z)                             (* thread [i] gets a pointer *)
  | Drop (i : Z)                              (* and lets it go *)
  | Check (i : Z) (o : op)
  | Act (i : Z).

(** The step that a label stands for; nothing happens if it is not enabled. *)
Definition step (s : t) (lb : label) : outcome t :=
  match lb with
  | SwapFunctors => if in_functors s then mret s else mret (set_io [] (set_vector true (io s) [] s))
  | RunFunctor callback writes' =>
      match running s with
      | [] => mret s
      | f :: q => run_functor callback writes' f (set_vector (in_functors s) q (f :: spent s) s)
      end
  | EndFunctors =>
      match in_functors s, running s with
      | true, [] => settle (set_vector false [] [] s)
      | _, _ => mret s
      end
  | PeerCloses =>
      if negb (in_functors s) && added s && (reads s || writes s) && alive s then handleClose s else mret s
  | Drained callback =>
      if negb (in_functors s) && added s && writes s && alive s
      then let s := set_channel (reading_ s) (reads s) false true s in
           mret (if callback then queue UserCallback s else s)
      else mret s
  | Call callback writes' o =>
      if alive s && check o s then mret (act_in_loop callback writes' o s) else mret s
  | TimerFires =>
      match in_functors s, timers s with
      | true, _ | _, O => mret s
      | false, S n =>
          mret (WeakCallback.call alive forceClose (set_timers n s))
      end
  | RunBase =>
      match base s with
      | O => mret s
      | S n => removeConnectionInLoop (set_base n (S (base_spent s)) s)
      end
  | EndBase => settle (set_base (base s) 0 s)
  | Share i =>
      match users s !! i with
      | None => if alive s then mret (set_users (<[i := Idle]> (users s)) s) else mret s
      | Some _ => mret s
      end
  | Drop i =>
      match users s !! i with
      | Some Idle => settle (set_users (delete i (users s)) s)
      | _ => mret s
      end
  | Check i o =>
      match users s !! i with
      | Some Idle => if check o s then mret (set_users (<[i := Checked o]> (users s)) s) else mret s
      | _ => mret s
      end
  | Act i =>
      match users s !! i with
      | Some (Checked o) => mret (act o (set_users (<[i := Idle]> (users s)) s))
      | _ => mret s
      end
  end.
End step.
End Lifetime.

(** ** Specification *)
Module LifetimeSpec.
Import TcpConnection (StateE, kDisconnected, kConnecting, kConnected, kDisconnecting).
Import Lifetime.

(** [startRead] and [stopRead], which test nothing, are called in the I/O loop
    and only while the connection is up; and the connection is not closed
    between the test of [state_] and the effect of a call of another thread. *)
Definition allowed (s : t) (lb : label) : Prop :=
  match lb with
  | Call _ _ StartRead | Call _ _ StopRead => closable s = true
  | Check _ StartRead | Check _ StopRead => False
  | Act i => forall o, users s !! i = Some (Checked o) -> closable s = true
  | _ => True
  end.

Fixpoint permitted (same_loop : bool) (s : t) (lbs : list label) : Prop :=
  match lbs with
  | [] => True
  | lb :: lbs => allowed s lb /\ forall s', step same_loop s lb = Done s' -> permitted same_loop s' lbs
  end.

(** What the I/O loop will run, in order. *)
Definition queued (s : t) : list functor := running s ++ io s.

Definition all_strong (q : list functor) : Prop := forall f, f ∈ q -> strong f = true.

(** Where the connection is in its life. *)
Definition phase (s : t) : Prop :=
  match state_ s with
  | kConnecting => queued s = [ConnectEstablished] /\ in_map s = true /\ base s = 0%nat /\ reads s = false /\ writes s = false
  | kConnected | kDisconnecting =>
      in_map s = true /\ base s = 0%nat /\ added s = true /\ (ConnectEstablished ∉ queued s) /\ ConnectDestroyed ∉ queued s
  | kDisconnected =>
      reads s = false /\ writes s = false /\ (ConnectEstablished ∉ queued s) /\
      ( (* closed, the base loop is to remove it *)
       (in_map s = true /\ base s = 1%nat /\ added s = true /\ ConnectDestroyed ∉ queued s) \/
       (* removed, to be taken off the loop: nothing queued behind that may outlive it *)
       (in_map s = false /\ base s = 0%nat /\ added s = true /\
        exists pre post, queued s = pre ++ ConnectDestroyed :: post /\ (ConnectDestroyed ∉ pre) /\ (ConnectDestroyed ∉ post) /\ all_strong post) \/
       (* off the loop *)
       (in_map s = false /\ base s = 0%nat /\ added s = false /\ (ConnectDestroyed ∉ queued s) /\ all_strong (queued s)))
  end.

Record inv (s : t) : Prop := {
  inv_alive : alive s = bool_decide (refs s <> 0%nat);
  inv_users i o : users s !! i = Some (Checked o) -> o <> StartRead /\ o <> StopRead;
  inv_vector : in_functors s = false -> running s = [] /\ spent s = [];
  inv_phase : phase s;
  inv_quiet f : f ∈ queued s -> f <> StartReadInLoop /\ f <> StopReadInLoop;
}.
End LifetimeSpec.

(** ** Lemmas *)
Module LifetimeFacts.
Import TcpConnection (StateE, kDisconnected, kConnecting, kConnected, kDisconnecting).
Import Lifetime LifetimeSpec.

Lemma life_count_app q1 q2 : count (q1 ++ q2) = (count q1 + count q2)%nat.
Proof. unfold count. by rewrite List.filter_app, length_app. Qed.

Lemma count_cons f q : count (f :: q) = ((if strong f then 1 else 0) + count q)%nat.
Proof. unfold count. simpl. by destruct (strong f). Qed.

Lemma count_nil : count [] = 0%nat.
Proof. done. Qed.

Lemma count_elem f q : strong f = true -> f ∈ q -> count q <> 0%nat.
Proof.
  intros Hf Hin. apply list_elem_of_split in Hin as (q1 & q2 & ->). rewrite life_count_app, count_cons, Hf. lia.
Qed.

Lemma refs_queued s :
  refs s = ((if in_map s then 1 else 0) + count (queued s) + count (spent s) + base s + base_spent s + size (users s))%nat.
Proof. unfold refs, queued. rewrite life_count_app. lia. Qed.

(** Counting references in states that are built by the operations. *)
Ltac refs_lia :=
  rewrite !refs_queued; unfold queued; cbn -[count size app];
  rewrite ?life_count_app, ?count_cons, ?count_nil; cbn [strong]; try case_match; lia.

(** Only a connection that is off the loop can be without references. *)
Lemma phase_refs s : phase s -> refs s = 0%nat -> state_ s = kDisconnected /\ added s = false.
Proof.
  intros Hp Hr. rewrite refs_queued in Hr. unfold phase in Hp. destruct (state_ s).
  - split; [done|]. destruct Hp as (_ & _ & _ & [(Hm & _)|[(_ & _ & _ & pre & post & Hq & _)|(_ & _ & Ha & _)]]).
    + rewrite Hm in Hr. lia.
    + rewrite Hq, life_count_app, count_cons in Hr. simpl in Hr. lia.
    + done.
  - destruct Hp as (_ & Hm & _). rewrite Hm in Hr. lia.
  - destruct Hp as (Hm & _). rewrite Hm in Hr. lia.
  - destruct Hp as (Hm & _). rewrite Hm in Hr. lia.
Qed.

(** A functor bound to [this] is only queued while something else keeps the object alive. *)
Lemma phase_raw s f : phase s -> f ∈ queued s -> refs s <> 0%nat.
Proof.
  intros Hp Hin Hr. pose proof (phase_refs s Hp Hr) as [Hst Ha]. unfold phase in Hp. rewrite Hst in Hp.
  destruct Hp as (_ & _ & _ & [(_ & _ & ? & _)|[(_ & _ & ? & _)|(_ & _ & _ & _ & Hs)]]); [congruence..|].
  rewrite refs_queued in Hr. pose proof (count_elem f _ (Hs f Hin) Hin). lia.
Qed.

(** The phase depends on the queue as a whole, not on where its parts are. *)
Lemma phase_ext s s' :
  phase s -> state_ s' = state_ s -> reads s' = reads s -> writes s' = writes s -> added s' = added s ->
  in_map s' = in_map s -> queued s' = queued s -> base s' = base s -> phase s'.
Proof. unfold phase. intros Hp -> -> -> -> -> -> ->. done. Qed.

(** References are given up: the destructor runs if they were the last. *)
Lemma settle_ok s :
  (refs s <> 0%nat -> alive s = true) ->
  (forall i o, users s !! i = Some (Checked o) -> o <> StartRead /\ o <> StopRead) ->
  (in_functors s = false -> running s = [] /\ spent s = []) -> phase s ->
  (forall f, f ∈ queued s -> f <> StartReadInLoop /\ f <> StopReadInLoop) ->
  exists s', settle s = Done s' /\ inv s'.
Proof.
  intros Ha Hu Hv Hp Hq. unfold settle. destruct (alive s) eqn:Hal; cbn [andb].
  - case_bool_decide as Hr.
    + destruct (phase_refs s Hp Hr) as [Hst Had]. rewrite Hst, Had. rewrite (bool_decide_eq_true_2 (_ = _)) by done.
      eexists. split; [done|]. constructor; try done. simpl. symmetry. apply bool_decide_eq_false_2. intros Hn. by apply Hn.
    + exists s. split; [done|]. constructor; try done. rewrite Hal. symmetry. by apply bool_decide_eq_true_2.
  - exists s. split; [done|]. constructor; try done. rewrite Hal. symmetry. apply bool_decide_eq_false_2.
    intros Hr. apply Ha in Hr. done.
Qed.

(** The functors of [s'] are those of [s], or harmless. *)
Definition quiet_step s s' : Prop :=
  forall f, f ∈ queued s' -> f ∈ queued s \/ (f <> StartReadInLoop /\ f <> StopReadInLoop).

(** Steps that keep the references: only the phase is to be shown. *)
Lemma life_inv_same s s' :
  inv s -> refs s' = refs s -> alive s' = alive s -> users s' = users s ->
  (in_functors s' = false -> running s' = [] /\ spent s' = []) -> phase s' -> quiet_step s s' -> inv s'.
Proof.
  intros [Ha Hu Hv Hp Hq] Hr Hal Hus Hv' Hp' Hs. constructor; [by rewrite Hal, Hr|by rewrite Hus|done|done|].
  intros f Hf. destruct (Hs f Hf); auto.
Qed.

(** A strong functor is added while the object is alive. *)
Lemma inv_grow s s' :
  inv s -> alive s = true -> refs s' <> 0%nat -> alive s' = true -> users s' = users s ->
  (in_functors s' = false -> running s' = [] /\ spent s' = []) -> phase s' -> quiet_step s s' -> inv s'.
Proof.
  intros [Ha Hu Hv Hp Hq] _ Hr Hal Hus Hv' Hp' Hs. constructor; [|by rewrite Hus|done|done|].
  - rewrite Hal. symmetry. by apply bool_decide_eq_true_2.
  - intros f Hf. destruct (Hs f Hf); auto.
Qed.

Lemma quiet_same s s' : queued s' = queued s -> quiet_step s s'.
Proof. intros Hq f. rewrite Hq. by left. Qed.

Lemma closable_spec s : closable s = true <-> state_ s = kConnected \/ state_ s = kDisconnecting.
Proof. unfold closable. by rewrite bool_decide_eq_true. Qed.

Lemma queued_queue f s : queued (queue f s) = queued s ++ [f].
Proof. unfold queued. simpl. by rewrite app_assoc. Qed.

Lemma refs_queue f s : refs (queue f s) = (refs s + if strong f then 1 else 0)%nat.
Proof. rewrite !refs_queued, queued_queue, life_count_app, count_cons.
  cbn [in_map spent base base_spent users queue set_io]. rewrite count_nil. lia.
Qed.

(** An open connection, whatever its channel watches and however it is closing. *)
Lemma phase_open s :
  closable s = true -> phase s <->
  in_map s = true /\ base s = 0%nat /\ added s = true /\ (ConnectEstablished ∉ queued s) /\ ConnectDestroyed ∉ queued s.
Proof. intros [Hs|Hs]%closable_spec; unfold phase; by rewrite Hs. Qed.

Lemma phase_queue s f :
  phase s -> f <> ConnectEstablished -> f <> ConnectDestroyed ->
  closable s = true \/ (state_ s = kDisconnected /\ strong f = true) -> phase (queue f s).
Proof.
  intros Hp H1 H2 [Hc|[Hst Hf]].
  - rewrite (phase_open s Hc) in Hp. apply phase_open; [done|]. rewrite queued_queue. simpl. set_solver.
  - unfold phase in *. change (state_ (queue f s)) with (state_ s). rewrite Hst in *. rewrite queued_queue.
    destruct Hp as (Hr & Hw & Hce & Hor). split_and!; [done|done|set_solver|]. destruct Hor as [H|[H|H]].
    + left. simpl. set_solver.
    + right. left. destruct H as (? & ? & ? & pre & post & Hq & ? & ? & Hs). split_and!; [done..|].
      exists pre, (post ++ [f]). rewrite Hq, <-app_assoc. split_and!; [done|done|set_solver|].
      intros g [Hg| ->%list_elem_of_singleton]%elem_of_app; [by apply Hs|done].
    + right. right. destruct H as (? & ? & ? & ? & Hs). split_and!; [done..|set_solver|].
      intros g [Hg| ->%list_elem_of_singleton]%elem_of_app; [by apply Hs|done].
Qed.

Lemma life_inv_queue s f :
  inv s -> alive s = true -> f <> ConnectEstablished -> f <> ConnectDestroyed ->
  f <> StartReadInLoop -> f <> StopReadInLoop ->
  closable s = true \/ (state_ s = kDisconnected /\ strong f = true) -> inv (queue f s).
Proof.
  intros Hi Ha H1 H2 H3 H4 Hor. eapply inv_grow; [done|done| |done|done|apply Hi|by apply phase_queue; [apply Hi|..]|].
  2: { intros g. rewrite queued_queue. intros [?| ->%list_elem_of_singleton]%elem_of_app; auto. }
  rewrite refs_queue. pose proof (inv_alive _ Hi) as Hr. rewrite Ha in Hr. symmetry in Hr. apply bool_decide_eq_true_1 in Hr. lia.
Qed.

(** Changes of an open connection that its references do not see. *)
Lemma inv_open s s' :
  inv s -> closable s = true -> closable s' = true -> refs s' = refs s -> alive s' = alive s -> users s' = users s ->
  in_functors s' = in_functors s -> running s' = running s -> spent s' = spent s -> io s' = io s ->
  in_map s' = in_map s -> base s' = base s -> added s' = true -> inv s'.
Proof.
  intros Hi Hc Hc' Hr Ha Hu E1 E2 E3 E4 E5 E6 E7.
  eapply life_inv_same; [done|done|done|done| | |apply quiet_same; unfold queued; by rewrite E2, E4].
  - rewrite E1, E2, E3. apply Hi.
  - apply phase_open; [done|]. pose proof (proj1 (phase_open s Hc) (inv_phase _ Hi)) as (? & ? & _ & ? & ?).
    unfold queued in *. rewrite E2, E4, E5, E6. by repeat (split; [done|]).
Qed.

Section same_loop.
Context (same_loop : bool).

Lemma life_handleClose_ok s :
  inv s -> alive s = true -> closable s = true -> exists s', handleClose same_loop s = Done s' /\ inv s'.
Proof.
  intros Hi Ha Hc. pose proof (proj1 (phase_open s Hc) (inv_phase _ Hi)) as (Hm & Hb & Had & Hce & Hcd).
  unfold handleClose, removeConnection, removeConnectionInLoop. rewrite Hc. cbn [assert_ mbind outcome_bind].
  destruct same_loop.
  - simpl. rewrite Hm. simpl. eexists. split; [done|]. eapply life_inv_same; [exact Hi| |done|done|apply Hi| |].
    + rewrite !refs_queued. unfold queued. cbn -[count size app]. rewrite Hm. rewrite ?life_count_app, ?count_cons, ?count_nil. cbn [strong]. lia.
    + unfold phase, queued. simpl. split_and!; [done|done|set_solver|]. right. left. split_and!; [done|done|done|].
      exists (queued s), []. unfold queued. rewrite app_assoc. split_and!; [done|done|set_solver|by intros f ?%not_elem_of_nil].
    + intros f. unfold queued. simpl. rewrite app_assoc. intros [?| ->%list_elem_of_singleton]%elem_of_app; auto.
  - eexists. split; [done|]. eapply inv_grow; [exact Hi|done| |done|done|apply Hi| |by apply quiet_same].
    + rewrite refs_queued. simpl. lia.
    + unfold phase, queued in *. simpl. split_and!; [done|done|done|]. left. by rewrite Hb, Hm.
Qed.

Lemma forceCloseInLoop_ok s : inv s -> alive s = true -> exists s', forceCloseInLoop same_loop s = Done s' /\ inv s'.
Proof.
  intros Hi Ha. unfold forceCloseInLoop. destruct (closable s) eqn:Hc; [by apply life_handleClose_ok|by exists s].
Qed.

Lemma life_sendInLoop_ok cb wr s : inv s -> alive s = true -> state_ s <> kConnecting -> inv (sendInLoop cb wr s).
Proof.
  intros Hi Ha Hst. unfold sendInLoop. case_bool_decide as Hd; [done|].
  assert (closable s = true) as Hc by (apply closable_spec; destruct (state_ s); auto; done).
  assert (inv (if cb then queue UserCallback s else s)) as Hi' by (destruct cb; [apply life_inv_queue; auto|done]).
  set (s' := if cb then _ else _) in *. assert (closable s' = true) as Hc' by (unfold s'; by destruct cb).
  destruct wr; [|done]. by apply (inv_open s').
Qed.

Lemma inv_reading s r rd : inv s -> closable s = true -> inv (set_channel r rd (writes s) true s).
Proof. intros Hi Hc. by apply (inv_open s). Qed.

(** A functor is taken out of the local vector, which keeps it. *)
Definition pop (f : functor) (q : list functor) (s : t) : t := set_vector (in_functors s) q (f :: spent s) s.

Lemma refs_pop f q s : running s = f :: q -> refs (pop f q s) = refs s.
Proof. intros Hr. rewrite !refs_queued. unfold queued. cbn -[count size app]. rewrite Hr. cbn [app]. rewrite !count_cons, !life_count_app. lia. Qed.

Lemma inv_pop f q s :
  inv s -> running s = f :: q -> f <> ConnectEstablished -> f <> ConnectDestroyed -> inv (pop f q s) /\ state_ s <> kConnecting.
Proof.
  intros Hi Hr H1 H2. assert (queued s = f :: queued (pop f q s)) as Hq by (unfold queued; simpl; by rewrite Hr).
  pose proof (inv_phase _ Hi) as Hp. unfold phase in Hp.
  assert (state_ s <> kConnecting) as Hst.
  { intros Hst. rewrite Hst, Hq in Hp. destruct Hp as ([= Hf _] & _). done. }
  split; [|done]. eapply life_inv_same; [done|by apply refs_pop|done|done| | |intros g Hg; left; rewrite Hq; by right].
  { simpl. intros Hf. apply (inv_vector _ Hi) in Hf as [Hf _]. congruence. }
  unfold phase. change (state_ (pop f q s)) with (state_ s). set (q' := queued (pop f q s)) in *.
  destruct (state_ s); [|done|rewrite Hq in Hp; simpl; set_solver|rewrite Hq in Hp; simpl; set_solver].
  rewrite Hq in Hp. destruct Hp as (? & ? & ? & Hor). split_and!; [done|done|set_solver|]. simpl.
  destruct Hor as [Hx|[Hx|Hx]]; [left; set_solver|right; left|right; right].
  - destruct Hx as (? & ? & ? & pre & post & He & Hpre & ? & ?). split_and!; [done..|].
    destruct pre as [|g pre]; simplify_eq/=. exists pre, post. split_and!; [done|set_solver|done|done].
  - destruct Hx as (? & ? & ? & Hcd & Hs). split_and!; [done..|set_solver|]. intros g Hg. apply Hs. set_solver.
Qed.

Lemma established_ok q s : inv s -> running s = ConnectEstablished :: q ->
  exists s', connectEstablished (pop ConnectEstablished q s) = Done s' /\ inv s'.
Proof.
  intros Hi Hr. assert (queued s = ConnectEstablished :: queued (pop ConnectEstablished q s)) as Hq by (unfold queued; simpl; by rewrite Hr).
  pose proof (inv_phase _ Hi) as Hp. unfold phase in Hp. destruct (state_ s) eqn:Hst; rewrite Hq in Hp; try (exfalso; set_solver).
  destruct Hp as ([= Hq'] & Hm & Hb & _). unfold connectEstablished. simpl. rewrite Hst. simpl. eexists. split; [done|].
  eapply life_inv_same; [exact Hi|by apply refs_pop|done|done| | |intros g Hg; left; rewrite Hq; by right].
  - simpl. intros Hf. apply (inv_vector _ Hi) in Hf as [Hf _]. congruence.
  - unfold phase. simpl. unfold queued in *. simpl in *. rewrite Hq'. split_and!; [done|done|done|set_solver|set_solver].
Qed.

Lemma destroyed_ok q s : inv s -> running s = ConnectDestroyed :: q ->
  exists s', connectDestroyed (pop ConnectDestroyed q s) = Done s' /\ inv s'.
Proof.
  intros Hi Hr. assert (queued s = ConnectDestroyed :: queued (pop ConnectDestroyed q s)) as Hq by (unfold queued; simpl; by rewrite Hr).
  pose proof (inv_phase _ Hi) as Hp. unfold phase in Hp. destruct (state_ s) eqn:Hst; rewrite Hq in Hp; try (exfalso; set_solver).
  destruct Hp as (Hrd & Hwr & Hce & [H|[H|H]]); [exfalso; set_solver| |exfalso; set_solver].
  destruct H as (Hm & Hb & Had & pre & post & He & Hpre & Hpost & Hs).
  destruct pre as [|g pre]; simplify_eq/=; [|exfalso; set_solver].
  unfold connectDestroyed. simpl. rewrite Hst. simpl. rewrite Hrd, Hwr, Had. simpl. eexists. split; [done|].
  eapply life_inv_same; [exact Hi|by apply refs_pop|done|done| | |intros g Hg; left; rewrite Hq; by right].
  - simpl. intros Hf. apply (inv_vector _ Hi) in Hf as [Hf _]. congruence.
  - unfold phase. simpl. rewrite Hst. unfold queued in *. simpl in *. split_and!; [done|done|set_solver|].
    right. right. by split_and!.
Qed.

Lemma run_ok cb wr s f q :
  inv s -> running s = f :: q -> exists s', run_functor same_loop cb wr f (pop f q s) = Done s' /\ inv s'.
Proof.
  intros Hi Hr. assert (alive s = true) as Ha.
  { rewrite (inv_alive _ Hi). apply bool_decide_eq_true_2, (phase_raw s f); [apply Hi|]. unfold queued. rewrite Hr. set_solver. }
  unfold run_functor. change (alive (pop f q s)) with (alive s). rewrite Ha.
  destruct (decide (f = ConnectEstablished)) as [->|H1]; [by apply established_ok|].
  destruct (decide (f = ConnectDestroyed)) as [->|H2]; [by apply destroyed_ok|].
  destruct (inv_pop f q s Hi Hr H1 H2) as [Hi' Hst].
  assert (alive (pop f q s) = true) as Ha' by done. assert (state_ (pop f q s) <> kConnecting) as Hst' by done.
  assert (f <> StartReadInLoop /\ f <> StopReadInLoop) as [H3 H4]
    by (apply (inv_quiet _ Hi); unfold queued; rewrite Hr; by left).
  destruct f; try done; try (eexists; split; [done|]; done).
  - eexists. split; [done|]. by apply life_sendInLoop_ok.
  - by apply forceCloseInLoop_ok.
Qed.

Lemma open_added s : inv s -> closable s = true -> added s = true.
Proof. intros Hi Hc. by destruct (proj1 (phase_open s Hc) (inv_phase _ Hi)) as (_ & _ & ? & _). Qed.

Lemma life_inv_disconnecting n s : inv s -> closable s = true -> inv (set_timers n (set_state kDisconnecting s)).
Proof.
  intros Hi Hc. pose proof (open_added s Hi Hc). by apply (inv_open s).
Qed.

(** A public function in the I/O loop. *)
Lemma in_loop_ok cb wr o s :
  inv s -> alive s = true -> check o s = true -> (o = StartRead \/ o = StopRead -> closable s = true) ->
  inv (act_in_loop cb wr o s).
Proof.
  intros Hi Ha Hc Hrd. assert (closable s = true) as Hcl.
  { destruct o; try (by apply Hrd; auto); simpl in Hc; [|by apply bool_decide_eq_true_1 in Hc; apply closable_spec; auto|done|done].
    apply bool_decide_eq_true_1 in Hc. apply closable_spec. auto. }
  assert (inv (set_state kDisconnecting s)) as Hdis by (by apply (life_inv_disconnecting (timers s))).
  destruct o; simpl.
  - apply life_sendInLoop_ok; [done|done|]. apply closable_spec in Hcl as [->| ->]; done.
  - done.
  - apply life_inv_queue; try done. left. apply closable_spec. by right.
  - by apply life_inv_disconnecting.
  - unfold startReadInLoop. destruct (_ || _); [by apply inv_reading|done].
  - unfold stopReadInLoop. destruct (_ || _); [by apply inv_reading|done].
Qed.

(** A thread goes on in a public function; it keeps its pointer. *)
Lemma inv_user s i u u' :
  inv s -> users s !! i = Some u -> (forall o, u' = Checked o -> o <> StartRead /\ o <> StopRead) ->
  inv (set_users (<[i := u']> (users s)) s).
Proof.
  intros Hi Hu Hu'. constructor; try apply Hi; simpl.
  - rewrite (inv_alive _ Hi), !refs_queued. simpl. by rewrite map_size_insert_Some by eauto.
  - intros k o [[<- Hk]|[_ Hk]]%lookup_insert_Some; [by apply Hu'|]. by eapply inv_users.
Qed.

(** The rest of a public function in another thread, the connection being open. *)
Lemma act_ok o s : inv s -> closable s = true -> o <> StartRead -> o <> StopRead -> inv (act o s).
Proof.
  intros Hi Hcl H1 H2.
  assert (alive s = true) as Ha.
  { rewrite (inv_alive _ Hi). apply bool_decide_eq_true_2. rewrite refs_queued.
    destruct (proj1 (phase_open s Hcl) (inv_phase _ Hi)) as (-> & _). lia. }
  assert (inv (set_state kDisconnecting s)) as Hdis by (by apply (life_inv_disconnecting (timers s))).
  destruct o; try done; simpl.
  - apply life_inv_queue; auto; done.
  - apply life_inv_queue; try done. by left.
  - apply life_inv_queue; try done. by left.
  - by apply life_inv_disconnecting.
Qed.

Lemma drop_ok s i : inv s -> users s !! i = Some Idle ->
  exists s', settle (set_users (delete i (users s)) s) = Done s' /\ inv s'.
Proof.
  intros Hi Hu. assert (alive s = true) as Ha.
  { rewrite (inv_alive _ Hi). apply bool_decide_eq_true_2. rewrite refs_queued.
    assert (size (users s) <> 0%nat) by (intros Hz%map_size_empty_inv; by rewrite Hz in Hu). lia. }
  apply settle_ok; try apply Hi; [done|]. cbn [users set_users]. intros k o [_ Hk]%lookup_delete_Some. by eapply inv_users.
Qed.

Lemma loop_ok lb s : inv s -> allowed s lb -> exists s', step same_loop s lb = Done s' /\ inv s'.
Proof.
  intros Hi Hal. destruct lb as [|cb wr| | |cb|cb wr o| | | |i|i|i o|i]; cbn [step]; try done.
  - destruct (in_functors s) eqn:Hf; [by exists s|]. destruct (inv_vector _ Hi Hf) as [Hr Hs]. eexists. split; [done|].
    assert (queued (set_io [] (set_vector true (io s) [] s)) = queued s) as Hq
      by (unfold queued; simpl; by rewrite Hr, app_nil_r).
    eapply life_inv_same; [exact Hi| |done|done|done|by eapply phase_ext; [apply Hi|..]|by apply quiet_same].
    rewrite !refs_queued, Hq. simpl. by rewrite Hs.
  - destruct (running s) as [|f q] eqn:Hr; [by exists s|]. by apply run_ok.
  - destruct (in_functors s) eqn:Hf; [|by exists s]. destruct (running s) as [|f q] eqn:Hr; [|by exists s].
    assert (queued (set_vector false [] [] s) = queued s) as Hq by (unfold queued; simpl; by rewrite Hr).
    apply settle_ok; [|apply Hi|done|by eapply phase_ext; [apply Hi|..]|rewrite Hq; apply Hi].
    rewrite refs_queued, Hq. cbn -[count size]. rewrite count_nil. intros Hn. change (alive s = true). rewrite (inv_alive _ Hi).
    apply bool_decide_eq_true_2. rewrite refs_queued. lia.
  - destruct (negb (in_functors s) && added s && (reads s || writes s) && alive s) eqn:Hg; [|by exists s].
    apply andb_true_iff in Hg as [[[_ Had]%andb_true_iff Hrw]%andb_true_iff Ha].
    apply life_handleClose_ok; [done|done|]. pose proof (inv_phase _ Hi) as Hp. unfold phase in Hp. apply closable_spec.
    destruct (state_ s); auto; exfalso; [destruct Hp as (Hr & Hw & _)|destruct Hp as (_ & _ & _ & Hr & Hw)]; by rewrite Hr, Hw in Hrw.
  - destruct (negb (in_functors s) && added s && writes s && alive s) eqn:Hg; [|by exists s].
    apply andb_true_iff in Hg as [[[_ Had]%andb_true_iff Hw]%andb_true_iff Ha]. eexists. split; [done|].
    assert (closable s = true) as Hc.
    { pose proof (inv_phase _ Hi) as Hp. unfold phase in Hp. apply closable_spec.
      destruct (state_ s); auto; exfalso; [destruct Hp as (_ & Hw' & _)|destruct Hp as (_ & _ & _ & _ & Hw')]; congruence. }
    set (s1 := set_channel (reading_ s) (reads s) false true s). assert (inv s1) as Hi1 by by apply (inv_open s).
    destruct cb; [|done]. apply life_inv_queue; auto; done.
  - destruct (alive s && check o s) eqn:Hg; [|by exists s]. apply andb_true_iff in Hg as [Ha Hc]. eexists. split; [done|].
    apply in_loop_ok; [done..|]. intros [->| ->]; done.
  - destruct (in_functors s); [by exists s|]. destruct (timers s) as [|n]; [by exists s|].
    assert (inv (set_timers n s)) as Hi' by (eapply life_inv_same; try done; [apply Hi..|by apply quiet_same]).
    eexists. split; [done|]. unfold WeakCallback.call, forceClose.
    destruct (alive (set_timers n s)) eqn:Ha; [|done]. destruct (check ForceClose (set_timers n s)) eqn:Hc; [|done].
    apply (in_loop_ok false false ForceClose (set_timers n s)); [done..|]. by intros [?|?].
  - destruct (base s) as [|n] eqn:Hb; [by exists s|]. pose proof (inv_phase _ Hi) as Hp. unfold phase in Hp.
    destruct (state_ s) eqn:Hst; [|by destruct Hp as (_ & _ & ? & _); congruence|by destruct Hp as (_ & ? & _); congruence|by destruct Hp as (_ & ? & _); congruence].
    destruct Hp as (Hr & Hw & Hce & [(Hm & Hb1 & Had & Hcd)|[(_ & ? & _)|(_ & ? & _)]]); [|congruence..].
    unfold removeConnectionInLoop. simpl. rewrite Hm. simpl. eexists. split; [done|].
    eapply life_inv_same; [exact Hi| |done|done|apply Hi| |].
    + rewrite !refs_queued. unfold queued. cbn -[count size app]. rewrite Hm, Hb, !life_count_app, count_cons, count_nil. cbn [strong]. lia.
    + unfold phase, queued. simpl. rewrite Hst. split_and!; [done|done|unfold queued in *; set_solver|]. right. left.
      split_and!; [done|lia|done|]. exists (queued s), []. unfold queued in *. rewrite app_assoc.
      split_and!; [done|done|set_solver|by intros f ?%not_elem_of_nil].
    + intros f. unfold queued. simpl. rewrite app_assoc. intros [?| ->%list_elem_of_singleton]%elem_of_app; auto.
  - apply settle_ok; try apply Hi. rewrite refs_queued. cbn -[count size]. intros Hn. rewrite (inv_alive _ Hi).
    apply bool_decide_eq_true_2. rewrite refs_queued.
    change (running s ++ io s) with (queued s) in Hn. lia.
  - destruct (users s !! i) as [u|] eqn:Hu; [by exists s|]. destruct (alive s) eqn:Ha; [|by exists s]. eexists. split; [done|].
    constructor; try apply Hi; simpl.
    + rewrite Ha. symmetry. apply bool_decide_eq_true_2. rewrite refs_queued. simpl. rewrite map_size_insert_None by done. lia.
    + intros k o [[_ ?]|[_ Hk]]%lookup_insert_Some; [done|]. by eapply inv_users.
  - destruct (users s !! i) as [[|o]|] eqn:Hu; [by apply drop_ok|by exists s|by exists s].
  - destruct (users s !! i) as [[|o']|] eqn:Hu; [|by exists s|by exists s]. destruct (check o s); [|by exists s].
    eexists. split; [done|]. apply (inv_user s i Idle); [done|done|]. intros o' [= <-]. by destruct o.
  - destruct (users s !! i) as [[|o]|] eqn:Hu; [by exists s| |by exists s]. eexists. split; [done|].
    destruct (inv_users _ Hi i o Hu). apply act_ok; [by apply (inv_user s i (Checked o))| |done|done]. exact (Hal o Hu).
Qed.
End same_loop.
End LifetimeFacts.

(** ** Properties *)
Module LifetimeTheorems.
Import TcpConnection (StateE, kDisconnected, kConnecting, kConnected, kDisconnecting).
Import Lifetime LifetimeSpec LifetimeFacts.

Lemma life_init_inv : inv init.
Proof.
  constructor; try done.
  intros f. unfold queued. simpl. by intros ->%list_elem_of_singleton.
Qed.

Lemma life_permitted_runs same_loop lbs : forall s, inv s -> permitted same_loop s lbs ->
  exists s', run_all (step same_loop) s lbs = Done s' /\ inv s'.
Proof.
  induction lbs as [|lb lbs IH]; intros s Hi Hp; [by exists s|]. destruct Hp as [Hal Hp].
  destruct (loop_ok same_loop lb s Hi Hal) as (s1 & He & Hi1).
  cbn [run_all]. rewrite He. cbn [mbind outcome_bind]. by apply IH; [|apply Hp].
Qed.

(** C9.  The life of a connection, under any interleaving of its I/O loop, the
    base loop and other threads that call [send], [shutdown], [forceClose] and
    [forceCloseWithDelay], each in two steps (the test of [state_], and the
    rest).  If the connection is not closed between the two steps of such a
    call, and [startRead] and [stopRead] are called in the I/O loop and only
    while the connection is open, then no functor runs on a destroyed
    connection although some are bound to [this], no assertion fails (so that
    the connection closes once and is removed once), and it is destroyed
    exactly when nothing refers to it any more, disconnected and off the loop. *)
Theorem connection_lifetime same_loop lbs :
  permitted same_loop init lbs ->
  exists s, run_all (step same_loop) init lbs = Done s /\
    alive s = bool_decide (refs s <> 0%nat) /\
    (alive s = false -> state_ s = kDisconnected /\ added s = false) /\
    (forall f, f ∈ queued s -> alive s = true) /\
    (state_ s <> kDisconnected -> in_map s = true).
Proof.
  intros Hp. destruct (life_permitted_runs same_loop lbs init life_init_inv Hp) as (s & He & Hi). exists s.
  split; [done|]. split; [apply Hi|]. split; [|split].
  - intros Ha. apply phase_refs; [apply Hi|]. rewrite (inv_alive _ Hi) in Ha. apply bool_decide_eq_false_1 in Ha.
    by apply dec_stable.
  - intros f Hf. rewrite (inv_alive _ Hi). apply bool_decide_eq_true_2. eapply phase_raw; [apply Hi|done].
  - intros Hst. pose proof (inv_phase _ Hi) as Hph. unfold phase in Hph. destruct (state_ s); [done|by destruct Hph as (_ & ? & _)|by destruct Hph..].
Qed.

(** The tests and the effects are two steps.  Another thread in [send] may be
    overtaken by the end of the connection, and its functor runs on a destroyed
    object. *)
Definition accept_and_share : list label := [SwapFunctors; RunFunctor false false; EndFunctors; Share 1].
Definition close_and_remove : list label := [PeerCloses; RunBase; EndBase].

Example send_after_destruction :
  run_all (step false) init (accept_and_share ++ [Check 1 Send] ++ close_and_remove ++
    [SwapFunctors; RunFunctor false false; Act 1; Drop 1; EndFunctors; SwapFunctors; RunFunctor false false]) = Fault Undefined.
Proof. vm_compute. reflexivity. Qed.

(** [shutdown] overwrites [kDisconnected], and the destructor finds a connection
    that is not closed. *)
Example shutdown_overwrites_state :
  run_all (step false) init (accept_and_share ++ [Check 1 Shutdown] ++ close_and_remove ++
    [Act 1; Drop 1; SwapFunctors; RunFunctor false false; RunFunctor false false; EndFunctors]) = Fault AssertFailure.
Proof. vm_compute. reflexivity. Qed.

(** [forceClose] reopens a closed connection for its functor, which closes it
    again; the server finds nothing to remove. *)
Example forceClose_closes_twice :
  run_all (step false) init (accept_and_share ++ [Check 1 ForceClose] ++ close_and_remove ++
    [Act 1; SwapFunctors; RunFunctor false false; RunFunctor false false; RunBase]) = Fault AssertFailure.
Proof. vm_compute. reflexivity. Qed.

(** [stopRead], which tests nothing, is unsafe from another thread even without
    an interruption, and so is [startRead] in the loop itself after the close:
    [connectDestroyed] then finds a channel that still asks for events. *)
Example stopRead_after_destruction :
  run_all (step false) init (accept_and_share ++ close_and_remove ++
    [SwapFunctors; RunFunctor false false; Check 1 StopRead; Act 1; Drop 1; EndFunctors; SwapFunctors; RunFunctor false false])
  = Fault Undefined.
Proof. vm_compute. reflexivity. Qed.

Example startRead_after_close :
  run_all (step false) init (accept_and_share ++ close_and_remove ++ [Call false false StartRead; SwapFunctors; RunFunctor false false])
  = Fault AssertFailure.
Proof. vm_compute. reflexivity. Qed.

(** *** A connection that is shut down by another thread and closed by its peer *)
Definition example_labels : list label :=
  [SwapFunctors; RunFunctor false false; EndFunctors; Share 1; Check 1 Send; Act 1; Check 1 Shutdown; Drained false; Act 1;
   Drop 1; SwapFunctors; RunFunctor true false; RunFunctor false false; EndFunctors;
   PeerCloses; RunBase; EndBase; SwapFunctors; RunFunctor false false; RunFunctor false false; EndFunctors].

Lemma example_permitted : permitted false init example_labels.
Proof.
  unfold example_labels.
  repeat (match goal with |- permitted _ _ (_ :: _) => idtac end; split;
    [|let s := fresh in let Hs := fresh in intros s Hs; vm_compute in Hs; injection Hs as <-]);
    first [exact I|intros o _; vm_compute; reflexivity].
Qed.

Lemma connection_lifetime_witness :
  exists s, run_all (step false) init example_labels = Done s /\ alive s = false /\ state_ s = kDisconnected /\ added s = false.
Proof.
  destruct (connection_lifetime false example_labels example_permitted) as (s & He & _ & Hd & _). exists s.
  assert (alive s = false) as Ha by (vm_compute in He; injection He as <-; reflexivity).
  split; [exact He|]. split; [exact Ha|]. exact (Hd Ha).
Defined.
End LifetimeTheorems.
